(* ===== verification/_CoqProject ===== *)
-Q . S2P
Prelude.v
Memory.v
Text.v
Types.v
PduIO.v
PduBuf.v
Endian.v
PduSimple.v
PduStatus.v
PduInstance.v
PduPmns.v
PduProfile.v
PduLog.v
ValueBlock.v
PduResult.v
Protocol.v
Hash.v
Profile.v
Access.v
AF.v
Events.v
Queues.v
Cache.v
CacheOps.v
CacheFile.v
CacheLoad.v
OptFetch.v
OptGroups.v
PmnsTree.v
PmnsLoad.v
PmnsWrite.v
Derive.v
DeriveBind.v
DeriveEval.v
DeriveSound.v
DeriveFetch.v
PmnsApi.v
PmnsNames.v
PmdaTree.v
Units.v
Callback.v
MainLoop.v
