(* ===== verification/Prelude.v ===== *)
(** * Performance Co-Pilot: the client library, verified

    This development models the core of libpcp, the library that the programs of
    Performance Co-Pilot (pmcd, its agents, pmlogger and the clients) share to talk
    to each other, and proves what makes it correct.  Paths below are relative to
    src/src/.

    ** The program

    Clients ask a collector daemon (pmcd) for the values of metrics.  Requests and
    replies are PDUs: a header of three words (length, type, sender) and a body,
    sent over a byte stream in network byte order.  libpcp has, for each kind of
    PDU, a routine that builds and sends it and one that decodes it
    (libpcp/src/p_*.c); both work in place in buffers of a reference-counted pool
    (pdubuf.c) and use the transport of pdu.c and the conversions of endian.c.
    Above the protocol are the instance profile of a context (profile.c), hash
    tables (hash.c), the access control of the daemons (access.c), timed events
    (AF.c), the grouping of requests into optimised fetches (optfetch.c) and the
    conversion of values between types and units (units.c).

    Metrics have names.  The name space is a tree that is loaded from a text (pmns.c)
    and written again by the tools (pmns/pmnsutil.c); clients look up names and
    identifiers in it, or ask the collector, and programs change which metrics are
    shown.  Derived metrics are expressions over other metrics: derive.c parses them
    and, when a context is opened, finds the types of their nodes; derive_fetch.c adds
    the operands to a fetch and computes the values from the reply.

    Agents, written with libpcp_pmda, keep events for their clients in queues
    (queues.c) and pack them into event arrays (events.c), which travel as values in
    results and are unpacked by the client library (libpcp/src/events.c).  They keep
    the instances of their domains, with persistent identifiers, in caches (cache.c),
    and may have a name space of their own (libpcp_pmda/src/tree.c).  Their callbacks
    (callback.c) answer fetches and requests for instances from these caches, or from
    tables; their main loop (mainloop.c) reads the requests of the collector, hands each
    to the function for it, and sends the answers.

    ** The files

    - [Prelude]: C integers with their wrap-around, byte buffers, words in host and
      network order, the tactics and hint databases shared by all files.
    - [Memory]: outcomes ([Ok], [Err], [Fault]), the monad [M] of a routine that
      works in one buffer, loads and stores that fault outside of it, and the
      weakest-precondition calculus [wp] the proofs use.
    - [Types]: constants and records of include/pcp/pmapi.h and impl.h, bit fields
      included.
    - [PduIO]: pdu.c.  [Xmit] sends a PDU in the pieces the descriptor takes;
      [Recv] reads PDUs from a stream of read events.  The class [PduAlloc] is what
      the PDU routines rely on of the buffer pool.
    - [PduBuf]: pdubuf.c, the pool; [pool_alloc] discharges [PduAlloc].
    - [Endian]: the conversions of endian.c that are not about value blocks.
    - [PduSimple], [PduStatus], [PduInstance], [PduPmns], [PduProfile], [PduLog]:
      p_desc.c, p_fetch.c, p_creds.c, p_error.c, p_text.c, p_lrequest.c,
      p_userauth.c; p_lstatus.c; p_instance.c; p_pmns.c; p_profile.c; p_lcontrol.c.
    - [ValueBlock]: conversion of value blocks and event arrays (endian.c).
    - [PduResult]: p_result.c.
    - [Protocol]: the interface [Codec] of a kind of PDU, the exchange of messages
      over a stream, and the theorems on the single PDUs.
    - [Hash]: hash.c.  [Profile]: profile.c.
    - [Access]: access.c with the address comparisons of auxconnect.c: the host list,
      admission and release of clients, wildcards for Internet addresses.
    - [AF]: AF.c, the event queue, the interval timer and the alarm handler, with the
      clock and the callbacks as parameters.
    - [Events]: [EventPack] is libpcp_pmda/src/events.c, [EventUnpack] is
      libpcp/src/events.c; the records are those of [ValueBlock].
    - [Queues]: libpcp_pmda/src/queues.c over [EventPack].
    - [Cache], [CacheOps], [CacheFile], [CacheLoad]: libpcp_pmda/src/cache.c.  [Cache]
      has the entries, the hash function, the searches and the operations on a cache,
      and the invariant; [CacheOps] shows that the operations keep it; [CacheFile] has
      the persistent file and the calls of an agent with their theorems; [CacheLoad]
      reads back what was saved.
    - [OptFetch], [OptGroups]: optfetch.c.  [OptFetch] has the structures, the calls and
      the lists of a group; [OptGroups] the cost, the choice of a group and the
      invariant of all groups.
    - [Text]: characters, numbers as text, what sscanf and strtol read of them.
    - [PmnsTree], [PmnsLoad]: pmns.c.  [PmnsTree] has the tree, its hash table, adding
      and marking; [PmnsLoad] the scanner, the parser and the second pass of the loader.
    - [PmnsWrite]: pmns/pmnsutil.c, and that what it writes is loaded again.
    - [Derive], [DeriveBind], [DeriveEval], [DeriveSound], [DeriveFetch]: derive.c and
      derive_fetch.c.  [Derive] has the scanner, the parser and the registration;
      [DeriveBind] the types of a bound expression; [DeriveEval] its evaluation, with a
      heap of the arrays that hold values, and the rewriting of requests and replies;
      [DeriveSound] what an evaluation means and that it stays sound; [DeriveFetch] the
      theorems about contexts and fetches.
    - [PmnsApi], [PmnsNames]: the calls of pmns.c.  [PmnsApi] has the state of the
      library and the calls, with the collector as a parameter; [PmnsNames] their
      theorems.
    - [PmdaTree]: libpcp_pmda/src/tree.c, over the tree of [PmnsTree].
    - [Units]: units.c and stuffvalue.c.
    - [Callback]: libpcp_pmda/src/callback.c and the tables that pmdaInit (open.c)
      prepares; the function of the agent that gives a value, with its state, and the
      files with help texts are parameters.
    - [MainLoop]: libpcp_pmda/src/mainloop.c, over [PduIO], the PDUs and, for an agent
      made from the library, [Callback].

    ** What is shown

    Every PDU that is sent arrives: the decoder yields the message given to the
    sender, for every well-formed message, however the stream is cut into pieces
    ([codec_exchange], [result_exchange], the round trips).  Decoders stay inside
    of the receive buffer whatever a peer sends ([decoders_safe],
    [decoders_safe_if]); where they do not, a PDU that breaks them is given
    ([decoders_fault]).  The pool keeps its invariant and refines a map of reference
    counts; hash tables refine finite maps; profile edits have their documented
    effect on every instance.  Access control keeps its host list in order, decides
    by the most specific entry that specifies an operation, and forgets a client that
    leaves ([access_reachable_inv], [client_permissions], [client_add_del]).  The
    alarm handler returns, runs exactly the callbacks that are due and arms the timer
    ([onalarm_runs]).  What an agent packs into an event array is what a client
    unpacks ([event_roundtrip]); event queues keep to their limit and deliver in
    order ([queue_reachable_inv], [append_makes_room], [fetch_delivers]).  The hash
    chains of an instance cache lead to what a search of its list finds, lookups find
    what was stored, and a cache that is saved and loaded has its instances again
    ([hash_lookup_linear], [store_lookup], [cache_reachable_inv],
    [cache_never_faults], [save_load]).  Fetch groups stay in order, their cost counts
    agents and unwanted instances, and a request goes where it costs least
    ([optfetch_reachable_inv], [cost_formula], [add_cheapest], [del_removes],
    [redo_keeps_requests]).

    A name that is added gets its identifier and nothing else changes ([add_inserts]);
    indexing finds duplicate identifiers, and then locates exactly the names
    ([fix_locates]); every tree that is made, indexed and marked stays in order
    ([tree_reachable_inv]).  The loader comes to an end ([loader_stops]), what it
    accepts is a tree in order ([loaded_in_order]), and what is written is loaded
    again ([load_output]).  Names and identifiers are inverse to each other
    ([names_and_ids]), the traversal reaches each name once ([traverse_all]), children
    are those of the tree and the derived metrics below the name ([children_exact]),
    trimming leaves the metrics of an archive ([trim_to_archive]), and no call follows
    a bad pointer as long as no load has failed ([api_never_wild]).

    Registering an expression ends, and an expression has the tree of the usual
    precedence unless a division comes first ([register_ends],
    [expression_registered]).  Opening a context gives every node a type or drops the
    metric ([context_typed]); an expression with types evaluates to its meaning and
    uses no memory it does not own ([evaluation_sound]); and a client gets these values,
    fetch after fetch ([fetch_derived]).

    The names an agent gives for an identifier are those it takes to it, and the blocks
    for names are large enough ([tree_names], [tree_children]).  The text of units fits
    its buffer ([units_text_fits]); a conversion gives the nearest number of the new
    unit ([scale_nearest]); and a value that is put into a result is taken out again, or
    refused with the right error ([stuffed_extracted]).  A fetch that an agent answers has
    exactly the values of the instances the profile selects, in order ([fetch_values]), and
    its answers about names and instances agree ([instances_agree]).  Put together with the
    protocol, an agent hands every request that reaches it to the function for it and a
    client gets exactly the answers ([agent_serves]), for a fetch exactly the values
    ([remote_fetch]).

    Theorems and lemmas that show the code not doing what it means to are stated as
    such, at the end of each file.

    ** Conventions and bounds

    The host is little-endian with 64-bit pointers, and PCP_DEBUG is defined, as in
    the distributed builds.  Integers are kept at their width: [s32], [u32] and
    [u64] write out the wrap-around.  [Fault] is an access outside of a buffer or
    the use of a pointer that was never set.  Loops over a count taken from the code
    recurse on that count; [walk_skip] has fuel, and the number of chains is shown
    to be enough; [onalarm] has fuel, and [onalarm_runs] says how much the alarm
    handler needs while the clock stands still; [grow] has enough for any size an int
    can hold; [load_loop] has the length of the file and [load_loop_fuel] shows that it
    is enough; [walk_until] has the length of the list, which [walk_until_find] shows
    to be enough; [show_pos] has the digits of an int; a walk over the instances of an
    agent has one step more than there are instances, and a [Fault] of [collect] stands
    for a loop that does not end; the main loop is followed for as many PDUs as there are
    descriptors for answers, and [agent_serves] says that it ends.  What unset or freed memory
    holds is said by a [world] where the code reads it.  A descriptor is the list of what its write calls return, or of
    what its reads see.

    ** Not modelled

    Failure of malloc (except in the pool), diagnostics and tracing, the per-type
    PDU counters, the pins of the buffers in the main loop of an agent, the clock behind time-outs, locks other than the depth of the
    library lock in the pool, the decoding of results on hosts with 32-bit pointers,
    IPv6 wildcards and the resolution of host names in access.c, and the Windows
    timer in AF.c.  Of the name space: the check whether the file has changed, and
    dumps.  Of derived metrics: dumps, and the freeing of a context.  Floating point
    numbers are those of IEEE 754; of a NaN that is computed neither sign nor payload
    are kept.  Of units.c: the text of values, which prints floating point numbers.
    Of libpcp: archives (log*.c, interp.c), whose state lies in files that are read
    with stdio, and contexts and connections, which are sockets and processes; of
    libpcp_pmda: options, connections, help files, and what a dump of an instance cache
    prints.  The daemons, tools and agents above the libraries are not modelled: they
    read sockets, files and the statistics of operating systems. *)
From coqutil Require Export Byte Word.LittleEndianList.
From stdpp Require Export prelude.
Open Scope Z_scope.

(** ** C integers *)

Definition INT_MAX : Z := 2147483647.
(** [(unsigned int)x] and [(int)x] of a two's complement 32-bit machine. *)
Definition u32 (x : Z) : Z := x mod 2^32.
Definition s32 (x : Z) : Z := (x + 2^31) mod 2^32 - 2^31.
(** [(size_t)x] on a 64-bit host. *)
Definition u64 (x : Z) : Z := x mod 2^64.

Definition is_s32 (x : Z) : Prop := - 2^31 <= x < 2^31.
Definition is_u32 (x : Z) : Prop := 0 <= x < 2^32.

Lemma u32_range x : is_u32 (u32 x).
Proof. unfold is_u32, u32. apply Z.mod_pos_bound. lia. Qed.
Lemma s32_range x : is_s32 (s32 x).
Proof. unfold is_s32, s32. pose proof (Z.mod_pos_bound (x + 2^31) (2^32)). lia. Qed.
Lemma u32_id x : is_u32 x → u32 x = x.
Proof. intros. by apply Z.mod_small. Qed.
Lemma s32_id x : is_s32 x → s32 x = x.
Proof. intros H. unfold s32, is_s32 in *. rewrite Z.mod_small; lia. Qed.
Lemma s32_u32 x : s32 (u32 x) = s32 x.
Proof. unfold s32, u32. by rewrite Zplus_mod_idemp_l. Qed.
Lemma s32_u32_id x : is_s32 x → s32 (u32 x) = x.
Proof. intros. by rewrite s32_u32, s32_id. Qed.
Lemma u64_id x : 0 <= x < 2^64 → u64 x = x.
Proof. intros. by apply Z.mod_small. Qed.

(** ** Buffers of bytes and their words *)

Abbreviation buf := (list byte).
Abbreviation zlen l := (Z.of_nat (length l)).

#[export] Instance byte_eq_decision : EqDecision byte := Byte.byte_eq_dec.

(** The four bytes of a word in host (little-endian) memory order, and in
    network order. *)
Definition le32 (x : Z) : buf := le_split 4 x.
Definition be32 (x : Z) : buf := rev (le_split 4 x).

Arguments le32 : simpl never.
Arguments be32 : simpl never.
Arguments u32 : simpl never.
Arguments s32 : simpl never.
Arguments u64 : simpl never.

Lemma length_le32 x : length (le32 x) = 4%nat.
Proof. apply length_le_split. Qed.
Lemma length_be32 x : length (be32 x) = 4%nat.
Proof. unfold be32. by rewrite length_rev, length_le_split. Qed.

Create Rewrite HintDb lens.
Create Rewrite HintDb word.
#[export] Hint Rewrite @length_app @length_le32 @length_be32 @length_cons
  @length_nil @length_take @length_drop @length_replicate @length_map
  @length_rev @length_fmap : lens.

(** [lens] normalises every length in sight and calls [lia]. *)
Ltac lens := first
  [ autorewrite with lens; simpl length; lia
  | autorewrite with lens in *; simpl length in *; lia ].

Lemma le_combine_le32 x : le_combine (le32 x) = u32 x.
Proof. unfold le32. by rewrite le_combine_split. Qed.

(** The bytes of a word depend on its value modulo [2^32] only. *)
Lemma le32_u32 x : le32 (u32 x) = le32 x.
Proof. unfold le32, u32. by rewrite (le_split_mod x 4). Qed.
Lemma be32_u32 x : be32 (u32 x) = be32 x.
Proof. unfold be32. f_equal. apply le32_u32. Qed.
Lemma u32_s32 x : u32 (s32 x) = u32 x.
Proof.
  unfold u32, s32. rewrite Zminus_mod_idemp_l. f_equal. lia.
Qed.
Lemma u32_u32 x : u32 (u32 x) = u32 x.
Proof. apply u32_id, u32_range. Qed.
Lemma le32_s32 x : le32 (s32 x) = le32 x.
Proof. by rewrite <- le32_u32, u32_s32, le32_u32. Qed.
Lemma be32_s32 x : be32 (s32 x) = be32 x.
Proof. by rewrite <- be32_u32, u32_s32, be32_u32. Qed.
#[export] Hint Rewrite le32_u32 be32_u32 le32_s32 be32_s32 s32_u32 : word.

(** ** Searching a linked list *)

(** The first element satisfying [P], with what stands before and after it: a
    [for] loop over a chain that keeps the prior node for unlinking. *)
Fixpoint split_find {A} (P : A → bool) (l : list A) : option (list A * A * list A) :=
  match l with
  | [] => None
  | x :: l => if P x then Some ([], x, l)
              else '(p, y, q) ← split_find P l; Some (x :: p, y, q)
  end.

Lemma split_find_Some {A} (P : A → bool) l p x q :
  split_find P l = Some (p, x, q) →
  l = p ++ x :: q ∧ P x = true ∧ Forall (λ y, P y = false) p.
Proof.
  revert p x q. induction l as [|a l IH]; intros p x q; simpl; [done |].
  destruct (P a) eqn:HP; [by intros [= <- <- <-] |].
  destruct (split_find P l) as [[[p' y] q']|]; simpl; [| done].
  intros [= <- <- <-]. destruct (IH p' y q' eq_refl) as (-> & ? & ?). split_and!; [done .. |].
  by constructor.
Qed.
Lemma split_find_None {A} (P : A → bool) l :
  split_find P l = None ↔ Forall (λ y, P y = false) l.
Proof.
  induction l as [|a l IH]; simpl; [done |]. destruct (P a) eqn:HP.
  - split; [done |]. intros H. inversion H. congruence.
  - rewrite Forall_cons, <- IH. destruct (split_find P l) as [[[p y] q]|]; simpl; [| tauto].
    split; [done |]. by intros [_ H].
Qed.
(** With a single match, the search finds it. *)
Lemma split_find_app {A} (P : A → bool) p x q :
  Forall (λ y, P y = false) p → P x = true → split_find P (p ++ x :: q) = Some (p, x, q).
Proof. intros Hp Hx. induction Hp as [|y p Hy _ IH]; simpl; [by rewrite Hx | by rewrite Hy, IH]. Qed.

Lemma filter_none {A} (P : A → Prop) `{!∀ x, Decision (P x)} (l : list A) :
  Forall (λ x, ¬ P x) l → filter P l = [].
Proof. induction 1; [done |]. by rewrite filter_cons_False. Qed.
