(* ===== verification/Memory.v ===== *)
(** Memory: the byte buffers the PDU routines read and write. *)
From S2P Require Import Prelude.

(** ** Outcomes *)

(** [Ok]: the routine returned normally; [Err sts]: it returned the negative
    status [sts]; [Fault]: it accessed memory outside the buffer. *)
Inductive res (A : Type) : Type :=
| Ok (a : A)
| Err (sts : Z)
| Fault.
Arguments Ok {_} _.
Arguments Err {_} _.
Arguments Fault {_}.

#[export] Instance res_ret : MRet res := λ A, Ok.
#[export] Instance res_bind : MBind res := λ A B f m,
  match m with Ok a => f a | Err e => Err e | Fault => Fault end.
#[export] Instance res_fmap : FMap res := λ A B f m,
  match m with Ok a => Ok (f a) | Err e => Err e | Fault => Fault end.

(** A computation over one buffer, which it may update in place. *)
Definition M (A : Type) : Type := buf → res (A * buf).

#[export] Instance M_ret : MRet M := λ A a b, Ok (a, b).
#[export] Instance M_bind : MBind M := λ A B f m b,
  match m b with Ok (a, b') => f a b' | Err e => Err e | Fault => Fault end.

Definition fail {A} (sts : Z) : M A := λ _, Err sts.
(** [if (c) return sts;] *)
Definition check (c : bool) (sts : Z) : M unit := if c then fail sts else mret tt.

Definition get (o : Z) (n : nat) (b : buf) : buf := take n (drop (Z.to_nat o) b).
Definition put (o : Z) (bs : buf) (b : buf) : buf :=
  take (Z.to_nat o) b ++ bs ++ drop (Z.to_nat o + length bs) b.

(** [memcpy] out of and into the buffer at byte offset [o]. *)
Definition loadn (o : Z) (n : Z) : M buf := λ b,
  if (0 <=? o) && (0 <=? n) && (o + n <=? zlen b)
  then Ok (get o (Z.to_nat n) b, b) else Fault.
Definition storen (o : Z) (bs : buf) : M unit := λ b,
  if (0 <=? o) && (o + zlen bs <=? zlen b) then Ok (tt, put o bs b) else Fault.

(** A 32-bit word at byte offset [o], in host byte order. *)
Definition load32 (o : Z) : M Z := w ← loadn o 4; mret (le_combine w).
Definition store32 (o : Z) (x : Z) : M unit := storen o (le32 x).

(** ** What a buffer holds *)

(** [has b o bs]: the bytes [bs] stand at offset [o] of [b]. *)
Definition has (b : buf) (o : Z) (bs : buf) : Prop :=
  0 <= o ∧ o + zlen bs <= zlen b ∧ get o (length bs) b = bs.

Lemma has_get b o n : 0 <= o → 0 <= n → o + n <= zlen b → has b o (get o (Z.to_nat n) b).
Proof.
  intros. assert (length (get o (Z.to_nat n) b) = Z.to_nat n) as E by (unfold get; lens).
  unfold has. rewrite E. split_and!; [done | lia | done].
Qed.

Lemma has_app b o x y : has b o (x ++ y) ↔ has b o x ∧ has b (o + zlen x) y.
Proof.
  destruct (decide (0 <= o)) as [Ho|Ho]; [| unfold has; split; intros; lia].
  unfold has, get. rewrite length_app.
  replace (Z.to_nat (o + zlen x)) with (Z.to_nat o + length x)%nat by lia.
  rewrite <- drop_drop. set (d := drop (Z.to_nat o) b).
  assert (length d = length b - Z.to_nat o)%nat as Hd by (unfold d; lens).
  split.
  - intros (_ & Hl & E).
    rewrite <- (take_drop (length x) d), take_app_add' in E by lens.
    apply app_inj_1 in E as [E1 E2]; [| lens].
    split_and!; [lia | lia | done | lia | lia | done].
  - intros [(_ & ? & E1) (_ & ? & E2)]. split_and!; [lia | lia |].
    rewrite <- (take_drop (length x) d), take_app_add' by lens. by rewrite E1, E2.
Qed.

Lemma has_nil b o : 0 <= o <= zlen b → has b o [].
Proof. intros. split; [lia |]. split; [simpl; lia | done]. Qed.

Lemma has_cons_app b o x y z : has b o (x ++ y ++ z) → has b o (x ++ y).
Proof. rewrite !has_app. tauto. Qed.

Lemma length_put o bs b : 0 <= o → o + zlen bs <= zlen b → length (put o bs b) = length b.
Proof. intros. unfold put. lens. Qed.

Lemma has_put_eq b o bs : 0 <= o → o + zlen bs <= zlen b → has (put o bs b) o bs.
Proof.
  intros. unfold has. rewrite length_put by done. split_and!; [lia .. |].
  unfold get, put. rewrite drop_app_length', take_app_length'; [done .. |].
  lens.
Qed.

Lemma has_put_ne b o bs o' x :
  0 <= o → o + zlen bs <= zlen b → has b o' x →
  o' + zlen x <= o ∨ o + zlen bs <= o' → has (put o bs b) o' x.
Proof.
  intros H1 H2 (H3 & H4 & E) Hd. unfold has. rewrite length_put by done.
  split_and!; [lia .. |]. rewrite <- E at 2. unfold get, put.
  apply list_eq. intros i.
  destruct (decide (i < length x)%nat) as [Hi|Hi].
  2: { rewrite !lookup_ge_None_2; [done |..]; lens. }
  rewrite !lookup_take_lt, !lookup_drop by done.
  destruct Hd as [Hd|Hd].
  - rewrite lookup_app_l by lens. rewrite lookup_take_lt by lia. done.
  - rewrite lookup_app_r by lens. rewrite lookup_app_r by lens.
    rewrite lookup_drop. f_equal. lens.
Qed.

Lemma has_sub b o x y z : has b o (x ++ y ++ z) → has b (o + zlen x) y.
Proof. rewrite !has_app. tauto. Qed.

Lemma has_length b o x : has b o x → 0 <= o ∧ o + zlen x <= zlen b.
Proof. intros (? & ? & _). lia. Qed.

(** ** Network byte order *)

(** [htonl] and [ntohl] of a little-endian host: both reverse the bytes. *)
Definition htonl (x : Z) : Z := le_combine (be32 x).
Definition ntohl (x : Z) : Z := le_combine (be32 x).

Arguments htonl : simpl never.
Arguments ntohl : simpl never.

Lemma le32_htonl x : le32 (htonl x) = be32 x.
Proof. unfold le32, htonl. apply split_le_combine'. apply length_be32. Qed.
Lemma ntohl_be32 x : ntohl (le_combine (be32 x)) = u32 x.
Proof.
  unfold ntohl, be32 at 1. rewrite (split_le_combine' (be32 x) 4) by apply length_be32.
  unfold be32. rewrite rev_involutive. apply le_combine_le32.
Qed.
Lemma be32_le_combine w : length w = 4%nat → be32 (le_combine w) = rev w.
Proof. intros. unfold be32. by rewrite split_le_combine'. Qed.
Lemma ntohl_htonl x : ntohl (htonl x) = u32 x.
Proof. apply ntohl_be32. Qed.
Lemma le_combine_range w : length w = 4%nat → is_u32 (le_combine w).
Proof. intros H. pose proof (le_combine_bound w). rewrite H in *. unfold is_u32. lia. Qed.
Lemma ntohl_range x : is_u32 (ntohl x).
Proof. apply le_combine_range, length_be32. Qed.

(** From here on a word is reasoned about through the lemmas above. *)
#[global] Opaque le32 be32.

(** ** Weakest preconditions *)

(** [wp m E Q b]: run from [b], [m] accesses no memory outside its buffer,
    returns only statuses in [E], and a normal return establishes [Q]. *)
Definition wp {A} (m : M A) (E : Z → Prop) (Q : A → buf → Prop) (b : buf) : Prop :=
  match m b with Ok (a, b') => Q a b' | Err e => E e | Fault => False end.
(** The two extreme choices of [E]. *)
Definition anyerr : Z → Prop := λ _, True.
Definition noerr : Z → Prop := λ _, False.

Section wp.
Context {A : Type} (E : Z → Prop).
Implicit Types (Q : A → buf → Prop) (b : buf).

Lemma wp_ok (m : M A) Q b a b' : m b = Ok (a, b') → Q a b' → wp m E Q b.
Proof. unfold wp. by intros ->. Qed.
Lemma wp_ret a Q b : Q a b → wp (mret a) E Q b.
Proof. done. Qed.
Lemma wp_bind {B} (m : M B) (f : B → M A) Q b :
  wp m E (λ a b', wp (f a) E Q b') b → wp (m ≫= f) E Q b.
Proof. unfold wp, mbind, M_bind. by destruct (m b) as [[??]| |]. Qed.
Lemma wp_mono (m : M A) Q Q' b :
  (∀ a b', Q a b' → Q' a b') → wp m E Q b → wp m E Q' b.
Proof. unfold wp. destruct (m b) as [[??]| |]; naive_solver. Qed.
Lemma wp_and (m : M A) Q Q' b :
  wp m E Q b → wp m E Q' b → wp m E (λ a b', Q a b' ∧ Q' a b') b.
Proof. unfold wp. by destruct (m b) as [[??]| |]. Qed.
Lemma wp_fail e Q b : E e → wp (fail e) E Q b.
Proof. done. Qed.
End wp.

Lemma wp_check E (c : bool) e (Q : unit → buf → Prop) b :
  (c = true → E e) → (c = false → Q tt b) → wp (check c e) E Q b.
Proof. destruct c; [by intros H _; apply H | by intros _ H; apply H]. Qed.

Lemma wp_loadn E o n (Q : buf → buf → Prop) b :
  0 <= o → 0 <= n → o + n <= zlen b → Q (get o (Z.to_nat n) b) b → wp (loadn o n) E Q b.
Proof.
  intros. unfold wp, loadn.
  by rewrite !(proj2 (Z.leb_le _ _)) by lia.
Qed.
Lemma wp_loadn_has E o n w (Q : buf → buf → Prop) b :
  has b o w → n = zlen w → Q w b → wp (loadn o n) E Q b.
Proof.
  intros (? & ? & Hg) -> HQ. apply wp_loadn; [lia .. |]. by rewrite Nat2Z.id, Hg.
Qed.
Lemma wp_storen E o bs (Q : unit → buf → Prop) b :
  0 <= o → o + zlen bs <= zlen b → Q tt (put o bs b) → wp (storen o bs) E Q b.
Proof. intros. unfold wp, storen. by rewrite !(proj2 (Z.leb_le _ _)) by lia. Qed.

Lemma wp_load32 E o (Q : Z → buf → Prop) b :
  0 <= o → o + 4 <= zlen b → (∀ v, is_u32 v → Q v b) → wp (load32 o) E Q b.
Proof.
  intros ? ? HQ. apply wp_bind, wp_loadn; [lia .. |]. apply wp_ret, HQ, le_combine_range.
  unfold get. lens.
Qed.
Lemma wp_load32_has E o w (Q : Z → buf → Prop) b :
  has b o w → length w = 4%nat → Q (le_combine w) b → wp (load32 o) E Q b.
Proof.
  intros Hh Hl HQ. eapply wp_bind, wp_loadn_has; [done | lia |]. by apply wp_ret.
Qed.
Lemma wp_store32 E o x (Q : unit → buf → Prop) b :
  0 <= o → o + 4 <= zlen b → Q tt (put o (le32 x) b) → wp (store32 o x) E Q b.
Proof. intros. apply wp_storen; [lia | | done]. rewrite length_le32. lia. Qed.
Lemma wp_store32_htonl E o x (Q : unit → buf → Prop) b :
  0 <= o → o + 4 <= zlen b → Q tt (put o (be32 x) b) → wp (store32 o (htonl x)) E Q b.
Proof. intros. apply wp_store32; [lia .. |]. by rewrite le32_htonl. Qed.

(** From a [wp] back to the value of the run. *)
Lemma wp_noerr_run {A} (m : M A) (Q : A → buf → Prop) b :
  wp m noerr Q b → ∃ a b', m b = Ok (a, b') ∧ Q a b'.
Proof. unfold wp, noerr. destruct (m b) as [[??]| |]; naive_solver. Qed.
Lemma wp_anyerr_nofault {A} (m : M A) (Q : A → buf → Prop) b :
  wp m anyerr Q b → m b ≠ Fault.
Proof. unfold wp. by destruct (m b) as [[??]| |]. Qed.

(** ** The PDU header *)

(** [__pmPDUHdr]: [len], [type] and [from], 12 bytes. *)
Definition sizeof_hdr : Z := 12.
Definition hdr_len : M Z := w ← load32 0; mret (s32 w).
Definition hdr_type : M Z := w ← load32 4; mret (s32 w).
Definition hdr_from : M Z := w ← load32 8; mret (s32 w).
Definition set_hdr (len type from : Z) : M unit :=
  store32 0 len;; store32 4 type;; store32 8 from.

(** [is_pdu b ty from body]: [b] holds the PDU with this type, sender and body
    the way [__pmGetPDU] leaves it, header in host byte order. *)
Definition is_pdu (b : buf) (ty from : Z) (body : buf) : Prop :=
  has b 0 (le32 (sizeof_hdr + zlen body) ++ le32 ty ++ le32 from ++ body)
  ∧ sizeof_hdr + zlen body < 2^31.

(** ** Proof automation for buffer programs *)

Lemma has_at b o o' w : has b o' w → o' = o → has b o w.
Proof. by intros ? <-. Qed.

(** A store, seen through what it leaves in the buffer: the new bytes, and
    everything it does not overlap. *)
Lemma wp_storen_frame E o bs (Q : unit → buf → Prop) b :
  0 <= o → o + zlen bs <= zlen b →
  (∀ b', length b' = length b → has b' o bs →
     (∀ o' x, has b o' x → o' + zlen x <= o ∨ o + zlen bs <= o' → has b' o' x) → Q tt b') →
  wp (storen o bs) E Q b.
Proof.
  intros ? ? HQ. apply wp_storen; [done .. |]. apply HQ.
  - by apply length_put.
  - by apply has_put_eq.
  - intros. by apply has_put_ne.
Qed.
Lemma wp_store32_frame E o x (Q : unit → buf → Prop) b :
  0 <= o → o + 4 <= zlen b →
  (∀ b', length b' = length b → has b' o (le32 x) →
     (∀ o' y, has b o' y → o' + zlen y <= o ∨ o + 4 <= o' → has b' o' y) → Q tt b') →
  wp (store32 o x) E Q b.
Proof.
  intros ? ? HQ. apply wp_storen_frame; [done | rewrite length_le32; lia |].
  intros. apply HQ; [done .. |]. intros. apply H3; [done |]. rewrite length_le32. lia.
Qed.

(** What stays the same outside the range [p, p + n). *)
Definition framed (p n : Z) (b b' : buf) : Prop :=
  length b' = length b ∧
  ∀ o x, has b o x → o + zlen x <= p ∨ p + n <= o → has b' o x.
Lemma framed_refl p n b : framed p n b b.
Proof. by split. Qed.
Lemma framed_trans p n b1 b2 b3 : framed p n b1 b2 → framed p n b2 b3 → framed p n b1 b3.
Proof. intros [L1 F1] [L2 F2]. split; [lia | auto]. Qed.

(** [has_tac] proves [has b o w] from a hypothesis with an equal offset. *)
Ltac has_tac := match goal with
  | H : has ?b _ ?w |- has ?b _ ?w => apply (has_at _ _ _ _ H); solve [lens]
  | H : has ?b _ ?w |- has ?b _ _ => apply (has_at _ _ _ _ H); solve [lens]
  end.
(** [has_split] breaks every [has b o (x ++ y)] into its parts. *)
Ltac has_split := repeat match goal with
  | H : has _ _ (_ ++ _) |- _ => apply has_app in H; destruct H
  end.
(** [has_join] proves a [has b o (x ++ y)] part by part. *)
Ltac has_join := repeat (rewrite has_app; split); try has_tac.

Ltac frame_has b b' F := repeat match goal with
  | H : has b ?o ?x |- _ =>
      let H' := fresh H in
      first [ assert (has b' o x) as H' by (apply (F _ _ H); lens); clear H
            | clear H ]
  end; clear F.

(** [lens], also using what the [has] hypotheses say about lengths. *)
Ltac hlens := first [ lens
  | repeat match goal with
    | H : has _ _ _ |- _ => apply has_length in H
    end; lens ].

(** Extended by the files that add buffer operations of their own. *)
Ltac wp_ext := fail.

(** One step of symbolic execution. *)
Ltac wp1 := lazymatch goal with
  | |- wp (mret _) _ _ _ => apply wp_ret
  | |- wp (fail _) _ _ _ => apply wp_fail
  | |- wp (_ ≫= _) _ _ _ => apply wp_bind
  | |- wp (check _ _) _ _ _ => apply wp_check; intros ?
  | |- wp (store32 _ (htonl _)) _ _ ?b =>
      apply wp_store32_frame; [hlens | hlens |];
      let b' := fresh "b" in let L := fresh "Hlen" in let N := fresh "Hhas" in
      let F := fresh "F" in intros b' L N F; rewrite le32_htonl in N; frame_has b b' F
  | |- wp (store32 _ _) _ _ ?b =>
      apply wp_store32_frame; [hlens | hlens |];
      let b' := fresh "b" in let L := fresh "Hlen" in let N := fresh "Hhas" in
      let F := fresh "F" in intros b' L N F; frame_has b b' F
  | |- wp (storen _ _) _ _ ?b =>
      apply wp_storen_frame; [hlens | hlens |];
      let b' := fresh "b" in let L := fresh "Hlen" in let N := fresh "Hhas" in
      let F := fresh "F" in intros b' L N F; frame_has b b' F
  | |- wp (load32 _) _ _ _ =>
      first [ eapply wp_load32_has; [has_tac | by rewrite ?length_le32, ?length_be32 |];
              rewrite ?le_combine_le32, ?ntohl_be32
            | apply wp_load32; [hlens | hlens | intros ? ?] ]
  | |- wp (loadn _ _) _ _ _ =>
      first [ eapply wp_loadn_has; [has_tac | lens |]
            | apply wp_loadn; [hlens | hlens | hlens |] ]
  | |- wp hdr_len _ _ _ => unfold hdr_len
  | |- wp hdr_type _ _ _ => unfold hdr_type
  | |- wp hdr_from _ _ _ => unfold hdr_from
  | |- wp (set_hdr _ _ _) _ _ _ => unfold set_hdr
  | |- wp (if _ then _ else _) _ _ _ => case_match
  | _ => wp_ext
  end.
