(* ===== verification/Text.v ===== *)
(** Text of the C library: classes of characters in the C locale, printing and scanning of
    numbers, strings read from a position in an array, and reading a file by lines. *)
From S2P Require Import Prelude Memory.
From Stdlib Require Export (notations) Strings.String.

(** A string literal as bytes. *)
Definition lit (s : String.string) : buf := String.list_byte_of_string s.
Arguments lit s%_string_scope.
Definition NUL : byte := Byte.x00.
Definition newline : byte := Byte.x0a.
Definition space : byte := Byte.x20.
Definition bracket_open : byte := Byte.x5b.
Definition bracket_close : byte := Byte.x5d.
Definition isspace (c : byte) : bool := let x := byte.unsigned c in (x =? 32) || ((9 <=? x) && (x <=? 13)).
Definition isdigit (c : byte) : bool := let x := byte.unsigned c in (48 <=? x) && (x <=? 57).
Definition isalpha (c : byte) : bool :=
  let x := byte.unsigned c in ((65 <=? x) && (x <=? 90)) || ((97 <=? x) && (x <=? 122)).
Definition digit (d : Z) : byte := byte.of_Z (48 + d).
(** "%d". *)
Fixpoint show_pos (fuel : nat) (n : Z) : buf :=
  match fuel with
  | O => []
  | S fuel => if n <? 10 then [digit n] else show_pos fuel (n / 10) ++ [digit (n mod 10)]
  end.
Definition show (n : Z) : buf := if n <? 0 then Byte.x2d :: show_pos 10 (- n) else show_pos 10 n.
(** "%02x" of a byte. *)
Definition hexdigit (d : Z) : byte := byte.of_Z (if d <? 10 then 48 + d else 87 + d).
Definition hex2 (c : byte) : buf := [hexdigit (byte.unsigned c / 16); hexdigit (byte.unsigned c mod 16)].
(** fgets with room for [n] characters, and into the array [mem]. *)
Fixpoint fgets_line (n : nat) (file : buf) : buf * buf :=
  match n, file with
  | S n, c :: file =>
      if bool_decide (c = newline) then ([c], file) else let '(line, rest) := fgets_line n file in (c :: line, rest)
  | _, _ => ([], file)
  end.
Definition fgets (size : nat) (mem file : buf) : option (buf * buf) :=
  match file with
  | [] => None
  | _ => let '(line, rest) := fgets_line (size - 1) file in Some (line ++ NUL :: drop (length line + 1) mem, rest)
  end.
(** The characters of a string in an array, up to its end. *)
Fixpoint string_at (p : buf) : buf :=
  match p with
  | [] => []
  | c :: p => if bool_decide (c = NUL) then [] else c :: string_at p
  end.
(** The first newline of the string is replaced. *)
Fixpoint chop (p : buf) : buf :=
  match p with
  | [] => []
  | c :: p => if bool_decide (c = NUL) then c :: p else if bool_decide (c = newline) then NUL :: p else c :: chop p
  end.
(** Strings are read from a position in the array; to read beyond its end is a fault. *)
Fixpoint skip_space (p : buf) : res buf :=
  match p with
  | [] => Fault
  | c :: q => if isspace c then skip_space q else Ok p
  end.
Fixpoint digits (p : buf) (acc : Z) : res (Z * buf) :=
  match p with
  | [] => Fault
  | c :: q => if isdigit c then digits q (s32 (acc * 10 + (byte.unsigned c - 48))) else Ok (acc, p)
  end.
Definition at_end (p : buf) : bool := match p with c :: _ => bool_decide (c = NUL) | [] => true end.
Fixpoint cstr (p : buf) : res buf :=
  match p with
  | [] => Fault
  | c :: p => if bool_decide (c = NUL) then Ok [] else s ← cstr p; Ok (c :: s)
  end.
(** How far the closing bracket is. *)
Fixpoint to_bracket (p : buf) : res (option nat) :=
  match p with
  | [] => Fault
  | c :: p =>
      if bool_decide (c = NUL) then Ok None
      else if bool_decide (c = bracket_close) then Ok (Some O)
      else n ← to_bracket p; Ok (option_map S n)
  end.
(** sscanf: skips space; "%d" and "%2x", which leaves [tmp] when there is no number. *)
Fixpoint drop_space (p : buf) : buf :=
  match p with
  | [] => []
  | c :: q => if isspace c then drop_space q else p
  end.
Fixpoint span_digits (p : buf) (acc : Z) : Z * buf :=
  match p with
  | [] => (acc, [])
  | c :: q => if isdigit c then span_digits q (acc * 10 + (byte.unsigned c - 48)) else (acc, p)
  end.
Definition LONG_MAX : Z := 9223372036854775807.
Definition scan_d (p : buf) : option (Z * buf) :=
  let p := drop_space p in
  let '(neg, p) := match p with
                   | c :: q => if bool_decide (c = Byte.x2d) then (true, q) else if bool_decide (c = Byte.x2b) then (false, q) else (false, p)
                   | [] => (false, [])
                   end in
  match p with
  | c :: _ =>
      if isdigit c then
        let '(n, p) := span_digits p 0 in
        Some (s32 (if neg then Z.max (- LONG_MAX - 1) (- n) else Z.min LONG_MAX n), p)
      else None
  | [] => None
  end.
Definition hexval (c : byte) : option Z :=
  let x := byte.unsigned c in
  if isdigit c then Some (x - 48)
  else if (97 <=? x) && (x <=? 102) then Some (x - 87)
  else if (65 <=? x) && (x <=? 70) then Some (x - 55)
  else None.
Definition scan_2x (p : buf) (tmp : Z) : Z :=
  match drop_space p with
  | c :: q =>
      let next := match q with d :: _ => hexval d | [] => None end in
      if bool_decide (c = Byte.x2d) then match next with Some d => - d | None => tmp end
      else if bool_decide (c = Byte.x2b) then default tmp next
      else
        match hexval c with
        | Some v => match next with Some d => v * 16 + d | None => v end
        | None => tmp
        end
  | [] => tmp
  end.


(** ** Printing and scanning *)

Lemma digit_spec d : 0 <= d < 10 → isdigit (digit d) = true ∧ byte.unsigned (digit d) = 48 + d.
Proof. intros H. assert (d ∈ (Z.of_nat <$> seq 0 10)) as Hd by (apply list_elem_of_fmap; exists (Z.to_nat d); split; [lia | apply elem_of_seq; lia]).
  repeat (apply elem_of_cons in Hd as [-> | Hd]; [done |]). by apply elem_of_nil in Hd. Qed.
Lemma digits_show fuel : ∀ n r, 0 <= n <= INT_MAX → n < 10 ^ Z.of_nat fuel → digits (show_pos fuel n ++ r) 0 = digits r n.
Proof.
  induction fuel as [|fuel IH]; intros n r Hn Hf; cbn [show_pos].
  { change (10 ^ Z.of_nat 0) with 1 in Hf. by replace n with 0 by lia. }
  rewrite Nat2Z.inj_succ, Z.pow_succ_r in Hf by lia. destruct (Z.ltb_spec n 10).
  - destruct (digit_spec n ltac:(lia)) as [H1 H2]. simpl. rewrite H1, H2. f_equal. rewrite s32_id; [lia |]. unfold is_s32, INT_MAX in *. lia.
  - pose proof (Z.mod_pos_bound n 10 ltac:(lia)). pose proof (Z.div_mod n 10 ltac:(lia)).
    rewrite <- app_assoc, IH; [| unfold INT_MAX in *; lia | apply Z.div_lt_upper_bound; lia].
    destruct (digit_spec (n mod 10) ltac:(lia)) as [Hd1 Hd2]. simpl. rewrite Hd1, Hd2. f_equal.
    rewrite s32_id; [lia |]. unfold is_s32, INT_MAX in *. lia.
Qed.
Lemma show_digits n r c : 0 <= n <= INT_MAX → isdigit c = false → digits (show n ++ c :: r) 0 = Ok (n, c :: r).
Proof.
  intros Hn Hc. unfold show. destruct (Z.ltb_spec n 0); [lia |]. rewrite digits_show; [| lia | unfold INT_MAX in *; lia].
  simpl. by rewrite Hc.
Qed.
Lemma span_show fuel : ∀ n r, 0 <= n < 10 ^ Z.of_nat fuel → span_digits (show_pos fuel n ++ r) 0 = span_digits r n.
Proof.
  induction fuel as [|fuel IH]; intros n r Hn; cbn [show_pos].
  { change (10 ^ Z.of_nat 0) with 1 in Hn. by replace n with 0 by lia. }
  rewrite Nat2Z.inj_succ, Z.pow_succ_r in Hn by lia. destruct (Z.ltb_spec n 10).
  - destruct (digit_spec n ltac:(lia)) as [H1 H2]. simpl. rewrite H1, H2. f_equal. lia.
  - pose proof (Z.mod_pos_bound n 10 ltac:(lia)). pose proof (Z.div_mod n 10 ltac:(lia)).
    rewrite <- app_assoc, IH; [| split; [apply Z.div_pos; lia | apply Z.div_lt_upper_bound; lia]].
    destruct (digit_spec (n mod 10) ltac:(lia)) as [Hd1 Hd2]. simpl. rewrite Hd1, Hd2. f_equal. lia.
Qed.
(** Characters that may stand in a line. *)
Definition inline (c : byte) : bool := bool_decide (c ≠ NUL) && bool_decide (c ≠ newline).
Lemma show_pos_digits fuel : ∀ n, 0 <= n → Forall (λ c, isdigit c = true) (show_pos fuel n).
Proof.
  induction fuel as [|fuel IH]; intros n Hn; cbn [show_pos]; [constructor |]. destruct (Z.ltb_spec n 10).
  - repeat constructor. apply digit_spec. lia.
  - pose proof (Z.mod_pos_bound n 10 ltac:(lia)). apply Forall_app. split; [apply IH, Z.div_pos; lia |].
    repeat constructor. by apply digit_spec.
Qed.
Lemma show_head n : 0 <= n → ∃ c q, show n = c :: q ∧ isdigit c = true ∧ Forall (λ c, isdigit c = true) q.
Proof.
  intros Hn. unfold show. destruct (Z.ltb_spec n 0); [lia |]. pose proof (show_pos_digits 10 n Hn) as Hf.
  destruct (show_pos 10 n) as [|c q] eqn:E.
  - cbn [show_pos] in E. destruct (n <? 10); [done |]. by destruct (app_cons_not_nil _ _ _ (eq_sym E)).
  - apply Forall_cons in Hf as [? ?]. by exists c, q.
Qed.
Lemma digit_plain c : isdigit c = true → inline c = true ∧ isspace c = false ∧ c ≠ NUL.
Proof. by destruct c. Qed.
Lemma show_inline n : 0 <= n → Forall (λ c, inline c = true) (show n).
Proof.
  intros Hn. destruct (show_head n Hn) as (c & q & -> & Hc & Hq). constructor; [by apply digit_plain |].
  eapply Forall_impl; [exact Hq |]. intros d Hd. by apply digit_plain.
Qed.
Lemma digit_head c : isdigit c = true → isspace c = false ∧ c ≠ Byte.x2d ∧ c ≠ Byte.x2b.
Proof. by destruct c. Qed.
(** What "%d" prints is what "%d" scans. *)
Lemma scan_show n r :
  0 <= n <= INT_MAX → match r with c :: _ => isdigit c = false | [] => True end → scan_d (show n ++ r) = Some (n, r).
Proof.
  intros Hn Hr. destruct (show_head n) as (c & q & E & Hc & _); [lia |]. pose proof (digit_head c Hc) as (Hs & H1 & H2).
  assert (span_digits (show n ++ r) 0 = (n, r)) as Hspan.
  { unfold show. destruct (Z.ltb_spec n 0); [lia |]. rewrite span_show by (unfold INT_MAX in *; lia).
    destruct r as [|d r]; [done |]. cbn [span_digits]. by rewrite Hr. }
  rewrite E in *. unfold scan_d. cbn [app drop_space]. rewrite Hs, (bool_decide_eq_false_2 (c = Byte.x2d)), (bool_decide_eq_false_2 (c = Byte.x2b)) by done.
  rewrite Hc. cbn [app] in Hspan. rewrite Hspan. f_equal. f_equal. rewrite Z.min_r by (unfold LONG_MAX, INT_MAX in *; lia).
  apply s32_id. unfold is_s32, INT_MAX in *. lia.
Qed.
Lemma hex2_scan c r tmp : scan_2x (hex2 c ++ r) tmp = byte.unsigned c.
Proof. by destruct c. Qed.
Lemma hex2_plain c : Forall (λ d, inline d = true ∧ d ≠ bracket_close) (hex2 c).
Proof. destruct c; repeat constructor; done. Qed.
Lemma byte_land c : byte.of_Z (Z.land (byte.unsigned c) 255) = c.
Proof. by destruct c. Qed.
Lemma chop_inline s r : Forall (λ c, inline c = true) s → chop (s ++ newline :: r) = s ++ NUL :: r.
Proof.
  induction 1 as [|c s Hc _ IH]; [done |]. simpl. unfold inline in Hc. apply andb_true_iff in Hc as [H1 H2].
  apply bool_decide_eq_true in H1, H2. rewrite !bool_decide_eq_false_2 by done. by rewrite IH.
Qed.
Lemma fgets_inline s : ∀ n r, Forall (λ c, inline c = true) s → (length s < n)%nat → fgets_line n (s ++ newline :: r) = (s ++ [newline], r).
Proof.
  induction s as [|c s IH]; intros n r Hs Hn; (destruct n as [|n]; [simpl in Hn; lia |]); [done |].
  apply Forall_cons in Hs as [Hc Hs]. simpl. unfold inline in Hc. apply andb_true_iff in Hc as [H1 H2].
  apply bool_decide_eq_true in H2. rewrite bool_decide_eq_false_2 by done. rewrite IH; [done | done | simpl in Hn; lia].
Qed.
Lemma fgets_shrinks size mem rest mem' rest' : (1 < size)%nat → fgets size mem rest = Some (mem', rest') → (length rest' < length rest)%nat.
Proof.
  assert (∀ s n l r, fgets_line n s = (l, r) → (length r <= length s)%nat) as Hle.
  { induction s as [|c s IH]; intros n l r; [by destruct n; intros [= <- <-] |]. destruct n as [|n]; [by intros [= <- <-] |].
    simpl. case_bool_decide; [intros [= <- <-]; lia |]. destruct (fgets_line n s) as [l' r'] eqn:E. intros [= <- <-].
    apply IH in E. lia. }
  intros Hs. destruct rest as [|c rest]; [done |]. unfold fgets. destruct (size - 1)%nat as [|n] eqn:En; [lia |]. simpl.
  case_bool_decide; [intros [= _ <-]; lia |]. destruct (fgets_line n rest) as [l r] eqn:E. intros [= _ <-]. apply Hle in E. lia.
Qed.
Lemma forallb_Forall {A} (P : A → bool) l : forallb P l = true → Forall (λ x, P x = true) l.
Proof. rewrite forallb_forall, Forall_forall. intros H x Hx. by apply H, list_elem_of_In. Qed.
