(* ===== verification/Types.v ===== *)
(** Types: the PMAPI data types and constants of src/src/include/pcp/pmapi.h and
    impl.h, with the bit-field layouts of a little-endian host. *)
From S2P Require Import Prelude Memory.

(** ** Status codes *)
Definition PM_ERR_BASE : Z := 12345.
Definition PM_ERR_IPC : Z := - PM_ERR_BASE - 21.
Definition PM_ERR_TIMEOUT : Z := - PM_ERR_BASE - 8.
Definition PM_ERR_CONV : Z := - PM_ERR_BASE - 17.
Definition PM_ERR_TOOSMALL : Z := - PM_ERR_BASE - 98.
Definition PM_ERR_TOOBIG : Z := - PM_ERR_BASE - 99.
Definition PM_ERR_TYPE : Z := - PM_ERR_BASE - 52.
Definition PM_ERR_PROFILESPEC : Z := - PM_ERR_BASE - 32.
Definition PM_ERR_NOCONTEXT : Z := - PM_ERR_BASE - 31.
Definition PM_ERR_PERMISSION : Z := - PM_ERR_BASE - 42.
Definition PM_ERR_CONNLIMIT : Z := - PM_ERR_BASE - 43.
Definition PM_ERR_THREAD : Z := - PM_ERR_BASE - 53.
Definition EINVAL : Z := 22.

(** ** Null identifiers *)
Definition PM_ID_NULL : Z := 4294967295.
Definition PM_INDOM_NULL : Z := 4294967295.
Definition PM_IN_NULL : Z := 4294967295.

(** ** Metric and value types *)
Definition PM_TYPE_32 : Z := 0.
Definition PM_TYPE_U32 : Z := 1.
Definition PM_TYPE_64 : Z := 2.
Definition PM_TYPE_U64 : Z := 3.
Definition PM_TYPE_FLOAT : Z := 4.
Definition PM_TYPE_DOUBLE : Z := 5.
Definition PM_TYPE_STRING : Z := 6.
Definition PM_TYPE_AGGREGATE : Z := 7.
Definition PM_TYPE_AGGREGATE_STATIC : Z := 8.
Definition PM_TYPE_EVENT : Z := 9.

Definition PM_VAL_HDR_SIZE : Z := 4.
Definition PM_VAL_INSITU : Z := 0.
Definition PM_VAL_DPTR : Z := 1.
Definition PM_VAL_SPTR : Z := 2.

(** ** PDU types *)
Definition PDU_ERROR : Z := 0x7000.
Definition PDU_RESULT : Z := 0x7001.
Definition PDU_PROFILE : Z := 0x7002.
Definition PDU_FETCH : Z := 0x7003.
Definition PDU_DESC_REQ : Z := 0x7004.
Definition PDU_DESC : Z := 0x7005.
Definition PDU_INSTANCE_REQ : Z := 0x7006.
Definition PDU_INSTANCE : Z := 0x7007.
Definition PDU_TEXT_REQ : Z := 0x7008.
Definition PDU_TEXT : Z := 0x7009.
Definition PDU_CREDS : Z := 0x700c.
Definition PDU_PMNS_IDS : Z := 0x700d.
Definition PDU_PMNS_NAMES : Z := 0x700e.
Definition PDU_PMNS_CHILD : Z := 0x700f.
Definition PDU_PMNS_TRAVERSE : Z := 0x7010.
Definition PDU_USER_AUTH : Z := 0x7011.
Definition PDU_START : Z := 0x7000.
Definition PDU_FINISH : Z := 0x7011.
Definition PDU_LOG_CONTROL : Z := 0x8000.
Definition PDU_LOG_STATUS : Z := 0x8001.
Definition PDU_LOG_REQUEST : Z := 0x8002.
Definition FROM_ANON : Z := 0.
Definition PDU_CHUNK : Z := 1024.

(** ** Bit fields *)

(** Field of [w] bits whose lowest bit is bit [lo] of the word [x]; the signed
    variant sign-extends. *)
Definition bits (x lo w : Z) : Z := (x / 2 ^ lo) mod 2 ^ w.
Definition sbits (x lo w : Z) : Z :=
  (bits x lo w + 2 ^ (w - 1)) mod 2 ^ w - 2 ^ (w - 1).
(** A field value placed at bit [lo], truncated to its [w] bits. *)
Definition field (v lo w : Z) : Z := (v mod 2 ^ w) * 2 ^ lo.

Ltac bitfields := unfold bits, sbits, field, is_u32, is_s32 in *;
  repeat match goal with |- context [2 ^ ?n] => let v := eval vm_compute in (2 ^ n) in
    change (2 ^ n) with v end;
  repeat match goal with H : context [2 ^ ?n] |- _ => let v := eval vm_compute in (2 ^ n) in
    change (2 ^ n) with v in H end;
  Z.to_euclidean_division_equations; lia.

(** ** Metric identifiers and instance domains *)

Definition pmid_item (id : Z) : Z := bits id 0 10.
Definition pmid_cluster (id : Z) : Z := bits id 10 12.
Definition pmid_domain (id : Z) : Z := bits id 22 9.
Definition pmid_build (domain cluster item : Z) : Z :=
  field item 0 10 + field cluster 10 12 + field domain 22 9.

Definition pmInDom_serial (id : Z) : Z := bits id 0 22.
Definition pmInDom_domain (id : Z) : Z := bits id 22 9.
Definition pmInDom_build (domain serial : Z) : Z :=
  field serial 0 22 + field domain 22 9.

(** ** Units *)

Record pmUnits := mkUnits {
  dimSpace : Z; dimTime : Z; dimCount : Z;
  scaleSpace : Z; scaleTime : Z; scaleCount : Z; upad : Z
}.
(** The word a [pmUnits] occupies, and the struct a word denotes. *)
Definition units_word (u : pmUnits) : Z :=
  field (upad u) 0 8 + field (scaleCount u) 8 4 + field (scaleTime u) 12 4
  + field (scaleSpace u) 16 4 + field (dimCount u) 20 4
  + field (dimTime u) 24 4 + field (dimSpace u) 28 4.
Definition word_units (x : Z) : pmUnits :=
  mkUnits (sbits x 28 4) (sbits x 24 4) (sbits x 20 4)
          (bits x 16 4) (bits x 12 4) (sbits x 8 4) (bits x 0 8).
(** Each field within the range of its bit field. *)
Definition units_wf (u : pmUnits) : Prop :=
  -8 <= dimSpace u < 8 ∧ -8 <= dimTime u < 8 ∧ -8 <= dimCount u < 8
  ∧ 0 <= scaleSpace u < 16 ∧ 0 <= scaleTime u < 16 ∧ -8 <= scaleCount u < 8
  ∧ 0 <= upad u < 256.

(** ** Descriptors, time stamps, credentials *)

Record pmDesc := mkDesc {
  pmid : Z; dtype : Z; dindom : Z; sem : Z; units : pmUnits
}.
Definition desc_wf (d : pmDesc) : Prop :=
  is_u32 (pmid d) ∧ is_s32 (dtype d) ∧ is_u32 (dindom d) ∧ is_s32 (sem d)
  ∧ units_wf (units d).

(** [__pmTimeval]: two 32-bit fields. *)
Record timeval32 := mkTv32 { tv_sec : Z; tv_usec : Z }.
Definition tv32_wf (t : timeval32) : Prop := is_s32 (tv_sec t) ∧ is_s32 (tv_usec t).

Record __pmCred := mkCred { c_type : Z; c_vala : Z; c_valb : Z; c_valc : Z }.
Definition cred_word (c : __pmCred) : Z :=
  field (c_valc c) 0 8 + field (c_valb c) 8 8 + field (c_vala c) 16 8
  + field (c_type c) 24 8.
Definition word_cred (x : Z) : __pmCred :=
  mkCred (bits x 24 8) (bits x 16 8) (bits x 8 8) (bits x 0 8).
Definition cred_wf (c : __pmCred) : Prop :=
  0 <= c_type c < 256 ∧ 0 <= c_vala c < 256 ∧ 0 <= c_valb c < 256 ∧ 0 <= c_valc c < 256.

(** [PM_PDU_SIZE_BYTES]: a size rounded up to whole [__pmPDU] words. *)
Definition PM_PDU_SIZE (x : Z) : Z := (x + 3) / 4.
Definition PM_PDU_SIZE_BYTES (x : Z) : Z := 4 * PM_PDU_SIZE x.

(** ** Lemmas *)

Lemma pmid_build_fields d c i :
  0 <= d < 512 → 0 <= c < 4096 → 0 <= i < 1024 →
  let id := pmid_build d c i in
  is_u32 id ∧ pmid_domain id = d ∧ pmid_cluster id = c ∧ pmid_item id = i.
Proof. intros. unfold id, pmid_build, pmid_domain, pmid_cluster, pmid_item. split_and!; bitfields. Qed.

Lemma pmInDom_build_fields d s :
  0 <= d < 512 → 0 <= s < 2^22 →
  let id := pmInDom_build d s in
  is_u32 id ∧ pmInDom_domain id = d ∧ pmInDom_serial id = s.
Proof. intros. unfold id, pmInDom_build, pmInDom_domain, pmInDom_serial. split_and!; bitfields. Qed.

(** Extraction of one field out of a word: [l] is what stands below the field,
    [h] what stands above it. *)
Lemma bits_field x lo w l f h :
  0 <= lo → 0 <= w → 0 <= l < 2 ^ lo → x = l + field f lo w + h * 2 ^ (lo + w) →
  bits x lo w = f mod 2 ^ w.
Proof.
  intros Hlo Hw Hl ->. unfold bits, field. rewrite Z.pow_add_r by lia.
  replace (l + f mod 2 ^ w * 2 ^ lo + h * (2 ^ lo * 2 ^ w))
    with (l + (f mod 2 ^ w + h * 2 ^ w) * 2 ^ lo) by lia.
  rewrite Z.div_add, Z.div_small, Z.add_0_l by lia.
  rewrite Z.mod_add by (apply Z.pow_nonzero; lia). apply Z.mod_mod, Z.pow_nonzero; lia.
Qed.
Lemma field_range v lo w : 0 <= lo → 0 <= w → 0 <= field v lo w <= 2 ^ (lo + w) - 2 ^ lo.
Proof.
  intros. unfold field. rewrite Z.pow_add_r by lia.
  pose proof (Z.mod_pos_bound v (2 ^ w) ltac:(lia)). nia.
Qed.
Lemma sbits_of_bits x lo w v :
  0 < w → - 2 ^ (w - 1) <= v < 2 ^ (w - 1) → bits x lo w = v mod 2 ^ w → sbits x lo w = v.
Proof.
  intros Hw Hv E. unfold sbits. rewrite E.
  replace (2 ^ w) with (2 * 2 ^ (w - 1)) in * by (rewrite <- Z.pow_succ_r by lia; f_equal; lia).
  rewrite Zplus_mod_idemp_l, Z.mod_small; lia.
Qed.
(** [bits_at l h] proves [bits x lo w = f mod 2 ^ w] for a sum of fields. *)
Ltac bits_at l h :=
  apply (bits_field _ _ _ l _ h); [lia | lia | lia |];
  repeat match goal with x := _ |- _ => subst x end; unfold field; lia.

Lemma word_units_word u : units_wf u → word_units (units_word u) = u.
Proof.
  unfold units_wf, word_units, units_word. destruct u as [a b c d e f g]; simpl. intros.
  destruct_and!.
  pose proof (field_range g 0 8). pose proof (field_range f 8 4).
  pose proof (field_range e 12 4). pose proof (field_range d 16 4).
  pose proof (field_range c 20 4). pose proof (field_range b 24 4).
  pose proof (field_range a 28 4).
  set (l1 := field g 0 8) in *. set (l2 := field f 8 4) in *. set (l3 := field e 12 4) in *.
  set (l4 := field d 16 4) in *. set (l5 := field c 20 4) in *. set (l6 := field b 24 4) in *.
  f_equal; try (apply sbits_of_bits; [lia | lia |]).
  - bits_at (l1 + l2 + l3 + l4 + l5 + l6) 0.
  - bits_at (l1 + l2 + l3 + l4 + l5) (field a 0 4).
  - bits_at (l1 + l2 + l3 + l4) (field b 0 4 + field a 4 4).
  - rewrite <- (Z.mod_small d (2 ^ 4)) by lia.
    bits_at (l1 + l2 + l3) (field c 0 4 + field b 4 4 + field a 8 4).
  - rewrite <- (Z.mod_small e (2 ^ 4)) by lia.
    bits_at (l1 + l2) (field d 0 4 + field c 4 4 + field b 8 4 + field a 12 4).
  - bits_at l1 (field e 0 4 + field d 4 4 + field c 8 4 + field b 12 4 + field a 16 4).
  - rewrite <- (Z.mod_small g (2 ^ 8)) by lia.
    bits_at 0 (field f 0 4 + field e 4 4 + field d 8 4 + field c 12 4 + field b 16 4 + field a 20 4).
Qed.
Lemma units_word_range u : is_u32 (units_word u).
Proof. unfold units_word. bitfields. Qed.
Lemma word_cred_word c : cred_wf c → word_cred (cred_word c) = c.
Proof.
  unfold cred_wf, word_cred, cred_word. destruct c; simpl. intros.
  destruct_and!. f_equal; bitfields.
Qed.
Lemma cred_word_range c : is_u32 (cred_word c).
Proof. unfold cred_word. bitfields. Qed.
Lemma pdu_size_bounds x : 0 <= x → x <= PM_PDU_SIZE_BYTES x < x + 4.
Proof. unfold PM_PDU_SIZE_BYTES, PM_PDU_SIZE. intros. Z.to_euclidean_division_equations. lia. Qed.
