(* ===== verification/PduIO.v ===== *)
(** PduIO: sending and receiving whole PDUs over a byte stream, from
    src/src/libpcp/src/pdu.c.  A writable descriptor is the list of results its
    write() calls return, a readable one is the list of events its reads see. *)
From S2P Require Import Prelude Memory Types.

(** What the PDU routines rely on of the buffer pool (pdubuf.c): a buffer that
    is handed out is at least as large as was asked for, and at least a chunk. *)
Class PduAlloc := {
  find_pdubuf : Z → option buf;
  find_pdubuf_size n b : is_s32 n → find_pdubuf n = Some b → n <= zlen b;
  find_pdubuf_chunk n b : find_pdubuf n = Some b → PDU_CHUNK <= zlen b;
  oserror : Z
}.

(** The two-step idiom of every [__pmSend] routine: find a buffer, fill it. *)
Definition fill_pdu `{PduAlloc} (need : Z) (fill : M unit) : res buf :=
  match find_pdubuf need with
  | None => Err (- oserror)
  | Some b => snd <$> fill b
  end.

(** ** Transmission *)

Module Xmit.
(** [w_results]: what successive send()/write() calls return (negative, or
    exhausted: the call fails); [w_errno]: the network error left behind, 0 when
    there is none or the peer closed the socket. *)
Record wfd := mkWfd { w_results : list Z; w_errno : Z }.

(** [while (off < len)] *)
Fixpoint xmit_loop (ws : list Z) (off len : Z) (sent : buf) : M (Z * buf) :=
  if off <? len then
    match ws with
    | [] => mret (off, sent)
    | n :: ws' =>
        if n <? 0 then mret (off, sent)
        else (* write() never takes more than it was offered *)
          let n := Z.min n (len - off) in
          bs ← loadn off n; xmit_loop ws' (off + n) len (sent ++ bs)
    end
  else mret (off, sent).

Definition __pmXmitPDU (fd : wfd) : M (Z * buf) :=
  len ← hdr_len; type ← hdr_type; from ← hdr_from;
  store32 0 (htonl len);; store32 8 (htonl from);; store32 4 (htonl type);;
  r ← xmit_loop (w_results fd) 0 len [];
  store32 0 len;; store32 8 from;; store32 4 type;;
  if fst r =? len then mret r
  else fail (if w_errno fd =? 0 then PM_ERR_IPC else - w_errno fd).
End Xmit.

(** Fill a buffer, then transmit it: the status and the bytes on the wire. *)
Definition send_pdu `{PduAlloc} (fd : Xmit.wfd) (need : Z) (fill : M unit) : res (Z * buf) :=
  b ← fill_pdu need fill; fst <$> Xmit.__pmXmitPDU fd b.

(** ** Reception *)

Module Recv.
(** What a read on the descriptor sees next: some bytes, the deadline passing
    while nothing arrives, or an error status; an exhausted list is end of file. *)
Inductive revent := RData (bs : buf) | RTimeout | RError (sts : Z).

Definition TIMEOUT_NEVER : Z := 0.
Definition TIMEOUT_ASYNC : Z := -2.
Definition EOPNOTSUPP : Z := 95.
Definition LIMIT_SIZE : Z := 2.

(** The [while (len)] loop: the status to return, the bytes read into the
    caller's buffer so far, and the rest of the stream. *)
Fixpoint pduread_loop (s : list revent) (len timeout : Z) (got : buf)
    : Z * buf * list revent :=
  if len =? 0 then (zlen got, got, s)
  else match s with
  | [] => (zlen got, got, [])
  | RTimeout :: s' =>
      if timeout =? TIMEOUT_NEVER then pduread_loop s' len timeout got
      else (PM_ERR_TIMEOUT, got, s')
  | RError sts :: s' => (sts, got, s')
  | RData bs :: s' =>
      if zlen bs =? 0 then (zlen got, got, s')
      else if zlen bs <=? len then pduread_loop s' (len - zlen bs) timeout (got ++ bs)
      else let got := got ++ take (Z.to_nat len) bs in
           (zlen got, got, RData (drop (Z.to_nat len) bs) :: s')
  end.

Definition pduread (s : list revent) (len timeout : Z) : Z * buf * list revent :=
  if timeout =? TIMEOUT_ASYNC then (- EOPNOTSUPP, [], s)
  else pduread_loop s len timeout [].

(** A successful [__pmGetPDU]: the PDU type and its pinned buffer, or end of
    file (status 0). *)
Inductive got := GotPDU (type : Z) (b : buf) | GotEOF.

Section get.
Context `{PduAlloc} (ceiling : Z).

(** Convert type and from, and check the type. *)
Definition get_finish : M Z :=
  t ← load32 4; store32 4 (ntohl t);;
  check (s32 (ntohl t) <? 0) PM_ERR_IPC;;
  f ← load32 8; store32 8 (ntohl f);;
  mret (s32 (ntohl t)).

Definition got_of (r : res (Z * buf)) : res got :=
  match r with Ok (t, b) => Ok (GotPDU t b) | Err e => Err e | Fault => Fault end.

(** [if (len < php->len) ...]: [b] holds the [len] bytes read so far and the
    PDU length [plen] in host order. *)
Definition get_more (s : list revent) (timeout maxsize len plen : Z) (b : buf)
    : res got * list revent * Z :=
  let tmpsize := if maxsize <? plen
                 then s32 (PDU_CHUNK * (1 + plen / PDU_CHUNK)) else maxsize in
  let maxsize' := if maxsize <? plen then tmpsize else maxsize in
  match find_pdubuf tmpsize with
  | None => (Err (- oserror), s, maxsize')
  | Some nb =>
      let '(sts, body, s') := pduread s (plen - len) timeout in
      let r := (storen 0 (take (Z.to_nat len) b);; storen len body;;
                check (negb (sts =? plen - len))
                      (if sts =? PM_ERR_TIMEOUT then PM_ERR_TIMEOUT else PM_ERR_IPC);;
                get_finish) nb in
      (got_of r, s', maxsize')
  end.

(** [check_read_len:] onwards. *)
Definition get_check (s : list revent) (mode timeout maxsize len : Z) (b : buf)
    : res got * list revent * Z :=
  match (w ← load32 0; store32 0 (ntohl w);; mret (s32 (ntohl w))) b with
  | Ok (plen, b) =>
      if plen <? sizeof_hdr then (Err PM_ERR_IPC, s, maxsize)
      else if (mode =? LIMIT_SIZE) && (ceiling <? plen)
      then (Err PM_ERR_TOOBIG, s, maxsize)
      else if len <? plen then get_more s timeout maxsize len plen b
      else (got_of (get_finish b), s, maxsize)
  | Err e => (Err e, s, maxsize)
  | Fault => (Fault, s, maxsize)
  end.

(** [maxsize] is the routine's static variable, threaded through. *)
Definition __pmGetPDU (s : list revent) (mode timeout maxsize : Z)
    : res got * list revent * Z :=
  match find_pdubuf maxsize with
  | None => (Err (- oserror), s, maxsize)
  | Some b =>
      let '(len, bs, s') := pduread s sizeof_hdr timeout in
      match storen 0 bs b with
      | Ok (_, b) =>
          if (len <? sizeof_hdr) && negb (4 <=? len) then
            if len =? -1 then (Ok GotEOF, s', maxsize)
            else if len =? PM_ERR_TIMEOUT then (Err PM_ERR_TIMEOUT, s', maxsize)
            else if len =? 0 then (Ok GotEOF, s', maxsize)
            else (Err PM_ERR_IPC, s', maxsize)
          else get_check s' mode timeout maxsize len b
      | Err e => (Err e, s', maxsize)
      | Fault => (Fault, s', maxsize)
      end
  end.
End get.

Definition __pmSetPDUCeiling (ceiling newceiling : Z) : Z :=
  if 0 <? newceiling then newceiling else ceiling.
End Recv.

(** ** The wire format *)

(** The bytes of a PDU on the wire: every header field in network order. *)
Definition wire (ty from : Z) (body : buf) : buf :=
  be32 (sizeof_hdr + zlen body) ++ be32 ty ++ be32 from ++ body.

Fixpoint sum (ws : list Z) : Z := match ws with [] => 0 | n :: ws => n + sum ws end.
Lemma sum_nonneg ws : Forall (λ n, 0 <= n) ws → 0 <= sum ws.
Proof. induction 1; simpl; lia. Qed.
(** The descriptor takes [len] bytes, in pieces of any size. *)
Definition delivers (fd : Xmit.wfd) (len : Z) : Prop :=
  Forall (λ n, 0 <= n) (Xmit.w_results fd) ∧ len <= sum (Xmit.w_results fd).

Module XmitFacts.
Import Xmit.
Lemma xmit_loop_all b w len ws : ∀ off,
  has b 0 w → len = zlen w → 0 <= off <= len →
  Forall (λ n, 0 <= n) ws → len - off <= sum ws →
  wp (xmit_loop ws off len (take (Z.to_nat off) w)) noerr (λ r b', r = (len, w) ∧ b' = b) b.
Proof.
  induction ws as [|n ws IH]; intros off Hh Hlen Hoff Hws Hsum; simpl in *.
  - replace off with len in * by lia. rewrite Z.ltb_irrefl. apply wp_ret.
    by rewrite take_ge by lia.
  - apply Forall_cons_1 in Hws as [? Hws]. pose proof (sum_nonneg ws Hws). destruct (Z.ltb_spec off len); cycle 1.
    { replace off with len in * by lia. apply wp_ret. by rewrite take_ge by lia. }
    rewrite (proj2 (Z.ltb_ge _ _)) by lia. set (m := Z.min n (len - off)).
    assert (has b 0 (take (Z.to_nat off) w ++ drop (Z.to_nat off) w)) as Hd
      by (by rewrite take_drop).
    rewrite has_app in Hd; destruct Hd as [_ Hd].
    rewrite <- (take_drop (Z.to_nat m) (drop _ w)) in Hd. rewrite has_app in Hd; destruct Hd as [Hd _].
    wp1. eapply wp_loadn_has; [apply (has_at _ _ _ _ Hd); lens | lens |].
    rewrite take_take_drop.
    replace (Z.to_nat off + Z.to_nat m)%nat with (Z.to_nat (off + m)) by lia.
    apply IH; [done | done | lia | done | lia].
Qed.

Lemma xmit_wp fd b ty from body :
  is_pdu b ty from body → delivers fd (sizeof_hdr + zlen body) →
  wp (__pmXmitPDU fd) noerr
     (λ r _, r = (sizeof_hdr + zlen body, wire ty from body)) b.
Proof.
  intros [Hh Hs] [Hws Hsum]. unfold __pmXmitPDU, sizeof_hdr in *. has_split.
  repeat wp1. autorewrite with word in *. rewrite !s32_id in * by (split; lia).
  eapply wp_mono; [| apply (xmit_loop_all _ (wire ty from body))];
    [| unfold wire; has_join | unfold wire, sizeof_hdr; lens | lia | done | lia].
  intros r b' [-> ->]. repeat wp1; [done |]. simpl in *. lia.
Qed.
End XmitFacts.

Module RecvFacts.
Import Recv.
(** A stream that delivers the bytes of [chunks] in those pieces. *)
Definition nonempty (bs : buf) : Prop := bs ≠ [].

Lemma pduread_loop_chunks t chunks : ∀ n got,
  Forall nonempty chunks → 0 <= n <= zlen (concat chunks) →
  ∃ rest, pduread_loop (RData <$> chunks) n t got
            = (zlen got + n, got ++ take (Z.to_nat n) (concat chunks), RData <$> rest)
    ∧ Forall nonempty rest ∧ concat rest = drop (Z.to_nat n) (concat chunks).
Proof.
  induction chunks as [|c chunks IH]; intros n got Hne Hn;
    rewrite ?fmap_cons; cbn [pduread_loop concat] in *.
  - exists []. simpl in Hn. replace n with 0 by lia. simpl. rewrite app_nil_r, Z.add_0_r. done.
  - apply Forall_cons_1 in Hne as [Hc Hne]. rewrite length_app in Hn.
    assert (0 < zlen c) by (destruct c; simpl; [done | lia]).
    destruct (Z.eqb_spec n 0) as [->|?].
    { exists (c :: chunks). rewrite take_0, drop_0, app_nil_r, Z.add_0_r.
      split_and!; [done | by constructor | done]. }
    rewrite (proj2 (Z.eqb_neq _ _)) by lia. destruct (Z.leb_spec (zlen c) n).
    + destruct (IH (n - zlen c) (got ++ c) Hne) as (rest & E & Hr & Hc'); [lia |].
      exists rest. split_and!; [| done |].
      * rewrite E, <- app_assoc, take_app_ge by lia.
        replace (Z.to_nat (n - zlen c)) with (Z.to_nat n - length c)%nat by lia.
        do 2 f_equal. lens.
      * rewrite Hc', drop_app_ge by lia. f_equal. lia.
    + exists (drop (Z.to_nat n) c :: chunks). split_and!.
      * rewrite take_app_le, fmap_cons by lia. do 2 f_equal. lens.
      * constructor; [| done]. unfold nonempty. intros E.
        apply (f_equal length) in E. lens.
      * simpl. by rewrite drop_app_le by lia.
Qed.

Section get.
Context `{PduAlloc} (ceiling : Z).

Lemma get_finish_wp b0 len ty from body :
  has b0 0 (le32 len ++ be32 ty ++ be32 from ++ body) →
  0 <= ty < 2^31 →
  wp get_finish noerr
    (λ t b, t = ty ∧ length b = length b0 ∧ has b 0 (le32 len ++ le32 ty ++ le32 from ++ body)) b0.
Proof.
  intros Hh Hty. unfold get_finish. has_split. repeat wp1;
    rewrite ?s32_u32_id in * by (split; lia); autorewrite with word in *; [lia |].
  split_and!; [done | lia | has_join].
Qed.

Hypothesis alloc_ok : ∀ n, is_Some (find_pdubuf n).
(** PDUs small enough for the 32-bit size computation of [__pmGetPDU]. *)
Definition pdu_fits (body : buf) : Prop := sizeof_hdr + zlen body < 2^31 - PDU_CHUNK.

(** The static buffer size after a PDU of [plen] bytes: as it was if the PDU
    fits, otherwise the next multiple of the chunk size above it. *)
Definition grown (maxsize plen m : Z) : Prop :=
  maxsize <= m < 2^31
  ∧ m = if maxsize <? plen then PDU_CHUNK * (1 + plen / PDU_CHUNK) else maxsize.

Lemma get_more_ok chunks t maxsize ty from body more b :
  Forall nonempty chunks → concat chunks = body ++ more →
  t ≠ TIMEOUT_ASYNC → pdu_fits body → 0 <= ty < 2^31 → sizeof_hdr <= maxsize < 2^31 →
  has b 0 (le32 (sizeof_hdr + zlen body) ++ be32 ty ++ be32 from) → body ≠ [] →
  ∃ b' rest m', get_more (RData <$> chunks) t maxsize sizeof_hdr (sizeof_hdr + zlen body) b
      = (Ok (GotPDU ty b'), RData <$> rest, m')
    ∧ is_pdu b' ty from body ∧ Forall nonempty rest ∧ concat rest = more
    ∧ grown maxsize (sizeof_hdr + zlen body) m' ∧ m' <= zlen b'.
Proof.
  intros Hne Hcat Ht Hfit Hty Hms Hh Hbody. unfold get_more, pduread, pdu_fits, sizeof_hdr in *.
  set (plen := 12 + zlen body) in *. unfold PDU_CHUNK in *.
  assert (12 < plen) by (unfold plen; destruct body; [done | simpl; lia]).
  set (tmp := if maxsize <? plen then _ else _).
  assert (plen <= tmp ∧ grown maxsize plen tmp) as [Htmp [Htmp' Hgr]].
  { unfold tmp, grown, PDU_CHUNK. destruct (Z.ltb_spec maxsize plen); [| lia].
    rewrite s32_id by (unfold is_s32; Z.to_euclidean_division_equations; lia).
    Z.to_euclidean_division_equations; lia. }
  destruct (alloc_ok tmp) as [nb Hnb]. rewrite Hnb. apply find_pdubuf_size in Hnb; [| split; lia].
  rewrite (proj2 (Z.eqb_neq _ _) Ht).
  destruct (pduread_loop_chunks t chunks (plen - 12) []) as (rest & -> & Hr & Hcr); [done | |].
  { rewrite Hcat. unfold plen. lens. }
  rewrite Hcat in *. replace (Z.to_nat (plen - 12)) with (length body) in * by lia.
  rewrite take_app_length, drop_app_length in *.
  assert (take (Z.to_nat 12) b = le32 plen ++ be32 ty ++ be32 from) as E.
  { destruct Hh as (_ & _ & E). unfold get in E. rewrite drop_0 in E. by autorewrite with lens in E. }
  rewrite E. cbv beta iota zeta. rewrite app_nil_l, length_nil, Z.add_0_l.
  match goal with |- context [got_of (?m nb)] =>
    assert (wp m noerr (λ t b', t = ty ∧ is_pdu b' ty from body ∧ length b' = length nb) nb) as Hwp end.
  { repeat wp1; [simpl in *; lia |]. has_split.
    eapply wp_mono; [| apply (get_finish_wp _ plen ty from body); [has_join | done]].
    intros ? ? (-> & ? & ?). split_and!; [done | split; [done | unfold sizeof_hdr; lia] | lia]. }
  apply wp_noerr_run in Hwp as (? & b' & -> & -> & ? & ?). simpl.
  exists b', rest, tmp. assert ((if maxsize <? plen then tmp else maxsize) = tmp) as ->.
  { unfold tmp. by destruct (maxsize <? plen). }
  split_and!; try done. lia.
Qed.

Lemma getpdu_chunks chunks mode t maxsize ty from body more :
  Forall nonempty chunks → concat chunks = wire ty from body ++ more →
  t ≠ TIMEOUT_ASYNC → pdu_fits body → 0 <= ty < 2^31 → sizeof_hdr <= maxsize < 2^31 →
  (mode = LIMIT_SIZE → sizeof_hdr + zlen body <= ceiling) →
  ∃ b rest m', __pmGetPDU ceiling (RData <$> chunks) mode t maxsize
      = (Ok (GotPDU ty b), RData <$> rest, m')
    ∧ is_pdu b ty from body ∧ Forall nonempty rest ∧ concat rest = more
    ∧ grown maxsize (sizeof_hdr + zlen body) m' ∧ m' <= zlen b.
Proof.
  intros Hne Hcat Ht Hfit Hty Hms Hmode. unfold __pmGetPDU, pduread.
  destruct (alloc_ok maxsize) as [b Hb]. rewrite Hb. apply find_pdubuf_size in Hb; [| unfold sizeof_hdr in *; split; lia].
  rewrite (proj2 (Z.eqb_neq _ _) Ht).
  unfold wire in Hcat. rewrite (app_assoc (be32 _)), (app_assoc _ _ body) in Hcat.
  set (hd := (be32 (sizeof_hdr + zlen body) ++ be32 ty) ++ be32 from) in *.
  assert (length hd = 12%nat) as Hhd by (unfold hd; lens).
  destruct (pduread_loop_chunks t chunks sizeof_hdr []) as (rest & -> & Hr & Hcr); [done | |].
  { rewrite Hcat. unfold sizeof_hdr. lens. }
  rewrite Hcat, <- app_assoc in *. change (Z.to_nat sizeof_hdr) with 12%nat in *.
  rewrite take_app_length', drop_app_length' in * by done.
  rewrite app_nil_l, length_nil, Z.add_0_l in *. cbv beta iota zeta.
  unfold sizeof_hdr in *.
  destruct (wp_noerr_run (storen 0 hd) (λ _ b', has b' 0 hd ∧ length b' = length b) b)
    as (? & b1 & -> & Hb1 & L1).
  { by wp1. }
  simpl andb. cbv iota. unfold get_check.
  destruct (wp_noerr_run (w ← load32 0; store32 0 (ntohl w);; mret (s32 (ntohl w)))
    (λ a b', a = 12 + zlen body ∧ has b' 0 (le32 (12 + zlen body) ++ be32 ty ++ be32 from)
       ∧ length b' = length b1) b1)
    as (? & b2 & -> & -> & Hb2 & L2).
  { unfold hd in Hb1. has_split. unfold pdu_fits, PDU_CHUNK, sizeof_hdr in Hfit.
    repeat wp1. rewrite ?s32_u32_id in * by (split; lia). autorewrite with word in *.
    split_and!; [done | has_join | lia]. }
  unfold sizeof_hdr. rewrite (proj2 (Z.ltb_ge _ _)) by lia.
  assert ((mode =? LIMIT_SIZE) && (ceiling <? 12 + zlen body) = false) as ->.
  { destruct (Z.eqb_spec mode LIMIT_SIZE); [simpl; apply Z.ltb_ge; auto | done]. }
  destruct body as [|c body].
  - simpl (12 <? _). cbv iota. rewrite app_nil_l in *.
    destruct (wp_noerr_run get_finish (λ t b', t = ty ∧ is_pdu b' ty from [] ∧ length b' = length b2) b2)
      as (? & b' & -> & -> & Hp & ?).
    { eapply wp_mono; [| apply (get_finish_wp _ 12 ty from []); [by rewrite !app_nil_r | done]].
      intros ? ? (-> & ? & ?). by split_and!. }
    simpl. exists b', rest, maxsize. split_and!; try done; try lia.
    split; [lia |]. by rewrite (proj2 (Z.ltb_ge _ _)) by (simpl; lia).
  - rewrite (proj2 (Z.ltb_lt _ _)) by (simpl; lia).
    apply (get_more_ok rest); try done.
Qed.

(** A server's read loop, [n] PDUs one after the other. *)
Fixpoint getpdus (n : nat) (s : list revent) (mode t maxsize : Z) : option (list buf) :=
  match n with
  | O => Some []
  | S n => match __pmGetPDU ceiling s mode t maxsize with
           | (Ok (GotPDU _ b), s', m') => cons b <$> getpdus n s' mode t m'
           | _ => None
           end
  end.
End get.

(** One PDU: type, sender and body. *)
Definition pdu : Type := Z * Z * buf.
Definition wire_pdu (p : pdu) : buf := let '(ty, from, body) := p in wire ty from body.
Definition holds_pdu (b : buf) (p : pdu) : Prop :=
  let '(ty, from, body) := p in is_pdu b ty from body.
Definition pdu_sendable (p : pdu) : Prop :=
  let '(ty, from, body) := p in pdu_fits body ∧ 0 <= ty < 2^31.
End RecvFacts.

Section framing.
Import Recv RecvFacts.
Context `{PduAlloc} (ceiling : Z).

(** Framing.  However the bytes of a sequence of PDUs are split into pieces
    by the transport, [__pmGetPDU] called once per PDU returns exactly the PDUs
    that were sent, in order, each complete and with its header converted to
    host byte order. *)
Lemma getpdu_framing (ps : list pdu) (chunks : list buf) (mode t maxsize : Z) :
  (∀ n, is_Some (find_pdubuf n)) →
  Forall nonempty chunks → concat chunks = concat (wire_pdu <$> ps) →
  Forall pdu_sendable ps → mode ≠ LIMIT_SIZE → t ≠ TIMEOUT_ASYNC → PDU_CHUNK <= maxsize < 2^31 →
  ∃ bs, getpdus ceiling (length ps) (RData <$> chunks) mode t maxsize = Some bs
    ∧ Forall2 holds_pdu bs ps.
Proof.
  intros Halloc. revert chunks maxsize.
  induction ps as [|[[ty from] body] ps IH]; intros chunks ms Hne Hcat Hps Hm Ht Hms.
  - exists []. split; [done | constructor].
  - apply Forall_cons_1 in Hps as [[Hfit Hty] Hps]. unfold PDU_CHUNK in *.
    destruct (getpdu_chunks ceiling Halloc chunks mode t ms ty from body
      (concat (wire_pdu <$> ps))) as (b & rest & m' & E & Hb & Hr & Hc & [Hm' _] & _); try done.
    { unfold sizeof_hdr. lia. }
    destruct (IH rest m') as (bs & E' & Hbs); try done; [lia |].
    exists (b :: bs). cbn [getpdus length]. rewrite E, E'. split; [done | by constructor].
Qed.
End framing.

(** ** Round trips *)

(** [send] puts a PDU of this type and sender on the wire, and [dec] applied to
    that PDU as received yields [x]. *)
Definition roundtrips {A} (send : res (Z * buf)) (ty from : Z) (dec : M A) (x : A) : Prop :=
  ∃ body, send = Ok (sizeof_hdr + zlen body, wire ty from body)
    ∧ ∀ b, is_pdu b ty from body → ∃ b', dec b = Ok (x, b').

(** A buffer as [__pmGetPDU] returns it: the length field covers the header and
    stays within the buffer. *)
Definition received (b : buf) (len : Z) : Prop :=
  has b 0 (le32 len) ∧ sizeof_hdr <= len < 2^31 ∧ len <= zlen b.

Lemma is_pdu_received b ty from body : is_pdu b ty from body → received b (sizeof_hdr + zlen body).
Proof.
  intros [Hh Hs]. unfold received, sizeof_hdr in *. has_split. split_and!; [done | lia | lia |].
  hlens.
Qed.

Section send.
Context `{PduAlloc}.
(** [req]: the size asked for, which need not be the size sent. *)
Lemma send_pdu_found fd req fill b ty from body :
  find_pdubuf req = Some b → sizeof_hdr + zlen body < 2^31 → delivers fd (sizeof_hdr + zlen body) →
  wp fill noerr (λ _ b', has b' 0 (le32 (sizeof_hdr + zlen body) ++ le32 ty ++ le32 from ++ body)) b →
  send_pdu fd req fill = Ok (sizeof_hdr + zlen body, wire ty from body).
Proof.
  intros Hb Hs Hd Hwp. unfold send_pdu, fill_pdu. rewrite Hb.
  apply wp_noerr_run in Hwp as (? & b1 & -> & Hh). simpl.
  destruct (wp_noerr_run _ _ _ (XmitFacts.xmit_wp fd b1 ty from body (conj Hh Hs) Hd))
    as (? & ? & -> & ->). done.
Qed.
Lemma send_pdu_ok fd need fill ty from body :
  (∀ n, is_Some (find_pdubuf n)) → need = sizeof_hdr + zlen body → need < 2^31 →
  delivers fd need →
  (∀ b, need <= zlen b →
     wp fill noerr (λ _ b', has b' 0 (le32 need ++ le32 ty ++ le32 from ++ body)) b) →
  send_pdu fd need fill = Ok (need, wire ty from body).
Proof.
  intros Ha Hneed Hs Hd Hwp. destruct (Ha need) as [b Hb]. rewrite Hneed in *.
  eapply send_pdu_found; [done .. |].
  apply Hwp, (find_pdubuf_size _ _); [unfold sizeof_hdr in *; split; lia | done].
Qed.

(** The same, when the bytes written depend on what the buffer held before. *)
Lemma send_pdu_ok_ex fd need fill ty from (P : buf → Prop) :
  (∀ n, is_Some (find_pdubuf n)) → 0 <= need < 2^31 → delivers fd need →
  (∀ b, need <= zlen b →
     wp fill noerr (λ _ b', ∃ body, P body ∧ need = sizeof_hdr + zlen body ∧
       has b' 0 (le32 need ++ le32 ty ++ le32 from ++ body)) b) →
  ∃ body, P body ∧ send_pdu fd need fill = Ok (sizeof_hdr + zlen body, wire ty from body).
Proof.
  intros Ha Hs Hd Hwp. unfold send_pdu, fill_pdu. destruct (Ha need) as [b Hb].
  rewrite Hb. apply find_pdubuf_size in Hb; [| split; lia].
  apply Hwp, wp_noerr_run in Hb as (? & b1 & -> & body & HP & -> & Hh). simpl.
  exists body. split; [done |]. destruct Hs as [_ Hs].
  destruct (wp_noerr_run _ _ _ (XmitFacts.xmit_wp fd b1 ty from body (conj Hh Hs) Hd))
    as (? & ? & -> & ->). done.
Qed.
End send.

(** The length field as a decoder reads it. *)
Lemma wp_hdr_len E b len (Q : Z → buf → Prop) :
  received b len → Q len b → wp hdr_len E Q b.
Proof.
  intros (Hh & Hl & _) HQ. unfold hdr_len, sizeof_hdr in *. repeat wp1.
  by rewrite s32_u32_id by (split; lia).
Qed.

(** Running a decoder on a PDU that was received. *)
Lemma dec_run {A} (dec : M A) x b :
  wp dec noerr (λ a _, a = x) b → ∃ b', dec b = Ok (x, b').
Proof. intros (? & ? & ? & ->)%wp_noerr_run. by eexists. Qed.
Lemma dec_nofault {A} (dec : M A) b : wp dec anyerr (λ _ _, True) b → dec b ≠ Fault.
Proof. apply wp_anyerr_nofault. Qed.

(** [has_norm] computes the offsets [has_split] leaves behind. *)
Ltac has_norm := repeat match goal with
  | H : has _ ?o _ |- _ => progress (autorewrite with lens in H; simpl length in H;
      change (Z.of_nat 4) with 4 in H; rewrite ?Z.add_0_l in H)
  end.
(** [dec_start] opens the decoding half of a round trip: the PDU is split into
    its fields and the length field has been read. *)
Ltac dec_start :=
  let b := fresh "b" in let Hp := fresh "Hp" in let Hr := fresh "Hr" in
  let len := fresh "len" in let Elen := fresh "Elen" in let Hmax := fresh "Hmax" in
  intros b Hp; pose proof (is_pdu_received _ _ _ _ Hp) as Hr; destruct Hp as [? Hmax];
  remember (sizeof_hdr + zlen _) as len eqn:Elen; unfold sizeof_hdr in Elen;
  autorewrite with lens in Elen; simpl length in Elen;
  has_split; has_norm; apply dec_run.
Ltac read_len := apply wp_bind; eapply wp_hdr_len; [eassumption |].
(** The sizes of the C structs. *)
Create HintDb sizes.
#[export] Hint Unfold sizeof_hdr INT_MAX : sizes.
Ltac sizes := autounfold with sizes in *.
(** [chk] refutes a validity check that cannot fire. *)
Ltac chk := sizes; unfold noerr, anyerr, received in *; autorewrite with lens word in *;
  rewrite ?s32_id, ?u64_id in * by (unfold is_s32; lia);
  simpl length in *; first [lia | exfalso; simpl in *; congruence
    | Z.to_euclidean_division_equations; lia].

(** Closes the postconditions of a safety proof, without unfolding programs. *)
Ltac triv := try lazymatch goal with |- True => exact I | |- anyerr _ => exact I end.
(** [dec_safe] runs a decoder on any received PDU, the length field first. *)
Ltac dec_open := let Hr := fresh in
  intros Hr; apply dec_nofault; read_len; destruct Hr as (? & ? & ?); sizes.
Ltac safe_steps := repeat (wp1; triv; rewrite ?u64_id in * by lia).
Ltac dec_safe := dec_open; safe_steps.

(** A pool that hands out a fresh buffer for every request. *)
Definition heap_alloc : PduAlloc.
Proof.
  refine {| find_pdubuf := λ n, Some (replicate (Z.to_nat (Z.max n PDU_CHUNK)) Byte.x00); oserror := 12 |}.
  - intros n b _ [= <-]. rewrite length_replicate. lia.
  - intros n b [= <-]. rewrite length_replicate. unfold PDU_CHUNK. lia.
Defined.
Lemma heap_alloc_ok n : is_Some (@find_pdubuf heap_alloc n).
Proof. by eexists. Qed.

(** Two PDUs, the second without a body, that arrive in three pieces. *)
Lemma getpdu_framing_witness :
  let w := wire PDU_ERROR 7 (be32 5) ++ wire PDU_DESC 8 [] in
  ∃ bs, @RecvFacts.getpdus heap_alloc 65536 2 (Recv.RData <$> [take 3 w; take 20 (drop 3 w); drop 23 w]) 0 0 1024
      = Some bs
    ∧ Forall2 RecvFacts.holds_pdu bs [(PDU_ERROR, 7, be32 5); (PDU_DESC, 8, [])].
Proof.
  intros w. apply (@getpdu_framing heap_alloc 65536 [(PDU_ERROR, 7, be32 5); (PDU_DESC, 8, [])]
    [take 3 w; take 20 (drop 3 w); drop 23 w] 0 0 1024 heap_alloc_ok); try done.
  - repeat constructor; by vm_compute.
  - repeat constructor; by vm_compute.
Defined.
