(* ===== verification/PduBuf.v ===== *)
(** PduBuf: the pool of reference-counted ("pinned") PDU buffers,
    src/src/libpcp/src/pdubuf.c. *)
From stdpp Require Import gmap.
From S2P Require Import Prelude Memory Types PduIO.

(** [bufctl_t]; the [bc_next] links are the order of the lists below, and
    [bc_bufend] is [bc_buf + bc_size]. *)
Record bufctl := mkBuf { bc_buf : Z; bc_size : Z; bc_pincnt : Z }.

(** The static variables.  [buf_pin_tail] is kept as the address of the node it
    points at; [lock] is the depth to which the caller's thread holds the
    (recursive) [__pmLock_libpcp]. *)
Record pool := mkPool {
  buf_free : list bufctl; buf_pin : list bufctl; buf_pin_tail : option Z; lock : Z
}.
Definition empty_pool : pool := mkPool [] [] None 0.

(** [pcp->bc_buf <= handle && handle < pcp->bc_bufend] *)
Definition contains (handle : Z) (p : bufctl) : bool :=
  (bc_buf p <=? handle) && (handle <? bc_buf p + bc_size p).

Definition set_pincnt (n : Z) (p : bufctl) : bufctl := mkBuf (bc_buf p) (bc_size p) n.

(** [tail->bc_next = x]: the chain is cut after the node [tail] points at. *)
Definition link_after (tail : option Z) (x : bufctl) (l : list bufctl) : list bufctl :=
  match tail with
  | None => l
  | Some a => match split_find (λ p, bc_buf p =? a) l with
              | Some (pre, t, _) => pre ++ [t; x]
              | None => l
              end
  end.

Definition __pmPinPDUBuf (handle : Z) (st : pool) : pool :=
  match split_find (contains handle) (buf_free st) with
  | Some (pre, pcp, post) =>
      (* first pin for this buffer, move between lists *)
      let pcp := set_pincnt 1 pcp in
      let pin := link_after (buf_pin_tail st) pcp (buf_pin st) in
      mkPool (pre ++ post) (match pin with [] => [pcp] | _ => pin end)
             (Some (bc_buf pcp)) (lock st)
  | None =>
      match split_find (contains handle) (buf_pin st) with
      | Some (pre, pcp, post) =>
          mkPool (buf_free st) (pre ++ set_pincnt (bc_pincnt pcp + 1) pcp :: post)
                 (buf_pin_tail st) (lock st)
      | None => st (* "not in pool!" *)
      end
  end.

Definition __pmUnpinPDUBuf (handle : Z) (st : pool) : Z * pool :=
  match split_find (contains handle) (buf_pin st) with
  | None => (0, st)
  | Some (pre, pcp, post) =>
      let pcp := set_pincnt (bc_pincnt pcp - 1) pcp in
      if bc_pincnt pcp =? 0 then
        (1, mkPool (pcp :: buf_free st) (pre ++ post)
              (if decide (buf_pin_tail st = Some (bc_buf pcp))
               then bc_buf <$> last pre else buf_pin_tail st) (lock st))
      else (1, mkPool (buf_free st) (pre ++ pcp :: post) (buf_pin_tail st) (lock st))
  end.

Definition with_lock (d : Z) (st : pool) : pool :=
  mkPool (buf_free st) (buf_pin st) (buf_pin_tail st) (lock st + d).

(** [valloc sz] is the address the allocator returns, if any. *)
Definition __pmFindPDUBuf (valloc : Z → option Z) (need : Z) (st : pool) : option Z * pool :=
  let st := with_lock 1 st in
  match split_find (λ p, need <=? bc_size p) (buf_free st) with
  | Some (_, pcp, _) =>
      (Some (bc_buf pcp), with_lock (-1) (__pmPinPDUBuf (bc_buf pcp) st))
  | None =>
      let size := s32 (PDU_CHUNK * (1 + Z.quot need PDU_CHUNK)) in
      match valloc size with
      | None => (None, st)
      | Some a =>
          let st := mkPool (mkBuf a size 0 :: buf_free st) (buf_pin st)
                           (buf_pin_tail st) (lock st) in
          (Some a, with_lock (-1) (__pmPinPDUBuf a st))
      end
  end.

Definition __pmCountPDUBuf (need : Z) (st : pool) : Z * Z :=
  let big l := zlen (filter (λ p, need <= bc_size p) l) in
  (big (buf_pin st) + big (buf_free st), big (buf_free st)).

(** ** The pool invariant *)

Definition bufs (st : pool) : list bufctl := buf_free st ++ buf_pin st.
Definition shape (p : bufctl) : Z * Z := (bc_buf p, bc_size p).
Definition in_range (h : Z) (r : Z * Z) : bool := (r.1 <=? h) && (h <? r.1 + r.2).
(** No address belongs to two buffers, and every buffer is at least a chunk long. *)
Definition disjoint_ranges (rs : list (Z * Z)) : Prop :=
  Forall (λ r, PDU_CHUNK <= r.2) rs ∧ ∀ h, (length (filter (in_range h) rs) <= 1)%nat.

Record pool_inv (st : pool) : Prop := {
  inv_ranges : disjoint_ranges (shape <$> bufs st);
  inv_free : Forall (λ p, bc_pincnt p = 0) (buf_free st);
  inv_pin : Forall (λ p, 1 <= bc_pincnt p) (buf_pin st);
  inv_tail : buf_pin_tail st = bc_buf <$> last (buf_pin st)
}.

#[export] Instance disjoint_ranges_perm : Proper ((≡ₚ) ==> iff) disjoint_ranges.
Proof.
  intros l k E. unfold disjoint_ranges. split; intros [H1 H2]; split.
  - by rewrite <- E.
  - intros h. by rewrite <- E.
  - by rewrite E.
  - intros h. by rewrite E.
Qed.

Lemma disjoint_ranges_unique rs h r l :
  disjoint_ranges rs → rs ≡ₚ r :: l → in_range h r = true → Forall (λ r', in_range h r' = false) l.
Proof.
  intros [_ H] E Hr. specialize (H h). rewrite E in H.
  rewrite filter_cons_True in H by (by rewrite Hr). simpl in H.
  apply Forall_forall. intros x Hx. destruct (in_range h x) eqn:Hin; [| done].
  assert (x ∈ filter (in_range h) l) as Hf by (apply list_elem_of_filter; by rewrite Hin).
  destruct (filter (in_range h) l); [by apply elem_of_nil in Hf | simpl in H; lia].
Qed.

Lemma base_in_range r : PDU_CHUNK <= r.2 → in_range r.1 r = true.
Proof. unfold in_range, PDU_CHUNK. lia. Qed.

Lemma disjoint_ranges_keys rs : disjoint_ranges rs → NoDup rs.*1.
Proof.
  induction rs as [|r rs IH]; intros H; [constructor |]. simpl. constructor.
  - intros (r' & Hr' & Hin)%list_elem_of_fmap.
    assert (PDU_CHUNK <= r.2) by (destruct H as [H _]; by inversion H).
    assert (PDU_CHUNK <= r'.2). { destruct H as [H _]. rewrite Forall_forall in H. apply H. by right. }
    pose proof (disjoint_ranges_unique _ r.1 _ _ H (reflexivity _)) as U.
    rewrite Forall_forall in U.
    specialize (U (base_in_range r H0) r' Hin). by rewrite Hr', base_in_range in U.
  - apply IH. destruct H as [H1 H2]. split; [by inversion H1 |]. intros h. specialize (H2 h).
    simpl in H2. rewrite filter_cons in H2. case_decide; simpl in H2; lia.
Qed.

(** ** Pinning and unpinning *)

Lemma contains_shape h p : contains h p = in_range h (shape p).
Proof. done. Qed.
Lemma split_find_owner h l p pre post :
  disjoint_ranges (shape <$> l) → l ≡ₚ p :: (pre ++ post) → contains h p = true →
  Forall (λ q, contains h q = false) (pre ++ post).
Proof.
  intros Hd E Hp.
  pose proof (disjoint_ranges_unique _ h (shape p) (shape <$> (pre ++ post)) Hd) as U.
  rewrite E in U. specialize (U (reflexivity _) Hp). by rewrite Forall_fmap in U.
Qed.

Lemma link_after_last l x :
  NoDup (bc_buf <$> l) → l ≠ [] → link_after (bc_buf <$> last l) x l = l ++ [x].
Proof.
  intros Hnd Hne. destruct l as [|t l _] using rev_ind; [done |].
  rewrite last_snoc. simpl. rewrite split_find_app; [by rewrite <- app_assoc | |by rewrite Z.eqb_refl].
  rewrite fmap_app in Hnd. apply NoDup_app in Hnd as (_ & Hnd & _).
  apply Forall_forall. intros y Hy. apply Z.eqb_neq. intros E.
  apply (Hnd (bc_buf y)); [by apply list_elem_of_fmap_2 | rewrite E; by left].
Qed.

Definition pinned_st st pre post pcp : pool :=
  mkPool (pre ++ post) (buf_pin st ++ [set_pincnt 1 pcp]) (Some (bc_buf pcp)) (lock st).

(** The two ways a pin succeeds. *)
Lemma pin_free_eq h st pre pcp post :
  pool_inv st → split_find (contains h) (buf_free st) = Some (pre, pcp, post) →
  __pmPinPDUBuf h st = pinned_st st pre post pcp.
Proof.
  intros [Hr _ _ Ht] E. unfold __pmPinPDUBuf, pinned_st. rewrite E. f_equal.
  destruct (decide (buf_pin st = [])) as [Hp|Hp].
  { rewrite Ht, Hp. done. }
  rewrite Ht, link_after_last; [by destruct (buf_pin st) | | done].
  unfold bufs in Hr. apply disjoint_ranges_keys in Hr.
  rewrite <- list_fmap_compose, fmap_app in Hr. apply NoDup_app in Hr as (_ & _ & Hr).
  done.
Qed.

Lemma owner_unique h l p R q :
  disjoint_ranges (shape <$> l) → l ≡ₚ p :: R → contains h p = true →
  q ∈ l → contains h q = true → q = p.
Proof.
  intros Hd E Hp Hq Hc. rewrite E in Hq. apply elem_of_cons in Hq as [->|Hq]; [done |].
  pose proof (split_find_owner h l p [] R Hd E Hp) as U. rewrite Forall_forall in U.
  by rewrite (U q Hq) in Hc.
Qed.

Lemma shape_set_pincnt n p : shape (set_pincnt n p) = shape p.
Proof. done. Qed.

(** Replacing the pin count of one buffer keeps the ranges. *)
Lemma ranges_set_pincnt l p n R l' :
  disjoint_ranges (shape <$> l) → l ≡ₚ p :: R → l' ≡ₚ set_pincnt n p :: R →
  disjoint_ranges (shape <$> l').
Proof. intros Hd E E'. rewrite E'. rewrite E in Hd. done. Qed.

Lemma keys_distinct l p q l1 l2 :
  disjoint_ranges (shape <$> l) → l ≡ₚ l1 ++ p :: l2 → q ∈ l1 ++ l2 → bc_buf q ≠ bc_buf p.
Proof.
  intros Hd E Hq Hk. rewrite E in Hd. rewrite <- Permutation_middle in Hd.
  apply disjoint_ranges_keys in Hd. rewrite <- list_fmap_compose in Hd. simpl in Hd.
  apply NoDup_cons in Hd as [Hn _]. apply Hn. change (bc_buf p) with ((fst ∘ shape) p).
  change (bc_buf q = (fst ∘ shape) p) in Hk. rewrite <- Hk.
  change (bc_buf q) with ((fst ∘ shape) q). by apply list_elem_of_fmap_2.
Qed.

Lemma pin_spec h st p R :
  pool_inv st → bufs st ≡ₚ p :: R → contains h p = true →
  bufs (__pmPinPDUBuf h st) ≡ₚ set_pincnt (bc_pincnt p + 1) p :: R
  ∧ pool_inv (__pmPinPDUBuf h st).
Proof.
  intros Hinv E Hp. pose proof (inv_ranges _ Hinv) as Hd.
  destruct (split_find (contains h) (buf_free st)) as [[[pre pcp] post]|] eqn:Hf.
  - rewrite (pin_free_eq _ _ _ _ _ Hinv Hf). apply split_find_Some in Hf as (Hf & Hc & _).
    assert (pcp = p) as ->.
    { eapply owner_unique; [exact Hd | exact E | done | | done]. unfold bufs. rewrite Hf. set_solver. }
    destruct Hinv as [_ Hfree Hpin Ht]. rewrite Hf in Hfree.
    apply Forall_app in Hfree as [Hf1 [Hf2 Hf3]%Forall_cons].
    assert (R ≡ₚ pre ++ post ++ buf_pin st) as HR.
    { apply (Permutation_cons_inv (a := p)). rewrite <- E. unfold bufs. rewrite Hf.
      rewrite <- app_assoc. simpl. by rewrite <- Permutation_middle. }
    assert (bufs (pinned_st st pre post p) ≡ₚ set_pincnt (bc_pincnt p + 1) p :: R) as HB.
    { unfold bufs, pinned_st. simpl. rewrite HR, Hf2.
      rewrite app_assoc, <- Permutation_cons_append. by rewrite <- app_assoc. }
    split; [done |]. constructor; [exact (ranges_set_pincnt _ _ _ _ _ Hd E HB) | ..]; simpl.
    + by apply Forall_app.
    + apply Forall_app. split; [done |]. constructor; [simpl; lia | done].
    + by rewrite last_snoc.
  - unfold __pmPinPDUBuf. rewrite Hf. apply split_find_None in Hf.
    assert (p ∈ buf_pin st) as Hin.
    { assert (p ∈ bufs st) as Hb by (rewrite E; by left).
      apply elem_of_app in Hb as [Hb|Hb]; [| done].
      rewrite Forall_forall in Hf. by rewrite (Hf p Hb) in Hp. }
    destruct (split_find (contains h) (buf_pin st)) as [[[pre pcp] post]|] eqn:Hg; cycle 1.
    { apply split_find_None in Hg. rewrite Forall_forall in Hg. by rewrite (Hg p Hin) in Hp. }
    apply split_find_Some in Hg as (Hg & Hc & _).
    assert (pcp = p) as ->.
    { eapply owner_unique; [exact Hd | exact E | done | | done]. unfold bufs. rewrite Hg. set_solver. }
    destruct Hinv as [_ Hfree Hpin Ht]. rewrite Hg in Hpin, Ht.
    apply Forall_app in Hpin as [Hp1 [Hp2 Hp3]%Forall_cons].
    assert (R ≡ₚ buf_free st ++ pre ++ post) as HR.
    { apply (Permutation_cons_inv (a := p)). rewrite <- E. unfold bufs. rewrite Hg.
      by rewrite <- !Permutation_middle. }
    match goal with |- bufs ?st' ≡ₚ _ ∧ _ => assert (bufs st' ≡ₚ set_pincnt (bc_pincnt p + 1) p :: R) as HB end.
    { unfold bufs. simpl. rewrite HR. by rewrite <- !Permutation_middle. }
    split; [done |]. constructor; [exact (ranges_set_pincnt _ _ _ _ _ Hd E HB) | ..]; simpl.
    + done.
    + apply Forall_app. split; [done |]. constructor; [simpl; lia | done].
    + rewrite Ht, !last_app, !last_cons. by destruct (last post).
Qed.

Lemma unpin_spec h st p R :
  pool_inv st → bufs st ≡ₚ p :: R → contains h p = true → 1 <= bc_pincnt p →
  ∃ st', __pmUnpinPDUBuf h st = (1, st')
    ∧ bufs st' ≡ₚ set_pincnt (bc_pincnt p - 1) p :: R ∧ pool_inv st' ∧ lock st' = lock st.
Proof.
  intros Hinv E Hp Hcnt. pose proof (inv_ranges _ Hinv) as Hd.
  assert (p ∈ buf_pin st) as Hin.
  { assert (p ∈ bufs st) as Hb by (rewrite E; by left).
    apply elem_of_app in Hb as [Hb|Hb]; [| done].
    pose proof (inv_free _ Hinv) as Hf. rewrite Forall_forall in Hf. specialize (Hf p Hb). lia. }
  unfold __pmUnpinPDUBuf.
  destruct (split_find (contains h) (buf_pin st)) as [[[pre pcp] post]|] eqn:Hg; cycle 1.
  { apply split_find_None in Hg. rewrite Forall_forall in Hg. by rewrite (Hg p Hin) in Hp. }
  apply split_find_Some in Hg as (Hg & Hc & _).
  assert (pcp = p) as ->.
  { eapply owner_unique; [exact Hd | exact E | done | | done]. unfold bufs. rewrite Hg. set_solver. }
  assert (R ≡ₚ buf_free st ++ pre ++ post) as HR.
  { apply (Permutation_cons_inv (a := p)). rewrite <- E. unfold bufs. rewrite Hg.
    by rewrite <- !Permutation_middle. }
  pose proof (λ q, keys_distinct _ p q (buf_free st ++ pre) post Hd) as Hkey.
  destruct Hinv as [_ Hfree Hpin Ht]. rewrite Hg in Hpin, Ht.
  apply Forall_app in Hpin as [Hp1 [Hp2 Hp3]%Forall_cons].
  match goal with |- context [if ?c then _ else _] => destruct c eqn:Hz end; simpl in Hz;
    eexists; (split; [reflexivity |]);
    match goal with |- bufs ?st' ≡ₚ _ ∧ _ =>
      assert (bufs st' ≡ₚ set_pincnt (bc_pincnt p - 1) p :: R) as HB
        by (unfold bufs; simpl; rewrite HR; by rewrite <- ?Permutation_middle) end;
    (split; [exact HB |]; split; [| done]);
    (constructor; [exact (ranges_set_pincnt _ _ _ _ _ Hd E HB) | ..]); simpl.
  - constructor; [simpl; lia | done].
  - by apply Forall_app.
  - rewrite Ht, !last_app, last_cons. destruct (last post) as [t|] eqn:Hl; simpl.
    + rewrite decide_False; [done |]. intros [= Hk]. apply last_Some in Hl as [post' ->].
      apply (Hkey t); [| set_solver | done]. unfold bufs. rewrite Hg. by rewrite <- app_assoc.
    + by rewrite decide_True.
  - done.
  - apply Forall_app. split; [done |]. constructor; [simpl; lia | done].
  - rewrite Ht, !last_app, !last_cons. by destruct (last post).
Qed.

(** ** Finding a buffer *)

(** What the pool relies on of valloc(3): a returned block is a proper range,
    disjoint from every block still allocated. *)
Definition valloc_ok (valloc : Z → option Z) (st : pool) : Prop :=
  ∀ sz a, valloc sz = Some a → 0 < sz ∧
    ∀ h p, p ∈ bufs st → a <= h < a + sz → contains h p = false.

Lemma ranges_cons l a sz :
  disjoint_ranges (shape <$> l) → PDU_CHUNK <= sz →
  (∀ h p, p ∈ l → a <= h < a + sz → contains h p = false) →
  disjoint_ranges (shape <$> mkBuf a sz 0 :: l).
Proof.
  intros [H1 H2] Hsz Hf. split; [by constructor |]. intros h. rewrite fmap_cons, filter_cons.
  specialize (H2 h). case_decide as Hd; simpl; [| done].
  apply Is_true_true in Hd. unfold in_range in Hd. simpl in Hd.
  replace (filter (in_range h) (shape <$> l)) with (@nil (Z * Z)); [done |].
  symmetry. apply filter_none, Forall_fmap, Forall_forall. intros p Hp. simpl.
  rewrite <- contains_shape, (Hf h p Hp) by lia. auto.
Qed.

Lemma with_lock_inv d st : pool_inv st → pool_inv (with_lock d st).
Proof. by intros [? ? ? ?]. Qed.

(** Pinning a free buffer through its base address. *)
Lemma pin_free_spec st p R :
  pool_inv st → bufs st ≡ₚ p :: R → p ∈ buf_free st →
  let st' := __pmPinPDUBuf (bc_buf p) st in
  set_pincnt 1 p ∈ buf_pin st' ∧ pool_inv st' ∧ lock st' = lock st ∧
  Forall (λ q, contains (bc_buf p) q = false) (buf_pin st) ∧
  shape <$> bufs st' ≡ₚ shape <$> bufs st.
Proof.
  intros Hi E Hf st'.
  assert (contains (bc_buf p) p = true) as Hc.
  { apply (base_in_range (shape p)). destruct Hi as [[Hr _] _ _ _].
    rewrite Forall_fmap, Forall_forall in Hr. apply Hr. unfold bufs. set_solver. }
  assert (∀ q, q ∈ bufs st → contains (bc_buf p) q = true → q = p) as Hu.
  { intros q Hq Hcq. eapply owner_unique; [exact (inv_ranges _ Hi) | exact E | done ..]. }
  destruct (pin_spec _ _ _ _ Hi E Hc) as [HB Hi']. unfold st'.
  destruct (split_find (contains (bc_buf p)) (buf_free st)) as [[[pre q] post]|] eqn:Hs; cycle 1.
  { apply split_find_None in Hs. rewrite Forall_forall in Hs. by rewrite (Hs p Hf) in Hc. }
  rewrite (pin_free_eq _ _ _ _ _ Hi Hs) in *. apply split_find_Some in Hs as (Hs & Hq & _).
  assert (q = p) as -> by (apply Hu; [unfold bufs; rewrite Hs; set_solver | done]).
  split_and!; [simpl; set_solver | done | done | | by rewrite HB, E].
  apply Forall_forall. intros q Hq'. destruct (contains (bc_buf p) q) eqn:Hcq; [| done].
  assert (q = p) as -> by (apply Hu; [unfold bufs; set_solver | done]).
  pose proof (inv_free _ Hi) as H1. pose proof (inv_pin _ Hi) as H2.
  rewrite Forall_forall in H1, H2. specialize (H1 p Hf). specialize (H2 p Hq'). lia.
Qed.

(** A positive allocation size covers the request, even when the computation of
    the size overflows: it then wraps to a negative number. *)
Lemma chunk_size need :
  is_s32 need → 0 < s32 (PDU_CHUNK * (1 + Z.quot need PDU_CHUNK)) →
  need <= s32 (PDU_CHUNK * (1 + Z.quot need PDU_CHUNK)).
Proof.
  unfold is_s32, PDU_CHUNK. intros H. set (v := 1024 * _).
  assert (need <= v <= 2^31 ∧ - 2^31 <= v) as [Hv Hv'] by (unfold v; Z.to_euclidean_division_equations; lia).
  destruct (decide (v = 2^31)) as [->|?]; [done |].
  rewrite s32_id; [lia | unfold is_s32; lia].
Qed.

(** The size is a multiple of the chunk, so a positive one is at least a chunk. *)
Lemma chunk_min k : 0 < s32 (PDU_CHUNK * k) → PDU_CHUNK <= s32 (PDU_CHUNK * k).
Proof. unfold s32, PDU_CHUNK. Z.to_euclidean_division_equations. lia. Qed.

(** What a successful [__pmFindPDUBuf] returns. *)
Lemma find_spec valloc need st a st' :
  pool_inv st → valloc_ok valloc st →
  __pmFindPDUBuf valloc need st = (Some a, st') →
  ∃ p, bc_buf p = a ∧ (is_s32 need → need <= bc_size p) ∧ p ∈ buf_pin st' ∧ bc_pincnt p = 1
    ∧ pool_inv st' ∧ lock st' = lock st
    ∧ Forall (λ q, contains a q = false) (buf_pin st)
    ∧ (shape <$> bufs st' ≡ₚ shape <$> bufs st
       ∨ shape <$> bufs st' ≡ₚ shape p :: (shape <$> bufs st)).
Proof.
  intros Hinv Hv. unfold __pmFindPDUBuf.
  pose proof (with_lock_inv 1 st Hinv) as Hinv1.
  destruct (split_find (λ p, need <=? bc_size p) (buf_free (with_lock 1 st)))
    as [[[pre p] post]|] eqn:Hs.
  - intros [= <- <-]. apply split_find_Some in Hs as (Hs & Hsz & _). simpl in Hs.
    destruct (pin_free_spec (with_lock 1 st) p (pre ++ post ++ buf_pin st))
      as (H1 & H2 & H3 & H4 & H5); [done | | simpl; rewrite Hs; set_solver |].
    { unfold bufs. simpl. rewrite Hs, <- app_assoc. simpl. by rewrite <- Permutation_middle. }
    exists (set_pincnt 1 p). split_and!; try done; [by simpl; lia | by apply with_lock_inv | |].
    + cbn [lock with_lock]. rewrite H3. simpl. lia.
    + left. exact H5.
  - destruct (valloc _) as [a'|] eqn:Ha; [| done]. intros [= <- <-].
    destruct (Hv _ _ Ha) as [Hsz Hfr]. set (sz := s32 _) in *. set (p := mkBuf a' sz 0).
    set (st2 := mkPool (p :: _) _ _ _).
    assert (pool_inv st2) as Hi2.
    { destruct Hinv as [H1 H2 H3 H4]. constructor; [by apply ranges_cons; [| apply chunk_min |] | by constructor | done ..]. }
    destruct (pin_free_spec st2 p (bufs st)) as (H1 & H2 & H3 & H4 & H5); [done | done | by left |].
    exists (set_pincnt 1 p). split_and!; try done; [ | by apply with_lock_inv | |].
    + intros [? ?]. by apply chunk_size.
    + cbn [lock with_lock]. change (bc_buf p) with a' in H3. rewrite H3. simpl. lia.
    + right. exact H5.
Qed.

(** A failed [__pmFindPDUBuf] changes no buffer. *)
Lemma find_fail valloc need st st' :
  __pmFindPDUBuf valloc need st = (None, st') → st' = with_lock 1 st.
Proof.
  unfold __pmFindPDUBuf.
  destruct (split_find _ _) as [[[??]?]|]; [done |]. destruct (valloc _); congruence.
Qed.

(** ** The pool as a state machine *)

(** The callers' steps: a handle is word aligned, as the [assert] of pin and unpin
    demands. *)
Inductive pool_step : pool → pool → Prop :=
| step_find valloc need st r st' :
    valloc_ok valloc st → __pmFindPDUBuf valloc need st = (r, st') → pool_step st st'
| step_pin h st : h mod 4 = 0 → pool_step st (__pmPinPDUBuf h st)
| step_unpin h st : h mod 4 = 0 → pool_step st (__pmUnpinPDUBuf h st).2.

Lemma no_owner h st :
  Forall (λ p, contains h p = false) (bufs st) →
  __pmPinPDUBuf h st = st ∧ __pmUnpinPDUBuf h st = (0, st).
Proof.
  intros [H1 H2]%Forall_app. apply split_find_None in H1, H2.
  unfold __pmPinPDUBuf, __pmUnpinPDUBuf. by rewrite H1, H2.
Qed.
Lemma unpin_free h st p R :
  pool_inv st → bufs st ≡ₚ p :: R → contains h p = true → bc_pincnt p = 0 →
  __pmUnpinPDUBuf h st = (0, st).
Proof.
  intros Hi E Hc H0. unfold __pmUnpinPDUBuf.
  destruct (split_find _ _) as [[[pre q] post]|] eqn:Hs; [| done].
  apply split_find_Some in Hs as (Hs & Hq & _).
  assert (q = p) as ->.
  { eapply owner_unique; [exact (inv_ranges _ Hi) | exact E | done | | done].
    unfold bufs. rewrite Hs. set_solver. }
  pose proof (inv_pin _ Hi) as Hp. rewrite Hs in Hp. apply Forall_app in Hp as [_ [? _]%Forall_cons].
  lia.
Qed.

Lemma owner_dec h st :
  (∃ p R, bufs st ≡ₚ p :: R ∧ contains h p = true) ∨ Forall (λ p, contains h p = false) (bufs st).
Proof.
  destruct (split_find (contains h) (bufs st)) as [[[pre p] post]|] eqn:E.
  - left. apply split_find_Some in E as (E & Hc & _). exists p, (pre ++ post).
    split; [| done]. by rewrite E, <- Permutation_middle.
  - right. by apply split_find_None.
Qed.

Lemma pool_step_inv st st' : pool_inv st → pool_step st st' → pool_inv st'.
Proof.
  intros Hi Hst. destruct Hst as [valloc need st [a|] st' Hv E|h st|h st].
  - by destruct (find_spec _ _ _ _ _ Hi Hv E) as (? & _ & _ & _ & _ & ? & _).
  - apply find_fail in E as ->. by apply with_lock_inv.
  - destruct (owner_dec h st) as [(p & R & E & Hc)|Hn].
    + by destruct (pin_spec _ _ _ _ Hi E Hc).
    + by rewrite (proj1 (no_owner _ _ Hn)).
  - destruct (owner_dec h st) as [(p & R & E & Hc)|Hn].
    + destruct (decide (1 <= bc_pincnt p)).
      * destruct (unpin_spec _ _ _ _ Hi E Hc) as (st' & -> & _ & ? & _); done.
      * rewrite (unpin_free _ _ p R); try done.
        assert (p ∈ bufs st) as Hb by (rewrite E; by left).
        apply elem_of_app in Hb as [Hb|Hb].
        -- pose proof (inv_free _ Hi) as Hf. rewrite Forall_forall in Hf. by apply Hf.
        -- pose proof (inv_pin _ Hi) as Hf. rewrite Forall_forall in Hf. specialize (Hf p Hb). lia.
    + by rewrite (proj2 (no_owner _ _ Hn)).
Qed.

(** ** The abstract pool *)

(** What the pool promises its users: a map from the base address of each
    buffer to its size and its pin count. *)
Definition kv (p : bufctl) : Z * (Z * Z) := (bc_buf p, (bc_size p, bc_pincnt p)).
Definition pool_abs (st : pool) : gmap Z (Z * Z) := list_to_map (kv <$> bufs st).

Lemma kv_keys l : (kv <$> l).*1 = (shape <$> l).*1.
Proof. rewrite <- !list_fmap_compose. done. Qed.
Lemma pool_abs_perm st p R :
  disjoint_ranges (shape <$> bufs st) → bufs st ≡ₚ p :: R →
  pool_abs st = <[bc_buf p := (bc_size p, bc_pincnt p)]> (list_to_map (kv <$> R)).
Proof.
  intros Hd E. unfold pool_abs. rewrite (list_to_map_proper _ (kv <$> (p :: R))); [done | |].
  - rewrite kv_keys. by apply disjoint_ranges_keys.
  - by rewrite E.
Qed.
Lemma pool_abs_update st st' p n R :
  pool_inv st → bufs st ≡ₚ p :: R → pool_inv st' → bufs st' ≡ₚ set_pincnt n p :: R →
  pool_abs st' = <[bc_buf p := (bc_size p, n)]> (pool_abs st).
Proof.
  intros Hi E Hi' E'. rewrite (pool_abs_perm st p R (inv_ranges _ Hi) E).
  rewrite (pool_abs_perm st' _ R (inv_ranges _ Hi') E'). by rewrite insert_insert_eq.
Qed.

(** ** Properties *)

(** In every state the pool can reach from start-up, by any sequence of
    finds, pins and unpins of any handles, the buffers occupy disjoint address
    ranges, free buffers are unpinned, pinned buffers have a positive count, and
    the tail pointer designates the last pinned buffer. *)
Lemma pool_reachable_inv st : rtc pool_step empty_pool st → pool_inv st.
Proof.
  intros H. assert (pool_inv empty_pool) as H0.
  { constructor; [| constructor .. | done]. split; [constructor |]. intros h. simpl. lia. }
  induction H as [|st st1 st2 Hs _ IH]; [done |]. by eapply IH, pool_step_inv.
Qed.

(** Exclusive hand-out.  [__pmFindPDUBuf] returns the base address of a buffer
    of at least the requested size, pinned exactly once, which was not pinned
    before the call: no two users of the pool ever share a buffer. *)
Lemma find_exclusive valloc need st a st' :
  pool_inv st → valloc_ok valloc st → is_s32 need →
  __pmFindPDUBuf valloc need st = (Some a, st') →
  pool_inv st' ∧ lock st' = lock st ∧
  Forall (λ q, contains a q = false) (buf_pin st) ∧
  ∃ p, p ∈ buf_pin st' ∧ bc_buf p = a ∧ need <= bc_size p ∧ bc_pincnt p = 1.
Proof.
  intros Hi Hv Hn E. destruct (find_spec _ _ _ _ _ Hi Hv E) as (p & ? & ? & ? & ? & ? & ? & ? & _).
  split_and!; try done. exists p. split_and!; auto.
Qed.

(** C5. Refinement of the abstract pool.  For a handle that points anywhere inside
    a buffer, [__pmPinPDUBuf] adds one to that buffer's count and touches nothing
    else, [__pmUnpinPDUBuf] subtracts one and reports success when the buffer is
    pinned, and reports failure with no effect when it is not. *)
Theorem pool_refines h st p :
  pool_inv st → p ∈ bufs st → contains h p = true →
  let set n := <[bc_buf p := (bc_size p, n)]> (pool_abs st) in
  pool_abs (__pmPinPDUBuf h st) = set (bc_pincnt p + 1)
  ∧ (1 <= bc_pincnt p →
       (__pmUnpinPDUBuf h st).1 = 1 ∧ pool_abs (__pmUnpinPDUBuf h st).2 = set (bc_pincnt p - 1))
  ∧ (bc_pincnt p = 0 → __pmUnpinPDUBuf h st = (0, st)).
Proof.
  intros Hi Hp Hc set. apply elem_of_Permutation in Hp as [R E]. split_and!.
  - destruct (pin_spec _ _ _ _ Hi E Hc) as [HB Hi']. by eapply pool_abs_update.
  - intros H1. destruct (unpin_spec _ _ _ _ Hi E Hc H1) as (st' & -> & HB & Hi' & _).
    split; [done |]. by eapply pool_abs_update.
  - intros H0. by eapply unpin_free.
Qed.

(** A pin followed by an unpin through any two handles into the same buffer
    restores the abstract pool. *)
Lemma pin_unpin h h' st p :
  pool_inv st → p ∈ bufs st → contains h p = true → contains h' p = true →
  (__pmUnpinPDUBuf h' (__pmPinPDUBuf h st)).1 = 1
  ∧ pool_abs (__pmUnpinPDUBuf h' (__pmPinPDUBuf h st)).2 = pool_abs st.
Proof.
  intros Hi Hp Hc Hc'. apply elem_of_Permutation in Hp as [R E].
  destruct (pin_spec _ _ _ _ Hi E Hc) as [HB Hi'].
  assert (0 <= bc_pincnt p) as H0.
  { assert (p ∈ bufs st) as Hb by (rewrite E; by left).
    apply elem_of_app in Hb as [Hb|Hb]; destruct Hi as [_ H1 H2 _];
      rewrite Forall_forall in H1, H2; [rewrite (H1 p Hb) | specialize (H2 p Hb)]; lia. }
  destruct (unpin_spec h' _ _ _ Hi' HB Hc') as (st' & -> & HB' & Hi'' & _); [simpl; lia |].
  split; [done |]. simpl in *. rewrite (pool_abs_perm st' _ R (inv_ranges _ Hi'') HB').
  rewrite (pool_abs_perm st p R (inv_ranges _ Hi) E). simpl. do 2 f_equal. lia.
Qed.

(** When memory runs out [__pmFindPDUBuf] returns NULL with the library lock
    still held: the depth of the lock is one more after the call. *)
Lemma find_fail_keeps_lock valloc need st st' :
  __pmFindPDUBuf valloc need st = (None, st') → lock st' = lock st + 1.
Proof. intros E. by apply find_fail in E as ->. Qed.

(** *** Examples *)

(** A pool with one buffer, and an allocator with room for another one. *)
Definition demo_pool : pool := mkPool [] [mkBuf 4096 1024 1] (Some 4096) 0.
Definition demo_valloc (sz : Z) : option Z := if 0 <? sz then Some 8192 else None.
Lemma demo_pool_inv : pool_inv demo_pool.
Proof.
  constructor; [| constructor | by repeat constructor | done].
  split; [by repeat constructor |]. intros h. cbn. case_match; cbn; lia.
Qed.
Lemma demo_valloc_ok : valloc_ok demo_valloc demo_pool.
Proof.
  intros sz a. unfold demo_valloc. destruct (Z.ltb_spec 0 sz); [| done]. intros [= <-]. split; [done |].
  intros h p ->%list_elem_of_singleton Hh. unfold contains. simpl.
  rewrite (proj2 (Z.ltb_ge _ _)) by lia. apply andb_false_r.
Qed.
Lemma pool_reachable_inv_witness : pool_inv (__pmUnpinPDUBuf 4096 (__pmPinPDUBuf 4096 empty_pool)).2.
Proof.
  apply pool_reachable_inv. eapply rtc_l; [by apply (step_pin 4096) | apply rtc_once, step_unpin]; done.
Defined.
Lemma find_exclusive_witness :
  ∃ st', __pmFindPDUBuf demo_valloc 2000 demo_pool = (Some 8192, st') ∧ pool_inv st'
    ∧ lock st' = lock demo_pool ∧ Forall (λ q, contains 8192 q = false) (buf_pin demo_pool)
    ∧ ∃ p, p ∈ buf_pin st' ∧ bc_buf p = 8192 ∧ 2000 <= bc_size p ∧ bc_pincnt p = 1.
Proof.
  eexists. split; [vm_compute; reflexivity |].
  apply (find_exclusive demo_valloc 2000 demo_pool 8192 _ demo_pool_inv demo_valloc_ok);
    [split; lia | vm_compute; reflexivity].
Defined.
Lemma pool_refines_witness :
  pool_abs (__pmPinPDUBuf 4100 demo_pool) = <[4096 := (1024, 2)]> (pool_abs demo_pool).
Proof. apply (pool_refines 4100 demo_pool (mkBuf 4096 1024 1) demo_pool_inv); [by left | done]. Defined.
Lemma pin_unpin_witness :
  pool_abs (__pmUnpinPDUBuf 4200 (__pmPinPDUBuf 4100 demo_pool)).2 = pool_abs demo_pool.
Proof. apply (pin_unpin 4100 4200 demo_pool (mkBuf 4096 1024 1) demo_pool_inv); [by left | done | done]. Defined.
Lemma find_fail_keeps_lock_witness :
  lock (__pmFindPDUBuf (λ _, None) 2000 demo_pool).2 = 1.
Proof. apply (find_fail_keeps_lock (λ _, None) 2000 demo_pool). vm_compute. reflexivity. Defined.

(** ** The pool as the allocator of the PDU routines *)

(** The bytes at an address of a memory. *)
Definition read_mem (mem : Z → byte) (a size : Z) : buf :=
  (λ i, mem (a + Z.of_nat i)) <$> seq 0 (Z.to_nat size).
Lemma length_read_mem mem a size : 0 <= size → zlen (read_mem mem a size) = size.
Proof. intros. unfold read_mem. rewrite length_fmap, length_seq. lia. Qed.

(** The buffer handed out for a request, seen as its bytes. *)
Definition pool_find (mem : Z → byte) (valloc : Z → option Z) (st : pool) (need : Z) : option buf :=
  match __pmFindPDUBuf valloc need st with
  | (Some a, st') => '(_, p, _) ← split_find (contains a) (buf_pin st');
                     Some (read_mem mem a (bc_size p))
  | (None, _) => None
  end.

Lemma pool_find_size mem valloc st need b :
  pool_inv st → valloc_ok valloc st →
  pool_find mem valloc st need = Some b → (is_s32 need → need <= zlen b) ∧ PDU_CHUNK <= zlen b.
Proof.
  intros Hi Hv. unfold pool_find. destruct (__pmFindPDUBuf valloc need st) as [[a|] st'] eqn:E; [| done].
  destruct (find_spec _ _ _ _ _ Hi Hv E) as (p & Ha & Hsz & Hp & _ & Hi' & _).
  assert (p ∈ bufs st') as Hp' by (unfold bufs; set_solver).
  assert (∀ q, q ∈ bufs st' → PDU_CHUNK <= bc_size q) as Hpos.
  { destruct Hi' as [[Hr _] _ _ _]. rewrite Forall_fmap, Forall_forall in Hr. exact Hr. }
  destruct (split_find (contains a) (buf_pin st')) as [[[pre q] post]|] eqn:Hs; simpl; [| done].
  intros [= <-]. apply split_find_Some in Hs as (Hs & Hq & _).
  assert (q ∈ bufs st') as Hq' by (unfold bufs; rewrite Hs; set_solver).
  apply elem_of_Permutation in Hp' as [R HR].
  assert (q = p) as ->.
  { eapply owner_unique; [exact (inv_ranges _ Hi') | exact HR | | done | exact Hq].
    rewrite <- Ha. apply (base_in_range (shape p)), Hpos. rewrite HR. by left. }
  specialize (Hpos p Hq'). rewrite length_read_mem by (unfold PDU_CHUNK in *; lia). done.
Qed.

(** The pool discharges the interface the PDU routines are verified against. *)
Definition pool_alloc mem valloc st (errno : Z) (Hi : pool_inv st) (Hv : valloc_ok valloc st) : PduAlloc :=
  {| find_pdubuf := pool_find mem valloc st;
     find_pdubuf_size n b Hn Hb := proj1 (pool_find_size mem valloc st n b Hi Hv Hb) Hn;
     find_pdubuf_chunk n b Hb := proj2 (pool_find_size mem valloc st n b Hi Hv Hb);
     oserror := errno |}.
