(* ===== verification/Endian.v ===== *)
(** Endian: the byte-order conversions of src/src/libpcp/src/endian.c on a
    little-endian host, where they act in place on the buffer. *)
From S2P Require Import Prelude Memory Types.

(** ** Reversing a float or a 64-bit value in place *)

Definition load8 (o : Z) : M buf := loadn o 1.

(** [for (i = 0; i < k; i++) { c = p[i]; p[i] = p[n-1-i]; p[n-1-i] = c; }] *)
Fixpoint swap_loop (p n i : Z) (k : nat) : M unit :=
  match k with
  | O => mret tt
  | S k =>
      c ← load8 (p + i); d ← load8 (p + (n - 1 - i));
      storen (p + i) d;; storen (p + (n - 1 - i)) c;;
      swap_loop p n (i + 1) k
  end.
Definition __htonf (p : Z) : M unit := swap_loop p 4 0 2.
Definition __htonll (p : Z) : M unit := swap_loop p 8 0 4.
Definition __ntohf : Z → M unit := __htonf.
Definition __ntohll : Z → M unit := __htonll.
Definition __htond : Z → M unit := __htonll.
Definition __ntohd : Z → M unit := __ntohll.

(** Convert the word at [o] in place. *)
Definition htonl_at (o : Z) : M unit := w ← load32 o; store32 o (htonl w).
Definition ntohl_at (o : Z) : M unit := w ← load32 o; store32 o (ntohl w).

(** ** Struct-sized words *)

Definition __htonpmUnits (u : pmUnits) : Z := htonl (units_word u).
Definition __ntohpmUnits (x : Z) : pmUnits := word_units (ntohl x).
Definition __htonpmCred (c : __pmCred) : Z := htonl (cred_word c).
Definition __ntohpmCred (x : Z) : __pmCred := word_cred (ntohl x).

(** ** Lemmas *)

Lemma has_cons b o x y l : has b o (x :: y :: l) ↔ has b o [x] ∧ has b (o + 1) (y :: l).
Proof. change (x :: y :: l) with ([x] ++ y :: l). by rewrite has_app. Qed.

Ltac has_bytes := repeat match goal with
  | H : has _ _ (_ :: _ :: _) |- _ => apply has_cons in H; destruct H
  end.

Lemma swap_loop_framed E p n k : ∀ i b,
  0 <= p → 0 <= i → 2 * Z.of_nat k <= n - 2 * i → p + n <= zlen b →
  wp (swap_loop p n i k) E (λ _, framed p n b) b.
Proof.
  induction k as [|k IH]; intros i b Hp Hi Hk Hb; simpl.
  - apply wp_ret, framed_refl.
  - unfold load8. do 4 wp1. wp1. apply wp_storen_frame; [lia | unfold get; lens |].
    intros b1 L1 _ F1. wp1. apply wp_storen_frame; [lia | unfold get; lens |].
    intros b2 L2 _ F2. eapply wp_mono; [| apply IH; lia].
    intros ? b3. apply framed_trans. split; [lia |]. intros o x Hx Ho.
    assert (∀ o' m, length (get o' (Z.to_nat 1) m) <= 1)%nat as Hg by (intros; unfold get; lens).
    pose proof (Hg (p + i) b). pose proof (Hg (p + (n - 1 - i)) b).
    apply F2; [apply F1; [done |] |]; lia.
Qed.

(** The result of reversing a value in place. *)
Definition reversed (p : Z) (w b : buf) : unit → buf → Prop :=
  λ _ b', has b' p (rev w) ∧ framed p (zlen w) b b'.

Lemma wp_htonf E p w b :
  length w = 4%nat → has b p w → wp (__htonf p) E (reversed p w b) b.
Proof.
  intros Hw Hb. apply wp_and.
  - destruct w as [|c0 [|c1 [|c2 [|c3 [|]]]]]; try discriminate. unfold __htonf, swap_loop, load8. has_bytes. repeat wp1.
    cbn [rev app]. rewrite !has_cons. split_and!; has_tac.
  - rewrite Hw. apply has_length in Hb. apply swap_loop_framed; lia.
Qed.
Lemma wp_htonll E p w b :
  length w = 8%nat → has b p w → wp (__htonll p) E (reversed p w b) b.
Proof.
  intros Hw Hb. apply wp_and.
  - destruct w as [|c0 [|c1 [|c2 [|c3 [|c4 [|c5 [|c6 [|c7 [|]]]]]]]]]; try discriminate.
    unfold __htonll, swap_loop, load8. has_bytes. repeat wp1.
    cbn [rev app]. rewrite !has_cons. split_and!; has_tac.
  - rewrite Hw. apply has_length in Hb. apply swap_loop_framed; lia.
Qed.

(** The same in continuation form, and when only safety matters. *)
Lemma wp_htonll_has E p w (Q : unit → buf → Prop) b :
  has b p w → length w = 8%nat →
  (∀ b', length b' = length b → has b' p (rev w) →
     (∀ o x, has b o x → o + zlen x <= p ∨ p + 8 <= o → has b' o x) → Q tt b') →
  wp (__htonll p) E Q b.
Proof.
  intros Hb Hw HQ. eapply wp_mono; [| by apply wp_htonll]. intros [] b' [Hr [Hl F]].
  apply HQ; [done .. |]. intros o x Hx Ho. apply F; [done | lia].
Qed.
Lemma wp_htonf_has E p w (Q : unit → buf → Prop) b :
  has b p w → length w = 4%nat →
  (∀ b', length b' = length b → has b' p (rev w) →
     (∀ o x, has b o x → o + zlen x <= p ∨ p + 4 <= o → has b' o x) → Q tt b') →
  wp (__htonf p) E Q b.
Proof.
  intros Hb Hw HQ. eapply wp_mono; [| by apply wp_htonf]. intros [] b' [Hr [Hl F]].
  apply HQ; [done .. |]. intros o x Hx Ho. apply F; [done | lia].
Qed.
Lemma wp_htonll_safe E p (Q : unit → buf → Prop) b :
  0 <= p → p + 8 <= zlen b → (∀ b', framed p 8 b b' → Q tt b') → wp (__htonll p) E Q b.
Proof.
  intros ? ? HQ. eapply wp_mono; [| apply swap_loop_framed; lia]. intros [] b'. apply HQ.
Qed.
Lemma wp_htonf_safe E p (Q : unit → buf → Prop) b :
  0 <= p → p + 4 <= zlen b → (∀ b', framed p 4 b b' → Q tt b') → wp (__htonf p) E Q b.
Proof.
  intros ? ? HQ. eapply wp_mono; [| apply swap_loop_framed; lia]. intros [] b'. apply HQ.
Qed.

(** Bytes the buffer holds without anybody having written them. *)
Lemma has_pad b o n : 0 <= o → 0 <= n → o + n <= zlen b → ∃ pad, has b o pad ∧ zlen pad = n.
Proof. intros. exists (get o (Z.to_nat n) b). split; [by apply has_get | unfold get; lens]. Qed.
