(* ===== verification/PduSimple.v ===== *)
(** PduSimple: the PDUs of fixed shape and the PDUs that carry one array or one
    string: descriptor, fetch, credentials, error, text, log request and user
    authentication (src/src/libpcp/src/p_*.c). *)
From S2P Require Import Prelude Memory Types PduIO Endian.

(** [for (j = 0; j < n; j++) p[j] = htonl(x[j])] *)
Fixpoint store_words (o : Z) (ws : list Z) : M unit :=
  match ws with
  | [] => mret tt
  | w :: ws => store32 o (htonl w);; store_words (o + 4) ws
  end.
(** [for (j = 0; j < n; j++) x[j] = ntohl(p[j])] *)
Fixpoint load_words (o : Z) (n : nat) : M (list Z) :=
  match n with
  | O => mret []
  | S n => w ← load32 o; ws ← load_words (o + 4) n; mret (ntohl w :: ws)
  end.
(** [for (j = 0; j < n; j++) p[j] = ntohl(p[j])], and the words then found there. *)
Fixpoint swab_words (o : Z) (n : nat) : M (list Z) :=
  match n with
  | O => mret []
  | S n => w ← load32 o; store32 o (ntohl w);;
           ws ← swab_words (o + 4) n; mret (ntohl w :: ws)
  end.

(** [strncpy(dst, src, n)] of a string that fills [n] bytes: everything up to the
    first null byte, the rest zeroed. *)
Fixpoint strncpy (src : buf) : buf :=
  match src with
  | [] => []
  | c :: src => if decide (c = Byte.x00) then replicate (S (length src)) Byte.x00
                else c :: strncpy src
  end.

(** ** p_desc.c *)
Module Desc.
Definition sizeof_desc_req_t : Z := 16.
Definition sizeof_desc_t : Z := 32.
Section desc.
Context `{PduAlloc} (fd : Xmit.wfd).

Definition __pmSendDescReq (from pmid : Z) : res (Z * buf) :=
  send_pdu fd sizeof_desc_req_t (
    set_hdr sizeof_desc_req_t PDU_DESC_REQ from;;
    store32 12 (htonl pmid)).

Definition __pmSendDesc (ctx : Z) (d : pmDesc) : res (Z * buf) :=
  send_pdu fd sizeof_desc_t (
    set_hdr sizeof_desc_t PDU_DESC ctx;;
    store32 16 (htonl (dtype d));;
    store32 24 (htonl (sem d));;
    store32 20 (htonl (dindom d));;
    store32 28 (__htonpmUnits (units d));;
    store32 12 (htonl (pmid d))).
End desc.

Definition __pmDecodeDescReq : M Z :=
  len ← hdr_len;
  check (negb (u64 len =? sizeof_desc_req_t)) PM_ERR_IPC;;
  w ← load32 12; mret (ntohl w).

Definition __pmDecodeDesc : M pmDesc :=
  len ← hdr_len;
  check (negb (u64 len =? sizeof_desc_t)) PM_ERR_IPC;;
  ty ← load32 16; sm ← load32 24; ind ← load32 20; un ← load32 28; id ← load32 12;
  mret (mkDesc (ntohl id) (s32 (ntohl ty)) (ntohl ind) (s32 (ntohl sm)) (__ntohpmUnits un)).
End Desc.

(** ** p_fetch.c *)
Module Fetch.
Definition sizeof_fetch_t : Z := 32.
Definition __pmSendFetch `{PduAlloc} (fd : Xmit.wfd) (from ctxnum : Z)
    (when : option timeval32) (pmidlist : list Z) : res (Z * buf) :=
  let numpmid := zlen pmidlist in
  let need := s32 (sizeof_fetch_t + (numpmid - 1) * 4) in
  send_pdu fd need (
    set_hdr need PDU_FETCH from;;
    store32 12 (htonl ctxnum);;
    match when with
    | None => storen 16 (replicate 8 Byte.x00)
    | Some t => store32 16 (htonl (tv_sec t));; store32 20 (htonl (tv_usec t))
    end;;
    store32 24 (htonl numpmid);;
    store_words 28 pmidlist).

Definition __pmDecodeFetch : M (Z * timeval32 * list Z) :=
  len ← hdr_len;
  check (u64 len <? sizeof_fetch_t) PM_ERR_IPC;;
  w ← load32 24;
  let numpmid := s32 (ntohl w) in
  check ((numpmid <=? 0) || (len <? numpmid)) PM_ERR_IPC;;
  check ((INT_MAX - sizeof_fetch_t) / 4 <=? u64 numpmid) PM_ERR_IPC;;
  check (negb (u64 len =? u64 (sizeof_fetch_t + 4 * (numpmid - 1)))) PM_ERR_IPC;;
  pmids ← swab_words 28 (Z.to_nat numpmid);
  ctx ← load32 12; sec ← load32 16; usec ← load32 20;
  mret (s32 (ntohl ctx), mkTv32 (s32 (ntohl sec)) (s32 (ntohl usec)), pmids).
End Fetch.

(** ** p_creds.c *)
Module Creds.
Definition LIMIT_CREDS : Z := 1024.
Definition sizeof_creds_t : Z := 20.
Definition __pmSendCreds `{PduAlloc} (fd : Xmit.wfd) (from : Z) (credlist : list __pmCred)
    : res (Z * buf) :=
  let credcount := zlen credlist in
  if (credcount <=? 0) || (LIMIT_CREDS <? credcount) then Err PM_ERR_IPC
  else
    let need := s32 (sizeof_creds_t + (credcount - 1) * 4) in
    send_pdu fd need (
      set_hdr need PDU_CREDS from;;
      store32 12 (htonl credcount);;
      store_words 16 (cred_word <$> credlist)).

(** The sender and the credentials. *)
Definition __pmDecodeCreds : M (Z * list __pmCred) :=
  len ← hdr_len;
  w ← load32 12;
  let numcred := s32 (ntohl w) in
  check ((numcred <? 0) || (LIMIT_CREDS <? numcred)) PM_ERR_IPC;;
  check (negb (s32 (sizeof_creds_t + (numcred - 1) * 4) =? len)) PM_ERR_IPC;;
  from ← hdr_from;
  ws ← load_words 16 (Z.to_nat numcred);
  mret (from, word_cred <$> ws).
End Creds.

(** ** p_error.c *)
Module Error.
Definition sizeof_p_error_t : Z := 16.
Definition sizeof_x_error_t : Z := 20.
Definition PDU_VERSION2 : Z := 2.
Definition PM_ERR_BASE1 : Z := 1000.
Definition PM_ERR_BASE2 : Z := 12345.
Definition XLATE_ERR_1TO2 (e : Z) : Z :=
  if e <=? - PM_ERR_BASE1 then s32 (e + PM_ERR_BASE1 - PM_ERR_BASE2) else e.
Definition XLATE_ERR_2TO1 (e : Z) : Z :=
  if e <=? - PM_ERR_BASE2 then s32 (e + PM_ERR_BASE2 - PM_ERR_BASE1) else e.

Section send.
Context `{PduAlloc} (fd : Xmit.wfd).
Definition __pmSendError (from code : Z) : res (Z * buf) :=
  send_pdu fd sizeof_p_error_t (
    set_hdr sizeof_p_error_t PDU_ERROR from;;
    store32 12 code;; htonl_at 12).
(** [datum] is sent as it is: the caller has swabbed it. *)
Definition __pmSendXtendError (from code datum : Z) : res (Z * buf) :=
  send_pdu fd sizeof_x_error_t (
    set_hdr sizeof_x_error_t PDU_ERROR from;;
    store32 12 (htonl (XLATE_ERR_2TO1 code));;
    store32 16 datum).
End send.

Definition bad_len (len : Z) : bool :=
  negb (len =? sizeof_p_error_t) && negb (len =? sizeof_x_error_t).

(** The status returned and the error code delivered. *)
Definition __pmDecodeError : M (Z * Z) :=
  len ← hdr_len;
  if bad_len len then mret (PM_ERR_IPC, PM_ERR_IPC)
  else w ← load32 12; mret (0, s32 (ntohl w)).

(** Status, code, and the datum when there is one. *)
Definition __pmDecodeXtendError : M (Z * Z * option Z) :=
  len ← hdr_len;
  code ← (if bad_len len then mret PM_ERR_IPC
          else w ← load32 12; mret (XLATE_ERR_1TO2 (s32 (ntohl w))));
  if len =? sizeof_x_error_t
  then d ← load32 16; mret (PDU_VERSION2, code, Some (s32 d))
  else mret (PM_ERR_IPC, code, None).
End Error.

(** ** p_text.c *)
Module Text.
Definition sizeof_text_req_t : Z := 20.
Definition sizeof_text_t : Z := 24.
Definition PM_TEXT_PMID : Z := 4.
Definition PM_TEXT_INDOM : Z := 8.
Definition flag (ty f : Z) : bool := negb (Z.land ty f =? 0).

Section send.
Context `{PduAlloc} (fd : Xmit.wfd).
Definition __pmSendTextReq (from ident type : Z) : res (Z * buf) :=
  send_pdu fd sizeof_text_req_t (
    set_hdr sizeof_text_req_t PDU_TEXT_REQ from;;
    (if flag type PM_TEXT_PMID then store32 12 (htonl ident)
     else if flag type PM_TEXT_INDOM then store32 12 (htonl ident)
     else store32 12 (htonl ident));;
    store32 16 (htonl type)).

(** [ident] is in network byte order already. *)
Definition __pmSendText (ctx ident : Z) (buffer : buf) : res (Z * buf) :=
  let need := s32 (sizeof_text_t - 4 + PM_PDU_SIZE_BYTES (zlen buffer)) in
  send_pdu fd need (
    set_hdr need PDU_TEXT ctx;;
    store32 12 ident;;
    store32 16 (zlen buffer);;
    storen 20 buffer;;
    htonl_at 16).
End send.

Definition __pmDecodeTextReq : M (Z * Z) :=
  len ← hdr_len;
  check (u64 len <? sizeof_text_req_t) PM_ERR_IPC;;
  t ← load32 16;
  let type := s32 (ntohl t) in
  if flag type PM_TEXT_PMID then w ← load32 12; mret (s32 (ntohl w), type)
  else if flag type PM_TEXT_INDOM then w ← load32 12; mret (s32 (ntohl w), type)
  else mret (s32 PM_INDOM_NULL, type).

Definition __pmDecodeText : M (Z * buf) :=
  len ← hdr_len;
  check (u64 len <? sizeof_text_t - 4) PM_ERR_IPC;;
  ident ← load32 12;
  w ← load32 16;
  let buflen := s32 (ntohl w) in
  check ((buflen <? 0) || (INT_MAX - 1 <=? buflen) || (len <? buflen)) PM_ERR_IPC;;
  check (u64 len <? u64 (sizeof_text_t - 4 + buflen)) PM_ERR_IPC;;
  text ← loadn 20 buflen;
  mret (s32 ident, strncpy text).
End Text.

(** ** p_lrequest.c *)
Module LogRequest.
Definition sizeof_notify_t : Z := 16.
Definition __pmSendLogRequest `{PduAlloc} (fd : Xmit.wfd) (type : Z) : res (Z * buf) :=
  send_pdu fd sizeof_notify_t (
    set_hdr sizeof_notify_t PDU_LOG_REQUEST FROM_ANON;;
    store32 12 (htonl type)).
Definition __pmDecodeLogRequest : M Z :=
  len ← hdr_len;
  check (u64 len <? sizeof_notify_t) PM_ERR_IPC;;
  w ← load32 12; mret (s32 (ntohl w)).
End LogRequest.

(** ** p_userauth.c *)
Module UserAuth.
Definition LIMIT_USER_AUTH : Z := 2048.
Definition __pmSendUserAuth `{PduAlloc} (fd : Xmit.wfd) (from : Z) (payload : buf)
    : res (Z * buf) :=
  let length := zlen payload in
  if (length <? 0) || (LIMIT_USER_AUTH <=? length) then Err PM_ERR_IPC
  else
    let need := s32 (sizeof_hdr + length) in
    send_pdu fd need (set_hdr need PDU_USER_AUTH from;; storen 12 payload).

(** The payload, [None] for a null pointer. *)
Definition __pmDecodeUserAuth : M (Z * option buf) :=
  len ← hdr_len;
  let length := s32 (len - sizeof_hdr) in
  check ((length <? 0) || (LIMIT_USER_AUTH <=? length)) PM_ERR_IPC;;
  if length =? 0 then mret (length, None)
  else p ← loadn 12 length; mret (length, Some p).
End UserAuth.

(** ** Arrays of words *)

Definition be_words (ws : list Z) : buf := concat (be32 <$> ws).
Lemma length_be_words ws : length (be_words ws) = (4 * length ws)%nat.
Proof. unfold be_words. induction ws; [done |]. rewrite fmap_cons. simpl concat. lens. Qed.
#[export] Hint Rewrite length_be_words : lens.

Lemma be_words_cons w ws : be_words (w :: ws) = be32 w ++ be_words ws.
Proof. done. Qed.

Lemma wp_store_words E ws : ∀ o (Q : unit → buf → Prop) b,
  0 <= o → o + 4 * zlen ws <= zlen b →
  (∀ b', length b' = length b → has b' o (be_words ws) →
     (∀ o' x, has b o' x → o' + zlen x <= o ∨ o + 4 * zlen ws <= o' → has b' o' x) → Q tt b') →
  wp (store_words o ws) E Q b.
Proof.
  induction ws as [|w ws IH]; intros o Q b Ho Hl HQ; simpl store_words.
  - apply wp_ret, HQ; [done | | done]. apply has_nil. lens.
  - wp1. apply wp_store32_frame; [lens | lens |]. intros b1 L1 H1 F1. rewrite le32_htonl in H1.
    apply IH; [lia | lens |]. intros b2 L2 H2 F2. apply HQ; [lia | |].
    + rewrite be_words_cons. has_join. apply F2; [done | lens].
    + intros o' x Hx Hd. apply F2; [apply F1; [done |] |]; lens.
Qed.

Lemma wp_load_words_has E ws : ∀ o (Q : list Z → buf → Prop) b,
  has b o (be_words ws) → Q (u32 <$> ws) b → wp (load_words o (length ws)) E Q b.
Proof.
  induction ws as [|w ws IH]; intros o Q b Hh HQ; cbn [load_words length].
  - by apply wp_ret.
  - rewrite be_words_cons in Hh. has_split. repeat wp1.
    apply IH; [has_tac |]. by repeat wp1.
Qed.

Lemma wp_swab_words_has E ws : ∀ o (Q : list Z → buf → Prop) b,
  has b o (be_words ws) →
  (∀ b', framed o (4 * zlen ws) b b' → Q (u32 <$> ws) b') → wp (swab_words o (length ws)) E Q b.
Proof.
  induction ws as [|w ws IH]; intros o Q b Hh HQ; cbn [swab_words length].
  - apply wp_ret, HQ, framed_refl.
  - rewrite be_words_cons in Hh. has_split. wp1. wp1. wp1.
    apply wp_store32_frame; [hlens | hlens |]. intros b1 L1 _ F1. wp1.
    apply IH; [apply F1; [has_tac | lens] |]. intros b2 [L2 F2]. apply wp_ret, HQ.
    split; [lia |]. intros o' x Hx Hd. apply F2; [apply F1; [done |] |]; lens.
Qed.

Lemma wp_load_words E n : ∀ o (Q : list Z → buf → Prop) b,
  0 <= o → o + 4 * Z.of_nat n <= zlen b → (∀ ws, length ws = n → Q ws b) →
  wp (load_words o n) E Q b.
Proof.
  induction n as [|n IH]; intros o Q b Ho Hl HQ; cbn [load_words].
  - by apply wp_ret, HQ.
  - repeat wp1. apply IH; [lia .. |]. intros ws Hws. apply wp_ret, HQ. simpl. lia.
Qed.
Lemma wp_swab_words E n : ∀ o (Q : list Z → buf → Prop) b,
  0 <= o → o + 4 * Z.of_nat n <= zlen b →
  (∀ ws b', length ws = n → length b' = length b → Q ws b') → wp (swab_words o n) E Q b.
Proof.
  induction n as [|n IH]; intros o Q b Ho Hl HQ; cbn [swab_words].
  - by apply wp_ret, HQ.
  - repeat wp1. apply IH; [lia .. |]. intros ws b2 Hws Hb2. apply wp_ret, HQ; [simpl; lia | lia].
Qed.

Lemma strncpy_string s : Forall (λ c, c ≠ Byte.x00) s → strncpy s = s.
Proof. induction 1; simpl; [done |]. by case_decide; [| f_equal]. Qed.

Ltac wp_ext ::= lazymatch goal with
  | |- wp (store_words _ _) _ _ ?b =>
      apply wp_store_words; [hlens | hlens |];
      let b' := fresh "b" in let L := fresh "Hlen" in let N := fresh "Hhas" in
      let F := fresh "F" in intros b' L N F; frame_has b b' F
  | |- wp (htonl_at _) _ _ _ => unfold htonl_at
  | |- wp (ntohl_at _) _ _ _ => unfold ntohl_at
  | |- wp (__ntohll _) _ _ _ => unfold __ntohll
  | |- wp (__htonll _) _ _ ?b =>
      let b' := fresh "b" in let L := fresh "Hlen" in let N := fresh "Hhas" in
      let F := fresh "F" in
      first [ eapply wp_htonll_has; [has_tac | lens |]; intros b' L N F; frame_has b b' F
            | apply wp_htonll_safe; [hlens | hlens |]; intros b' [L F]; frame_has b b' F ]
  end.

#[export] Hint Unfold Desc.sizeof_desc_req_t Desc.sizeof_desc_t Fetch.sizeof_fetch_t
  Creds.LIMIT_CREDS Creds.sizeof_creds_t Error.sizeof_p_error_t Error.sizeof_x_error_t
  Text.sizeof_text_req_t Text.sizeof_text_t LogRequest.sizeof_notify_t
  UserAuth.LIMIT_USER_AUTH : sizes.

(** [send_start] opens the sending half of a round trip. *)
Ltac send_start := apply send_pdu_ok; [done | sizes; lens | sizes; lens | done |];
  let b := fresh "b" in let Hb := fresh "Hb" in intros b Hb; sizes.

Section roundtrip.
Context `{PduAlloc} (fd : Xmit.wfd).
Hypothesis alloc_ok : ∀ n, is_Some (find_pdubuf n).

Lemma desc_req_roundtrip from id :
  delivers fd 16 → is_u32 id →
  roundtrips (Desc.__pmSendDescReq fd from id) PDU_DESC_REQ from Desc.__pmDecodeDescReq id.
Proof.
  intros Hd Hid. exists (be32 id). split.
  - send_start. repeat wp1. has_join.
  - dec_start. unfold Desc.__pmDecodeDescReq. read_len. repeat wp1.
    + chk.
    + by rewrite u32_id.
Qed.

Lemma desc_roundtrip ctx d :
  delivers fd 32 → desc_wf d →
  roundtrips (Desc.__pmSendDesc fd ctx d) PDU_DESC ctx Desc.__pmDecodeDesc d.
Proof.
  intros Hd (H1 & H2 & H3 & H4 & H5).
  exists (be32 (pmid d) ++ be32 (dtype d) ++ be32 (dindom d) ++ be32 (sem d)
          ++ be32 (units_word (units d))). split.
  - send_start. unfold __htonpmUnits. repeat wp1. has_join.
  - dec_start. unfold Desc.__pmDecodeDesc. read_len. repeat wp1.
    + chk.
    + unfold __ntohpmUnits. rewrite ntohl_be32, !s32_u32_id, !u32_id, word_units_word; try done.
      * by destruct d.
      * apply units_word_range.
Qed.

Lemma map_u32_id ws : Forall is_u32 ws → u32 <$> ws = ws.
Proof. induction 1; [done |]. by rewrite fmap_cons, u32_id by done; f_equal. Qed.

Lemma fetch_roundtrip from ctxnum when pmids :
  delivers fd (28 + 4 * zlen pmids) → is_s32 ctxnum →
  (∀ t, when = Some t → tv32_wf t) → Forall is_u32 pmids → pmids ≠ [] →
  36 + 4 * zlen pmids <= INT_MAX →
  roundtrips (Fetch.__pmSendFetch fd from ctxnum when pmids) PDU_FETCH from
    Fetch.__pmDecodeFetch (ctxnum, default (mkTv32 0 0) when, pmids).
Proof.
  intros Hd Hc Hw Hids Hne Hlt. sizes.
  assert (0 < zlen pmids) by (destruct pmids; [done | simpl; lia]).
  set (t := default (mkTv32 0 0) when).
  assert (tv32_wf t) as [Hs Hu] by (unfold t; destruct when; simpl; [auto | by split; split; simpl]).
  exists (be32 ctxnum ++ be32 (tv_sec t) ++ be32 (tv_usec t) ++ be32 (zlen pmids) ++ be_words pmids).
  split.
  - unfold Fetch.__pmSendFetch. sizes. rewrite s32_id by (split; lia).
    replace (32 + (zlen pmids - 1) * 4) with (28 + 4 * zlen pmids) by lia.
    match goal with |- send_pdu _ ?n _ = Ok (?m, _) => replace m with n by lens end.
    send_start. destruct when; subst t; simpl default in *; repeat wp1.
    + has_join.
    + change (replicate 8 Byte.x00) with (be32 0 ++ be32 0) in *. has_split. has_join.
  - dec_start. unfold Fetch.__pmDecodeFetch. read_len. sizes.
    repeat wp1; rewrite ?s32_u32_id in * by (split; lia); [chk .. |].
    rewrite Nat2Z.id. apply wp_swab_words_has; [has_tac |]. intros b' [L F]. frame_has b b' F.
    repeat wp1.
    rewrite map_u32_id, !s32_u32_id by done. by destruct t.
Qed.

Lemma creds_roundtrip from creds :
  delivers fd (16 + 4 * zlen creds) → is_s32 from → Forall cred_wf creds →
  creds ≠ [] → zlen creds <= 1024 →
  roundtrips (Creds.__pmSendCreds fd from creds) PDU_CREDS from
    Creds.__pmDecodeCreds (from, creds).
Proof.
  intros Hd Hf Hwf Hne Hlt.
  assert (0 < zlen creds) by (destruct creds; [done | simpl; lia]).
  exists (be32 (zlen creds) ++ be_words (cred_word <$> creds)). split.
  - unfold Creds.__pmSendCreds. sizes. rewrite s32_id by (split; lia).
    rewrite !(proj2 (Z.leb_gt _ _)), (proj2 (Z.ltb_ge _ _)) by lia. cbn [orb].
    replace (20 + (zlen creds - 1) * 4) with (16 + 4 * zlen creds) by lia.
    match goal with |- send_pdu _ ?n _ = Ok (?m, _) => replace m with n by lens end.
    send_start. repeat wp1. has_join.
  - dec_start. unfold Creds.__pmDecodeCreds. read_len. sizes.
    repeat wp1; rewrite ?s32_u32_id in * by (split; lia); [chk .. |].
    rewrite Nat2Z.id, <- (length_fmap cred_word creds). apply wp_load_words_has; [has_tac |].
    repeat wp1. rewrite s32_u32_id by done. f_equal.
    rewrite map_u32_id by (apply Forall_fmap, Forall_true; intros; apply cred_word_range).
    clear -Hwf. induction Hwf; [done |]. by rewrite !fmap_cons, word_cred_word by done; f_equal.
Qed.

Lemma error_roundtrip from code :
  delivers fd 16 → is_s32 code →
  roundtrips (Error.__pmSendError fd from code) PDU_ERROR from
    Error.__pmDecodeError (0, code).
Proof.
  intros Hd Hc. exists (be32 code). split.
  - send_start. repeat wp1. autorewrite with word in *. has_join.
  - dec_start. unfold Error.__pmDecodeError, Error.bad_len. read_len.
    repeat wp1; try (exfalso; chk). by rewrite s32_u32_id.
Qed.

Lemma xlate_err code :
  is_s32 code → code <= -12345 ∨ -1000 < code →
  Error.XLATE_ERR_1TO2 (Error.XLATE_ERR_2TO1 code) = code.
Proof.
  unfold Error.XLATE_ERR_1TO2, Error.XLATE_ERR_2TO1, Error.PM_ERR_BASE1, Error.PM_ERR_BASE2, is_s32.
  intros Hc H1. destruct (Z.leb_spec code (Z.opp 12345)).
  - rewrite (s32_id (code + _ - _)) by (split; lia). rewrite (proj2 (Z.leb_le _ _)) by lia.
    rewrite s32_id by (split; lia). lia.
  - by rewrite (proj2 (Z.leb_gt _ _)) by lia.
Qed.
Lemma xlate_2to1_range code : is_s32 code → is_s32 (Error.XLATE_ERR_2TO1 code).
Proof. intros. unfold Error.XLATE_ERR_2TO1. case_match; [apply s32_range | done]. Qed.

Lemma xtend_error_roundtrip from code datum :
  delivers fd 20 → is_s32 code → code <= -12345 ∨ -1000 < code → is_s32 datum →
  roundtrips (Error.__pmSendXtendError fd from code datum) PDU_ERROR from
    Error.__pmDecodeXtendError (Error.PDU_VERSION2, code, Some datum).
Proof.
  intros Hd Hc Hx Hdat. exists (be32 (Error.XLATE_ERR_2TO1 code) ++ le32 datum). split.
  - send_start. repeat wp1. has_join.
  - dec_start. unfold Error.__pmDecodeXtendError, Error.bad_len. read_len.
    repeat wp1; try (exfalso; chk). rewrite !s32_u32_id, xlate_err by auto using xlate_2to1_range. done.
Qed.

Lemma text_req_roundtrip from ident type :
  delivers fd 20 → is_s32 ident → is_s32 type →
  Text.flag type Text.PM_TEXT_PMID || Text.flag type Text.PM_TEXT_INDOM = true →
  roundtrips (Text.__pmSendTextReq fd from ident type) PDU_TEXT_REQ from
    Text.__pmDecodeTextReq (ident, type).
Proof.
  intros Hd Hi Ht Hf. exists (be32 ident ++ be32 type). split.
  - send_start. repeat wp1; has_join.
  - dec_start. unfold Text.__pmDecodeTextReq. read_len. sizes. subst len.
    repeat wp1; rewrite ?s32_u32_id in * by done; try done;
      first [chk | repeat match goal with E : Text.flag _ _ = _ |- _ => rewrite E in Hf end; done].
Qed.

Lemma text_roundtrip ctx ident text :
  delivers fd (20 + PM_PDU_SIZE_BYTES (zlen text)) → is_s32 ident →
  Forall (λ c, c ≠ Byte.x00) text → zlen text < 2^31 - 24 →
  roundtrips (Text.__pmSendText fd ctx ident text) PDU_TEXT ctx
    Text.__pmDecodeText (ident, text).
Proof.
  intros Hd Hi Ht Hlt. pose proof (pdu_size_bounds (zlen text)).
  destruct (send_pdu_ok_ex fd (20 + PM_PDU_SIZE_BYTES (zlen text))
    (set_hdr (20 + PM_PDU_SIZE_BYTES (zlen text)) PDU_TEXT ctx;;
     store32 12 ident;; store32 16 (zlen text);; storen 20 text;; htonl_at 16) PDU_TEXT ctx
    (λ body, ∃ pad, body = le32 ident ++ be32 (zlen text) ++ text ++ pad))
    as (? & (pad & ->) & E); [done | lia | done | |].
  - intros b Hb. repeat wp1. autorewrite with word in *.
    match goal with Hh : has ?b' 20 text |- _ =>
      destruct (has_pad b' (20 + zlen text) (PM_PDU_SIZE_BYTES (zlen text) - zlen text))
        as (pad & Hp & Hl); [lia .. |] end.
    eexists. split; [by exists pad |]. split; [unfold sizeof_hdr; lens | has_join].
  - eexists. split.
    + rewrite <- E. unfold Text.__pmSendText. sizes. by rewrite s32_id by (split; lia).
    + dec_start. unfold Text.__pmDecodeText. read_len. sizes.
      repeat wp1; rewrite ?s32_u32_id in * by (split; lia); [chk .. |].
      eapply wp_loadn_has; [has_tac | done |]. wp1. by rewrite s32_u32_id, strncpy_string.
Qed.

Lemma log_request_roundtrip type :
  delivers fd 16 → is_s32 type →
  roundtrips (LogRequest.__pmSendLogRequest fd type) PDU_LOG_REQUEST FROM_ANON
    LogRequest.__pmDecodeLogRequest type.
Proof.
  intros Hd Ht. exists (be32 type). split.
  - send_start. repeat wp1. has_join.
  - dec_start. unfold LogRequest.__pmDecodeLogRequest. read_len. sizes.
    repeat wp1; [chk |]. by rewrite s32_u32_id.
Qed.

Lemma user_auth_roundtrip from payload :
  delivers fd (12 + zlen payload) → payload ≠ [] → zlen payload < 2048 →
  roundtrips (UserAuth.__pmSendUserAuth fd from payload) PDU_USER_AUTH from
    UserAuth.__pmDecodeUserAuth (zlen payload, Some payload).
Proof.
  intros Hd Hne Hlt. exists payload.
  assert (0 < zlen payload) by (destruct payload; [done | simpl; lia]). split.
  - unfold UserAuth.__pmSendUserAuth. sizes. rewrite s32_id by (split; lia).
    rewrite !(proj2 (Z.leb_gt _ _)), (proj2 (Z.ltb_ge _ _)) by lia. cbn [orb].
    send_start. repeat wp1. has_join.
  - dec_start. unfold UserAuth.__pmDecodeUserAuth. read_len. sizes. subst len.
    rewrite s32_id by (split; lia). replace (12 + zlen payload - 12) with (zlen payload) by lia.
    repeat wp1; [chk .. |]. done.
Qed.

End roundtrip.

(** ** Decoder safety *)

Section safety.
Context (b : buf) (len : Z).

Lemma desc_req_safe : received b len → Desc.__pmDecodeDescReq b ≠ Fault.
Proof. unfold Desc.__pmDecodeDescReq. dec_safe. Qed.

Lemma desc_safe : received b len → Desc.__pmDecodeDesc b ≠ Fault.
Proof. unfold Desc.__pmDecodeDesc. dec_safe. Qed.

Lemma fetch_safe : received b len → Fetch.__pmDecodeFetch b ≠ Fault.
Proof.
  unfold Fetch.__pmDecodeFetch. dec_safe. apply wp_swab_words; [lia .. |].
  intros ws b' _ Hl. repeat wp1. triv.
Qed.

(** The count is read before the length is checked: the buffer must hold it. *)
Lemma creds_safe : received b len → 16 <= zlen b → Creds.__pmDecodeCreds b ≠ Fault.
Proof.
  unfold Creds.__pmDecodeCreds. intros Hr Hb. revert Hr. dec_safe.
  rewrite s32_id in * by (unfold is_s32; lia).
  apply wp_load_words; [lia .. |]. intros. by repeat wp1.
Qed.

Lemma error_safe : received b len → Error.__pmDecodeError b ≠ Fault.
Proof. unfold Error.__pmDecodeError, Error.bad_len. dec_safe. Qed.
Lemma xtend_error_safe : received b len → Error.__pmDecodeXtendError b ≠ Fault.
Proof. unfold Error.__pmDecodeXtendError, Error.bad_len. dec_safe. Qed.
Lemma text_req_safe : received b len → Text.__pmDecodeTextReq b ≠ Fault.
Proof. unfold Text.__pmDecodeTextReq. dec_safe. Qed.
Lemma text_safe : received b len → Text.__pmDecodeText b ≠ Fault.
Proof. unfold Text.__pmDecodeText. dec_safe. Qed.
Lemma log_request_safe : received b len → LogRequest.__pmDecodeLogRequest b ≠ Fault.
Proof. unfold LogRequest.__pmDecodeLogRequest. dec_safe. Qed.
Lemma user_auth_safe : received b len → UserAuth.__pmDecodeUserAuth b ≠ Fault.
Proof.
  unfold UserAuth.__pmDecodeUserAuth. dec_open.
  rewrite s32_id in * by (unfold is_s32; lia). safe_steps.
Qed.
End safety.
