(* ===== verification/PduStatus.v ===== *)
(** PduStatus: the pmlogger status PDU, a C struct sent as it stands in memory
    with its integers converted in place (src/src/libpcp/src/p_lstatus.c). *)
From S2P Require Import Prelude Memory Types PduIO Endian PduSimple.

(** ** p_lstatus.c *)
Module LogStatus.
(** [__pmLoggerStatus]; the character arrays are their bytes. *)
Record __pmLoggerStatus := mkStatus {
  ls_start : timeval32; ls_last : timeval32; ls_timenow : timeval32;
  ls_state : Z; ls_vol : Z; ls_size : Z;
  ls_hostname : buf; ls_fqdn : buf; ls_tz : buf; ls_tzlogger : buf
}.
Definition le64 (x : Z) : buf := le_split 8 x.
Definition tv_bytes (t : timeval32) : buf := le32 (tv_sec t) ++ le32 (tv_usec t).
(** The struct in host memory. *)
Definition status_bytes (s : __pmLoggerStatus) : buf :=
  tv_bytes (ls_start s) ++ tv_bytes (ls_last s) ++ tv_bytes (ls_timenow s)
  ++ le32 (ls_state s) ++ le32 (ls_vol s) ++ le64 (ls_size s)
  ++ ls_hostname s ++ ls_fqdn s ++ ls_tz s ++ ls_tzlogger s.
Definition sizeof_logstatus_t : Z := 264.

Definition __pmSendLogStatus `{PduAlloc} (fd : Xmit.wfd) (status : __pmLoggerStatus)
    : res (Z * buf) :=
  send_pdu fd sizeof_logstatus_t (
    set_hdr sizeof_logstatus_t PDU_LOG_STATUS FROM_ANON;;
    storen 16 (status_bytes status);;
    htonl_at 40;; htonl_at 44;; __htonll 48;;
    htonl_at 16;; htonl_at 20;; htonl_at 24;; htonl_at 28;; htonl_at 32;; htonl_at 36).

Definition load_s32 (o : Z) : M Z := w ← load32 o; mret (s32 w).
Definition load_tv (o : Z) : M timeval32 :=
  s ← load_s32 o; u ← load_s32 (o + 4); mret (mkTv32 s u).
(** [&pp->status] read as a struct. *)
Definition load_status (o : Z) : M __pmLoggerStatus :=
  t1 ← load_tv o; t2 ← load_tv (o + 8); t3 ← load_tv (o + 16);
  st ← load_s32 (o + 24); vol ← load_s32 (o + 28); sz ← loadn (o + 32) 8;
  h ← loadn (o + 40) 64; f ← loadn (o + 104) 64;
  tz ← loadn (o + 168) 40; tzl ← loadn (o + 208) 40;
  mret (mkStatus t1 t2 t3 st vol ((le_combine sz + 2^63) mod 2^64 - 2^63) h f tz tzl).

Definition __pmDecodeLogStatus : M __pmLoggerStatus :=
  len ← hdr_len;
  check (negb (u64 len =? sizeof_logstatus_t)) PM_ERR_IPC;;
  ntohl_at 40;; ntohl_at 44;; __ntohll 48;;
  ntohl_at 16;; ntohl_at 20;; ntohl_at 24;; ntohl_at 28;; ntohl_at 32;; ntohl_at 36;;
  load_status 16.
End LogStatus.

#[export] Hint Unfold LogStatus.sizeof_logstatus_t : sizes.

Section roundtrip.
Context `{PduAlloc} (fd : Xmit.wfd).
Hypothesis alloc_ok : ∀ n, is_Some (find_pdubuf n).

(** The character arrays of a status record have their declared sizes. *)
Definition status_wf (s : LogStatus.__pmLoggerStatus) : Prop :=
  tv32_wf (LogStatus.ls_start s) ∧ tv32_wf (LogStatus.ls_last s)
  ∧ tv32_wf (LogStatus.ls_timenow s) ∧ is_s32 (LogStatus.ls_state s)
  ∧ is_s32 (LogStatus.ls_vol s) ∧ - 2^63 <= LogStatus.ls_size s < 2^63
  ∧ length (LogStatus.ls_hostname s) = 64%nat ∧ length (LogStatus.ls_fqdn s) = 64%nat
  ∧ length (LogStatus.ls_tz s) = 40%nat ∧ length (LogStatus.ls_tzlogger s) = 40%nat.

Lemma length_le64 x : length (LogStatus.le64 x) = 8%nat.
Proof. apply length_le_split. Qed.

Lemma log_status_roundtrip s :
  delivers fd 264 → status_wf s →
  roundtrips (LogStatus.__pmSendLogStatus fd s) PDU_LOG_STATUS FROM_ANON
    LogStatus.__pmDecodeLogStatus s.
Proof.
  intros Hd (Ht1 & Ht2 & Ht3 & H4 & H5 & H6 & L1 & L2 & L3 & L4).
  destruct s as [[s1 u1] [s2 u2] [s3 u3] st vol sz host fqdn tz tzl].
  unfold tv32_wf in *. simpl in *. destruct_and!.
  unfold LogStatus.__pmSendLogStatus, LogStatus.status_bytes, LogStatus.tv_bytes. simpl.
  pose proof (length_le64 sz) as Lsz.
  destruct (send_pdu_ok_ex fd 264
    (set_hdr 264 PDU_LOG_STATUS FROM_ANON;;
     storen 16 ((le32 s1 ++ le32 u1) ++ (le32 s2 ++ le32 u2) ++ (le32 s3 ++ le32 u3)
        ++ le32 st ++ le32 vol ++ LogStatus.le64 sz ++ host ++ fqdn ++ tz ++ tzl);;
     htonl_at 40;; htonl_at 44;; __htonll 48;;
     htonl_at 16;; htonl_at 20;; htonl_at 24;; htonl_at 28;; htonl_at 32;; htonl_at 36) 
     PDU_LOG_STATUS FROM_ANON
    (λ body, ∃ pad, zlen pad = 4 ∧ body = pad ++ (be32 s1 ++ be32 u1) ++ (be32 s2 ++ be32 u2) ++ (be32 s3 ++ be32 u3)
        ++ be32 st ++ be32 vol ++ rev (LogStatus.le64 sz) ++ host ++ fqdn ++ tz ++ tzl))
    as (? & (pad & Lpad' & ->) & E); [done | lia | done | |].
  - intros b Hb. destruct (has_pad b 12 4) as (pad & Hpad & Lpad); [lia .. |].
    repeat (wp1; has_split). autorewrite with word in *.
    eexists. split; [by exists pad |]. split; [unfold sizeof_hdr; lens | has_join].
  - eexists. split; [exact E |]. assert (length pad = 4%nat) as Lpad by lia.
    dec_start. unfold LogStatus.__pmDecodeLogStatus, LogStatus.load_status, LogStatus.load_tv,
      LogStatus.load_s32. read_len. sizes. repeat wp1; [chk |].
    rewrite !s32_u32, !s32_id, rev_involutive by done. unfold LogStatus.le64.
    rewrite le_combine_split. change (2 ^ (Z.of_nat 8 * 8)) with (2 ^ 64).
    rewrite Zplus_mod_idemp_l, Z.mod_small by lia. f_equal. lia.
Qed.
End roundtrip.

Lemma log_status_safe b len : received b len → LogStatus.__pmDecodeLogStatus b ≠ Fault.
Proof.
  unfold LogStatus.__pmDecodeLogStatus, LogStatus.load_status, LogStatus.load_tv, LogStatus.load_s32.
  dec_safe.
Qed.
