(* ===== verification/PduInstance.v ===== *)
(** PduInstance: the instance domain PDUs, src/src/libpcp/src/p_instance.c. *)
From S2P Require Import Prelude Memory Types PduIO Endian PduSimple.

(** ** Names in a PDU *)

(** The tildes that fill a name of [n] bytes at [o] up to a word boundary. *)
Definition tilde : byte := Byte.x7e.
Definition tilde_pad (o n : Z) : M unit :=
  if n mod 4 =? 0 then mret tt
  else storen (o + n) (replicate (Z.to_nat (4 - n mod 4)) tilde).

(** [l[i]], an access outside of the array being a fault. *)
Definition index {A} (l : list A) (i : nat) : M A := λ b,
  match l !! i with Some x => Ok (x, b) | None => Fault end.

Module Instance.
Definition sizeof_instance_req_t : Z := 36.
Definition sizeof_instlist_t : Z := 12.
Definition sizeof_instance_t : Z := 24.

(** [name]: [None] for a null pointer. *)
Definition __pmSendInstanceReq `{PduAlloc} (fd : Xmit.wfd) (from : Z) (when : timeval32)
    (indom inst : Z) (name : option buf) : res (Z * buf) :=
  let need := s32 (sizeof_instance_req_t - 4 +
    match name with Some s => PM_PDU_SIZE_BYTES (zlen s) | None => 0 end) in
  send_pdu fd 4 (
    set_hdr need PDU_INSTANCE_REQ from;;
    store32 16 (htonl (tv_sec when));;
    store32 20 (htonl (tv_usec when));;
    store32 12 (htonl indom);;
    store32 24 (htonl inst);;
    match name with
    | None => store32 28 0
    | Some s =>
        let namelen := s32 (zlen s) in
        store32 28 namelen;;
        storen 32 s;;
        tilde_pad 32 namelen;;
        htonl_at 28
    end).

(** The time, the instance domain, the instance and the name if there is one. *)
Definition __pmDecodeInstanceReq : M (timeval32 * Z * Z * option buf) :=
  len ← hdr_len;
  check (u64 len <? sizeof_instance_req_t - 4) PM_ERR_IPC;;
  sec ← load32 16; usec ← load32 20; ind ← load32 12; ins ← load32 24; nl ← load32 28;
  let namelen := s32 (ntohl nl) in
  let r name := (mkTv32 (s32 (ntohl sec)) (s32 (ntohl usec)), ntohl ind, s32 (ntohl ins), name) in
  if 0 <? namelen then
    check ((INT_MAX - 1 <=? namelen) || (len <? namelen)) PM_ERR_IPC;;
    check (u64 len <? u64 (sizeof_instance_req_t - 4 + namelen)) PM_ERR_IPC;;
    name ← loadn 32 namelen; mret (r (Some (strncpy name)))
  else if namelen <? 0 then fail PM_ERR_IPC
  else mret (r None).

(** [__pmInResult] of impl.h; a null list is [None]. *)
Record __pmInResult := mkInResult {
  r_indom : Z; r_numinst : Z; r_instlist : option (list Z); r_namelist : option (list buf)
}.

Section send.
Context (result : __pmInResult).
(** The space the instances from [i] on take. *)
Fixpoint need_insts (i n : nat) (need : Z) : M Z :=
  match n with
  | O => mret need
  | S n =>
      name ← match r_namelist result with
             | Some l => s ← index l i; mret (PM_PDU_SIZE_BYTES (zlen s))
             | None => mret 0
             end;
      need_insts (S i) n (s32 (need + (sizeof_instlist_t - 4) + name))
  end.

(** [for (i = j = 0; i < result->numinst; i++)] *)
Fixpoint fill_insts (i n : nat) (j : Z) : M unit :=
  match n with
  | O => mret tt
  | S n =>
      let ip := 20 + 4 * (j / 4) in
      match r_instlist result with
      | Some l => x ← index l i; store32 ip (htonl x)
      | None => store32 ip (htonl PM_IN_NULL)
      end;;
      match r_namelist result with
      | Some l =>
          s ← index l i;
          let namelen := s32 (zlen s) in
          store32 (ip + 4) namelen;;
          storen (ip + 8) s;;
          tilde_pad (ip + 8) namelen;;
          htonl_at (ip + 4);;
          fill_insts (S i) n (s32 (j + (sizeof_instlist_t - 4) + PM_PDU_SIZE_BYTES namelen))
      | None =>
          store32 (ip + 4) 0;;
          fill_insts (S i) n (s32 (j + (sizeof_instlist_t - 4)))
      end
  end.

Definition __pmSendInstance `{PduAlloc} (fd : Xmit.wfd) (from : Z) : res (Z * buf) :=
  '(need, _) ← need_insts 0 (Z.to_nat (r_numinst result)) (sizeof_instance_t - 4) [];
  send_pdu fd need (
    set_hdr need PDU_INSTANCE from;;
    store32 12 (htonl (r_indom result));;
    store32 16 (htonl (r_numinst result));;
    fill_insts 0 (Z.to_nat (r_numinst result)) 0).
End send.

(** The decoding loop: instance identifiers and names. *)
Fixpoint dec_insts (len : Z) (n : nat) (j : Z) : M (list (Z * buf)) :=
  match n with
  | O => mret []
  | S n =>
      let ip := 20 + 4 * (j / 4) in
      check (u64 (len - ip) <? sizeof_instlist_t - 4) PM_ERR_IPC;;
      x ← load32 ip;
      ntohl_at (ip + 4);; y ← load32 (ip + 4);
      let namelen := s32 y in
      check (namelen <? 0) PM_ERR_IPC;;
      check (u64 (len - ip) <? u64 (sizeof_instlist_t - 4 + namelen)) PM_ERR_IPC;;
      name ← loadn (ip + 8) namelen;
      rest ← dec_insts len n (s32 (j + (sizeof_instlist_t - 4) + PM_PDU_SIZE_BYTES namelen));
      mret ((s32 (ntohl x), name) :: rest)
  end.

Definition is_in_null (inst : Z) : bool := u32 inst =? PM_IN_NULL.

(** The result built from what the loop found: with a single instance, a list
    that carries no information is dropped. *)
Definition keep_lists (indom numinst : Z) (l : list (Z * buf)) : __pmInResult :=
  let keep_instlist := negb (numinst =? 1) || existsb (λ p, negb (is_in_null p.1)) l in
  let keep_namelist := negb (numinst =? 1) || existsb (λ p, 0 <? zlen p.2) l in
  mkInResult indom numinst (if keep_instlist then Some l.*1 else None)
    (if keep_namelist then Some l.*2 else None).

Definition __pmDecodeInstance : M __pmInResult :=
  len ← hdr_len;
  check (u64 len <? sizeof_instance_t - 4) PM_ERR_IPC;;
  ind ← load32 12; ni ← load32 16;
  let numinst := s32 (ntohl ni) in
  check ((INT_MAX / 4 <=? u64 numinst) || (INT_MAX / 8 <=? u64 numinst) || (len <=? numinst))
    PM_ERR_IPC;;
  l ← dec_insts len (Z.to_nat numinst) 0;
  mret (keep_lists (ntohl ind) numinst l).
End Instance.

#[export] Hint Unfold Instance.sizeof_instance_req_t Instance.sizeof_instlist_t
  Instance.sizeof_instance_t : sizes.

(** ** Names, padded *)

Definition padded (s : buf) : buf :=
  s ++ replicate (Z.to_nat (PM_PDU_SIZE_BYTES (zlen s) - zlen s)) tilde.
Lemma length_padded s : length (padded s) = Z.to_nat (PM_PDU_SIZE_BYTES (zlen s)).
Proof. pose proof (pdu_size_bounds (zlen s)). unfold padded. lens. Qed.
Lemma pdu_size_mod x : PM_PDU_SIZE_BYTES x mod 4 = 0.
Proof. unfold PM_PDU_SIZE_BYTES. rewrite Z.mul_comm. apply Z_mod_mult. Qed.
#[export] Hint Rewrite length_padded : lens.

Lemma has_padded b o s : has b o (padded s) → has b o s.
Proof. unfold padded. rewrite has_app. tauto. Qed.

Lemma wp_tilde_pad E o s n (Q : unit → buf → Prop) b :
  has b o s → n = zlen s → o + PM_PDU_SIZE_BYTES n <= zlen b →
  (∀ b', length b' = length b → has b' o (padded s) →
     (∀ o' x, has b o' x → o' + zlen x <= o + n ∨ o + PM_PDU_SIZE_BYTES n <= o' → has b' o' x) →
     Q tt b') →
  wp (tilde_pad o n) E Q b.
Proof.
  intros Hs -> Hl HQ. unfold tilde_pad. pose proof (has_length _ _ _ Hs).
  assert (PM_PDU_SIZE_BYTES (zlen s) = zlen s ∧ zlen s mod 4 = 0 ∨
          PM_PDU_SIZE_BYTES (zlen s) = zlen s + (4 - zlen s mod 4) ∧ 0 < zlen s mod 4 < 4) as Hc.
  { unfold PM_PDU_SIZE_BYTES, PM_PDU_SIZE. Z.to_euclidean_division_equations. lia. }
  destruct Hc as [[E1 E2]|[E1 E2]].
  - rewrite E2. simpl. apply wp_ret, HQ; [done | | done]. unfold padded.
    by rewrite E1, Z.sub_diag, app_nil_r.
  - rewrite (proj2 (Z.eqb_neq _ _)) by lia.
    apply wp_storen_frame; [lia | lens |]. intros b' L N F. apply HQ; [done | |].
    + unfold padded. rewrite E1, has_app. split; [apply F; [done | lens] |].
      by replace (zlen s + (4 - zlen s mod 4) - zlen s) with (4 - zlen s mod 4) by lia.
    + intros o' x Hx Hd. apply F; [done |]. rewrite length_replicate. lia.
Qed.

Ltac wp_ext ::= lazymatch goal with
  | |- wp (store_words _ _) _ _ ?b =>
      apply wp_store_words; [hlens | hlens |];
      let b' := fresh "b" in let L := fresh "Hlen" in let N := fresh "Hhas" in
      let F := fresh "F" in intros b' L N F; frame_has b b' F
  | |- wp (tilde_pad _ _) _ _ ?b =>
      let b' := fresh "b" in let L := fresh "Hlen" in let N := fresh "Hhas" in
      let F := fresh "F" in
      eapply wp_tilde_pad; [has_tac | lens | hlens |]; intros b' L N F; frame_has b b' F
  | |- wp (htonl_at _) _ _ _ => unfold htonl_at
  | |- wp (ntohl_at _) _ _ _ => unfold ntohl_at
  end.

Section instance_req.
Context `{PduAlloc} (fd : Xmit.wfd).
Hypothesis alloc_ok : ∀ n, is_Some (find_pdubuf n).

Lemma instance_req_roundtrip from when indom inst name :
  delivers fd (32 + PM_PDU_SIZE_BYTES (zlen (default [] name))) →
  tv32_wf when → is_u32 indom → is_s32 inst → name ≠ Some [] →
  Forall (λ c, c ≠ Byte.x00) (default [] name) → zlen (default [] name) <= PDU_CHUNK - 32 →
  roundtrips (Instance.__pmSendInstanceReq fd from when indom inst name) PDU_INSTANCE_REQ from
    Instance.__pmDecodeInstanceReq (when, indom, inst, name).
Proof.
  intros Hd [Hs Hu] Hi Hin Hne Hnul Hlt. unfold PDU_CHUNK in *. set (s := default [] name) in *.
  pose proof (pdu_size_bounds (zlen s)). pose proof (pdu_size_mod (zlen s)).
  assert (PM_PDU_SIZE_BYTES (zlen s) <= 992).
  { unfold PM_PDU_SIZE_BYTES, PM_PDU_SIZE. Z.to_euclidean_division_equations. lia. }
  exists (be32 indom ++ be32 (tv_sec when) ++ be32 (tv_usec when) ++ be32 inst
          ++ be32 (zlen s) ++ padded s). split.
  - destruct (alloc_ok 4) as [b Hb]. pose proof (find_pdubuf_chunk _ _ Hb) as Hsz.
    unfold PDU_CHUNK in Hsz. eapply send_pdu_found; [done | unfold sizeof_hdr; lens | |].
    { match goal with |- delivers fd ?n => replace n with (32 + PM_PDU_SIZE_BYTES (zlen s)) end;
        [done | unfold sizeof_hdr; lens]. }
    sizes. replace (12 + zlen (be32 indom ++ _)) with (32 + PM_PDU_SIZE_BYTES (zlen s)) by lens.
    destruct name as [s'|]; simpl in s; subst s; rewrite ?(s32_id (zlen s')) by (split; lia);
      rewrite s32_id by (split; lia).
    + repeat wp1. autorewrite with word in *. has_join.
    + repeat wp1. change (le32 0) with (be32 0) in *. has_join. apply has_nil. hlens.
  - dec_start. unfold Instance.__pmDecodeInstanceReq. read_len. sizes.
    assert (0 < zlen s ∧ name = Some s ∨ zlen s = 0 ∧ name = None) as Hn.
    { subst s. destruct name as [[|]|]; simpl; [done | left; split; [lia | done] | by right]. }
    clearbody s.
    repeat wp1; rewrite ?s32_u32_id in * by (split; lia); try (exfalso; chk).
    + eapply wp_loadn_has; [apply has_padded; has_tac | done |]. wp1.
      destruct Hn as [[_ ->]|[? _]]; [| lia].
      rewrite !s32_u32_id, u32_id, strncpy_string by done. by destruct when.
    + destruct Hn as [[? _]|[_ ->]]; [exfalso; lia |].
      rewrite !s32_u32_id, u32_id by done. by destruct when.
Qed.
End instance_req.

(** ** The list of instances *)

Definition inst_bytes (p : Z * buf) : buf := be32 p.1 ++ be32 (zlen p.2) ++ padded p.2.
Definition insts_bytes (l : list (Z * buf)) : buf := concat (inst_bytes <$> l).
Lemma insts_bytes_cons p l :
  insts_bytes (p :: l) = be32 p.1 ++ be32 (zlen p.2) ++ padded p.2 ++ insts_bytes l.
Proof. unfold insts_bytes, inst_bytes. rewrite fmap_cons. cbn [concat]. by rewrite <- !app_assoc. Qed.

Lemma insts_bytes_ge l : 8 * zlen l <= zlen (insts_bytes l).
Proof.
  induction l as [|[x s] l IH]; [simpl; lia |]. pose proof (pdu_size_bounds (zlen s)).
  rewrite insts_bytes_cons. cbn [fst snd]. lens.
Qed.

(** The identifier and the name a result has at index [i], as they are sent. *)
Definition inst_at (r : Instance.__pmInResult) (i : nat) : option Z :=
  match Instance.r_instlist r with Some l => l !! i | None => Some (-1) end.
Definition name_at (r : Instance.__pmInResult) (i : nat) : option buf :=
  match Instance.r_namelist r with Some l => l !! i | None => Some [] end.
Fixpoint entries (r : Instance.__pmInResult) (i : nat) (l : list (Z * buf)) : Prop :=
  match l with
  | [] => True
  | p :: l => inst_at r i = Some p.1 ∧ name_at r i = Some p.2 ∧ entries r (S i) l
  end.

Lemma wp_index {A} E (l : list A) i x (Q : A → buf → Prop) b :
  l !! i = Some x → Q x b → wp (index l i) E Q b.
Proof. unfold wp, index. by intros ->. Qed.

Lemma need_insts_wp E r l : ∀ i need b (Q : Z → buf → Prop),
  entries r i l → 0 <= need → need + zlen (insts_bytes l) < 2^31 →
  Q (need + zlen (insts_bytes l)) b →
  wp (Instance.need_insts r i (length l) need) E Q b.
Proof.
  induction l as [|[x s] l IH]; intros i need b Q He H0 Hlt HQ; cbn [Instance.need_insts length].
  - apply wp_ret. simpl in HQ. by rewrite Z.add_0_r in HQ.
  - destruct He as (_ & Hn & He). simpl in Hn. rewrite insts_bytes_cons in Hlt, HQ. cbn [fst snd] in Hlt, HQ.
    pose proof (pdu_size_bounds (zlen s)).
    assert (zlen (be32 x ++ be32 (zlen s) ++ padded s ++ insts_bytes l)
      = 8 + PM_PDU_SIZE_BYTES (zlen s) + zlen (insts_bytes l)) as El by lens. rewrite El in *.
    apply wp_bind. sizes. unfold name_at in Hn.
    assert (wp (match Instance.r_namelist r with
         | Some l => s0 ← index l i; mret (PM_PDU_SIZE_BYTES (zlen s0)) | None => mret 0 end)
         E (λ v b', v = PM_PDU_SIZE_BYTES (zlen s) ∧ b' = b) b) as Hw.
    { destruct (Instance.r_namelist r); [eapply wp_bind, wp_index; [done |] |]; apply wp_ret; [done |].
      by simplify_eq. }
    eapply wp_mono; [| exact Hw]. intros ? ? [-> ->].
    rewrite s32_id by (split; lia). apply IH; [done | lia | lia |].
    by replace (need + (12 - 4) + PM_PDU_SIZE_BYTES (zlen s) + zlen (insts_bytes l))
      with (need + (8 + PM_PDU_SIZE_BYTES (zlen s) + zlen (insts_bytes l))) by lia.
Qed.

Lemma align4 j : j mod 4 = 0 → 4 * (j / 4) = j.
Proof. Z.to_euclidean_division_equations. lia. Qed.

(** [pre] is what the PDU holds before the instances that are still to come. *)
Lemma fill_insts_wp E r l : ∀ i j pre b (Q : unit → buf → Prop),
  entries r i l → zlen pre = 20 + j → 0 <= j → j mod 4 = 0 → has b 0 pre →
  20 + j + zlen (insts_bytes l) <= zlen b → 20 + j + zlen (insts_bytes l) < 2^31 →
  (∀ b', length b' = length b → has b' 0 (pre ++ insts_bytes l) → Q tt b') →
  wp (Instance.fill_insts r i (length l) j) E Q b.
Proof.
  induction l as [|[x s] l IH]; intros i j pre b Q He Hp Hj Hm Hb Hl Hlt HQ;
    cbn [Instance.fill_insts length].
  - apply wp_ret, HQ; [done |]. change (insts_bytes []) with (@nil byte). by rewrite app_nil_r.
  - destruct He as (Hi & Hn & He). cbn [fst snd] in Hi, Hn.
    rewrite insts_bytes_cons in Hl, Hlt, HQ. cbn [fst snd] in Hl, Hlt, HQ.
    pose proof (pdu_size_bounds (zlen s)). pose proof (pdu_size_mod (zlen s)).
    autorewrite with lens in Hl, Hlt. rewrite align4 by done. sizes. unfold inst_at, name_at in *.
    (* the rest of the list *)
    assert (∀ b', length b' = length b → has b' 0 pre → has b' (20 + j) (be32 x) →
      has b' (20 + j + 4) (be32 (zlen s)) → has b' (20 + j + 8) (padded s) →
      wp (Instance.fill_insts r (S i) (length l) (j + 8 + PM_PDU_SIZE_BYTES (zlen s))) E Q b') as Hrest.
    { intros b' L N1 N2 N3 N4. apply (IH _ _ (pre ++ be32 x ++ be32 (zlen s) ++ padded s));
        [done | lens | lia | | has_join | lens | lens |].
      - clear -Hm H0. Z.to_euclidean_division_equations. lia.
      - intros b3 L3 N5. apply HQ; [lia |]. by rewrite <- !app_assoc in N5. }
    apply wp_bind, (wp_mono _ _ (λ _ b', length b' = length b ∧ has b' 0 pre ∧ has b' (20 + j) (be32 x))).
    2: { destruct (Instance.r_instlist r); [eapply wp_bind, wp_index; [done |] | simplify_eq];
           wp1; split_and!; done. }
    intros [] b1 (L1 & N1 & N2). destruct (Instance.r_namelist r) as [names|].
    + eapply wp_bind, wp_index; [done |]. rewrite (s32_id (zlen s)) by (split; lia).
      repeat wp1. autorewrite with word in *. rewrite s32_id by (split; lia).
      apply Hrest; [lia | done ..].
    + simplify_eq. repeat wp1. rewrite s32_id by (split; lia). change (le32 0) with (be32 0) in *.
      replace (j + (12 - 4)) with (j + 8 + PM_PDU_SIZE_BYTES (zlen (@nil byte)))
        by (change (PM_PDU_SIZE_BYTES (zlen (@nil byte))) with 0; lia).
      apply Hrest; [lia | done .. |]. change (padded []) with (@nil byte). apply has_nil. lens.
Qed.

Lemma dec_insts_wp E l : ∀ j len b (Q : list (Z * buf) → buf → Prop),
  Forall (λ p, is_s32 p.1) l → 0 <= j → j mod 4 = 0 → has b (20 + j) (insts_bytes l) →
  len = 20 + j + zlen (insts_bytes l) → len < 2^31 →
  (∀ b', Q l b') → wp (Instance.dec_insts len (length l) j) E Q b.
Proof.
  induction l as [|[x s] l IH]; intros j len b Q Hwf Hj Hm Hb Hl Hlt HQ;
    cbn [Instance.dec_insts length]; [by apply wp_ret |].
  apply Forall_cons in Hwf as [Hx Hwf]. rewrite insts_bytes_cons in Hb, Hl. cbn [fst snd] in *.
  pose proof (pdu_size_bounds (zlen s)). pose proof (pdu_size_mod (zlen s)).
  has_split. autorewrite with lens in Hl. sizes. rewrite align4 by done.
  rewrite !(u64_id (len - _)) by lia.
  repeat wp1; try (exfalso; rewrite ?s32_u32_id in * by (split; lia); chk).
  rewrite !s32_u32, (s32_id (zlen s)), (s32_id (j + _ + _)), (s32_id x) by (done || split; lia).
  eapply wp_loadn_has; [apply has_padded; has_tac | done |].
  apply wp_bind, IH; [done | lia | | has_tac | lens | lia |].
  - clear -Hm H0. Z.to_euclidean_division_equations. lia.
  - intros b'. by wp1.
Qed.

(** What the other end makes of a result: missing identifiers are sent as
    [PM_IN_NULL] and missing names as empty ones. *)
Definition as_entries (r : Instance.__pmInResult) : list (Z * buf) :=
  let n := Z.to_nat (Instance.r_numinst r) in
  zip (default (replicate n (-1)) (Instance.r_instlist r))
      (default (replicate n []) (Instance.r_namelist r)).
Definition as_received (r : Instance.__pmInResult) : Instance.__pmInResult :=
  Instance.keep_lists (Instance.r_indom r) (Instance.r_numinst r) (as_entries r).

Definition inresult_wf (r : Instance.__pmInResult) : Prop :=
  is_u32 (Instance.r_indom r) ∧ 0 <= Instance.r_numinst r
  ∧ (∀ l, Instance.r_instlist r = Some l → zlen l = Instance.r_numinst r ∧ Forall is_s32 l)
  ∧ (∀ l, Instance.r_namelist r = Some l → zlen l = Instance.r_numinst r)
  ∧ 20 + zlen (insts_bytes (as_entries r)) < 2^31
  ∧ Instance.r_numinst r < INT_MAX / 8.

Lemma entries_zip r xs ss : ∀ i,
  length xs = length ss →
  (∀ k x, xs !! k = Some x → inst_at r (i + k) = Some x) →
  (∀ k s, ss !! k = Some s → name_at r (i + k) = Some s) →
  entries r i (zip xs ss).
Proof.
  revert ss. induction xs as [|x xs IH]; intros [|s ss] i Hl Hx Hs; try done. simpl in Hl.
  cbn [zip zip_with entries fst snd]. split_and!.
  - rewrite <- (Hx 0%nat x) by done. f_equal. lia.
  - rewrite <- (Hs 0%nat s) by done. f_equal. lia.
  - apply IH; [lia | |].
    + intros k y Hk. rewrite <- (Hx (S k) y Hk). f_equal. lia.
    + intros k y Hk. rewrite <- (Hs (S k) y Hk). f_equal. lia.
Qed.

Lemma as_entries_ok r :
  inresult_wf r →
  zlen (as_entries r) = Instance.r_numinst r ∧ entries r 0 (as_entries r)
  ∧ Forall (λ p, is_s32 p.1) (as_entries r).
Proof.
  intros (_ & Hn & Hi & Hs & _). unfold as_entries.
  set (xs := default _ (Instance.r_instlist r)). set (ss := default _ (Instance.r_namelist r)).
  assert (zlen xs = Instance.r_numinst r ∧ Forall is_s32 xs
    ∧ ∀ k x, xs !! k = Some x → inst_at r k = Some x) as (Lx & Wx & Ex).
  { unfold xs, inst_at. destruct (Instance.r_instlist r) as [l|]; simpl.
    - by destruct (Hi l eq_refl).
    - split_and!; [lens | by apply Forall_replicate |].
      by intros k x [-> _]%lookup_replicate. }
  assert (zlen ss = Instance.r_numinst r ∧ ∀ k s, ss !! k = Some s → name_at r k = Some s) as (Ls & Es).
  { unfold ss, name_at. destruct (Instance.r_namelist r) as [l|]; simpl; [by split; [apply Hs |] |].
    split; [lens |]. by intros k x [-> _]%lookup_replicate. }
  split_and!.
  - rewrite length_zip. lia.
  - apply entries_zip; [lia | done | done].
  - rewrite <- (fst_zip xs ss), Forall_fmap in Wx by lia. exact Wx.
Qed.

Section instance.
Context `{PduAlloc} (fd : Xmit.wfd).
Hypothesis alloc_ok : ∀ n, is_Some (find_pdubuf n).

Lemma instance_roundtrip from r :
  delivers fd (20 + zlen (insts_bytes (as_entries r))) → inresult_wf r →
  roundtrips (Instance.__pmSendInstance r fd from) PDU_INSTANCE from
    Instance.__pmDecodeInstance (as_received r).
Proof.
  intros Hd Hwf. destruct (as_entries_ok r Hwf) as (Hl & He & Hf).
  destruct Hwf as (Hind & Hn & _ & _ & Hlt & Hmax).
  assert (Instance.r_numinst r < 2^31) by (unfold INT_MAX in Hmax; Z.to_euclidean_division_equations; lia).
  unfold as_received. set (l := as_entries r) in *. clearbody l.
  replace (Z.to_nat (Instance.r_numinst r)) with (length l) in * by lia.
  exists (be32 (Instance.r_indom r) ++ be32 (Instance.r_numinst r) ++ insts_bytes l). split.
  - unfold Instance.__pmSendInstance. sizes.
    replace (Z.to_nat (Instance.r_numinst r)) with (length l) in * by lia.
    destruct (wp_noerr_run (Instance.need_insts r 0 (length l) (24 - 4))
      (λ v _, v = 20 + zlen (insts_bytes l)) []) as (? & ? & -> & ->).
    { apply need_insts_wp; [done | lia | lia | done]. }
    cbn [mbind res_bind].
    match goal with |- send_pdu _ ?n _ = Ok (?m, _) => replace m with n by lens end.
    send_start. repeat wp1.
    eapply (fill_insts_wp _ r l _ 0 (le32 (20 + zlen (insts_bytes l)) ++ le32 PDU_INSTANCE ++ le32 from
      ++ be32 (Instance.r_indom r) ++ be32 (Instance.r_numinst r))); [done | lens | lia | done | | lia | lia |].
    { has_join. }
    intros b' _ Hb'. by rewrite <- !app_assoc in Hb'.
  - dec_start. unfold Instance.__pmDecodeInstance. read_len. sizes.
    repeat wp1; rewrite ?s32_u32_id in * by (split; lia).
    + exfalso. chk.
    + exfalso. pose proof (insts_bytes_ge l). chk.
    + replace (Z.to_nat (Instance.r_numinst r)) with (length l) in * by lia.
      apply dec_insts_wp; [done | lia | done | has_tac | lens | lia |].
      intros b'. wp1. by rewrite u32_id.
Qed.
End instance.

(** ** Safety *)

Lemma instance_req_safe b len : received b len → Instance.__pmDecodeInstanceReq b ≠ Fault.
Proof. unfold Instance.__pmDecodeInstanceReq. dec_safe. Qed.

(** Every entry but the last ends on a word boundary, so a length that is a
    multiple of four is never overtaken. *)
Lemma dec_insts_safe len n : ∀ j b,
  0 <= j → j mod 4 = 0 → len mod 4 = 0 → 20 + j <= len < 2^31 → len <= zlen b →
  wp (Instance.dec_insts len n j) anyerr (λ _ _, True) b.
Proof.
  induction n as [|n IH]; intros j b Hj Hm Hml Hlt Hb; cbn [Instance.dec_insts]; [done |].
  sizes. rewrite align4, !(u64_id (len - _)) by (done || lia).
  repeat (wp1; triv).
  match goal with H : (s32 ?v <? 0) = false |- _ => set (nl := s32 v) in *;
    assert (0 <= nl < 2^31) by (pose proof (s32_range v); unfold is_s32, nl in *; lia) end.
  rewrite u64_id in * by lia. pose proof (pdu_size_bounds nl). pose proof (pdu_size_mod nl) as Hpm.
  assert (20 + j + 8 + PM_PDU_SIZE_BYTES nl <= len).
  { pose proof (Z.div_mod len 4). pose proof (Z.div_mod j 4).
    pose proof (Z.div_mod (PM_PDU_SIZE_BYTES nl) 4). lia. }
  rewrite (s32_id (j + _ + _)) by (split; lia). wp1. wp1.
  eapply wp_mono; [| apply IH; [lia | | done | lia | lia]]; [by intros; wp1 |].
  clear -Hm Hpm. Z.to_euclidean_division_equations. lia.
Qed.

Lemma instance_safe b len :
  received b len → len mod 4 = 0 → Instance.__pmDecodeInstance b ≠ Fault.
Proof.
  intros Hr Hm. revert Hr. unfold Instance.__pmDecodeInstance. dec_safe.
  eapply wp_mono; [| apply dec_insts_safe; [lia | done | done | lia | lia]]. by intros; wp1.
Qed.

(** Running into a fault. *)
Lemma bind_fault {A B} (m : M A) (f : A → M B) b :
  wp m noerr (λ a b', f a b' = Fault) b → (m ≫= f) b = Fault.
Proof. intros (? & ? & E & ?)%wp_noerr_run. unfold mbind, M_bind. by rewrite E. Qed.
Lemma bind_fault_l {A B} (m : M A) (f : A → M B) b : m b = Fault → (m ≫= f) b = Fault.
Proof. intros E. unfold mbind, M_bind. by rewrite E. Qed.
Lemma storen_fault o bs b : zlen b < o + zlen bs → storen o bs b = Fault.
Proof. intros. unfold storen. by rewrite (proj2 (Z.leb_gt (o + _) _)), andb_false_r. Qed.

(** A name that does not fit a buffer of one chunk is copied past its end. *)
Lemma instance_req_overflow `{PduAlloc} fd from when indom inst name b :
  find_pdubuf 4 = Some b → zlen b = PDU_CHUNK → PDU_CHUNK - 32 < zlen name →
  Instance.__pmSendInstanceReq fd from when indom inst (Some name) = Fault.
Proof.
  intros Hb Hsz Hn. unfold Instance.__pmSendInstanceReq, send_pdu, fill_pdu, PDU_CHUNK in *. rewrite Hb.
  match goal with |- context [snd <$> ?m b] => assert (m b = Fault) as -> end; [| done].
  repeat (apply bind_fault; wp1; repeat wp1). apply bind_fault_l, storen_fault. lia.
Qed.

(** An instance PDU of 29 bytes whose only complete entry has a name of one byte:
    the second entry starts three bytes after the end of the PDU, the space left
    is taken for a huge unsigned number, and the copy of its name leaves the
    buffer. *)
Definition overread_pdu : buf :=
  le32 29 ++ le32 PDU_INSTANCE ++ le32 0 ++ be32 0 ++ be32 2
  ++ be32 0 ++ be32 1 ++ [Byte.x61; tilde; tilde; tilde]
  ++ be32 0 ++ be32 2000 ++ replicate 984 Byte.x00.
Lemma instance_overread : received overread_pdu 29 ∧ Instance.__pmDecodeInstance overread_pdu = Fault.
Proof. split; [split_and!; by vm_compute | by vm_compute]. Qed.
