(* ===== verification/PduPmns.v ===== *)
(** PduPmns: the name space PDUs, lists of metric identifiers, lists of names
    and name requests (src/src/libpcp/src/p_pmns.c). *)
From S2P Require Import Prelude Memory Types PduIO Endian PduSimple PduInstance.

(** ** Lists of metric identifiers *)

Module IDList.
Definition sizeof_idlist_t : Z := 24.

Definition __pmSendIDList `{PduAlloc} (fd : Xmit.wfd) (from : Z) (idlist : list Z) (sts : Z)
    : res (Z * buf) :=
  let numids := zlen idlist in
  let need := s32 (sizeof_idlist_t + (numids - 1) * 4) in
  send_pdu fd need (
    set_hdr need PDU_PMNS_IDS from;;
    store32 12 (htonl sts);;
    store32 16 (htonl numids);;
    store_words 20 idlist).

(** The status carried, and the identifiers. *)
Definition __pmDecodeIDList (numids : Z) : M (Z * list Z) :=
  len ← hdr_len;
  check (u64 len <? sizeof_idlist_t - 4) PM_ERR_IPC;;
  s ← load32 12; w ← load32 16;
  let nids := s32 (ntohl w) in
  check ((nids <=? 0) || negb (nids =? numids) || (len <? nids)) PM_ERR_IPC;;
  check ((INT_MAX - sizeof_idlist_t) / 4 <=? u64 nids) PM_ERR_IPC;;
  check (u64 len <? u64 (sizeof_idlist_t + 4 * (nids - 1))) PM_ERR_IPC;;
  ids ← load_words 20 (Z.to_nat numids);
  mret (s32 (ntohl s), ids).
End IDList.

(** ** Lists of names, with or without a status for each *)

Module NameList.
Definition sizeof_name_t : Z := 8.
Definition sizeof_name_status_t : Z := 12.
Definition sizeof_namelist_t : Z := 28.

Section send.
Context (namelist : list buf) (statuslist : option (list Z)).

(** Bytes before [namelen] in an entry: those of the status, if there is one. *)
Definition status_size : Z := match statuslist with Some _ => 4 | None => 0 end.

Fixpoint need_names (l : list buf) (need nstrbytes : Z) : Z * Z :=
  match l with
  | [] => (need, nstrbytes)
  | s :: l =>
      let len := s32 (zlen s) in
      let nstrbytes := s32 (nstrbytes + (len + 1)) in
      let need := s32 (need + PM_PDU_SIZE_BYTES len) in
      need_names l (s32 (need + match statuslist with
                                | None => sizeof_name_t - 4
                                | Some _ => sizeof_name_status_t - 4
                                end)) nstrbytes
  end.

Fixpoint fill_names (l : list buf) (i : nat) (j : Z) : M unit :=
  match l with
  | [] => mret tt
  | s :: l =>
      let nt := 24 + 4 * (j / 4) in
      match statuslist with
      | Some st => x ← index st i; store32 nt (htonl x)
      | None => mret tt
      end;;
      let namelen := s32 (zlen s) in
      storen (nt + status_size + 4) s;;
      tilde_pad (nt + status_size + 4) namelen;;
      store32 (nt + status_size) (htonl namelen);;
      fill_names l (S i) (s32 (j + status_size + 4 + PM_PDU_SIZE_BYTES namelen))
  end.

Definition __pmSendNameList `{PduAlloc} (fd : Xmit.wfd) (from : Z) : res (Z * buf) :=
  let numnames := zlen namelist in
  let '(need, nstrbytes) := need_names namelist (sizeof_namelist_t - 4) 0 in
  send_pdu fd need (
    set_hdr need PDU_PMNS_NAMES from;;
    store32 12 (htonl nstrbytes);;
    store32 20 (htonl numnames);;
    match statuslist with
    | None => store32 16 (htonl 0)
    | Some _ => store32 16 (htonl numnames)
    end;;
    fill_names namelist 0 0).
End send.

(** One entry of the list at [np]: [hs] is the number of bytes before [namelen],
    [room] what is left of the space for the null-terminated names, and
    [want_status] whether the caller keeps the status. *)
Fixpoint dec_names (hs : Z) (want_status : bool) (len : Z) (n : nat) (j room : Z)
    : M (list (Z * buf)) :=
  match n with
  | O => mret []
  | S n =>
      let np := 24 + 4 * (j / 4) in
      check (u64 (len - np) <? hs + sizeof_name_t) PM_ERR_IPC;;
      w ← load32 (np + hs);
      let namelen := s32 (ntohl w) in
      check (u64 (len - np) <? u64 (4 + hs + namelen)) PM_ERR_IPC;;
      check ((namelen <? 0) || (room <? s32 (namelen + 1))) PM_ERR_IPC;;
      st ← (if want_status then x ← load32 np; mret (s32 (ntohl x)) else mret 0);
      name ← loadn (np + hs + 4) namelen;
      rest ← dec_names hs want_status len n (s32 (j + hs + 4 + PM_PDU_SIZE_BYTES namelen))
               (room - (namelen + 1));
      mret ((st, name) :: rest)
  end.

(** [want]: the caller passed a place for the statuses. *)
Definition __pmDecodeNameList (want : bool) : M (list buf * option (list Z)) :=
  len ← hdr_len;
  check (u64 len <? sizeof_namelist_t - 4) PM_ERR_IPC;;
  nn ← load32 20; ns ← load32 16; nb ← load32 12;
  let numnames := s32 (ntohl nn) in
  let numstatus := s32 (ntohl ns) in
  let nstrbytes := s32 (ntohl nb) in
  if numnames =? 0 then mret ([], None)
  else
    check ((numnames <? 0) || (nstrbytes <? 0)) PM_ERR_IPC;;
    check ((len <? numnames) || (len <? nstrbytes)) PM_ERR_IPC;;
    check (negb (numstatus =? 0) && negb (numstatus =? numnames)) PM_ERR_IPC;;
    check ((INT_MAX - nstrbytes) / 8 <=? numnames) PM_ERR_IPC;;
    let status := want && (0 <? numstatus) in
    check (status && (INT_MAX / 4 <=? numstatus)) PM_ERR_IPC;;
    l ← (if numstatus =? 0 then dec_names 0 false len (Z.to_nat numnames) 0 nstrbytes
         else dec_names 4 status len (Z.to_nat numnames) 0 nstrbytes);
    mret (l.*2, if status then Some l.*1 else None).
End NameList.

(** ** Name requests *)

Module NameReq.
Definition sizeof_namereq_t : Z := 24.

Section send.
Context `{PduAlloc} (fd : Xmit.wfd).
Definition SendNameReq (from : Z) (name : buf) (pdu_type subtype : Z) : res (Z * buf) :=
  let namelen := s32 (zlen name) in
  let alloc_len := s32 (4 * (u64 (namelen - 1 + 4) / 4)) in
  let need := s32 (sizeof_namereq_t - 4 + alloc_len) in
  send_pdu fd need (
    set_hdr need pdu_type from;;
    store32 12 (htonl subtype);;
    store32 16 (htonl namelen);;
    storen 20 name).
Definition __pmSendChildReq (from : Z) (name : buf) (subtype : Z) : res (Z * buf) :=
  SendNameReq from name PDU_PMNS_CHILD subtype.
Definition __pmSendTraversePMNSReq (from : Z) (name : buf) : res (Z * buf) :=
  SendNameReq from name PDU_PMNS_TRAVERSE 0.
End send.

Definition DecodeNameReq : M (buf * Z) :=
  len ← hdr_len;
  check (u64 len <? sizeof_namereq_t - 4) PM_ERR_IPC;;
  st ← load32 12; w ← load32 16;
  let namelen := s32 (ntohl w) in
  check ((namelen <? 0) || (len <? namelen)) PM_ERR_IPC;;
  check (u64 len <? u64 (sizeof_namereq_t - 4 + namelen)) PM_ERR_IPC;;
  name ← loadn 20 namelen;
  mret (name, s32 (ntohl st)).
Definition __pmDecodeChildReq : M (buf * Z) := DecodeNameReq.
Definition __pmDecodeTraversePMNSReq : M buf := r ← DecodeNameReq; mret r.1.
End NameReq.

#[export] Hint Unfold IDList.sizeof_idlist_t NameList.sizeof_name_t
  NameList.sizeof_name_status_t NameList.sizeof_namelist_t NameReq.sizeof_namereq_t : sizes.

Section roundtrip.
Context `{PduAlloc} (fd : Xmit.wfd).
Hypothesis alloc_ok : ∀ n, is_Some (find_pdubuf n).

Lemma idlist_roundtrip from ids sts :
  delivers fd (20 + 4 * zlen ids) → is_s32 sts → Forall is_u32 ids → ids ≠ [] →
  28 + 4 * zlen ids <= INT_MAX →
  roundtrips (IDList.__pmSendIDList fd from ids sts) PDU_PMNS_IDS from
    (IDList.__pmDecodeIDList (zlen ids)) (sts, ids).
Proof.
  intros Hd Hs Hids Hne Hlt. sizes.
  assert (0 < zlen ids) by (destruct ids; [done | simpl; lia]).
  exists (be32 sts ++ be32 (zlen ids) ++ be_words ids). split.
  - unfold IDList.__pmSendIDList. sizes. rewrite s32_id by (split; lia).
    replace (24 + (zlen ids - 1) * 4) with (20 + 4 * zlen ids) by lia.
    match goal with |- send_pdu _ ?n _ = Ok (?m, _) => replace m with n by lens end.
    send_start. repeat wp1. has_join.
  - dec_start. unfold IDList.__pmDecodeIDList. read_len. sizes.
    repeat wp1; rewrite ?s32_u32_id in * by (split; lia); [chk .. |].
    rewrite Nat2Z.id. apply wp_load_words_has; [has_tac |].
    wp1. by rewrite map_u32_id, s32_u32_id.
Qed.

Lemma name_alloc_len n : 0 <= n < 2^31 → 4 * (u64 (n - 1 + 4) / 4) = PM_PDU_SIZE_BYTES n.
Proof.
  intros. unfold PM_PDU_SIZE_BYTES, PM_PDU_SIZE. rewrite u64_id by lia. do 2 f_equal. lia.
Qed.

Lemma name_req_roundtrip from name ty subtype :
  delivers fd (20 + PM_PDU_SIZE_BYTES (zlen name)) → is_s32 subtype → zlen name < 2^31 - 24 →
  roundtrips (NameReq.SendNameReq fd from name ty subtype) ty from
    NameReq.DecodeNameReq (name, subtype).
Proof.
  intros Hd Hs Hlt. pose proof (pdu_size_bounds (zlen name)).
  destruct (send_pdu_ok_ex fd (20 + PM_PDU_SIZE_BYTES (zlen name))
    (set_hdr (20 + PM_PDU_SIZE_BYTES (zlen name)) ty from;;
     store32 12 (htonl subtype);; store32 16 (htonl (zlen name));; storen 20 name) ty from
    (λ body, ∃ pad, body = be32 subtype ++ be32 (zlen name) ++ name ++ pad))
    as (? & (pad & ->) & E); [done | lia | done | |].
  - intros b Hb. repeat wp1.
    match goal with Hh : has ?b' 20 name |- _ =>
      destruct (has_pad b' (20 + zlen name) (PM_PDU_SIZE_BYTES (zlen name) - zlen name))
        as (pad & Hp & Hl); [lia .. |] end.
    eexists. split; [by exists pad |]. split; [unfold sizeof_hdr; lens | has_join].
  - eexists. split.
    + rewrite <- E. unfold NameReq.SendNameReq. sizes.
      rewrite (s32_id (zlen name)), name_alloc_len by (split || idtac; lia).
      rewrite (s32_id (PM_PDU_SIZE_BYTES _)), s32_id by (split; lia). done.
    + dec_start. unfold NameReq.DecodeNameReq. read_len. sizes.
      repeat wp1; rewrite ?s32_u32_id in * by (split; lia); [chk .. |].
      eapply wp_loadn_has; [has_tac | done |]. wp1. by rewrite s32_u32_id.
Qed.
End roundtrip.

(** ** The list of names *)

(** An entry as it is sent, its status included or not. *)
Definition name_bytes (hs : bool) (p : Z * buf) : buf :=
  (if hs then be32 p.1 else []) ++ be32 (zlen p.2) ++ padded p.2.
Definition names_bytes (hs : bool) (l : list (Z * buf)) : buf := concat (name_bytes hs <$> l).
Definition strbytes (l : list (Z * buf)) : Z := foldr (λ p n, zlen p.2 + 1 + n) 0 l.
Definition has_status (sl : option (list Z)) : bool := match sl with Some _ => true | None => false end.
Definition hs_size (hs : bool) : Z := if hs then 4 else 0.
(** [sl], from index [i] on, holds the statuses of [l]. *)
Fixpoint statuses (sl : option (list Z)) (i : nat) (l : list (Z * buf)) : Prop :=
  match l with
  | [] => True
  | p :: l => match sl with Some st => st !! i = Some p.1 | None => p.1 = 0 end
              ∧ statuses sl (S i) l
  end.

Lemma names_bytes_cons hs p l :
  names_bytes hs (p :: l) = name_bytes hs p ++ names_bytes hs l.
Proof. done. Qed.
Lemma length_name_bytes hs p :
  zlen (name_bytes hs p) = hs_size hs + 4 + PM_PDU_SIZE_BYTES (zlen p.2).
Proof.
  pose proof (pdu_size_bounds (zlen p.2)). unfold name_bytes, hs_size. destruct hs; lens.
Qed.
Lemma strbytes_le hs l : zlen l <= strbytes l <= zlen (names_bytes hs l).
Proof.
  induction l as [|[x s] l IH]; [simpl; lia |]. rewrite names_bytes_cons, length_app.
  rewrite Nat2Z.inj_add, length_name_bytes. simpl in *.
  pose proof (pdu_size_bounds (zlen s)). destruct hs; simpl; lia.
Qed.
Lemma status_size_eq sl : NameList.status_size sl = hs_size (has_status sl).
Proof. by destruct sl. Qed.

Lemma need_names_eq sl l : ∀ need nb,
  0 <= need → 0 <= nb → need + zlen (names_bytes (has_status sl) l) < 2^31 → nb + strbytes l < 2^31 →
  NameList.need_names sl l.*2 need nb
  = (need + zlen (names_bytes (has_status sl) l), nb + strbytes l).
Proof.
  induction l as [|[x s] l IH]; intros need nb H0 H1 Hn Hs; cbn [NameList.need_names fmap list_fmap].
  - simpl. by rewrite !Z.add_0_r.
  - rewrite names_bytes_cons, length_app, Nat2Z.inj_add, length_name_bytes in *. cbn [snd strbytes foldr] in *.
    fold (strbytes l) in *. pose proof (pdu_size_bounds (zlen s)).
    pose proof (strbytes_le (has_status sl) l). sizes.
    assert (0 <= hs_size (has_status sl) <= 4) by (destruct sl; simpl; lia).
    rewrite (s32_id (zlen s)), (s32_id (nb + _)), (s32_id (need + PM_PDU_SIZE_BYTES _)) by (split; lia).
    rewrite s32_id by (destruct sl; simpl in *; split; lia).
    rewrite IH; [| destruct sl; simpl in *; lia ..].
    destruct sl; simpl; f_equal; lia.
Qed.

Lemma fill_names_wp E sl l : ∀ i j pre b (Q : unit → buf → Prop),
  statuses sl i l → zlen pre = 24 + j → 0 <= j → j mod 4 = 0 → has b 0 pre →
  24 + j + zlen (names_bytes (has_status sl) l) <= zlen b →
  24 + j + zlen (names_bytes (has_status sl) l) < 2^31 →
  (∀ b', length b' = length b → has b' 0 (pre ++ names_bytes (has_status sl) l) → Q tt b') →
  wp (NameList.fill_names sl l.*2 i j) E Q b.
Proof.
  induction l as [|[x s] l IH]; intros i j pre b Q Hst Hp Hj Hm Hb Hl Hlt HQ;
    cbn [NameList.fill_names fmap list_fmap].
  - apply wp_ret, HQ; [done |]. change (names_bytes _ []) with (@nil byte). by rewrite app_nil_r.
  - destruct Hst as [Hx Hst].
    rewrite names_bytes_cons, length_app, Nat2Z.inj_add, length_name_bytes in *. cbn [fst snd] in *.
    pose proof (pdu_size_bounds (zlen s)). pose proof (pdu_size_mod (zlen s)) as Hpm.
    rewrite align4, status_size_eq by done. rewrite (s32_id (zlen s)) by (destruct sl; split; simpl in *; lia).
    apply wp_bind, (wp_mono _ _ (λ _ b', length b' = length b ∧
      has b' 0 (pre ++ (if has_status sl then be32 x else [])))).
    2: { destruct sl as [st|]; simpl in *; [eapply wp_bind, wp_index; [done |] |]; wp1;
           [| by rewrite app_nil_r]. split; [done | has_join]. }
    intros [] b1 (L1 & N1). set (pre1 := pre ++ (if has_status sl then be32 x else [])) in *.
    assert (zlen pre1 = 24 + j + hs_size (has_status sl)) by (unfold pre1; destruct sl; simpl; lens).
    assert (0 <= hs_size (has_status sl) <= 4) by (destruct sl; simpl; lia).
    assert (hs_size (has_status sl) mod 4 = 0) by (by destruct sl).
    repeat wp1. rewrite s32_id by (split; lia).
    apply (IH _ _ (pre1 ++ be32 (zlen s) ++ padded s));
      [done | lens | lia | | has_join | lens | lia |].
    + clear -Hm Hpm H2. Z.to_euclidean_division_equations. lia.
    + intros b5 L5 N5. apply HQ; [lia |]. unfold name_bytes. unfold pre1 in N5.
      by rewrite <- !app_assoc in *.
Qed.

(** A list that [__pmDecodeNameList] accepts does not end in an empty name. *)
Definition ends_named (l : list (Z * buf)) : Prop := ∀ p : Z * buf, last l = Some p → p.2 ≠ [].

Lemma ends_named_size hs (p : Z * buf) l :
  ends_named (p :: l) → 4 <= PM_PDU_SIZE_BYTES (zlen p.2) + zlen (names_bytes hs l).
Proof.
  destruct p as [x s]. intros Hn. cbn [snd].
  destruct l as [|q l]; [| rewrite names_bytes_cons, length_app, Nat2Z.inj_add, length_name_bytes].
  - specialize (Hn (x, s) eq_refl). cbn [snd] in Hn.
    assert (0 < zlen s) by (destruct s; simpl; [done | lia]).
    unfold PM_PDU_SIZE_BYTES, PM_PDU_SIZE. simpl. Z.to_euclidean_division_equations. lia.
  - pose proof (pdu_size_bounds (zlen q.2)). pose proof (pdu_size_bounds (zlen s)).
    destruct hs; simpl; lia.
Qed.

Lemma dec_names_wp E (hs want : bool) l : ∀ j len room b (Q : list (Z * buf) → buf → Prop),
  (if hs then Forall (λ p, is_s32 p.1) l else want = false) →
  (want = false → Forall (λ p, p.1 = 0) l) → ends_named l →
  0 <= j → j mod 4 = 0 → has b (24 + j) (names_bytes hs l) →
  len = 24 + j + zlen (names_bytes hs l) → len < 2^31 → strbytes l <= room < 2^31 →
  Q l b → wp (NameList.dec_names (hs_size hs) want len (length l) j room) E Q b.
Proof.
  induction l as [|[x s] l IH]; intros j len room b Q Hwf Hw Hend Hj Hm Hb Hl Hlt Hroom HQ;
    cbn [NameList.dec_names length]; [by apply wp_ret |].
  pose proof (ends_named_size hs _ _ Hend) as H4.
  rewrite names_bytes_cons, ?length_app, ?Nat2Z.inj_add, ?length_name_bytes in *. cbn [fst snd strbytes foldr] in *.
  fold (strbytes l) in *. unfold name_bytes in Hb. cbn [fst snd] in Hb.
  pose proof (pdu_size_bounds (zlen s)). pose proof (pdu_size_mod (zlen s)) as Hpm.
  pose proof (strbytes_le hs l).
  assert (hs_size hs = if hs then 4 else 0) as Ehs by done.
  assert (hs_size hs mod 4 = 0) as Hhs by (by destruct hs).
  sizes. rewrite align4, !(u64_id (len - _)) by (done || destruct hs; lia).
  assert (has b (24 + j + hs_size hs) (be32 (zlen s)) ∧ has b (24 + j + hs_size hs + 4) (padded s)
    ∧ has b (24 + j + hs_size hs + 4 + PM_PDU_SIZE_BYTES (zlen s)) (names_bytes hs l)
    ∧ (hs = true → has b (24 + j) (be32 x))) as (N1 & N2 & N3 & N4).
  { destruct hs; has_split; simpl in *; split_and!; try done; intros; has_tac. }
  wp1. wp1; [exfalso; destruct hs; chk |]. wp1. wp1. wp1. rewrite s32_u32_id by (split; lia).
  wp1; [exfalso; destruct hs; chk |]. wp1. wp1; [exfalso; chk |].
  apply wp_bind, (wp_mono _ _ (λ a b', a = x ∧ b' = b)).
  2: { destruct want; [destruct hs; [| done]; apply Forall_cons in Hwf as [? _]; specialize (N4 eq_refl) |].
       - repeat wp1. by rewrite s32_u32_id.
       - wp1. specialize (Hw eq_refl). by apply Forall_cons in Hw as [Hx _]. }
  intros ? ? [-> ->]. wp1. eapply wp_loadn_has; [apply has_padded; has_tac | done |].
  rewrite s32_id by (destruct hs; split; lia).
  apply wp_bind, IH; [| | | destruct hs; lia | | has_tac | lia | lia | lia | by wp1].
  - destruct hs; [by apply Forall_cons in Hwf as [_ ?] | done].
  - intros Hf. specialize (Hw Hf). by apply Forall_cons in Hw as [_ ?].
  - intros p Hp. apply Hend. destruct l; [done | exact Hp].
  - clear -Hm Hpm Hhs. Z.to_euclidean_division_equations. lia.
Qed.

Section namelist.
Context `{PduAlloc} (fd : Xmit.wfd).
Hypothesis alloc_ok : ∀ n, is_Some (find_pdubuf n).

(** Names with their statuses, all zero when there are none. *)
Definition with_status (names : list buf) (sl : option (list Z)) : list (Z * buf) :=
  zip (default (replicate (length names) 0) sl) names.

Lemma statuses_zip sl sts names : ∀ i,
  length sts = length names →
  (∀ k x, sts !! k = Some x → match sl with Some st => st !! (i + k)%nat = Some x | None => x = 0 end) →
  statuses sl i (zip sts names).
Proof.
  revert names. induction sts as [|x sts IH]; intros [|s names] i Hl Hx; try done. simpl in Hl.
  cbn [zip zip_with statuses fst]. split.
  - specialize (Hx 0%nat x eq_refl). by rewrite Nat.add_0_r in Hx.
  - apply IH; [lia |]. intros k y Hk. specialize (Hx (S k) y Hk).
    by rewrite Nat.add_succ_comm.
Qed.

(** [want]: as for the decoder; who does not want statuses is sent none. *)
Lemma name_list_roundtrip_want want from names sl :
  let l := with_status names sl in
  delivers fd (24 + zlen (names_bytes (has_status sl) l)) →
  24 + zlen (names_bytes (has_status sl) l) < 2^31 →
  8 * zlen names + strbytes l + 8 <= INT_MAX → names ≠ [] → ends_named l →
  (∀ st, sl = Some st → length st = length names ∧ Forall is_s32 st) → (want = false → sl = None) →
  roundtrips (NameList.__pmSendNameList names sl fd from) PDU_PMNS_NAMES from
    (NameList.__pmDecodeNameList want) (names, sl).
Proof.
  intros l Hd Hlt Hmax Hne Hend Hsl Hwant. subst l.
  set (sts := default (replicate (length names) 0) sl).
  assert (length sts = length names ∧ Forall is_s32 sts) as [Hls Hfs].
  { unfold sts. destruct sl as [st|]; simpl; [by apply Hsl |]. split; [lens | by apply Forall_replicate]. }
  assert (statuses sl 0 (with_status names sl)) as Hst.
  { apply statuses_zip; [done |]. intros k x. destruct sl; simpl; [done |].
    by intros [-> _]%lookup_replicate. }
  assert ((with_status names sl).*2 = names) as E2 by (apply snd_zip; fold sts; lia).
  assert ((with_status names sl).*1 = sts) as E1 by (apply fst_zip; fold sts; lia).
  assert (length (with_status names sl) = length names) as El by (by rewrite <- E2 at 2; rewrite length_fmap).
  set (l := with_status names sl) in *. clearbody l.
  pose proof (strbytes_le (has_status sl) l).
  assert (0 < zlen names) by (destruct names; simpl; [done | lia]).
  exists (be32 (strbytes l) ++ be32 (if has_status sl then zlen names else 0) ++ be32 (zlen names)
          ++ names_bytes (has_status sl) l). split.
  - unfold NameList.__pmSendNameList. sizes.
    pose proof (need_names_eq sl l 24 0) as En. rewrite E2 in En.
    change (28 - 4) with 24. rewrite En by lia. rewrite Z.add_0_l.
    match goal with |- send_pdu _ ?n _ = Ok (?m, _) => replace m with n by lens end.
    send_start. set (need := 24 + _) in *.
    pose proof (fill_names_wp noerr sl l 0 0 (le32 need ++ le32 PDU_PMNS_NAMES ++ le32 from
      ++ be32 (strbytes l) ++ be32 (if has_status sl then zlen names else 0) ++ be32 (zlen names))) as Hf.
    rewrite E2 in Hf.
    destruct sl; repeat wp1; (apply Hf; [done | lens | lia | done | simpl; has_join | lia | lia |];
      intros b6 _ N6; by rewrite <- !app_assoc in N6).
  - dec_start. unfold NameList.__pmDecodeNameList. read_len. sizes.
    assert ((if has_status sl then zlen names else 0) = 0 ∧ sl = None ∧ Forall (λ x, x = 0) sts ∨
      (if has_status sl then zlen names else 0) = zlen names ∧ sl = Some sts) as Hn
      by (unfold sts; destruct sl; simpl; [tauto | left; split_and!; by try apply Forall_replicate]).
    clearbody sts. set (ns := if has_status sl then zlen names else 0) in *. clearbody ns.
    assert (0 <= ns < 2^31) by lia.
    repeat (wp1; rewrite ?s32_u32_id in * by (split; lia)); try (exfalso; chk);
      replace (Z.to_nat (zlen names)) with (length l) by lia;
      destruct Hn as [(? & -> & ?)|[? ->]]; try (exfalso; chk); simpl has_status in *; subst ns.
    + rewrite andb_false_r. apply (dec_names_wp _ false false); [done | | done | lia | done | has_tac | lens | lia | lia |].
      * intros _. apply (Forall_fmap fst (λ x, x = 0)). by rewrite E1.
      * wp1. by rewrite E2.
    + destruct want; [| by specialize (Hwant eq_refl)]. rewrite (proj2 (Z.ltb_lt 0 _)) by lia.
      apply (dec_names_wp _ true true); [| done | done | lia | done | has_tac | lens | lia | lia |].
      * apply (Forall_fmap fst is_s32). by rewrite E1.
      * wp1. by rewrite E1, E2.
Qed.
Lemma name_list_roundtrip from names sl :
  let l := with_status names sl in
  delivers fd (24 + zlen (names_bytes (has_status sl) l)) →
  24 + zlen (names_bytes (has_status sl) l) < 2^31 →
  8 * zlen names + strbytes l + 8 <= INT_MAX → names ≠ [] → ends_named l →
  (∀ st, sl = Some st → length st = length names ∧ Forall is_s32 st) →
  roundtrips (NameList.__pmSendNameList names sl fd from) PDU_PMNS_NAMES from
    (NameList.__pmDecodeNameList true) (names, sl).
Proof. intros. by apply name_list_roundtrip_want. Qed.
End namelist.

(** ** Safety *)

Lemma idlist_safe numids b len : received b len → IDList.__pmDecodeIDList numids b ≠ Fault.
Proof.
  unfold IDList.__pmDecodeIDList. dec_safe. apply wp_load_words; [lia .. |]. intros.
  by repeat wp1.
Qed.
Lemma name_req_safe b len : received b len → NameReq.DecodeNameReq b ≠ Fault.
Proof. unfold NameReq.DecodeNameReq. dec_safe. Qed.

Lemma dec_names_safe hs want len n : ∀ j room b,
  0 <= j → j mod 4 = 0 → len mod 4 = 0 → 24 + j <= len < 2^31 → len <= zlen b → room < 2^31 →
  wp (NameList.dec_names (hs_size hs) want len n j room) anyerr (λ _ _, True) b.
Proof.
  induction n as [|n IH]; intros j room b Hj Hm Hml Hlt Hb Hroom; cbn [NameList.dec_names]; [done |].
  assert (0 <= hs_size hs <= 4 ∧ hs_size hs mod 4 = 0) as [Hh Hhm] by (by destruct hs).
  set (h := hs_size hs) in *.
  sizes. rewrite align4, !(u64_id (len - _)) by (done || lia).
  repeat (wp1; triv).
  all: match goal with H : context [s32 (ntohl ?v) <? 0] |- _ => set (nl := s32 (ntohl v)) in *;
    assert (is_s32 nl) by apply s32_range end.
  all: unfold is_s32 in *; assert (0 <= nl) by lia; rewrite u64_id in * by lia.
  all: pose proof (pdu_size_bounds nl); pose proof (pdu_size_mod nl) as Hpm.
  all: assert (24 + j + h + 4 + PM_PDU_SIZE_BYTES nl <= len) by
    (pose proof (Z.div_mod len 4); pose proof (Z.div_mod j 4); pose proof (Z.div_mod h 4);
     pose proof (Z.div_mod (PM_PDU_SIZE_BYTES nl) 4); lia).
  all: rewrite (s32_id (j + _ + _ + _)) by (split; lia); wp1; wp1.
  all: eapply wp_mono; [| apply IH; [lia | | done | lia | lia | lia]]; [by intros; wp1 |].
  all: clear -Hm Hpm Hhm; Z.to_euclidean_division_equations; lia.
Qed.

Lemma name_list_safe want b len :
  received b len → len mod 4 = 0 → NameList.__pmDecodeNameList want b ≠ Fault.
Proof.
  intros Hr Hm. revert Hr. unfold NameList.__pmDecodeNameList. dec_safe.
  - eapply wp_mono; [| apply (dec_names_safe false); [lia | done | done | lia ..]]. by intros; wp1.
  - eapply wp_mono; [| apply (dec_names_safe true); [lia | done | done | lia ..]]. by intros; wp1.
Qed.

(** A list whose last name is empty is well formed on the wire, but refused. *)
Lemma name_list_trailing_empty :
  let body := be32 3 ++ be32 0 ++ be32 2 ++ names_bytes false [(0, [Byte.x61]); (0, [])] in
  NameList.__pmDecodeNameList false
    (le32 (12 + zlen body) ++ le32 PDU_PMNS_NAMES ++ le32 0 ++ body) = Err PM_ERR_IPC.
Proof. by vm_compute. Qed.
