(* ===== verification/PduProfile.v ===== *)
(** PduProfile: the instance profile PDU, src/src/libpcp/src/p_profile.c. *)
From S2P Require Import Prelude Memory Types PduIO Endian PduSimple.

(** [__pmInDomProfile] and [__pmProfile] of impl.h; the lengths are those of the
    lists. *)
Record __pmInDomProfile := mkInDomProfile { indom : Z; state : Z; instances : list Z }.
Record __pmProfile := mkProfile { g_state : Z; profile : list __pmInDomProfile }.

Module Prof.
Definition LIMIT_CTXNUM : Z := 2048.
Definition sizeof_instprof_t : Z := 16.
Definition sizeof_profile_t : Z := 28.
Definition sizeof_InDomProfile : Z := 24.

Definition need_profile (prof : __pmProfile) : Z :=
  foldl (λ need p, u64 (need + zlen (instances p) * 4))
    (u64 (sizeof_profile_t + zlen (profile prof) * sizeof_instprof_t)) (profile prof).

(** The profile entries in one block. *)
Fixpoint fill_profs (p : Z) (l : list __pmInDomProfile) : M Z :=
  match l with
  | [] => mret p
  | prof :: l =>
      store32 p (htonl (indom prof));;
      store32 (p + 4) (htonl (state prof));;
      store32 (p + 8) (htonl (zlen (instances prof)));;
      store32 (p + 12) 0;;
      fill_profs (p + 16) l
  end.
(** And then all the instances. *)
Fixpoint fill_instances (p : Z) (l : list __pmInDomProfile) : M unit :=
  match l with
  | [] => mret tt
  | prof :: l =>
      store_words p (instances prof);;
      fill_instances (p + 4 * zlen (instances prof)) l
  end.

Definition __pmSendProfile `{PduAlloc} (fd : Xmit.wfd) (from ctxnum : Z) (instprof : __pmProfile)
    : res (Z * buf) :=
  let need := s32 (need_profile instprof) in
  send_pdu fd need (
    set_hdr need PDU_PROFILE from;;
    store32 12 (htonl ctxnum);;
    store32 16 (htonl (g_state instprof));;
    store32 20 (htonl (zlen (profile instprof)));;
    store32 24 0;;
    p ← fill_profs 28 (profile instprof);
    fill_instances p (profile instprof)).

(** The profiles all together: domain, state and number of instances. *)
Fixpoint dec_profs (len : Z) (n : nat) (p : Z) : M (list (Z * Z * Z) * Z) :=
  match n with
  | O => mret ([], p)
  | S n =>
      check (len <=? p) PM_ERR_IPC;;
      i ← load32 p; s ← load32 (p + 4); k ← load32 (p + 8);
      r ← dec_profs len n (p + 16);
      mret ((ntohl i, s32 (ntohl s), s32 (ntohl k)) :: r.1, r.2)
  end.

Fixpoint dec_words (len : Z) (n : nat) (p : Z) : M (list Z) :=
  match n with
  | O => mret []
  | S n =>
      check (len <=? p) PM_ERR_IPC;;
      w ← load32 p; ws ← dec_words len n (p + 4);
      mret (s32 (ntohl w) :: ws)
  end.

(** Finally all the instances of all profiles. *)
Fixpoint dec_instances (len : Z) (l : list (Z * Z * Z)) (p : Z) : M (list __pmInDomProfile) :=
  match l with
  | [] => mret []
  | (i, s, n) :: l =>
      if 0 <? n then
        check ((INT_MAX / 4 <=? n) || (len <=? n)) PM_ERR_IPC;;
        ws ← dec_words len (Z.to_nat n) p;
        r ← dec_instances len l (p + 4 * n);
        mret (mkInDomProfile i s ws :: r)
      else
        check (n <? 0) PM_ERR_IPC;;
        r ← dec_instances len l p;
        mret (mkInDomProfile i s [] :: r)
  end.

Definition __pmDecodeProfile : M (Z * __pmProfile) :=
  len ← hdr_len;
  check (u64 len <? sizeof_profile_t) PM_ERR_IPC;;
  c ← load32 12;
  let ctxnum := s32 (ntohl c) in
  check ((ctxnum <? 0) || (LIMIT_CTXNUM <? ctxnum)) PM_ERR_IPC;;
  g ← load32 16; n ← load32 20;
  let profile_len := s32 (ntohl n) in
  check (profile_len <? 0) PM_ERR_IPC;;
  if 0 <? profile_len then
    check ((INT_MAX / sizeof_InDomProfile <=? profile_len) || (len <=? profile_len)) PM_ERR_IPC;;
    r ← dec_profs len (Z.to_nat profile_len) 28;
    l ← dec_instances len r.1 r.2;
    mret (ctxnum, mkProfile (s32 (ntohl g)) l)
  else mret (ctxnum, mkProfile (s32 (ntohl g)) []).
End Prof.

#[export] Hint Unfold Prof.LIMIT_CTXNUM Prof.sizeof_instprof_t Prof.sizeof_profile_t
  Prof.sizeof_InDomProfile : sizes.

(** ** The profile on the wire *)

Definition prof_bytes (p : __pmInDomProfile) : buf :=
  be32 (indom p) ++ be32 (state p) ++ be32 (zlen (instances p)) ++ be32 0.
Definition profs_bytes (l : list __pmInDomProfile) : buf := concat (prof_bytes <$> l).
Definition all_instances (l : list __pmInDomProfile) : list Z := concat (instances <$> l).

Lemma profs_bytes_cons p l :
  profs_bytes (p :: l) = be32 (indom p) ++ be32 (state p) ++ be32 (zlen (instances p)) ++ be32 0 ++ profs_bytes l.
Proof. unfold profs_bytes, prof_bytes. rewrite fmap_cons. cbn [concat]. by rewrite <- !app_assoc. Qed.
Lemma length_profs_bytes l : length (profs_bytes l) = (16 * length l)%nat.
Proof. induction l; [done |]. rewrite profs_bytes_cons. lens. Qed.
Lemma be_words_app ws ws' : be_words (ws ++ ws') = be_words ws ++ be_words ws'.
Proof. unfold be_words. by rewrite fmap_app, concat_app. Qed.
#[export] Hint Rewrite length_profs_bytes : lens.

Lemma need_profile_eq prof :
  28 + 16 * zlen (profile prof) + 4 * zlen (all_instances (profile prof)) < 2^31 →
  Prof.need_profile prof = 28 + 16 * zlen (profile prof) + 4 * zlen (all_instances (profile prof)).
Proof.
  intros H. unfold Prof.need_profile. sizes. rewrite u64_id by lia.
  replace (28 + zlen (profile prof) * 16) with (28 + 16 * zlen (profile prof)) by lia.
  set (x := 28 + 16 * _) in *. assert (0 <= x) as Hx by lia. clearbody x. revert x H Hx.
  induction (profile prof) as [|p l IH]; intros x H Hx; cbn [foldl all_instances fmap list_fmap concat];
    [simpl; lia |].
  unfold all_instances in *. cbn [fmap list_fmap concat] in H. rewrite length_app in *.
  rewrite u64_id by lia. rewrite IH by lia. lia.
Qed.

Lemma fill_profs_wp E l : ∀ p pre b (Q : Z → buf → Prop),
  zlen pre = p → has b 0 pre → p + 16 * zlen l <= zlen b →
  (∀ b', length b' = length b → has b' 0 (pre ++ profs_bytes l) → Q (p + 16 * zlen l) b') →
  wp (Prof.fill_profs p l) E Q b.
Proof.
  induction l as [|q l IH]; intros p pre b Q Hp Hb Hl HQ; cbn [Prof.fill_profs].
  - apply wp_ret. specialize (HQ b). simpl in HQ. rewrite Z.add_0_r in HQ. apply HQ; [done |].
    change (profs_bytes []) with (@nil byte). by rewrite app_nil_r.
  - rewrite profs_bytes_cons in HQ. change (le32 0) with (be32 0). repeat wp1.
    change (le32 0) with (be32 0) in *.
    apply (IH _ (pre ++ be32 (indom q) ++ be32 (state q) ++ be32 (zlen (instances q)) ++ be32 0));
      [lens | has_join | lens |].
    intros b' L N. rewrite <- !app_assoc in N.
    replace (p + 16 + 16 * zlen l) with (p + 16 * zlen (q :: l)) by (simpl; lia).
    apply HQ; [lia | done].
Qed.

Lemma fill_instances_wp E l : ∀ p pre b (Q : unit → buf → Prop),
  zlen pre = p → has b 0 pre → p + 4 * zlen (all_instances l) <= zlen b →
  (∀ b', length b' = length b → has b' 0 (pre ++ be_words (all_instances l)) → Q tt b') →
  wp (Prof.fill_instances p l) E Q b.
Proof.
  induction l as [|q l IH]; intros p pre b Q Hp Hb Hl HQ; cbn [Prof.fill_instances].
  - apply wp_ret, HQ; [done |]. change (be_words (all_instances [])) with (@nil byte). by rewrite app_nil_r.
  - change (all_instances (q :: l)) with (instances q ++ all_instances l) in *.
    rewrite be_words_app in HQ. repeat wp1.
    apply (IH _ (pre ++ be_words (instances q))); [lens | has_join | lens |].
    intros b' L N. rewrite <- !app_assoc in N. apply HQ; [lia | done].
Qed.

Definition indomprof_wf (p : __pmInDomProfile) : Prop :=
  is_u32 (indom p) ∧ is_s32 (state p) ∧ Forall is_s32 (instances p).
Definition prof_hdr (p : __pmInDomProfile) : Z * Z * Z := (indom p, state p, zlen (instances p)).

Lemma dec_profs_wp E len l : ∀ p b (Q : list (Z * Z * Z) * Z → buf → Prop),
  Forall indomprof_wf l → has b p (profs_bytes l) → p + 16 * zlen l <= len → len < 2^31 →
  Forall (λ q, zlen (instances q) < 2^31) l →
  Q (prof_hdr <$> l, p + 16 * zlen l) b → wp (Prof.dec_profs len (length l) p) E Q b.
Proof.
  induction l as [|q l IH]; intros p b Q Hwf Hb Hl Hlt Hi HQ; cbn [Prof.dec_profs length].
  - apply wp_ret. simpl in HQ. by rewrite Z.add_0_r in HQ.
  - apply Forall_cons in Hwf as [(Hq1 & Hq2 & _) Hwf], Hi as [Hi1 Hi].
    rewrite profs_bytes_cons in Hb. has_split.
    repeat wp1; [exfalso; simpl in *; lia |]. apply IH; [done | has_tac | simpl in *; lia | done | done |].
    wp1. cbn [fst snd fmap list_fmap] in *. rewrite u32_id, !s32_u32_id by (done || split; lia).
    replace (p + 16 + 16 * zlen l) with (p + 16 * zlen (q :: l)) by (simpl; lia). done.
Qed.

Lemma dec_words_wp E len ws : ∀ p b (Q : list Z → buf → Prop),
  Forall is_s32 ws → has b p (be_words ws) → p + 4 * zlen ws <= len → Q ws b →
  wp (Prof.dec_words len (length ws) p) E Q b.
Proof.
  induction ws as [|w ws IH]; intros p b Q Hwf Hb Hl HQ; cbn [Prof.dec_words length]; [by apply wp_ret |].
  apply Forall_cons in Hwf as [Hw Hwf]. rewrite be_words_cons in Hb. has_split.
  repeat wp1; [exfalso; simpl in *; lia |]. apply IH; [done | has_tac | simpl in *; lia |].
  wp1. by rewrite s32_u32_id.
Qed.

Lemma dec_instances_wp E len l : ∀ p b (Q : list __pmInDomProfile → buf → Prop),
  Forall indomprof_wf l → has b p (be_words (all_instances l)) → 12 <= p →
  p + 4 * zlen (all_instances l) <= len → len < 2^31 →
  Q l b → wp (Prof.dec_instances len (prof_hdr <$> l) p) E Q b.
Proof.
  induction l as [|q l IH]; intros p b Q Hwf Hb Hp Hl Hlt HQ; cbn [Prof.dec_instances fmap list_fmap prof_hdr];
    [by apply wp_ret |].
  apply Forall_cons in Hwf as [(Hq1 & Hq2 & Hq3) Hwf].
  change (all_instances (q :: l)) with (instances q ++ all_instances l) in *.
  rewrite be_words_app in Hb. rewrite length_app in Hl. has_split.
  assert (wp (r ← Prof.dec_instances len (prof_hdr <$> l) (p + 4 * zlen (instances q)); mret (q :: r)) E Q b) as Hr.
  { apply wp_bind, IH; [done | has_tac | lia | lia | done | by wp1]. }
  unfold prof_hdr at 1. destruct (Z.ltb_spec 0 (zlen (instances q))) as [Hn|Hn].
  - wp1. wp1. { exfalso. unfold INT_MAX in *. Z.to_euclidean_division_equations. lia. }
    wp1. rewrite Nat2Z.id. apply dec_words_wp; [done | has_tac | lia |]. by destruct q.
  - destruct q as [i s [|w ws]]; cbn [instances length] in *; [| lia].
    wp1. wp1; [done |]. by rewrite Z.add_0_r in Hr.
Qed.

Section roundtrip.
Context `{PduAlloc} (fd : Xmit.wfd).
Hypothesis alloc_ok : ∀ n, is_Some (find_pdubuf n).

Lemma profile_roundtrip from ctxnum prof :
  let need := 28 + 16 * zlen (profile prof) + 4 * zlen (all_instances (profile prof)) in
  delivers fd need → need < 2^31 → zlen (profile prof) < INT_MAX / 24 →
  0 <= ctxnum <= 2048 → is_s32 (g_state prof) → Forall indomprof_wf (profile prof) →
  roundtrips (Prof.__pmSendProfile fd from ctxnum prof) PDU_PROFILE from
    Prof.__pmDecodeProfile (ctxnum, prof).
Proof.
  intros need Hd Hlt Hn Hc Hg Hwf. destruct prof as [g l]. cbn [profile g_state] in *.
  assert (need = 28 + 16 * zlen l + 4 * zlen (all_instances l)) as Hneed by done. clearbody need.
  exists (be32 ctxnum ++ be32 g ++ be32 (zlen l) ++ be32 0 ++ profs_bytes l ++ be_words (all_instances l)).
  split.
  - unfold Prof.__pmSendProfile. rewrite need_profile_eq by (cbn [profile]; lia).
    cbn [profile g_state]. rewrite <- Hneed, s32_id by (split; lia).
    match goal with |- send_pdu _ ?n _ = Ok (?m, _) => replace m with n by (sizes; lens) end.
    send_start. repeat wp1. change (le32 0) with (be32 0) in *.
    apply (fill_profs_wp _ _ _ (le32 need ++ le32 PDU_PROFILE ++ le32 from ++ be32 ctxnum ++ be32 g
      ++ be32 (zlen l) ++ be32 0)); [lens | has_join | lia |].
    intros b' L N. eapply fill_instances_wp; [| done | lia |]; [lens |].
    intros b'' _ N'. by rewrite <- !app_assoc in N'.
  - dec_start. unfold Prof.__pmDecodeProfile. read_len. sizes.
    assert (Forall (λ q, zlen (instances q) < 2^31) l) as Hi.
    { apply Forall_forall. intros q Hq. apply elem_of_Permutation in Hq as [k Ek].
      assert (zlen (instances q) <= zlen (all_instances l)); [| lia].
      unfold all_instances. rewrite Ek. simpl. lens. }
    assert (zlen l < 2^31) by lia.
    repeat wp1; rewrite ?s32_u32_id in * by (done || split; lia); try (exfalso; chk).
    + rewrite Nat2Z.id. apply dec_profs_wp; [done | has_tac | lens | lia | done |].
      wp1. cbn [fst snd]. apply dec_instances_wp; [done | has_tac | lia | lens | lia |].
      by wp1.
    + destruct l as [|q l]; [done |]. exfalso.
      by match goal with H : (0 <? _) = false |- _ => simpl in H end.
Qed.
End roundtrip.

(** ** Safety *)

Lemma dec_profs_safe len n : ∀ p b (Q : list (Z * Z * Z) * Z → buf → Prop),
  0 <= p → len + 11 <= zlen b → (∀ l p', 0 <= p' → Q (l, p') b) →
  wp (Prof.dec_profs len n p) anyerr Q b.
Proof.
  induction n as [|n IH]; intros p b Q Hp Hb HQ; cbn [Prof.dec_profs]; [by apply wp_ret, HQ |].
  repeat (wp1; triv). apply IH; [lia | done |]. intros l p' Hp'. wp1. by apply HQ.
Qed.
Lemma dec_words_safe len n : ∀ p b,
  0 <= p → len + 3 <= zlen b → wp (Prof.dec_words len n p) anyerr (λ _ b', b' = b) b.
Proof.
  induction n as [|n IH]; intros p b Hp Hb; cbn [Prof.dec_words]; [done |].
  repeat (wp1; triv). eapply wp_mono; [| apply IH; [lia | done]]. by intros ? ? ->.
Qed.
Lemma dec_instances_safe len l : ∀ p b,
  0 <= p → len + 3 <= zlen b → wp (Prof.dec_instances len l p) anyerr (λ _ _, True) b.
Proof.
  induction l as [|[[i s] n] l IH]; intros p b Hp Hb; cbn [Prof.dec_instances]; [done |].
  repeat (wp1; triv).
  - eapply wp_mono; [| apply dec_words_safe; [lia | done]]. intros ws ? ->.
    apply wp_bind. eapply wp_mono; [| apply IH; [lia | done]]. by intros; wp1.
  - eapply wp_mono; [| apply IH; [lia | done]]. by intros; wp1.
Qed.

(** The entries are only checked to start inside of the PDU: eleven bytes after
    its end must still belong to the buffer. *)
Lemma profile_safe b len : received b len → len + 11 <= zlen b → Prof.__pmDecodeProfile b ≠ Fault.
Proof.
  intros Hr Hb. revert Hr. unfold Prof.__pmDecodeProfile. dec_safe.
  apply dec_profs_safe; [lia | lia |]. intros l p Hp. wp1. cbn [fst snd].
  eapply wp_mono; [| apply dec_instances_safe; lia]. by intros; wp1.
Qed.

(** A PDU that fills its buffer of one chunk, with 63 entries announced: the last
    one starts in the last word of the buffer. *)
Definition profile_overread_pdu : buf :=
  le32 1024 ++ le32 PDU_PROFILE ++ le32 0 ++ be32 0 ++ be32 0 ++ be32 63
  ++ replicate 1000 Byte.x00.
Lemma profile_overread :
  received profile_overread_pdu 1024 ∧ zlen profile_overread_pdu = PDU_CHUNK
  ∧ Prof.__pmDecodeProfile profile_overread_pdu = Fault.
Proof. split_and!; [split_and! | ..]; by vm_compute. Qed.
