(* ===== verification/PduLog.v ===== *)
(** PduLog: the logging control PDU, src/src/libpcp/src/p_lcontrol.c. *)
From S2P Require Import Prelude Memory Types PduIO Endian PduSimple PduInstance.

Module LogControl.
(** A [pmValueSet] as this PDU sees it: identifier, number of values (which may
    be zero or negative) and the instance and in-situ value of each. *)
Record vset := mkVset { v_pmid : Z; v_numval : Z; v_list : list (Z * Z) }.

Definition PM_LOG_MAYBE : Z := 1.
Definition PM_LOG_ADVISORY : Z := 12.
Definition sizeof_vlist_t : Z := 16.
Definition sizeof_Value_PDU : Z := 8.
Definition sizeof_control_req_t : Z := 32.
Definition sizeof_pmResult : Z := 32.
Definition sizeof_pmValueSet : Z := 32.
Definition sizeof_pmValue : Z := 16.

(** The space an entry takes. *)
Definition vlist_size (numval : Z) : Z :=
  if 0 <? numval then sizeof_vlist_t + (numval - 1) * sizeof_Value_PDU
  else sizeof_vlist_t - sizeof_Value_PDU.
Definition need_vsets (l : list vset) : Z :=
  foldl (λ need v, s32 (need + vlist_size (v_numval v))) (sizeof_control_req_t - 4) l.

(** [for (j = 0; j < vsp->numval; j++)] *)
Fixpoint fill_values (v : vset) (o : Z) (j n : nat) : M unit :=
  match n with
  | O => mret tt
  | S n =>
      x ← index (v_list v) j;
      store32 o (htonl x.1);; store32 (o + 4) (htonl x.2);;
      fill_values v (o + 8) (S j) n
  end.
Fixpoint fill_vsets (vp : Z) (l : list vset) : M unit :=
  match l with
  | [] => mret tt
  | v :: l =>
      store32 vp (htonl (v_pmid v));;
      store32 (vp + 4) (htonl (v_numval v));;
      fill_values v (vp + 8) 0 (Z.to_nat (v_numval v));;
      fill_vsets (vp + vlist_size (v_numval v)) l
  end.

Definition __pmSendLogControl `{PduAlloc} (fd : Xmit.wfd) (request : list vset)
    (control state delta : Z) : res (Z * buf) :=
  if (delta <? 0) || (control =? PM_LOG_ADVISORY) && (state =? PM_LOG_MAYBE) then Err (- EINVAL)
  else
    let need := need_vsets request in
    send_pdu fd need (
      set_hdr need PDU_LOG_CONTROL FROM_ANON;;
      store32 12 (htonl control);;
      store32 16 (htonl state);;
      store32 20 (htonl delta);;
      store32 24 (htonl (zlen request));;
      fill_vsets 28 request).

Fixpoint dec_values (o : Z) (n : nat) : M (list (Z * Z)) :=
  match n with
  | O => mret []
  | S n =>
      i ← load32 o; v ← load32 (o + 4);
      r ← dec_values (o + 8) n;
      mret ((s32 (ntohl i), s32 (ntohl v)) :: r)
  end.

(** [corrupt:] with [i] value sets decoded: [while (i) free(req->vset[i--])].
    The first pointer freed is the one in slot [i], which was never set. *)
Definition corrupt {A} (i : nat) : M A := λ _, if Nat.eqb i 0 then Err PM_ERR_IPC else Fault.
Definition check_corrupt (c : bool) (i : nat) : M unit := if c then corrupt i else mret tt.

Fixpoint dec_vsets (len : Z) (i n : nat) (vp : Z) : M (list vset) :=
  match n with
  | O => mret []
  | S n =>
      check_corrupt (u64 (len - vp) <? sizeof_vlist_t - sizeof_Value_PDU) i;;
      w ← load32 (vp + 4);
      let nv := s32 (ntohl w) in
      check_corrupt (len <? nv) i;;
      (if nv <=? 0 then
         check_corrupt (u64 (len - vp) <? sizeof_vlist_t - sizeof_Value_PDU) i
       else
         check_corrupt ((INT_MAX - sizeof_pmValueSet) / sizeof_pmValue <=? nv) i;;
         check_corrupt ((INT_MAX - sizeof_vlist_t) / sizeof_Value_PDU <=? nv) i;;
         check_corrupt (u64 (len - vp) <? u64 (sizeof_vlist_t + (nv - 1) * sizeof_Value_PDU)) i);;
      p ← load32 vp;
      l ← dec_values (vp + 8) (Z.to_nat nv);
      r ← dec_vsets len (S i) n (vp + vlist_size nv);
      mret (mkVset (ntohl p) nv l :: r)
  end.

(** The request, the control, the state and the interval. *)
Definition __pmDecodeLogControl : M (list vset * Z * Z * Z) :=
  len ← hdr_len;
  check (u64 len <? sizeof_control_req_t) PM_ERR_IPC;;
  c ← load32 12; s ← load32 16; d ← load32 20; n ← load32 24;
  let numpmid := s32 (ntohl n) in
  check ((numpmid <? 0) || (len <? numpmid)) PM_ERR_IPC;;
  check ((INT_MAX - sizeof_pmResult) / 8 <=? u64 numpmid) PM_ERR_IPC;;
  l ← dec_vsets len 0 (Z.to_nat numpmid) 28;
  mret (l, s32 (ntohl c), s32 (ntohl s), s32 (ntohl d)).
End LogControl.

#[export] Hint Unfold LogControl.sizeof_vlist_t LogControl.sizeof_Value_PDU
  LogControl.sizeof_control_req_t LogControl.sizeof_pmResult LogControl.sizeof_pmValueSet
  LogControl.sizeof_pmValue : sizes.

(** ** The request on the wire *)

Import LogControl.

Definition value_bytes (x : Z * Z) : buf := be32 x.1 ++ be32 x.2.
Definition values_bytes (l : list (Z * Z)) : buf := concat (value_bytes <$> l).
Definition vset_bytes (v : vset) : buf :=
  be32 (v_pmid v) ++ be32 (v_numval v) ++ values_bytes (v_list v).
Definition vsets_bytes (l : list vset) : buf := concat (vset_bytes <$> l).

(** A value set with exactly the values it announces. *)
Definition vset_wf (v : vset) : Prop :=
  is_u32 (v_pmid v) ∧ is_s32 (v_numval v) ∧ zlen (v_list v) = Z.max 0 (v_numval v)
  ∧ Forall (λ x, is_s32 x.1 ∧ is_s32 x.2) (v_list v).

Lemma values_bytes_cons x l : values_bytes (x :: l) = be32 x.1 ++ be32 x.2 ++ values_bytes l.
Proof. unfold values_bytes, value_bytes. rewrite fmap_cons. cbn [concat]. by rewrite <- !app_assoc. Qed.
Lemma length_values_bytes l : length (values_bytes l) = (8 * length l)%nat.
Proof. induction l; [done |]. rewrite values_bytes_cons. lens. Qed.
#[export] Hint Rewrite length_values_bytes : lens.
Lemma vsets_bytes_cons v l :
  vsets_bytes (v :: l) = be32 (v_pmid v) ++ be32 (v_numval v) ++ values_bytes (v_list v) ++ vsets_bytes l.
Proof. unfold vsets_bytes, vset_bytes. rewrite fmap_cons. cbn [concat]. by rewrite <- !app_assoc. Qed.
Lemma vlist_size_eq v : vset_wf v → vlist_size (v_numval v) = 8 + 8 * zlen (v_list v).
Proof. intros (_ & _ & -> & _). unfold vlist_size. sizes. case_match; lia. Qed.

Lemma need_vsets_eq l :
  Forall vset_wf l → 28 + zlen (vsets_bytes l) < 2^31 → need_vsets l = 28 + zlen (vsets_bytes l).
Proof.
  intros Hwf. unfold need_vsets. sizes. change (32 - 4) with 28.
  enough (∀ x, 0 <= x → x + zlen (vsets_bytes l) < 2^31 →
    foldl (λ need v, s32 (need + vlist_size (v_numval v))) x l = x + zlen (vsets_bytes l)) by auto with lia.
  induction Hwf as [|v l Hv _ IH]; intros x Hx Hlt; cbn [foldl]; [simpl; lia |].
  rewrite vsets_bytes_cons in *. autorewrite with lens in *.
  rewrite vlist_size_eq, s32_id by (done || split; lia). rewrite IH by lia. lia.
Qed.

Lemma log_values_wp E v l : ∀ o j pre b (Q : unit → buf → Prop),
  zlen pre = o → has b 0 pre → drop j (v_list v) = l → o + 8 * zlen l <= zlen b →
  (∀ b', length b' = length b → has b' 0 (pre ++ values_bytes l) → Q tt b') →
  wp (fill_values v o j (length l)) E Q b.
Proof.
  induction l as [|x l IH]; intros o j pre b Q Hp Hb Hd Hl HQ; cbn [fill_values length].
  - apply wp_ret, HQ; [done |]. change (values_bytes []) with (@nil byte). by rewrite app_nil_r.
  - assert (v_list v !! j = Some x) as Hx.
    { rewrite <- (Nat.add_0_r j), <- lookup_drop, Hd. done. }
    eapply wp_bind, wp_index; [exact Hx |]. rewrite values_bytes_cons in HQ. repeat wp1.
    apply (IH _ _ (pre ++ be32 x.1 ++ be32 x.2)); [lens | has_join | | lens |].
    + replace (S j) with (j + 1)%nat by lia. by rewrite <- drop_drop, Hd.
    + intros b' L N. rewrite <- !app_assoc in N. apply HQ; [lia | done].
Qed.

Lemma log_vsets_wp E l : ∀ vp pre b (Q : unit → buf → Prop),
  Forall vset_wf l → zlen pre = vp → has b 0 pre → vp + zlen (vsets_bytes l) <= zlen b →
  (∀ b', length b' = length b → has b' 0 (pre ++ vsets_bytes l) → Q tt b') →
  wp (fill_vsets vp l) E Q b.
Proof.
  induction l as [|v l IH]; intros vp pre b Q Hwf Hp Hb Hl HQ; cbn [fill_vsets].
  - apply wp_ret, HQ; [done |]. change (vsets_bytes []) with (@nil byte). by rewrite app_nil_r.
  - apply Forall_cons in Hwf as [Hv Hwf]. rewrite vlist_size_eq by done.
    pose proof Hv as (_ & _ & Hn & _).
    replace (Z.to_nat (v_numval v)) with (length (v_list v)) by lia.
    rewrite vsets_bytes_cons in *. autorewrite with lens in Hl. repeat wp1.
    apply (log_values_wp _ _ _ _ _ (pre ++ be32 (v_pmid v) ++ be32 (v_numval v)));
      [lens | has_join | done | lens |].
    intros b' L N. apply (IH _ ((pre ++ be32 (v_pmid v) ++ be32 (v_numval v)) ++ values_bytes (v_list v)));
      [done | lens | done | lens |].
    intros b'' L' N'. rewrite <- !app_assoc in N'. apply HQ; [lia | done].
Qed.

Lemma dec_values_wp E l : ∀ o b (Q : list (Z * Z) → buf → Prop),
  Forall (λ x, is_s32 x.1 ∧ is_s32 x.2) l → has b o (values_bytes l) → Q l b →
  wp (dec_values o (length l)) E Q b.
Proof.
  induction l as [|x l IH]; intros o b Q Hwf Hb HQ; cbn [dec_values length]; [by apply wp_ret |].
  apply Forall_cons in Hwf as [[Hx1 Hx2] Hwf]. rewrite values_bytes_cons in Hb. has_split.
  repeat wp1. apply IH; [done | has_tac |]. wp1. rewrite !s32_u32_id by done. by destruct x.
Qed.

Lemma wp_check_corrupt E c i (Q : unit → buf → Prop) b :
  c = false → Q tt b → wp (check_corrupt c i) E Q b.
Proof. by intros ->. Qed.

Lemma dec_vsets_wp E len l : ∀ i vp b (Q : list vset → buf → Prop),
  Forall vset_wf l → 0 <= vp → has b vp (vsets_bytes l) → vp + zlen (vsets_bytes l) <= len < 2^31 →
  Forall (λ v, v_numval v < (INT_MAX - 32) / 16) l →
  Q l b → wp (dec_vsets len i (length l) vp) E Q b.
Proof.
  induction l as [|v l IH]; intros i vp b Q Hwf Hvp Hb Hl Hmax HQ; cbn [dec_vsets length]; [by apply wp_ret |].
  apply Forall_cons in Hwf as [Hv Hwf], Hmax as [Hv' Hmax]. pose proof Hv as (Hp & Hn & Hvl & Hxs).
  rewrite vsets_bytes_cons in Hb, Hl. autorewrite with lens in Hl. has_split. sizes.
  assert (- 2 ^ 31 <= v_numval v < 2^31) by done.
  rewrite !(u64_id (len - _)) by lia. wp1. apply wp_check_corrupt; [lia |].
  repeat wp1. rewrite s32_u32_id by done. apply wp_check_corrupt; [lia |].
  apply wp_bind, (wp_mono _ _ (λ _ b', b' = b)).
  2: { destruct (Z.leb_spec (v_numval v) 0); [by apply wp_check_corrupt; [lia |] |].
       rewrite u64_id by lia.
       repeat (first [apply wp_check_corrupt | wp1]); try done; Z.to_euclidean_division_equations; lia. }
  intros [] ? ->. repeat wp1.
  replace (Z.to_nat (v_numval v)) with (length (v_list v)) by lia.
  apply dec_values_wp; [done | has_tac |]. wp1. rewrite vlist_size_eq by done.
  apply IH; [done | lia | has_tac | lia | done |]. wp1. rewrite u32_id by done. by destruct v.
Qed.

Section roundtrip.
Context `{PduAlloc} (fd : Xmit.wfd).
Hypothesis alloc_ok : ∀ n, is_Some (find_pdubuf n).

Lemma log_control_roundtrip l control state delta :
  let need := 28 + zlen (vsets_bytes l) in
  delivers fd need → need < 2^31 → l ≠ [] → Forall vset_wf l →
  Forall (λ v, v_numval v < (INT_MAX - 32) / 16) l → zlen l < (INT_MAX - 32) / 8 →
  is_s32 control → is_s32 state → 0 <= delta < 2^31 →
  ¬ (control = PM_LOG_ADVISORY ∧ state = PM_LOG_MAYBE) →
  roundtrips (__pmSendLogControl fd l control state delta) PDU_LOG_CONTROL FROM_ANON
    __pmDecodeLogControl (l, control, state, delta).
Proof.
  intros need Hd Hlt Hne Hwf Hmax Hmax' Hc Hs Hdel Hadv.
  assert (need = 28 + zlen (vsets_bytes l)) as Hneed by done. clearbody need.
  assert (8 * zlen l <= zlen (vsets_bytes l)) as Hge.
  { clear. induction l; [simpl; lia |]. rewrite vsets_bytes_cons. lens. }
  assert (0 < zlen l) by (destruct l; simpl; [done | lia]).
  exists (be32 control ++ be32 state ++ be32 delta ++ be32 (zlen l) ++ vsets_bytes l). split.
  - unfold __pmSendLogControl. rewrite need_vsets_eq, <- Hneed by (done || lia).
    assert ((delta <? 0) || (control =? PM_LOG_ADVISORY) && (state =? PM_LOG_MAYBE) = false) as -> by lia.
    match goal with |- send_pdu _ ?n _ = Ok (?m, _) => replace m with n by (sizes; lens) end.
    send_start. repeat wp1.
    apply (log_vsets_wp _ _ _ (le32 need ++ le32 PDU_LOG_CONTROL ++ le32 FROM_ANON ++ be32 control
      ++ be32 state ++ be32 delta ++ be32 (zlen l))); [done | lens | has_join | lia |].
    intros b' _ N. by rewrite <- !app_assoc in N.
  - dec_start. unfold __pmDecodeLogControl. read_len. sizes.
    repeat wp1; rewrite ?s32_u32_id in * by (done || split; lia); try (exfalso; chk).
    rewrite Nat2Z.id. apply dec_vsets_wp; [done | lia | has_tac | lens | done |].
    by wp1.
Qed.

(** A request without metrics is sent, and refused at the other end. *)
Lemma log_control_empty control state delta :
  delivers fd 28 → is_s32 control → is_s32 state → 0 <= delta < 2^31 →
  ¬ (control = PM_LOG_ADVISORY ∧ state = PM_LOG_MAYBE) →
  ∃ body, __pmSendLogControl fd [] control state delta
            = Ok (28, wire PDU_LOG_CONTROL FROM_ANON body)
    ∧ ∀ b, is_pdu b PDU_LOG_CONTROL FROM_ANON body → __pmDecodeLogControl b = Err PM_ERR_IPC.
Proof.
  intros Hd Hc Hs Hdel Hadv.
  exists (be32 control ++ be32 state ++ be32 delta ++ be32 0). split.
  - unfold __pmSendLogControl.
    assert ((delta <? 0) || (control =? PM_LOG_ADVISORY) && (state =? PM_LOG_MAYBE) = false) as -> by lia.
    change (need_vsets []) with 28. send_start. cbn [fill_vsets length]. change (Z.of_nat 0) with 0.
    repeat wp1. has_join.
  - intros b Hp. pose proof (is_pdu_received _ _ _ _ Hp) as Hr. sizes. autorewrite with lens in Hr.
    change (12 + Z.of_nat (4 + (4 + (4 + 4)))) with 28 in Hr.
    assert (wp hdr_len noerr (λ v b', v = 28 ∧ b' = b) b) as Hw by (by eapply wp_hdr_len).
    apply wp_noerr_run in Hw as (? & ? & E & -> & ->).
    unfold __pmDecodeLogControl. unfold mbind at 1, M_bind at 1. by rewrite E.
Qed.
End roundtrip.

(** The value sets decoded so far are not released properly: with the second of
    two entries cut off, the pointer freed first was never initialised. *)
Definition log_control_cut_pdu : buf :=
  le32 36 ++ le32 PDU_LOG_CONTROL ++ le32 0 ++ be32 0 ++ be32 0 ++ be32 0 ++ be32 2
  ++ be32 0 ++ be32 0.
Lemma log_control_bad_free :
  received log_control_cut_pdu 36 ∧ __pmDecodeLogControl log_control_cut_pdu = Fault.
Proof. split; [split_and!; by vm_compute | by vm_compute]. Qed.

(** ** Safety *)

Lemma dec_values_safe n : ∀ o b,
  0 <= o → o + 8 * Z.of_nat n <= zlen b → wp (dec_values o n) anyerr (λ _ b', b' = b) b.
Proof.
  induction n as [|n IH]; intros o b Ho Hb; cbn [dec_values]; [done |].
  repeat (wp1; triv). eapply wp_mono; [| apply IH; lia]. by intros ? ? ->.
Qed.
Lemma wp_check_corrupt0 c (Q : unit → buf → Prop) b :
  (c = false → Q tt b) → wp (check_corrupt c 0) anyerr Q b.
Proof. destruct c; [done |]. intros HQ. by apply HQ. Qed.

(** With one metric every error is found before anything is allocated. *)
Lemma log_control_safe b len :
  received b len → has b 24 (be32 1) → __pmDecodeLogControl b ≠ Fault.
Proof.
  intros Hr Hone. revert Hr. unfold __pmDecodeLogControl. dec_safe.
  change (Z.to_nat (s32 (u32 1))) with 1%nat. cbn [dec_vsets]. sizes.
  rewrite !(u64_id (len - _)) by lia. wp1. apply wp_check_corrupt0. intros ?. wp1. wp1.
  match goal with |- wp (check_corrupt (len <? ?x) _ ≫= _) _ _ _ => set (nv := x) end.
  wp1. apply wp_check_corrupt0. intros ?. wp1.
  apply (wp_mono _ _ (λ _ b', b' = b ∧ 28 + 8 + 8 * Z.max 0 nv <= len)).
  2: { destruct (Z.leb_spec nv 0); [apply wp_check_corrupt0; split; [done | lia] |].
       repeat first [apply wp_check_corrupt0; intros ? | wp1]. rewrite u64_id in * by lia. split; [done | lia]. }
  intros [] ? [-> ?]. do 3 wp1. eapply wp_mono; [| apply dec_values_safe; lia].
  intros ? ? ->. by repeat wp1.
Qed.
