(* ===== verification/ValueBlock.v ===== *)
(** ValueBlock: converting a [pmValueBlock] between host and network order in
    place, packed event arrays included (src/src/libpcp/src/endian.c). *)
From S2P Require Import Prelude Memory Types Endian PduIO PduSimple PduInstance.

(** ** The header word: 24 bits of length, 8 bits of type *)

Definition vb_vlen (w : Z) : Z := bits w 0 24.
Definition vb_vtype (w : Z) : Z := bits w 24 8.
Definition vb_word (vlen vtype : Z) : Z := field vlen 0 24 + field vtype 24 8.
Definition PM_EVENT_FLAG_MISSED : Z := 2147483648.

(** ** Event arrays *)

(** [switch (vtype)]: convert the types we're able to. *)
Definition swab_param (vtype tp : Z) : M unit :=
  if (vtype =? PM_TYPE_32) || (vtype =? PM_TYPE_U32) then htonl_at tp
  else if (vtype =? PM_TYPE_64) || (vtype =? PM_TYPE_U64) then __htonll tp
  else if vtype =? PM_TYPE_DOUBLE then __htond tp
  else if vtype =? PM_TYPE_FLOAT then __htonf tp
  else mret tt.

(** One parameter, and where the next one starts. *)
Definition hton_param (base : Z) : M Z :=
  htonl_at base;;
  w ← load32 (base + 4);
  htonl_at (base + 4);;
  swab_param (vb_vtype w) (base + 8);;
  mret (base + 4 + PM_PDU_SIZE_BYTES (vb_vlen w)).
Definition ntoh_param (base : Z) : M Z :=
  ntohl_at base;;
  ntohl_at (base + 4);;
  w ← load32 (base + 4);
  swab_param (vb_vtype w) (base + 8);;
  mret (base + 4 + PM_PDU_SIZE_BYTES (vb_vlen w)).

(** [for (i = 0; i < n; i++)] over consecutive items. *)
Fixpoint iter_at (f : Z → M Z) (base : Z) (n : nat) : M Z :=
  match n with
  | O => mret base
  | S n => base' ← f base; iter_at f base' n
  end.

Definition record_nparams (flags nparams : Z) : nat :=
  if Z.land flags PM_EVENT_FLAG_MISSED =? 0 then Z.to_nat (s32 nparams) else O.

Definition hton_record (base : Z) : M Z :=
  htonl_at base;; htonl_at (base + 4);;
  flags ← load32 (base + 8); nparams ← load32 (base + 12);
  htonl_at (base + 8);; htonl_at (base + 12);;
  iter_at hton_param (base + 16) (record_nparams flags nparams).
Definition ntoh_record (base : Z) : M Z :=
  ntohl_at base;; ntohl_at (base + 4);;
  ntohl_at (base + 8);; ntohl_at (base + 12);;
  flags ← load32 (base + 8); nparams ← load32 (base + 12);
  iter_at ntoh_param (base + 16) (record_nparams flags nparams).

Definition htonEventArray (vb : Z) : M unit :=
  n ← load32 (vb + 4);
  iter_at hton_record (vb + 8) (Z.to_nat (s32 n));;
  htonl_at (vb + 4).
Definition ntohEventArray (vb : Z) : M unit :=
  ntohl_at (vb + 4);;
  n ← load32 (vb + 4);
  iter_at ntoh_record (vb + 8) (Z.to_nat (s32 n));;
  mret tt.

(** ** Value blocks *)

(** The value after the header, by its type. *)
Definition hton_vbuf (vtype vb : Z) : M unit :=
  if (vtype =? PM_TYPE_U64) || (vtype =? PM_TYPE_64) then __htonll (vb + 4)
  else if vtype =? PM_TYPE_DOUBLE then __htond (vb + 4)
  else if vtype =? PM_TYPE_FLOAT then __htonf (vb + 4)
  else if vtype =? PM_TYPE_EVENT then htonEventArray vb
  else mret tt.
Definition ntoh_vbuf (vtype vb : Z) : M unit :=
  if (vtype =? PM_TYPE_U64) || (vtype =? PM_TYPE_64) then __ntohll (vb + 4)
  else if vtype =? PM_TYPE_DOUBLE then __ntohd (vb + 4)
  else if vtype =? PM_TYPE_FLOAT then __ntohf (vb + 4)
  else if vtype =? PM_TYPE_EVENT then ntohEventArray vb
  else mret tt.

Definition __htonpmValueBlock (vb : Z) : M unit :=
  w ← load32 vb; hton_vbuf (vb_vtype w) vb;; htonl_at vb.
Definition __ntohpmValueBlock (vb : Z) : M unit :=
  ntohl_at vb;; w ← load32 vb; ntoh_vbuf (vb_vtype w) vb.

(** ** In-place conversion *)

(** [conv o h n b b']: where [b] held [h], [b'] holds [n], and nothing else
    changed. *)
Definition conv (o : Z) (h n b b' : buf) : Prop := has b' o n ∧ framed o (zlen h) b b'.

Lemma framed_wider o n o' n' b b' :
  framed o n b b' → o' <= o → o + n <= o' + n' → framed o' n' b b'.
Proof. intros [L F] ? ?. split; [done |]. intros p x Hx Hd. apply F; [done | lia]. Qed.

Lemma conv_app o h1 n1 h2 n2 b b1 b2 :
  conv o h1 n1 b b1 → conv (o + zlen h1) h2 n2 b1 b2 → length n1 = length h1 →
  conv o (h1 ++ h2) (n1 ++ n2) b b2.
Proof.
  intros [H1 F1] [H2 F2] L. split.
  - rewrite has_app, L. split; [| done]. apply F2; [done | lia].
  - rewrite length_app. eapply framed_trans; [eapply framed_wider | eapply framed_wider]; eauto; lia.
Qed.
Lemma conv_has o h n b b' p x :
  conv o h n b b' → has b p x → p + zlen x <= o ∨ o + zlen h <= p → has b' p x.
Proof. intros [_ [_ F]]. auto. Qed.
Lemma conv_refl o h b : has b o h → conv o h h b b.
Proof. split; [done | apply framed_refl]. Qed.

(** To show a conversion, follow one arbitrary range outside of it. *)
Lemma wp_conv {A} (m : M A) E (P : A → Prop) o h n b :
  has b o h →
  (∀ p x, has b p x → p + zlen x <= o ∨ o + zlen h <= p →
     wp m E (λ a b', length b' = length b ∧ P a ∧ has b' o n ∧ has b' p x) b) →
  wp m E (λ a b', P a ∧ conv o h n b b') b.
Proof.
  intros Hh H. pose proof (has_length _ _ _ Hh) as Hl.
  pose proof (H 0 [] ltac:(apply has_nil; lia) ltac:(left; simpl; lia)) as H0.
  unfold wp in *. destruct (m b) as [[a b']| |] eqn:Em; [| done | done].
  destruct H0 as (L & HP & Hn & _). split; [done |]. split; [done |]. split; [done |].
  intros p x Hx Hd. specialize (H p x Hx Hd). tauto.
Qed.

(** Reversing the first [k] bytes. *)
Definition rev_first (k : nat) (s : buf) : buf := rev (take k s) ++ drop k s.
Lemma length_rev_first k s : length (rev_first k s) = length s.
Proof. unfold rev_first. lens. Qed.
#[export] Hint Rewrite length_rev_first : lens.
Lemma rev_first_involutive k s : rev_first k (rev_first k s) = s.
Proof.
  unfold rev_first. destruct (decide (k <= length s)%nat).
  - rewrite take_app_length', drop_app_length' by lens. by rewrite rev_involutive, take_drop.
  - rewrite (take_ge s), (drop_ge s), !app_nil_r by lia. rewrite take_ge, drop_ge by lens.
    by rewrite rev_involutive, app_nil_r.
Qed.

Definition swab_size (vtype : Z) : nat :=
  if (vtype =? PM_TYPE_32) || (vtype =? PM_TYPE_U32) then 4
  else if (vtype =? PM_TYPE_64) || (vtype =? PM_TYPE_U64) then 8
  else if vtype =? PM_TYPE_DOUBLE then 8
  else if vtype =? PM_TYPE_FLOAT then 4
  else 0.

Lemma wp_htonl_rev E p w (Q : unit → buf → Prop) b :
  has b p w → length w = 4%nat →
  (∀ b', length b' = length b → has b' p (rev w) →
     (∀ o x, has b o x → o + zlen x <= p ∨ p + 4 <= o → has b' o x) → Q tt b') →
  wp (htonl_at p) E Q b.
Proof.
  intros Hb Hw HQ. pose proof (has_length _ _ _ Hb). unfold htonl_at. wp1.
  eapply wp_load32_has; [done | done |]. apply wp_store32_frame; [lia | lia |].
  intros b' L N F. apply HQ; [done | | done]. by rewrite le32_htonl, be32_le_combine in N.
Qed.

(** All the in-place conversions of a scalar reverse its bytes. *)
Lemma wp_swab_param E vtype o s (Q : unit → buf → Prop) b :
  has b o s → (swab_size vtype <= length s)%nat →
  (∀ b', length b' = length b → has b' o (rev_first (swab_size vtype) s) →
     (∀ p x, has b p x → p + zlen x <= o ∨ o + zlen s <= p → has b' p x) → Q tt b') →
  wp (swab_param vtype o) E Q b.
Proof.
  intros Hs Hl HQ. unfold swab_param, swab_size in *.
  assert (∀ k : nat, (k <= length s)%nat → has b o (take k s) ∧ has b (o + Z.of_nat k) (drop k s)) as Hk.
  { intros k Hk. rewrite <- (take_drop k s), has_app, length_take_le in Hs by done. done. }
  assert (∀ (k : nat) b', (k <= length s)%nat → length b' = length b → has b' o (rev (take k s)) →
    (∀ p x, has b p x → p + zlen x <= o ∨ o + Z.of_nat k <= p → has b' p x) →
    has b' o (rev_first k s) ∧
    (∀ p x, has b p x → p + zlen x <= o ∨ o + zlen s <= p → has b' p x)) as Hfin.
  { intros k b' Hks L N F. destruct (Hk k Hks) as [_ Hd]. split.
    - unfold rev_first. rewrite has_app. split; [done |].
      rewrite length_rev, length_take_le by done. apply F; [done | lia].
    - intros p x Hx Hp. apply F; [done | lia]. }
  repeat case_match;
    [ destruct (Hk 4%nat) as [Ht _]; [done |]; eapply wp_htonl_rev; [exact Ht | lens |]
    | destruct (Hk 8%nat) as [Ht _]; [done |]; eapply wp_htonll_has; [exact Ht | lens |]
    | destruct (Hk 8%nat) as [Ht _]; [done |]; eapply wp_htonll_has; [exact Ht | lens |]
    | destruct (Hk 4%nat) as [Ht _]; [done |]; eapply wp_htonf_has; [exact Ht | lens |]
    | apply wp_ret, HQ; by rewrite ?app_nil_l ].
  all: intros b' L N F; destruct (Hfin _ b' Hl L N F); by apply HQ.
Qed.

(** ** Events as data *)

(** A parameter: its bytes run to the next word boundary. *)
Record eparam := mkEparam { ep_pmid : Z; ep_type : Z; ep_len : Z; ep_bytes : buf }.
Record erecord := mkErecord {
  er_sec : Z; er_usec : Z; er_flags : Z; er_nparams : Z; er_params : list eparam
}.
Definition eparam_wf (p : eparam) : Prop :=
  0 <= ep_type p < 256 ∧ 0 <= ep_len p < 2^24
  ∧ PM_PDU_SIZE_BYTES (ep_len p) = 4 + zlen (ep_bytes p)
  ∧ (swab_size (ep_type p) <= length (ep_bytes p))%nat.
Definition erecord_wf (r : erecord) : Prop :=
  record_nparams (u32 (er_flags r)) (u32 (er_nparams r)) = length (er_params r)
  ∧ Forall eparam_wf (er_params r).
Definition ep_word (p : eparam) : Z := vb_word (ep_len p) (ep_type p).

Section layout.
(** [word]: the bytes of a word; [val]: those of a value of some type. *)
Context (word : Z → buf) (val : Z → buf → buf).
Definition eparam_bytes (p : eparam) : buf :=
  word (ep_pmid p) ++ word (ep_word p) ++ val (ep_type p) (ep_bytes p).
Definition erecord_bytes (r : erecord) : buf :=
  word (er_sec r) ++ word (er_usec r) ++ word (er_flags r) ++ word (er_nparams r)
  ++ concat (eparam_bytes <$> er_params r).
Definition erecords_bytes (l : list erecord) : buf := concat (erecord_bytes <$> l).
End layout.
Definition host_val (ty : Z) (s : buf) : buf := s.
Definition net_val (ty : Z) (s : buf) : buf := rev_first (swab_size ty) s.

Lemma vb_word_fields len ty :
  0 <= ty < 256 → 0 <= len < 2^24 →
  is_u32 (vb_word len ty) ∧ vb_vlen (vb_word len ty) = len ∧ vb_vtype (vb_word len ty) = ty.
Proof. intros. unfold vb_vlen, vb_vtype, vb_word. split_and!; bitfields. Qed.

Lemma length_net_val ty s : length (net_val ty s) = length s.
Proof. unfold net_val. lens. Qed.
Lemma length_host_val ty s : length (host_val ty s) = length s.
Proof. done. Qed.
#[export] Hint Rewrite length_net_val length_host_val : lens.

(** One range outside of a converted one survives. *)
Ltac conv_keep C := match type of C with conv _ _ _ ?b ?b' =>
  repeat match goal with
  | H : has b ?p ?x |- _ =>
      let H' := fresh H in
      first [assert (has b' p x) as H' by (apply (conv_has _ _ _ _ _ _ _ C H); lens); clear H | clear H]
  end end.

Ltac wp_ext ::= lazymatch goal with
  | |- wp (htonl_at _) _ _ _ => unfold htonl_at
  | |- wp (ntohl_at _) _ _ _ => unfold ntohl_at
  | |- wp (swab_param _ _) _ _ ?b =>
      let b' := fresh "b" in let L := fresh "Hlen" in let N := fresh "Hhas" in
      let F := fresh "F" in
      eapply wp_swab_param; [has_tac | lens |]; intros b' L N F; frame_has b b' F
  end.

(** [converts f h n]: [f] turns [h] into [n] in place and steps over it. *)
Definition converts (f : Z → M Z) (h n : buf) : Prop :=
  ∀ E o b, has b o h → wp (f o) E (λ a b', a = o + zlen h ∧ conv o h n b b') b.

Lemma iter_at_converts {A} (f : Z → M Z) (h n : A → buf) l :
  Forall (λ x, converts f (h x) (n x) ∧ length (n x) = length (h x)) l →
  converts (λ o, iter_at f o (length l)) (concat (h <$> l)) (concat (n <$> l))
  ∧ length (concat (n <$> l)) = length (concat (h <$> l)).
Proof.
  induction 1 as [|x l [Hc Hl] _ [IH IHl]].
  - split; [| done]. intros E o b Hb. apply wp_ret. split; [simpl; lia | by apply conv_refl].
  - rewrite !fmap_cons. cbn [concat]. split; [| rewrite !length_app; lia].
    intros E o b Hb. apply has_app in Hb as [H1 H2]. cbn [iter_at length]. apply wp_bind.
    eapply wp_mono; [| by apply Hc]. intros ? b1 [-> C1].
    eapply wp_mono; [| apply IH, (conv_has _ _ _ _ _ _ _ C1 H2); lia].
    intros ? b2 [-> C2]. split; [lens | by eapply conv_app].
Qed.

Lemma param_converts p :
  eparam_wf p →
  converts hton_param (eparam_bytes le32 host_val p) (eparam_bytes be32 net_val p)
  ∧ converts ntoh_param (eparam_bytes be32 net_val p) (eparam_bytes le32 host_val p)
  ∧ length (eparam_bytes be32 net_val p) = length (eparam_bytes le32 host_val p).
Proof.
  intros (Ht & Hl & Hs & Hsw).
  destruct (vb_word_fields (ep_len p) (ep_type p) Ht Hl) as (Hw & El & Et). fold (ep_word p) in *.
  split_and!; [intros E o b Hb | intros E o b Hb | unfold eparam_bytes; lens].
  all: apply wp_conv; [done |]; intros q x Hx Hd.
  all: unfold eparam_bytes, host_val, net_val, hton_param, ntoh_param in *;
    autorewrite with lens in Hd; has_split.
  - repeat (wp1; rewrite ?u32_id, ?Et in * by done).
    rewrite El. autorewrite with word in *. split_and!; [lia | lens | has_join | done].
  - repeat (wp1; rewrite ?u32_id, ?Et in * by done).
    rewrite El, rev_first_involutive in *. autorewrite with word in *.
    split_and!; [lia | lens | has_join | done].
Qed.

Lemma params_converts ps :
  Forall eparam_wf ps →
  converts (λ o, iter_at hton_param o (length ps)) (concat (eparam_bytes le32 host_val <$> ps))
    (concat (eparam_bytes be32 net_val <$> ps))
  ∧ converts (λ o, iter_at ntoh_param o (length ps)) (concat (eparam_bytes be32 net_val <$> ps))
    (concat (eparam_bytes le32 host_val <$> ps))
  ∧ length (concat (eparam_bytes be32 net_val <$> ps)) = length (concat (eparam_bytes le32 host_val <$> ps)).
Proof.
  intros Hwf.
  destruct (iter_at_converts hton_param (eparam_bytes le32 host_val) (eparam_bytes be32 net_val) ps) as [H1 L].
  { eapply Forall_impl; [exact Hwf |]. intros p (? & ? & ?)%param_converts. by split. }
  destruct (iter_at_converts ntoh_param (eparam_bytes be32 net_val) (eparam_bytes le32 host_val) ps) as [H2 _].
  { eapply Forall_impl; [exact Hwf |]. intros p (? & ? & ?)%param_converts. by split. }
  done.
Qed.

(** The four words before the parameters, and then the parameters. *)
Lemma record_converts r :
  erecord_wf r →
  converts hton_record (erecord_bytes le32 host_val r) (erecord_bytes be32 net_val r)
  ∧ converts ntoh_record (erecord_bytes be32 net_val r) (erecord_bytes le32 host_val r)
  ∧ length (erecord_bytes be32 net_val r) = length (erecord_bytes le32 host_val r).
Proof.
  intros [Hn Hwf]. destruct (params_converts _ Hwf) as (C1 & C2 & L). unfold erecord_bytes.
  set (hp := concat (eparam_bytes le32 _ <$> _)) in *. set (np := concat (eparam_bytes be32 _ <$> _)) in *.
  split_and!; [intros E o b Hb | intros E o b Hb | lens].
  all: apply wp_conv; [done |]; intros q x Hx Hd; autorewrite with lens in Hd; has_split;
    unfold hton_record, ntoh_record; repeat wp1; rewrite ?u32_u32, Hn.
  - eapply wp_mono; [| apply C1; has_tac]. intros ? b' [-> C]. pose proof C as [N [L' _]]. conv_keep C.
    autorewrite with word in *. split_and!; [lia | lens | has_join | done].
  - eapply wp_mono; [| apply C2; has_tac]. intros ? b' [-> C]. pose proof C as [N [L' _]]. conv_keep C.
    autorewrite with word in *. split_and!; [lia | lens | has_join | done].
Qed.

Lemma records_converts l :
  Forall erecord_wf l →
  converts (λ o, iter_at hton_record o (length l)) (erecords_bytes le32 host_val l) (erecords_bytes be32 net_val l)
  ∧ converts (λ o, iter_at ntoh_record o (length l)) (erecords_bytes be32 net_val l) (erecords_bytes le32 host_val l)
  ∧ length (erecords_bytes be32 net_val l) = length (erecords_bytes le32 host_val l).
Proof.
  intros Hwf.
  destruct (iter_at_converts hton_record (erecord_bytes le32 host_val) (erecord_bytes be32 net_val) l) as [H1 L].
  { eapply Forall_impl; [exact Hwf |]. intros p (? & ? & ?)%record_converts. by split. }
  destruct (iter_at_converts ntoh_record (erecord_bytes be32 net_val) (erecord_bytes le32 host_val) l) as [H2 _].
  { eapply Forall_impl; [exact Hwf |]. intros p (? & ? & ?)%record_converts. by split. }
  done.
Qed.

(** ** Value blocks as data *)

(** [vlen] is the header and the length of [vbuf]. *)
Record pmValueBlock := mkVB { vtype : Z; vbuf : buf }.
Definition vlen (v : pmValueBlock) : Z := PM_VAL_HDR_SIZE + zlen (vbuf v).
(** The block in host memory. *)
Definition vb_bytes (v : pmValueBlock) : buf := le32 (vb_word (vlen v) (vtype v)) ++ vbuf v.

(** How many bytes of a scalar block are reversed. *)
Definition vb_swab (ty : Z) : nat :=
  if (ty =? PM_TYPE_U64) || (ty =? PM_TYPE_64) then 8
  else if ty =? PM_TYPE_DOUBLE then 8 else if ty =? PM_TYPE_FLOAT then 4 else 0.
Definition is_event_array (s : buf) : Prop :=
  ∃ l, Forall erecord_wf l ∧ zlen l < 2^31 ∧ s = le32 (zlen l) ++ erecords_bytes le32 host_val l.
Definition vb_wf (v : pmValueBlock) : Prop :=
  0 <= vtype v < 256 ∧ vlen v < 2^24
  ∧ (vb_swab (vtype v) <= length (vbuf v))%nat
  ∧ (vtype v = PM_TYPE_EVENT → is_event_array (vbuf v)).

Definition converts_unit (f : Z → M unit) (h n : buf) : Prop :=
  ∀ E o b, has b o h → wp (f o) E (λ _ b', conv o h n b b') b.

Lemma wp_conv_unit (m : M unit) E o h n b :
  has b o h →
  (∀ p x, has b p x → p + zlen x <= o ∨ o + zlen h <= p →
     wp m E (λ _ b', length b' = length b ∧ has b' o n ∧ has b' p x) b) →
  wp m E (λ _ b', conv o h n b b') b.
Proof.
  intros Hh H. eapply wp_mono; [| eapply (wp_conv _ _ (λ _, True)); [done |]].
  - by intros [] b' [_ ?].
  - intros p x Hx Hd. eapply wp_mono; [| by apply H]. naive_solver.
Qed.

Lemma event_converts s rest w :
  is_event_array s → ∃ n, length n = length s
    ∧ converts_unit htonEventArray (le32 w ++ s ++ rest) (le32 w ++ n ++ rest)
    ∧ converts_unit ntohEventArray (le32 w ++ n ++ rest) (le32 w ++ s ++ rest).
Proof.
  intros (l & Hwf & Hl & ->). destruct (records_converts l Hwf) as (C1 & C2 & L).
  set (h := erecords_bytes le32 _ _) in *. set (n := erecords_bytes be32 _ _) in *.
  exists (be32 (zlen l) ++ n). split; [lens |]. split.
  all: intros E o b Hb; apply wp_conv_unit; [done |]; intros q x Hx Hd; autorewrite with lens in Hd;
    has_split; unfold htonEventArray, ntohEventArray.
  - repeat wp1. rewrite s32_u32_id, Nat2Z.id by (split; lia).
    eapply wp_mono; [| apply C1; has_tac]. intros ? b' [-> C]. pose proof C as [N [L' _]]. conv_keep C.
    repeat wp1. autorewrite with word in *. split_and!; [lia | has_join | done].
  - repeat wp1. rewrite u32_u32, s32_u32_id, Nat2Z.id by (split; lia).
    eapply wp_mono; [| apply C2; has_tac]. intros ? b' [-> C]. pose proof C as [N [L' _]]. conv_keep C.
    repeat wp1. autorewrite with word in *. split_and!; [lia | has_join | done].
Qed.

(** Every other type is converted by reversing a scalar, or not at all. *)
Lemma vbuf_scalar ty :
  ty ≠ PM_TYPE_EVENT → ∃ ty', swab_size ty' = vb_swab ty
    ∧ ∀ vb, hton_vbuf ty vb = swab_param ty' (vb + 4) ∧ ntoh_vbuf ty vb = swab_param ty' (vb + 4).
Proof.
  intros He. unfold hton_vbuf, ntoh_vbuf, vb_swab. rewrite (proj2 (Z.eqb_neq _ _) He).
  repeat case_match; [exists PM_TYPE_64 | exists PM_TYPE_DOUBLE | exists PM_TYPE_FLOAT | exists PM_TYPE_STRING];
    done.
Qed.

Lemma vbuf_converts v pad w :
  vb_wf v → ∃ n, length n = length (vbuf v ++ pad)
    ∧ converts_unit (hton_vbuf (vtype v)) (le32 w ++ vbuf v ++ pad) (le32 w ++ n)
    ∧ converts_unit (ntoh_vbuf (vtype v)) (le32 w ++ n) (le32 w ++ vbuf v ++ pad).
Proof.
  intros (Ht & Hl & Hsw & Hev). destruct (decide (vtype v = PM_TYPE_EVENT)) as [He|He].
  - destruct (event_converts _ pad w (Hev He)) as (n & Ln & C1 & C2).
    exists (n ++ pad). rewrite He. by rewrite !length_app, Ln.
  - destruct (vbuf_scalar _ He) as (ty & Hty & Heq). rewrite <- Hty in Hsw.
    exists (rev_first (swab_size ty) (vbuf v ++ pad)). split; [lens |]. split.
    all: intros E o b Hb; apply wp_conv_unit; [done |]; intros q x Hx Hd.
    all: destruct (Heq o) as [Eh En]; rewrite ?Eh, ?En; apply has_app in Hb as [? ?]; autorewrite with lens in Hd; wp1.
    all: rewrite ?rev_first_involutive in *; has_split; split_and!; [lia | has_join | done].
Qed.

(** Both directions of the conversion of a block, padded to a word boundary. *)
Lemma vb_converts v pad :
  vb_wf v → ∃ net, length net = length (vb_bytes v ++ pad)
    ∧ converts_unit __htonpmValueBlock (vb_bytes v ++ pad) net
    ∧ converts_unit __ntohpmValueBlock net (vb_bytes v ++ pad).
Proof.
  intros Hwf. pose proof Hwf as (Ht & Hl & _). unfold vb_bytes. set (w := vb_word (vlen v) (vtype v)).
  destruct (vb_word_fields (vlen v) (vtype v) Ht) as (Hw & _ & Et).
  { unfold vlen, PM_VAL_HDR_SIZE in *. lia. }
  fold w in Hw, Et. destruct (vbuf_converts v pad w Hwf) as (n & Ln & C1 & C2).
  exists (be32 w ++ n). split; [lens |].
  split; intros E o b Hb; rewrite <- ?app_assoc in *; apply wp_conv_unit; [done | | done |];
    intros q x Hx Hd; autorewrite with lens in Hd, Ln.
  - pose proof Hb as Hb'. apply has_app in Hb' as [? _]. unfold __htonpmValueBlock.
    do 3 wp1. rewrite u32_id, Et by done.
    eapply wp_mono; [| apply C1, Hb]. intros [] b' C. pose proof C as [N [L' _]].
    apply has_app in N as [? ?]. conv_keep C. repeat wp1. autorewrite with word in *.
    split_and!; [lia | has_join | done].
  - apply has_app in Hb as [? ?]. unfold __ntohpmValueBlock. repeat wp1.
    rewrite u32_u32, (u32_id w), Et by done. autorewrite with word in *.
    eapply wp_mono; [| apply C2; has_join]. intros [] b' C. pose proof C as [N [L' _]]. conv_keep C.
    split_and!; [lia | done | done].
Qed.

(** C6. Value blocks between host and network order.  For every well-formed block
    (a 64-bit or floating-point value, an event array with all its records and
    parameters, or bytes) and whatever follows it, there is one network form of the
    same length such that [__htonpmValueBlock] turns the block into it in place,
    [__ntohpmValueBlock] turns it back, and neither changes any other byte of the
    buffer. *)
Theorem value_block_converts v pad :
  vb_wf v → ∃ net, length net = length (vb_bytes v ++ pad)
    ∧ converts_unit __htonpmValueBlock (vb_bytes v ++ pad) net
    ∧ converts_unit __ntohpmValueBlock net (vb_bytes v ++ pad).
Proof. apply vb_converts. Qed.

Lemma value_block_converts_witness :
  let v := mkVB PM_TYPE_U64 (replicate 8 Byte.x07) in
  ∃ net, length net = length (vb_bytes v ++ [])
    ∧ converts_unit __htonpmValueBlock (vb_bytes v ++ []) net
    ∧ converts_unit __ntohpmValueBlock net (vb_bytes v ++ []).
Proof.
  intros v. apply (value_block_converts v []). split_and!; try done; vm_compute; lia.
Defined.
