(* ===== verification/PduResult.v ===== *)
(** PduResult: the metric values PDU, src/src/libpcp/src/p_result.c, the 64-bit
    variant: the decoder rebuilds the value sets in a second buffer and rebases
    the offsets of the value blocks. *)
From S2P Require Import Prelude Memory Types PduIO Endian PduSimple PduInstance ValueBlock.

(** ** Results *)

(** The [value] union: which member is in use follows from [valfmt]. *)
Inductive value := Lval (l : Z) | Pval (v : pmValueBlock).
Record pmValue := mkValue { inst : Z; val : value }.
(** [numval] is negative for an error; [valfmt] has a meaning when there are
    values. *)
Record pmValueSet := mkVset { vpmid : Z; numval : Z; valfmt : Z; vlist : list pmValue }.
(** [struct timeval] with its 64-bit seconds and microseconds; [numpmid] is the
    length of [vset]. *)
Record pmResult := mkResult { stamp_sec : Z; stamp_usec : Z; vset : list pmValueSet }.

(** Using the member of the union that is not there. *)
Definition wrong_member {A} : M A := λ _, Fault.

Module Result.
Definition sizeof_vlist_t : Z := 20.
Definition sizeof_result_t : Z := 28.
Definition sizeof_Value_PDU : Z := 8.
Definition sizeof_pmResult : Z := 32.
Definition sizeof_pmValueSet : Z := 32.
Definition sizeof_pmValue : Z := 16.
Definition sizeof_pmValueBlock : Z := 8.

(** *** Encoding *)

(** The bytes for the PDU, and those for the value blocks on the end. *)
Fixpoint need_values (vs : pmValueSet) (j n : nat) (need vneed : Z) : M (Z * Z) :=
  match n with
  | O => mret (need, vneed)
  | S n =>
      x ← index (vlist vs) j;
      if negb (valfmt vs =? PM_VAL_INSITU) then
        match val x with
        | Pval v => need_values vs (S j) n (need + sizeof_Value_PDU)
                      (vneed + PM_PDU_SIZE_BYTES (vlen v))
        | Lval _ => wrong_member
        end
      else need_values vs (S j) n (need + sizeof_Value_PDU) vneed
  end.
Fixpoint need_vsets (l : list pmValueSet) (need vneed : Z) : M (Z * Z) :=
  match l with
  | [] => mret (need, vneed)
  | vs :: l =>
      r ← need_values vs 0 (Z.to_nat (numval vs)) (need + (4 + 4)) vneed;
      need_vsets l (if 0 <? numval vs then r.1 + 4 else r.1) r.2
  end.

(** [vlp] is the position of the [vlist_t], [vbp] that of the next value block;
    the result is [vbp] after the values. *)
Fixpoint fill_values (vs : pmValueSet) (vlp : Z) (j n : nat) (vbp : Z) : M Z :=
  match n with
  | O => mret vbp
  | S n =>
      x ← index (vlist vs) j;
      let vp := vlp + 12 + 8 * Z.of_nat j in
      store32 vp (htonl (inst x));;
      if valfmt vs =? PM_VAL_INSITU then
        match val x with
        | Lval l => store32 (vp + 4) (htonl l);; fill_values vs vlp (S j) n vbp
        | Pval _ => wrong_member
        end
      else
        match val x with
        | Pval v =>
            let nb := vlen v in
            storen vbp (vb_bytes v);;
            tilde_pad vbp nb;;
            __htonpmValueBlock vbp;;
            store32 (vp + 4) (htonl (s32 (vbp / 4)));;
            fill_values vs vlp (S j) n (vbp + 4 * PM_PDU_SIZE nb)
        | Lval _ => wrong_member
        end
  end.
Fixpoint fill_vsets (l : list pmValueSet) (vlp vbp : Z) : M unit :=
  match l with
  | [] => mret tt
  | vs :: l =>
      store32 vlp (htonl (vpmid vs));;
      (if 0 <? numval vs then store32 (vlp + 8) (htonl (valfmt vs)) else mret tt);;
      vbp ← fill_values vs vlp 0 (Z.to_nat (numval vs)) vbp;
      store32 (vlp + 4) (htonl (numval vs));;
      fill_vsets l (if 0 <? numval vs then vlp + sizeof_vlist_t + (numval vs - 1) * sizeof_Value_PDU
                    else vlp + 4 + 4) vbp
  end.

Definition encode (result : pmResult) (need vneed : Z) : M unit :=
  store32 0 (s32 (need + vneed));;
  store32 4 PDU_RESULT;;
  store32 12 (htonl (s32 (stamp_sec result)));;
  store32 16 (htonl (s32 (stamp_usec result)));;
  store32 20 (htonl (zlen (vset result)));;
  fill_vsets (vset result) 24 (4 * (need / 4)).

Section send.
Context `{PduAlloc}.
Definition __pmEncodeResult (result : pmResult) : res buf :=
  '(need, vneed, _) ← need_vsets (vset result) (sizeof_result_t - 4) 0 [];
  fill_pdu (s32 (need + vneed)) (encode result need vneed).
Definition __pmSendResult (fd : Xmit.wfd) (from : Z) (result : pmResult) : res (Z * buf) :=
  b ← __pmEncodeResult result;
  '(_, b) ← store32 8 from b;
  fst <$> Xmit.__pmXmitPDU fd b.
End send.

(** *** Decoding *)

(** First pass over the values of one metric: [vsplit] is the smallest value
    block position seen, [vbsize] the size of the blocks. *)
Fixpoint scan_values (len vlp : Z) (j n : nat) (vsplit vbsize : Z) : M (Z * Z) :=
  match n with
  | O => mret (vsplit, vbsize)
  | S n =>
      let pduvp := vlp + 12 + 8 * Z.of_nat j in
      check (u64 (len - pduvp) <? sizeof_Value_PDU) PM_ERR_IPC;;
      w ← load32 (pduvp + 4);
      let index := s32 (ntohl w) in
      check ((index <? 0) || (len <? index)) PM_ERR_IPC;;
      let pduvbp := 4 * index in
      let vsplit := if pduvbp <? vsplit then pduvbp else vsplit in
      check (u64 (len - pduvbp) <? 4) PM_ERR_IPC;;
      __ntohpmValueBlock pduvbp;;
      h ← load32 pduvbp;
      let vlen := vb_vlen h in
      check ((vlen <? PM_VAL_HDR_SIZE) || (len <? vlen)) PM_ERR_IPC;;
      check (u64 (len - pduvbp) <? vlen) PM_ERR_IPC;;
      scan_values len vlp (S j) n vsplit (s32 (vbsize + PM_PDU_SIZE_BYTES vlen))
  end.

Record sizes := mkSizes { vsize : Z; nvsize : Z; vbsize : Z; vsplit : Z }.

(** One metric of the first pass. *)
Definition scan_vset (len : Z) (s : sizes) : M sizes :=
  let vlp := 24 + 4 * (u64 (vsize s) / 4) in
  check (u64 (len - vlp) <? sizeof_vlist_t - 8 - 4) PM_ERR_IPC;;
  nw ← load32 (vlp + 4); fw ← load32 (vlp + 8);
  let vsz := s32 (vsize s + (4 + 4)) in
  let nvsz := s32 (nvsize s + sizeof_pmValueSet) in
  let numval := s32 (ntohl nw) in
  let valfmt := s32 (ntohl fw) in
  check (len <? numval) PM_ERR_IPC;;
  if 0 <? numval then
    check (u64 (len - vlp) <? sizeof_vlist_t - 8) PM_ERR_IPC;;
    check ((INT_MAX - sizeof_vlist_t) / sizeof_Value_PDU <=? numval) PM_ERR_IPC;;
    let vsz := s32 (vsz + (4 + numval * sizeof_Value_PDU)) in
    let nvsz := s32 (nvsz + (numval - 1) * sizeof_pmValue) in
    r ← (if negb (valfmt =? PM_VAL_INSITU)
         then scan_values len vlp 0 (Z.to_nat numval) (vsplit s) (vbsize s)
         else mret (vsplit s, vbsize s));
    mret (mkSizes vsz nvsz r.2 r.1)
  else mret (mkSizes vsz nvsz (vbsize s) (vsplit s)).
Fixpoint scan_vsets (len : Z) (n : nat) (s : sizes) : M sizes :=
  match n with
  | O => mret s
  | S n => s ← scan_vset len s; scan_vsets len n s
  end.

(** A value of the new buffer: in situ, or a pointer as an offset into it. *)
Inductive nvalue := NLval (l : Z) | NPval (off : Z).
Record nvset := mkNvset { n_pmid : Z; n_numval : Z; n_valfmt : option Z; n_vlist : list (Z * nvalue) }.

(** Run [m] on the new buffer. *)
Definition in_newbuf {A} (m : M A) (nb : buf) : M buf := λ b,
  match m nb with Ok (_, nb') => Ok (nb', b) | Err e => Err e | Fault => Fault end.
(** A write of [n] bytes of a struct at [o] of the new buffer [newbuf]. *)
Definition touch (newbuf : buf) (o n : Z) : M unit := λ b,
  if (0 <=? o) && (o + n <=? zlen newbuf) then Ok (tt, b) else Fault.

Section build.
Context (newbuf : buf) (offset : Z).
Fixpoint build_values (vfmt vlp nvsp : Z) (j n : nat) : M (list (Z * nvalue)) :=
  match n with
  | O => mret []
  | S n =>
      let vp := vlp + 12 + 8 * Z.of_nat j in
      touch newbuf (nvsp + 16 + 16 * Z.of_nat j) 16;;
      i ← load32 vp; w ← load32 (vp + 4);
      let v := if vfmt =? PM_VAL_INSITU then NLval (s32 (ntohl w))
               else NPval (s32 (4 * ntohl w + offset)) in
      r ← build_values vfmt vlp nvsp (S j) n;
      mret ((s32 (ntohl i), v) :: r)
  end.
Fixpoint build_vsets (n : nat) (vsize nvsize : Z) : M (list nvset) :=
  match n with
  | O => mret []
  | S n =>
      let vlp := 24 + 4 * (u64 vsize / 4) in
      let nvsp := nvsize in
      touch newbuf nvsp 16;;
      p ← load32 vlp; w ← load32 (vlp + 4);
      let numval := s32 (ntohl w) in
      let vsize := s32 (vsize + (4 + 4)) in
      let nvsize := s32 (nvsize + sizeof_pmValueSet) in
      if 0 <? numval then
        f ← load32 (vlp + 8);
        let vfmt := s32 (ntohl f) in
        let vsize := s32 (vsize + (4 + numval * sizeof_Value_PDU)) in
        let nvsize := s32 (nvsize + (numval - 1) * sizeof_pmValue) in
        l ← build_values vfmt vlp nvsp 0 (Z.to_nat numval);
        r ← build_vsets n vsize nvsize;
        mret (mkNvset (ntohl p) numval (Some vfmt) l :: r)
      else
        r ← build_vsets n vsize nvsize;
        mret (mkNvset (ntohl p) numval None [] :: r)
  end.
End build.

(** From the checks on the sizes on: the value blocks are copied across, and the
    value sets built. *)
Definition rebuild `{PduAlloc} (len numpmid : Z) (s : sizes) : M (list nvset * buf) :=
  let need := s32 (nvsize s + vbsize s) in
  let offset := s32 (sizeof_result_t - 4 + vsize s) in
  check ((need <? 0) || (INT_MAX / 4 <? u64 (vsize s)) || (INT_MAX / sizeof_pmValueBlock <? u64 (vbsize s))
         || negb (offset =? len - (len - vsplit s)) || negb (offset + vbsize s =? len)) PM_ERR_IPC;;
  match find_pdubuf need with
  | None => fail (- oserror)
  | Some nb =>
      nb ← (if negb (vbsize s =? 0) then
              vbs ← loadn (24 + 4 * (vsize s / 4)) (vbsize s);
              in_newbuf (storen (nvsize s) vbs) nb
            else mret nb);
      let offset := s32 (nvsize s - vsize s - 12 - 8 - 4) in
      l ← build_vsets nb offset (Z.to_nat numpmid) 0 0;
      mret (l, nb)
  end.

(** The time stamp, the value sets, and the new buffer their pointers refer to. *)
Definition __pmDecodeResult `{PduAlloc} : M (Z * Z * list nvset * buf) :=
  len ← hdr_len;
  check (u64 len <? sizeof_result_t - 4) PM_ERR_IPC;;
  w ← load32 20;
  let numpmid := s32 (ntohl w) in
  check ((numpmid <? 0) || (len <? numpmid)) PM_ERR_IPC;;
  check ((INT_MAX - sizeof_pmResult) / 8 <=? numpmid) PM_ERR_IPC;;
  sec ← load32 12; usec ← load32 16;
  s ← scan_vsets len (Z.to_nat numpmid) (mkSizes 0 0 0 len);
  r ← rebuild len numpmid s;
  mret (ntohl sec, ntohl usec, r.1, r.2).

(** What a user of the result sees: pointers followed into the new buffer. *)
Definition view_value (nb : buf) (v : nvalue) : value :=
  match v with
  | NLval l => Lval l
  | NPval off =>
      let h := le_combine (get off 4 nb) in
      Pval (mkVB (vb_vtype h) (get (off + 4) (Z.to_nat (vb_vlen h - PM_VAL_HDR_SIZE)) nb))
  end.
Definition view_vset (nb : buf) (s : nvset) : pmValueSet :=
  mkVset (n_pmid s) (n_numval s) (default 0 (n_valfmt s))
    ((λ x, mkValue x.1 (view_value nb x.2)) <$> n_vlist s).
Definition view (r : Z * Z * list nvset * buf) : pmResult :=
  let '(sec, usec, l, nb) := r in mkResult sec usec (view_vset nb <$> l).
End Result.

#[export] Hint Unfold Result.sizeof_vlist_t Result.sizeof_result_t Result.sizeof_Value_PDU
  Result.sizeof_pmResult Result.sizeof_pmValueSet Result.sizeof_pmValue
  Result.sizeof_pmValueBlock : sizes.

(** ** The result on the wire *)

Import Result.

(** A value block in memory, filled up to a word boundary. *)
Definition vb_host (v : pmValueBlock) : buf := padded (vb_bytes v).
Definition net_of (v : pmValueBlock) (n : buf) : Prop :=
  length n = length (vb_host v) ∧ converts_unit __htonpmValueBlock (vb_host v) n
  ∧ converts_unit __ntohpmValueBlock n (vb_host v).

Definition val_block (x : pmValue) : option pmValueBlock :=
  match val x with Pval v => Some v | Lval _ => None end.
Definition vals_blocks (l : list pmValue) : list pmValueBlock := omap val_block l.
Definition hosts (l : list pmValueBlock) : buf := concat (vb_host <$> l).

(** The words of the values, when the next value block goes to [vbp]. *)
Fixpoint vals_bytes (l : list pmValue) (vbp : Z) : buf :=
  match l with
  | [] => []
  | x :: l =>
      be32 (inst x) ++
      match val x with
      | Lval z => be32 z ++ vals_bytes l vbp
      | Pval v => be32 (vbp / 4) ++ vals_bytes l (vbp + zlen (vb_host v))
      end
  end.
Definition vset_bytes (vs : pmValueSet) (vbp : Z) : buf :=
  be32 (vpmid vs) ++ be32 (numval vs)
  ++ (if 0 <? numval vs then be32 (valfmt vs) ++ vals_bytes (vlist vs) vbp else []).
Definition vset_blocks (vs : pmValueSet) : list pmValueBlock := vals_blocks (vlist vs).
Definition all_blocks (l : list pmValueSet) : list pmValueBlock := concat (vset_blocks <$> l).
Fixpoint vsets_bytes (l : list pmValueSet) (vbp : Z) : buf :=
  match l with
  | [] => []
  | vs :: l => vset_bytes vs vbp ++ vsets_bytes l (vbp + zlen (hosts (vset_blocks vs)))
  end.
(** Its size, which does not depend on where the blocks are. *)
Definition vset_size (vs : pmValueSet) : Z := if 0 <? numval vs then 12 + 8 * numval vs else 8.
Definition vsets_size (l : list pmValueSet) : Z := foldr (λ vs n, vset_size vs + n) 0 l.

Definition value_wf (fmt : Z) (x : pmValue) : Prop :=
  is_s32 (inst x) ∧ match val x with Lval l => fmt = 0 ∧ is_s32 l | Pval v => fmt ≠ 0 ∧ vb_wf v end.
Definition vset_wf (vs : pmValueSet) : Prop :=
  is_u32 (vpmid vs) ∧ is_s32 (numval vs) ∧ is_s32 (valfmt vs)
  ∧ zlen (vlist vs) = Z.max 0 (numval vs) ∧ Forall (value_wf (valfmt vs)) (vlist vs)
  ∧ (numval vs <= 0 → valfmt vs = 0).

Lemma vlen_bytes v : zlen (vb_bytes v) = vlen v.
Proof. unfold vb_bytes, vlen, PM_VAL_HDR_SIZE. lens. Qed.
Lemma length_vb_host v : zlen (vb_host v) = PM_PDU_SIZE_BYTES (vlen v).
Proof.
  unfold vb_host. rewrite length_padded, vlen_bytes.
  pose proof (pdu_size_bounds (vlen v)). unfold vlen, PM_VAL_HDR_SIZE in *. lia.
Qed.
Lemma vlen_pos v : 4 <= vlen v.
Proof. unfold vlen, PM_VAL_HDR_SIZE. lia. Qed.
Lemma vb_host_size v : 4 <= zlen (vb_host v) ∧ zlen (vb_host v) mod 4 = 0.
Proof.
  rewrite length_vb_host. split; [| apply pdu_size_mod].
  pose proof (pdu_size_bounds (vlen v)). pose proof (vlen_pos v). lia.
Qed.
Lemma hosts_cons v l : hosts (v :: l) = vb_host v ++ hosts l.
Proof. done. Qed.
Lemma hosts_app l k : hosts (l ++ k) = hosts l ++ hosts k.
Proof. unfold hosts. by rewrite fmap_app, concat_app. Qed.

Lemma length_vals_bytes l vbp : length (vals_bytes l vbp) = (8 * length l)%nat.
Proof.
  revert vbp. induction l as [|x l IH]; intros vbp; [done |]. cbn [vals_bytes].
  destruct (val x); rewrite !length_app, IH; lens.
Qed.
#[export] Hint Rewrite length_vals_bytes : lens.
Lemma length_vset_bytes vs vbp : vset_wf vs → zlen (vset_bytes vs vbp) = vset_size vs.
Proof.
  intros (_ & _ & _ & Hl & _). unfold vset_bytes, vset_size. case_match; lens.
Qed.
Lemma length_vsets_bytes l vbp : Forall vset_wf l → zlen (vsets_bytes l vbp) = vsets_size l.
Proof.
  intros H. revert vbp. induction H as [|vs l Hv _ IH]; intros vbp; [done |].
  cbn [vsets_bytes vsets_size foldr]. fold (vsets_size l).
  rewrite length_app, Nat2Z.inj_add, length_vset_bytes, IH by done. done.
Qed.
Lemma vset_size_pos vs : 8 <= vset_size vs.
Proof. unfold vset_size. case_match; lia. Qed.
Lemma vset_size_mod vs : vset_size vs mod 4 = 0.
Proof. unfold vset_size. case_match; [| done]. Z.to_euclidean_division_equations. lia. Qed.

(** Every well-formed block has an image in network order. *)
Lemma nets_exist l : Forall vb_wf l → ∃ ns, Forall2 net_of l ns.
Proof.
  induction 1 as [|v l Hv _ [ns IH]]; [exists []; constructor |].
  destruct (vb_converts v (replicate (Z.to_nat (PM_PDU_SIZE_BYTES (zlen (vb_bytes v)) - zlen (vb_bytes v))) tilde) Hv)
    as (n & Hn & C1 & C2). exists (n :: ns). constructor; [by split_and! | done].
Qed.
Lemma nets_length l ns : Forall2 net_of l ns → length (concat ns) = length (hosts l).
Proof.
  induction 1 as [|v n l ns (Hn & _) _ IH]; [done |]. rewrite hosts_cons. cbn [concat]. lens.
Qed.

Lemma vals_blocks_cons x l :
  vals_blocks (x :: l) = match val x with Lval _ => vals_blocks l | Pval v => v :: vals_blocks l end.
Proof. unfold vals_blocks, val_block. cbn [omap list_omap]. by destruct (val x). Qed.

Lemma drop_lookup {A} (l : list A) j x k : drop j l = x :: k → l !! j = Some x ∧ drop (S j) l = k.
Proof.
  intros E. split.
  - by rewrite <- (Nat.add_0_r j), <- lookup_drop, E.
  - replace (S j) with (j + 1)%nat by lia. by rewrite <- drop_drop, E.
Qed.

Lemma need_values_wp E vs l : ∀ j need vneed b (Q : Z * Z → buf → Prop),
  drop j (vlist vs) = l → Forall (value_wf (valfmt vs)) l →
  Q (need + 8 * zlen l, vneed + zlen (hosts (vals_blocks l))) b →
  wp (need_values vs j (length l) need vneed) E Q b.
Proof.
  induction l as [|x l IH]; intros j need vneed b Q Hd Hwf HQ; cbn [need_values length].
  - apply wp_ret. simpl in HQ. by rewrite !Z.add_0_r in HQ.
  - apply drop_lookup in Hd as [Hx Hd]. apply Forall_cons in Hwf as [[_ Hv] Hwf].
    eapply wp_bind, wp_index; [exact Hx |]. rewrite vals_blocks_cons in HQ.
    unfold PM_VAL_INSITU. sizes.
    destruct (val x) as [z|v]; destruct Hv as [Hf Hv].
    + rewrite Hf. simpl negb. cbv iota. apply IH; [done | done |].
      replace (need + 8 + 8 * zlen l) with (need + 8 * zlen (x :: l)) by (simpl; lia). done.
    + rewrite (proj2 (Z.eqb_neq _ _)) by done. simpl negb. cbv iota. apply IH; [done | done |].
      rewrite hosts_cons, length_app, Nat2Z.inj_add, length_vb_host in HQ.
      replace (need + 8 + 8 * zlen l) with (need + 8 * zlen (x :: l)) by (simpl; lia).
      by rewrite <- Z.add_assoc.
Qed.

Lemma need_vsets_wp E l : ∀ need vneed b (Q : Z * Z → buf → Prop),
  Forall vset_wf l → Q (need + vsets_size l, vneed + zlen (hosts (all_blocks l))) b →
  wp (need_vsets l need vneed) E Q b.
Proof.
  induction l as [|vs l IH]; intros need vneed b Q Hwf HQ; cbn [need_vsets].
  - apply wp_ret. simpl in HQ. by rewrite !Z.add_0_r in HQ.
  - apply Forall_cons in Hwf as [(_ & _ & _ & Hl & Hv & _) Hwf].
    apply wp_bind. replace (Z.to_nat (numval vs)) with (length (vlist vs)) by lia.
    apply need_values_wp; [done | done |]. cbn [fst snd]. apply IH; [done |].
    unfold all_blocks in *. cbn [vsets_size foldr fmap list_fmap concat] in HQ. fold (vsets_size l) in HQ.
    rewrite hosts_app, length_app, Nat2Z.inj_add in HQ. unfold vset_blocks in HQ at 1.
    match goal with |- Q (?a, ?c) _ => match type of HQ with Q (?a', ?c') _ =>
      replace a with a'; [replace c with c' by lia |] end end; [done |].
    unfold vset_size. case_match; lia.
Qed.

Ltac wp_ext ::= lazymatch goal with
  | |- wp (tilde_pad _ _) _ _ ?b =>
      let b' := fresh "b" in let L := fresh "Hlen" in let N := fresh "Hhas" in
      let F := fresh "F" in
      eapply wp_tilde_pad; [has_tac | lens | rewrite <- ?length_vb_host; hlens |];
      intros b' L N F; rewrite <- ?length_vb_host in F; frame_has b b' F
  end.

(** The values of one metric: [pre] is what the PDU holds at its start, [vr] the
    value words so far, from [vr0] on, and [vb] the blocks so far, from [vb0] on. *)
Lemma fill_values_wp E vs vlp vr0 vb0 pre l : ∀ ns j vbp vr vb b (Q : Z → buf → Prop),
  drop j (vlist vs) = l → Forall (value_wf (valfmt vs)) l → Forall2 net_of (vals_blocks l) ns →
  has b 0 pre → zlen pre <= vr0 → has b vr0 vr → vr0 + zlen vr = vlp + 12 + 8 * Z.of_nat j →
  has b vb0 vb → vb0 + zlen vb = vbp → vr0 + zlen vr + 8 * zlen l <= vb0 →
  vbp mod 4 = 0 → vbp + zlen (hosts (vals_blocks l)) <= zlen b → vbp + zlen (hosts (vals_blocks l)) < 2^31 →
  (∀ b', length b' = length b → has b' 0 pre → has b' vr0 (vr ++ vals_bytes l vbp) →
     has b' vb0 (vb ++ concat ns) → Q (vbp + zlen (hosts (vals_blocks l))) b') →
  wp (fill_values vs vlp j (length l) vbp) E Q b.
Proof.
  induction l as [|x l IH];
    intros ns j vbp vr vb b Q Hd Hwf Hns Hpre Hpl Hvr Hvl Hvb Hbl Hsep Hm Hb Hlt HQ;
    cbn [fill_values length].
  - inversion Hns; subst ns. apply wp_ret. specialize (HQ b). simpl in HQ. rewrite Z.add_0_r in HQ.
    apply HQ; by rewrite ?app_nil_r.
  - apply drop_lookup in Hd as [Hx Hd]. apply Forall_cons in Hwf as [[Hi Hv] Hwf].
    eapply wp_bind, wp_index; [exact Hx |].
    rewrite vals_blocks_cons in *. cbn [vals_bytes] in HQ.
    rewrite length_cons in Hsep. unfold PM_VAL_INSITU.
    destruct (val x) as [z|v]; destruct Hv as [Hf Hv].
    + rewrite Hf. simpl (0 =? 0). cbv iota. repeat wp1.
      apply (IH ns _ _ (vr ++ be32 (inst x) ++ be32 z) vb); try done; [has_join | lens | lens | lens |].
      intros b' L N1 N2 N3. rewrite <- !app_assoc in N2. apply HQ; [lia | done ..].
    + rewrite (proj2 (Z.eqb_neq _ _)) by done.
      apply Forall2_cons_inv_l in Hns as (n & ns' & (Ln & C1 & _) & Hns' & ->).
      pose proof (vb_host_size v) as [Hv4 Hvm].
      rewrite hosts_cons, length_app, Nat2Z.inj_add in Hb, Hlt, HQ.
      pose proof (pdu_size_bounds (vlen v)). pose proof (vlen_pos v).
      pose proof (vlen_bytes v). rewrite <- length_vb_host in *.
      rewrite s32_id by (split; Z.to_euclidean_division_equations; lia).
      repeat wp1. fold (vb_host v) in *.
      eapply wp_mono; [| apply C1; has_tac]. intros [] b' C. pose proof C as [N [L' _]]. conv_keep C.
      repeat wp1. replace (4 * PM_PDU_SIZE (vlen v)) with (zlen (vb_host v)) by (by rewrite length_vb_host).
      apply (IH ns' _ _ (vr ++ be32 (inst x) ++ be32 (vbp / 4)) (vb ++ n)); try done;
        [has_join | lens | has_join | lens | lens | | lens | lens |].
      * clear -Hm Hvm. Z.to_euclidean_division_equations. lia.
      * intros b'' L N1 N2 N3. rewrite <- !app_assoc in *. rewrite Z.add_assoc in HQ.
        apply HQ; [lia | done ..].
Qed.

Lemma all_blocks_cons vs l : all_blocks (vs :: l) = vset_blocks vs ++ all_blocks l.
Proof. done. Qed.
Lemma hosts_mod l : zlen (hosts l) mod 4 = 0.
Proof.
  induction l as [|v l IH]; [done |]. rewrite hosts_cons, length_app, Nat2Z.inj_add.
  pose proof (vb_host_size v) as [_ Hv]. clear -IH Hv. Z.to_euclidean_division_equations. lia.
Qed.

Lemma fill_vsets_wp E vb0 l : ∀ ns vlp vbp pre vb b (Q : unit → buf → Prop),
  Forall vset_wf l → Forall2 net_of (all_blocks l) ns → has b 0 pre → zlen pre = vlp →
  vlp + vsets_size l <= vb0 → has b vb0 vb → vb0 + zlen vb = vbp → vbp mod 4 = 0 →
  vbp + zlen (hosts (all_blocks l)) <= zlen b → vbp + zlen (hosts (all_blocks l)) < 2^31 →
  (∀ b', length b' = length b → has b' 0 (pre ++ vsets_bytes l vbp) → has b' vb0 (vb ++ concat ns) → Q tt b') →
  wp (fill_vsets l vlp vbp) E Q b.
Proof.
  induction l as [|vs l IH]; intros ns vlp vbp pre vb b Q Hwf Hns Hpre Hpl Hsep Hvb Hbl Hm Hb Hlt HQ;
    cbn [fill_vsets].
  - inversion Hns; subst ns. apply wp_ret, HQ; [done | |]; by rewrite app_nil_r.
  - apply Forall_cons in Hwf as [Hv Hwf]. pose proof Hv as (_ & _ & _ & Hl & Hvals & _).
    rewrite all_blocks_cons in *. apply Forall2_app_inv_l in Hns as (ns1 & ns2 & Hns1 & Hns2 & ->).
    rewrite hosts_app, length_app, Nat2Z.inj_add in Hb, Hlt. rewrite concat_app in HQ.
    cbn [vsets_bytes vsets_size foldr] in *. fold (vsets_size l) in *.
    assert (0 <= vsets_size l) by (rewrite <- (length_vsets_bytes l 0) by done; lia).
    pose proof (hosts_mod (vset_blocks vs)) as Hhm. pose proof (nets_length _ _ Hns1) as Ln1.
    assert (∀ b', length b' = length b → has b' 0 (pre ++ vset_bytes vs vbp) → has b' vb0 (vb ++ concat ns1) →
      wp (fill_vsets l (vlp + vset_size vs) (vbp + zlen (hosts (vset_blocks vs)))) E Q b') as Hrest.
    { intros b' L N1 N2.
      apply (IH ns2 _ _ (pre ++ vset_bytes vs vbp) (vb ++ concat ns1)); try done;
        [rewrite length_app, Nat2Z.inj_add, length_vset_bytes by done; lia | lia | lens | | lia | lia |].
      - clear -Hm Hhm. Z.to_euclidean_division_equations. lia.
      - intros b'' L' N3 N4. rewrite <- !app_assoc in N3, N4. apply HQ; [lia | done | done]. }
    unfold vset_size, vset_bytes in *. sizes.
    replace (Z.to_nat (numval vs)) with (length (vlist vs)) by lia.
    destruct (Z.ltb_spec 0 (numval vs)) as [Hn|Hn].
    + repeat wp1.
      apply (fill_values_wp _ vs vlp (vlp + 8) vb0 (pre ++ be32 (vpmid vs)) _ ns1 _ _ (be32 (valfmt vs)) vb); try done;
        [has_join | lens | lens | lens | unfold vset_blocks in *; lens | unfold vset_blocks in *; lens |].
      intros b' L N1 N2 N3. has_split. repeat wp1.
      replace (vlp + 20 + (numval vs - 1) * 8) with (vlp + (12 + 8 * numval vs)) by lia.
      apply Hrest; [lia | | by rewrite has_app]. has_join.
    + destruct (vlist vs) eqn:El; [| simpl in Hl; lia]. clear Hl Hvals. cbn [fill_values length].
      unfold vset_blocks in *. rewrite El in *. cbn [vals_blocks omap list_omap] in *.
      inversion Hns1; subst ns1. change (zlen (hosts [])) with 0 in *.
      rewrite !app_nil_r, Z.add_0_r in *. repeat wp1.
      replace (vlp + 4 + 4) with (vlp + 8) by lia. apply Hrest; [lia | has_join | done].
Qed.

(** ** The first decoding pass *)

(** [vsplit] after the blocks up to [vbp]. *)
Definition split_at (len vb0 vbp : Z) : Z := if vbp =? vb0 then len else vb0.

Lemma vb_host_word v :
  vb_wf v → ∃ rest, vb_host v = le32 (vb_word (vlen v) (vtype v)) ++ rest
    ∧ vb_vlen (u32 (vb_word (vlen v) (vtype v))) = vlen v
    ∧ vb_vtype (u32 (vb_word (vlen v) (vtype v))) = vtype v.
Proof.
  intros (Ht & Hl & _). unfold vb_host, padded, vb_bytes at 1. eexists. split; [by rewrite <- app_assoc |].
  destruct (vb_word_fields (vlen v) (vtype v)) as (Hw & E1 & E2); [done | pose proof (vlen_pos v); lia |].
  by rewrite u32_id.
Qed.

Lemma scan_values_wp E fmt len vlp vb0 P l : ∀ ns rest j vbp dn vbsz b (Q : Z * Z → buf → Prop),
  fmt ≠ 0 → Forall (value_wf fmt) l → Forall2 net_of (vals_blocks l) ns →
  has b 0 P → zlen P <= vb0 → has b (vlp + 12 + 8 * Z.of_nat j) (vals_bytes l vbp) →
  0 <= vlp → vlp + 12 + 8 * Z.of_nat j + 8 * zlen l <= vb0 →
  has b vb0 dn → vb0 + zlen dn = vbp → has b vbp (concat ns ++ rest) → vbp mod 4 = 0 →
  vbp + zlen (hosts (vals_blocks l)) <= len < 2^31 → vbsz = vbp - vb0 →
  (∀ b', length b' = length b → has b' 0 P → has b' vb0 (dn ++ hosts (vals_blocks l)) →
     has b' (vbp + zlen (hosts (vals_blocks l))) rest →
     Q (split_at len vb0 (vbp + zlen (hosts (vals_blocks l))),
        vbp + zlen (hosts (vals_blocks l)) - vb0) b') →
  wp (scan_values len vlp j (length l) (split_at len vb0 vbp) vbsz) E Q b.
Proof.
  induction l as [|x l IH];
    intros ns rest j vbp dn vbsz b Q Hf Hwf Hns HP HPl Hv Hvlp Hsep Hdn Hdl Hrest Hm Hlt -> HQ;
    cbn [scan_values length].
  - inversion Hns; subst ns. change (zlen (hosts (vals_blocks []))) with 0 in HQ. rewrite Z.add_0_r in HQ.
    apply wp_ret, HQ; [done | done | | done]. change (hosts _) with (@nil byte). by rewrite app_nil_r.
  - apply Forall_cons in Hwf as [[_ Hx] Hwf]. rewrite vals_blocks_cons in *. cbn [vals_bytes] in Hv.
    destruct (val x) as [z|v]; [by destruct Hx |]. destruct Hx as [_ Hvb].
    apply Forall2_cons_inv_l in Hns as (n & ns' & (Ln & _ & C2) & Hns' & ->).
    pose proof (vb_host_size v) as [Hv4 Hvm]. pose proof (vlen_pos v). pose proof (pdu_size_bounds (vlen v)) as Hps.
    rewrite hosts_cons, length_app, Nat2Z.inj_add in *. cbn [concat] in Hrest. rewrite <- app_assoc in Hrest.
    rewrite length_cons in Hsep. has_split. rewrite <- length_vb_host in Hps. sizes.
    assert (4 * (vbp / 4) = vbp) as Hdiv by (by apply align4).
    wp1. wp1; [exfalso; rewrite u64_id in * by lia; lia |].
    repeat wp1; rewrite ?(s32_u32_id (vbp / 4)), ?Hdiv in * by (split; lia); try (exfalso; lia).
    { exfalso. rewrite u64_id in * by lia. lia. }
    eapply wp_mono; [| apply C2; has_tac]. intros [] b' C. pose proof C as [N [L' _]]. conv_keep C.
    destruct (vb_host_word v Hvb) as (tl & Eh & Ev & _). pose proof N as N'. rewrite Eh in N'.
    apply has_app in N' as [N' _].
    repeat wp1; rewrite Ev in *; unfold PM_VAL_HDR_SIZE in *;
      try (exfalso; rewrite ?u64_id in * by lia; lia).
    rewrite <- length_vb_host, s32_id by (split; lia).
    assert ((if vbp <? split_at len vb0 vbp then vbp else split_at len vb0 vbp)
      = split_at len vb0 (vbp + zlen (vb_host v))) as ->.
    { unfold split_at. repeat case_match; lia. }
    apply (IH ns' rest _ _ (dn ++ vb_host v)); try done; [has_tac | lia | has_join | lens | has_join | | lia | lia |].
    + clear -Hm Hvm. Z.to_euclidean_division_equations. lia.
    + intros b'' L'' N1 N2 N3. rewrite <- !app_assoc, !Z.add_assoc in *. apply HQ; [lia | done ..].
Qed.

(** Two buffers with a common prefix agree on what lies inside of it. *)
Lemma has_prefix b b' P o x :
  has b 0 P → has b' 0 P → has b o x → o + zlen x <= zlen P → has b' o x.
Proof.
  intros HP HP' (Ho & Hl & Hx) Hle. destruct HP as (_ & _ & HP). unfold get in *. rewrite drop_0 in HP.
  assert (x = take (length x) (drop (Z.to_nat o) P)) as Ex.
  { rewrite <- HP, <- Hx at 1. rewrite skipn_firstn_comm, take_take. f_equal. lia. }
  rewrite <- (take_drop (Z.to_nat o) P), has_app in HP'. destruct HP' as [_ HP'].
  rewrite <- (take_drop (length x) (drop _ P)), has_app, <- Ex in HP'. destruct HP' as [HP' _].
  apply (has_at _ _ _ _ HP'). lens.
Qed.

(** The space a value set takes after decoding. *)
Definition nvset_size (vs : pmValueSet) : Z := if 0 <? numval vs then 32 + (numval vs - 1) * 16 else 32.
Definition nvsets_size (l : list pmValueSet) : Z := foldr (λ vs n, nvset_size vs + n) 0 l.
Lemma nvset_size_pos vs : 32 <= nvset_size vs.
Proof. unfold nvset_size. case_match; lia. Qed.
Lemma nvsets_size_pos l : 0 <= nvsets_size l.
Proof. induction l as [|vs l IH]; [done |]. simpl. fold (nvsets_size l). pose proof (nvset_size_pos vs). lia. Qed.
Lemma vsets_size_pos l : 0 <= vsets_size l.
Proof. induction l as [|vs l IH]; [done |]. simpl. fold (vsets_size l). pose proof (vset_size_pos vs). lia. Qed.

Lemma vset_at vsz : 0 <= vsz < 2^31 → vsz mod 4 = 0 → 24 + 4 * (u64 vsz / 4) = 24 + vsz.
Proof. intros. rewrite u64_id by lia. by rewrite align4. Qed.

Lemma insitu_blocks l : Forall (value_wf 0) l → vals_blocks l = [].
Proof.
  induction 1 as [|x l [_ Hx] _ IH]; [done |]. rewrite vals_blocks_cons.
  destruct (val x); [done | by destruct Hx].
Qed.

(** Where the first pass stands: [vsz] and [nvsz] bytes of value sets seen, the
    blocks up to [vbp] converted, the other ones still in network order. *)
Record scanning (len vb0 : Z) (P : buf) (vsz vbp : Z) (dn todo : buf) (b : buf) : Prop := {
  sc_prefix : has b 0 P; sc_len : zlen P = vb0;
  sc_done : has b vb0 dn; sc_vbp : vb0 + zlen dn = vbp; sc_todo : has b vbp todo;
  sc_vsz : 0 <= vsz < 2^31; sc_vmod : vsz mod 4 = 0; sc_bmod : vbp mod 4 = 0;
  sc_size : vbp + zlen todo <= len; sc_max : len < 2^31; sc_slack : len + 4 <= zlen b
}.

Lemma scan_vset_wp E len vb0 P vs ns vsz nvsz vbp dn rest b (Q : sizes → buf → Prop) :
  vset_wf vs → Forall2 net_of (vset_blocks vs) ns → numval vs < (INT_MAX - 20) / 8 →
  scanning len vb0 P vsz vbp dn (concat ns ++ rest) b →
  has b (24 + vsz) (vset_bytes vs vbp) → 24 + vsz + vset_size vs <= vb0 →
  0 <= nvsz → nvsz + nvset_size vs < 2^31 →
  (∀ b', scanning len vb0 P (vsz + vset_size vs) (vbp + zlen (hosts (vset_blocks vs)))
           (dn ++ hosts (vset_blocks vs)) rest b' → length b' = length b →
     Q (mkSizes (vsz + vset_size vs) (nvsz + nvset_size vs) (vbp + zlen (hosts (vset_blocks vs)) - vb0)
          (split_at len vb0 (vbp + zlen (hosts (vset_blocks vs))))) b') →
  wp (scan_vset len (mkSizes vsz nvsz (vbp - vb0) (split_at len vb0 vbp))) E Q b.
Proof.
  intros Hvs Hns Hmv [HP HPl Hdn Hdl Hrest Hvsz Hvm Hm Hlt Hmax Hslack] Hv Hsep Hnv Hnlt HQ.
  pose proof Hvs as (_ & Hnum & Hfmt & Hl & Hvals & Hfz).
  pose proof (hosts_mod (vset_blocks vs)) as Hhm. pose proof (nets_length _ _ Hns) as Ln.
  pose proof (vset_size_mod vs) as Hsm. pose proof (vset_size_pos vs) as Hsp.
  rewrite length_app, Nat2Z.inj_add in Hlt.
  assert (∀ b', length b' = length b → has b' 0 P → has b' vb0 (dn ++ hosts (vset_blocks vs)) →
    has b' (vbp + zlen (hosts (vset_blocks vs))) rest →
    Q (mkSizes (vsz + vset_size vs) (nvsz + nvset_size vs) (vbp + zlen (hosts (vset_blocks vs)) - vb0)
          (split_at len vb0 (vbp + zlen (hosts (vset_blocks vs))))) b') as Hk.
  { intros b' L N1 N2 N3. apply HQ; [| done].
    split; try done; [lens | lia | | | lia | lia].
    - clear -Hvm Hsm. Z.to_euclidean_division_equations. lia.
    - clear -Hm Hhm. Z.to_euclidean_division_equations. lia. }
  clear HQ. unfold scan_vset. cbn [vsize nvsize vbsize vsplit]. rewrite vset_at by (done || lia).
  unfold vset_bytes, vset_size, nvset_size in *.
  destruct (Z.ltb_spec 0 (numval vs)) as [Hn|Hn]; has_split; sizes.
  - repeat wp1; rewrite ?s32_u32_id in * by done; try (exfalso; rewrite ?u64_id in * by lia; lia).
    all: rewrite ?(s32_id (vsz + _)), ?(s32_id (nvsz + _)) by (split; lia).
    all: rewrite ?(s32_id (vsz + _ + _)), ?(s32_id (nvsz + _ + _)) by (split; lia).
    all: replace (vsz + (4 + 4) + (4 + numval vs * 8)) with (vsz + (12 + 8 * numval vs)) by lia.
    all: replace (nvsz + 32 + (numval vs - 1) * 16) with (nvsz + (32 + (numval vs - 1) * 16)) by lia.
    + replace (Z.to_nat (numval vs)) with (length (vlist vs)) by lia.
      eapply (scan_values_wp _ (valfmt vs) _ _ _ P _ ns rest _ _ dn); try done; [unfold PM_VAL_INSITU in *; lia
        | lia | has_tac | lia | lia | unfold vset_blocks in *; has_join | unfold vset_blocks in *; lia].
    + assert (valfmt vs = 0) as Hz by (unfold PM_VAL_INSITU in *; lia). rewrite Hz in Hvals.
      unfold vset_blocks in *. rewrite (insitu_blocks _ Hvals) in *. inversion Hns; subst ns.
      change (hosts []) with (@nil byte) in *. simpl length in Hk. rewrite app_nil_r, Z.add_0_r in Hk.
      cbn [fst snd]. apply Hk; try done. has_tac.
  - assert (vlist vs = []) as El by (destruct (vlist vs); [done | simpl in Hl; lia]).
    unfold vset_blocks in *. rewrite El in *. inversion Hns; subst ns.
    change (hosts _) with (@nil byte) in *. clear Hl Hvals. simpl length in *.
    rewrite app_nil_r, Z.add_0_r in Hk.
    repeat wp1; rewrite ?s32_u32_id in * by done; try (exfalso; rewrite ?u64_id in * by lia; lia).
    rewrite !s32_id by (split; lia). apply Hk; try done. has_tac.
Qed.

Lemma scan_vsets_wp E len vb0 P l : ∀ ns vsz nvsz vbp dn b (Q : sizes → buf → Prop),
  Forall vset_wf l → Forall2 net_of (all_blocks l) ns → Forall (λ vs, numval vs < (INT_MAX - 20) / 8) l →
  scanning len vb0 P vsz vbp dn (concat ns) b →
  has b (24 + vsz) (vsets_bytes l vbp) → 24 + vsz + vsets_size l <= vb0 →
  0 <= nvsz → nvsz + nvsets_size l < 2^31 →
  (∀ b', length b' = length b → has b' 0 P → has b' vb0 (dn ++ hosts (all_blocks l)) →
     Q (mkSizes (vsz + vsets_size l) (nvsz + nvsets_size l) (vbp + zlen (hosts (all_blocks l)) - vb0)
          (split_at len vb0 (vbp + zlen (hosts (all_blocks l))))) b') →
  wp (scan_vsets len (length l) (mkSizes vsz nvsz (vbp - vb0) (split_at len vb0 vbp))) E Q b.
Proof.
  induction l as [|vs l IH]; intros ns vsz nvsz vbp dn b Q Hwf Hns Hmax Hsc Hv Hsep Hnv Hnlt HQ;
    cbn [scan_vsets length].
  - inversion Hns; subst ns. apply wp_ret. specialize (HQ b).
    change (zlen (hosts (all_blocks []))) with 0 in HQ. simpl in HQ. rewrite !Z.add_0_r in HQ.
    destruct Hsc. apply HQ; [done | done |]. by rewrite app_nil_r.
  - apply Forall_cons in Hwf as [Hvs Hwf], Hmax as [Hmv Hmax].
    rewrite all_blocks_cons in *. apply Forall2_app_inv_l in Hns as (ns1 & ns2 & Hns1 & Hns2 & ->).
    rewrite hosts_app, length_app, Nat2Z.inj_add in *. rewrite concat_app in Hsc.
    cbn [vsets_bytes vsets_size nvsets_size foldr] in *. fold (vsets_size l) (nvsets_size l) in *.
    pose proof (vsets_size_pos l). pose proof (nvsets_size_pos l). pose proof (nvset_size_pos vs).
    apply has_app in Hv as [Hv Hv']. rewrite length_vset_bytes in Hv' by done.
    apply wp_bind, (scan_vset_wp _ _ _ P vs ns1 _ _ _ dn (concat ns2)); try done; [lia | lia |].
    intros b' Hsc' L. apply (IH ns2 _ _ _ (dn ++ hosts (vset_blocks vs))); try done; [| lia | lia | lia |].
    + destruct Hsc, Hsc'. eapply has_prefix; [exact sc_prefix0 | done | has_tac |].
      rewrite length_vsets_bytes by done. lia.
    + intros b'' L' N1 N2. rewrite <- !app_assoc, <- !Z.add_assoc in *. apply HQ; [lia | done ..].
Qed.

(** ** The second decoding pass *)

Lemma view_host nb off v :
  vb_wf v → has nb off (vb_host v) → view_value nb (NPval off) = Pval v.
Proof.
  intros Hwf Hh. destruct (vb_host_word v Hwf) as (_ & _ & E1 & E2).
  unfold vb_host, padded, vb_bytes in Hh. rewrite <- !app_assoc in Hh.
  has_split. unfold view_value.
  match goal with H : has nb off (le32 ?w) |- _ => destruct H as (? & ? & Hw) end.
  rewrite length_le32 in Hw. rewrite Hw, le_combine_le32, E1, E2. f_equal.
  match goal with H : has nb _ (vbuf v) |- _ => destruct H as (? & ? & Hb) end.
  unfold vlen, PM_VAL_HDR_SIZE. rewrite length_le32 in Hb.
  replace (Z.to_nat (4 + zlen (vbuf v) - 4)) with (length (vbuf v)) by lia.
  change (Z.of_nat 4) with 4 in Hb. rewrite Hb. by destruct v.
Qed.

Lemma wp_touch E nb o n (Q : unit → buf → Prop) b :
  0 <= o → o + n <= zlen nb → Q tt b → wp (touch nb o n) E Q b.
Proof. intros. unfold wp, touch. by rewrite !(proj2 (Z.leb_le _ _)) by lia. Qed.

Lemma build_values_wp E nb offset fmt vlp nvsp l : ∀ j vbp b (Q : list (Z * nvalue) → buf → Prop),
  Forall (value_wf fmt) l → has b (vlp + 12 + 8 * Z.of_nat j) (vals_bytes l vbp) →
  has nb (vbp + offset) (hosts (vals_blocks l)) → vbp mod 4 = 0 → 0 <= vbp →
  vbp + zlen (hosts (vals_blocks l)) < 2^31 → vbp + offset + zlen (hosts (vals_blocks l)) < 2^31 →
  0 <= nvsp → nvsp + 16 + 16 * Z.of_nat j + 16 * zlen l <= zlen nb →
  (∀ r, (λ x, mkValue x.1 (view_value nb x.2)) <$> r = l → Q r b) →
  wp (build_values nb offset fmt vlp nvsp j (length l)) E Q b.
Proof.
  induction l as [|x l IH]; intros j vbp b Q Hwf Hv Hnb Hm Hvbp Hlt Hnl Hns Hsz HQ;
    cbn [build_values length]; [by apply wp_ret, HQ |].
  apply Forall_cons in Hwf as [[Hi Hx] Hwf]. cbn [vals_bytes] in Hv. rewrite vals_blocks_cons in *.
  rewrite length_cons in Hsz. unfold PM_VAL_INSITU.
  wp1. apply wp_touch; [lia | lia |]. destruct x as [i [z|v]]; cbn [val inst] in *; destruct Hx as [Hf Hx].
  - has_split. rewrite Hf in *. repeat wp1. apply (IH _ vbp); try done; [has_tac | lia |].
    intros r Hr. wp1. apply HQ. rewrite fmap_cons, Hr. simpl. by rewrite !s32_u32_id.
  - has_split. rewrite hosts_cons in *. apply has_app in Hnb as [Hnb1 Hnb2].
    rewrite length_app, Nat2Z.inj_add in Hlt, Hnl. pose proof (vb_host_size v) as [Hv4 Hvm].
    pose proof (has_length _ _ _ Hnb1).
    repeat wp1. apply (IH _ (vbp + zlen (vb_host v))); try done; [has_tac | has_tac | | lia | lia | lia | lia |].
    + clear -Hm Hvm. Z.to_euclidean_division_equations. lia.
    + intros r Hr. wp1. apply HQ. rewrite fmap_cons, Hr, (proj2 (Z.eqb_neq _ _)) by done.
      cbn [fst snd]. rewrite (u32_id (vbp / 4)) by (split; Z.to_euclidean_division_equations; lia).
      rewrite align4, (s32_id (vbp + offset)) by (done || split; lia).
      by rewrite (view_host nb _ v), s32_u32_id.
Qed.

Lemma build_vsets_wp E nb offset l : ∀ vsz nvsz vbp b (Q : list nvset → buf → Prop),
  Forall vset_wf l → has b (24 + vsz) (vsets_bytes l vbp) →
  0 <= vsz → vsz mod 4 = 0 → vsz + vsets_size l < 2^31 →
  has nb (vbp + offset) (hosts (all_blocks l)) → vbp mod 4 = 0 → 0 <= vbp →
  vbp + zlen (hosts (all_blocks l)) < 2^31 → vbp + offset + zlen (hosts (all_blocks l)) < 2^31 →
  0 <= nvsz → nvsz + nvsets_size l <= zlen nb → nvsz + nvsets_size l < 2^31 →
  (∀ r, view_vset nb <$> r = l → Q r b) →
  wp (build_vsets nb offset (length l) vsz nvsz) E Q b.
Proof.
  induction l as [|vs l IH]; intros vsz nvsz vbp b Q Hwf Hv Hvsz Hvm Hvl Hnb Hm Hvbp Hlt Hlt' Hnv Hnl Hnl' HQ;
    cbn [build_vsets length]; [by apply wp_ret, HQ |].
  apply Forall_cons in Hwf as [Hvs Hwf]. pose proof Hvs as (Hp & Hnum & Hfmt & Hl & Hvals & Hfz).
  rewrite all_blocks_cons, hosts_app in *. rewrite length_app, Nat2Z.inj_add in Hlt, Hlt'.
  cbn [vsets_bytes vsets_size nvsets_size foldr] in *. fold (vsets_size l) (nvsets_size l) in *.
  pose proof (vsets_size_pos l). pose proof (nvsets_size_pos l). pose proof (nvset_size_pos vs).
  pose proof (hosts_mod (vset_blocks vs)) as Hhm.
  pose proof (vset_size_mod vs) as Hsm. pose proof (vset_size_pos vs).
  apply has_app in Hv as [Hv Hv'], Hnb as [Hnb Hnb']. rewrite length_vset_bytes in Hv' by done.
  rewrite vset_at by (done || lia).
  assert (∀ Q, (∀ r, view_vset nb <$> r = l → Q r b) →
    wp (build_vsets nb offset (length l) (vsz + vset_size vs) (nvsz + nvset_size vs)) E Q b) as Hk.
  { intros Q' HQ'. apply (IH _ _ (vbp + zlen (hosts (vset_blocks vs)))); try done;
      [has_tac | lia | | lia | has_tac | | lia | lia | lia | lia | lia | lia].
    - clear -Hvm Hsm. Z.to_euclidean_division_equations. lia.
    - clear -Hm Hhm. Z.to_euclidean_division_equations. lia. }
  unfold vset_bytes, vset_size, nvset_size in *. sizes.
  wp1. apply wp_touch; [lia | lia |].
  destruct (Z.ltb_spec 0 (numval vs)) as [Hn|Hn]; has_split.
  - repeat wp1; rewrite ?s32_u32_id in * by done; try (exfalso; lia).
    replace (Z.to_nat (numval vs)) with (length (vlist vs)) by lia.
    apply (build_values_wp _ _ _ _ _ _ _ _ vbp); try done; unfold vset_blocks in *;
      [has_tac | lia | lia | lia |].
    intros r Hr. wp1. rewrite (s32_id (vsz + _)), (s32_id (nvsz + _)) by (split; lia).
    rewrite (s32_id (vsz + _ + _)), (s32_id (nvsz + _ + _)) by (split; lia).
    replace (vsz + (4 + 4) + (4 + numval vs * 8)) with (vsz + (12 + 8 * numval vs)) by lia.
    replace (nvsz + 32 + (numval vs - 1) * 16) with (nvsz + (32 + (numval vs - 1) * 16)) by lia.
    apply Hk. intros rs Hrs. wp1. apply HQ. rewrite fmap_cons, Hrs. f_equal.
    unfold view_vset. cbn [n_pmid n_numval n_valfmt n_vlist]. rewrite Hr, u32_id by done. by destruct vs.
  - repeat wp1; rewrite ?s32_u32_id in * by done; try (exfalso; lia).
    rewrite !s32_id by (split; lia). apply Hk. intros rs Hrs. wp1. apply HQ. rewrite fmap_cons, Hrs. f_equal.
    unfold view_vset. cbn [n_pmid n_numval n_valfmt n_vlist]. rewrite u32_id by done.
    destruct vs as [? ? ? [|]]; simpl in *; [by rewrite Hfz | lia].
Qed.

(** ** Sending and receiving a result *)

(** A result that fits the sizes the decoder accepts. *)
Record result_wf (r : pmResult) : Prop := {
  rw_sec : 0 <= stamp_sec r < 2^31; rw_usec : 0 <= stamp_usec r < 2^31;
  rw_sets : Forall vset_wf (vset r);
  rw_numval : Forall (λ vs, numval vs < (INT_MAX - 20) / 8) (vset r);
  rw_numpmid : zlen (vset r) < (INT_MAX - 32) / 8;
  rw_vsize : vsets_size (vset r) <= INT_MAX / 4;
  rw_vbsize : zlen (hosts (all_blocks (vset r))) <= INT_MAX / 8;
  rw_need : nvsets_size (vset r) + zlen (hosts (all_blocks (vset r))) < 2^31
}.
Definition result_size (r : pmResult) : Z := 24 + vsets_size (vset r) + zlen (hosts (all_blocks (vset r))).

Lemma blocks_wf l : Forall vset_wf l → Forall vb_wf (all_blocks l).
Proof.
  induction 1 as [|vs l (_ & _ & _ & _ & Hv & _) _ IH]; [constructor |].
  rewrite all_blocks_cons. apply Forall_app. split; [| done]. unfold vset_blocks.
  induction Hv as [|x xs [_ Hx] _ IHx]; [constructor |]. rewrite vals_blocks_cons.
  destruct (val x); [done | constructor; [by destruct Hx | done]].
Qed.
Lemma vsets_size_mod l : vsets_size l mod 4 = 0.
Proof.
  induction l as [|vs l IH]; [done |]. simpl. fold (vsets_size l). pose proof (vset_size_mod vs) as Hv.
  clear -IH Hv. Z.to_euclidean_division_equations. lia.
Qed.

Lemma vsets_size_ge l : 8 * zlen l <= vsets_size l.
Proof.
  induction l as [|vs l IH]; [done |]. cbn [vsets_size foldr]. fold (vsets_size l).
  pose proof (vset_size_pos vs). rewrite length_cons. lia.
Qed.

Section roundtrip.
Context `{PduAlloc} (fd : Xmit.wfd).
Hypothesis alloc_ok : ∀ n, is_Some (find_pdubuf n).

(** The PDU body of a result, given the images of its value blocks. *)
Definition result_body (r : pmResult) (ns : list buf) : buf :=
  be32 (stamp_sec r) ++ be32 (stamp_usec r) ++ be32 (zlen (vset r))
  ++ vsets_bytes (vset r) (24 + vsets_size (vset r)) ++ concat ns.

Lemma result_size_eq r ns :
  result_wf r → Forall2 net_of (all_blocks (vset r)) ns →
  result_size r = sizeof_hdr + zlen (result_body r ns) ∧ 24 <= result_size r < 2^31.
Proof.
  intros Hwf Hns. destruct Hwf as [_ _ Hsets _ _ Hvs Hvb _].
  pose proof (nets_length _ _ Hns) as Ln. pose proof (vsets_size_pos (vset r)) as Hp.
  pose proof (length_vsets_bytes (vset r) (24 + vsets_size (vset r)) Hsets) as Lv.
  unfold INT_MAX in *. split.
  - unfold result_size, result_body, sizeof_hdr. lens.
  - unfold result_size. Z.to_euclidean_division_equations. lia.
Qed.

Lemma encode_wp r ns b :
  result_wf r → Forall2 net_of (all_blocks (vset r)) ns → result_size r <= zlen b →
  wp (encode r (24 + vsets_size (vset r)) (zlen (hosts (all_blocks (vset r))))) noerr
     (λ _ b', ∃ pad, zlen pad = 4 ∧
        has b' 0 (le32 (result_size r) ++ le32 PDU_RESULT ++ pad ++ result_body r ns)) b.
Proof.
  intros Hwf Hns Hb. destruct (result_size_eq r ns Hwf Hns) as [Hsz Hlt].
  destruct Hwf as [Hs Hu Hsets _ _ _ _ _]. pose proof (vsets_size_pos (vset r)).
  pose proof (vsets_size_mod (vset r)) as Hvm. unfold encode.
  assert (result_size r = 24 + vsets_size (vset r) + zlen (hosts (all_blocks (vset r)))) as Er by done.
  rewrite <- Er, !s32_id by (split; lia).
  assert ((24 + vsets_size (vset r)) mod 4 = 0) as Hm by (clear -Hvm; Z.to_euclidean_division_equations; lia).
  rewrite align4 by done. destruct (has_pad b 8 4) as (pad & Hpad & Lpad); [lia .. |].
  repeat wp1.
  apply (fill_vsets_wp _ (24 + vsets_size (vset r)) _ ns _ _ (le32 (result_size r) ++ le32 PDU_RESULT ++ pad
    ++ be32 (stamp_sec r) ++ be32 (stamp_usec r) ++ be32 (zlen (vset r))) []); try done;
    [has_join | lens | apply has_nil; lia | simpl; lia | lia | lia |].
  intros b' L N1 N2. exists pad. split; [done |]. unfold result_body.
  pose proof (length_vsets_bytes (vset r) (24 + vsets_size (vset r)) Hsets) as Lv.
  rewrite app_nil_l in N2. has_split. has_join.
Qed.

Lemma result_send from r ns :
  delivers fd (result_size r) → result_wf r → Forall2 net_of (all_blocks (vset r)) ns →
  __pmSendResult fd from r = Ok (result_size r, wire PDU_RESULT from (result_body r ns)).
Proof.
  intros Hd Hwf Hns. destruct (result_size_eq r ns Hwf Hns) as [Hsz Hlt].
  unfold __pmSendResult, __pmEncodeResult. sizes.
  destruct (wp_noerr_run (need_vsets (vset r) (28 - 4) 0)
    (λ v _, v = (24 + vsets_size (vset r), zlen (hosts (all_blocks (vset r))))) []) as (? & ? & -> & ->).
  { by apply need_vsets_wp; [apply Hwf |]. }
  cbn [mbind res_bind]. fold (result_size r). rewrite s32_id by (split; lia).
  unfold fill_pdu. destruct (alloc_ok (result_size r)) as [b Hb]. rewrite Hb.
  apply find_pdubuf_size in Hb; [| split; lia].
  destruct (wp_noerr_run _ _ _ (encode_wp r ns b Hwf Hns Hb)) as ([] & b1 & -> & pad & Lp & N1).
  cbn [fmap res_fmap snd mbind res_bind]. destruct (wp_noerr_run (store32 8 from)
    (λ _ b', is_pdu b' PDU_RESULT from (result_body r ns)) b1) as ([] & b2 & -> & Hp).
  { has_split. repeat wp1. unfold is_pdu. sizes. rewrite <- Hsz. split; [has_join | lia]. }
  cbn [fmap res_fmap mbind res_bind]. rewrite Hsz in *.
  by destruct (wp_noerr_run _ _ _ (XmitFacts.xmit_wp fd b2 _ _ _ Hp Hd)) as (? & ? & -> & ->).
Qed.

Lemma wp_in_newbuf {A} E (m : M A) nb (Q : buf → buf → Prop) b :
  wp m E (λ _ nb', Q nb' b) nb → wp (in_newbuf m nb) E Q b.
Proof. unfold wp, in_newbuf. by destruct (m nb) as [[? ?]| |]. Qed.

Lemma rebuild_wp r b (Q : list nvset * buf → buf → Prop) :
  let l := vset r in let vb0 := 24 + vsets_size l in let vbs := zlen (hosts (all_blocks l)) in
  result_wf r → has b 24 (vsets_bytes l vb0) → has b vb0 (hosts (all_blocks l)) →
  (∀ rs nb, view_vset nb <$> rs = l → Q (rs, nb) b) →
  wp (rebuild (result_size r) (zlen l) (mkSizes (vsets_size l) (nvsets_size l) vbs vb0)) noerr Q b.
Proof.
  intros l vb0 vbs [_ _ Hsets Hnum Hnp Hvs Hvb Hneed] Hv Hh HQ. fold l in Hsets, Hnum, Hnp, Hvs, Hvb, Hneed.
  fold vbs in Hvb, Hneed.
  pose proof (vsets_size_pos l). pose proof (nvsets_size_pos l). pose proof (vsets_size_mod l) as Hvm.
  assert (result_size r = vb0 + vbs ∧ vb0 = 24 + vsets_size l ∧ vbs = zlen (hosts (all_blocks l)))
    as (Er & Evb & Evs) by done. clearbody vb0 vbs.
  assert (vsets_size l < 2^29 ∧ vbs < 2^28) as [? ?] by (sizes; Z.to_euclidean_division_equations; lia).
  assert (vb0 mod 4 = 0) as Hm by (rewrite Evb; clear -Hvm; Z.to_euclidean_division_equations; lia).
  unfold rebuild. cbn [vsize nvsize vbsize vsplit]. sizes.
  rewrite (s32_id (nvsets_size l + vbs)), (s32_id (28 - 4 + _)), !u64_id by (try split; lia).
  wp1. wp1; [exfalso; lia |].
  destruct (alloc_ok (nvsets_size l + vbs)) as [nb Hnb]. rewrite Hnb.
  apply find_pdubuf_size in Hnb; [| split; lia].
  rewrite s32_id by (split; lia). rewrite align4, <- Evb by done. wp1.
  apply (wp_mono _ _ (λ nb' b', b' = b ∧ length nb' = length nb ∧ has nb' (nvsets_size l) (hosts (all_blocks l)))).
  - intros nb' ? (-> & Lnb & Hnb'). wp1. rewrite Nat2Z.id.
    apply (build_vsets_wp _ _ _ _ _ _ vb0); try done; [lia | has_tac | lia | lia | lia | lia | lia |].
    intros rs Hrs. wp1. by apply HQ.
  - destruct (Z.eqb_spec vbs 0) as [E0|E0]; simpl negb; cbv iota.
    + wp1. split_and!; [done | done |]. rewrite Evs in E0. destruct (hosts (all_blocks l)); [| simpl in E0; lia].
      apply has_nil. lia.
    + wp1. eapply wp_loadn_has; [has_tac | done |]. apply wp_in_newbuf. by wp1.
Qed.

(** A received result, in a buffer with a word to spare after the PDU. *)
Lemma result_decode from r ns b :
  result_wf r → Forall2 net_of (all_blocks (vset r)) ns →
  is_pdu b PDU_RESULT from (result_body r ns) → result_size r + 4 <= zlen b →
  wp __pmDecodeResult noerr (λ a _, view a = r) b.
Proof.
  intros Hwf Hns Hp Hslack. destruct (result_size_eq r ns Hwf Hns) as [Hsz Hlt].
  pose proof (is_pdu_received _ _ _ _ Hp) as Hr. destruct Hp as [Hb _]. rewrite <- Hsz in *.
  pose proof Hwf as [Hs Hu Hsets Hnum Hnp Hvs Hvb Hneed].
  pose proof (rebuild_wp r) as Hre. set (l := vset r) in *. set (vb0 := 24 + vsets_size l) in *.
  pose proof (vsets_size_pos l). pose proof (nvsets_size_pos l). pose proof (vsets_size_mod l) as Hvm.
  pose proof (length_vsets_bytes l vb0 Hsets) as Lv. pose proof (nets_length _ _ Hns) as Ln.
  assert (result_size r = vb0 + zlen (hosts (all_blocks l)) ∧ vb0 = 24 + vsets_size l) as [Er Evb] by done.
  assert (vb0 mod 4 = 0) as Hm by (rewrite Evb; clear -Hvm; Z.to_euclidean_division_equations; lia).
  set (P := le32 (result_size r) ++ le32 PDU_RESULT ++ le32 from ++ be32 (stamp_sec r)
    ++ be32 (stamp_usec r) ++ be32 (zlen l) ++ vsets_bytes l vb0).
  assert (has b 0 (P ++ concat ns)) as HP.
  { unfold P, result_body in *. by rewrite <- !app_assoc. }
  clearbody vb0. assert (zlen P = vb0) as LP by (unfold P; lens).
  apply has_app in HP as [HP HN]. pose proof HP as HP'. unfold P in HP'. has_split. has_norm.
  pose proof (vsets_size_ge l). unfold __pmDecodeResult. read_len. sizes.
  repeat wp1; rewrite ?s32_u32_id in * by (split; lia); try (exfalso; rewrite ?u64_id in * by lia; lia).
  rewrite Nat2Z.id.
  replace (mkSizes 0 0 0 (result_size r)) with (mkSizes 0 0 (vb0 - vb0) (split_at (result_size r) vb0 vb0)).
  2: { unfold split_at. by rewrite Z.eqb_refl, Z.sub_diag. }
  apply (scan_vsets_wp _ _ vb0 P l ns _ _ _ []); try done; [| lia | lia |].
  - split; try done; [apply has_nil; hlens | simpl; lia | has_tac | lia | lia].
  - intros b' L N1 N2. rewrite !Z.add_0_l, app_nil_l in *.
    assert (split_at (result_size r) vb0 (vb0 + zlen (hosts (all_blocks l))) = vb0) as ->.
    { unfold split_at. case_match; lia. }
    replace (vb0 + zlen (hosts (all_blocks l)) - vb0) with (zlen (hosts (all_blocks l))) by lia.
    wp1. subst vb0. apply Hre; [done | | done |].
    + eapply has_prefix; [exact HP | done | has_tac | lia].
    + intros rs nb Hrs. wp1. cbn [fst snd view]. rewrite Hrs, !u32_id by (split; lia). by destruct r.
Qed.
End roundtrip.

(** ** What the decoder does not check *)

(** A well-formed PDU in a buffer of exactly its size, whose only metric has no
    values: the format word after the count is read nevertheless. *)
Definition result_valfmt_pdu : buf :=
  le32 32 ++ le32 PDU_RESULT ++ le32 0 ++ be32 0 ++ be32 0 ++ be32 1 ++ be32 0 ++ be32 0.
(** Two metrics, the first with 200 in-situ values that are not there: the second
    one is looked for after the end of the PDU, where the space left is taken for a
    huge unsigned number. *)
Definition result_overread_pdu : buf :=
  le32 204 ++ le32 PDU_RESULT ++ le32 0 ++ be32 0 ++ be32 0 ++ be32 2 ++ be32 0 ++ be32 200 ++ be32 0
  ++ replicate 988 Byte.x00.
(** A value block of 64-bit type in the last word of the PDU, and of the buffer:
    it is byte-swapped before its length is looked at. *)
Definition result_swab_pdu : buf :=
  le32 48 ++ le32 PDU_RESULT ++ le32 0 ++ be32 0 ++ be32 0 ++ be32 1
  ++ be32 0 ++ be32 1 ++ be32 1 ++ be32 0 ++ be32 11 ++ be32 (vb_word 12 PM_TYPE_64).

Lemma result_overreads :
  (received result_valfmt_pdu 32 ∧ @__pmDecodeResult heap_alloc result_valfmt_pdu = Fault)
  ∧ (received result_overread_pdu 204 ∧ @__pmDecodeResult heap_alloc result_overread_pdu = Fault)
  ∧ (received result_swab_pdu 48 ∧ @__pmDecodeResult heap_alloc result_swab_pdu = Fault).
Proof. split_and!; [split_and! | | split_and! | | split_and! |]; by vm_compute. Qed.
