(* ===== verification/Protocol.v ===== *)
(** Protocol: what the PDU layer promises to the programs that talk over it.

    [Codec] is the interface of one kind of PDU: a routine that sends a message, a
    routine that decodes it, and the law that they are inverse to each other.  The
    components for the PDUs (p_*.c) supply its instances, and the theorem on an
    exchange over a byte stream ([codec_exchange]) is proved against the interface.
    The file then collects what is shown of the single PDUs: the round trips, the
    memory safety of the decoders, and where it fails. *)
From S2P Require Import Prelude Memory Types PduIO Endian PduSimple PduStatus PduInstance PduPmns.
From S2P Require Import PduProfile PduLog ValueBlock PduResult.

Record Codec `{PduAlloc} (A B : Type) := mkCodec {
  c_type : A → Z;
  c_from : Z → Z;                              (* the sender the header carries *)
  c_send : Xmit.wfd → Z → A → res (Z * buf);
  c_dec : M B;
  c_seen : Z → A → B;                          (* the message as the receiver sees it *)
  c_wf : A → Prop;
  c_size : A → Z;
  c_law fd from x :
    (∀ n, is_Some (find_pdubuf n)) → delivers fd (c_size x) → c_wf x →
    roundtrips (c_send fd from x) (c_type x) (c_from from) c_dec (c_seen from x)
}.
Arguments c_type {_ _ _}. Arguments c_from {_ _ _}. Arguments c_send {_ _ _}. Arguments c_dec {_ _ _}.
Arguments c_seen {_ _ _}. Arguments c_wf {_ _ _}. Arguments c_size {_ _ _}. Arguments c_law {_ _ _}.

(** ** The PDUs *)

Section codecs.
Context `{PduAlloc}.

Program Definition desc_req_codec : Codec Z Z :=
  mkCodec _ _ _ (λ _, PDU_DESC_REQ) id Desc.__pmSendDescReq Desc.__pmDecodeDescReq (λ _ x, x)
    is_u32 (λ _, 16) _.
Next Obligation. intros. by apply desc_req_roundtrip. Qed.
Program Definition desc_codec : Codec pmDesc pmDesc :=
  mkCodec _ _ _ (λ _, PDU_DESC) id Desc.__pmSendDesc Desc.__pmDecodeDesc (λ _ x, x)
    desc_wf (λ _, 32) _.
Next Obligation. intros. by apply desc_roundtrip. Qed.

Definition fetch_wf (x : Z * option timeval32 * list Z) : Prop :=
  is_s32 x.1.1 ∧ (∀ t, x.1.2 = Some t → tv32_wf t) ∧ Forall is_u32 x.2 ∧ x.2 ≠ []
  ∧ 36 + 4 * zlen x.2 <= INT_MAX.
Program Definition fetch_codec : Codec (Z * option timeval32 * list Z) (Z * timeval32 * list Z) :=
  mkCodec _ _ _ (λ _, PDU_FETCH) id (λ fd from x, Fetch.__pmSendFetch fd from x.1.1 x.1.2 x.2)
    Fetch.__pmDecodeFetch (λ _ x, (x.1.1, default (mkTv32 0 0) x.1.2, x.2))
    fetch_wf (λ x, 28 + 4 * zlen x.2) _.
Next Obligation. intros ????? (?&?&?&?&?). by apply fetch_roundtrip. Qed.

Program Definition text_req_codec : Codec (Z * Z) (Z * Z) :=
  mkCodec _ _ _ (λ _, PDU_TEXT_REQ) id (λ fd from x, Text.__pmSendTextReq fd from x.1 x.2)
    Text.__pmDecodeTextReq (λ _ x, x)
    (λ x, is_s32 x.1 ∧ is_s32 x.2 ∧ Text.flag x.2 Text.PM_TEXT_PMID || Text.flag x.2 Text.PM_TEXT_INDOM = true)
    (λ _, 20) _.
Next Obligation. intros ?? [??] ?? (?&?&?). by apply text_req_roundtrip. Qed.
Program Definition text_codec : Codec (Z * buf) (Z * buf) :=
  mkCodec _ _ _ (λ _, PDU_TEXT) id (λ fd from x, Text.__pmSendText fd from x.1 x.2)
    Text.__pmDecodeText (λ _ x, x)
    (λ x, is_s32 x.1 ∧ Forall (λ c, c ≠ Byte.x00) x.2 ∧ zlen x.2 < 2^31 - 24)
    (λ x, 20 + PM_PDU_SIZE_BYTES (zlen x.2)) _.
Next Obligation. intros ?? [??] ?? (?&?&?). by apply text_roundtrip. Qed.

Program Definition creds_codec : Codec (list __pmCred) (Z * list __pmCred) :=
  mkCodec _ _ _ (λ _, PDU_CREDS) s32 (λ fd from x, Creds.__pmSendCreds fd (s32 from) x)
    Creds.__pmDecodeCreds (λ from x, (s32 from, x))
    (λ x, Forall cred_wf x ∧ x ≠ [] ∧ zlen x <= 1024) (λ x, 16 + 4 * zlen x) _.
Next Obligation. intros ????? (?&?&?). apply creds_roundtrip; auto using s32_range. Qed.

Program Definition error_codec : Codec Z (Z * Z) :=
  mkCodec _ _ _ (λ _, PDU_ERROR) id Error.__pmSendError Error.__pmDecodeError (λ _ x, (0, x))
    is_s32 (λ _, 16) _.
Next Obligation. intros. by apply error_roundtrip. Qed.
Program Definition xtend_error_codec : Codec (Z * Z) (Z * Z * option Z) :=
  mkCodec _ _ _ (λ _, PDU_ERROR) id (λ fd from x, Error.__pmSendXtendError fd from x.1 x.2)
    Error.__pmDecodeXtendError (λ _ x, (Error.PDU_VERSION2, x.1, Some x.2))
    (λ x, is_s32 x.1 ∧ (x.1 <= -12345 ∨ -1000 < x.1) ∧ is_s32 x.2) (λ _, 20) _.
Next Obligation. intros ?? [??] ?? (?&?&?). by apply xtend_error_roundtrip. Qed.

Program Definition log_request_codec : Codec Z Z :=
  mkCodec _ _ _ (λ _, PDU_LOG_REQUEST) (λ _, FROM_ANON) (λ fd _ x, LogRequest.__pmSendLogRequest fd x)
    LogRequest.__pmDecodeLogRequest (λ _ x, x) is_s32 (λ _, 16) _.
Next Obligation. intros. by apply log_request_roundtrip. Qed.
Program Definition log_status_codec : Codec LogStatus.__pmLoggerStatus LogStatus.__pmLoggerStatus :=
  mkCodec _ _ _ (λ _, PDU_LOG_STATUS) (λ _, FROM_ANON) (λ fd _ x, LogStatus.__pmSendLogStatus fd x)
    LogStatus.__pmDecodeLogStatus (λ _ x, x) status_wf (λ _, 264) _.
Next Obligation. intros. by apply log_status_roundtrip. Qed.

Program Definition user_auth_codec : Codec buf (Z * option buf) :=
  mkCodec _ _ _ (λ _, PDU_USER_AUTH) id UserAuth.__pmSendUserAuth UserAuth.__pmDecodeUserAuth
    (λ _ x, (zlen x, Some x)) (λ x, x ≠ [] ∧ zlen x < 2048) (λ x, 12 + zlen x) _.
Next Obligation. intros ????? [??]. by apply user_auth_roundtrip. Qed.

Definition ireq : Type := timeval32 * Z * Z * option buf.
Definition ireq_wf (x : ireq) : Prop :=
  let '(when, indom, inst, name) := x in
  tv32_wf when ∧ is_u32 indom ∧ is_s32 inst ∧ name ≠ Some []
  ∧ Forall (λ c, c ≠ Byte.x00) (default [] name) ∧ zlen (default [] name) <= PDU_CHUNK - 32.
Program Definition instance_req_codec : Codec ireq ireq :=
  mkCodec _ _ _ (λ _, PDU_INSTANCE_REQ) id
    (λ fd from x, Instance.__pmSendInstanceReq fd from x.1.1.1 x.1.1.2 x.1.2 x.2)
    Instance.__pmDecodeInstanceReq (λ _ x, x) ireq_wf
    (λ x, 32 + PM_PDU_SIZE_BYTES (zlen (default [] x.2))) _.
Next Obligation. intros ?? [[[??]?]?] ?? (?&?&?&?&?&?). by apply instance_req_roundtrip. Qed.
Program Definition instance_codec : Codec Instance.__pmInResult Instance.__pmInResult :=
  mkCodec _ _ _ (λ _, PDU_INSTANCE) id (λ fd from x, Instance.__pmSendInstance x fd from)
    Instance.__pmDecodeInstance (λ _ x, as_received x) inresult_wf
    (λ x, 20 + zlen (insts_bytes (as_entries x))) _.
Next Obligation. intros. by apply instance_roundtrip. Qed.

Program Definition idlist_codec (numids : Z) : Codec (list Z * Z) (Z * list Z) :=
  mkCodec _ _ _ (λ _, PDU_PMNS_IDS) id (λ fd from x, IDList.__pmSendIDList fd from x.1 x.2)
    (IDList.__pmDecodeIDList numids) (λ _ x, (x.2, x.1))
    (λ x, numids = zlen x.1 ∧ is_s32 x.2 ∧ Forall is_u32 x.1 ∧ x.1 ≠ [] ∧ 28 + 4 * zlen x.1 <= INT_MAX)
    (λ x, 20 + 4 * zlen x.1) _.
Next Obligation. intros ??? [??] ?? (->&?&?&?&?). by apply idlist_roundtrip. Qed.
Program Definition name_req_codec (ty : Z) : Codec (buf * Z) (buf * Z) :=
  mkCodec _ _ _ (λ _, ty) id (λ fd from x, NameReq.SendNameReq fd from x.1 ty x.2)
    NameReq.DecodeNameReq (λ _ x, x) (λ x, is_s32 x.2 ∧ zlen x.1 < 2^31 - 24)
    (λ x, 20 + PM_PDU_SIZE_BYTES (zlen x.1)) _.
Next Obligation. intros ??? [??] ?? [??]. by apply name_req_roundtrip. Qed.
Definition names_wf (x : list buf * option (list Z)) : Prop :=
  let l := with_status x.1 x.2 in
  24 + zlen (names_bytes (has_status x.2) l) < 2^31 ∧ 8 * zlen x.1 + strbytes l + 8 <= INT_MAX
  ∧ x.1 ≠ [] ∧ ends_named l
  ∧ (∀ st, x.2 = Some st → length st = length x.1 ∧ Forall is_s32 st).
Program Definition name_list_codec : Codec (list buf * option (list Z)) (list buf * option (list Z)) :=
  mkCodec _ _ _ (λ _, PDU_PMNS_NAMES) id (λ fd from x, NameList.__pmSendNameList x.1 x.2 fd from)
    (NameList.__pmDecodeNameList true) (λ _ x, x) names_wf
    (λ x, 24 + zlen (names_bytes (has_status x.2) (with_status x.1 x.2))) _.
Next Obligation. intros ?? [??] ?? (?&?&?&?&?). by apply name_list_roundtrip. Qed.

Definition logreq : Type := list LogControl.vset * Z * Z * Z.
Definition logreq_wf (x : logreq) : Prop :=
  let '(l, control, state, delta) := x in
  28 + zlen (PduLog.vsets_bytes l) < 2^31 ∧ l ≠ [] ∧ Forall PduLog.vset_wf l
  ∧ Forall (λ v, LogControl.v_numval v < (INT_MAX - 32) / 16) l ∧ zlen l < (INT_MAX - 32) / 8
  ∧ is_s32 control ∧ is_s32 state ∧ 0 <= delta < 2^31
  ∧ ¬ (control = LogControl.PM_LOG_ADVISORY ∧ state = LogControl.PM_LOG_MAYBE).
Program Definition log_control_codec : Codec logreq logreq :=
  mkCodec _ _ _ (λ _, PDU_LOG_CONTROL) (λ _, FROM_ANON)
    (λ fd _ x, LogControl.__pmSendLogControl fd x.1.1.1 x.1.1.2 x.1.2 x.2)
    LogControl.__pmDecodeLogControl (λ _ x, x) logreq_wf (λ x, 28 + zlen (PduLog.vsets_bytes x.1.1.1)) _.
Next Obligation. intros ?? [[[??]?]?] ?? (?&?&?&?&?&?&?&?&?). by apply log_control_roundtrip. Qed.
End codecs.

(** ** An exchange over a byte stream *)

(** The bytes [bytes] and then [more] arrive in the pieces [chunks], and the
    receiver is prepared to take the PDU. *)
Record arrives (ceiling : Z) (bytes more : buf) (chunks : list buf) (mode t maxsize : Z) : Prop := {
  ar_pieces : Forall RecvFacts.nonempty chunks;
  ar_bytes : concat chunks = bytes ++ more;
  ar_sync : t ≠ Recv.TIMEOUT_ASYNC;
  ar_fits : zlen bytes < 2^31 - PDU_CHUNK;
  ar_limit : mode = Recv.LIMIT_SIZE → zlen bytes <= ceiling;
  ar_bufsize : sizeof_hdr <= maxsize < 2^31 }.

Section exchange.
Context `{PduAlloc} (alloc_ok : ∀ n, is_Some (find_pdubuf n)) (ceiling : Z).

Lemma zlen_wire ty from body : zlen (wire ty from body) = sizeof_hdr + zlen body.
Proof. unfold wire, sizeof_hdr. lens. Qed.

(** One PDU off the stream. *)
Lemma arrives_getpdu ty from body more chunks mode t maxsize :
  arrives ceiling (wire ty from body) more chunks mode t maxsize → 0 <= ty < 2^31 →
  ∃ b rest m', Recv.__pmGetPDU ceiling (Recv.RData <$> chunks) mode t maxsize
      = (Ok (Recv.GotPDU ty b), Recv.RData <$> rest, m')
    ∧ is_pdu b ty from body ∧ concat rest = more
    ∧ RecvFacts.grown maxsize (sizeof_hdr + zlen body) m' ∧ m' <= zlen b.
Proof.
  intros [Hp Hb Hs Hf Hl Hm] Hty. rewrite zlen_wire in *.
  destruct (RecvFacts.getpdu_chunks ceiling alloc_ok chunks mode t maxsize ty from body more)
    as (b & rest & m' & E & ? & _ & ? & ? & ?); try done. by exists b, rest, m'.
Qed.


Lemma grown_slack maxsize plen m :
  RecvFacts.grown maxsize plen m → plen mod 4 = 0 → maxsize mod PDU_CHUNK = 0 → plen ≠ maxsize →
  0 <= plen → plen + 4 <= m.
Proof.
  unfold RecvFacts.grown, PDU_CHUNK. intros [_ ->] ????.
  destruct (Z.ltb_spec maxsize plen); Z.to_euclidean_division_equations; lia.
Qed.

(** C2. An exchange of a result.  The values of a fetch, in situ and in value
    blocks (event records included), sent and taken off the stream in whatever
    pieces, decode to a result that is, pointers followed, the one sent.  The
    receive buffer is of a multiple of the chunk size that the PDU does not
    exactly fill. *)
Theorem result_exchange fd from r :
  delivers fd (result_size r) → result_wf r →
  ∃ bytes, Result.__pmSendResult fd from r = Ok (zlen bytes, bytes) ∧ zlen bytes = result_size r
    ∧ ∀ more chunks mode t maxsize, arrives ceiling bytes more chunks mode t maxsize →
      maxsize mod PDU_CHUNK = 0 → result_size r ≠ maxsize →
      ∃ b rest m', Recv.__pmGetPDU ceiling (Recv.RData <$> chunks) mode t maxsize
          = (Ok (Recv.GotPDU PDU_RESULT b), Recv.RData <$> rest, m')
        ∧ concat rest = more ∧ ∃ a b', Result.__pmDecodeResult b = Ok (a, b') ∧ Result.view a = r.
Proof.
  intros Hd Hwf. destruct (nets_exist (all_blocks (vset r)) (blocks_wf _ (rw_sets _ Hwf))) as [ns Hns].
  destruct (result_size_eq r ns Hwf Hns) as [Hsz _].
  exists (wire PDU_RESULT from (result_body r ns)). rewrite zlen_wire, <- Hsz.
  split_and!; [by apply result_send | done |]. intros more chunks mode t maxsize Ha Hmod Hne.
  destruct (arrives_getpdu _ _ _ _ _ _ _ _ Ha) as (b & rest & m' & E & Hb & ? & Hg & Hm); [done |].
  exists b, rest, m'. split_and!; [done | done |]. rewrite <- Hsz in Hg.
  eapply wp_noerr_run, result_decode; [done .. |].
  enough (result_size r + 4 <= m') by lia. eapply grown_slack; [done | | done | done |].
  - pose proof (vsets_size_mod (vset r)) as M1. pose proof (hosts_mod (all_blocks (vset r))) as M2.
    unfold result_size. clear -M1 M2. Z.to_euclidean_division_equations. lia.
  - rewrite Hsz. unfold sizeof_hdr. lia.
Qed.
End exchange.

(** ** The single PDUs *)

Section pdus.
Context `{PduAlloc} (fd : Xmit.wfd) (from : Z).
Hypothesis alloc_ok : ∀ n, is_Some (find_pdubuf n).

(** Requests for instances and the replies survive the wire: a request with a
    name that fits the buffer it is built in, and a reply with any number of
    instances, which arrives with the list it was built from. *)
Lemma instance_pdus_roundtrip :
  (∀ x, delivers fd (32 + PM_PDU_SIZE_BYTES (zlen (default [] x.2))) → ireq_wf x →
    roundtrips (Instance.__pmSendInstanceReq fd from x.1.1.1 x.1.1.2 x.1.2 x.2) PDU_INSTANCE_REQ from
      Instance.__pmDecodeInstanceReq x)
  ∧ (∀ r, delivers fd (20 + zlen (insts_bytes (as_entries r))) → inresult_wf r →
    roundtrips (Instance.__pmSendInstance r fd from) PDU_INSTANCE from
      Instance.__pmDecodeInstance (as_received r)).
Proof.
  split; [| auto using instance_roundtrip].
  intros [[[??]?]?] ? (?&?&?&?&?&?). by apply instance_req_roundtrip.
Qed.

(** The PDUs of the name space survive the wire: lists of metric identifiers,
    requests that carry one name, and lists of names with and without their
    status, provided the last name is not empty. *)
Lemma pmns_pdus_roundtrip :
  (∀ ids sts, delivers fd (20 + 4 * zlen ids) → is_s32 sts → Forall is_u32 ids → ids ≠ [] →
    28 + 4 * zlen ids <= INT_MAX →
    roundtrips (IDList.__pmSendIDList fd from ids sts) PDU_PMNS_IDS from
      (IDList.__pmDecodeIDList (zlen ids)) (sts, ids))
  ∧ (∀ name ty subtype, delivers fd (20 + PM_PDU_SIZE_BYTES (zlen name)) → is_s32 subtype →
    zlen name < 2^31 - 24 →
    roundtrips (NameReq.SendNameReq fd from name ty subtype) ty from NameReq.DecodeNameReq (name, subtype))
  ∧ (∀ names sl, delivers fd (24 + zlen (names_bytes (has_status sl) (with_status names sl))) →
    names_wf (names, sl) →
    roundtrips (NameList.__pmSendNameList names sl fd from) PDU_PMNS_NAMES from
      (NameList.__pmDecodeNameList true) (names, sl)).
Proof.
  split_and!; [auto using idlist_roundtrip | auto using name_req_roundtrip |].
  intros names sl ? (?&?&?&?&?). by apply name_list_roundtrip.
Qed.

(** Descriptors and help texts survive the wire, as do the requests for them. *)
Lemma desc_text_pdus_roundtrip :
  (∀ id, delivers fd 16 → is_u32 id →
    roundtrips (Desc.__pmSendDescReq fd from id) PDU_DESC_REQ from Desc.__pmDecodeDescReq id)
  ∧ (∀ d, delivers fd 32 → desc_wf d →
    roundtrips (Desc.__pmSendDesc fd from d) PDU_DESC from Desc.__pmDecodeDesc d)
  ∧ (∀ ident type, delivers fd 20 → is_s32 ident → is_s32 type →
    Text.flag type Text.PM_TEXT_PMID || Text.flag type Text.PM_TEXT_INDOM = true →
    roundtrips (Text.__pmSendTextReq fd from ident type) PDU_TEXT_REQ from
      Text.__pmDecodeTextReq (ident, type))
  ∧ (∀ ident text, delivers fd (20 + PM_PDU_SIZE_BYTES (zlen text)) → is_s32 ident →
    Forall (λ c, c ≠ Byte.x00) text → zlen text < 2^31 - 24 →
    roundtrips (Text.__pmSendText fd from ident text) PDU_TEXT from Text.__pmDecodeText (ident, text)).
Proof.
  split_and!;
    auto using desc_req_roundtrip, desc_roundtrip, text_req_roundtrip, text_roundtrip.
Qed.

(** A fetch request arrives with the context number, the time (zero for none)
    and the metrics it was sent with. *)
Lemma fetch_pdu_roundtrip ctxnum when pmids :
  delivers fd (28 + 4 * zlen pmids) → fetch_wf (ctxnum, when, pmids) →
  roundtrips (Fetch.__pmSendFetch fd from ctxnum when pmids) PDU_FETCH from
    Fetch.__pmDecodeFetch (ctxnum, default (mkTv32 0 0) when, pmids).
Proof. intros ? (?&?&?&?&?). by apply fetch_roundtrip. Qed.

(** The PDUs of session set-up and of failures survive the wire: credentials
    with their sender, authentication payloads, error codes, and extended errors
    with their datum, whose code is translated to the old numbering and back. *)
Lemma session_pdus_roundtrip :
  (∀ creds, delivers fd (16 + 4 * zlen creds) → is_s32 from → Forall cred_wf creds → creds ≠ [] →
    zlen creds <= 1024 →
    roundtrips (Creds.__pmSendCreds fd from creds) PDU_CREDS from Creds.__pmDecodeCreds (from, creds))
  ∧ (∀ payload, delivers fd (12 + zlen payload) → payload ≠ [] → zlen payload < 2048 →
    roundtrips (UserAuth.__pmSendUserAuth fd from payload) PDU_USER_AUTH from
      UserAuth.__pmDecodeUserAuth (zlen payload, Some payload))
  ∧ (∀ code, delivers fd 16 → is_s32 code →
    roundtrips (Error.__pmSendError fd from code) PDU_ERROR from Error.__pmDecodeError (0, code))
  ∧ (∀ code datum, delivers fd 20 → is_s32 code → code <= -12345 ∨ -1000 < code → is_s32 datum →
    roundtrips (Error.__pmSendXtendError fd from code datum) PDU_ERROR from
      Error.__pmDecodeXtendError (Error.PDU_VERSION2, code, Some datum)).
Proof.
  split_and!;
    auto using creds_roundtrip, user_auth_roundtrip, error_roundtrip, xtend_error_roundtrip.
Qed.

(** The PDUs between pmlc and pmlogger survive the wire: log control requests
    with at least one metric, status requests and the status reply. *)
Lemma logger_pdus_roundtrip :
  (∀ l control state delta, delivers fd (28 + zlen (PduLog.vsets_bytes l)) →
    logreq_wf (l, control, state, delta) →
    roundtrips (LogControl.__pmSendLogControl fd l control state delta) PDU_LOG_CONTROL FROM_ANON
      LogControl.__pmDecodeLogControl (l, control, state, delta))
  ∧ (∀ type, delivers fd 16 → is_s32 type →
    roundtrips (LogRequest.__pmSendLogRequest fd type) PDU_LOG_REQUEST FROM_ANON
      LogRequest.__pmDecodeLogRequest type)
  ∧ (∀ s, delivers fd 264 → status_wf s →
    roundtrips (LogStatus.__pmSendLogStatus fd s) PDU_LOG_STATUS FROM_ANON
      LogStatus.__pmDecodeLogStatus s).
Proof.
  split_and!; [| auto using log_request_roundtrip | auto using log_status_roundtrip].
  intros l control state delta ? (?&?&?&?&?&?&?&?&?). by apply log_control_roundtrip.
Qed.
End pdus.

(** ** Safety of the decoders *)

(** C7. Whatever a peer sends, these decoders stay inside the buffer that
    [__pmGetPDU] returned: they read and convert nothing outside of it, for every
    content of a PDU whose length field [__pmGetPDU] accepted. *)
Theorem decoders_safe b len :
  received b len →
  Desc.__pmDecodeDescReq b ≠ Fault ∧ Desc.__pmDecodeDesc b ≠ Fault ∧ Fetch.__pmDecodeFetch b ≠ Fault
  ∧ Error.__pmDecodeError b ≠ Fault ∧ Error.__pmDecodeXtendError b ≠ Fault
  ∧ Text.__pmDecodeTextReq b ≠ Fault ∧ Text.__pmDecodeText b ≠ Fault
  ∧ LogRequest.__pmDecodeLogRequest b ≠ Fault ∧ LogStatus.__pmDecodeLogStatus b ≠ Fault
  ∧ UserAuth.__pmDecodeUserAuth b ≠ Fault ∧ Instance.__pmDecodeInstanceReq b ≠ Fault
  ∧ NameReq.DecodeNameReq b ≠ Fault ∧ (∀ n, IDList.__pmDecodeIDList n b ≠ Fault).
Proof.
  intros Hr. split_and!; eauto using desc_req_safe, desc_safe, fetch_safe, error_safe, xtend_error_safe,
    text_req_safe, text_safe, log_request_safe, log_status_safe, user_auth_safe, instance_req_safe,
    name_req_safe, idlist_safe.
Qed.

(** The other decoders stay inside of the buffer for every content of the PDU
    if its length is a multiple of four (instances, names), if the buffer goes on
    for eleven bytes after the PDU (profiles), if it holds a word of body
    (credentials), or if one metric is announced (log control). *)
Lemma decoders_safe_if b len :
  received b len →
  (len mod 4 = 0 → Instance.__pmDecodeInstance b ≠ Fault)
  ∧ (len mod 4 = 0 → ∀ want, NameList.__pmDecodeNameList want b ≠ Fault)
  ∧ (len + 11 <= zlen b → Prof.__pmDecodeProfile b ≠ Fault)
  ∧ (16 <= zlen b → Creds.__pmDecodeCreds b ≠ Fault)
  ∧ (has b 24 (be32 1) → LogControl.__pmDecodeLogControl b ≠ Fault).
Proof.
  intros Hr. split_and!; eauto using instance_safe, name_list_safe, profile_safe, creds_safe,
    log_control_safe.
Qed.

(** Without these conditions they do not: PDUs whose length [__pmGetPDU]
    accepts make the decoders of instances, profiles and results access memory
    outside of the buffer, and make the decoder of log control requests free a
    pointer it has not set. *)
Lemma decoders_fault :
  (received overread_pdu 29 ∧ Instance.__pmDecodeInstance overread_pdu = Fault)
  ∧ (received profile_overread_pdu 1024 ∧ Prof.__pmDecodeProfile profile_overread_pdu = Fault)
  ∧ (received log_control_cut_pdu 36 ∧ LogControl.__pmDecodeLogControl log_control_cut_pdu = Fault)
  ∧ (received result_valfmt_pdu 32 ∧ @Result.__pmDecodeResult heap_alloc result_valfmt_pdu = Fault)
  ∧ (received result_overread_pdu 204 ∧ @Result.__pmDecodeResult heap_alloc result_overread_pdu = Fault)
  ∧ (received result_swab_pdu 48 ∧ @Result.__pmDecodeResult heap_alloc result_swab_pdu = Fault).
Proof.
  destruct profile_overread as (Hp & _ & Hf).
  exact (conj instance_overread (conj (conj Hp Hf) (conj log_control_bad_free result_overreads))).
Qed.

(** A request for an instance by name is built in a buffer of one chunk
    whatever the length of the name: a name of more than 992 bytes is copied past
    the end of the buffer. *)
Lemma instance_req_overflows `{PduAlloc} fd from when indom inst name b :
  find_pdubuf 4 = Some b → zlen b = PDU_CHUNK → PDU_CHUNK - 32 < zlen name →
  Instance.__pmSendInstanceReq fd from when indom inst (Some name) = Fault.
Proof. apply instance_req_overflow. Qed.

(** A log control request that names no metric is sent, but the other end
    refuses it as corrupt. *)
Lemma log_control_no_metrics `{PduAlloc} fd control state delta :
  (∀ n, is_Some (find_pdubuf n)) → delivers fd 28 → is_s32 control → is_s32 state → 0 <= delta < 2^31 →
  ¬ (control = LogControl.PM_LOG_ADVISORY ∧ state = LogControl.PM_LOG_MAYBE) →
  ∃ body, LogControl.__pmSendLogControl fd [] control state delta
            = Ok (28, wire PDU_LOG_CONTROL FROM_ANON body)
    ∧ ∀ b, is_pdu b PDU_LOG_CONTROL FROM_ANON body → LogControl.__pmDecodeLogControl b = Err PM_ERR_IPC.
Proof. intros. by apply log_control_empty. Qed.

(** ** Examples *)

(** A descriptor that takes [n] bytes in one piece. *)
Definition takes (n : Z) : Xmit.wfd := Xmit.mkWfd [n] 0.
Lemma takes_delivers n m : 0 <= n → m <= n → delivers (takes n) m.
Proof. intros. split; [by repeat constructor | simpl; lia]. Qed.

(** One metric with an in-situ value and one with a string. *)
Definition demo_result : pmResult :=
  mkResult 1 2 [mkVset 42 1 PM_VAL_INSITU [mkValue 5 (Lval 99)];
                mkVset 43 1 PM_VAL_DPTR [mkValue (-1) (Pval (mkVB PM_TYPE_STRING [Byte.x61; Byte.x00]))]].
Lemma demo_result_wf : result_wf demo_result.
Proof.
  split; cbn [stamp_sec stamp_usec vset demo_result]; [lia | lia | | | ..].
  2: repeat constructor; vm_compute; reflexivity.
  2-5: vm_compute; split || reflexivity || intros [=].
  apply Forall_cons; split; [| apply Forall_cons; split; [| constructor]].
  all: unfold vset_wf; cbn [vpmid numval valfmt vlist].
  all: rewrite Forall_singleton; unfold value_wf; cbn [val inst].
  all: split_and!; try (unfold is_u32, is_s32; lia); try done.
  split_and!; [done | done | vm_compute; reflexivity | vm_compute; lia | done].
Qed.

Lemma result_exchange_witness :
  ∃ bytes, @Result.__pmSendResult heap_alloc (takes 72) 7 demo_result = Ok (zlen bytes, bytes)
    ∧ zlen bytes = result_size demo_result
    ∧ ∀ more chunks mode t maxsize, arrives 65536 bytes more chunks mode t maxsize →
      maxsize mod PDU_CHUNK = 0 → result_size demo_result ≠ maxsize →
      ∃ b rest m', @Recv.__pmGetPDU heap_alloc 65536 (Recv.RData <$> chunks) mode t maxsize
          = (Ok (Recv.GotPDU PDU_RESULT b), Recv.RData <$> rest, m')
        ∧ concat rest = more
        ∧ ∃ a b', @Result.__pmDecodeResult heap_alloc b = Ok (a, b') ∧ Result.view a = demo_result.
Proof.
  apply (@result_exchange heap_alloc heap_alloc_ok 65536 (takes 72) 7 demo_result).
  - apply takes_delivers; by vm_compute.
  - exact demo_result_wf.
Defined.

Lemma instance_pdus_roundtrip_witness :
  roundtrips (@Instance.__pmSendInstanceReq heap_alloc (takes 36) 7 (mkTv32 1 2) 29 3 (Some [Byte.x61]))
    PDU_INSTANCE_REQ 7 Instance.__pmDecodeInstanceReq (mkTv32 1 2, 29, 3, Some [Byte.x61]).
Proof.
  apply (proj1 (@instance_pdus_roundtrip heap_alloc (takes 36) 7 heap_alloc_ok) (mkTv32 1 2, 29, 3, Some [Byte.x61])).
  - apply takes_delivers; by vm_compute.
  - split_and!; try done. by repeat constructor.
Defined.
Lemma pmns_pdus_roundtrip_witness :
  roundtrips (@IDList.__pmSendIDList heap_alloc (takes 28) 7 [42; 43] 2) PDU_PMNS_IDS 7
    (IDList.__pmDecodeIDList 2) (2, [42; 43]).
Proof.
  apply (proj1 (@pmns_pdus_roundtrip heap_alloc (takes 28) 7 heap_alloc_ok) [42; 43] 2); try done.
  - apply takes_delivers; by vm_compute.
  - by repeat constructor.
Defined.
Lemma desc_text_pdus_roundtrip_witness :
  roundtrips (@Desc.__pmSendDescReq heap_alloc (takes 16) 7 42) PDU_DESC_REQ 7 Desc.__pmDecodeDescReq 42.
Proof.
  apply (proj1 (@desc_text_pdus_roundtrip heap_alloc (takes 16) 7 heap_alloc_ok) 42); [| done].
  apply takes_delivers; by vm_compute.
Defined.
Lemma fetch_pdu_roundtrip_witness :
  roundtrips (@Fetch.__pmSendFetch heap_alloc (takes 32) 7 1 (Some (mkTv32 5 6)) [42]) PDU_FETCH 7
    Fetch.__pmDecodeFetch (1, mkTv32 5 6, [42]).
Proof.
  apply (@fetch_pdu_roundtrip heap_alloc (takes 32) 7 heap_alloc_ok 1 (Some (mkTv32 5 6)) [42]).
  - apply takes_delivers; by vm_compute.
  - split_and!; try done; [by intros ? [= <-] | by repeat constructor].
Defined.
Lemma session_pdus_roundtrip_witness :
  roundtrips (@Creds.__pmSendCreds heap_alloc (takes 20) 7 [mkCred 1 2 0 0]) PDU_CREDS 7
    Creds.__pmDecodeCreds (7, [mkCred 1 2 0 0]).
Proof.
  apply (proj1 (@session_pdus_roundtrip heap_alloc (takes 20) 7 heap_alloc_ok) [mkCred 1 2 0 0]); try done.
  - apply takes_delivers; by vm_compute.
  - by repeat constructor.
Defined.
Lemma logger_pdus_roundtrip_witness :
  roundtrips (@LogControl.__pmSendLogControl heap_alloc (takes 44) [LogControl.mkVset 42 1 [(5, 6)]] 10 1 60)
    PDU_LOG_CONTROL FROM_ANON LogControl.__pmDecodeLogControl ([LogControl.mkVset 42 1 [(5, 6)]], 10, 1, 60).
Proof.
  apply (proj1 (@logger_pdus_roundtrip heap_alloc (takes 44) heap_alloc_ok) [LogControl.mkVset 42 1 [(5, 6)]] 10 1 60).
  - apply takes_delivers; by vm_compute.
  - split_and!; try done; repeat constructor; try done. by intros [??].
Defined.

(** A PDU of 16 bytes with an arbitrary body, in a buffer of one chunk. *)
Definition demo_pdu : buf := le32 16 ++ le32 0 ++ le32 0 ++ be32 1 ++ replicate 1008 Byte.xff.
Lemma decoders_safe_witness : received demo_pdu 16 ∧ Fetch.__pmDecodeFetch demo_pdu ≠ Fault.
Proof.
  assert (received demo_pdu 16) as Hr by (split_and!; by vm_compute).
  split; [exact Hr |]. apply (decoders_safe demo_pdu 16 Hr).
Defined.
Lemma decoders_safe_if_witness : received demo_pdu 16 ∧ Prof.__pmDecodeProfile demo_pdu ≠ Fault.
Proof.
  assert (received demo_pdu 16) as Hr by (split_and!; by vm_compute).
  split; [exact Hr |]. destruct (decoders_safe_if demo_pdu 16 Hr) as (_ & _ & Hp & _).
  apply Hp. by vm_compute.
Defined.
Lemma instance_req_overflows_witness :
  @Instance.__pmSendInstanceReq heap_alloc (takes 2048) 7 (mkTv32 0 0) 29 (-1) (Some (replicate 1000 Byte.x61)) = Fault.
Proof.
  apply (@instance_req_overflows heap_alloc (takes 2048) 7 (mkTv32 0 0) 29 (-1) (replicate 1000 Byte.x61)
    (replicate 1024 Byte.x00)); by vm_compute.
Defined.
Lemma log_control_no_metrics_witness :
  ∃ body, @LogControl.__pmSendLogControl heap_alloc (takes 28) [] 10 1 60 = Ok (28, wire PDU_LOG_CONTROL FROM_ANON body)
    ∧ ∀ b, is_pdu b PDU_LOG_CONTROL FROM_ANON body → LogControl.__pmDecodeLogControl b = Err PM_ERR_IPC.
Proof.
  apply (@log_control_no_metrics heap_alloc (takes 28) 10 1 60 heap_alloc_ok); try done.
  - apply takes_delivers; by vm_compute.
  - by intros [??].
Defined.
