(* ===== verification/Hash.v ===== *)
(** The chained hash table of src/libpcp/src/hash.c, which the library uses for
    metric descriptors, instance domains and agents.

    A table is the array of its chains, and a chain is the list of its nodes in the
    order of the [next] pointers.  The cursor of [__pmHashWalk] is the pair of its
    two members: the bucket number [index] and what is left of the chain, [next].
    The abstract view of a table is the list of its nodes up to permutation
    ([nodes_of]); with unique keys it is a finite map. *)
From stdpp Require Import gmap.
From S2P Require Import Prelude.

Inductive __pmHashWalkState :=
  PM_HASH_WALK_START | PM_HASH_WALK_NEXT | PM_HASH_WALK_STOP
| PM_HASH_WALK_DELETE_NEXT | PM_HASH_WALK_DELETE_STOP.

#[global] Instance walk_state_eq_dec : EqDecision __pmHashWalkState.
Proof. solve_decision. Defined.

Module Hash.
Section hash.
Context {D : Type} `{EqDecision D}.

Record __pmHashNode := mkNode { key : Z; data : D }.
Record __pmHashCtl := mkCtl {
  nodes : Z; hsize : Z; hash : list (list __pmHashNode);
  next : list __pmHashNode; index : Z }.

#[global] Instance node_eq_dec : EqDecision __pmHashNode.
Proof. solve_decision. Defined.

(** The table a client starts with: all zero. *)
Definition empty_ctl : __pmHashCtl := mkCtl 0 0 [] [] 0.

Definition bucket (k h : Z) : nat := Z.to_nat (k `mod` h).
Definition chain (n : nat) (t : list (list __pmHashNode)) : list __pmHashNode :=
  default [] (t !! n).

Fixpoint search_chain (k : Z) (c : list __pmHashNode) : option __pmHashNode :=
  match c with
  | [] => None
  | hp :: c => if key hp =? k then Some hp else search_chain k c
  end.
Definition __pmHashSearch (k : Z) (hcp : __pmHashCtl) : option __pmHashNode :=
  if hsize hcp =? 0 then None
  else search_chain k (chain (bucket k (hsize hcp)) (hash hcp)).

(** Link a node in front of its chain. *)
Definition link (h : Z) (tp : __pmHashNode) (t : list (list __pmHashNode)) :=
  let k := bucket (key tp) h in <[k := tp :: chain k t]> t.
Fixpoint relink_chain (h : Z) (c : list __pmHashNode) (t : list (list __pmHashNode)) :=
  match c with
  | [] => t
  | tp :: c => relink_chain h c (link h tp t)
  end.
(** The chains of the old table, last one first. *)
Fixpoint relink (h : Z) (old : list (list __pmHashNode)) (oldsize : nat)
    (t : list (list __pmHashNode)) :=
  match oldsize with
  | O => t
  | S n => relink h old n (relink_chain h (chain n old) t)
  end.
Definition grow_size (h : Z) : Z :=
  let h := s32 (h * 2) in
  let h := if negb (h `mod` 2 =? 0) then s32 (h + 1) else h in
  let h := if negb (h `mod` 3 =? 0) then s32 (h + 2) else h in
  if negb (h `mod` 5 =? 0) then s32 (h + 2) else h.
(** The table before the new node is linked: created, grown or as it was. *)
Definition resize (hcp : __pmHashCtl) : __pmHashCtl :=
  let n := s32 (nodes hcp + 1) in
  if hsize hcp =? 0 then mkCtl n 1 [[]] (next hcp) (index hcp)
  else if hsize hcp <? Z.quot n 4 then
    let h := grow_size (hsize hcp) in
    mkCtl n h (relink h (hash hcp) (Z.to_nat (hsize hcp)) (replicate (Z.to_nat h) []))
      (next hcp) (index hcp)
  else mkCtl n (hsize hcp) (hash hcp) (next hcp) (index hcp).
Definition __pmHashAdd (k : Z) (d : D) (hcp : __pmHashCtl) : Z * __pmHashCtl :=
  let h := resize hcp in
  (1, mkCtl (nodes h) (hsize h) (link (hsize h) (mkNode k d) (hash h)) (next h) (index h)).

(** The chain without the first node of this key and this data. *)
Fixpoint unlink (k : Z) (d : D) (c : list __pmHashNode) : option (list __pmHashNode) :=
  match c with
  | [] => None
  | hp :: c =>
      if (key hp =? k) && bool_decide (data hp = d) then Some c
      else option_map (cons hp) (unlink k d c)
  end.
Definition __pmHashDel (k : Z) (d : D) (hcp : __pmHashCtl) : Z * __pmHashCtl :=
  if hsize hcp =? 0 then (0, hcp)
  else
    let n := bucket k (hsize hcp) in
    match unlink k d (chain n (hash hcp)) with
    | Some c => (1, mkCtl (nodes hcp) (hsize hcp) (<[n := c]> (hash hcp)) (next hcp) (index hcp))
    | None => (0, hcp)
    end.

Section walk_cb.
(** The callback with its private data [cdata]. *)
Context {C : Type} (cb : __pmHashNode → C → __pmHashWalkState * C).
(** A chain: what is left of it, the callback's data, whether to go on. *)
Fixpoint walk_chain (c : list __pmHashNode) (cd : C) : list __pmHashNode * C * bool :=
  match c with
  | [] => ([], cd, true)
  | tp :: c =>
      let '(st, cd) := cb tp cd in
      match st with
      | PM_HASH_WALK_DELETE_STOP => (c, cd, false)
      | PM_HASH_WALK_NEXT =>
          let '(c', cd, go) := walk_chain c cd in (tp :: c', cd, go)
      | PM_HASH_WALK_DELETE_NEXT => walk_chain c cd
      | PM_HASH_WALK_STOP | PM_HASH_WALK_START => (tp :: c, cd, false)
      end
  end.
Fixpoint walk_chains (t : list (list __pmHashNode)) (cd : C) : list (list __pmHashNode) * C :=
  match t with
  | [] => ([], cd)
  | c :: t =>
      let '(c', cd, go) := walk_chain c cd in
      if go : bool then let '(t', cd) := walk_chains t cd in (c' :: t', cd)
      else (c' :: t, cd)
  end.
Definition __pmHashWalkCB (cd : C) (hcp : __pmHashCtl) : __pmHashCtl * C :=
  let '(t, cd) := walk_chains (hash hcp) cd in
  (mkCtl (nodes hcp) (hsize hcp) t (next hcp) (index hcp), cd).
End walk_cb.

(** Skip the empty chains; [fuel] bounds the chains still to be looked at. *)
Fixpoint walk_skip (fuel : nat) (hcp : __pmHashCtl) : option __pmHashNode * __pmHashCtl :=
  match next hcp with
  | node :: nx => (Some node, mkCtl (nodes hcp) (hsize hcp) (hash hcp) nx (index hcp))
  | [] =>
      let i := u32 (index hcp + 1) in
      if hsize hcp <=? i then (None, mkCtl (nodes hcp) (hsize hcp) (hash hcp) [] i)
      else
        match fuel with
        | O => (None, hcp)
        | S fuel =>
            walk_skip fuel (mkCtl (nodes hcp) (hsize hcp) (hash hcp) (chain (Z.to_nat i) (hash hcp)) i)
        end
  end.
Definition __pmHashWalk (hcp : __pmHashCtl) (st : __pmHashWalkState)
    : option __pmHashNode * __pmHashCtl :=
  if hsize hcp =? 0 then (None, hcp)
  else
    let hcp := if bool_decide (st = PM_HASH_WALK_START)
      then mkCtl (nodes hcp) (hsize hcp) (hash hcp) (chain 0 (hash hcp)) 0 else hcp in
    walk_skip (Z.to_nat (hsize hcp)) hcp.

(** ** The invariant *)

Definition nodes_of (hcp : __pmHashCtl) : list __pmHashNode := concat (hash hcp).
Definition placed (h : Z) (t : list (list __pmHashNode)) : Prop :=
  ∀ n c, t !! n = Some c → Forall (λ nd, bucket (key nd) h = n) c.
(** Every node is in the chain of its key, and the table is large enough for the
    nodes that were ever added. *)
Record inv (hcp : __pmHashCtl) : Prop := {
  inv_size : hsize hcp = zlen (hash hcp);
  inv_placed : placed (hsize hcp) (hash hcp);
  inv_nodes : zlen (nodes_of hcp) <= nodes hcp <= INT_MAX;
  inv_hsize : hsize hcp <= nodes hcp;
  inv_load : nodes hcp `div` 4 <= hsize hcp }.

Lemma bucket_lt k h : 0 < h → (bucket k h < Z.to_nat h)%nat.
Proof. intros. unfold bucket. pose proof (Z.mod_pos_bound k h). lia. Qed.

Lemma concat_insert {A} (t : list (list A)) n c c' :
  t !! n = Some c → concat (<[n := c']> t) = concat (take n t) ++ c' ++ concat (drop (S n) t).
Proof.
  intros Hn. rewrite insert_take_drop by eauto using lookup_lt_Some.
  by rewrite concat_app.
Qed.
Lemma concat_split {A} (t : list (list A)) n c :
  t !! n = Some c → concat t = concat (take n t) ++ c ++ concat (drop (S n) t).
Proof. intros Hn. rewrite <- (concat_insert t n c c Hn). by rewrite list_insert_id. Qed.
Lemma chain_lookup n (t : list (list __pmHashNode)) :
  (n < length t)%nat → t !! n = Some (chain n t).
Proof. intros [c E]%lookup_lt_is_Some. unfold chain. by rewrite E. Qed.

Lemma link_length h tp t : length (link h tp t) = length t.
Proof. apply length_insert. Qed.
Lemma link_perm h tp t :
  0 < h → h = zlen t → concat (link h tp t) ≡ₚ tp :: concat t.
Proof.
  intros Hh E. pose proof (bucket_lt (key tp) h Hh).
  assert (t !! bucket (key tp) h = Some (chain (bucket (key tp) h) t)) as Hn
    by (apply chain_lookup; lia).
  unfold link. rewrite (concat_insert _ _ _ _ Hn). rewrite (concat_split _ _ _ Hn).
  symmetry. apply Permutation_middle.
Qed.
Lemma placed_insert h t n c :
  placed h t → Forall (λ nd, bucket (key nd) h = n) c → placed h (<[n := c]> t).
Proof.
  intros Ht Hc m c' [(-> & -> & _) | [_ E]]%list_lookup_insert_Some; [done | by apply Ht].
Qed.
Lemma placed_chain h t n : placed h t → Forall (λ nd, bucket (key nd) h = n) (chain n t).
Proof. intros Ht. unfold chain. destruct (t !! n) eqn:E; simpl; [by apply Ht | done]. Qed.
Lemma link_placed h tp t : placed h t → placed h (link h tp t).
Proof. intros. apply placed_insert; [done |]. constructor; [done | by apply placed_chain]. Qed.

Lemma relink_chain_ok h c t :
  0 < h → h = zlen t → placed h t →
  h = zlen (relink_chain h c t) ∧ placed h (relink_chain h c t)
  ∧ concat (relink_chain h c t) ≡ₚ c ++ concat t.
Proof.
  intros Hh. revert t. induction c as [|tp c IH]; intros t E Hp; simpl; [done |].
  destruct (IH (link h tp t)) as (E' & Hp' & P); [by rewrite link_length | by apply link_placed |].
  split_and!; [done | done |]. rewrite P, link_perm by done. by rewrite Permutation_middle.
Qed.
Lemma relink_ok h old n t :
  0 < h → h = zlen t → placed h t → (n <= length old)%nat →
  h = zlen (relink h old n t) ∧ placed h (relink h old n t)
  ∧ concat (relink h old n t) ≡ₚ concat (take n old) ++ concat t.
Proof.
  intros Hh. revert t. induction n as [|n IH]; intros t E Hp Hn; simpl; [done |].
  destruct (relink_chain_ok h (chain n old) t Hh E Hp) as (E1 & Hp1 & P1).
  destruct (IH _ E1 Hp1) as (E2 & Hp2 & P2); [lia |].
  split_and!; [done | done |]. rewrite P2, P1.
  rewrite (take_S_r _ _ (chain n old)) by (apply chain_lookup; lia).
  rewrite concat_app. simpl. by rewrite app_nil_r, <- app_assoc.
Qed.

Lemma concat_replicate_nil {A} n : concat (replicate n (@nil A)) = [].
Proof. by induction n. Qed.
Lemma placed_replicate h n : placed h (replicate n []).
Proof. intros m c [-> _]%lookup_replicate. done. Qed.

Lemma grow_size_range h : 0 < h → h < 2^29 → 2 * h <= grow_size h <= 2 * h + 5.
Proof.
  assert (∀ (b : bool) x c, 0 <= c <= 2 → 0 <= x < 2^31 - 2 →
    x <= (if b then s32 (x + c) else x) <= x + c) as Hif.
  { intros [] x c ??; [rewrite s32_id by (split; lia) |]; lia. }
  intros ??. unfold grow_size. rewrite (s32_id (h * 2)) by (split; lia).
  match goal with |- context [if ?b then s32 (h * 2 + 1) else _] =>
    pose proof (Hif b (h * 2) 1 ltac:(lia) ltac:(lia)) as H1 end.
  revert H1. generalize (if negb ((h * 2) `mod` 2 =? 0) then s32 (h * 2 + 1) else h * 2). intros x H1.
  match goal with |- context [if ?b then s32 (x + 2) else _] =>
    pose proof (Hif b x 2 ltac:(lia) ltac:(lia)) as H2 end.
  revert H2. generalize (if negb (x `mod` 3 =? 0) then s32 (x + 2) else x). intros y H2.
  match goal with |- context [if ?b then s32 (y + 2) else _] =>
    pose proof (Hif b y 2 ltac:(lia) ltac:(lia)) end. lia.
Qed.

Lemma resize_ok hcp :
  inv hcp → nodes hcp < INT_MAX →
  let h := resize hcp in
  nodes h = nodes hcp + 1 ∧ 0 < hsize h ∧ hsize h = zlen (hash h) ∧ placed (hsize h) (hash h)
  ∧ nodes_of h ≡ₚ nodes_of hcp ∧ hsize h <= nodes h ∧ nodes h `div` 4 <= hsize h.
Proof.
  intros [Hs Hp Hn Hz Hl] Hmax. unfold resize, INT_MAX in *.
  assert (0 <= nodes hcp) by lia. rewrite s32_id by (split; lia).
  destruct (Z.eqb_spec (hsize hcp) 0) as [E|E]; simpl.
  - rewrite E in *. unfold nodes_of in *. destruct (hash hcp); [| simpl in Hs; lia].
    split_and!; try done; try (Z.to_euclidean_division_equations; lia).
    intros [|n] c; [by intros [= <-] | done].
  - rewrite Z.quot_div_nonneg by lia. destruct (Z.ltb_spec (hsize hcp) ((nodes hcp + 1) `div` 4)); simpl.
    + assert (hsize hcp < 2^29) as Hlt by (Z.to_euclidean_division_equations; lia).
      pose proof (grow_size_range (hsize hcp) ltac:(lia) Hlt) as Hg.
      destruct (relink_ok (grow_size (hsize hcp)) (hash hcp) (Z.to_nat (hsize hcp))
        (replicate (Z.to_nat (grow_size (hsize hcp))) [])) as (E1 & P1 & C1);
        [lia | rewrite length_replicate; lia | apply placed_replicate | lia |].
      split_and!; try done; try (Z.to_euclidean_division_equations; lia).
      unfold nodes_of; simpl. rewrite C1, concat_replicate_nil, app_nil_r.
      by rewrite take_ge by lia.
    + split_and!; try done; Z.to_euclidean_division_equations; lia.
Qed.

Lemma add_ok k d hcp :
  inv hcp → nodes hcp < INT_MAX →
  inv (__pmHashAdd k d hcp).2 ∧ nodes (__pmHashAdd k d hcp).2 = nodes hcp + 1
  ∧ nodes_of (__pmHashAdd k d hcp).2 ≡ₚ mkNode k d :: nodes_of hcp.
Proof.
  intros Hi Hmax. pose proof (inv_nodes _ Hi) as Hn.
  destruct (resize_ok hcp Hi Hmax) as (En & H0 & Es & Hp & P & Hz & Hl).
  unfold __pmHashAdd. cbn [snd nodes].
  assert (nodes_of (mkCtl (nodes (resize hcp)) (hsize (resize hcp))
    (link (hsize (resize hcp)) (mkNode k d) (hash (resize hcp)))
    (next (resize hcp)) (index (resize hcp))) ≡ₚ mkNode k d :: nodes_of hcp) as PP.
  { unfold nodes_of at 1. cbn [hash]. by rewrite link_perm, <- P by done. }
  split_and!; [split; cbn [hsize hash nodes] | done | done]; try done.
  - by rewrite link_length.
  - by apply link_placed.
  - rewrite (Permutation_length PP). cbn [length]. lia.
Qed.

(** ** Search and deletion *)

Lemma search_chain_ok k c :
  match search_chain k c with
  | Some nd => nd ∈ c ∧ key nd = k
  | None => ∀ nd, nd ∈ c → key nd ≠ k
  end.
Proof.
  induction c as [|hp c IH]; simpl; [intros ? []%elem_of_nil |].
  destruct (Z.eqb_spec (key hp) k); [by split; [left |] |].
  destruct (search_chain k c) as [nd|]; [destruct IH; by split; [right |] |].
  intros nd [-> | ?]%elem_of_cons; [done | by apply IH].
Qed.
Lemma list_elem_of_concat {A} (x : A) (t : list (list A)) : x ∈ concat t ↔ ∃ c, x ∈ c ∧ c ∈ t.
Proof.
  rewrite list_elem_of_In, in_concat. split; intros (c & ? & ?); exists c.
  - by rewrite !list_elem_of_In.
  - by rewrite <- !list_elem_of_In.
Qed.
Lemma elem_of_chain nd hcp :
  inv hcp → nd ∈ nodes_of hcp →
  hsize hcp ≠ 0 ∧ nd ∈ chain (bucket (key nd) (hsize hcp)) (hash hcp).
Proof.
  intros Hi (c & Hc & (n & Hn)%list_elem_of_lookup)%list_elem_of_concat.
  split; [rewrite (inv_size _ Hi); apply lookup_lt_Some in Hn; lia |].
  pose proof (inv_placed _ Hi _ _ Hn) as Hp. rewrite Forall_forall in Hp. rewrite (Hp _ Hc).
  unfold chain. by rewrite Hn.
Qed.
Lemma chain_elem_of nd n t : nd ∈ chain n t → nd ∈ concat t.
Proof.
  unfold chain. destruct (t !! n) as [c|] eqn:E; simpl; [| by intros []%elem_of_nil].
  intros. apply list_elem_of_concat. exists c. split; [done | by eapply list_elem_of_lookup_2].
Qed.

Lemma search_ok k hcp :
  inv hcp →
  match __pmHashSearch k hcp with
  | Some nd => nd ∈ nodes_of hcp ∧ key nd = k
  | None => ∀ nd, nd ∈ nodes_of hcp → key nd ≠ k
  end.
Proof.
  intros Hi. unfold __pmHashSearch. destruct (Z.eqb_spec (hsize hcp) 0) as [E|E].
  - intros nd Hnd. destruct (elem_of_chain nd hcp Hi Hnd). done.
  - pose proof (search_chain_ok k (chain (bucket k (hsize hcp)) (hash hcp))) as Hs.
    destruct (search_chain _ _) as [nd|].
    + destruct Hs as [Hc ?]. split; [by eapply chain_elem_of | done].
    + intros nd Hnd <-. destruct (elem_of_chain nd hcp Hi Hnd) as [_ Hc]. by apply (Hs nd).
Qed.

Lemma unlink_ok k d c :
  match unlink k d c with
  | Some c' => c ≡ₚ mkNode k d :: c' ∧ sublist c' c
  | None => mkNode k d ∉ c
  end.
Proof.
  induction c as [|[k' d'] c IH]; simpl; [apply not_elem_of_nil |].
  destruct (Z.eqb_spec k' k) as [->|]; simpl.
  - destruct (bool_decide_reflect (d' = d)) as [->|Hd]; simpl.
    + by split; [| apply sublist_cons].
    + destruct (unlink k d c) as [c'|]; simpl.
      * destruct IH as [P ?]. split; [rewrite P; constructor | by apply sublist_skip].
      * by intros [[= ->] | ?]%elem_of_cons.
  - destruct (unlink k d c) as [c'|]; simpl.
    + destruct IH as [P ?]. split; [rewrite P; constructor | by apply sublist_skip].
    + by intros [[= ->] | ?]%elem_of_cons.
Qed.

(** Replacing chains by parts of themselves. *)
Lemma inv_sub hcp t nx i :
  inv hcp → Forall2 sublist t (hash hcp) →
  inv (mkCtl (nodes hcp) (hsize hcp) t nx i).
Proof.
  intros Hi Hs. pose proof (inv_nodes _ Hi). split; simpl; try apply Hi.
  - rewrite (Forall2_length _ _ _ Hs). apply Hi.
  - intros n c Hn. destruct (Forall2_lookup_l _ _ _ _ _ Hs Hn) as (c' & Hc' & Hsub).
    pose proof (inv_placed _ Hi _ _ Hc') as Hp. rewrite Forall_forall in *.
    intros nd Hnd. apply Hp. by eapply elem_of_sublist.
  - assert (length (concat t) <= length (nodes_of hcp))%nat; [| unfold nodes_of at 1; simpl; lia].
    unfold nodes_of. clear -Hs. induction Hs as [|c c' t t' Hc ? IH]; simpl; [lia |].
    rewrite !length_app. apply sublist_length in Hc. lia.
Qed.
Lemma sublist_refl_all (t : list (list __pmHashNode)) : Forall2 sublist t t.
Proof. apply Forall_Forall2_diag, Forall_true. done. Qed.

Lemma del_ok k d hcp :
  inv hcp →
  inv (__pmHashDel k d hcp).2
  ∧ (mkNode k d ∈ nodes_of hcp →
     (__pmHashDel k d hcp).1 = 1 ∧ nodes_of hcp ≡ₚ mkNode k d :: nodes_of (__pmHashDel k d hcp).2)
  ∧ (mkNode k d ∉ nodes_of hcp → __pmHashDel k d hcp = (0, hcp)).
Proof.
  intros Hi. unfold __pmHashDel. destruct (Z.eqb_spec (hsize hcp) 0) as [E|E].
  { split_and!; [done | | done]. intros Hnd. by destruct (elem_of_chain _ hcp Hi Hnd). }
  set (n := bucket k (hsize hcp)). pose proof (unlink_ok k d (chain n (hash hcp))) as Hu.
  pose proof (bucket_lt k (hsize hcp)) as Hlt. pose proof (inv_size _ Hi) as Hs.
  assert (hash hcp !! n = Some (chain n (hash hcp))) as Hn by (apply chain_lookup; lia).
  destruct (unlink k d (chain n (hash hcp))) as [c'|]; simpl.
  - destruct Hu as [P Hsub].
    assert (nodes_of hcp ≡ₚ mkNode k d :: concat (<[n:=c']> (hash hcp))) as PP.
    { unfold nodes_of. rewrite (concat_split _ _ _ Hn), (concat_insert _ _ _ c' Hn), P.
      symmetry. apply (Permutation_middle _ (c' ++ _)). }
    split_and!; [| done |].
    + apply inv_sub; [done |]. rewrite <- (list_insert_id (hash hcp) n (chain n (hash hcp))) at 2 by done.
      apply Forall2_insert; [apply sublist_refl_all | done].
    + intros []. rewrite PP. by left.
  - split_and!; [done | | done]. intros Hnd. exfalso. apply Hu.
    by apply (elem_of_chain _ hcp Hi Hnd).
Qed.

(** ** The walks *)

Lemma walk_chain_sub {C} (cb : __pmHashNode → C → __pmHashWalkState * C) c cd :
  sublist (walk_chain cb c cd).1.1 c.
Proof.
  revert cd. induction c as [|tp c IH]; intros cd; simpl; [done |].
  destruct (cb tp cd) as [[] cd']; simpl; try done; try by apply sublist_cons.
  - specialize (IH cd'). destruct (walk_chain cb c cd') as [[??]?]; simpl in *. by apply sublist_skip.
Qed.
Lemma walk_chains_sub {C} (cb : __pmHashNode → C → __pmHashWalkState * C) t cd :
  Forall2 sublist (walk_chains cb t cd).1 t.
Proof.
  revert cd. induction t as [|c t IH]; intros cd; simpl; [done |].
  pose proof (walk_chain_sub cb c cd). destruct (walk_chain cb c cd) as [[c' cd'] []]; simpl in *.
  - specialize (IH cd'). destruct (walk_chains cb t cd') as [??]; simpl in *. by constructor.
  - constructor; [done | apply sublist_refl_all].
Qed.
Lemma walk_cb_inv {C} (cb : __pmHashNode → C → __pmHashWalkState * C) cd hcp :
  inv hcp → inv (__pmHashWalkCB cb cd hcp).1.
Proof.
  intros Hi. unfold __pmHashWalkCB. pose proof (walk_chains_sub cb (hash hcp) cd).
  destruct (walk_chains cb (hash hcp) cd); simpl in *. by apply inv_sub.
Qed.

(** The nodes the cursor has still to return. *)
Definition remaining (hcp : __pmHashCtl) : list __pmHashNode :=
  next hcp ++ concat (drop (S (Z.to_nat (index hcp))) (hash hcp)).

Lemma walk_skip_ok fuel hcp :
  hsize hcp = zlen (hash hcp) → hsize hcp <= INT_MAX → 0 <= index hcp < hsize hcp →
  hsize hcp <= index hcp + 1 + Z.of_nat fuel →
  match remaining hcp with
  | [] => (walk_skip fuel hcp).1 = None
  | nd :: r => ∃ nx i, walk_skip fuel hcp = (Some nd, mkCtl (nodes hcp) (hsize hcp) (hash hcp) nx i)
      ∧ 0 <= i < hsize hcp ∧ remaining (mkCtl (nodes hcp) (hsize hcp) (hash hcp) nx i) = r
  end.
Proof.
  revert hcp. induction fuel as [|fuel IH]; intros [nd hs t nx i] Hs Hmax Hi Hf;
    cbn [nodes hsize hash next index] in *; unfold INT_MAX in *.
  all: destruct nx as [|node nx]; [| by exists nx, i].
  all: unfold remaining at 1; cbn [app next index hash nodes hsize walk_skip].
  all: rewrite !u32_id by (split; lia).
  - destruct (Z.leb_spec hs (i + 1)); [| lia]. by rewrite drop_ge by lia.
  - destruct (Z.leb_spec hs (i + 1)); [by rewrite drop_ge by lia |].
    assert (t !! S (Z.to_nat i) = Some (chain (Z.to_nat (i + 1)) t)) as Hc.
    { replace (S (Z.to_nat i)) with (Z.to_nat (i + 1)) by lia. apply chain_lookup. lia. }
    specialize (IH (mkCtl nd hs t (chain (Z.to_nat (i + 1)) t) (i + 1))).
    cbn [nodes hsize hash next index] in IH. unfold remaining at 1 in IH. cbn [next index hash] in IH.
    replace (S (Z.to_nat (i + 1))) with (S (S (Z.to_nat i))) in IH by lia.
    rewrite (drop_S _ _ _ Hc). cbn [concat]. apply IH; lia.
Qed.

(** The client's loop: [__pmHashWalk] with [PM_HASH_WALK_START], then with
    [PM_HASH_WALK_NEXT] until it returns [NULL]. *)
Fixpoint walk_all (fuel : nat) (st : __pmHashWalkState) (hcp : __pmHashCtl)
    : option (list __pmHashNode) :=
  match fuel with
  | O => None
  | S fuel =>
      match __pmHashWalk hcp st with
      | (None, _) => Some []
      | (Some nd, hcp) => option_map (cons nd) (walk_all fuel PM_HASH_WALK_NEXT hcp)
      end
  end.

Lemma walk_rest fuel hcp :
  hsize hcp = zlen (hash hcp) → hsize hcp <= INT_MAX → 0 <= index hcp < hsize hcp →
  (length (remaining hcp) < fuel)%nat →
  walk_all fuel PM_HASH_WALK_NEXT hcp = Some (remaining hcp).
Proof.
  revert hcp. induction fuel as [|fuel IH]; intros hcp Hs Hmax Hi Hf; [lia |].
  pose proof (walk_skip_ok (Z.to_nat (hsize hcp)) hcp Hs Hmax Hi ltac:(lia)) as Hw.
  cbn [walk_all]. unfold __pmHashWalk. destruct (Z.eqb_spec (hsize hcp) 0); [lia |].
  rewrite bool_decide_eq_false_2 by done. destruct (remaining hcp) as [|nd r].
  - destruct (walk_skip _ _) as [[] ?]; [done | done].
  - destruct Hw as (nx & i & -> & ? & E). rewrite IH, E; simpl in *; try done. rewrite E. lia.
Qed.

(** ** Properties *)

(** One operation on a table. *)
Definition hash_step (h h' : __pmHashCtl) : Prop :=
  (∃ k d, nodes h < INT_MAX ∧ h' = (__pmHashAdd k d h).2)
  ∨ (∃ k d, h' = (__pmHashDel k d h).2)
  ∨ (∃ (cb : __pmHashNode → D → __pmHashWalkState * D) cd, h' = (__pmHashWalkCB cb cd h).1).

(** Whatever sequence of additions, deletions and walks with a callback a
    table has been through, every node is in the chain its key selects, the
    number of chains is the size recorded, it never exceeds the number of
    additions, and a table with [n] additions has at least [n / 4] chains. *)
Lemma hash_reachable_inv hcp : rtc hash_step empty_ctl hcp → inv hcp.
Proof.
  assert (inv empty_ctl) as H0 by (split; try done; by intros ??).
  intros H. revert H0. induction H as [|h h' h'' Hs ? IH]; [done |]. intros Hi. apply IH.
  destruct Hs as [(k & d & ? & ->) | [(k & d & ->) | (cb & cd & ->)]].
  - by apply add_ok.
  - by apply del_ok.
  - by apply walk_cb_inv.
Qed.

(** The map a table with unique keys stands for. *)
Definition to_pair (nd : __pmHashNode) : Z * D := (key nd, data nd).
Definition to_map (hcp : __pmHashCtl) : gmap Z D := list_to_map (to_pair <$> nodes_of hcp).
Definition uniq (hcp : __pmHashCtl) : Prop := NoDup (key <$> nodes_of hcp).

Lemma uniq_fst hcp : uniq hcp → NoDup (to_pair <$> nodes_of hcp).*1.
Proof. intros. by rewrite <- list_fmap_compose. Qed.
Lemma to_map_perm hcp k d l :
  uniq hcp → nodes_of hcp ≡ₚ mkNode k d :: l →
  NoDup (key <$> l) ∧ (k ∉ (key <$> l)) ∧ to_map hcp = <[k := d]> (list_to_map (to_pair <$> l)).
Proof.
  intros Hu P. unfold uniq in Hu. pose proof (uniq_fst _ Hu) as Hf. rewrite P in Hu.
  apply NoDup_cons in Hu as [??]. split_and!; [done | done |].
  unfold to_map. by rewrite (list_to_map_proper _ _ Hf (fmap_Permutation _ _ _ P)).
Qed.
Lemma to_map_Some hcp k d : uniq hcp → (to_map hcp !! k = Some d) ↔ mkNode k d ∈ nodes_of hcp.
Proof.
  intros Hu. unfold to_map. rewrite <- elem_of_list_to_map by by apply uniq_fst.
  rewrite list_elem_of_fmap. split.
  - intros ([k' d'] & [= -> ->] & ?). done.
  - intros. by exists (mkNode k d).
Qed.
Lemma to_map_None hcp k : (to_map hcp !! k = None) ↔ ∀ nd, nd ∈ nodes_of hcp → key nd ≠ k.
Proof.
  unfold to_map. rewrite <- not_elem_of_list_to_map, <- list_fmap_compose, list_elem_of_fmap.
  split; [intros Hn nd ? <-; by apply Hn; exists nd | by intros Hn (nd & -> & ?); apply (Hn nd)].
Qed.

(** C30. A table in which no key occurs twice implements a finite map: a search
    returns the binding of the key or nothing, adding an absent key inserts it,
    deleting a binding that is there removes it and returns 1, and deleting any
    other changes nothing and returns 0. *)
Theorem hash_refines_map hcp :
  inv hcp → uniq hcp →
  (∀ k, data <$> __pmHashSearch k hcp = to_map hcp !! k)
  ∧ (∀ k d, to_map hcp !! k = None → nodes hcp < INT_MAX →
      let '(sts, h) := __pmHashAdd k d hcp in
      sts = 1 ∧ uniq h ∧ to_map h = <[k := d]> (to_map hcp))
  ∧ (∀ k d, to_map hcp !! k = Some d →
      let '(sts, h) := __pmHashDel k d hcp in
      sts = 1 ∧ uniq h ∧ to_map h = delete k (to_map hcp))
  ∧ (∀ k d, (to_map hcp !! k ≠ Some d) → __pmHashDel k d hcp = (0, hcp)).
Proof.
  intros Hi Hu. split_and!.
  - intros k. symmetry. pose proof (search_ok k hcp Hi) as Hs. destruct (__pmHashSearch k hcp) as [[k' d]|]; simpl.
    + destruct Hs as [Hs <-]. by apply to_map_Some.
    + by apply to_map_None.
  - intros k d Hk Hmax. destruct (add_ok k d hcp Hi Hmax) as (_ & _ & P).
    assert ((__pmHashAdd k d hcp).1 = 1) as H1 by done.
    destruct (__pmHashAdd k d hcp) as [sts h]; cbn [fst snd] in *. assert (uniq h) as Hu'.
    { unfold uniq. rewrite P. apply NoDup_cons; split; [| done]. intros (nd & E & ?)%list_elem_of_fmap.
      by eapply to_map_None. }
    split_and!; [done | done |]. by destruct (to_map_perm _ _ _ _ Hu' P) as (_ & _ & ->).
  - intros k d Hk. apply to_map_Some in Hk; [| done]. destruct (del_ok k d hcp Hi) as (_ & Hin & _).
    destruct (Hin Hk) as [H1 P]. destruct (__pmHashDel k d hcp) as [sts h]; simpl in *.
    destruct (to_map_perm _ _ _ _ Hu P) as (? & Hn & ->). split_and!; [done | done |].
    rewrite delete_insert_id; [done |]. apply not_elem_of_list_to_map. by rewrite <- list_fmap_compose.
  - intros k d Hk. apply del_ok; [done |]. by rewrite <- to_map_Some.
Qed.

(** The loop over [__pmHashWalk] ends and returns every node of the table
    exactly once, chain after chain, wherever an earlier walk had stopped. *)
Lemma hash_walk_all hcp fuel :
  inv hcp → (length (nodes_of hcp) < fuel)%nat →
  walk_all fuel PM_HASH_WALK_START hcp = Some (nodes_of hcp).
Proof.
  intros Hi Hf. pose proof (inv_size _ Hi) as Hs. pose proof (inv_hsize _ Hi). pose proof (inv_nodes _ Hi).
  destruct (Z.eq_dec (hsize hcp) 0) as [E|E].
  - unfold nodes_of in *. destruct (hash hcp) eqn:Eh; [| simpl in Hs; lia].
    destruct fuel; [lia |]. cbn [walk_all]. unfold __pmHashWalk. by rewrite E.
  - set (h0 := mkCtl (nodes hcp) (hsize hcp) (hash hcp) (chain 0 (hash hcp)) 0).
    assert (walk_all fuel PM_HASH_WALK_START hcp = walk_all fuel PM_HASH_WALK_NEXT h0) as ->.
    { destruct fuel; [lia |]. cbn [walk_all].
      assert (__pmHashWalk hcp PM_HASH_WALK_START = __pmHashWalk h0 PM_HASH_WALK_NEXT) as ->; [| done].
      unfold __pmHashWalk, h0. cbn [hsize]. by destruct (Z.eqb_spec (hsize hcp) 0). }
    assert (remaining h0 = nodes_of hcp) as Hr.
    { unfold remaining, nodes_of; simpl. destruct (hash hcp) as [|c t]; [simpl in Hs; lia | done]. }
    rewrite <- Hr. apply walk_rest; simpl; try lia. by rewrite Hr.
Qed.

(** A walk with a callback that keeps or deletes each node leaves exactly
    the nodes it keeps, in their order. *)
Lemma hash_walk_filter (p : __pmHashNode → bool) hcp :
  nodes_of (__pmHashWalkCB (λ nd (_ : unit),
    (if p nd then PM_HASH_WALK_NEXT else PM_HASH_WALK_DELETE_NEXT, tt)) tt hcp).1
  = filter p (nodes_of hcp).
Proof.
  set (cb := λ nd (_ : unit), _).
  assert (∀ nd cd, cb nd cd = (if p nd then PM_HASH_WALK_NEXT else PM_HASH_WALK_DELETE_NEXT, tt)) as Hcb by done.
  clearbody cb. assert (∀ c, walk_chain cb c tt = (filter p c, tt, true)) as Hc.
  { induction c as [|tp c IH]; [done |]. simpl. rewrite filter_cons, Hcb.
    destruct (p tp); simpl; by rewrite IH. }
  unfold nodes_of, __pmHashWalkCB. assert (∀ t, walk_chains cb t tt = (filter p <$> t, tt)) as Ht.
  { induction t as [|c t IH]; [done |]. simpl. by rewrite Hc, IH. }
  rewrite Ht. simpl. induction (hash hcp) as [|c t IH]; [done |]. by rewrite fmap_cons; cbn [concat]; rewrite IH, filter_app.
Qed.
End hash.
Arguments __pmHashNode : clear implicits.
Arguments __pmHashCtl : clear implicits.
End Hash.

(** Seven metrics are added, and one of them is removed again. *)
Definition demo : Hash.__pmHashCtl Z :=
  foldr (λ k h, (Hash.__pmHashAdd k (k * 10) h).2) Hash.empty_ctl [1; 2; 3; 4; 5; 6; 13].

Lemma demo_inv : Hash.inv demo.
Proof.
  split; try (by vm_compute). intros n c Hn. assert (n < length (Hash.hash demo))%nat as Hlt by by eapply lookup_lt_Some.
  vm_compute in Hlt. destruct n as [|[|[|[|[|[|n]]]]]]; vm_compute in Hn; inversion Hn; subst; repeat constructor; lia.
Qed.

Lemma hash_refines_map_witness :
  Hash.inv demo ∧ Hash.to_map demo !! 13 = Some 130
  ∧ let '(sts, h) := Hash.__pmHashDel 13 130 demo in
    sts = 1 ∧ Hash.uniq h ∧ Hash.to_map h = delete 13 (Hash.to_map demo).
Proof.
  assert (Hash.to_map demo !! 13 = Some 130) as Hk by (vm_compute; reflexivity).
  split; [exact demo_inv |]. split; [exact Hk |].
  destruct (Hash.hash_refines_map demo demo_inv ltac:(by apply (bool_decide_unpack _); vm_compute)) as (_ & _ & H & _).
  exact (H 13 130 Hk).
Defined.
Lemma hash_walk_all_witness : Hash.walk_all 8 PM_HASH_WALK_START demo = Some (Hash.nodes_of demo).
Proof. apply (Hash.hash_walk_all demo 8 demo_inv). vm_compute. lia. Defined.
Lemma hash_reachable_inv_witness : Hash.inv (Hash.__pmHashAdd 7 70 Hash.empty_ctl).2.
Proof. apply Hash.hash_reachable_inv. apply rtc_once. left. by exists 7, 70. Defined.

(** ** What a client may not expect *)

(** Deletion does not take the node out of the count, so that a table whose
    only node is added and deleted again and again grows without bound: after 64
    rounds the empty table has 30 chains. *)
Lemma hash_grows_when_empty :
  let h := Nat.iter 64 (λ h, (Hash.__pmHashDel 1 10 (Hash.__pmHashAdd 1 10 h).2).2) Hash.empty_ctl in
  Hash.nodes_of h = [] ∧ Hash.nodes h = 64 ∧ Hash.hsize h = 30.
Proof. by vm_compute. Qed.

(** Of two nodes with the same key a search returns the one added last, but
    once the table has grown it returns the one added first: growing reverses the
    chains. *)
Lemma hash_duplicates_swap :
  let h := (Hash.__pmHashAdd 1 11 (Hash.__pmHashAdd 1 10 Hash.empty_ctl).2).2 in
  let h' := foldr (λ k h, (Hash.__pmHashAdd k 0 h).2) h [2; 3; 4; 5; 6; 7] in
  Hash.data <$> Hash.__pmHashSearch 1 h = Some 11 ∧ Hash.data <$> Hash.__pmHashSearch 1 h' = Some 10.
Proof. by vm_compute. Qed.
