(* ===== verification/Profile.v ===== *)
(** The instance profile of a context (src/libpcp/src/profile.c): which instances
    of which instance domains a fetch returns.

    The profile a client edits with [pmAddProfile] and [pmDelProfile] has, for each
    instance domain it mentions, a list of exceptions that may be a null pointer;
    the profile on the wire, and at the agent that asks [__pmInProfile], is the one
    of [PduProfile].  [wire_profile] is what [__pmSendProfile] reads of the former. *)
From S2P Require Import Prelude Memory Types PduIO PduProfile.

Definition PM_PROFILE_INCLUDE : Z := 0.
Definition PM_PROFILE_EXCLUDE : Z := 1.

Module Profile.
Record inDomProfile := mkEntry { p_indom : Z; p_instances : option (list Z); p_state : Z }.
Record instprof := mkInstprof { pr_state : Z; pr_profile : list inDomProfile }.
(** The part of a [__pmContext] the profile routines use. *)
Record __pmContext := mkContext { c_instprof : instprof; c_sent : Z }.

(** [list] without the members of [arg]. *)
Fixpoint survivors (list arg : list Z) : Datatypes.list Z :=
  match list with
  | [] => []
  | x :: list =>
      if existsb (Z.eqb x) arg then survivors list arg else x :: survivors list arg
  end.
Definition _subtract (list : option (list Z)) (arg : Datatypes.list Z) : option (Datatypes.list Z) :=
  match list with
  | None => None
  | Some list => Some (survivors list arg)
  end.
(** The members of [arg] that are not there yet, appended one by one. *)
Fixpoint append_new (new arg : list Z) : list Z :=
  match arg with
  | [] => new
  | a :: arg => append_new (if existsb (Z.eqb a) new then new else new ++ [a]) arg
  end.
Definition _union (list : option (list Z)) (arg : Datatypes.list Z) : option (Datatypes.list Z) :=
  match list with
  | None => Some arg
  | Some list => Some (append_new list arg)
  end.

Definition _setGlobalState (ctxp : __pmContext) (state : Z) : __pmContext :=
  mkContext (mkInstprof state []) 0.
(** The new entry is appended; its place in the array is returned. *)
Definition _newprof (indom : Z) (ctxp : __pmContext) : nat * __pmContext :=
  let l := pr_profile (c_instprof ctxp) in
  (length l, mkContext (mkInstprof (pr_state (c_instprof ctxp))
    (l ++ [mkEntry indom None PM_PROFILE_INCLUDE])) (c_sent ctxp)).

Fixpoint find_from (indom : Z) (l : list Z) (p : nat) : option nat :=
  match l with
  | [] => None
  | i :: l => if i =? indom then Some p else find_from indom l (S p)
  end.
(** The index of the entry, given the instance domains of the array. *)
Definition __pmFindProfile (indom : Z) (indoms : list Z) : option nat := find_from indom indoms 0.

Definition __pmInProfile (indom : Z) (prof : option __pmProfile) (inst : Z) : Z :=
  match prof with
  | None => 1
  | Some prof =>
      match __pmFindProfile indom (PduProfile.indom <$> profile prof) with
      | None => Z.b2z (g_state prof =? PM_PROFILE_INCLUDE)
      | Some i =>
          match profile prof !! i with
          | None => 1
          | Some p =>
              if existsb (Z.eqb inst) (instances p)
              then Z.b2z (negb (state p =? PM_PROFILE_INCLUDE))
              else Z.b2z (state p =? PM_PROFILE_INCLUDE)
          end
      end
  end.

(** Change the entry at index [i] of the array. *)
Definition set_entry (i : nat) (e : inDomProfile) (ctxp : __pmContext) : __pmContext :=
  mkContext (mkInstprof (pr_state (c_instprof ctxp)) (<[i := e]> (pr_profile (c_instprof ctxp)))) (c_sent ctxp).
Definition get_entry (i : nat) (ctxp : __pmContext) : inDomProfile :=
  default (mkEntry 0 None 0) (pr_profile (c_instprof ctxp) !! i).
(** The entry of [indom], a new one in the starting state if there is none. *)
Definition find_or_new (indom start : Z) (ctxp : __pmContext) : nat * __pmContext :=
  match __pmFindProfile indom (p_indom <$> pr_profile (c_instprof ctxp)) with
  | Some i => (i, ctxp)
  | None =>
      let '(i, ctxp) := _newprof indom ctxp in
      (i, set_entry i (mkEntry indom (p_instances (get_entry i ctxp)) start) ctxp)
  end.
Definition sent_0 (ctxp : __pmContext) : __pmContext := mkContext (c_instprof ctxp) 0.

Section edit.
(** The answers of [pmWhichContext] and [__pmHandleToPtr] (context.c). *)
Context (which : Z) (handle : option __pmContext).
(** [instlist_len] is at most the length of the array [instlist], and not
    negative, when that is not a null pointer. *)
Definition pmAddProfile (indom instlist_len : Z) (instlist : option (list Z)) : Z * option __pmContext :=
  if (indom =? PM_INDOM_NULL) && bool_decide (is_Some instlist) then (PM_ERR_PROFILESPEC, handle)
  else if which <? 0 then (which, handle)
  else match handle with
  | None => (PM_ERR_NOCONTEXT, handle)
  | Some ctxp =>
      if (indom =? PM_INDOM_NULL) && (instlist_len =? 0)
      then (0, Some (sent_0 (_setGlobalState ctxp PM_PROFILE_INCLUDE)))
      else
        let '(i, ctxp) := find_or_new indom PM_PROFILE_EXCLUDE ctxp in
        let prof := get_entry i ctxp in
        match instlist with
        | None => (0, Some (sent_0 (set_entry i (mkEntry (p_indom prof) None PM_PROFILE_INCLUDE) ctxp)))
        | Some l =>
            if instlist_len =? 0
            then (0, Some (sent_0 (set_entry i (mkEntry (p_indom prof) None PM_PROFILE_INCLUDE) ctxp)))
            else
              let arg := take (Z.to_nat instlist_len) l in
              let ins := if p_state prof =? PM_PROFILE_INCLUDE then _subtract (p_instances prof) arg
                else if p_state prof =? PM_PROFILE_EXCLUDE then _union (p_instances prof) arg
                else p_instances prof in
              (0, Some (sent_0 (set_entry i (mkEntry (p_indom prof) ins (p_state prof)) ctxp)))
        end
  end.
Definition pmDelProfile (indom instlist_len : Z) (instlist : option (list Z)) : Z * option __pmContext :=
  if (indom =? PM_INDOM_NULL) && bool_decide (is_Some instlist) then (PM_ERR_PROFILESPEC, handle)
  else if which <? 0 then (which, handle)
  else match handle with
  | None => (PM_ERR_NOCONTEXT, handle)
  | Some ctxp =>
      if (indom =? PM_INDOM_NULL) && (instlist_len =? 0)
      then (0, Some (sent_0 (_setGlobalState ctxp PM_PROFILE_EXCLUDE)))
      else
        let '(i, ctxp) := find_or_new indom PM_PROFILE_EXCLUDE ctxp in
        let prof := get_entry i ctxp in
        match instlist with
        | None => (0, Some (sent_0 (set_entry i (mkEntry (p_indom prof) None PM_PROFILE_EXCLUDE) ctxp)))
        | Some l =>
            if instlist_len =? 0
            then (0, Some (sent_0 (set_entry i (mkEntry (p_indom prof) None PM_PROFILE_EXCLUDE) ctxp)))
            else
              let arg := take (Z.to_nat instlist_len) l in
              let ins := if p_state prof =? PM_PROFILE_INCLUDE then _union (p_instances prof) arg
                else if p_state prof =? PM_PROFILE_EXCLUDE then _subtract (p_instances prof) arg
                else p_instances prof in
              (0, Some (sent_0 (set_entry i (mkEntry (p_indom prof) ins (p_state prof)) ctxp)))
        end
  end.
End edit.

(** ** What a profile selects *)

Definition wire_entry (e : inDomProfile) : __pmInDomProfile :=
  mkInDomProfile (p_indom e) (p_state e) (default [] (p_instances e)).
Definition wire_profile (p : instprof) : __pmProfile :=
  mkProfile (pr_state p) (wire_entry <$> pr_profile p).

(** Is instance [inst] of [indom] selected in the context? *)
Definition selects (c : __pmContext) (indom inst : Z) : bool :=
  negb (__pmInProfile indom (Some (wire_profile (c_instprof c))) inst =? 0).
(** Does the context have an entry for [indom]? *)
Definition mentions (c : __pmContext) (indom : Z) : bool :=
  existsb (Z.eqb indom) (p_indom <$> pr_profile (c_instprof c)).
Definition entry_selects (e : inDomProfile) (inst : Z) : bool :=
  xorb (p_state e =? PM_PROFILE_INCLUDE) (existsb (Z.eqb inst) (default [] (p_instances e))).

Definition state_ok (s : Z) : Prop := s = PM_PROFILE_INCLUDE ∨ s = PM_PROFILE_EXCLUDE.
(** One entry per instance domain, in one of the two states. *)
Record inv (c : __pmContext) : Prop := {
  inv_global : state_ok (pr_state (c_instprof c));
  inv_states : Forall (λ e, state_ok (p_state e)) (pr_profile (c_instprof c));
  inv_unique : NoDup (p_indom <$> pr_profile (c_instprof c)) }.

Lemma find_from_spec k l p :
  match find_from k l p with
  | Some n => ∃ m, n = (p + m)%nat ∧ l !! m = Some k
  | None => k ∉ l
  end.
Proof.
  revert p. induction l as [|i l IH]; intros p; simpl; [apply not_elem_of_nil |].
  destruct (Z.eqb_spec i k) as [->|]; [by exists 0%nat; split; [lia |] |].
  specialize (IH (S p)). destruct (find_from k l (S p)).
  - destruct IH as (m & -> & ?). exists (S m). split; [lia | done].
  - by apply not_elem_of_cons.
Qed.
Lemma find_unique k l n : NoDup l → l !! n = Some k → __pmFindProfile k l = Some n.
Proof.
  intros Hu Hn. unfold __pmFindProfile. pose proof (find_from_spec k l 0) as Hf.
  destruct (find_from k l 0) as [m|].
  - destruct Hf as (m' & -> & Hm). f_equal. by eapply NoDup_lookup.
  - destruct Hf. by eapply list_elem_of_lookup_2.
Qed.
Lemma find_cases k l :
  (∃ n, __pmFindProfile k l = Some n ∧ l !! n = Some k) ∨ (__pmFindProfile k l = None ∧ k ∉ l).
Proof.
  unfold __pmFindProfile. pose proof (find_from_spec k l 0) as Hf.
  destruct (find_from k l 0) as [n|]; [left | right; done].
  destruct Hf as (m & -> & ?). by exists m.
Qed.
Lemma find_from_app_ne i k l p : i ≠ k → find_from i (l ++ [k]) p = find_from i l p.
Proof.
  intros Hne. revert p. induction l as [|x l IH]; intros p; simpl.
  - by destruct (Z.eqb_spec k i).
  - by rewrite IH.
Qed.
Lemma existsb_elem k l : existsb (Z.eqb k) l = bool_decide (k ∈ l).
Proof.
  induction l as [|x l IH]; [done |]. cbn [existsb]. rewrite IH.
  destruct (Z.eqb_spec k x) as [->|]; simpl.
  - symmetry. apply bool_decide_eq_true_2. by left.
  - apply bool_decide_ext. rewrite elem_of_cons. split; [by right | by intros [] ].
Qed.
Lemma existsb_survivors k list arg :
  existsb (Z.eqb k) (survivors list arg) = existsb (Z.eqb k) list && negb (existsb (Z.eqb k) arg).
Proof.
  induction list as [|x list IH]; simpl; [done |].
  destruct (existsb (Z.eqb x) arg) eqn:E; simpl; rewrite IH; destruct (Z.eqb_spec k x) as [->|]; simpl;
    rewrite ?E; simpl; try done; by rewrite ?andb_false_r.
Qed.
Lemma existsb_append_new k new arg :
  existsb (Z.eqb k) (append_new new arg) = existsb (Z.eqb k) new || existsb (Z.eqb k) arg.
Proof.
  revert new. induction arg as [|a arg IH]; intros new; simpl; [by rewrite orb_false_r |].
  rewrite IH. destruct (existsb (Z.eqb a) new) eqn:E.
  - destruct (Z.eqb_spec k a) as [->|]; simpl; by rewrite ?E.
  - rewrite existsb_app. simpl. by rewrite orb_false_r, orb_assoc.
Qed.

Lemma selects_eq c i j :
  selects c i j = match __pmFindProfile i (p_indom <$> pr_profile (c_instprof c)) with
    | None => pr_state (c_instprof c) =? PM_PROFILE_INCLUDE
    | Some n => entry_selects (get_entry n c) j
    end.
Proof.
  unfold selects, __pmInProfile. cbn [profile g_state wire_profile].
  rewrite <- list_fmap_compose. change (indom ∘ wire_entry) with p_indom.
  destruct (find_cases i (p_indom <$> pr_profile (c_instprof c))) as [(n & -> & Hn) | [-> _]].
  - rewrite list_lookup_fmap. rewrite list_lookup_fmap in Hn. apply fmap_Some in Hn as (e & He & ->).
    unfold get_entry. rewrite He. simpl. unfold entry_selects.
    destruct (existsb _ _), (p_state e =? _); done.
  - by destruct (pr_state (c_instprof c) =? _).
Qed.

(** A context with the entry [n] changed, the instance domain of it apart. *)
Lemma set_entry_indoms c n e e0 :
  pr_profile (c_instprof c) !! n = Some e0 → p_indom e = p_indom e0 →
  p_indom <$> pr_profile (c_instprof (set_entry n e c)) = p_indom <$> pr_profile (c_instprof c).
Proof.
  intros Hn He. simpl. rewrite list_fmap_insert, He. apply list_insert_id.
  by rewrite list_lookup_fmap, Hn.
Qed.
Lemma set_entry_ok c n e e0 :
  inv c → pr_profile (c_instprof c) !! n = Some e0 → p_indom e = p_indom e0 → state_ok (p_state e) →
  inv (sent_0 (set_entry n e c))
  ∧ ∀ i j, selects (sent_0 (set_entry n e c)) i j =
      if i =? p_indom e0 then entry_selects e j else selects c i j.
Proof.
  intros Hi Hn He Hs. pose proof (set_entry_indoms c n e e0 Hn He) as Hm.
  split; [split |].
  - apply Hi.
  - apply Forall_insert; [apply Hi | done].
  - cbn [sent_0 c_instprof]. rewrite Hm. apply Hi.
  - intros i j. rewrite !selects_eq. cbn [sent_0 c_instprof]. rewrite Hm.
    destruct (Z.eqb_spec i (p_indom e0)) as [->|Hne].
    + rewrite (find_unique _ _ n) by (apply Hi || by rewrite list_lookup_fmap, Hn).
      unfold get_entry; simpl. rewrite list_lookup_insert_eq; [done | by eapply lookup_lt_Some].
    + destruct (find_cases i (p_indom <$> pr_profile (c_instprof c))) as [(m & -> & Hmi) | [-> _]]; [| done].
      unfold get_entry; simpl. destruct (decide (m = n)) as [->|]; [| by rewrite list_lookup_insert_ne].
      rewrite list_lookup_fmap, Hn in Hmi. simplify_eq/=.
Qed.

Lemma new_entry_eq indom start c :
  (let '(i, c1) := _newprof indom c in
   (i, set_entry i (mkEntry indom (p_instances (get_entry i c1)) start) c1))
  = let l := pr_profile (c_instprof c) in
    (length l, mkContext (mkInstprof (pr_state (c_instprof c)) (l ++ [mkEntry indom None start])) (c_sent c)).
Proof.
  unfold _newprof, set_entry, get_entry. simpl. rewrite list_lookup_middle by done. simpl.
  by rewrite insert_app_r_alt, Nat.sub_diag by lia.
Qed.
Lemma find_or_new_ok indom start c :
  inv c → state_ok start →
  let '(n, c') := find_or_new indom start c in
  inv c' ∧ ∃ e, pr_profile (c_instprof c') !! n = Some e ∧ p_indom e = indom
    ∧ (∀ i j, i ≠ indom → selects c' i j = selects c i j)
    ∧ (mentions c indom = true → c' = c ∧ ∀ j, entry_selects e j = selects c indom j)
    ∧ (mentions c indom = false → e = mkEntry indom None start).
Proof.
  intros Hi Hs. unfold find_or_new, mentions. rewrite existsb_elem.
  destruct (find_cases indom (p_indom <$> pr_profile (c_instprof c))) as [(n & Hf & Hn) | [Hf Hn]].
  - rewrite Hf. pose proof Hn as Hn'. rewrite list_lookup_fmap in Hn. apply fmap_Some in Hn as (e & He & ->).
    split; [done |]. exists e. split_and!; try done.
    + intros _. split; [done |]. intros j. rewrite selects_eq, Hf. unfold get_entry. by rewrite He.
    + intros []%bool_decide_eq_false. by eapply list_elem_of_lookup_2.
  - rewrite Hf, new_entry_eq. set (l := pr_profile (c_instprof c)) in *.
    split; [split; cbn [c_instprof pr_state pr_profile] |].
    + apply Hi.
    + apply Forall_app; split; [apply Hi | by constructor].
    + rewrite fmap_app. apply NoDup_app; split_and!; [apply Hi | | apply NoDup_singleton].
      intros x Hx ->%list_elem_of_singleton. done.
    + exists (mkEntry indom None start). split_and!; try done.
      * by apply list_lookup_middle.
      * intros i j Hne. rewrite !selects_eq. cbn [c_instprof pr_state pr_profile]. fold l.
        unfold __pmFindProfile. rewrite fmap_app. cbn [fmap list_fmap p_indom]. rewrite find_from_app_ne by done.
        destruct (find_cases i (p_indom <$> l)) as [(m & Hm & Hl) | [Hm _]];
          unfold __pmFindProfile in Hm; rewrite Hm; [| done].
        rewrite list_lookup_fmap in Hl. apply fmap_Some in Hl as (e & He & _).
        unfold get_entry; simpl. rewrite lookup_app_l by by eapply lookup_lt_Some. done.
      * by intros ?%bool_decide_eq_true.
Qed.

(** What an edit with a list of instances does to the entry of its domain. *)
Lemma entry_include e arg j :
  state_ok (p_state e) →
  entry_selects (mkEntry (p_indom e)
    (if p_state e =? PM_PROFILE_INCLUDE then _subtract (p_instances e) arg
     else if p_state e =? PM_PROFILE_EXCLUDE then _union (p_instances e) arg
     else p_instances e) (p_state e)) j = existsb (Z.eqb j) arg || entry_selects e j.
Proof.
  intros [E | E]; unfold entry_selects; cbn [p_state p_instances]; rewrite E; simpl;
    destruct (p_instances e) as [l|]; simpl; rewrite ?existsb_survivors, ?existsb_append_new;
    repeat destruct (existsb _ _); done.
Qed.
Lemma entry_exclude e arg j :
  state_ok (p_state e) →
  entry_selects (mkEntry (p_indom e)
    (if p_state e =? PM_PROFILE_INCLUDE then _union (p_instances e) arg
     else if p_state e =? PM_PROFILE_EXCLUDE then _subtract (p_instances e) arg
     else p_instances e) (p_state e)) j = negb (existsb (Z.eqb j) arg) && entry_selects e j.
Proof.
  intros [E | E]; unfold entry_selects; cbn [p_state p_instances]; rewrite E; simpl;
    destruct (p_instances e) as [l|]; simpl; rewrite ?existsb_survivors, ?existsb_append_new;
    repeat destruct (existsb _ _); done.
Qed.

Lemma state_ok_include : state_ok PM_PROFILE_INCLUDE.
Proof. by left. Qed.
Lemma state_ok_exclude : state_ok PM_PROFILE_EXCLUDE.
Proof. by right. Qed.

(** The entry both edits work on, and the context with that entry changed. *)
Lemma edit_ok indom c :
  inv c →
  ∃ n c1 e, find_or_new indom PM_PROFILE_EXCLUDE c = (n, c1) ∧ get_entry n c1 = e
    ∧ state_ok (p_state e)
    ∧ (∀ j, entry_selects e j = mentions c indom && selects c indom j)
    ∧ ∀ e', p_indom e' = p_indom e → state_ok (p_state e') →
      inv (sent_0 (set_entry n e' c1)) ∧ ∀ i j, selects (sent_0 (set_entry n e' c1)) i j =
        if i =? indom then entry_selects e' j else selects c i j.
Proof.
  intros Hi. pose proof (find_or_new_ok indom PM_PROFILE_EXCLUDE c Hi state_ok_exclude) as Hf.
  destruct (find_or_new indom PM_PROFILE_EXCLUDE c) as [n c1].
  destruct Hf as (Hi1 & e & He & Hindom & Hother & Hold & Hnew). exists n, c1, e.
  split_and!; [done | unfold get_entry; by rewrite He | | |].
  - pose proof (inv_states _ Hi1) as Hs. rewrite Forall_lookup in Hs. by apply (Hs n).
  - intros j. destruct (mentions c indom) eqn:Hm; simpl; [by apply Hold | by rewrite Hnew].
  - intros e' He' Hs'. destruct (set_entry_ok c1 n e' e Hi1 He He' Hs') as [? Hsel]. split; [done |].
    intros i j. rewrite Hsel, Hindom. destruct (Z.eqb_spec i indom); [done | by apply Hother].
Qed.

(** The list an edit works on; [None] for all instances. *)
Definition edit_list (instlist_len : Z) (instlist : option (list Z)) : option (list Z) :=
  if instlist_len =? 0 then None else take (Z.to_nat instlist_len) <$> instlist.

(** [pmAddProfile] on a context: the instances of the list, or all instances
    of the domain when there is none, are selected afterwards; the others of that
    domain are selected if the context had an entry for the domain that selects
    them, other domains are as before, and the profile is marked as not sent. *)
Lemma add_profile_selects which c indom len instlist :
  inv c → 0 <= which → indom ≠ PM_INDOM_NULL →
  ∃ c', pmAddProfile which (Some c) indom len instlist = (0, Some c') ∧ inv c' ∧ c_sent c' = 0
    ∧ ∀ i j, selects c' i j =
        if i =? indom then
          match edit_list len instlist with
          | None => true
          | Some l => existsb (Z.eqb j) l || (mentions c indom && selects c indom j)
          end
        else selects c i j.
Proof.
  intros Hi Hw Hn. unfold pmAddProfile, edit_list.
  destruct (Z.eqb_spec indom PM_INDOM_NULL); [done |]. destruct (Z.ltb_spec which 0); [lia |]. cbn [andb].
  destruct (edit_ok indom c Hi) as (n' & c1 & e & -> & -> & Hs & He & Hset).
  destruct instlist as [l|]; [destruct (len =? 0) |]; cbn [fmap option_fmap option_map].
  1, 3: destruct (Hset (mkEntry (p_indom e) None PM_PROFILE_INCLUDE) eq_refl state_ok_include) as [? Hsel];
    eexists; split_and!; [done | done | done |]; intros i j; rewrite Hsel; by repeat case_match.
  eexists. split; [done |]. edestruct (λ x, Hset (mkEntry (p_indom e) x (p_state e)) eq_refl Hs) as [? Hsel].
  split_and!; [done | done |]. intros i j. rewrite Hsel, entry_include, He by done. done.
Qed.

(** [pmDelProfile] on a context: the instances of the list, or all instances
    of the domain when there is none, are not selected afterwards; the others of
    that domain are selected if the context had an entry for the domain that
    selects them, other domains are as before, and the profile is marked as not
    sent. *)
Lemma del_profile_selects which c indom len instlist :
  inv c → 0 <= which → indom ≠ PM_INDOM_NULL →
  ∃ c', pmDelProfile which (Some c) indom len instlist = (0, Some c') ∧ inv c' ∧ c_sent c' = 0
    ∧ ∀ i j, selects c' i j =
        if i =? indom then
          match edit_list len instlist with
          | None => false
          | Some l => negb (existsb (Z.eqb j) l) && (mentions c indom && selects c indom j)
          end
        else selects c i j.
Proof.
  intros Hi Hw Hn. unfold pmDelProfile, edit_list.
  destruct (Z.eqb_spec indom PM_INDOM_NULL); [done |]. destruct (Z.ltb_spec which 0); [lia |]. cbn [andb].
  destruct (edit_ok indom c Hi) as (n' & c1 & e & -> & -> & Hs & He & Hset).
  destruct instlist as [l|]; [destruct (len =? 0) |]; cbn [fmap option_fmap option_map].
  1, 3: destruct (Hset (mkEntry (p_indom e) None PM_PROFILE_EXCLUDE) eq_refl state_ok_exclude) as [? Hsel];
    eexists; split_and!; [done | done | done |]; intros i j; rewrite Hsel; by repeat case_match.
  eexists. split; [done |]. edestruct (λ x, Hset (mkEntry (p_indom e) x (p_state e)) eq_refl Hs) as [? Hsel].
  split_and!; [done | done |]. intros i j. rewrite Hsel, entry_exclude, He by done. done.
Qed.

(** The context [pmNewContext] creates. *)
Definition new_context : __pmContext := mkContext (mkInstprof PM_PROFILE_INCLUDE []) 0.

(** The edits that name no instance domain select, or deselect, every
    instance of every domain whatever the profile was; an instance list without
    a domain is an error, and so is the lack of a context, and errors change
    nothing. *)
Lemma profile_global which c len l :
  0 <= which →
  (∃ c', pmAddProfile which (Some c) PM_INDOM_NULL 0 None = (0, Some c') ∧ inv c'
    ∧ ∀ i j, selects c' i j = true)
  ∧ (∃ c', pmDelProfile which (Some c) PM_INDOM_NULL 0 None = (0, Some c') ∧ inv c'
    ∧ ∀ i j, selects c' i j = false)
  ∧ pmAddProfile which (Some c) PM_INDOM_NULL len (Some l) = (PM_ERR_PROFILESPEC, Some c)
  ∧ pmDelProfile which (Some c) PM_INDOM_NULL len (Some l) = (PM_ERR_PROFILESPEC, Some c)
  ∧ ∀ indom, indom ≠ PM_INDOM_NULL →
      pmAddProfile which None indom len (Some l) = (PM_ERR_NOCONTEXT, None)
      ∧ pmDelProfile which None indom len (Some l) = (PM_ERR_NOCONTEXT, None).
Proof.
  intros Hw. unfold pmAddProfile, pmDelProfile. destruct (Z.ltb_spec which 0); [lia |].
  split_and!; try done; try (eexists; split_and!; [done | split; simpl; [first [by left | by right] | done | constructor] | done]).
  intros indom Hi. by destruct (Z.eqb_spec indom PM_INDOM_NULL).
Qed.

(** In a context that selects everything and has no entry for the domain,
    deleting one instance of the domain deselects all of its instances, where
    the comment in the code announces "include all except the supplied list". *)
Lemma del_profile_fresh which c indom x :
  inv c → 0 <= which → indom ≠ PM_INDOM_NULL → mentions c indom = false →
  ∃ c', pmDelProfile which (Some c) indom 1 (Some [x]) = (0, Some c')
    ∧ ∀ j, selects c' indom j = false.
Proof.
  intros Hi Hw Hn Hm. unfold pmDelProfile.
  destruct (Z.eqb_spec indom PM_INDOM_NULL); [done |]. destruct (Z.ltb_spec which 0); [lia |]. cbn [andb].
  destruct (edit_ok indom c Hi) as (n' & c1 & e & -> & -> & Hs & He & Hset).
  eexists. split; [done |]. edestruct (λ x, Hset (mkEntry (p_indom e) x (p_state e)) eq_refl Hs) as [? Hsel].
  intros j. rewrite Hsel, Z.eqb_refl, entry_exclude, He, Hm by done. by rewrite andb_false_r.
Qed.
End Profile.

Lemma new_context_inv : Profile.inv Profile.new_context.
Proof. split; simpl; [by left | constructor | constructor]. Qed.
(** Domain 29.1 restricted to its instances 3 and 5. *)
Definition profile_demo : Profile.__pmContext :=
  Profile.mkContext (Profile.mkInstprof 0 [Profile.mkEntry 121634817 (Some [3; 5]) 1]) 1.
Lemma profile_demo_inv : Profile.inv profile_demo.
Proof. split; simpl; [by left | by repeat constructor; right | apply NoDup_singleton]. Qed.

Lemma add_profile_selects_witness :
  ∃ c', Profile.pmAddProfile 0 (Some profile_demo) 121634817 1 (Some [7]) = (0, Some c')
    ∧ Profile.selects c' 121634817 7 = true ∧ Profile.selects c' 121634817 4 = false.
Proof.
  destruct (Profile.add_profile_selects 0 profile_demo 121634817 1 (Some [7]) profile_demo_inv) as (c' & E & _ & _ & H);
    [lia | done |]. exists c'. by rewrite !H.
Defined.
Lemma del_profile_selects_witness :
  ∃ c', Profile.pmDelProfile 0 (Some profile_demo) 121634817 1 (Some [3]) = (0, Some c')
    ∧ Profile.selects c' 121634817 3 = false ∧ Profile.selects c' 121634817 5 = true.
Proof.
  destruct (Profile.del_profile_selects 0 profile_demo 121634817 1 (Some [3]) profile_demo_inv) as (c' & E & _ & _ & H);
    [lia | done |]. exists c'. by rewrite !H.
Defined.
Lemma profile_global_witness :
  ∃ c', Profile.pmAddProfile 0 (Some profile_demo) PM_INDOM_NULL 0 None = (0, Some c') ∧ Profile.inv c'
    ∧ ∀ i j, Profile.selects c' i j = true.
Proof. exact (proj1 (Profile.profile_global 0 profile_demo 0 [] ltac:(lia))). Defined.
Lemma del_profile_fresh_witness :
  Profile.selects Profile.new_context 121634817 4 = true
  ∧ ∃ c', Profile.pmDelProfile 0 (Some Profile.new_context) 121634817 1 (Some [3]) = (0, Some c')
      ∧ ∀ j, Profile.selects c' 121634817 j = false.
Proof.
  split; [done |]. apply (Profile.del_profile_fresh 0 Profile.new_context 121634817 3 new_context_inv); [lia | done | done].
Defined.

(** ** What the other end is asked to select *)

Section delivered.
Context `{PduAlloc} (fd : Xmit.wfd).
Hypothesis alloc_ok : ∀ n, is_Some (find_pdubuf n).

Definition entry_wf (e : Profile.inDomProfile) : Prop :=
  is_u32 (Profile.p_indom e) ∧ Forall is_s32 (default [] (Profile.p_instances e)).

(** C29. The profile of a context, sent and decoded, selects at the other end
    exactly the instances the context selects. *)
Theorem profile_delivered from ctxnum c :
  let prof := Profile.wire_profile (Profile.c_instprof c) in
  let need := 28 + 16 * zlen (profile prof) + 4 * zlen (all_instances (profile prof)) in
  delivers fd need → need < 2^31 → zlen (profile prof) < INT_MAX / 24 → 0 <= ctxnum <= 2048 →
  Profile.inv c → Forall entry_wf (Profile.pr_profile (Profile.c_instprof c)) →
  ∃ body, Prof.__pmSendProfile fd from ctxnum prof = Ok (sizeof_hdr + zlen body, wire PDU_PROFILE from body)
    ∧ ∀ b, is_pdu b PDU_PROFILE from body →
      ∃ prof' b', Prof.__pmDecodeProfile b = Ok ((ctxnum, prof'), b')
        ∧ ∀ i j, negb (Profile.__pmInProfile i (Some prof') j =? 0) = Profile.selects c i j.
Proof.
  intros prof need Hd Hlt Hn Hc Hi Hwf.
  assert (∀ s, Profile.state_ok s → is_s32 s) as Hst by (intros s [-> | ->]; unfold is_s32, PM_PROFILE_INCLUDE, PM_PROFILE_EXCLUDE; lia).
  destruct (profile_roundtrip fd alloc_ok from ctxnum prof) as (body & Hs & Hr); try done.
  - apply Hst, Hi.
  - pose proof (Profile.inv_states _ Hi) as Hss. apply Forall_fmap. rewrite Forall_forall in *.
    intros e He. destruct (Hwf e He). split_and!; [done | by apply Hst, Hss | done].
  - exists body. split; [done |]. intros b Hb. destruct (Hr b Hb) as [b' ?]. by exists prof, b'.
Qed.
End delivered.

Lemma profile_delivered_witness :
  let prof := Profile.wire_profile (Profile.c_instprof profile_demo) in
  ∃ body, @Prof.__pmSendProfile heap_alloc (Xmit.mkWfd [52] 0) 7 1 prof
      = Ok (sizeof_hdr + zlen body, wire PDU_PROFILE 7 body)
    ∧ ∀ b, is_pdu b PDU_PROFILE 7 body →
      ∃ prof' b', Prof.__pmDecodeProfile b = Ok ((1, prof'), b')
        ∧ ∀ i j, negb (Profile.__pmInProfile i (Some prof') j =? 0) = Profile.selects profile_demo i j.
Proof.
  apply (@profile_delivered heap_alloc (Xmit.mkWfd [52] 0) heap_alloc_ok 7 1 profile_demo);
    [split; [by repeat constructor | by vm_compute] | by vm_compute | by vm_compute | lia | exact profile_demo_inv |].
  constructor; [split; [by vm_compute | by repeat constructor] | constructor].
Defined.
