(* ===== verification/Access.v ===== *)
(** Host-based access control, src/libpcp/src/access.c: which operations a client
    may perform, and how many connections its host may have.

    The module's static variables are the record [acc]; [hostlist] is the array of
    the [nhosts] entries in use.  The resolution of a host pattern to addresses
    ([getAccessSpecs]) is an argument of [__pmAccAddHost], and the addresses of the
    local host are an argument of [getClientIds]. *)
From stdpp Require Import sorting.
From S2P Require Import Prelude Memory Types.

(** ** Socket addresses (auxconnect.c) *)

(** [Inet] has the 32 bits of [s_addr], [Inet6] the 16 bytes of [s6_addr]. *)
Inductive __pmSockAddr := Inet (s_addr : Z) | Inet6 (s6_addr : list Z) | OtherAddr (family : Z).
#[export] Instance sockaddr_eq_dec : EqDecision __pmSockAddr.
Proof. solve_decision. Defined.

Definition AF_INET : Z := 2.
Definition AF_INET6 : Z := 10.
Definition __pmSockAddrGetFamily (a : __pmSockAddr) : Z :=
  match a with Inet _ => AF_INET | Inet6 _ => AF_INET6 | OtherAddr f => f end.

Definition __pmSockAddrMask (addr mask : __pmSockAddr) : __pmSockAddr :=
  match addr, mask with
  | Inet a, Inet m => Inet (Z.land a m)
  | Inet6 a, Inet6 m => Inet6 (zip_with Z.land a m)
  | _, _ => addr
  end.
(** Whether [__pmSockAddrCompare] returns 0. *)
Definition sockaddr_same (a b : __pmSockAddr) : bool :=
  match a, b with
  | Inet a, Inet b => a =? b
  | Inet6 a, Inet6 b => bool_decide (a = b)
  | _, _ => false
  end.

Module Access.
(** [hostspec], the text of the pattern, is for messages only. *)
Record hostinfo := mkHost {
  hostid : __pmSockAddr; hostmask : __pmSockAddr; level : Z;
  specOps : Z; denyOps : Z; maxcons : Z; curcons : Z }.
Record acc := mkAcc {
  all_ops : Z; hostlist : list hostinfo; saved : bool; oldhostlist : list hostinfo }.
Definition init : acc := mkAcc 0 [] false [].

Record accessSpec := mkSpec { s_hostid : __pmSockAddr; s_hostmask : __pmSockAddr; s_level : Z }.

Section ops.
(** [PM_MULTIPLE_THREADS(PM_SCOPE_ACL)] *)
Context (multi : bool).

(** The lowest bit of [op] that is set, from bit [i] up. *)
Fixpoint low_mask (op : Z) (i : Z) (n : nat) : Z :=
  match n with
  | O => Z.shiftl 1 31
  | S n => if negb (Z.land op (Z.shiftl 1 i) =? 0) then Z.shiftl 1 i else low_mask op (i + 1) n
  end.
Definition __pmAccAddOp (op : Z) (st : acc) : Z * acc :=
  if multi then (PM_ERR_THREAD, st)
  else if (op =? 0) || negb (Z.land op (all_ops st) =? 0) then (- EINVAL, st)
  else
    let mask := low_mask op 0 32 in
    if negb (Z.land op (Z.lnot mask) =? 0) then (- EINVAL, st)
    else (0, mkAcc (Z.lor (all_ops st) mask) (hostlist st) (saved st) (oldhostlist st)).

Definition __pmAccSaveHosts (st : acc) : Z * acc :=
  if multi then (PM_ERR_THREAD, st)
  else if saved st then (-1, st)
  else (0, mkAcc (all_ops st) [] true (hostlist st)).
Definition __pmAccRestoreHosts (st : acc) : Z * acc :=
  if multi then (PM_ERR_THREAD, st)
  else if negb (saved st) then (-1, st)
  else (0, mkAcc (all_ops st) (oldhostlist st) false (oldhostlist st)).
Definition __pmAccFreeSavedHosts (st : acc) : acc :=
  if multi then st
  else if negb (saved st) then st
  else mkAcc (all_ops st) (hostlist st) false (oldhostlist st).

(** The search for a spec: the index where the loop stops, and whether the entry
    there matches. *)
Fixpoint find_host (sp : accessSpec) (l : list hostinfo) (i : nat) : nat * bool :=
  match l with
  | [] => (i, false)
  | hp :: l =>
      if s_level sp <? level hp then (i, false)
      else if sockaddr_same (s_hostid sp) (hostid hp) && (s_level sp =? level hp) then (i, true)
      else find_host sp l (S i)
  end.
Definition clash (spec deny max : Z) (hp : hostinfo) : bool :=
  negb (maxcons hp =? 0) && negb (max =? 0) && negb (maxcons hp =? max)
  || negb (Z.land (specOps hp) spec =? 0)
     && negb (Z.lxor (Z.land (specOps hp) (denyOps hp)) (Z.land spec deny) =? 0).
Definition augment (spec deny max : Z) (hp : hostinfo) : hostinfo :=
  mkHost (hostid hp) (hostmask hp) (level hp) (Z.lor (specOps hp) spec)
    (Z.lor (denyOps hp) (Z.land spec deny)) (if negb (max =? 0) then max else maxcons hp) (curcons hp).
Definition new_host (spec deny max : Z) (sp : accessSpec) : hostinfo :=
  mkHost (s_hostid sp) (s_hostmask sp) (s_level sp) spec (Z.land spec deny) max 0.

(** One address of the pattern: the new list, and whether it counts as found. *)
Definition add_spec (spec deny max : Z) (sp : accessSpec) (l : list hostinfo) : list hostinfo * bool :=
  match find_host sp l 0 with
  | (i, true) =>
      match l !! i with
      | Some hp => if clash spec deny max hp then (l, false) else (<[i := augment spec deny max hp]> l, true)
      | None => (l, false)
      end
  | (i, false) => (take i l ++ new_host spec deny max sp :: drop i l, true)
  end.
Fixpoint add_specs (spec deny max : Z) (specs : list accessSpec) (l : list hostinfo) (found : Z)
    : list hostinfo * Z :=
  match specs with
  | [] => (l, found)
  | sp :: specs =>
      let '(l, ok) := add_spec spec deny max sp l in
      add_specs spec deny max specs l (if ok : bool then found + 1 else found)
  end.
(** [specs]: what [getAccessSpecs] returns for the name, or its error. *)
Definition __pmAccAddHost (specs : Z + list accessSpec) (spec deny max : Z) (st : acc) : Z * acc :=
  if multi then (PM_ERR_THREAD, st)
  else if negb (Z.land spec (Z.lnot (all_ops st)) =? 0) then (- EINVAL, st)
  else if max <? 0 then (- EINVAL, st)
  else match specs with
  | inl sts => (sts, st)
  | inr specs =>
      let '(l, found) := add_specs spec deny max specs (hostlist st) 0 in
      ((if negb (found =? 0) then 0 else - EINVAL), mkAcc (all_ops st) l (saved st) (oldhostlist st))
  end.

(** The loop-back addresses that [__pmSockAddrIsLoopBack] compares with: 127.0.0.1
    as stored by a little-endian host, and ::1. *)
Definition __pmSockAddrIsLoopBack (a : __pmSockAddr) : bool :=
  sockaddr_same a (Inet 16777343) || sockaddr_same a (Inet6 (replicate 15 0 ++ [1])).
(** [myaddrs]: the addresses of this host, if it could be looked up. *)
Definition getClientIds (myaddrs : option (list __pmSockAddr)) (hostid : __pmSockAddr)
    : Z + list __pmSockAddr :=
  if negb (__pmSockAddrIsLoopBack hostid) then inr [hostid]
  else match myaddrs with
  | None | Some [] => inl PM_ERR_PERMISSION
  | Some l => inr l
  end.

Definition matches (clientId : __pmSockAddr) (hp : hostinfo) : bool :=
  (__pmSockAddrGetFamily clientId =? __pmSockAddrGetFamily (hostmask hp))
  && sockaddr_same (__pmSockAddrMask clientId (hostmask hp)) (hostid hp).

(** [for (i = nhosts - 1; i >= 0; i--)]: the entries [0 .. n-1], last one first. *)
Fixpoint scan_hosts (c : __pmSockAddr) (l : list hostinfo) (n : nat) (deny : Z) (last : option nat)
    : Z * option nat :=
  match n with
  | O => (deny, last)
  | S i =>
      match l !! i with
      | Some hp =>
          if matches c hp
          then scan_hosts c l i (Z.lor (Z.land deny (Z.lnot (specOps hp))) (denyOps hp)) (Some i)
          else scan_hosts c l i deny last
      | None => (deny, last)
      end
  end.
Definition set_curcons (d : Z) (hp : hostinfo) : hostinfo :=
  mkHost (hostid hp) (hostmask hp) (level hp) (specOps hp) (denyOps hp) (maxcons hp) (curcons hp + d).
(** Add [d] to the connection counts that the client contributes to. *)
Definition count_client (d : Z) (c : __pmSockAddr) (hp : hostinfo) : hostinfo :=
  if matches c hp && negb (maxcons hp =? 0) then set_curcons d hp else hp.
Definition limited (l : list hostinfo) (last : option nat) : bool :=
  match last ≫= (l !!.) with
  | Some hp => negb (maxcons hp =? 0) && (maxcons hp <=? curcons hp)
  | None => false
  end.

(** The loop over the client's addresses: status, denied operations, host list. *)
Fixpoint add_client_ids (all : Z) (ids : list __pmSockAddr) (l : list hostinfo) (deny : Z) (last : option nat)
    : Z * Z * list hostinfo :=
  match ids with
  | [] => (0, deny, l)
  | c :: ids =>
      let '(deny, last) := scan_hosts c l (length l) deny last in
      if deny =? all then (PM_ERR_PERMISSION, deny, l)
      else if limited l last then (PM_ERR_CONNLIMIT, all, l)
      else add_client_ids all ids (count_client 1 c <$> l) deny last
  end.
(** Status, denied operations (0 where the code leaves them alone), new state. *)
Definition __pmAccAddClient (myaddrs : option (list __pmSockAddr)) (hostid : __pmSockAddr) (st : acc)
    : Z * Z * acc :=
  if multi then (PM_ERR_THREAD, 0, st)
  else match getClientIds myaddrs hostid with
  | inl sts => (sts, 0, st)
  | inr ids =>
      match hostlist st with
      | [] => (0, 0, st)
      | l =>
          let '(sts, deny, l) := add_client_ids (all_ops st) ids l 0 None in
          (sts, deny, mkAcc (all_ops st) l (saved st) (oldhostlist st))
      end
  end.
Definition __pmAccDelClient (myaddrs : option (list __pmSockAddr)) (hostid : __pmSockAddr) (st : acc) : acc :=
  if multi then st
  else match getClientIds myaddrs hostid with
  | inl _ => st
  | inr ids =>
      mkAcc (all_ops st) (foldl (λ l c, count_client (-1) c <$> l) (hostlist st) ids) (saved st) (oldhostlist st)
  end.
End ops.

(** ** The invariant *)

(** The bits of [a] are bits of [b]. *)
Definition submask (a b : Z) : Prop := Z.land a (Z.lnot b) = 0.
Definition inet_spec (sp : accessSpec) : Prop :=
  match s_hostid sp with OtherAddr _ => False | _ => True end.
Definition host_key (h : hostinfo) : __pmSockAddr * Z := (hostid h, level h).
(** Most specific patterns first, one entry per pattern, and only operations that
    were declared are specified or denied. *)
Record hosts_ok (ops : Z) (l : list hostinfo) : Prop := {
  ho_sorted : StronglySorted (λ a b, level a <= level b) l;
  ho_unique : NoDup (host_key <$> l);
  ho_masks : Forall (λ h, submask (denyOps h) (specOps h) ∧ submask (specOps h) ops) l;
  ho_max : Forall (λ h, 0 <= maxcons h) l }.
Record inv (st : acc) : Prop := {
  inv_hosts : hosts_ok (all_ops st) (hostlist st);
  inv_old : saved st = true → hosts_ok (all_ops st) (oldhostlist st) }.

Lemma submask_spec a b : submask a b ↔ ∀ n, 0 <= n → Z.testbit a n = true → Z.testbit b n = true.
Proof.
  unfold submask. split.
  - intros H n Hn Ha. apply (f_equal (λ x, Z.testbit x n)) in H.
    rewrite Z.land_spec, Z.lnot_spec, Ha, Z.bits_0 in H by done. by destruct (Z.testbit b n).
  - intros H. apply Z.bits_inj'. intros n Hn. rewrite Z.land_spec, Z.lnot_spec, Z.bits_0 by done.
    specialize (H n Hn). destruct (Z.testbit a n), (Z.testbit b n); naive_solver.
Qed.
(** [mask_solve] proves inclusions of masks bit by bit. *)
Ltac mask_solve := repeat match goal with H : submask _ _ |- _ => rewrite submask_spec in H end;
  rewrite submask_spec; intros ?n ?Hn; rewrite ?Z.lor_spec, ?Z.land_spec, ?Z.lnot_spec by done;
  repeat match goal with H : ∀ n, 0 <= n → _ |- _ => specialize (H _ Hn) end;
  repeat destruct (Z.testbit _ _); simpl in *; naive_solver.

Lemma sockaddr_same_eq a b : sockaddr_same a b = true → a = b.
Proof.
  destruct a, b; simpl; try done.
  - by intros ->%Z.eqb_eq.
  - by intros ->%bool_decide_eq_true.
Qed.
Lemma sockaddr_same_refl sp : inet_spec sp → sockaddr_same (s_hostid sp) (s_hostid sp) = true.
Proof.
  unfold inet_spec. destruct (s_hostid sp); simpl; [by rewrite Z.eqb_refl | by rewrite bool_decide_eq_true_2 | done].
Qed.

Lemma find_host_spec sp l i :
  ∃ k, (k <= length l)%nat ∧
    Forall (λ h, level h <= s_level sp
      ∧ sockaddr_same (s_hostid sp) (hostid h) && (s_level sp =? level h) = false) (take k l)
    ∧ ((find_host sp l i = ((i + k)%nat, true)
        ∧ ∃ h, l !! k = Some h ∧ s_hostid sp = hostid h ∧ s_level sp = level h)
       ∨ (find_host sp l i = ((i + k)%nat, false) ∧ ∀ h, l !! k = Some h → s_level sp < level h)).
Proof.
  revert i. induction l as [|hp l IH]; intros i; simpl.
  { exists 0%nat. split_and!; [lia | constructor |]. right. by rewrite Nat.add_0_r. }
  destruct (Z.ltb_spec (s_level sp) (level hp)) as [Hl|Hl].
  { exists 0%nat. split_and!; [lia | constructor |]. right. rewrite Nat.add_0_r. split; [done |].
    by intros h [= <-]. }
  destruct (sockaddr_same (s_hostid sp) (hostid hp) && (s_level sp =? level hp)) eqn:E.
  { exists 0%nat. split_and!; [lia | constructor |]. left. rewrite Nat.add_0_r. split; [done |].
    apply andb_true_iff in E as [E1 E2]. exists hp. split_and!; [done | by apply sockaddr_same_eq | lia]. }
  destruct (IH (S i)) as (k & Hk & Hf & Hr). exists (S k). split; [lia |].
  split; [constructor; [split; [lia | done] | done] |].
  replace (i + S k)%nat with (S i + k)%nat by lia. done.
Qed.

Lemma sorted_after l i (h : hostinfo) :
  StronglySorted (λ a b, level a <= level b) l → l !! i = Some h →
  Forall (λ b, level h <= level b) (drop (S i) l).
Proof.
  revert i. induction l as [|x l IH]; intros i Hs Hi; [done |].
  apply StronglySorted_inv in Hs as [Hs Hx]. destruct i as [|i]; simpl in *.
  - by simplify_eq.
  - by apply IH.
Qed.

Lemma hosts_ok_update ops l i h h' :
  hosts_ok ops l → l !! i = Some h → host_key h' = host_key h →
  submask (denyOps h') (specOps h') → submask (specOps h') ops → 0 <= maxcons h' →
  hosts_ok ops (<[i := h']> l).
Proof.
  intros [Hs Hu Hm Hx] Hi Hk ???. assert (level h' = level h) as Hl by by injection Hk.
  split.
  - revert i Hi. induction Hs as [|x l Hs IH Hf]; intros i Hi; [done |].
    apply NoDup_cons in Hu as [_ Hu]. apply Forall_cons in Hm as [_ Hm]. apply Forall_cons in Hx as [_ Hx].
    destruct i as [|i]; simpl in *; simplify_eq.
    + constructor; [done |]. by rewrite Hl.
    + constructor; [by apply IH |]. apply Forall_insert; [done |]. rewrite Hl.
      rewrite Forall_lookup in Hf. eauto.
  - rewrite list_fmap_insert, Hk. rewrite list_insert_id; [done |]. by rewrite list_lookup_fmap, Hi.
  - by apply Forall_insert.
  - by apply Forall_insert.
Qed.

Lemma hosts_ok_insert ops l k sp spec deny max :
  hosts_ok ops l → inet_spec sp → submask spec ops → 0 <= max →
  Forall (λ h, level h <= s_level sp
    ∧ sockaddr_same (s_hostid sp) (hostid h) && (s_level sp =? level h) = false) (take k l) →
  (∀ h, l !! k = Some h → s_level sp < level h) →
  hosts_ok ops (take k l ++ new_host spec deny max sp :: drop k l).
Proof.
  intros [Hs Hu Hm Hx] Hi Hspec Hmax Hb Ha.
  assert (Forall (λ h, s_level sp < level h) (drop k l)) as Ha'.
  { destruct (l !! k) as [h|] eqn:E.
    - rewrite (drop_S _ _ _ E). specialize (Ha h eq_refl). constructor; [done |].
      eapply Forall_impl; [by eapply sorted_after |]. simpl. lia.
    - apply lookup_ge_None in E. by rewrite drop_ge. }
  rewrite <- (take_drop k l) in Hs, Hu, Hm, Hx.
  apply StronglySorted_app in Hs as (Hc & H1 & H2). rewrite fmap_app in Hu.
  apply NoDup_app in Hu as (U1 & U2 & U3). apply Forall_app in Hm as [? ?]. apply Forall_app in Hx as [? ?].
  rewrite Forall_forall in Hb, Ha'. split.
  - apply StronglySorted_app. split_and!; [| done |].
    + intros a b Hin [-> | Hin']%elem_of_cons; [by apply Hb | by apply Hc].
    + constructor; [done |]. apply Forall_forall. intros b Hin. simpl. specialize (Ha' b Hin). lia.
  - rewrite fmap_app, fmap_cons. apply NoDup_app. split_and!; [done | |].
    + intros x Hx1 [-> | Hx2]%elem_of_cons; [| by apply (U2 x)].
      apply list_elem_of_fmap in Hx1 as (h & [= E1 E2] & Hh). destruct (Hb h Hh) as [_ Hb2].
      rewrite <- E1, <- E2, sockaddr_same_refl, Z.eqb_refl in Hb2; done.
    + constructor; [| done]. intros (h & [= E1 E2] & Hh)%list_elem_of_fmap.
      specialize (Ha' h Hh). lia.
  - apply Forall_app; split; [done |]. constructor; [| done]. split; [simpl; mask_solve | done].
  - apply Forall_app; split; [done |]. by constructor.
Qed.

Lemma add_spec_ok ops spec deny max sp l :
  hosts_ok ops l → inet_spec sp → submask spec ops → 0 <= max →
  hosts_ok ops (add_spec spec deny max sp l).1.
Proof.
  intros Hok Hi Hspec Hmax. unfold add_spec.
  destruct (find_host_spec sp l 0) as (k & Hk & Hf & [(-> & h & Hh & _ & _) | (-> & Ha)]); simpl.
  - rewrite Hh. destruct (clash spec deny max h); simpl; [done |].
    assert (submask (denyOps h) (specOps h) ∧ submask (specOps h) ops) as [M1 M2]
      by exact (Forall_lookup_1 _ _ _ _ (ho_masks _ _ Hok) Hh).
    pose proof (Forall_lookup_1 _ _ _ _ (ho_max _ _ Hok) Hh).
    eapply hosts_ok_update; [done | done | done | | |]; simpl; [mask_solve | mask_solve |].
    by destruct (negb _).
  - by apply hosts_ok_insert.
Qed.
Lemma add_specs_ok ops spec deny max specs : ∀ l found,
  hosts_ok ops l → Forall inet_spec specs → submask spec ops → 0 <= max →
  hosts_ok ops (add_specs spec deny max specs l found).1.
Proof.
  induction specs as [|sp specs IH]; intros l found Hok Hsp Hspec Hmax; [done |].
  apply Forall_cons in Hsp as [? ?]. cbn [add_specs].
  pose proof (add_spec_ok ops spec deny max sp l) as Ha.
  destruct (add_spec spec deny max sp l) as [l' ok]. apply IH; auto.
Qed.

(** Counting clients changes nothing but the counts. *)
Lemma hosts_ok_count ops d c l : hosts_ok ops l → hosts_ok ops (count_client d c <$> l).
Proof.
  assert (∀ h, level (count_client d c h) = level h ∧ host_key (count_client d c h) = host_key h
    ∧ denyOps (count_client d c h) = denyOps h ∧ specOps (count_client d c h) = specOps h
    ∧ maxcons (count_client d c h) = maxcons h) as Hc.
  { intros h. unfold count_client. by destruct (_ && _). }
  intros [Hs Hu Hm Hx]. split.
  - clear -Hs Hc. induction Hs as [|x l Hs IH Hf]; [constructor |]. constructor; [done |].
    apply Forall_fmap. eapply Forall_impl; [done |]. intros y Hy. simpl.
    destruct (Hc x) as [-> _], (Hc y) as [-> _]. done.
  - rewrite <- list_fmap_compose. erewrite list_fmap_ext; [exact Hu |]. intros i h _. simpl. apply Hc.
  - apply Forall_fmap. eapply Forall_impl; [exact Hm |]. intros h [??]. simpl. by destruct (Hc h) as (_ & _ & -> & -> & _).
  - apply Forall_fmap. eapply Forall_impl; [exact Hx |]. intros h ?. simpl. by destruct (Hc h) as (_ & _ & _ & _ & ->).
Qed.
Lemma add_client_ids_ok ops ids : ∀ l deny last,
  hosts_ok ops l → hosts_ok ops (add_client_ids ops ids l deny last).2.
Proof.
  induction ids as [|c ids IH]; intros l deny last Hok; cbn [add_client_ids]; [done |].
  destruct (scan_hosts c l (length l) deny last) as [deny' last'].
  destruct (deny' =? ops); [done |]. destruct (limited l last'); [done |].
  by apply IH, hosts_ok_count.
Qed.
Lemma hosts_ok_ops ops ops' l : hosts_ok ops l → submask ops ops' → hosts_ok ops' l.
Proof.
  intros [Hs Hu Hm Hx] Ho. split; try done. eapply Forall_impl; [exact Hm |]. simpl. intros h [? ?].
  split; [done | mask_solve].
Qed.

(** One call of the module, with any arguments; host patterns resolve to Internet
    addresses, as [getAccessSpecs] sees to. *)
Inductive acc_step (multi : bool) (st : acc) : acc → Prop :=
| step_op op : acc_step multi st (__pmAccAddOp multi op st).2
| step_save : acc_step multi st (__pmAccSaveHosts multi st).2
| step_restore : acc_step multi st (__pmAccRestoreHosts multi st).2
| step_free : acc_step multi st (__pmAccFreeSavedHosts multi st)
| step_host specs spec deny max :
    (∀ l, specs = inr l → Forall inet_spec l) → acc_step multi st (__pmAccAddHost multi specs spec deny max st).2
| step_client my c : acc_step multi st (__pmAccAddClient multi my c st).2
| step_delete my c : acc_step multi st (__pmAccDelClient multi my c st).

Lemma acc_step_inv multi st st' : acc_step multi st st' → inv st → inv st'.
Proof.
  intros Hs [Hh Ho]. destruct Hs.
  - unfold __pmAccAddOp. destruct multi; [by split |]. destruct ((op =? 0) || _); [by split |].
    destruct (negb (Z.land op (Z.lnot _) =? 0)); [by split |]. simpl.
    assert (submask (all_ops st) (Z.lor (all_ops st) (low_mask op 0 32))) by mask_solve.
    split; simpl; [by eapply hosts_ok_ops | intros; by eapply hosts_ok_ops; [apply Ho |]].
  - unfold __pmAccSaveHosts. destruct multi, (saved st) eqn:E; simpl; try (by split; rewrite ?E). split; simpl; [| done]. split; constructor.
  - unfold __pmAccRestoreHosts. destruct multi, (saved st) eqn:E; simpl; try (by split; rewrite ?E).
    split; simpl; [by apply Ho | done].
  - unfold __pmAccFreeSavedHosts. destruct multi, (saved st) eqn:E; simpl; by split; rewrite ?E.
  - unfold __pmAccAddHost. destruct multi; [by split |].
    destruct (Z.eqb_spec (Z.land spec (Z.lnot (all_ops st))) 0) as [Hspec|]; simpl; [| by split].
    destruct (Z.ltb_spec max 0); [by split |]. destruct specs as [sts|specs]; [by split |].
    pose proof (add_specs_ok (all_ops st) spec deny max specs (hostlist st) 0 Hh) as Ha.
    destruct (add_specs spec deny max specs (hostlist st) 0) as [l found]; simpl in *. split; [| done].
    apply Ha; [by apply H | done | lia].
  - unfold __pmAccAddClient. destruct multi; [by split |]. destruct (getClientIds my c) as [|ids]; [by split |].
    destruct (hostlist st) as [|h l] eqn:E; [simpl; split; [by rewrite E | done] |].
    pose proof (add_client_ids_ok (all_ops st) ids (h :: l) 0 None Hh) as Ha.
    destruct (add_client_ids (all_ops st) ids (h :: l) 0 None) as [[sts deny] l']; simpl in *. by split.
  - unfold __pmAccDelClient. destruct multi; [by split |]. destruct (getClientIds my c) as [|ids]; [by split |].
    split; simpl; [| done]. clear -Hh. revert Hh. generalize (hostlist st).
    induction ids as [|c ids IH]; intros l Hl; [done |]. simpl. by apply IH, hosts_ok_count.
Qed.

(** Whatever calls are made, the host list is ordered from the most specific
    pattern to the most general one, has one entry per pattern, and specifies and
    denies only operations that were declared; the list that is saved does, too. *)
Lemma access_reachable_inv multi st : rtc (acc_step multi) init st → inv st.
Proof.
  intros H. assert (inv init) as H0 by (split; [split; constructor | done]).
  induction H as [|st st1 st2 Hs _ IH]; [done |]. by eapply IH, acc_step_inv.
Qed.

(** ** Permissions and connection counts *)

Lemma find_app {A} (p : A → bool) l k :
  find p (l ++ k) = match find p l with Some x => Some x | None => find p k end.
Proof. induction l as [|x l IH]; simpl; [done |]. by destruct (p x). Qed.

Ltac find_case := match goal with |- context [find ?p (take ?n ?l)] => destruct (find p (take n l)); [done |] end.

(** The scan from the most general entry to the most specific one leaves, for each
    operation, the verdict of the first entry that matches and specifies it, and
    the first entry that matches. *)
Lemma scan_hosts_spec c ops l : hosts_ok ops l → ∀ n deny last,
  (n <= length l)%nat →
  (∀ b, 0 <= b → Z.testbit (scan_hosts c l n deny last).1 b
     = match find (λ h, matches c h && Z.testbit (specOps h) b) (take n l) with
       | Some h => Z.testbit (denyOps h) b
       | None => Z.testbit deny b
       end)
  ∧ (scan_hosts c l n deny last).2 ≫= (l !!.)
     = match find (matches c) (take n l) with Some h => Some h | None => last ≫= (l !!.) end.
Proof.
  intros Hok. induction n as [|n IH]; intros deny last Hn; [done |].
  destruct (lookup_lt_is_Some_2 l n ltac:(lia)) as [hp Hp]. cbn [scan_hosts]. rewrite Hp.
  rewrite (take_S_r _ _ _ Hp). pose proof (Forall_lookup_1 _ _ _ _ (ho_masks _ _ Hok) Hp) as [Hd _].
  rewrite submask_spec in Hd. destruct (matches c hp) eqn:Em.
  - destruct (IH (Z.lor (Z.land deny (Z.lnot (specOps hp))) (denyOps hp)) (Some n) ltac:(lia)) as [IH1 IH2]. split.
    + intros b Hb. rewrite IH1, find_app by done. find_case. simpl. rewrite Em.
      rewrite Z.lor_spec, Z.land_spec, Z.lnot_spec by done. specialize (Hd b Hb).
      destruct (Z.testbit (specOps hp) b); simpl; destruct (Z.testbit (denyOps hp) b), (Z.testbit deny b); simpl; try done;
        by specialize (Hd eq_refl).
    + rewrite IH2, find_app. find_case. simpl. by rewrite Em.
  - destruct (IH deny last ltac:(lia)) as [IH1 IH2]. split.
    + intros b Hb. rewrite IH1, find_app by done. find_case. simpl. by rewrite Em.
    + rewrite IH2, find_app. find_case. simpl. by rewrite Em.
Qed.


(** The connections a host list entry has from these addresses. *)
Definition contribution (h : hostinfo) (ids : list __pmSockAddr) : Z :=
  if maxcons h =? 0 then 0 else zlen (filter (λ c, matches c h) ids).
Lemma count_fold d ids : ∀ h,
  foldl (λ h c, count_client d c h) h ids = set_curcons (d * contribution h ids) h.
Proof.
  induction ids as [|c ids IH]; intros h; cbn [foldl].
  - unfold contribution, set_curcons. destruct h; cbn. f_equal. case_match; cbn; lia.
  - rewrite IH. unfold contribution, count_client. rewrite filter_cons.
    destruct h as [hi hm lv sp dn mx cu]. destruct (mx =? 0) eqn:Ex; cbn [maxcons]; rewrite ?Ex.
    + rewrite andb_false_r. unfold set_curcons; cbn. rewrite Ex. f_equal; lia.
    + cbn [negb]. rewrite andb_true_r. destruct (matches c _) eqn:Em; cbn [maxcons set_curcons curcons].
      * rewrite Ex. unfold set_curcons; cbn [hostid hostmask level specOps denyOps maxcons curcons].
        rewrite decide_True by done. f_equal. cbn [length].
        assert (filter (λ c0, matches c0 (mkHost hi hm lv sp dn mx (cu + d))) ids
          = filter (λ c0, matches c0 (mkHost hi hm lv sp dn mx cu)) ids) as -> by done. lia.
      * rewrite Ex, decide_False by naive_solver. done.
Qed.
Lemma count_all d ids : ∀ l : list hostinfo,
  foldl (λ l c, count_client d c <$> l) l ids = (λ h, set_curcons (d * contribution h ids) h) <$> l.
Proof.
  intros l. transitivity ((λ h, foldl (λ h c, count_client d c h) h ids) <$> l).
  - revert l. induction ids as [|c ids IH]; intros l; cbn [foldl]; [by rewrite list_fmap_id |].
    rewrite IH. by rewrite <- list_fmap_compose.
  - apply list_fmap_ext. intros i h _. apply count_fold.
Qed.
Lemma add_client_ids_count ops ids : ∀ (l : list hostinfo) deny last deny' l',
  add_client_ids ops ids l deny last = (0, deny', l') → l' = foldl (λ l c, count_client 1 c <$> l) l ids.
Proof.
  induction ids as [|c ids IH]; intros l deny last deny' l'; cbn [add_client_ids foldl]; [by intros [= _ <-] |].
  destruct (scan_hosts c l (length l) deny last) as [d la].
  destruct (d =? ops); [done |]. destruct (limited l la); [done |]. apply IH.
Qed.

(** Connection counts.  When a client that was accepted goes away, the host
    list is as it was before the client came, whatever the number of addresses the
    client is known by. *)
Lemma client_add_del my c st deny st' :
  __pmAccAddClient false my c st = (0, deny, st') → __pmAccDelClient false my c st' = st.
Proof.
  unfold __pmAccAddClient, __pmAccDelClient. destruct (getClientIds my c) as [sts|ids] eqn:Eg.
  { by intros [= -> _ <-]. }
  destruct st as [ops l sv old]; cbn [all_ops hostlist saved oldhostlist] in *. destruct l as [|h l].
  { intros [= _ <-]. cbn. f_equal. clear. induction ids; [done |]. done. }
  destruct (add_client_ids ops ids (h :: l) 0 None) as [[sts deny'] l'] eqn:E. intros [= -> _ <-].
  apply add_client_ids_count in E as ->. cbn [all_ops hostlist saved oldhostlist]. f_equal.
  rewrite !count_all, <- list_fmap_compose. rewrite <- (list_fmap_id (h :: l)) at 2.
  apply list_fmap_ext. intros i h' _. unfold compose.
  change (contribution (set_curcons _ h') ids) with (contribution h' ids).
  destruct h'. unfold set_curcons; cbn. f_equal. lia.
Qed.

Lemma clash_agrees spec deny max hp b :
  clash spec deny max hp = false → Z.testbit (specOps hp) b = true → Z.testbit spec b = true →
  Z.testbit (denyOps hp) b = Z.testbit deny b.
Proof.
  unfold clash. intros [_ Hc]%orb_false_iff H1 H2.
  apply andb_false_iff in Hc as [Hc|Hc]; apply negb_false_iff, Z.eqb_eq in Hc;
    apply (f_equal (λ x, Z.testbit x b)) in Hc; revert Hc;
    rewrite ?Z.lxor_spec, ?Z.land_spec, Z.bits_0, ?H1, ?H2; [done |].
  by destruct (Z.testbit (denyOps hp) b), (Z.testbit deny b).
Qed.
Lemma unique_host l h h' : NoDup (host_key <$> l) → h ∈ l → h' ∈ l → host_key h = host_key h' → h = h'.
Proof.
  intros Hn (i & Hi)%list_elem_of_lookup (j & Hj)%list_elem_of_lookup E.
  assert (i = j) as ->; [| congruence].
  eapply (NoDup_lookup _ _ _ (host_key h) Hn); rewrite list_lookup_fmap; [by rewrite Hi | by rewrite Hj, E].
Qed.
(** The entry [h] holds the statement, and what the entry [h0] held. *)
Definition states (spec deny : Z) (h : hostinfo) : Prop :=
  ∀ b, 0 <= b → Z.testbit spec b = true → Z.testbit (specOps h) b = true ∧ Z.testbit (denyOps h) b = Z.testbit deny b.
Lemma augment_states spec deny max h :
  clash spec deny max h = false → submask (denyOps h) (specOps h) →
  states spec deny (augment spec deny max h) ∧ states (specOps h) (denyOps h) (augment spec deny max h).
Proof.
  intros Hc Hm. rewrite submask_spec in Hm. pose proof (λ b, clash_agrees _ _ _ _ b Hc) as Ha.
  split; intros b Hb Hs; specialize (Hm b Hb); specialize (Ha b); simpl;
    rewrite !Z.lor_spec, Z.land_spec, Hs; (split; [by rewrite ?orb_true_r |]);
    rewrite Hs in *; destruct (Z.testbit (specOps h) b), (Z.testbit (denyOps h) b), (Z.testbit spec b), (Z.testbit deny b);
    naive_solver.
Qed.

(** A statement about a host or a pattern that is accepted is in force: there is
    an entry for the pattern that gives every operation the statement specifies its
    verdict, and every operation that was specified for the pattern before the
    verdict it had; the entries of other patterns are what they were.  A statement
    that is refused changes nothing. *)
Lemma add_host_states sp spec deny max st :
  inv st → inet_spec sp →
  let '(sts, st') := __pmAccAddHost false (inr [sp]) spec deny max st in
  if sts =? 0 then
    (∃ h, h ∈ hostlist st' ∧ host_key h = (s_hostid sp, s_level sp) ∧ states spec deny h
       ∧ ∀ h0, h0 ∈ hostlist st → host_key h0 = host_key h → states (specOps h0) (denyOps h0) h)
    ∧ ∀ h0, host_key h0 ≠ (s_hostid sp, s_level sp) → h0 ∈ hostlist st' ↔ h0 ∈ hostlist st
  else st' = st.
Proof.
  intros [Hok _] Hsp. unfold __pmAccAddHost. destruct (negb _); [done |]. destruct (max <? 0); [done |].
  destruct st as [ops l sv old]; cbn [add_specs all_ops hostlist saved oldhostlist] in *. unfold add_spec.
  destruct (find_host_spec sp l 0) as (k & Hk & Hf & [(-> & h & Hh & E1 & E2) | (-> & Ha)]); simpl.
  - rewrite Hh. destruct (clash spec deny max h) eqn:Hc; simpl; [done |].
    destruct (Forall_lookup_1 _ _ _ _ (ho_masks _ _ Hok) Hh) as [M1 _].
    destruct (augment_states _ _ _ _ Hc M1) as [S1 S2]. rewrite insert_take_drop by by eapply lookup_lt_Some.
    assert (h ∈ l) as Hin by by eapply list_elem_of_lookup_2. split.
    + exists (augment spec deny max h). split_and!; [set_solver | by rewrite E1, E2 | done |].
      intros h0 Hin0 Ek. by rewrite (unique_host l h0 h (ho_unique _ _ Hok) Hin0 Hin Ek).
    + intros h0 Hn. rewrite <- (take_drop_middle l k h Hh) at 3. rewrite !elem_of_app, !elem_of_cons.
      rewrite E1, E2 in Hn. split; (intros [?|[->|?]]; [tauto | by destruct Hn | tauto]).
  - assert (∀ h0, h0 ∈ l → host_key h0 ≠ (s_hostid sp, s_level sp)) as Hnew.
    { pose proof (hosts_ok_insert ops l k sp 0 deny 0 Hok Hsp ltac:(done) ltac:(lia) Hf Ha) as [_ Hu _ _].
      rewrite fmap_app, fmap_cons in Hu. apply NoDup_app in Hu as (_ & H1 & [H2 _]%NoDup_cons).
      intros h0 Hin Ek. rewrite <- (take_drop k l) in Hin. apply elem_of_app in Hin as [Hin|Hin].
      - apply (H1 (host_key h0)); [by apply list_elem_of_fmap_2 |]. rewrite Ek. by left.
      - apply H2. change (host_key (new_host 0 deny 0 sp)) with (s_hostid sp, s_level sp). rewrite <- Ek.
        by apply list_elem_of_fmap_2. }
    split.
    + exists (new_host spec deny max sp). split_and!; [set_solver | done | |].
      * intros b Hb Hs. simpl. by rewrite Z.land_spec, Hs.
      * intros h0 Hin Ek. by destruct (Hnew h0 Hin).
    + intros h0 Hn. rewrite <- (take_drop k l) at 3. rewrite !elem_of_app, elem_of_cons.
      split; [intros [?|[->|?]] |]; [tauto | by destruct Hn | tauto | tauto].
Qed.

(** ** Wild cards for Internet addresses *)

(** A character of a string, and the one a pointer is at (0 at the end). *)
Definition code (c : byte) : Z := byte.unsigned c.
Definition at_p (p : buf) : Z := match p with [] => 0 | c :: _ => code c end.
Definition is_digit (c : Z) : bool := (48 <=? c) && (c <=? 57).
Definition is_space (c : Z) : bool := (c =? 32) || (9 <=? c) && (c <=? 13).

Fixpoint skip_space (p : buf) : buf :=
  match p with
  | c :: p' => if is_space (code c) then skip_space p' else p
  | [] => []
  end.
(** The digits at [p]: the value, how many there are, and what follows. *)
Fixpoint digits (p : buf) (n : Z) (k : nat) : Z * nat * buf :=
  match p with
  | c :: p' => if is_digit (code c) then digits p' (10 * n + (code c - 48)) (S k) else (n, k, p)
  | [] => (n, k, [])
  end.
Definition LONG_MAX : Z := 2^63 - 1.
(** [strtol(p, &p, 10)] of the C library, the result converted to [int]. *)
Definition strtol10 (p : buf) : Z * buf :=
  let p1 := skip_space p in
  let '(neg, p2) := match p1 with
    | c :: p' => if code c =? 45 then (true, p') else if code c =? 43 then (false, p') else (false, p1)
    | [] => (false, p1)
    end in
  let '(n, k, rest) := digits p2 0 0 in
  match k with
  | O => (0, p)
  | S _ => (s32 (if neg : bool then Z.max (- n) (- LONG_MAX - 1) else Z.min n LONG_MAX), rest)
  end.

(** The loop over the components: the wild card level and the numbers. *)
Fixpoint wild_loop (fuel : nat) (p : buf) (level : Z) (ip : list Z) : Z + (Z * list Z) :=
  if (at_p p =? 0) || (at_p p =? 42) then inr (level, ip)
  else match fuel with
  | O => inl (- EINVAL)
  | S fuel =>
      let '(n, p) := strtol10 p in
      if negb (at_p p =? 46) && negb (at_p p =? 42) || (n <? 0) || (255 <? n) then inl (- EINVAL)
      else if level - 1 <? 1 then inl (- EINVAL)
      else wild_loop fuel (drop 1 p) (level - 1) (ip ++ [n])
  end.
(** The level, and the components of the address and of the mask, whose texts
    [__pmStringToSockAddr] turns into the address and the mask of the spec. *)
Definition parseInetWildCard (name : buf) : Z + (Z * list Z * list Z) :=
  let p := if at_p name =? 46 then drop 1 name else name in
  if (at_p name =? 46) && negb (at_p p =? 42) then inl (- EINVAL)
  else match wild_loop (length p) p 4 [] with
  | inl e => inl e
  | inr (level, ip) =>
      inr (level, ip ++ replicate (Z.to_nat level) 0, ((λ _, 255) <$> ip) ++ replicate (Z.to_nat level) 0)
  end.
(** A dotted quad as [inet_pton] stores it. *)
Definition inet (q : list Z) : Z := foldr (λ x acc, x + 256 * acc) 0 q.
Definition getWildCardSpec (name : buf) : Z + accessSpec :=
  match parseInetWildCard name with
  | inl e => inl e
  | inr (level, ip, mask) => inr (mkSpec (Inet (inet ip)) (Inet (inet mask)) level)
  end.

Definition byte_val (x : Z) : Prop := 0 <= x < 256.
Lemma wild_loop_ok fuel : ∀ p level ip level' ip',
  wild_loop fuel p level ip = inr (level', ip') → 1 <= level → zlen ip + level = 4 → Forall byte_val ip →
  1 <= level' ∧ zlen ip' + level' = 4 ∧ Forall byte_val ip'.
Proof.
  induction fuel as [|fuel IH]; intros p level ip level' ip'; cbn [wild_loop].
  all: destruct ((at_p p =? 0) || (at_p p =? 42)); [by intros [= <- <-] |].
  { done. }
  destruct (strtol10 p) as [n p1]. destruct (_ || _ || _) eqn:E; [done |].
  apply orb_false_iff in E as [E1 E2]. apply orb_false_iff in E1 as [_ E1].
  destruct (Z.ltb_spec (level - 1) 1); [done |]. intros Hw Hl Hz Hf. eapply IH; [exact Hw | lia | lens |].
  apply Forall_app; split; [done |]. repeat constructor; lia.
Qed.

Lemma inet_cons x q : inet (x :: q) = x + 256 * inet q.
Proof. done. Qed.
Lemma inet_range q : Forall byte_val q → 0 <= inet q < 256 ^ zlen q.
Proof.
  induction 1 as [|x q Hx Hq IH]; [done |]. rewrite inet_cons, length_cons, Nat2Z.inj_succ, Z.pow_succ_r by lia.
  unfold byte_val in Hx. clear Hq. revert IH. generalize (256 ^ zlen q). lia.
Qed.
Lemma inet_app q r : inet (q ++ r) = inet q + 256 ^ zlen q * inet r.
Proof.
  induction q as [|x q IH].
  { change (256 ^ zlen []) with 1. rewrite Z.mul_1_l. done. }
  rewrite <- app_comm_cons, !inet_cons, IH, length_cons, Nat2Z.inj_succ,
    Z.pow_succ_r by lia. lia.
Qed.
Lemma inet_zeros n : inet (replicate n 0) = 0.
Proof. induction n as [|n IH]; [done |]. simpl replicate. by rewrite inet_cons, IH. Qed.
Lemma inet_ones {A} (q : list A) : inet ((λ _, 255) <$> q) = Z.ones (8 * zlen q).
Proof.
  induction q as [|x q IH]; [done |]. rewrite fmap_cons, inet_cons, IH, length_cons, Nat2Z.inj_succ, !Z.ones_equiv.
  replace (8 * Z.succ (zlen q)) with (8 + 8 * zlen q) by lia. rewrite Z.pow_add_r by lia. lia.
Qed.
Lemma inet_inj q r : Forall byte_val q → Forall byte_val r → length q = length r → inet q = inet r → q = r.
Proof.
  intros Hq. revert r. induction Hq as [|x q Hx Hq IH]; intros r Hr Hl E; destruct r as [|y r]; try done.
  apply Forall_cons in Hr as [Hy Hr]. rewrite !inet_cons in E. unfold byte_val in *.
  assert (x = y) as -> by lia. f_equal. apply IH; [done | by injection Hl | lia].
Qed.

(** A wild card for Internet addresses that is accepted has at least one
    component left open, and an entry made from it matches exactly the addresses
    that begin with the components it gives. *)
Lemma wildcard_matches name level ip mask x :
  parseInetWildCard name = inr (level, ip, mask) → Forall byte_val x → length x = 4%nat →
  1 <= level <= 4
  ∧ sockaddr_same (__pmSockAddrMask (Inet (inet x)) (Inet (inet mask))) (Inet (inet ip))
    = bool_decide (take (4 - Z.to_nat level) x = take (4 - Z.to_nat level) ip).
Proof.
  unfold parseInetWildCard. destruct (_ && _); [done |].
  destruct (wild_loop _ _ _ _) as [|[lv ns]] eqn:E; [done |]. intros [= <- <- <-] Hx Hlx.
  apply wild_loop_ok in E as (H1 & H2 & H3); [| lia | done | constructor]. split; [lia |]. simpl.
  replace (4 - Z.to_nat lv)%nat with (length ns) by lia. rewrite take_app_length.
  rewrite !inet_app, inet_zeros, inet_ones, !Z.mul_0_r, !Z.add_0_r.
  assert (∀ k : nat, 256 ^ Z.of_nat k = 2 ^ (8 * Z.of_nat k)) as Hp by (intros; by rewrite Z.pow_mul_r by lia).
  rewrite Z.land_ones, <- Hp by lia.
  rewrite <- (take_drop (length ns) x), inet_app at 1. assert (length (take (length ns) x) = length ns) as Ht by lens.
  rewrite Ht, (Z.mul_comm (256 ^ _)), Z_mod_plus_full.
  assert (Forall byte_val (take (length ns) x)) as Hf by by apply Forall_take.
  pose proof (inet_range _ Hf) as Hr. rewrite Ht in Hr. rewrite Z.mod_small by done.
  apply eq_bool_prop_intro. rewrite bool_decide_spec, Is_true_true, Z.eqb_eq. split; [by apply inet_inj | intros Heq; by rewrite Heq].
Qed.
End Access.

(** ** Examples *)

(** Everything is allowed to 155.23.6.7, up to two connections; operation 1 is
    denied to the rest of 155.23.*. *)
Definition demo_acc : Access.acc :=
  Access.mkAcc 3
    [Access.mkHost (Inet (Access.inet [155; 23; 6; 7])) (Inet (Access.inet [255; 255; 255; 255])) 0 3 0 2 1;
     Access.mkHost (Inet (Access.inet [155; 23; 0; 0])) (Inet (Access.inet [255; 255; 0; 0])) 2 1 1 0 0] false [].
Lemma demo_acc_inv : Access.inv demo_acc.
Proof.
  split; [split | done]; cbn.
  - repeat constructor; cbn; lia.
  - apply NoDup_cons; split; [| apply NoDup_singleton]. by intros ?%list_elem_of_singleton.
  - by repeat constructor.
  - repeat constructor; cbn; lia.
Qed.
Lemma access_reachable_inv_witness : Access.inv (Access.__pmAccAddOp false 2 (Access.__pmAccAddOp false 1 Access.init).2).2.
Proof.
  apply (Access.access_reachable_inv false). eapply rtc_l; [apply (Access.step_op _ _ 1) | apply rtc_once, Access.step_op].
Defined.
Lemma client_add_del_witness :
  let c := Inet (Access.inet [155; 23; 6; 7]) in
  Access.__pmAccDelClient false None c (Access.__pmAccAddClient false None c demo_acc).2 = demo_acc.
Proof.
  cbv zeta. eapply (Access.client_add_del None (Inet (Access.inet [155; 23; 6; 7])) demo_acc 0). vm_compute. reflexivity.
Defined.
Lemma add_host_states_witness :
  let sp := Access.mkSpec (Inet (Access.inet [155; 23; 0; 0])) (Inet (Access.inet [255; 255; 0; 0])) 2 in
  let st' := (Access.__pmAccAddHost false (inr [sp]) 3 1 4 demo_acc).2 in
  ∃ h, h ∈ Access.hostlist st' ∧ Access.states 3 1 h ∧ Access.states 1 1 h.
Proof.
  intros sp. pose proof (Access.add_host_states sp 3 1 4 demo_acc demo_acc_inv I) as H.
  destruct (Access.__pmAccAddHost false (inr [sp]) 3 1 4 demo_acc) as [sts st'] eqn:E.
  assert (sts = 0) as -> by (vm_compute in E; congruence). destruct H as [(h & Hin & Hk & S1 & S2) _].
  exists h. split_and!; [exact Hin | exact S1 |].
  apply (S2 (Access.mkHost (Inet (Access.inet [155; 23; 0; 0])) (Inet (Access.inet [255; 255; 0; 0])) 2 1 1 0 0)).
  - right. left.
  - by rewrite Hk.
Defined.
(** "155.23.*" *)
Definition demo_pattern : buf :=
  [Byte.x31; Byte.x35; Byte.x35; Byte.x2e; Byte.x32; Byte.x33; Byte.x2e; Byte.x2a].
Lemma wildcard_matches_witness :
  Access.parseInetWildCard demo_pattern = inr (2, [155; 23; 0; 0], [255; 255; 0; 0])
  ∧ sockaddr_same (__pmSockAddrMask (Inet (Access.inet [155; 23; 8; 9])) (Inet (Access.inet [255; 255; 0; 0])))
      (Inet (Access.inet [155; 23; 0; 0])) = true.
Proof.
  split; [by vm_compute |].
  destruct (Access.wildcard_matches demo_pattern 2 [155; 23; 0; 0] [255; 255; 0; 0] [155; 23; 8; 9])
    as [_ ->]; [by vm_compute | by repeat constructor | done | by vm_compute].
Defined.

(** ** What goes wrong *)

(** The test for clashes compares all operations that are denied, not only
    those both statements specify: a second statement that agrees with the first
    on every operation they share, and denies another one, is refused. *)
Lemma clash_spurious :
  let hp := Access.mkHost (Inet 1) (Inet 1) 0 1 0 0 0 in
  Z.land (Access.specOps hp) 3 = 1 ∧ Z.testbit (Access.denyOps hp) 0 = Z.testbit 2 0
  ∧ Access.clash 3 2 0 hp = true.
Proof. by vm_compute. Qed.

(** Two entries for the two addresses of the local host: the second one is full. *)
Definition leak_acc : Access.acc :=
  Access.mkAcc 3
    [Access.mkHost (Inet 1) (Inet (Z.ones 32)) 0 0 0 5 0; Access.mkHost (Inet 2) (Inet (Z.ones 32)) 0 0 0 1 1] false [].

(** A local client is checked against each address of the host in turn; if it
    is refused because of a later one, it stays counted for the earlier ones: five
    refused connections fill the first entry. *)
Lemma refused_client_counted :
  let refuse st := (Access.__pmAccAddClient false (Some [Inet 1; Inet 2]) (Inet 16777343) st).2 in
  (Access.__pmAccAddClient false (Some [Inet 1; Inet 2]) (Inet 16777343) leak_acc).1 = (PM_ERR_CONNLIMIT, 3)
  ∧ Access.curcons <$> Access.hostlist (Nat.iter 5 refuse leak_acc) = [5; 1].
Proof. by vm_compute. Qed.
