(* ===== verification/AF.v ===== *)
(** Timed events, src/libpcp/src/AF.c: callbacks that are run when their time has
    come, from a queue ordered by time and one interval timer.

    The static variables are the record [af].  The clock is a function from the
    number of times it has been read to the time it shows; [itimer] is the time at
    which the interval timer will go off, [fired] the callbacks run so far, the last
    one first.  A callback may change the state: it is the parameter [cb]. *)
From stdpp Require Import sorting.
From S2P Require Import Prelude Memory Types.

Module AF.
Record timeval := mkTv { tv_sec : Z; tv_usec : Z }.
Record qelt := mkQelt { q_afid : Z; q_when : timeval; q_delta : timeval }.
Record af := mkAf {
  root : list qelt; afid : Z; block : bool;
  held : bool;                 (* SIGALRM is held *)
  itimer : option timeval; ticks : nat; fired : list Z }.

Definition MIN_ITIMER_USEC : Z := 100.
Definition init : af := mkAf [] 32768 false false None 0 [].

Definition tadd (a b : timeval) : timeval :=
  let u := tv_usec a + tv_usec b in
  if 1000000 <? u then mkTv (tv_sec a + 1 + tv_sec b) (u - 1000000)
  else mkTv (tv_sec a + tv_sec b) u.
Definition tsub_real (a b : timeval) : timeval :=
  let u := tv_usec a - tv_usec b in
  if u <? 0 then mkTv (tv_sec a - 1 - tv_sec b) (u + 1000000)
  else mkTv (tv_sec a - tv_sec b) u.
Definition tsub (a b : timeval) : timeval :=
  let r := tsub_real a b in if tv_sec r <? 0 then mkTv 0 0 else r.
Definition tcmp (a b : timeval) : Z :=
  let res := s32 (tv_sec a - tv_sec b) in
  if res =? 0 then s32 (tv_usec a - tv_usec b) else res.

Fixpoint enqueue (qp : qelt) (l : list qelt) : list qelt :=
  match l with
  | [] => [qp]
  | tqp :: l => if 0 <=? tcmp (q_when qp) (q_when tqp) then tqp :: enqueue qp l else qp :: tqp :: l
  end.

Section ops.
Context (clock : nat → timeval) (multi : bool) (cb : Z → af → af).

Definition set_root (l : list qelt) (st : af) : af :=
  mkAf l (afid st) (block st) (held st) (itimer st) (ticks st) (fired st).
Definition set_held (b : bool) (st : af) : af :=
  mkAf (root st) (afid st) (block st) b (itimer st) (ticks st) (fired st).
(** [__pmtimevalNow] *)
Definition now (st : af) : timeval * af :=
  (clock (ticks st), mkAf (root st) (afid st) (block st) (held st) (itimer st) (S (ticks st)) (fired st)).
(** The interval timer starts [interval] from the time [at_]; setitimer() refuses
    (EINVAL) a number of microseconds that is not less than a second. *)
Definition AFsetitimer (interval at_ : timeval) (st : af) : af :=
  if (0 <=? tv_usec interval) && (tv_usec interval <? 1000000)
  then mkAf (root st) (afid st) (block st) (held st)
         (Some (mkTv (tv_sec at_ + tv_sec interval) (tv_usec at_ + tv_usec interval))) (ticks st) (fired st)
  else st.
(** Set the timer for the head of the queue. *)
Definition set_head_timer (qp : qelt) (st : af) : af :=
  let '(t, st) := now st in
  let interval := tsub (q_when qp) t in
  let interval := if (tv_sec interval =? 0) && (tv_usec interval <? MIN_ITIMER_USEC)
                  then mkTv 0 MIN_ITIMER_USEC else interval in
  AFsetitimer interval t st.
Definition arm (st : af) : af := match root st with [] => st | qp :: _ => set_head_timer qp st end.
Definition hold (st : af) : af := if block st then st else set_held true st.
Definition release (st : af) : af := if block st then st else set_held false st.

(** The [for (;;)] that skips the callbacks there is no time for. *)
Fixpoint catch_up (fuel : nat) (when delta t : timeval) : option timeval :=
  match fuel with
  | O => None
  | S fuel =>
      let when := tadd when delta in
      if 0 <=? tv_sec (tadd (tsub_real when t) delta) then Some when
      else catch_up fuel when delta t
  end.
Definition single_shot (qp : qelt) : bool := (tv_sec (q_delta qp) =? 0) && (tv_usec (q_delta qp) =? 0).
(** The callback of [qp], which is no longer in the queue. *)
Definition run_callback (qp : qelt) (st : af) : af :=
  let st := cb (q_afid qp) st in
  mkAf (root st) (afid st) (block st) (held st) (itimer st) (ticks st) (q_afid qp :: fired st).
Definition reschedule (fuel : nat) (qp : qelt) (st : af) : option af :=
  if single_shot qp then Some st
  else
    let '(t, st) := now st in
    match catch_up fuel (q_when qp) (q_delta qp) t with
    | None => None
    | Some when => Some (set_root (enqueue (mkQelt (q_afid qp) when (q_delta qp)) (root st)) st)
    end.
(** [while (root != NULL)]; [None] when the fuel runs out. *)
Fixpoint alarm_loop (fuel : nat) (st : af) : option af :=
  match fuel with
  | O => None
  | S fuel =>
      match root st with
      | [] => Some st
      | qp :: rest =>
          let '(t, st) := now st in
          let tmp := tsub (q_when qp) t in
          if (tv_sec tmp =? 0) && (tv_usec tmp <=? 10000) then
            match reschedule fuel qp (run_callback qp (set_root rest st)) with
            | None => None
            | Some st => alarm_loop fuel st
            end
          else Some st
      end
  end.
Definition onalarm (fuel : nat) (st : af) : option af :=
  let st := hold st in
  match root st with
  | [] => Some (release st)
  | _ =>
      match alarm_loop fuel st with
      | None => None
      | Some st =>
          Some (release (arm st))
      end
  end.

Definition __pmAFregister (delta : timeval) (st : af) : Z * af :=
  if multi then (PM_ERR_THREAD, st)
  else
    let st := hold st in
    let id := s32 (afid st + 1) in
    let '(t, st) := now st in
    let qp := mkQelt id (tadd t delta) delta in
    let st := mkAf (enqueue qp (root st)) id (block st) (held st) (itimer st) (ticks st) (fired st) in
    let st := match root st with
              | h :: _ => if q_afid h =? id then set_head_timer qp st else st
              | [] => st
              end in
    (id, release st).

Fixpoint remove (id : Z) (l : list qelt) : option (list qelt) :=
  match l with
  | [] => None
  | qp :: l => if q_afid qp =? id then Some l else option_map (cons qp) (remove id l)
  end.
Definition __pmAFunregister (id : Z) (st : af) : Z * af :=
  if multi then (PM_ERR_THREAD, st)
  else
    let st := hold st in
    match root st, remove id (root st) with
    | qp :: _, Some l =>
        let st' := set_root l st in
        (0, release (if q_afid qp =? id then arm st' else st'))
    | _, _ => (-1, release st)
    end.

Definition set_block (b : bool) (st : af) : af :=
  mkAf (root st) (afid st) b (held st) (itimer st) (ticks st) (fired st).
Definition __pmAFblock (st : af) : af :=
  if multi then st else set_held true (set_block true st).
Definition __pmAFunblock (st : af) : af :=
  if multi then st else set_held false (set_block false st).
Definition __pmAFisempty (st : af) : bool := bool_decide (root st = []).
End ops.

(** ** Times in microseconds *)

Definition us (t : timeval) : Z := 1000000 * tv_sec t + tv_usec t.
(** What the clock shows and what a client may ask for: [tadd] takes a sum of
    exactly a second for less than a second, so the times in the queue may have a
    million microseconds. *)
Definition clock_ok (t : timeval) : Prop := 0 <= tv_sec t < 2^31 - 2^25 ∧ 0 <= tv_usec t < 1000000.
Definition delta_ok (t : timeval) : Prop := 0 <= tv_sec t < 2^24 ∧ 0 <= tv_usec t < 1000000.
Definition when_ok (t : timeval) : Prop := 0 <= tv_sec t < 2^31 ∧ 0 <= tv_usec t <= 1000000.

Lemma us_tadd a b : us (tadd a b) = us a + us b.
Proof. unfold us, tadd. case_match; simpl; lia. Qed.
Lemma us_tsub_real a b : us (tsub_real a b) = us a - us b.
Proof. unfold us, tsub_real. case_match; simpl; lia. Qed.
Lemma tadd_usec a b :
  0 <= tv_usec a <= 1000000 → 0 <= tv_usec b < 1000000 → 0 <= tv_usec (tadd a b) <= 1000000.
Proof. intros. unfold tadd. destruct (Z.ltb_spec 1000000 (tv_usec a + tv_usec b)); simpl; lia. Qed.
Lemma tsub_real_usec a b :
  0 <= tv_usec a <= 1000000 → 0 <= tv_usec b < 1000000 →
  0 <= tv_usec (tsub_real a b) <= 1000000 ∧ (tv_usec a < 1000000 → tv_usec (tsub_real a b) < 1000000).
Proof. intros. unfold tsub_real. destruct (Z.ltb_spec (tv_usec a - tv_usec b) 0); simpl; lia. Qed.
Lemma tsub_spec a b :
  0 <= tv_usec a <= 1000000 → 0 <= tv_usec b < 1000000 →
  us (tsub a b) = Z.max 0 (us a - us b) ∧ 0 <= tv_sec (tsub a b) ∧ 0 <= tv_usec (tsub a b) <= 1000000
  ∧ (tv_usec a < 1000000 → tv_usec (tsub a b) < 1000000).
Proof.
  intros Ha Hb. pose proof (us_tsub_real a b) as E. pose proof (tsub_real_usec a b Ha Hb) as [Hu Hn].
  unfold tsub. destruct (Z.ltb_spec (tv_sec (tsub_real a b)) 0); unfold us in *; simpl; [lia |].
  split_and!; lia.
Qed.
(** The order of [tcmp] is the order of the times. *)
Lemma tcmp_spec a b :
  when_ok a → when_ok b → (0 <= tcmp a b → us b <= us a) ∧ (tcmp a b < 0 → us a <= us b).
Proof.
  intros [Ha1 Ha2] [Hb1 Hb2]. unfold tcmp, us. rewrite s32_id by (split; lia).
  destruct (Z.eqb_spec (tv_sec a - tv_sec b) 0); [rewrite s32_id by (split; lia) |]; lia.
Qed.

(** ** The queue *)

Definition before (a b : qelt) : Prop := us (q_when a) <= us (q_when b).
Definition qelt_ok (q : qelt) : Prop := when_ok (q_when q) ∧ delta_ok (q_delta q).
Record queue_ok (l : list qelt) : Prop := {
  qo_sorted : StronglySorted before l;
  qo_times : Forall qelt_ok l;
  qo_ids : NoDup (q_afid <$> l) }.
Record inv (st : af) : Prop := {
  inv_queue : queue_ok (root st);
  inv_ids : Forall (λ q, q_afid q <= afid st) (root st);
  inv_afid : 32768 <= afid st <= INT_MAX }.

(** An event goes behind all those that are not later. *)
Lemma enqueue_split qp l :
  queue_ok l → qelt_ok qp → ∃ l1 l2, l = l1 ++ l2 ∧ enqueue qp l = l1 ++ qp :: l2
    ∧ Forall (λ q, before q qp) l1 ∧ (∀ q, q ∈ l2 → before qp q).
Proof.
  intros [Hs Ht _] Hq. induction l as [|t l IH]; simpl.
  { exists [], []. split_and!; [done | done | constructor | by intros ? ?%elem_of_nil]. }
  apply StronglySorted_inv in Hs as [Hs Hf]. apply Forall_cons in Ht as [Ht1 Ht].
  destruct (tcmp_spec (q_when qp) (q_when t) (proj1 Hq) (proj1 Ht1)) as [C1 C2].
  destruct (Z.leb_spec 0 (tcmp (q_when qp) (q_when t))) as [Hc|Hc].
  - destruct (IH Hs Ht) as (l1 & l2 & -> & -> & H1 & H2). exists (t :: l1), l2.
    split_and!; [done | done | constructor; [by apply C1 | done] | done].
  - exists [], (t :: l). split_and!; [done | done | constructor |].
    intros q [-> | Hin]%elem_of_cons; [by apply C2 |]. rewrite Forall_forall in Hf.
    specialize (Hf q Hin). specialize (C2 Hc). unfold before in *. lia.
Qed.
Lemma enqueue_perm qp l : enqueue qp l ≡ₚ qp :: l.
Proof.
  induction l as [|t l IH]; [done |]. simpl. case_match; [| done]. rewrite IH. constructor.
Qed.
Lemma enqueue_ok qp l :
  queue_ok l → qelt_ok qp → q_afid qp ∉ (q_afid <$> l) → queue_ok (enqueue qp l).
Proof.
  intros Hl Hq Hid. pose proof (enqueue_perm qp l) as P. split.
  - destruct (enqueue_split qp l Hl Hq) as (l1 & l2 & -> & -> & H1 & H2). destruct Hl as [Hs _ _].
    apply StronglySorted_app in Hs as (Hc & S1 & S2). rewrite Forall_forall in H1.
    apply StronglySorted_app. split_and!; [| done |].
    + intros a b Ha [-> | Hb]%elem_of_cons; [by apply H1 | by apply Hc].
    + constructor; [done |]. by apply Forall_forall.
  - rewrite P. constructor; [done | apply Hl].
  - rewrite P. apply NoDup_cons. split; [done | apply Hl].
Qed.
Lemma queue_tail q l : queue_ok (q :: l) → queue_ok l ∧ qelt_ok q ∧ q_afid q ∉ (q_afid <$> l).
Proof.
  intros [Hs Ht Hn]. apply StronglySorted_inv in Hs as [Hs _]. apply Forall_cons in Ht as [? ?].
  apply NoDup_cons in Hn as [? ?]. done.
Qed.
Lemma remove_spec id l l' :
  remove id l = Some l' → ∃ l1 q l2, l = l1 ++ q :: l2 ∧ l' = l1 ++ l2 ∧ q_afid q = id ∧ id ∉ (q_afid <$> l1).
Proof.
  revert l'. induction l as [|q l IH]; intros l'; simpl; [done |].
  destruct (Z.eqb_spec (q_afid q) id) as [E|E].
  - intros [= <-]. exists [], q, l. split_and!; [done | done | done | apply not_elem_of_nil].
  - destruct (remove id l) as [k|]; [| done]. intros [= <-].
    destruct (IH k eq_refl) as (l1 & q' & l2 & -> & -> & Hid & Hn). exists (q :: l1), q', l2.
    split_and!; [done | done | done |]. rewrite fmap_cons. apply not_elem_of_cons. split; [by intros -> | done].
Qed.
Lemma queue_ok_remove l1 q l2 : queue_ok (l1 ++ q :: l2) → queue_ok (l1 ++ l2).
Proof.
  intros [Hs Ht Hn]. split.
  - apply StronglySorted_app in Hs as (Hc & S1 & S2). apply StronglySorted_inv in S2 as [S2 _].
    apply StronglySorted_app. split_and!; [| done | done]. intros a b Ha Hb. apply Hc; [done | by right].
  - apply Forall_app in Ht as [? Ht2]. apply Forall_cons in Ht2. apply Forall_app. naive_solver.
  - rewrite fmap_app, fmap_cons in Hn. rewrite fmap_app.
    apply NoDup_app in Hn as (? & Hd & Hn2). apply NoDup_cons in Hn2. apply NoDup_app. split_and!; [done | | naive_solver].
    intros x Hx Hx2. apply (Hd x Hx). by right.
Qed.

Lemma catch_up_range fuel delta t : ∀ when w,
  delta_ok delta → clock_ok t → 0 <= tv_sec when → 0 <= tv_usec when <= 1000000 →
  catch_up fuel when delta t = Some w →
  0 <= tv_sec w ∧ 0 <= tv_usec w <= 1000000 ∧ us when + us delta <= us w
  ∧ us w <= Z.max (us when + us delta) (us t).
Proof.
  intros when w Hd Ht. revert when. induction fuel as [|fuel IH]; intros when Hs Hu; [done |]. cbn [catch_up].
  pose proof (us_tadd when delta) as E. pose proof (tadd_usec when delta Hu (proj2 Hd)) as Hu'.
  assert (0 <= tv_sec (tadd when delta)) as Hs'.
  { destruct Hd. unfold tadd. case_match; simpl; lia. }
  pose proof (us_tadd (tsub_real (tadd when delta) t) delta) as E2. rewrite us_tsub_real in E2.
  pose proof (tsub_real_usec (tadd when delta) t Hu' (proj2 Ht)) as [Hu2 _].
  pose proof (tadd_usec (tsub_real (tadd when delta) t) delta Hu2 (proj2 Hd)) as Hu3.
  assert (0 <= us delta) by (destruct Hd; unfold us; lia).
  destruct (Z.leb_spec 0 (tv_sec (tadd (tsub_real (tadd when delta) t) delta))).
  - intros [= <-]. split_and!; lia.
  - intros Hc. destruct (IH _ Hs' Hu' Hc) as (? & ? & ? & ?). unfold us in E2 at 1. split_and!; lia.
Qed.
Lemma catch_up_total fuel delta t : ∀ when,
  delta_ok delta → clock_ok t → 0 <= tv_usec when <= 1000000 → 1 <= us delta →
  us t - us when < Z.of_nat fuel → (0 < fuel)%nat → is_Some (catch_up fuel when delta t).
Proof.
  intros when Hd Ht. revert when. induction fuel as [|fuel IH]; intros when Hu Hd1 Hf Hpos; [lia |]. cbn [catch_up].
  pose proof (us_tadd when delta) as E. pose proof (tadd_usec when delta Hu (proj2 Hd)) as Hu'.
  pose proof (us_tadd (tsub_real (tadd when delta) t) delta) as E2. rewrite us_tsub_real in E2.
  pose proof (tsub_real_usec (tadd when delta) t Hu' (proj2 Ht)) as [Hu2 _].
  pose proof (tadd_usec (tsub_real (tadd when delta) t) delta Hu2 (proj2 Hd)) as Hu3.
  destruct (Z.leb_spec 0 (tv_sec (tadd (tsub_real (tadd when delta) t) delta))); [done |].
  unfold us in E2 at 1. apply IH; [done | done | lia | lia].
Qed.

(** ** The invariant *)

Section inv.
Context (clock : nat → timeval) (multi : bool) (cb : Z → af → af).
Hypothesis clock_good : ∀ n, clock_ok (clock n).
(** A callback leaves the queue in order and does not bring its own event back. *)
Definition cb_ok : Prop := ∀ id st,
  inv st → (id ∉ q_afid <$> root st) → id <= afid st →
  inv (cb id st) ∧ (id ∉ q_afid <$> root (cb id st)) ∧ id <= afid (cb id st).

Lemma inv_root st st' : inv st → root st' = root st → afid st' = afid st → inv st'.
Proof. intros [???] E1 E2. split; by rewrite ?E1, ?E2. Qed.
Lemma set_head_timer_root qp st :
  root (set_head_timer clock qp st) = root st ∧ afid (set_head_timer clock qp st) = afid st.
Proof. unfold set_head_timer, AFsetitimer. simpl. by case_match; case_match. Qed.
Lemma arm_root st : root (arm clock st) = root st ∧ afid (arm clock st) = afid st.
Proof. unfold arm. destruct (root st) eqn:E; [done | rewrite <- E; apply set_head_timer_root]. Qed.
Lemma hold_root st : root (hold st) = root st ∧ afid (hold st) = afid st.
Proof. unfold hold. by destruct (block st). Qed.
Lemma release_root st : root (release st) = root st ∧ afid (release st) = afid st.
Proof. unfold release. by destruct (block st). Qed.

(** Whether the head of the queue is due at [t]. *)
Definition due (t : timeval) (q : qelt) : bool :=
  let tmp := tsub (q_when q) t in (tv_sec tmp =? 0) && (tv_usec tmp <=? 10000).
Lemma due_spec t q : clock_ok t → qelt_ok q → due t q = bool_decide (us (q_when q) <= us t + 10000).
Proof.
  intros Ht [Hw _]. unfold due. destruct (tsub_spec (q_when q) t (proj2 Hw) (proj2 Ht)) as (E & Hs & Hu & _).
  apply eq_bool_prop_intro. rewrite bool_decide_spec, Is_true_true, andb_true_iff, Z.eqb_eq, Z.leb_le.
  assert (us (tsub (q_when q) t) = 1000000 * tv_sec (tsub (q_when q) t) + tv_usec (tsub (q_when q) t)) as E2 by done.
  split; [intros [? ?] | intros ?]; lia.
Qed.

Lemma reschedule_inv fuel qp st st' t0 :
  inv st → qelt_ok qp → q_afid qp ∉ (q_afid <$> root st) → q_afid qp <= afid st →
  clock_ok t0 → us (q_when qp) <= us t0 + 10000 →
  reschedule clock fuel qp st = Some st' → inv st'.
Proof.
  intros Hi [Hw Hd] Hn Hid H0 Hdue. unfold reschedule. destruct (single_shot qp); [by intros [= <-] |]. simpl.
  destruct (catch_up fuel (q_when qp) (q_delta qp) (clock (ticks st))) as [w|] eqn:E; [| done]. intros [= <-].
  pose proof (clock_good (ticks st)) as Hc. destruct Hw as [Hw1 Hw2].
  destruct (catch_up_range _ _ _ _ _ Hd Hc (proj1 Hw1) Hw2 E) as (? & ? & ? & Hmax).
  destruct Hi as [Hq Hids Ha]. split; simpl; [| | done].
  - apply enqueue_ok; [done | | done]. split; [| done]. split; [| done]. simpl.
    destruct Hd, Hc, H0. unfold us in *. lia.
  - rewrite enqueue_perm. by constructor.
Qed.

Lemma alarm_loop_inv fuel : cb_ok → ∀ st st', inv st → alarm_loop clock cb fuel st = Some st' → inv st'.
Proof.
  intros Hcb. induction fuel as [|fuel IH]; intros st st' Hi; [done |]. cbn [alarm_loop].
  destruct (root st) as [|qp rest] eqn:Er; [by intros [= <-] |]. cbn [now].
  pose proof (clock_good (ticks st)) as Hc.
  destruct Hi as [Hq Hids Ha]. rewrite Er in Hq, Hids. destruct (queue_tail _ _ Hq) as (Hq' & Hok & Hn).
  apply Forall_cons in Hids as [Hid Hids]. pose proof (due_spec (clock (ticks st)) qp Hc Hok) as Hd. unfold due in Hd.
  destruct (_ && _) eqn:Ed.
  - symmetry in Hd. apply bool_decide_eq_true in Hd.
    set (st1 := set_root rest _). assert (inv st1) as Hi1 by by split.
    destruct (Hcb (q_afid qp) st1 Hi1 Hn Hid) as (Hi2 & Hn2 & Hid2).
    destruct (reschedule clock fuel qp (run_callback cb qp st1)) as [st2|] eqn:E; [| done].
    apply IH. eapply reschedule_inv; [| done | | | exact Hc | done | exact E]; [| done | done].
    by eapply inv_root; [exact Hi2 | |].
  - intros [= <-]. split; cbn [root afid]; rewrite ?Er; [done | by constructor | done].
Qed.

Lemma onalarm_inv fuel st st' : cb_ok → inv st → onalarm clock cb fuel st = Some st' → inv st'.
Proof.
  intros Hcb Hi. unfold onalarm. destruct (hold_root st) as [H1 H2].
  assert (inv (hold st)) as Hh by by eapply inv_root.
  destruct (root (hold st)) as [|q l] eqn:Er.
  - intros [= <-]. destruct (release_root (hold st)). by eapply inv_root; [exact Hh | |].
  - destruct (alarm_loop clock cb fuel (hold st)) as [st1|] eqn:E; [| done]. intros [= <-].
    apply alarm_loop_inv in E; [| done | done]. destruct (release_root (arm clock st1)), (arm_root st1).
    eapply inv_root; [exact E | congruence | congruence].
Qed.

Lemma register_inv delta st : inv st → delta_ok delta → afid st < INT_MAX → inv (__pmAFregister clock multi delta st).2.
Proof.
  intros [Hq Hids Ha] Hd Hlt. unfold __pmAFregister. destruct multi; [by split |]. cbn [now].
  destruct (hold_root st) as [-> ->]. rewrite s32_id by (unfold INT_MAX in *; split; lia).
  set (qp := mkQelt _ _ _). set (st1 := mkAf _ _ _ _ _ _ _).
  assert (Forall (λ q, q_afid q < afid st + 1) (root st)) as Hlt'.
  { eapply Forall_impl; [exact Hids |]. simpl. lia. }
  assert (inv st1) as Hi.
  { split; simpl.
    - apply enqueue_ok; [done | | ].
      + split; [| done]. pose proof (clock_good (ticks (hold st))) as [??]. destruct Hd as [Hd1 Hd2].
        split; simpl; [unfold tadd; case_match; simpl; lia | apply tadd_usec; lia].
      + rewrite list_elem_of_fmap. intros (q & Eq & Hin). rewrite Forall_forall in Hlt'.
        specialize (Hlt' q Hin). simpl in Eq. lia.
    - rewrite enqueue_perm. constructor; [simpl; lia |]. eapply Forall_impl; [exact Hids |]. simpl. lia.
    - unfold INT_MAX in *. lia. }
  destruct (root st1) as [|h k] eqn:Er; cbn [snd].
  - destruct (release_root st1). by eapply inv_root.
  - destruct (q_afid h =? _).
    + destruct (release_root (set_head_timer clock qp st1)), (set_head_timer_root qp st1).
      eapply inv_root; [exact Hi | congruence | congruence].
    + destruct (release_root st1). by eapply inv_root.
Qed.
Lemma unregister_inv id st : inv st → inv (__pmAFunregister clock multi id st).2.
Proof.
  intros Hi. unfold __pmAFunregister. destruct multi; [done |]. destruct (hold_root st) as [E1 E2]. rewrite E1.
  assert (inv (hold st)) as Hh by by eapply inv_root.
  assert (inv (release (hold st))) as Hr by (destruct (release_root (hold st)); by eapply inv_root).
  destruct (root st) as [|qp rest] eqn:Er; [done |].
  destruct (remove id (qp :: rest)) as [l|] eqn:E; [| done]. cbn [snd].
  apply remove_spec in E as (l1 & q & l2 & El & -> & Hid & Hn). destruct Hi as [Hq Hids Ha]. rewrite Er, El in Hq, Hids.
  assert (inv (set_root (l1 ++ l2) (hold st))) as Hi1.
  { split; simpl; [by eapply queue_ok_remove | | by rewrite E2]. rewrite E2. rewrite Forall_app, Forall_cons in Hids.
    apply Forall_app. naive_solver. }
  set (st1 := set_root _ _) in *. destruct (q_afid qp =? id).
  - destruct (release_root (arm clock st1)), (arm_root st1).
    eapply inv_root; [exact Hi1 | congruence | congruence].
  - destruct (release_root st1). by eapply inv_root.
Qed.
End inv.

(** ** What a pass over the queue does *)

Definition later (t : timeval) (q : qelt) : Prop := us t + 10000 < us (q_when q).
(** From the queue [l] at the time [t], the callbacks [fs] have been run and the
    queue [l'] is left. *)
Record ran (t : timeval) (l l' : list qelt) (fs : list Z) : Prop := {
  ran_later : Forall (later t) l';
  ran_fired : ∀ q, q ∈ l → ¬ later t q → q_afid q ∈ fs;
  ran_only : ∀ id, id ∈ fs → ∃ q, q ∈ l ∧ q_afid q = id ∧ ¬ later t q;
  ran_kept : ∀ q, q ∈ l → later t q → q ∈ l';
  ran_again : ∀ q, q ∈ l → ¬ later t q → single_shot q = false → ∃ w, mkQelt (q_afid q) w (q_delta q) ∈ l';
  ran_from : ∀ q', q' ∈ l' → ∃ q, q ∈ l ∧ q_afid q = q_afid q' ∧ q_delta q = q_delta q'
               ∧ (later t q ∨ single_shot q = false) }.

Lemma ran_nothing t q l : queue_ok (q :: l) → later t q → ran t (q :: l) (q :: l) [].
Proof.
  intros [Hs _ _] Hl. apply StronglySorted_inv in Hs as [_ Hf].
  assert (∀ q', q' ∈ q :: l → later t q') as Hall.
  { intros q' [-> | Hin]%elem_of_cons; [done |]. rewrite Forall_forall in Hf. specialize (Hf q' Hin).
    unfold before, later in *. lia. }
  split.
  - by apply Forall_forall.
  - intros q' Hin Hn. by destruct Hn; apply Hall.
  - by intros id ?%elem_of_nil.
  - done.
  - intros q' Hin Hn. by destruct Hn; apply Hall.
  - intros q' Hin. exists q'. split_and!; [done | done | done |]. left. by apply Hall.
Qed.
(** One callback: the rest of the pass runs on [l1], which is the tail of the queue
    and the event again if it is periodic. *)
Lemma ran_step t q l l1 l' w fs :
  ¬ later t q →
  (∀ x, x ∈ l1 ↔ x ∈ l ∨ single_shot q = false ∧ x = mkQelt (q_afid q) w (q_delta q)) →
  ran t l1 l' fs → ran t (q :: l) l' (fs ++ [q_afid q]).
Proof.
  intros Hd Hl1 [R1 R2 R3 R4 R5 R6]. split; [done | | | | |].
  - intros x [-> | Hx]%elem_of_cons Hn; apply elem_of_app; [right; by apply list_elem_of_singleton |].
    left. apply R2; [apply Hl1; by left | done].
  - intros id [Hid | ->%list_elem_of_singleton]%elem_of_app; [| by exists q; split_and!; [left | |]].
    destruct (R3 id Hid) as (x & [Hx | [_ ->]]%Hl1 & E & Hn); [by exists x; split_and!; [right | |] |].
    exists q. by split_and!; [left | |].
  - intros x [-> | Hx]%elem_of_cons Hn; [done |]. apply R4; [apply Hl1; by left | done].
  - intros x [-> | Hx]%elem_of_cons Hn Hs; [| apply R5; [apply Hl1; by left | done | done]].
    set (x := mkQelt (q_afid q) w (q_delta q)). assert (x ∈ l1) as Hx by (apply Hl1; by right).
    destruct (decide (us t + 10000 < us w)) as [Hw|Hw]; [exists w; by apply R4 |]. by apply (R5 x).
  - intros x Hx. destruct (R6 x Hx) as (y & [Hy | [Hs ->]]%Hl1 & E1 & E2 & Hn).
    + exists y. by split_and!; [right | | |].
    + exists q. split_and!; [by left | done | done | by right].
Qed.

Definition pending (t : timeval) (q : qelt) : nat := Z.to_nat (us t + 10001 - us (q_when q)).
Definition measure (t : timeval) (l : list qelt) : nat := foldr (λ q n, (pending t q + n)%nat) 0%nat l.
Lemma measure_enqueue t q l : measure t (enqueue q l) = measure t (q :: l).
Proof. induction l as [|h l IH]; [done |]. simpl. case_match; [| done]. simpl in *. lia. Qed.

Section stopped.
Context (t : timeval) (cb : Z → af → af).
Hypothesis t_ok : clock_ok t.
(** Callbacks that leave the queue alone. *)
Definition cb_quiet : Prop :=
  ∀ id st, root (cb id st) = root st ∧ afid (cb id st) = afid st ∧ fired (cb id st) = fired st.
Hypothesis quiet : cb_quiet.

Lemma cb_quiet_ok : cb_ok cb.
Proof. intros id st Hi Hn Hid. destruct (quiet id st) as (E1 & E2 & _). rewrite E1, E2. split_and!; [| done | done]. by eapply inv_root. Qed.

Lemma reschedule_total fuel qp st :
  qelt_ok qp → us t + 1 < Z.of_nat fuel →
  ∃ w st', reschedule (λ _, t) fuel qp st = Some st'
    ∧ root st' = (if single_shot qp then root st else enqueue (mkQelt (q_afid qp) w (q_delta qp)) (root st))
    ∧ fired st' = fired st ∧ (single_shot qp = false → us (q_when qp) + 1 <= us w).
Proof.
  intros [Hw Hd] Hf. unfold reschedule. destruct (single_shot qp) eqn:Es.
  { exists t, st. done. }
  assert (1 <= us (q_delta qp)) as H1.
  { destruct Hd. unfold single_shot in Es. unfold us. lia. }
  destruct Hw as [Hw1 Hw2]. cbn [now].
  destruct (catch_up_total fuel (q_delta qp) t (q_when qp) Hd t_ok Hw2 H1) as [w E].
  { unfold us at 2. lia. }
  { destruct t_ok. unfold us in Hf. lia. }
  rewrite E. eexists w, _. split; [done |]. split_and!; [done | done |].
  intros _. destruct (catch_up_range _ _ _ _ _ Hd t_ok (proj1 Hw1) Hw2 E) as (_ & _ & H & _). lia.
Qed.

Lemma alarm_loop_runs fuel : ∀ st,
  inv st → Z.of_nat (measure t (root st)) + us t + 2 < Z.of_nat fuel →
  ∃ st' fs, alarm_loop (λ _, t) cb fuel st = Some st' ∧ fired st' = fs ++ fired st ∧ ran t (root st) (root st') fs.
Proof.
  induction fuel as [|fuel IH]; intros st Hi Hf.
  { destruct t_ok. unfold us in Hf. lia. }
  cbn [alarm_loop]. destruct (root st) as [|qp rest] eqn:Er.
  { exists st, []. split_and!; [done | done |]. rewrite Er.
    split; [constructor | by intros ? ?%elem_of_nil ..]. }
  destruct Hi as [Hq Hids Ha]. rewrite Er in Hq, Hids. destruct (queue_tail _ _ Hq) as (Hq' & Hok & Hn).
  apply Forall_cons in Hids as [Hid Hids]. pose proof (due_spec t qp t_ok Hok) as Hd. unfold due in Hd.
  cbn [now]. rewrite Hd. destruct (bool_decide_reflect (us (q_when qp) <= us t + 10000)) as [Hdue|Hdue].
  - set (st1 := set_root rest _). assert (inv st1) as Hi1 by by split.
    set (st2 := run_callback cb qp st1).
    destruct (quiet (q_afid qp) st1) as (Q1 & Q2 & Q3).
    assert (pending t qp ≥ 1)%nat as Hp by (unfold pending; lia).
    simpl in Hf.
    destruct (reschedule_total fuel qp st2 Hok ltac:(lia)) as (w & st3 & E & Hroot & Hfired & Hw).
    rewrite E. change (root st2) with (root (cb (q_afid qp) st1)) in Hroot. rewrite Q1 in Hroot. simpl in Hroot.
    assert (inv st3) as Hi3.
    { eapply (reschedule_inv (λ _, t)); [exact (λ _, t_ok) | | exact Hok | | | exact t_ok | exact Hdue | exact E].
      - eapply inv_root; [exact Hi1 | exact Q1 | exact Q2].
      - change (root st2) with (root (cb (q_afid qp) st1)). by rewrite Q1.
      - change (afid st2) with (afid (cb (q_afid qp) st1)). by rewrite Q2. }
    destruct (IH st3 Hi3) as (st' & fs & E' & Hfs & Hran).
    { rewrite Hroot. destruct (single_shot qp); [lia |]. rewrite measure_enqueue. specialize (Hw eq_refl).
      simpl. unfold pending in *. simpl. lia. }
    exists st', (fs ++ [q_afid qp]). split_and!; [done | |].
    + rewrite Hfs, Hfired. change (fired st2) with (q_afid qp :: fired (cb (q_afid qp) st1)). rewrite Q3.
      by rewrite <- app_assoc.
    + eapply (ran_step _ _ _ (root st3) _ w); [unfold later; lia | | exact Hran]. intros x. rewrite Hroot.
      destruct (single_shot qp); [naive_solver |]. rewrite enqueue_perm, elem_of_cons. naive_solver.
  - eexists _, []. split_and!; [done | done |]. cbn [root]. rewrite Er. apply ran_nothing; [done | unfold later; lia].
Qed.
End stopped.

Lemma hold_timer st : fired (hold st) = fired st ∧ itimer (hold st) = itimer st.
Proof. unfold hold. by destruct (block st). Qed.
Lemma release_timer st : fired (release st) = fired st ∧ itimer (release st) = itimer st.
Proof. unfold release. by destruct (block st). Qed.
Lemma set_head_timer_fired clock qp st : fired (set_head_timer clock qp st) = fired st.
Proof. unfold set_head_timer, AFsetitimer. simpl. by case_match; case_match. Qed.
(** The timer goes off when the event is due, a tenth of a millisecond from now if
    it is due already. *)
Lemma set_head_timer_armed clock qp st :
  clock_ok (clock (ticks st)) → when_ok (q_when qp) → tv_usec (q_when qp) < 1000000 →
  ∃ e, itimer (set_head_timer clock qp st) = Some e
    ∧ us e = Z.max (us (q_when qp)) (us (clock (ticks st)) + MIN_ITIMER_USEC).
Proof.
  intros [Hc1 Hc2] [Hw1 Hw2] Hlt. unfold set_head_timer. cbn [now].
  destruct (tsub_spec (q_when qp) (clock (ticks st)) Hw2 Hc2) as (E & Hs & Hu & Hn). specialize (Hn Hlt).
  set (i := tsub _ _) in *. assert (us i = 1000000 * tv_sec i + tv_usec i) as Ei by done.
  unfold AFsetitimer. destruct (_ && (tv_usec i <? _)) eqn:Em; simpl.
  - eexists. split; [done |]. unfold us in *. simpl in *. unfold MIN_ITIMER_USEC in *. lia.
  - replace ((0 <=? tv_usec i) && (tv_usec i <? 1000000)) with true by lia. simpl.
    eexists. split; [done |]. unfold us in *. simpl in *. unfold MIN_ITIMER_USEC in *. lia.
Qed.
Lemma arm_spec clock st :
  clock_ok (clock (ticks st)) → inv st →
  fired (arm clock st) = fired st ∧
  (∀ h k, root st = h :: k → tv_usec (q_when h) < 1000000 →
     ∃ e, itimer (arm clock st) = Some e
       ∧ us e = Z.max (us (q_when h)) (us (clock (ticks st)) + MIN_ITIMER_USEC)).
Proof.
  intros Hc [[_ Ht _] _ _]. unfold arm. destruct (root st) as [|h k]; [done |].
  apply Forall_cons in Ht as [[Hw _] _]. split; [apply set_head_timer_fired |].
  intros ? ? [= <- <-] Hlt. by apply set_head_timer_armed.
Qed.
Lemma remove_enqueue q l : (q_afid q ∉ q_afid <$> l) → remove (q_afid q) (enqueue q l) = Some l.
Proof.
  induction l as [|h l IH]; intros Hn; simpl; [by rewrite Z.eqb_refl |].
  rewrite fmap_cons in Hn. apply not_elem_of_cons in Hn as [Hn1 Hn2].
  case_match; simpl; [| by rewrite Z.eqb_refl]. destruct (Z.eqb_spec (q_afid h) (q_afid q)); [congruence |].
  by rewrite IH.
Qed.
Lemma remove_none id l : (id ∉ q_afid <$> l) → remove id l = None.
Proof.
  induction l as [|h l IH]; intros Hn; simpl; [done |].
  rewrite fmap_cons in Hn. apply not_elem_of_cons in Hn as [Hn1 Hn2].
  destruct (Z.eqb_spec (q_afid h) id); [congruence |]. by rewrite IH.
Qed.

(** ** Theorems *)

Inductive af_step (clock : nat → timeval) (multi : bool) (cb : Z → af → af) : af → af → Prop :=
| step_register delta st : delta_ok delta → afid st < INT_MAX →
    af_step clock multi cb st (__pmAFregister clock multi delta st).2
| step_unregister id st : af_step clock multi cb st (__pmAFunregister clock multi id st).2
| step_block st : af_step clock multi cb st (__pmAFblock multi st)
| step_unblock st : af_step clock multi cb st (__pmAFunblock multi st)
| step_alarm fuel st st' : held st = false → onalarm clock cb fuel st = Some st' → af_step clock multi cb st st'.

(** In every state that registering, unregistering, blocking and the alarm
    handler can lead to, with callbacks that may themselves change the queue, the
    queue is in the order of the times, the times are in range, no two events have
    the same identifier and no identifier has yet to be given out. *)
Lemma af_reachable_inv clock multi cb st :
  (∀ n, clock_ok (clock n)) → cb_ok cb → rtc (af_step clock multi cb) init st → inv st.
Proof.
  intros Hc Hcb Hr. cut (∀ st0, inv st0 → rtc (af_step clock multi cb) st0 st → inv st).
  { intros H. apply (H init); [| done]. split; [split; constructor | constructor | done]. }
  clear Hr. intros st0 Hi Hr. revert Hi. induction Hr as [| x y z Hs _ IH]; [done |]. intros Hi. apply IH.
  destruct Hs; [by apply register_inv | by apply unregister_inv | | | by eapply onalarm_inv].
  - unfold __pmAFblock. destruct multi; [done |]. by eapply inv_root.
  - unfold __pmAFunblock. destruct multi; [done |]. by eapply inv_root.
Qed.


(** [__pmAFregister] gives out an identifier no event has, queues one event that
    is due [delta] from now and, when it is the first, arms the timer for it;
    [__pmAFunregister] with that identifier takes it out again, leaves the queue as
    it was and arms the timer for the event that is first again; with any other
    identifier that has no event it returns an error and leaves the queue. *)
Lemma register_unregister clock delta st :
  (∀ n, clock_ok (clock n)) → inv st → delta_ok delta → afid st < INT_MAX →
  let '(id, st1) := __pmAFregister clock false delta st in
  let qp := mkQelt id (tadd (clock (ticks st)) delta) delta in
  id = afid st + 1 ∧ (id ∉ q_afid <$> root st) ∧ root st1 = enqueue qp (root st)
  ∧ us (q_when qp) = us (clock (ticks st)) + us delta
  ∧ (head (root st1) = Some qp → tv_usec (q_when qp) < 1000000 →
       ∃ e, itimer st1 = Some e ∧ us e = Z.max (us (q_when qp)) (us (clock (S (ticks st))) + MIN_ITIMER_USEC))
  ∧ (let '(sts, st2) := __pmAFunregister clock false id st1 in sts = 0 ∧ root st2 = root st ∧ afid st2 = id)
  ∧ (∀ id', (id' ∉ q_afid <$> root st1) → __pmAFunregister clock false id' st1 = (-1, release (hold st1))).
Proof.
  intros Hc Hi Hd Hlt. pose proof (register_inv clock false Hc delta st Hi Hd Hlt) as Hi1.
  destruct (hold_root st) as [E1 E2]. assert (ticks (hold st) = ticks st) as E3 by (unfold hold; by destruct (block st)).
  unfold __pmAFregister in *. cbn [now] in *. rewrite E1, E2, E3 in *.
  assert (s32 (afid st + 1) = afid st + 1) as Es by (destruct Hi as [_ _ Ha]; apply s32_id; unfold INT_MAX in *; split; lia).
  rewrite Es in *. set (qp := mkQelt _ _ _) in *. set (st1 := mkAf _ _ _ _ _ _ _) in *.
  assert (afid st + 1 ∉ q_afid <$> root st) as Hn.
  { destruct Hi as [_ Hids _]. rewrite list_elem_of_fmap. intros (q & Eq & Hin). rewrite Forall_forall in Hids.
    specialize (Hids q Hin). lia. }
  set (st2 := match root st1 with [] => st1 | h :: _ => _ end) in *. cbn [snd] in Hi1.
  assert (root st2 = enqueue qp (root st) ∧ afid st2 = afid st + 1) as [Er Ea].
  { unfold st2. destruct (root st1) eqn:E; [done |]. case_match; [| done].
    by destruct (set_head_timer_root clock qp st1) as [-> ->]. }
  destruct (release_root st2) as [R1 R2]. rewrite R1, Er.
  split_and!; [done | done | done | apply us_tadd | | |].
  - intros Eh Hu. destruct (release_timer st2) as [_ ->]. unfold st2. change (root st1) with (enqueue qp (root st)).
    destruct (enqueue qp (root st)) as [|h k] eqn:Eq; [done |]. injection Eh as ->. simpl. rewrite Z.eqb_refl.
    destruct Hi1 as [[_ Ht _] _ _]. rewrite R1, Er, Forall_cons in Ht. destruct Ht as [[Hw _] _].
    apply (set_head_timer_armed clock qp st1); [apply Hc | done | done].
  - unfold __pmAFunregister. destruct (hold_root (release st2)) as [-> ?]. rewrite R1, Er.
    pose proof (remove_enqueue qp (root st) Hn) as Hr. change (q_afid qp) with (afid st + 1) in Hr. rewrite Hr.
    destruct (enqueue qp (root st)) as [|h k] eqn:Eq; [done |].
    set (st3 := set_root _ _). destruct (arm_root clock st3) as [A1 A2].
    split; [done |]. match goal with |- root (release ?s) = _ ∧ _ => destruct (release_root s) as [-> ->] end.
    assert (root st3 = root st ∧ afid st3 = afid st + 1) as [E4 E5] by (split; [done | simpl; congruence]).
    case_match; split; congruence.
  - intros id' Hn'. unfold __pmAFunregister. destruct (hold_root (release st2)) as [-> _]. rewrite R1, Er.
    rewrite (remove_none _ _ Hn'). by destruct (enqueue qp (root st)).
Qed.
End AF.

(** ** Instances *)

Definition clock0 : AF.timeval := AF.mkTv 1400000000 400000.
Definition queue0 : AF.af :=
  AF.mkAf [AF.mkQelt 32769 (AF.mkTv 1400000000 390000) (AF.mkTv 0 0);
           AF.mkQelt 32770 (AF.mkTv 1400000000 405000) (AF.mkTv 0 4000);
           AF.mkQelt 32771 (AF.mkTv 1400000009 1) (AF.mkTv 60 0)] 32771 false false None 0 [].
Lemma clock0_ok : AF.clock_ok clock0.
Proof. by repeat split. Qed.
Lemma queue0_inv : AF.inv queue0.
Proof.
  split; [split | |]; simpl.
  - repeat constructor; unfold AF.before, AF.us; simpl; lia.
  - repeat constructor; simpl; lia.
  - apply (bool_decide_unpack _). by vm_compute.
  - repeat constructor; simpl; lia.
  - unfold INT_MAX. lia.
Qed.
Lemma quiet0 : AF.cb_quiet (λ _ st, st).
Proof. done. Qed.

Lemma af_reachable_inv_witness :
  let st := (AF.__pmAFregister (λ _, clock0) false (AF.mkTv 0 600000) AF.init).2 in
  AF.inv st ∧ AF.root st = [AF.mkQelt 32769 (AF.mkTv 1400000000 1000000) (AF.mkTv 0 600000)].
Proof.
  split; [| by vm_compute].
  apply (AF.af_reachable_inv (λ _, clock0) false (λ _ st, st)); [intros _; exact clock0_ok | exact (AF.cb_quiet_ok _ quiet0) |].
  apply rtc_once. apply AF.step_register; [by repeat split | done].
Defined.
Lemma register_unregister_witness :
  let '(id, st1) := AF.__pmAFregister (λ _, clock0) false (AF.mkTv 5 0) queue0 in
  id = 32772 ∧ (AF.__pmAFunregister (λ _, clock0) false id st1).1 = 0
  ∧ AF.root (AF.__pmAFunregister (λ _, clock0) false id st1).2 = AF.root queue0.
Proof.
  pose proof (AF.register_unregister (λ _, clock0) (AF.mkTv 5 0) queue0 (λ _, clock0_ok) queue0_inv
    ltac:(by repeat split) ltac:(done)) as H.
  destruct (AF.__pmAFregister _ _ _ _) as [id st1]. destruct H as (Hid & _ & _ & _ & _ & H & _).
  destruct (AF.__pmAFunregister _ _ id st1) as [s st2]. destruct H as (-> & Hr & _). split_and!; [exact Hid | done | exact Hr].
Defined.

(** A sum of exactly a second is left as a million microseconds: when that many
    microseconds remain the interval timer is refused.  Here the first event is left
    in the queue with the timer still set to a time that has passed. *)
Lemma timer_refused :
  let clock n := if (n <? 2)%nat then AF.mkTv 1400000000 400000
                 else if (n <? 4)%nat then AF.mkTv 1400000000 999900 else AF.mkTv 1400000001 0 in
  let a := (AF.__pmAFregister clock false (AF.mkTv 1 600000) AF.init).2 in
  let b := (AF.__pmAFregister clock false (AF.mkTv 0 0) a).2 in
  ∃ st e, AF.onalarm clock (λ _ st, st) 10 b = Some st ∧ AF.fired st = [32770]
    ∧ AF.root st = [AF.mkQelt 32769 (AF.mkTv 1400000001 1000000) (AF.mkTv 1 600000)]
    ∧ AF.itimer b = Some e ∧ AF.itimer st = Some e ∧ AF.us e = AF.us (AF.mkTv 1400000001 0).
Proof. do 2 eexists. by vm_compute. Qed.
