(* ===== verification/Events.v ===== *)
(** Event records: the packing of an event array by an agent,
    src/libpcp_pmda/src/events.c, and its unpacking by a client,
    src/libpcp/src/events.c.  Between the two the array travels as a value block of
    type [PM_TYPE_EVENT] in a result.

    An array under construction is the memory of its buffer, the position of the
    next item and that of the current record; bytes that realloc() has not filled
    are given by [junk].  The unpacking works in the monad [M], its buffer being the
    memory from the start of the array on. *)
From S2P Require Import Prelude Memory Types PduIO PduSimple PduInstance ValueBlock PduResult.

Definition sizeof_pmEventParameter : Z := 8.
Definition sizeof_pmEventRecord : Z := 24.
Definition sizeof_pmEventArray : Z := 32.
Definition ENOMEM : Z := 12.

Module EventPack.
(** [e_rec]: the offset of [berp], if it was ever set for this memory; the size of
    the buffer is the length of [e_mem]. *)
Record bufctl_t := mkBufctl { e_mem : buf; e_ptr : Z; e_rec : option Z; e_inuse : bool }.

(** The union [pmAtomValue]: its eight bytes, and what they point to when they are
    a pointer to a string (without its null byte) or to a value block. *)
Record pmAtomValue := mkAtom { av_bytes : buf; av_cp : buf; av_vbp : pmValueBlock }.

Section pack.
Context (junk : nat → byte).

(** The sizes the buffer goes through; [None] when an int cannot hold the next. *)
Fixpoint grow (fuel : nat) (blen end_ : Z) : option Z :=
  if (blen =? 0) || (blen - 1 <=? end_) then
    let next := if blen =? 0 then 512 else blen * 2 in
    match fuel with
    | O => None
    | S fuel => if INT_MAX <? next then None else grow fuel next end_
    end
  else Some blen.
Definition check_buf (bp : bufctl_t) (need : Z) : res bufctl_t :=
  match grow 23 (zlen (e_mem bp)) (e_ptr bp + need) with
  | None => Fault
  | Some blen =>
      Ok (mkBufctl (e_mem bp ++ (junk <$> seq (length (e_mem bp)) (Z.to_nat blen - length (e_mem bp))))
            (e_ptr bp) (e_rec bp) (e_inuse bp))
  end.
(** A computation on the memory of the buffer. *)
Definition on_mem (m : M unit) (bp : bufctl_t) : res bufctl_t :=
  '(_, b) ← m (e_mem bp); Ok (mkBufctl b (e_ptr bp) (e_rec bp) (e_inuse bp)).

Definition find_buf (idx : Z) (bufs : list bufctl_t) : option bufctl_t :=
  if (idx <? 0) || (zlen bufs <=? idx) then None
  else match bufs !! Z.to_nat idx with
  | Some bp => if e_inuse bp then Some bp else None
  | None => None
  end.
Definition set_buf (idx : Z) (bp : bufctl_t) (bufs : list bufctl_t) : list bufctl_t := <[Z.to_nat idx := bp]> bufs.

Definition pmdaEventResetArray (idx : Z) (bufs : list bufctl_t) : res (Z * list bufctl_t) :=
  match find_buf idx bufs with
  | None => Ok (PM_ERR_NOCONTEXT, bufs)
  | Some bp =>
      bp ← check_buf bp (sizeof_pmEventArray - sizeof_pmEventRecord);
      bp ← on_mem (store32 4 0) bp;
      Ok (0, set_buf idx (mkBufctl (e_mem bp) (sizeof_pmEventArray - sizeof_pmEventRecord) (e_rec bp) (e_inuse bp)) bufs)
  end.
Fixpoint first_free (bufs : list bufctl_t) : nat :=
  match bufs with
  | [] => O
  | bp :: bufs => if e_inuse bp then S (first_free bufs) else O
  end.
Definition pmdaEventNewArray (bufs : list bufctl_t) : res (Z * list bufctl_t) :=
  let i := first_free bufs in
  let new := mkBufctl [] 0 None true in
  let bufs := if (i =? length bufs)%nat then bufs ++ [new] else <[i := new]> bufs in
  '(_, bufs) ← pmdaEventResetArray (Z.of_nat i) bufs;
  Ok (Z.of_nat i, bufs).
Definition pmdaEventReleaseArray (idx : Z) (bufs : list bufctl_t) : Z * list bufctl_t :=
  match find_buf idx bufs with
  | None => (PM_ERR_NOCONTEXT, bufs)
  | Some bp => (0, set_buf idx (mkBufctl (e_mem bp) (e_ptr bp) (e_rec bp) false) bufs)
  end.

(** The record at the end of the buffer. *)
Definition put_record (o sec usec flags nparams : Z) : M unit :=
  n ← load32 4; store32 4 (n + 1);;
  store32 o (s32 sec);; store32 (o + 4) (s32 usec);;
  store32 (o + 12) nparams;; store32 (o + 8) flags.
Definition add_record (idx sec usec flags nparams : Z) (bp : bufctl_t) (bufs : list bufctl_t)
    : res (Z * list bufctl_t) :=
  let head := sizeof_pmEventRecord - sizeof_pmEventParameter in
  bp ← check_buf bp head;
  bp ← on_mem (put_record (e_ptr bp) sec usec flags nparams) bp;
  Ok (0, set_buf idx (mkBufctl (e_mem bp) (e_ptr bp + head) (Some (e_ptr bp)) (e_inuse bp)) bufs).
Definition pmdaEventAddRecord (idx sec usec flags : Z) (bufs : list bufctl_t) : res (Z * list bufctl_t) :=
  match find_buf idx bufs with
  | None => Ok (PM_ERR_NOCONTEXT, bufs)
  | Some bp =>
      if negb (Z.land (u32 flags) PM_EVENT_FLAG_MISSED =? 0) then Ok (PM_ERR_CONV, bufs)
      else add_record idx sec usec flags 0 bp bufs
  end.
Definition pmdaEventAddMissedRecord (idx sec usec missed : Z) (bufs : list bufctl_t) : res (Z * list bufctl_t) :=
  match find_buf idx bufs with
  | None => Ok (PM_ERR_NOCONTEXT, bufs)
  | Some bp => add_record idx sec usec PM_EVENT_FLAG_MISSED missed bp bufs
  end.

(** [src] and [vlen] of the value, and the bytes it takes in the buffer. *)
Definition param_value (type : Z) (avp : pmAtomValue) : option (buf * Z) :=
  if (type =? PM_TYPE_32) || (type =? PM_TYPE_U32) then Some (take 4 (av_bytes avp), 4)
  else if (type =? PM_TYPE_64) || (type =? PM_TYPE_U64) then Some (take 8 (av_bytes avp), 8)
  else if type =? PM_TYPE_FLOAT then Some (take 4 (av_bytes avp), 4)
  else if type =? PM_TYPE_DOUBLE then Some (take 8 (av_bytes avp), 8)
  else if type =? PM_TYPE_STRING then Some (av_cp avp, PM_PDU_SIZE_BYTES (zlen (av_cp avp)))
  else if type =? PM_TYPE_AGGREGATE then Some (vbuf (av_vbp avp), PM_PDU_SIZE_BYTES (zlen (vbuf (av_vbp avp))))
  else None.
Definition put_param (o er pmid type : Z) (src : buf) : M unit :=
  store32 o pmid;; store32 (o + 4) (vb_word (PM_VAL_HDR_SIZE + zlen src) type);;
  storen (o + sizeof_pmEventParameter) src;;
  n ← load32 (er + 12); store32 (er + 12) (n + 1).
Definition pmdaEventAddParam (idx pmid type : Z) (avp : pmAtomValue) (bufs : list bufctl_t) : res (Z * list bufctl_t) :=
  match find_buf idx bufs with
  | None => Ok (PM_ERR_NOCONTEXT, bufs)
  | Some bp =>
      match param_value type avp with
      | None => Ok (PM_ERR_TYPE, bufs)
      | Some (src, space) =>
          let need := sizeof_pmEventParameter + space in
          bp ← check_buf bp need;
          match e_rec bp with
          | None => Fault
          | Some er =>
              bp' ← on_mem (put_param (e_ptr bp) er pmid type src) bp;
              Ok (0, set_buf idx (mkBufctl (e_mem bp') (e_ptr bp + need) (e_rec bp) (e_inuse bp)) bufs)
          end
      end
  end.
(** The memory of the array with its header filled in, or NULL. *)
Definition pmdaEventGetAddr (idx : Z) (bufs : list bufctl_t) : res (option buf * list bufctl_t) :=
  match find_buf idx bufs with
  | None => Ok (None, bufs)
  | Some bp =>
      bp ← on_mem (store32 0 (vb_word (e_ptr bp) PM_TYPE_EVENT)) bp;
      Ok (Some (e_mem bp), set_buf idx bp bufs)
  end.
End pack.
End EventPack.

Module EventUnpack.
(** [for (p = 0; p < nparams; p++)]: where the parameters end. *)
Fixpoint check_params (valend base : Z) (n : nat) : M Z :=
  match n with
  | O => mret base
  | S n =>
      check (valend <? base + sizeof_pmEventParameter) PM_ERR_TOOBIG;;
      w ← load32 (base + 4);
      let size := 4 + PM_PDU_SIZE_BYTES (vb_vlen w) in
      check (valend <? base + size) PM_ERR_TOOBIG;;
      check_params valend (base + size) n
  end.
Fixpoint check_records (valend base : Z) (n : nat) : M Z :=
  match n with
  | O => mret base
  | S n =>
      check (valend <? base + 16) PM_ERR_TOOBIG;;
      flags ← load32 (base + 8); nparams ← load32 (base + 12);
      if negb (Z.land flags PM_EVENT_FLAG_MISSED =? 0) then
        check (negb (flags =? PM_EVENT_FLAG_MISSED)) PM_ERR_CONV;;
        check_records valend (base + 16) n
      else
        base ← check_params valend (base + 16) (Z.to_nat (s32 nparams));
        check_records valend base n
  end.
(** The array is that of a value whose set has [numval] values in format [valfmt]. *)
Definition __pmCheckEventRecords (numval valfmt : Z) : M Z :=
  if numval <? 1 then (if numval <? 0 then fail numval else mret 0)
  else
    check (negb (valfmt =? PM_VAL_DPTR) && negb (valfmt =? PM_VAL_SPTR)) PM_ERR_CONV;;
    w ← load32 0;
    check (negb (vb_vtype w =? PM_TYPE_EVENT)) PM_ERR_TYPE;;
    check (vb_vlen w <? PM_VAL_HDR_SIZE + 4) PM_ERR_TOOSMALL;;
    n ← load32 4;
    check (s32 n <? 0) PM_ERR_TOOSMALL;;
    check_records (vb_vlen w) 8 (Z.to_nat (s32 n));;
    mret 0.

Section unpack.
(** The identifiers registered for event.flags and event.missed. *)
Context (pmid_flags pmid_missed : Z).

Definition single (pmid fmt : Z) (v : value) : pmValueSet := mkVset pmid 1 fmt [mkValue PM_IN_NULL v].
(** A parameter as a value set. *)
Definition unpack_param (base : Z) : M (pmValueSet * Z) :=
  pmid ← load32 base; w ← load32 (base + 4);
  let type := vb_vtype w in
  let next := base + 4 + PM_PDU_SIZE_BYTES (vb_vlen w) in
  let block vsize :=
    bytes ← loadn (base + 8) vsize;
    mret (single pmid PM_VAL_DPTR (Pval (mkVB type bytes)), next) in
  if (type =? PM_TYPE_32) || (type =? PM_TYPE_U32) then
    l ← load32 (base + 8); mret (single pmid PM_VAL_INSITU (Lval (s32 l)), next)
  else if (type =? PM_TYPE_64) || (type =? PM_TYPE_U64) then block 8
  else if type =? PM_TYPE_FLOAT then block 4
  else if type =? PM_TYPE_DOUBLE then block 8
  else if (type =? PM_TYPE_AGGREGATE) || (type =? PM_TYPE_STRING) || (type =? PM_TYPE_AGGREGATE_STATIC)
  then block (vb_vlen w - PM_VAL_HDR_SIZE)
  else fail PM_ERR_TYPE.
Fixpoint unpack_params (base : Z) (n : nat) : M (list pmValueSet * Z) :=
  match n with
  | O => mret ([], base)
  | S n =>
      '(v, base) ← unpack_param base;
      '(vs, base) ← unpack_params base n;
      mret (v :: vs, base)
  end.
(** [rp = malloc(need)], and the store of [rp->numpmid], 16 bytes into it.  (The
    number is that of the value sets; a negative one is not told from 0 below.) *)
Definition new_result (numpmid : Z) : M unit :=
  let need := s32 (Result.sizeof_pmResult + (numpmid - 1) * 8) in
  check (need <? 0) (- ENOMEM);;
  if need <? 20 then wrong_member else mret tt.
Definition unpack_record (base : Z) : M (pmResult * Z) :=
  sec ← load32 base; usec ← load32 (base + 4);
  flags ← load32 (base + 8); nparams ← load32 (base + 12);
  let missed := negb (Z.land flags PM_EVENT_FLAG_MISSED =? 0) in
  let numpmid := if flags =? 0 then s32 nparams
                 else if missed then 2 else s32 (s32 nparams + 1) in
  new_result numpmid;;
  let base := base + 16 in
  let fl := if flags =? 0 then [] else take (Z.to_nat numpmid) [single pmid_flags PM_VAL_INSITU (Lval (s32 flags))] in
  if negb (flags =? 0) && missed then
    mret (mkResult (s32 sec) (s32 usec)
            (fl ++ [single pmid_missed PM_VAL_INSITU (Lval (s32 nparams))]), base)
  else
    '(vs, base) ← unpack_params base (Z.to_nat numpmid - length fl)%nat;
    mret (mkResult (s32 sec) (s32 usec) (fl ++ vs), base).
Fixpoint unpack_records (base : Z) (n : nat) : M (list pmResult) :=
  match n with
  | O => mret []
  | S n =>
      '(r, base) ← unpack_record base;
      rs ← unpack_records base n;
      mret (r :: rs)
  end.
(** The results, none of them when there are no records.  There is no [vlist[idx]]
    to look at when there is no value. *)
Definition pmUnpackEventRecords (numval valfmt : Z) : M (list pmResult) :=
  __pmCheckEventRecords numval valfmt;;
  (if numval <? 1 then wrong_member else mret tt);;
  n ← load32 4;
  unpack_records 8 (Z.to_nat (s32 n)).
End unpack.
End EventUnpack.

(** ** Unpacking *)

Module Unpack.
Import EventUnpack.

Lemma check_params_safe E valend n : ∀ base b,
  (∀ e, e = PM_ERR_TOOBIG → E e) → 0 <= base → valend <= zlen b →
  wp (check_params valend base n) E (λ a b', b' = b ∧ base <= a) b.
Proof.
  induction n as [|n IH]; intros base b HE Hb Hv; cbn [check_params]; [by apply wp_ret |].
  unfold sizeof_pmEventParameter.
  wp1. wp1; [by apply HE |]. wp1. wp1. wp1. wp1; [by apply HE |].
  assert (0 <= vb_vlen v) by (unfold vb_vlen, bits; apply Z.mod_pos_bound; lia).
  pose proof (pdu_size_bounds (vb_vlen v) ltac:(done)).
  eapply wp_mono; [| apply IH; [done | lia | done]]. intros a b' [-> ?]. split; [done | lia].
Qed.
Lemma check_records_safe E valend n : ∀ base b,
  (∀ e, e = PM_ERR_TOOBIG ∨ e = PM_ERR_CONV → E e) → 0 <= base → valend <= zlen b →
  wp (check_records valend base n) E (λ a b', b' = b ∧ base <= a) b.
Proof.
  induction n as [|n IH]; intros base b HE Hb Hv; cbn [check_records]; [by apply wp_ret |].
  wp1. wp1; [by apply HE; left |]. wp1. wp1. wp1. wp1. wp1.
  - wp1. wp1; [by apply HE; right |]. eapply wp_mono; [| apply IH; [done | lia | done]]. intros a b' [-> ?]. split; [done | lia].
  - wp1. eapply wp_mono; [| apply check_params_safe; [intros e ->; apply HE; by left | lia | done]].
    intros a b' [-> ?]. eapply wp_mono; [| apply IH; [done | lia | done]]. intros a' b' [-> ?]. split; [done | lia].
Qed.

(** ** Arrays that can be unpacked *)

Definition psize (p : eparam) : Z :=
  let ty := ep_type p in
  if (ty =? PM_TYPE_32) || (ty =? PM_TYPE_U32) then 4
  else if (ty =? PM_TYPE_64) || (ty =? PM_TYPE_U64) then 8
  else if ty =? PM_TYPE_FLOAT then 4 else if ty =? PM_TYPE_DOUBLE then 8
  else ep_len p - PM_VAL_HDR_SIZE.
Definition param_ok (p : eparam) : Prop :=
  eparam_wf p ∧ ep_type p <= PM_TYPE_AGGREGATE_STATIC ∧ 0 <= psize p <= zlen (ep_bytes p).
Definition record_ok (r : erecord) : Prop :=
  erecord_wf r ∧ Forall param_ok (er_params r) ∧ zlen (er_params r) < 2^24
  ∧ if Z.land (u32 (er_flags r)) PM_EVENT_FLAG_MISSED =? 0 then 0 <= s32 (er_nparams r)
    else u32 (er_flags r) = PM_EVENT_FLAG_MISSED.

Section spec.
Context (pmid_flags pmid_missed : Z).
(** What a client gets for a parameter and for a record. *)
Definition param_vset (p : eparam) : pmValueSet :=
  let bytes := take (Z.to_nat (psize p)) (ep_bytes p) in
  if (ep_type p =? PM_TYPE_32) || (ep_type p =? PM_TYPE_U32)
  then single (u32 (ep_pmid p)) PM_VAL_INSITU (Lval (s32 (le_combine bytes)))
  else single (u32 (ep_pmid p)) PM_VAL_DPTR (Pval (mkVB (ep_type p) bytes)).
Definition record_result (r : erecord) : pmResult :=
  let flags := single pmid_flags PM_VAL_INSITU (Lval (s32 (er_flags r))) in
  mkResult (s32 (er_sec r)) (s32 (er_usec r))
    (if u32 (er_flags r) =? 0 then param_vset <$> er_params r
     else if Z.land (u32 (er_flags r)) PM_EVENT_FLAG_MISSED =? 0 then flags :: (param_vset <$> er_params r)
     else [flags; single pmid_missed PM_VAL_INSITU (Lval (s32 (er_nparams r)))]).

Lemma unpack_param_ok E p base b :
  param_ok p → has b base (eparam_bytes le32 host_val p) →
  wp (unpack_param base) E (λ a b', b' = b ∧ a = (param_vset p, base + zlen (eparam_bytes le32 host_val p))) b.
Proof.
  intros ((Ht & Hl & Hs & Hsw) & Hty & Hp) Hb.
  destruct (vb_word_fields (ep_len p) (ep_type p) Ht Hl) as (Hw & El & Et). fold (ep_word p) in *.
  unfold eparam_bytes, host_val in *. autorewrite with lens.
  rewrite <- (take_drop (Z.to_nat (psize p)) (ep_bytes p)) in Hb.
  assert (zlen (take (Z.to_nat (psize p)) (ep_bytes p)) = psize p) as Lb by lens.
  set (bytes := take _ (ep_bytes p)) in *. has_split. unfold unpack_param, param_vset. fold bytes.
  wp1. wp1. wp1. wp1. rewrite (u32_id (ep_word p)), Et, El by done.
  unfold psize in Lb.
  destruct ((ep_type p =? PM_TYPE_32) || _) eqn:E1; [| destruct ((ep_type p =? PM_TYPE_64) || _) eqn:E2; [|
    destruct (ep_type p =? PM_TYPE_FLOAT) eqn:E3; [| destruct (ep_type p =? PM_TYPE_DOUBLE) eqn:E4; [|
    destruct ((ep_type p =? PM_TYPE_AGGREGATE) || _ || _) eqn:E5]]]].
  - wp1. eapply wp_load32_has; [has_tac | lia |]. wp1. split; [done |]. f_equal. lens.
  - wp1. wp1. wp1. split; [done |]. f_equal. lens.
  - wp1. wp1. wp1. split; [done |]. f_equal. lens.
  - wp1. wp1. wp1. split; [done |]. f_equal. lens.
  - wp1. wp1. wp1. split; [done |]. f_equal. lens.
  - exfalso. unfold PM_TYPE_32, PM_TYPE_U32, PM_TYPE_64, PM_TYPE_U64, PM_TYPE_FLOAT, PM_TYPE_DOUBLE, PM_TYPE_STRING,
      PM_TYPE_AGGREGATE, PM_TYPE_AGGREGATE_STATIC in *. lia.
Qed.
Lemma unpack_params_ok E ps : ∀ base b,
  Forall param_ok ps → has b base (concat (eparam_bytes le32 host_val <$> ps)) →
  wp (unpack_params base (length ps)) E
    (λ a b', b' = b ∧ a = (param_vset <$> ps, base + zlen (concat (eparam_bytes le32 host_val <$> ps)))) b.
Proof.
  induction ps as [|p ps IH]; intros base b Hok Hb; cbn [unpack_params length].
  { apply wp_ret. split; [done |]. f_equal. simpl. lia. }
  apply Forall_cons in Hok as [Hp Hps]. rewrite !fmap_cons in *. cbn [concat] in *. apply has_app in Hb as [H1 H2].
  wp1. eapply wp_mono; [| by apply unpack_param_ok]. intros ? ? [-> ->]. wp1.
  eapply wp_mono; [| apply IH; [done |]; exact H2]. intros ? ? [-> ->]. wp1.
  split; [done |]. f_equal. lens.
Qed.

Lemma wp_new_result E n (Q : unit → buf → Prop) b : 0 <= n < 2^25 → Q tt b → wp (new_result n) E Q b.
Proof.
  intros Hn HQ. unfold new_result, Result.sizeof_pmResult. rewrite s32_id by (split; lia).
  wp1. wp1; [lia |]. rewrite (proj2 (Z.ltb_ge _ _)) by lia. by wp1.
Qed.
(** The number of value sets, and the parameters to unpack. *)
Lemma unpack_record_ok E r base b :
  record_ok r → has b base (erecord_bytes le32 host_val r) →
  wp (unpack_record pmid_flags pmid_missed base) E
    (λ a b', b' = b ∧ a = (record_result r, base + zlen (erecord_bytes le32 host_val r))) b.
Proof.
  intros ([Hn Hwf] & Hps & Hlen & Hfl) Hb. unfold erecord_bytes in *. autorewrite with lens.
  set (pb := concat _) in *. has_split. unfold unpack_record, record_result. unfold record_nparams in Hn.
  do 8 wp1. rewrite ?s32_u32 in *.
  destruct (Z.eqb_spec (u32 (er_flags r)) 0) as [E0|E0].
  - rewrite E0 in *. simpl negb. simpl Z.land in *. rewrite Z.eqb_refl in *. cbn [negb andb].
    wp1. apply wp_new_result; [lia |]. cbn [length]. rewrite Nat.sub_0_r, Hn.
    wp1. eapply wp_mono; [| apply unpack_params_ok; [done | has_tac]].
    intros ? ? [-> ->]. wp1. split; [done |]. rewrite ?s32_u32. f_equal. fold pb. lens.
  - destruct (Z.eqb_spec (Z.land (u32 (er_flags r)) PM_EVENT_FLAG_MISSED) 0) as [Em|Em]; cbn [negb andb].
    + assert (s32 (s32 (er_nparams r) + 1) = zlen (er_params r) + 1) as En.
      { rewrite s32_id by (split; lia). lia. }
      rewrite En. wp1. apply wp_new_result; [lia |].
      replace (Z.to_nat (zlen (er_params r) + 1)) with (S (length (er_params r))) by lia.
      rewrite (take_ge [_]) by (simpl; lia). cbn [length]. rewrite Nat.sub_1_r. cbn [Nat.pred]. wp1. eapply wp_mono; [| apply unpack_params_ok; [done | has_tac]].
      intros ? ? [-> ->]. wp1. split; [done |]. rewrite ?s32_u32. f_equal. fold pb. lens.
    + wp1. apply wp_new_result; [lia |]. wp1. split; [done |]. rewrite ?s32_u32. f_equal.
      assert (length (er_params r) = 0%nat) as Hnil%nil_length_inv by lia. subst pb. rewrite Hnil. simpl. lia.
Qed.
Lemma unpack_records_ok E l : ∀ base b,
  Forall record_ok l → has b base (erecords_bytes le32 host_val l) →
  wp (unpack_records pmid_flags pmid_missed base (length l)) E (λ a b', b' = b ∧ a = record_result <$> l) b.
Proof.
  unfold erecords_bytes. induction l as [|r l IH]; intros base b Hok Hb; cbn [unpack_records length].
  { by apply wp_ret. }
  apply Forall_cons in Hok as [Hr Hl]. rewrite !fmap_cons in *. cbn [concat] in *. apply has_app in Hb as [H1 H2].
  wp1. eapply wp_mono; [| by apply unpack_record_ok]. intros ? ? [-> ->]. wp1.
  eapply wp_mono; [| apply IH; [done |]; exact H2]. intros ? ? [-> ->]. by wp1.
Qed.
End spec.

Lemma check_params_ok E valend ps : ∀ base b,
  Forall eparam_wf ps → has b base (concat (eparam_bytes le32 host_val <$> ps)) →
  base + zlen (concat (eparam_bytes le32 host_val <$> ps)) <= valend →
  wp (check_params valend base (length ps)) E
    (λ a b', b' = b ∧ a = base + zlen (concat (eparam_bytes le32 host_val <$> ps))) b.
Proof.
  induction ps as [|p ps IH]; intros base b Hok Hb Hv; cbn [check_params length].
  { apply wp_ret. split; [done |]. simpl. lia. }
  apply Forall_cons in Hok as [(Ht & Hl & Hs & Hsw) Hps]. rewrite !fmap_cons in *. cbn [concat] in *.
  destruct (vb_word_fields (ep_len p) (ep_type p) Ht Hl) as (Hw & El & Et). fold (ep_word p) in *.
  apply has_app in Hb as [H1 H2]. unfold eparam_bytes at 1 in Hv. unfold host_val in Hv at 1. autorewrite with lens in Hv.
  unfold eparam_bytes in H1. has_split. unfold sizeof_pmEventParameter.
  assert (zlen (eparam_bytes le32 host_val p) = 4 + PM_PDU_SIZE_BYTES (ep_len p)) as Lp.
  { rewrite Hs. unfold eparam_bytes, host_val. lens. }
  wp1. wp1; [lia |]. wp1. wp1. rewrite (u32_id (ep_word p)), El by done. wp1. wp1; [lia |].
  eapply wp_mono; [| apply IH; [done | has_tac | lia]]. intros ? ? [-> ->]. split; [done |]. lens.
Qed.
Lemma check_records_ok E valend l : ∀ base b,
  Forall record_ok l → has b base (erecords_bytes le32 host_val l) →
  base + zlen (erecords_bytes le32 host_val l) <= valend →
  wp (check_records valend base (length l)) E (λ a b', b' = b) b.
Proof.
  unfold erecords_bytes. induction l as [|r l IH]; intros base b Hok Hb Hv; cbn [check_records length].
  { by apply wp_ret. }
  apply Forall_cons in Hok as [([Hn Hwf] & Hps & Hlen & Hfl) Hl]. rewrite !fmap_cons in *. cbn [concat] in *.
  apply has_app in Hb as [H1 H2]. unfold erecord_bytes at 1 in H1. unfold erecord_bytes at 1 in Hv.
  unfold erecord_bytes at 1 in H2. autorewrite with lens in Hv, H2.
  set (pb := concat (_ <$> er_params r)) in *. has_split. unfold record_nparams in Hn. rewrite ?s32_u32 in *.
  wp1. wp1; [lia |]. wp1. wp1. wp1. wp1. rewrite ?s32_u32.
  destruct (Z.eqb_spec (Z.land (u32 (er_flags r)) PM_EVENT_FLAG_MISSED) 0) as [Em|Em]; cbn [negb].
  - wp1. rewrite Hn. eapply wp_mono; [| apply check_params_ok; [done | has_tac | fold pb; lia]].
    intros ? ? [-> ->]. apply IH; [done | fold pb; has_tac | fold pb; lia].
  - wp1. wp1; [rewrite Hfl, Z.eqb_refl in *; done |].
    assert (length (er_params r) = 0%nat) as Hnil%nil_length_inv by lia. subst pb. rewrite Hnil in *. simpl concat in *.
    apply IH; [done | has_tac | lens].
Qed.

(** An array of records in memory, header included. *)
Definition array_at (b : buf) (l : list erecord) : Prop :=
  let len := 8 + zlen (erecords_bytes le32 host_val l) in
  len < 2^24 ∧ has b 0 (le32 (vb_word len PM_TYPE_EVENT) ++ le32 (zlen l) ++ erecords_bytes le32 host_val l).
Lemma unpack_array pf pm E numval valfmt l b :
  array_at b l → Forall record_ok l → 1 <= numval → valfmt = PM_VAL_DPTR ∨ valfmt = PM_VAL_SPTR →
  wp (pmUnpackEventRecords pf pm numval valfmt) E (λ a b', b' = b ∧ a = record_result pf pm <$> l) b.
Proof.
  intros [Hl Hb] Hok Hn Hf. has_split.
  set (len := 8 + _) in *. destruct (vb_word_fields len PM_TYPE_EVENT) as (Hw & El & Et); [done | lia |].
  assert (zlen l <= zlen (erecords_bytes le32 host_val l)) as Hc.
  { clear. induction l as [|r l IH]; [done |]. unfold erecords_bytes in *. rewrite fmap_cons. simpl concat.
    unfold erecord_bytes at 1. lens. }
  unfold pmUnpackEventRecords, __pmCheckEventRecords. wp1. rewrite (proj2 (Z.ltb_ge _ _)) by lia.
  wp1. wp1; [destruct Hf as [-> | ->]; done |]. wp1. wp1. rewrite u32_id, El, Et by done.
  wp1. wp1; [done |]. wp1. wp1; [unfold PM_VAL_HDR_SIZE in *; lia |]. wp1. wp1.
  rewrite s32_u32_id by (split; lia). wp1. wp1; [lia |]. wp1. rewrite Nat2Z.id.
  eapply wp_mono; [| apply check_records_ok; [exact Hok | has_tac | lia]]. intros ? ? ->. do 2 wp1. wp1. wp1. wp1.
  rewrite s32_u32_id, Nat2Z.id by (split; lia). apply unpack_records_ok; [done | has_tac].
Qed.
End Unpack.

(** ** Packing *)

Module Pack.
Import EventPack Unpack.

Abbreviation bytes_of l := (erecords_bytes le32 host_val l).

(** The buffer holds the records [l]. *)
Record rep (l : list erecord) (bp : bufctl_t) : Prop := {
  rep_inuse : e_inuse bp = true;
  rep_size : 512 <= zlen (e_mem bp) <= 2^30;
  rep_ptr : e_ptr bp = 8 + zlen (bytes_of l);
  rep_mem : has (e_mem bp) 4 (le32 (zlen l) ++ bytes_of l);
  rep_rec : ∀ l0 r, l = l0 ++ [r] → e_rec bp = Some (8 + zlen (bytes_of l0)) }.

Lemma bytes_of_snoc l r : bytes_of (l ++ [r]) = bytes_of l ++ erecord_bytes le32 host_val r.
Proof. unfold erecords_bytes. rewrite fmap_app, concat_app. simpl. by rewrite app_nil_r. Qed.
Lemma bytes_of_length l : zlen l <= zlen (bytes_of l).
Proof.
  induction l as [|r l IH]; [done |]. unfold erecords_bytes in *. rewrite fmap_cons. simpl concat.
  unfold erecord_bytes at 1. lens.
Qed.
Lemma has_more b c o x : has b o x → has (b ++ c) o x.
Proof.
  intros (? & ? & Hg). split_and!; [done | lens |]. unfold get in *.
  rewrite drop_app_le by lia. rewrite take_app_le; [done |]. rewrite length_drop. lia.
Qed.

Section pack.
Context (junk : nat → byte).

Lemma grow_ok fuel : ∀ blen end_,
  0 < blen <= 2^30 → end_ < 2^29 → 2^31 <= blen * 2 ^ Z.of_nat fuel →
  ∃ blen', grow fuel blen end_ = Some blen' ∧ blen <= blen' <= 2^30 ∧ end_ + 1 < blen'.
Proof.
  induction fuel as [|fuel IH]; intros blen end_ Hb He Hf; cbn [grow].
  - rewrite Z.pow_0_r in Hf. lia.
  - rewrite (proj2 (Z.eqb_neq blen 0)) by lia. cbn [orb]. destruct (Z.leb_spec (blen - 1) end_) as [Hle|Hle].
    + rewrite (proj2 (Z.ltb_ge _ _)) by (unfold INT_MAX; lia).
      destruct (IH (blen * 2) end_) as (n & -> & ? & ?); [lia | done | | exists n; split_and!; [done | lia | lia | done]].
      rewrite Nat2Z.inj_succ, Z.pow_succ_r in Hf by lia. lia.
    + exists blen. split_and!; [done | lia | lia | lia].
Qed.
Lemma grow_zero fuel end_ : grow (S fuel) 0 end_ = grow fuel 512 end_.
Proof. done. Qed.
Lemma check_buf_ok bp need :
  zlen (e_mem bp) = 0 ∨ 512 <= zlen (e_mem bp) <= 2^30 → e_ptr bp + need < 2^29 →
  ∃ m, check_buf junk bp need = Ok (mkBufctl m (e_ptr bp) (e_rec bp) (e_inuse bp))
    ∧ 512 <= zlen m <= 2^30 ∧ e_ptr bp + need + 1 < zlen m ∧ ∀ o x, has (e_mem bp) o x → has m o x.
Proof.
  intros Hs He. unfold check_buf.
  assert (∃ n, grow 23 (zlen (e_mem bp)) (e_ptr bp + need) = Some n ∧ zlen (e_mem bp) <= n
    ∧ 512 <= n <= 2^30 ∧ e_ptr bp + need + 1 < n) as (n & -> & Hn & Hn' & Hn'').
  { destruct Hs as [-> | Hs].
    - rewrite grow_zero. destruct (grow_ok 22 512 (e_ptr bp + need)) as (n & Hg & ? & ?); [lia | done | by vm_compute |].
      exists n. split_and!; [exact Hg | lia | lia | lia | done].
    - destruct (grow_ok 23 (zlen (e_mem bp)) (e_ptr bp + need)) as (n & Hg & ? & ?); [lia | done | | ].
      + change (2 ^ Z.of_nat 23) with 8388608. lia.
      + exists n. split_and!; [exact Hg | lia | lia | lia | done]. }
  eexists. split; [done |]. rewrite length_app, length_fmap, length_seq. split_and!; [lia | lia | lia |].
  intros o x Hx. by apply has_more.
Qed.
Lemma on_mem_wp (m : M unit) bp (Q : buf → Prop) :
  wp m noerr (λ _ b, Q b) (e_mem bp) →
  ∃ b, on_mem m bp = Ok (mkBufctl b (e_ptr bp) (e_rec bp) (e_inuse bp)) ∧ Q b.
Proof. intros ([] & b & E & HQ)%wp_noerr_run. exists b. unfold on_mem. by rewrite E. Qed.

(** What an operation on the array [idx] leaves: the array holds [l]; the others are
    what they were. *)
Definition leaves (idx : Z) (bufs bufs' : list bufctl_t) (l : list erecord) : Prop :=
  (∃ bp, find_buf idx bufs' = Some bp ∧ rep l bp) ∧ ∀ j, j ≠ idx → find_buf j bufs' = find_buf j bufs.
Lemma set_buf_leaves idx bp0 bufs bp l :
  find_buf idx bufs = Some bp0 → rep l bp → leaves idx bufs (set_buf idx bp bufs) l.
Proof.
  intros Hf Hr. unfold find_buf in Hf. destruct (_ || _) eqn:Eb; [done |].
  apply orb_false_iff in Eb as [E1 E2]. rewrite Z.ltb_ge in E1. rewrite Z.leb_gt in E2. split.
  - exists bp. split; [| done]. unfold find_buf, set_buf. rewrite length_insert.
    rewrite (proj2 (Z.ltb_ge _ _)), (proj2 (Z.leb_gt _ _)) by done. cbn [orb].
    rewrite list_lookup_insert_eq by lia. by rewrite (rep_inuse _ _ Hr).
  - intros j Hj. unfold find_buf, set_buf. rewrite length_insert. destruct (_ || _) eqn:Ej; [done |].
    apply orb_false_iff in Ej as [E3 E4]. rewrite list_lookup_insert_ne by lia. done.
Qed.
Lemma leaves_trans idx bufs bufs1 bufs2 l1 l2 :
  leaves idx bufs bufs1 l1 → leaves idx bufs1 bufs2 l2 → leaves idx bufs bufs2 l2.
Proof. intros [_ H1] [? H2]. split; [done |]. intros j Hj. by rewrite H2, H1. Qed.

Lemma add_record_ok idx bp bufs l sec usec flags nparams :
  find_buf idx bufs = Some bp → rep l bp → 24 + zlen (bytes_of l) < 2^29 →
  ∃ bufs', add_record junk idx sec usec flags nparams bp bufs = Ok (0, bufs')
    ∧ leaves idx bufs bufs' (l ++ [mkErecord (s32 sec) (s32 usec) flags nparams []]).
Proof.
  intros Hf [Hu Hs Hp Hm Hr] Hroom. unfold add_record, sizeof_pmEventRecord, sizeof_pmEventParameter.
  destruct (check_buf_ok bp (24 - 8)) as (m & -> & Hm1 & Hm2 & Hk); [by right | lia |].
  apply Hk in Hm. cbn [mbind res_bind]. set (bp1 := mkBufctl _ _ _ _).
  pose proof (bytes_of_length l) as Hlen.
  destruct (on_mem_wp (put_record (e_ptr bp1) sec usec flags nparams) bp1
    (λ b, length b = length m ∧ has b 4 (le32 (zlen l + 1) ++ bytes_of l
        ++ erecord_bytes le32 host_val (mkErecord (s32 sec) (s32 usec) flags nparams [])))) as (b & -> & Hb & Hb2).
  { unfold put_record, bp1. cbn [e_ptr e_mem]. has_split. unfold erecord_bytes. rewrite Hp in *.
    repeat wp1. rewrite u32_id in * by (split; lia). split; [lia |]. simpl. rewrite app_nil_r. has_join. }
  cbn [mbind res_bind e_mem e_ptr e_rec e_inuse]. eexists. split; [done |].
  eapply set_buf_leaves; [done |]. split; cbn [e_mem e_ptr e_rec e_inuse]; [done | lia | | |].
  - rewrite bytes_of_snoc. unfold erecord_bytes. simpl. rewrite app_nil_r. lens.
  - rewrite bytes_of_snoc. replace (zlen (l ++ [_])) with (zlen l + 1) by lens. done.
  - intros l0 r [-> _]%app_inj_tail. simpl. by rewrite Hp.
Qed.

Lemma param_value_space type avp src space :
  length (av_bytes avp) = 8%nat → param_value type avp = Some (src, space) →
  0 <= type <= PM_TYPE_AGGREGATE ∧ zlen src <= space ∧ PM_PDU_SIZE_BYTES (4 + zlen src) = 4 + space.
Proof.
  intros Hl. unfold param_value, PM_TYPE_32, PM_TYPE_U32, PM_TYPE_64, PM_TYPE_U64, PM_TYPE_FLOAT, PM_TYPE_DOUBLE,
    PM_TYPE_STRING, PM_TYPE_AGGREGATE.
  assert (∀ n, 0 <= n → n <= PM_PDU_SIZE_BYTES n ∧ PM_PDU_SIZE_BYTES (4 + n) = 4 + PM_PDU_SIZE_BYTES n) as Hsz.
  { intros n Hn. split; [by apply pdu_size_bounds |]. unfold PM_PDU_SIZE_BYTES, PM_PDU_SIZE.
    Z.to_euclidean_division_equations; lia. }
  assert (∀ k : nat, (k <= 8)%nat → zlen (take k (av_bytes avp)) = Z.of_nat k) as Htk by (intros; lens).
  do 6 (match goal with |- (if ?c then _ else _) = _ → _ => destruct c eqn:? end;
    [intros [= <- <-]; split; [lia |]; first [by apply Hsz; lia | by rewrite Htk by lia] |]).
  done.
Qed.
(** The parameter as it is in memory: the value and the bytes up to the next word. *)
Definition packed (pmid type : Z) (src pad : buf) : eparam := mkEparam pmid type (4 + zlen src) (src ++ pad).
Lemma add_param_ok idx bp bufs l sec usec flags eps pmid type avp src space :
  find_buf idx bufs = Some bp → rep (l ++ [mkErecord sec usec flags (zlen eps) eps]) bp →
  length (av_bytes avp) = 8%nat → param_value type avp = Some (src, space) →
  16 + space + zlen (bytes_of (l ++ [mkErecord sec usec flags (zlen eps) eps])) < 2^29 →
  ∃ bufs' pad, pmdaEventAddParam junk idx pmid type avp bufs = Ok (0, bufs') ∧ zlen pad = space - zlen src
    ∧ leaves idx bufs bufs' (l ++ [mkErecord sec usec flags (zlen eps + 1) (eps ++ [packed pmid type src pad])]).
Proof.
  intros Hf [Hu Hs Hp Hm Hr] Hl Hv Hroom. destruct (param_value_space _ _ _ _ Hl Hv) as (_ & Hspace & _).
  unfold pmdaEventAddParam, sizeof_pmEventParameter. rewrite Hf, Hv.
  destruct (check_buf_ok bp (8 + space)) as (m & -> & Hm1 & Hm2 & Hk); [by right | lia |].
  apply Hk in Hm. cbn [mbind res_bind]. set (bp1 := mkBufctl _ _ _ _). cbn [e_rec bp1].
  rewrite (Hr _ _ eq_refl). clear Hk Hr.
  replace (zlen (l ++ [_])) with (zlen l + 1) in Hm by lens.
  rewrite bytes_of_snoc in *. unfold erecord_bytes in *. cbn [er_sec er_usec er_flags er_nparams er_params] in *.
  set (pb := concat (eparam_bytes le32 host_val <$> eps)) in *. autorewrite with lens in Hp, Hroom.
  assert (zlen eps <= zlen pb) as Hle.
  { subst pb. clear. induction eps as [|p eps IH]; [done |]. rewrite fmap_cons. simpl concat. unfold eparam_bytes at 1. lens. }
  set (pad := get (e_ptr bp + 8 + zlen src) (Z.to_nat (space - zlen src)) m).
  assert (has m (e_ptr bp + 8 + zlen src) pad) as Hpad by (apply has_get; lia).
  assert (zlen pad = space - zlen src) as Lpad by (unfold pad, get; lens).
  clearbody pad.
  destruct (on_mem_wp (put_param (e_ptr bp1) (8 + zlen (bytes_of l)) pmid type src) bp1
    (λ b, length b = length m ∧ has b 4 (le32 (zlen l + 1) ++ bytes_of l
        ++ le32 sec ++ le32 usec ++ le32 flags ++ le32 (zlen eps + 1) ++ pb
        ++ le32 pmid ++ le32 (vb_word (4 + zlen src) type) ++ src ++ pad))) as (b & -> & Hb & Hb2).
  { unfold put_param, bp1, sizeof_pmEventParameter. cbn [e_ptr e_mem].
    unfold PM_VAL_HDR_SIZE. has_split. rewrite Hp in *. repeat wp1. assert (u32 (zlen eps) = zlen eps) as Eu by (apply u32_id; split; lia). rewrite ?Eu in *.
    split; [lia |]. has_join. }
  assert (bytes_of (l ++ [mkErecord sec usec flags (zlen eps + 1) (eps ++ [packed pmid type src pad])])
    = bytes_of l ++ le32 sec ++ le32 usec ++ le32 flags ++ le32 (zlen eps + 1) ++ pb
      ++ le32 pmid ++ le32 (vb_word (4 + zlen src) type) ++ src ++ pad) as Hnew.
  { rewrite bytes_of_snoc. unfold erecord_bytes. cbn [er_sec er_usec er_flags er_nparams er_params].
    rewrite fmap_app, concat_app. fold pb. do 6 f_equal.
    change (concat (_ <$> [_])) with ((le32 pmid ++ le32 (vb_word (4 + zlen src) type) ++ src ++ pad) ++ []).
    apply app_nil_r. }
  cbn [mbind res_bind e_mem e_ptr e_rec e_inuse bp1]. eexists _, pad. split_and!; [done | done |].
  eapply set_buf_leaves; [done |]. split; cbn [e_mem e_ptr e_rec e_inuse]; [done | lia | | |].
  - rewrite Hnew, Hp. lens.
  - rewrite Hnew. replace (zlen (l ++ [_])) with (zlen l + 1) by lens. exact Hb2.
  - by intros l0 r [-> _]%app_inj_tail.
Qed.

Lemma reset_ok idx bp bufs :
  find_buf idx bufs = Some bp → zlen (e_mem bp) = 0 ∨ 512 <= zlen (e_mem bp) <= 2^30 → 0 <= e_ptr bp < 2^28 →
  ∃ bufs', pmdaEventResetArray junk idx bufs = Ok (0, bufs') ∧ leaves idx bufs bufs' [].
Proof.
  intros Hf Hs Hp. unfold pmdaEventResetArray. rewrite Hf.
  destruct (check_buf_ok bp (sizeof_pmEventArray - sizeof_pmEventRecord)) as (m & -> & Hm1 & Hm2 & _);
    [done | unfold sizeof_pmEventArray, sizeof_pmEventRecord; lia |].
  cbn [mbind res_bind]. set (bp1 := mkBufctl _ _ _ _).
  destruct (on_mem_wp (store32 4 0) bp1 (λ b, length b = length m ∧ has b 4 (le32 0))) as (b & -> & Hb & Hb2).
  { cbn [e_mem bp1]. wp1. done. }
  cbn [mbind res_bind e_mem e_ptr e_rec e_inuse bp1]. eexists. split; [done |]. eapply set_buf_leaves; [done |].
  split; cbn [e_mem e_ptr e_rec e_inuse]; [| lia | done | by rewrite app_nil_r | by intros [|??] ?].
  unfold find_buf in Hf. destruct (_ || _); [done |]. destruct (_ !! _) as [b0|]; [| done].
  destruct (e_inuse b0) eqn:E; [| done]. by injection Hf as <-.
Qed.
Lemma first_free_spec bufs :
  (first_free bufs <= length bufs)%nat ∧ ∀ bp, bufs !! first_free bufs = Some bp → e_inuse bp = false.
Proof.
  induction bufs as [|bp bufs [IH1 IH2]]; [done |]. simpl. destruct (e_inuse bp) eqn:E; simpl.
  - split; [lia | done].
  - split; [lia |]. by intros ? [= <-].
Qed.
Lemma new_ok bufs :
  ∃ idx bufs', pmdaEventNewArray junk bufs = Ok (idx, bufs') ∧ find_buf idx bufs = None ∧ leaves idx bufs bufs' [].
Proof.
  unfold pmdaEventNewArray. cbv zeta. destruct (first_free_spec bufs) as [Hle Hfree]. set (i := first_free bufs) in *.
  match goal with |- context [pmdaEventResetArray junk _ ?b] => set (bufs1 := b) end.
  assert (length bufs1 = if (i =? length bufs)%nat then S (length bufs) else length bufs) as L1.
  { unfold bufs1. destruct (Nat.eqb_spec i (length bufs)); [rewrite length_app; simpl; lia | by rewrite length_insert]. }
  assert (bufs1 !! i = Some (mkBufctl [] 0 None true)) as Hi.
  { unfold bufs1. destruct (Nat.eqb_spec i (length bufs)) as [->|]; [by rewrite list_lookup_middle |].
    rewrite list_lookup_insert_eq; [done | lia]. }
  assert (∀ j, j ≠ i → bufs1 !! j = bufs !! j) as Hj.
  { intros j Hj. unfold bufs1. destruct (Nat.eqb_spec i (length bufs)) as [E|].
    - destruct (decide (j < length bufs)%nat); [by rewrite lookup_app_l by lia |].
      rewrite (lookup_ge_None_2 bufs j) by lia. apply lookup_ge_None_2. lens.
    - by rewrite list_lookup_insert_ne. }
  assert (find_buf (Z.of_nat i) bufs1 = Some (mkBufctl [] 0 None true)) as Hf.
  { unfold find_buf. rewrite Nat2Z.id, Hi. apply lookup_lt_Some in Hi.
    by rewrite (proj2 (Z.ltb_ge _ _)), (proj2 (Z.leb_gt _ _)) by lia. }
  destruct (reset_ok (Z.of_nat i) _ bufs1 Hf) as (bufs' & -> & [Hl Ho]); [by left | by simpl |].
  cbn [mbind res_bind]. eexists _, _. split; [done |]. split; [| split; [done |]].
  - unfold find_buf. destruct (_ || _); [done |]. rewrite Nat2Z.id.
    destruct (bufs !! i) as [bp|]; [by rewrite (Hfree bp eq_refl) | done].
  - intros j Hne. rewrite Ho by done. unfold find_buf. destruct (Z.ltb_spec j 0); [done |]. cbn [orb].
    rewrite Hj by lia. destruct (Z.leb_spec (zlen bufs1) j), (Z.leb_spec (zlen bufs) j); try done.
    + destruct (Nat.eqb_spec i (length bufs)); lia.
    + by rewrite (lookup_ge_None_2 bufs (Z.to_nat j)) by lia.
Qed.

(** ** An agent that packs, a client that unpacks *)

Inductive event :=
| Event (sec usec flags : Z) (ps : list (Z * Z * pmAtomValue))
| Missed (sec usec n : Z).
Definition must (r : res (Z * list bufctl_t)) : res (list bufctl_t) :=
  '(sts, bufs) ← r; if sts <? 0 then Err sts else Ok bufs.
Fixpoint pack_params (idx : Z) (ps : list (Z * Z * pmAtomValue)) (bufs : list bufctl_t) : res (list bufctl_t) :=
  match ps with
  | [] => Ok bufs
  | (pmid, type, avp) :: ps => bufs ← must (pmdaEventAddParam junk idx pmid type avp bufs); pack_params idx ps bufs
  end.
Definition pack_event (idx : Z) (e : event) (bufs : list bufctl_t) : res (list bufctl_t) :=
  match e with
  | Event sec usec flags ps => bufs ← must (pmdaEventAddRecord junk idx sec usec flags bufs); pack_params idx ps bufs
  | Missed sec usec n => must (pmdaEventAddMissedRecord junk idx sec usec n bufs)
  end.
Fixpoint pack_events (idx : Z) (es : list event) (bufs : list bufctl_t) : res (list bufctl_t) :=
  match es with
  | [] => Ok bufs
  | e :: es => bufs ← pack_event idx e bufs; pack_events idx es bufs
  end.

Definition param_space (p : Z * Z * pmAtomValue) : Z :=
  match param_value p.1.2 p.2 with Some (_, space) => 8 + space | None => 0 end.
Definition sum (l : list Z) : Z := foldr Z.add 0 l.
Definition event_size (e : event) : Z :=
  match e with Event _ _ _ ps => 16 + sum (param_space <$> ps) | Missed _ _ _ => 16 end.
Definition param_good (p : Z * Z * pmAtomValue) : Prop :=
  is_u32 p.1.1 ∧ length (av_bytes p.2) = 8%nat ∧ is_Some (param_value p.1.2 p.2).
Definition event_good (e : event) : Prop :=
  match e with
  | Event _ _ flags ps => Z.land (u32 flags) PM_EVENT_FLAG_MISSED = 0 ∧ Forall param_good ps
  | Missed _ _ _ => True
  end.
(** What the client is to get. *)
Definition atom_vset (p : Z * Z * pmAtomValue) : pmValueSet :=
  let src := match param_value p.1.2 p.2 with Some (src, _) => src | None => [] end in
  if (p.1.2 =? PM_TYPE_32) || (p.1.2 =? PM_TYPE_U32)
  then EventUnpack.single p.1.1 PM_VAL_INSITU (Lval (s32 (le_combine src)))
  else EventUnpack.single p.1.1 PM_VAL_DPTR (Pval (mkVB p.1.2 src)).
Definition event_result (pmid_flags pmid_missed : Z) (e : event) : pmResult :=
  match e with
  | Event sec usec flags ps =>
      mkResult (s32 sec) (s32 usec)
        ((if u32 flags =? 0 then [] else [EventUnpack.single pmid_flags PM_VAL_INSITU (Lval (s32 flags))])
         ++ (atom_vset <$> ps))
  | Missed sec usec n =>
      mkResult (s32 sec) (s32 usec)
        [EventUnpack.single pmid_flags PM_VAL_INSITU (Lval (s32 PM_EVENT_FLAG_MISSED));
         EventUnpack.single pmid_missed PM_VAL_INSITU (Lval (s32 n))]
  end.

Definition is_packed (p : Z * Z * pmAtomValue) (ep : eparam) : Prop :=
  ∃ src pad space, param_value p.1.2 p.2 = Some (src, space) ∧ ep = packed p.1.1 p.1.2 src pad ∧ zlen pad = space - zlen src.
Lemma param_space_nonneg p : param_good p → 8 <= param_space p.
Proof.
  intros (_ & Hl & [[src space] Hv]). unfold param_space. rewrite Hv.
  destruct (param_value_space _ _ _ _ Hl Hv) as (_ & ? & _). lia.
Qed.
Lemma params_size_nonneg ps : Forall param_good ps → 8 * zlen ps <= sum (param_space <$> ps).
Proof. induction 1 as [|p ps Hp _ IH]; [done |]. apply param_space_nonneg in Hp. rewrite fmap_cons. simpl. lia. Qed.

Lemma packed_size p ep : is_packed p ep → zlen (eparam_bytes le32 host_val ep) = param_space p.
Proof.
  intros (src & pad & space & Hv & -> & Hpad). unfold param_space. rewrite Hv.
  unfold eparam_bytes, host_val, packed. cbn [ep_pmid ep_bytes]. lens.
Qed.
Lemma packed_ok p ep :
  param_good p → is_packed p ep → param_space p < 2^24 → param_ok ep ∧ param_vset ep = atom_vset p.
Proof.
  intros (Hid & Hl & _) (src & pad & space & Hv & -> & Hpad) Hs. unfold param_space in Hs. rewrite Hv in Hs.
  destruct p as [[pmid type] avp]. cbn [fst snd] in *. destruct (param_value_space _ _ _ _ Hl Hv) as (Ht & Hsp & Hsz).
  assert (psize (packed pmid type src pad) = zlen src ∧ (swab_size type <= length src)%nat) as [Hps Hsw].
  { unfold psize, packed, swab_size, PM_VAL_HDR_SIZE. cbn [ep_type ep_len]. revert Hv. unfold param_value.
    assert (∀ k : nat, (k <= 8)%nat → zlen (take k (av_bytes avp)) = Z.of_nat k) as Htk by (intros; lens).
    destruct ((type =? PM_TYPE_32) || _); [intros [= <- _]; rewrite Htk by lia; split; [done | lens] |].
    destruct ((type =? PM_TYPE_64) || _); [intros [= <- _]; rewrite Htk by lia; split; [done | lens] |].
    destruct (type =? PM_TYPE_FLOAT) eqn:Ef; [intros [= <- _]; rewrite Htk by lia; split; [done |] |].
    { apply Z.eqb_eq in Ef as ->. simpl. lens. }
    destruct (type =? PM_TYPE_DOUBLE); [intros [= <- _]; rewrite Htk by lia; split; [done | lens] |].
    intros _. split; lia. }
  split.
  - split_and!; [| unfold packed, PM_TYPE_AGGREGATE, PM_TYPE_AGGREGATE_STATIC in *; simpl; lia | rewrite Hps; simpl; lens ..].
    unfold eparam_wf, packed, PM_TYPE_AGGREGATE in *. cbn [ep_type ep_len ep_bytes]. split_and!; [lia | lia | lia | lia | lens | lens].
  - unfold param_vset, atom_vset. cbn [fst snd]. rewrite Hv, Hps. unfold packed.
    cbn [ep_type ep_bytes ep_pmid]. rewrite Nat2Z.id, take_app_length, (u32_id pmid) by done. done.
Qed.

Lemma pack_params_ok idx l sec usec flags ps : ∀ eps bufs,
  (∃ bp, find_buf idx bufs = Some bp ∧ rep (l ++ [mkErecord sec usec flags (zlen eps) eps]) bp) →
  Forall param_good ps →
  8 + sum (param_space <$> ps) + zlen (bytes_of (l ++ [mkErecord sec usec flags (zlen eps) eps])) < 2^29 →
  ∃ bufs' eps', pack_params idx ps bufs = Ok bufs' ∧ Forall2 is_packed ps eps'
    ∧ leaves idx bufs bufs' (l ++ [mkErecord sec usec flags (zlen (eps ++ eps')) (eps ++ eps')]).
Proof.
  induction ps as [|[[pmid type] avp] ps IH]; intros eps bufs (bp & Hf & Hr) Hg Hroom; cbn [pack_params].
  { exists bufs, []. rewrite app_nil_r. split_and!; [done | constructor |]. split; [by exists bp | done]. }
  apply Forall_cons in Hg as [Hp Hg]. pose proof (params_size_nonneg ps Hg) as Hsum. destruct Hp as (Hid & Hl & [[src space] Hv]).
  cbn [fst snd] in *. rewrite fmap_cons in Hroom. unfold param_space in Hroom at 1. cbn [fst snd sum foldr] in Hroom.
  rewrite Hv in Hroom. fold (sum (param_space <$> ps)) in Hroom.
  destruct (add_param_ok idx bp bufs l sec usec flags eps pmid type avp src space Hf Hr Hl Hv) as (bufs1 & pad & -> & Hpad & Hlv);
    [lia |].
  cbn [must mbind res_bind]. destruct (Z.ltb_spec 0 0); [lia |]. cbn [mbind res_bind].
  replace (zlen eps + 1) with (zlen (eps ++ [packed pmid type src pad])) in Hlv by lens.
  pose proof (packed_size (pmid, type, avp) (packed pmid type src pad)) as Hsz. unfold param_space in Hsz. cbn [fst snd] in Hsz.
  rewrite Hv in Hsz. specialize (Hsz ltac:(exists src, pad, space; by cbn)).
  destruct (IH (eps ++ [packed pmid type src pad]) bufs1) as (bufs2 & eps' & E & Hps & Hlv2); [apply Hlv | done | |].
  { revert Hroom. rewrite !bytes_of_snoc, !length_app. unfold erecord_bytes. cbn [er_sec er_usec er_flags er_nparams er_params].
    rewrite fmap_app, concat_app. change (concat (_ <$> [?x])) with (eparam_bytes le32 host_val x ++ []).
    rewrite app_nil_r. rewrite !length_app, !length_le32. lia. }
  rewrite <- app_assoc in Hlv2. exists bufs2, (packed pmid type src pad :: eps'). split_and!; [done | | by eapply leaves_trans].
  constructor; [| done]. by exists src, pad, space.
Qed.

Lemma record_of_params sec usec flags ps eps :
  Forall param_good ps → Forall2 is_packed ps eps → Z.land (u32 flags) PM_EVENT_FLAG_MISSED = 0 →
  sum (param_space <$> ps) < 2^24 - 16 →
  let r := mkErecord (s32 sec) (s32 usec) flags (zlen eps) eps in
  record_ok r ∧ zlen (erecord_bytes le32 host_val r) = 16 + sum (param_space <$> ps)
  ∧ ∀ pf pm, record_result pf pm r = event_result pf pm (Event sec usec flags ps).
Proof.
  intros Hg Hp Hm Hs. pose proof (params_size_nonneg ps Hg) as Hn. pose proof (Forall2_length _ _ _ Hp) as Hlen.
  assert (Forall param_ok eps ∧ param_vset <$> eps = atom_vset <$> ps
    ∧ zlen (concat (eparam_bytes le32 host_val <$> eps)) = sum (param_space <$> ps)) as (Hok & Hvs & Hsz).
  { clear Hlen Hn. induction Hp as [|p ep ps eps Hp _ IH]; [done |]. apply Forall_cons in Hg as [Hg1 Hg].
    pose proof (params_size_nonneg ps Hg) as Hn. rewrite !fmap_cons in *. cbn [sum foldr concat] in *.
    fold (sum (param_space <$> ps)) in *. pose proof (packed_size _ _ Hp).
    destruct (packed_ok p ep Hg1 Hp) as [O1 O2]; [lia |]. pose proof (param_space_nonneg p Hg1).
    destruct (IH Hg) as (I1 & I2 & I3); [lia |]. split_and!; [by constructor | by rewrite O2, I2 |]. lens. }
  intros r. assert (s32 (zlen eps) = zlen eps) as Es by (apply s32_id; split; lia).
  split_and!.
  - split_and!; [split | done | simpl; lia |].
    + unfold r, record_nparams. cbn [er_flags er_nparams er_params]. rewrite Hm, Z.eqb_refl, s32_u32, Es. lia.
    + eapply Forall_impl; [exact Hok |]. by intros ? [? _].
    + unfold r. cbn [er_flags er_nparams]. rewrite Hm, Z.eqb_refl, Es. lia.
  - unfold r, erecord_bytes. cbn [er_params]. lens.
  - intros pf pm. unfold r, record_result. cbn [er_sec er_usec er_flags er_nparams er_params]. rewrite Hm, Z.eqb_refl, Hvs.
    unfold event_result. rewrite !(s32_id (s32 _)) by apply s32_range. by destruct (_ =? 0).
Qed.
(** The record that is in the buffer for an event. *)
Definition event_packed (e : event) (r : erecord) : Prop :=
  record_ok r ∧ zlen (erecord_bytes le32 host_val r) = event_size e
  ∧ ∀ pf pm, record_result pf pm r = event_result pf pm e.
Lemma pack_event_ok idx e l bufs :
  (∃ bp, find_buf idx bufs = Some bp ∧ rep l bp) → event_good e → event_size e < 2^24 →
  8 + event_size e + zlen (bytes_of l) < 2^29 →
  ∃ bufs' r, pack_event idx e bufs = Ok bufs' ∧ event_packed e r ∧ leaves idx bufs bufs' (l ++ [r]).
Proof.
  intros (bp & Hf & Hr) Hg Hsz Hroom. destruct e as [sec usec flags ps | sec usec n]; cbn [pack_event event_good event_size] in *.
  - destruct Hg as [Hm Hg]. pose proof (params_size_nonneg ps Hg) as Hn. unfold pmdaEventAddRecord. rewrite Hf, Hm, Z.eqb_refl.
    cbn [negb]. destruct (add_record_ok idx bp bufs l sec usec flags 0 Hf Hr) as (bufs1 & -> & Hl1); [lia |].
    cbn [must mbind res_bind]. destruct (Z.ltb_spec 0 0); [lia |]. cbn [mbind res_bind].
    destruct (pack_params_ok idx l (s32 sec) (s32 usec) flags ps [] bufs1) as (bufs2 & eps & E & Hps & Hl2);
      [apply Hl1 | done | |].
    { rewrite bytes_of_snoc. unfold erecord_bytes. simpl. rewrite app_nil_r. lens. }
    rewrite app_nil_l in Hl2. destruct (record_of_params sec usec flags ps eps Hg Hps Hm) as (? & ? & ?); [lia |].
    eexists _, _. split_and!; [exact E | | by eapply leaves_trans]. by split_and!.
  - unfold pmdaEventAddMissedRecord. rewrite Hf.
    destruct (add_record_ok idx bp bufs l sec usec PM_EVENT_FLAG_MISSED n Hf Hr) as (bufs1 & -> & Hl1); [lia |].
    cbn [must mbind res_bind]. destruct (Z.ltb_spec 0 0); [lia |]. eexists _, _. split_and!; [done | | done].
    split_and!; [by repeat split | done |]. intros pf pm. unfold record_result, event_result.
    cbn [er_sec er_usec er_flags er_nparams er_params]. by rewrite !(s32_id (s32 _)) by apply s32_range.
Qed.
Lemma pack_events_ok idx es : ∀ l bufs,
  (∃ bp, find_buf idx bufs = Some bp ∧ rep l bp) → Forall event_good es →
  8 + sum (event_size <$> es) + zlen (bytes_of l) < 2^24 →
  ∃ bufs' rs, pack_events idx es bufs = Ok bufs' ∧ Forall2 event_packed es rs ∧ leaves idx bufs bufs' (l ++ rs).
Proof.
  induction es as [|e es IH]; intros l bufs Hb Hg Hroom; cbn [pack_events].
  { exists bufs, []. rewrite app_nil_r. split_and!; [done | constructor |]. by split. }
  apply Forall_cons in Hg as [He Hg]. rewrite fmap_cons in Hroom. cbn [sum foldr] in Hroom. fold (sum (event_size <$> es)) in Hroom.
  assert (0 <= sum (event_size <$> es)) as Hn.
  { clear -Hg. induction Hg as [|e es He _ IH]; [done |]. rewrite fmap_cons. cbn [sum foldr]. fold (sum (event_size <$> es)).
    destruct e; simpl in *; [destruct He as [_ He]; pose proof (params_size_nonneg _ He); lia | lia]. }
  assert (16 <= event_size e) as He16.
  { destruct e; simpl in *; [destruct He as [_ He]; pose proof (params_size_nonneg _ He); lia | lia]. }
  destruct (pack_event_ok idx e l bufs Hb He) as (bufs1 & r & -> & Hr & Hl1); [lia | lia |].
  cbn [mbind res_bind]. destruct (IH (l ++ [r]) bufs1) as (bufs2 & rs & E & Hrs & Hl2); [apply Hl1 | done | |].
  { rewrite bytes_of_snoc, length_app. destruct Hr as (_ & Hr & _). lia. }
  exists bufs2, (r :: rs). split_and!; [exact E | by constructor |]. rewrite <- app_assoc in Hl2. by eapply leaves_trans.
Qed.
End pack.
End Pack.

Import EventPack EventUnpack Unpack Pack.

Lemma has_start b x : has b 0 x → b = x ++ drop (length x) b.
Proof. intros (_ & _ & Hg). unfold get in Hg. simpl in Hg. rewrite drop_0 in Hg. rewrite <- Hg at 1. by rewrite take_drop. Qed.
Lemma get_addr_ok idx bufs l :
  (∃ bp, find_buf idx bufs = Some bp ∧ rep l bp) → 8 + zlen (erecords_bytes le32 host_val l) < 2^24 →
  let v := mkVB PM_TYPE_EVENT (le32 (zlen l) ++ erecords_bytes le32 host_val l) in
  ∃ rest bufs', pmdaEventGetAddr idx bufs = Ok (Some (vb_bytes v ++ rest), bufs') ∧ leaves idx bufs bufs' l.
Proof.
  intros (bp & Hf & [Hu Hs Hp Hm Hr]) Hlen v. unfold pmdaEventGetAddr. rewrite Hf.
  destruct (on_mem_wp (store32 0 (vb_word (e_ptr bp) PM_TYPE_EVENT)) bp
    (λ b, length b = length (e_mem bp) ∧ has b 0 (vb_bytes v))) as (b & -> & Hb & Hb2).
  { wp1. split; [done |]. unfold vb_bytes, vlen, PM_VAL_HDR_SIZE. cbn [vbuf vtype v]. rewrite length_app, length_le32.
    replace (4 + Z.of_nat _) with (e_ptr bp) by lia. rewrite has_app. split; [done | has_tac]. }
  cbn [mbind res_bind e_mem]. eexists (drop (length (vb_bytes v)) b), _. rewrite <- (has_start _ _ Hb2). split; [done |].
  eapply set_buf_leaves; [done |]. unfold vb_bytes in Hb2. apply has_app in Hb2 as [_ Hb2]. rewrite length_le32 in Hb2.
  split; cbn [e_mem e_ptr e_rec e_inuse]; [done | lia | done | exact Hb2 | done].
Qed.

(** C8. What an agent packs is what a client unpacks.  A new array does not disturb
    the arrays that are in use; the records and parameters added to it, whatever the
    growth of its buffer, make up a well-formed value block, which can travel in a
    result; and from that block a client gets, record by record, the time stamp, the
    flags or the number of missed events, and the value of each parameter, whatever
    memory follows the block. *)
Theorem event_roundtrip junk bufs es :
  Forall event_good es → 8 + sum (event_size <$> es) < 2^24 →
  ∃ idx bufs1 bufs2 v rest bufs3,
    pmdaEventNewArray junk bufs = Ok (idx, bufs1) ∧ pack_events junk idx es bufs1 = Ok bufs2
    ∧ pmdaEventGetAddr idx bufs2 = Ok (Some (vb_bytes v ++ rest), bufs3)
    ∧ find_buf idx bufs = None ∧ (∀ j, j ≠ idx → find_buf j bufs3 = find_buf j bufs)
    ∧ vb_wf v ∧ vtype v = PM_TYPE_EVENT
    ∧ ∀ pf pm numval valfmt more, 1 <= numval → valfmt = PM_VAL_DPTR ∨ valfmt = PM_VAL_SPTR →
        pmUnpackEventRecords pf pm numval valfmt (vb_bytes v ++ more) = Ok (event_result pf pm <$> es, vb_bytes v ++ more).
Proof.
  intros Hg Hsz. destruct (new_ok junk bufs) as (idx & bufs1 & E1 & Hfree & Hl1).
  destruct (pack_events_ok junk idx es [] bufs1) as (bufs2 & rs & E2 & Hrs & Hl2); [apply Hl1 | done | simpl; lia |].
  rewrite app_nil_l in Hl2.
  assert (Forall record_ok rs ∧ zlen (erecords_bytes le32 host_val rs) = sum (event_size <$> es)
    ∧ ∀ pf pm, record_result pf pm <$> rs = event_result pf pm <$> es) as (Hok & Hlen & Hres).
  { clear -Hrs. induction Hrs as [|e r es rs (Ho & Hs & Hr) _ (I1 & I2 & I3)]; [done |].
    unfold erecords_bytes in *. rewrite !fmap_cons. cbn [sum foldr concat]. fold (sum (event_size <$> es)).
    split_and!; [by constructor | rewrite length_app; lia |]. intros pf pm. by rewrite !fmap_cons, Hr, I3. }
  destruct (get_addr_ok idx bufs2 rs) as (rest & bufs3 & E3 & Hl3); [apply Hl2 | lia |].
  set (v := mkVB _ _) in *. exists idx, bufs1, bufs2, v, rest, bufs3.
  assert (zlen rs < 2^24) as Hrl by (pose proof (bytes_of_length rs); lia).
  assert (vlen v < 2^24) as Hvl.
  { unfold vlen, PM_VAL_HDR_SIZE. cbn [vbuf v]. rewrite length_app, length_le32. lia. }
  split_and!; [done | done | done | done | | | done |].
  - intros j Hj. rewrite (proj2 Hl3), (proj2 Hl2), (proj2 Hl1); done.
  - split_and!; [done | done | done | apply Nat.le_0_l |]. intros _. exists rs. split_and!; [| lia | done].
    eapply Forall_impl; [exact Hok |]. by intros ? [? _].
  - intros pf pm numval valfmt more Hn Hf.
    assert (array_at (vb_bytes v ++ more) rs) as Ha.
    { split; [lia |]. apply has_more. unfold vb_bytes, vlen, PM_VAL_HDR_SIZE. cbn [vbuf vtype v].
      rewrite length_app, length_le32. replace (4 + Z.of_nat (4 + _)) with (8 + zlen (erecords_bytes le32 host_val rs)) by lia.
      split_and!; [done | lia |]. unfold get. simpl. rewrite drop_0. apply take_ge. lia. }
    destruct (wp_noerr_run _ _ _ (unpack_array pf pm noerr numval valfmt rs _ Ha Hok Hn Hf)) as (a & b & E & -> & ->).
    by rewrite E, Hres.
Qed.

(** Whatever a value that claims to be an event array holds, the integrity check
    reads no memory outside of the value, returns and leaves it alone. *)
Lemma event_check_safe numval valfmt b w :
  load32 0 b = Ok (w, b) → vb_vlen w <= zlen b →
  wp (__pmCheckEventRecords numval valfmt) (λ e, e < 0) (λ a b', a = 0 ∧ b' = b) b.
Proof.
  intros Hw Hlen. unfold __pmCheckEventRecords. destruct (Z.ltb_spec numval 1).
  { destruct (Z.ltb_spec numval 0); [by apply wp_fail | by apply wp_ret]. }
  wp1. wp1; [done |]. wp1. eapply wp_ok; [exact Hw |]. wp1. wp1; [done |]. wp1. wp1; [done |].
  unfold PM_VAL_HDR_SIZE in *. wp1. wp1. wp1. wp1; [done |]. wp1.
  eapply wp_mono; [| apply check_records_safe; [| lia | exact Hlen]].
  - intros ? ? [-> _]. by wp1.
  - by intros e [-> | ->].
Qed.

(** An array of one record. *)
Definition one_record (flags nparams : Z) (params : buf) : buf :=
  le32 (vb_word (24 + zlen params) PM_TYPE_EVENT) ++ le32 1 ++ le32 0 ++ le32 0 ++ le32 flags ++ le32 nparams ++ params.
(** Three arrays that pass the integrity check and crash the client: a parameter
    whose length is less than that of its header, a 64-bit parameter with room for
    32 bits, and a record with a negative number of parameters. *)
Lemma unpack_faults :
  let crash b := __pmCheckEventRecords 1 PM_VAL_DPTR b = Ok (0, b)
                 ∧ pmUnpackEventRecords 1 2 1 PM_VAL_DPTR b = Fault in
  crash (one_record 0 1 (le32 7 ++ le32 (vb_word 0 PM_TYPE_STRING)))
  ∧ crash (one_record 0 1 (le32 7 ++ le32 (vb_word 4 PM_TYPE_64)))
  ∧ crash (one_record 0 (-1) []).
Proof. vm_compute. split_and!; reflexivity. Qed.

Definition demo_events : list event :=
  [Event 1400000000 17 0 [(29, PM_TYPE_32, mkAtom (replicate 8 Byte.x05) [] (mkVB 0 []));
                          (30, PM_TYPE_STRING, mkAtom (replicate 8 Byte.x00) [Byte.x61; Byte.x62; Byte.x63] (mkVB 0 []))];
   Missed 1400000001 3 12].
Lemma event_roundtrip_witness :
  ∃ idx bufs1 bufs2 v rest bufs3, pmdaEventNewArray (λ _, Byte.x7e) [] = Ok (idx, bufs1)
    ∧ pack_events (λ _, Byte.x7e) idx demo_events bufs1 = Ok bufs2
    ∧ pmdaEventGetAddr idx bufs2 = Ok (Some (vb_bytes v ++ rest), bufs3)
    ∧ pmUnpackEventRecords 1 2 1 PM_VAL_DPTR (vb_bytes v) = Ok (event_result 1 2 <$> demo_events, vb_bytes v).
Proof.
  destruct (event_roundtrip (λ _, Byte.x7e) [] demo_events) as (i & b1 & b2 & v & rest & b3 & E1 & E2 & E3 & _ & _ & _ & _ & Hu).
  - repeat constructor; simpl; try done; by eexists.
  - by vm_compute.
  - exists i, b1, b2, v, rest, b3. split_and!; [exact E1 | exact E2 | exact E3 |].
    specialize (Hu 1 2 1 PM_VAL_DPTR [] ltac:(lia) ltac:(by left)). by rewrite app_nil_r in Hu.
Defined.
Lemma event_check_safe_witness :
  wp (__pmCheckEventRecords 1 PM_VAL_DPTR) (λ e, e < 0) (λ a b', a = 0 ∧ b' = one_record 0 9 []) (one_record 0 9 []).
Proof.
  apply (event_check_safe 1 PM_VAL_DPTR (one_record 0 9 []) (vb_word 24 PM_TYPE_EVENT)); [by vm_compute |].
  vm_compute. discriminate.
Defined.
