(* ===== verification/Queues.v ===== *)
(** Event queues of an agent, src/libpcp_pmda/src/queues.c: events that are kept, up
    to a limit of memory, until the clients that are interested have fetched them.

    A queue holds its events in order; an event is known by the identity [ev_id] of
    its memory.  [last] is the pointer of a client into a queue.  The state also has
    the event arrays of [EventPack], into which a fetch packs the events with the
    decoder of the agent. *)
From S2P Require Import Prelude Memory Types PduIO PduSimple PduInstance ValueBlock PduResult Events.
Import EventPack.

Definition EEXIST : Z := 17.
Definition ESRCH : Z := 3.
Definition PMDA_FETCH_NOVALUES : Z := 0.
Definition PMDA_FETCH_STATIC : Z := 1.

Module Queues.
Record event_t := mkEvent { ev_id : nat; ev_time : Z * Z; ev_count : Z; ev_buffer : buf }.
Definition ev_size (e : event_t) : Z := zlen (ev_buffer e).
Record event_queue_t := mkQueue {
  q_name : buf; maxmemory : Z; q_inuse : bool; eventarray : Z; numclients : Z;
  q_count : Z; q_bytes : Z; qsize : Z; tailq : list event_t }.
(** [filter]: the filter with the callback that applies it. *)
Record event_clientq_t := mkClientq {
  active : bool; missed : Z; access : Z; last : option nat; filter : option (buf → Z) }.
Record event_client_t := mkClient { context : Z; c_inuse : bool; clientq : list event_clientq_t }.
Record state := mkState {
  queues : list event_queue_t; clients : list event_client_t; arrays : list bufctl_t; fresh : nat }.

Definition no_clientq : event_clientq_t := mkClientq false 0 0 None None.
Definition no_client : event_client_t := mkClient 0 false [].
Definition init : state := mkState [] [] [] 0.

Definition set_queues (l : list event_queue_t) (st : state) : state := mkState l (clients st) (arrays st) (fresh st).
Definition set_clients (l : list event_client_t) (st : state) : state := mkState (queues st) l (arrays st) (fresh st).
Definition set_arrays (l : list bufctl_t) (st : state) : state := mkState (queues st) (clients st) l (fresh st).
Definition set_events (qsz : Z) (l : list event_t) (q : event_queue_t) : event_queue_t :=
  mkQueue (q_name q) (maxmemory q) (q_inuse q) (eventarray q) (numclients q) (q_count q) (q_bytes q) qsz l.
Definition set_numclients (n : Z) (q : event_queue_t) : event_queue_t :=
  mkQueue (q_name q) (maxmemory q) (q_inuse q) (eventarray q) n (q_count q) (q_bytes q) (qsize q) (tailq q).
Definition set_clientq (l : list event_clientq_t) (c : event_client_t) : event_client_t := mkClient (context c) (c_inuse c) l.

(** ** Looking up queues and clients *)

Definition queue_lookup (handle : Z) (st : state) : option event_queue_t :=
  if (zlen (queues st) <=? handle) || (handle <? 0) then None
  else match queues st !! Z.to_nat handle with
  | Some q => if q_inuse q then Some q else None
  | None => None
  end.
(** The slot of a context. *)
Fixpoint client_slot (ctx : Z) (l : list event_client_t) (i : nat) : option nat :=
  match l with
  | [] => None
  | c :: l => if (context c =? ctx) && c_inuse c then Some i else client_slot ctx l (S i)
  end.
Definition client_lookup (ctx : Z) (st : state) : option nat := client_slot ctx (clients st) 0.
(** Slot and queue of the client, and the state with the slots made for it. *)
Definition client_queue_lookup (ctx handle : Z) (accessq : bool) (st : state) : option (nat * nat) * state :=
  match client_lookup ctx st, queue_lookup handle st with
  | Some i, Some _ =>
      match clients st !! i with
      | Some c =>
          if handle <? zlen (clientq c) then (Some (i, Z.to_nat handle), st)
          else if negb accessq then (None, st)
          else
            let more := replicate (Z.to_nat (handle + 1) - length (clientq c)) no_clientq in
            (Some (i, Z.to_nat handle), set_clients (<[i := set_clientq (clientq c ++ more) c]> (clients st)) st)
      | None => (None, st)
      end
  | _, _ => (None, st)
  end.
Definition get_clientq (p : nat * nat) (st : state) : option event_clientq_t :=
  clients st !! p.1 ≫= λ c, clientq c !! p.2.
Definition put_clientq (p : nat * nat) (cq : event_clientq_t) (st : state) : state :=
  match clients st !! p.1 with
  | Some c => set_clients (<[p.1 := set_clientq (<[p.2 := cq]> (clientq c)) c]> (clients st)) st
  | None => st
  end.
Definition put_queue (handle : Z) (q : event_queue_t) (st : state) : state :=
  set_queues (<[Z.to_nat handle := q]> (queues st)) st.

(** ** Dropping events *)

(** [queue_drop]: [next] is the event after the one that goes. *)
Definition queue_drop (event : nat) (next : option nat) (cq : event_clientq_t) : event_clientq_t :=
  if bool_decide (last cq = Some event)
  then mkClientq (active cq) (missed cq + 1) (access cq) next (filter cq) else cq.
(** [client_iterate], from slot [i] on. *)
Fixpoint client_iterate (visit : event_clientq_t → event_clientq_t) (handle : Z) (l : list event_client_t) (i : nat)
    (st : state) : state :=
  match l with
  | [] => st
  | c :: l =>
      let st :=
        if negb (c_inuse c) then st
        else match client_queue_lookup (context c) handle false st with
        | (Some p, st) =>
            match get_clientq p st with
            | Some cq => if active cq then put_clientq p (visit cq) st else st
            | None => st
            end
        | (None, st) => st
        end in
      client_iterate visit handle l (S i) st
  end.
(** The events [l] of the queue, first one first. *)
Fixpoint drop_events (handle bytes : Z) (q : event_queue_t) (l : list event_t) (st : state) : event_queue_t * state :=
  match l with
  | [] => (set_events (qsize q) [] q, st)
  | ev :: rest =>
      if bytes <=? u64 (maxmemory q - qsize q) then (set_events (qsize q) l q, st)
      else
        let st := client_iterate (queue_drop (ev_id ev) (ev_id <$> head rest)) handle (clients st) 0 st in
        drop_events handle bytes (set_events (u64 (qsize q - ev_size ev)) rest q) rest st
  end.
Definition queue_drop_bytes (handle : Z) (q : event_queue_t) (bytes : Z) (st : state) : event_queue_t * state :=
  drop_events handle bytes q (tailq q) st.

(** ** Operations *)

Fixpoint find_name (name : buf) (l : list event_queue_t) (i : Z) : option Z :=
  match l with
  | [] => None
  | q :: l => if q_inuse q && bool_decide (q_name q = name) then Some i else find_name name l (i + 1)
  end.
Fixpoint free_queue (l : list event_queue_t) : nat :=
  match l with [] => O | q :: l => if q_inuse q then S (free_queue l) else O end.
(** [for (i = 0; i < numqueues; i++) queue_drop_bytes(i, &queues[i], INT_MAX)], and
    the lists that are initialised again. *)
Fixpoint tear_down (l : list event_queue_t) (i : Z) (st : state) : state :=
  match l with
  | [] => st
  | q :: l =>
      let '(q, st) := queue_drop_bytes i q INT_MAX st in
      tear_down l (i + 1) (put_queue i (set_events (qsize q) [] q) st)
  end.
Definition new_queue (name : buf) (maxmem array nclients : Z) : event_queue_t :=
  mkQueue name maxmem true array nclients 0 0 0 [].
Definition pmdaEventNewActiveQueue (junk : nat → byte) (name : option buf) (maxmem nclients : Z) (st : state) : res (Z * state) :=
  match name with
  | None => Ok (- EINVAL, st)
  | Some name =>
      if maxmem <=? 0 then Ok (- EINVAL, st)
      else match find_name name (queues st) 0 with
      | Some _ => Ok (- EEXIST, st)
      | None =>
          let i := free_queue (queues st) in
          let st := if (i =? length (queues st))%nat
                    then let st := tear_down (queues st) 0 st in
                         set_queues (queues st ++ [new_queue [] 0 0 0]) st
                    else st in
          '(array, arr) ← pmdaEventNewArray junk (arrays st);
          let st := set_arrays arr st in
          Ok (Z.of_nat i, put_queue (Z.of_nat i) (new_queue name maxmem array nclients) st)
      end
  end.
Definition pmdaEventNewQueue (junk : nat → byte) (name : option buf) (maxmem : Z) (st : state) : res (Z * state) :=
  pmdaEventNewActiveQueue junk name maxmem 0 st.
Definition pmdaEventQueueHandle (name : buf) (st : state) : Z :=
  match find_name name (queues st) 0 with Some i => i | None => - ESRCH end.

Definition queue_stat (f : event_queue_t → Z) (handle : Z) (st : state) : Z * option Z :=
  match queue_lookup handle st with
  | None => (- EINVAL, None)
  | Some q => (PMDA_FETCH_STATIC, Some (f q))
  end.
Definition pmdaEventQueueCounter := queue_stat q_count.
Definition pmdaEventQueueClients := queue_stat numclients.
Definition pmdaEventQueueMemory := queue_stat qsize.
Definition pmdaEventQueueBytes := queue_stat q_bytes.

Definition account (bytes : Z) (q : event_queue_t) : event_queue_t :=
  mkQueue (q_name q) (maxmemory q) (q_inuse q) (eventarray q) (numclients q)
    (u32 (q_count q + 1)) (u64 (q_bytes q + bytes)) (qsize q) (tailq q).
Definition pmdaEventQueueAppend (handle : Z) (data : buf) (tv : Z * Z) (st : state) : Z * state :=
  match queue_lookup handle st with
  | None => (- EINVAL, st)
  | Some q =>
      let bytes := zlen data in
      if maxmemory q <? bytes then (0, put_queue handle (account bytes q) st)
      else
        let '(q, st) := queue_drop_bytes handle q bytes st in
        if numclients q =? 0 then (0, put_queue handle (account bytes q) st)
        else
          let ev := mkEvent (fresh st) tv (s32 (numclients q)) data in
          let q := set_events (u64 (qsize q + bytes)) (tailq q ++ [ev]) q in
          (0, mkState (<[Z.to_nat handle := account bytes q]> (queues st)) (clients st) (arrays st) (S (fresh st)))
  end.

Definition queue_filter (cq : event_clientq_t) (data : buf) : Z :=
  match filter cq with
  | Some apply => apply data
  | None => if access cq =? 0 then - PM_ERR_PERMISSION else 0
  end.
(** The event after it was used once more. *)
Definition use_event (ev : event_t) (q : event_queue_t) : event_queue_t :=
  if ev_count ev - 1 <=? 0
  then set_events (u64 (qsize q - ev_size ev)) (List.filter (λ e, negb (ev_id e =? ev_id ev)%nat) (tailq q)) q
  else set_events (qsize q)
         ((λ e, if (ev_id e =? ev_id ev)%nat then mkEvent (ev_id e) (ev_time e) (ev_count e - 1) (ev_buffer e) else e) <$> tailq q) q.
(** The events from a pointer on; a pointer to memory that is no longer in the
    queue is not followed. *)
Fixpoint events_from (p : nat) (l : list event_t) : res (list event_t) :=
  match l with
  | [] => Fault
  | e :: l => if (ev_id e =? p)%nat then Ok (e :: l) else events_from p l
  end.

Section fetch.
(** [queue_decoder]: it packs the event into the array and returns the number of
    records, or an error. *)
Context (junk : nat → byte) (decoder : Z → buf → Z * Z → list bufctl_t → Z * list bufctl_t) (now : Z * Z).

(** Status, number of records, queue and arrays. *)
Fixpoint fetch_loop (cq : event_clientq_t) (key : Z) (l : list event_t) (records : Z) (q : event_queue_t) (arr : list bufctl_t)
    : Z * Z * event_queue_t * list bufctl_t :=
  match l with
  | [] => (0, records, q, arr)
  | ev :: l =>
      if negb (queue_filter cq (ev_buffer ev) =? 0) then fetch_loop cq key l records (use_event ev q) arr
      else
        let '(sts, arr) := decoder key (ev_buffer ev) (ev_time ev) arr in
        if sts <? 0 then (sts, records, q, arr)
        else fetch_loop cq key l (records + sts) (use_event ev q) arr
  end.
(** Status, the array that is returned if any, the client's queue, the queue and the
    arrays. *)
Definition queue_fetch (q : event_queue_t) (cq : event_clientq_t) (arr : list bufctl_t)
    : res (Z * option buf * event_clientq_t * event_queue_t * list bufctl_t) :=
  let q := if active cq then q else set_numclients (u32 (numclients q + 1)) q in
  let last := match last cq with None => ev_id <$> head (tailq q) | p => p end in
  evs ← match last with None => Ok [] | Some p => events_from p (tailq q) end;
  let key := eventarray q in
  '(_, arr) ← pmdaEventResetArray junk key arr;
  let '(sts, records, q, arr) := fetch_loop cq key evs 0 q arr in
  '(sts, missed, records, arr) ←
    (if sts =? 0 then
       if 0 <? missed cq - 1 then
         '(sts, arr) ← pmdaEventAddMissedRecord junk key now.1 now.2 (missed cq - 1) arr;
         Ok (sts, 0, records + 1, arr)
       else Ok (0, 0, records, arr)
     else Ok (sts, missed cq, records, arr));
  '(vbp, arr) ← (if records =? 0 then Ok (None, arr) else pmdaEventGetAddr key arr);
  Ok (sts, vbp, mkClientq true missed (access cq) None (filter cq), q, arr).

(** Status and [atom->vbp]. *)
Definition pmdaEventQueueRecords (handle ctx : Z) (st : state) : res (Z * option buf * state) :=
  let '(p, st) := client_queue_lookup ctx handle true st in
  match queue_lookup handle st, p ≫= λ p, get_clientq p st with
  | Some q, Some cq =>
      '(sts, vbp, cq, q, arr) ← queue_fetch q cq (arrays st);
      let st := match p with Some p => put_clientq p cq st | None => st end in
      let st := put_queue handle q (set_arrays arr st) in
      Ok ((if negb (sts =? 0) then sts else match vbp with None => PMDA_FETCH_NOVALUES | Some _ => PMDA_FETCH_STATIC end),
          vbp, st)
  | _, _ => Ok (- EINVAL, None, st)
  end.
End fetch.

(** ** Clients *)

(** The events from the client's pointer on are used. *)
Definition queue_cleanup (handle : Z) (cq : event_clientq_t) (st : state) : res state :=
  match queue_lookup handle st with
  | Some q =>
      if active cq then
        evs ← match last cq with None => Ok [] | Some p => events_from p (tailq q) end;
        let q := foldl (λ q ev, use_event ev q) q evs in
        Ok (put_queue handle (set_numclients (u32 (numclients q - 1)) q) st)
      else Ok st
  | None => Ok st
  end.
Fixpoint cleanup_all (l : list event_clientq_t) (i : Z) (st : state) : res state :=
  match l with
  | [] => Ok st
  | cq :: l => st ← queue_cleanup i cq st; cleanup_all l (i + 1) st
  end.
Fixpoint free_client (l : list event_client_t) : nat :=
  match l with [] => O | c :: l => if c_inuse c then S (free_client l) else O end.
Definition pmdaEventNewClient (ctx : Z) (st : state) : Z * state :=
  match client_slot ctx (clients st) 0 with
  | Some i => (Z.of_nat i, st)
  | None =>
      let i := free_client (clients st) in
      let new := mkClient ctx true [] in
      (Z.of_nat i, set_clients (if (i =? length (clients st))%nat then clients st ++ [new] else <[i := new]> (clients st)) st)
  end.
Definition pmdaEventEndClient (ctx : Z) (st : state) : res (Z * state) :=
  match client_lookup ctx st with
  | None => Ok (0, st)
  | Some i =>
      match clients st !! i with
      | Some c =>
          st ← cleanup_all (clientq c) 0 st;
          Ok (0, set_clients (<[i := no_client]> (clients st)) st)
      | None => Ok (0, st)
      end
  end.
Definition pmdaEventClients (st : state) : Z * Z :=
  (PMDA_FETCH_STATIC, zlen (List.filter c_inuse (clients st))).
Definition pmdaEventSetFilter (ctx handle : Z) (apply : option (buf → Z)) (st : state) : Z * state :=
  match client_queue_lookup ctx handle true st with
  | (Some p, st) =>
      match get_clientq p st with
      | Some cq => (0, put_clientq p (mkClientq (active cq) (missed cq) 1 (last cq) apply) st)
      | None => (- EINVAL, st)
      end
  | (None, st) => (- EINVAL, st)
  end.
Definition pmdaEventSetAccess (ctx handle allow : Z) (st : state) : Z * state :=
  match client_queue_lookup ctx handle true st with
  | (Some p, st) =>
      match get_clientq p st with
      | Some cq => (0, put_clientq p (mkClientq (active cq) (missed cq) allow (last cq) (filter cq)) st)
      | None => (- EINVAL, st)
      end
  | (None, st) => (- EINVAL, st)
  end.

(** ** The invariant *)

Definition total (l : list event_t) : Z := foldr (λ e n, ev_size e + n) 0 l.
(** The queue accounts for its events and keeps to its limit. *)
Record queue_ok (bound : nat) (q : event_queue_t) : Prop := {
  qo_limit : 0 <= maxmemory q <= INT_MAX;
  qo_size : qsize q = total (tailq q);
  qo_memory : total (tailq q) <= maxmemory q;
  qo_ids : NoDup (ev_id <$> tailq q);
  qo_fresh : Forall (λ e, (ev_id e < bound)%nat) (tailq q) }.
(** Between calls no client has a pointer into a queue, and none has missed an
    event. *)
Definition clientq_ok (cq : event_clientq_t) : Prop := last cq = None ∧ missed cq = 0.
Definition client_ok (c : event_client_t) : Prop := Forall clientq_ok (clientq c).
Record inv (st : state) : Prop := {
  inv_queues : Forall (queue_ok (fresh st)) (queues st);
  inv_clients : Forall client_ok (clients st) }.

Lemma total_app l1 l2 : total (l1 ++ l2) = total l1 + total l2.
Proof. induction l1 as [|e l IH]; simpl; lia. Qed.
Lemma total_nonneg l : 0 <= total l.
Proof. induction l as [|e l IH]; simpl; unfold ev_size in *; lia. Qed.
Lemma queue_ok_mono n m q : (n <= m)%nat → queue_ok n q → queue_ok m q.
Proof. intros Hle [H1 H2 H3 H4 H5]. split; try done. eapply Forall_impl; [exact H5 |]. simpl. lia. Qed.
Lemma set_numclients_ok n b q : queue_ok b q → queue_ok b (set_numclients n q).
Proof. by intros [?????]. Qed.

Lemma queue_lookup_Some h st q : queue_lookup h st = Some q → 0 <= h < zlen (queues st) ∧ queues st !! Z.to_nat h = Some q ∧ q_inuse q = true.
Proof.
  unfold queue_lookup. destruct (_ || _) eqn:E; [done |]. apply orb_false_iff in E as [E1 E2].
  destruct (queues st !! Z.to_nat h) as [q'|] eqn:El; [| done]. destruct (q_inuse q') eqn:Eu; [| done].
  intros [= <-]. split; [lia | done].
Qed.
Lemma inv_queue st h q : inv st → queue_lookup h st = Some q → queue_ok (fresh st) q.
Proof. intros [Hq _] (_ & Hl & _)%queue_lookup_Some. by eapply Forall_lookup_1. Qed.
Lemma inv_put_queue st h q : inv st → queue_ok (fresh st) q → inv (put_queue h q st).
Proof. intros [Hq Hc] Hok. split; [| done]. simpl. by apply Forall_insert. Qed.
Lemma get_clientq_ok p st cq : Forall client_ok (clients st) → get_clientq p st = Some cq → clientq_ok cq.
Proof.
  intros Hc. unfold get_clientq. intros (c & Hl & Hcq)%bind_Some.
  pose proof (Forall_lookup_1 _ _ _ _ Hc Hl) as Hok. by eapply Forall_lookup_1.
Qed.
Lemma put_clientq_clients p cq st : Forall client_ok (clients st) → clientq_ok cq → Forall client_ok (clients (put_clientq p cq st)).
Proof.
  intros Hc Hok. unfold put_clientq. destruct (clients st !! p.1) as [c|] eqn:E; [| done]. simpl.
  apply Forall_insert; [done |]. pose proof (Forall_lookup_1 _ _ _ _ Hc E). by apply Forall_insert.
Qed.
Lemma put_clientq_same p cq st : get_clientq p st = Some cq → put_clientq p cq st = st.
Proof.
  unfold get_clientq. intros (c & Hl & Hcq)%bind_Some. unfold put_clientq. rewrite Hl. destruct st, c. unfold set_clients, set_clientq.
  simpl in *. rewrite (list_insert_id _ _ _ Hcq), (list_insert_id _ _ _ Hl). done.
Qed.
(** The state after a lookup: at most, slots for a client have been made. *)
Lemma client_queue_lookup_spec ctx h acc st p st' :
  client_queue_lookup ctx h acc st = (p, st') →
  queues st' = queues st ∧ arrays st' = arrays st ∧ fresh st' = fresh st
  ∧ (Forall client_ok (clients st) → Forall client_ok (clients st')) ∧ (acc = false → st' = st).
Proof.
  unfold client_queue_lookup. destruct (client_lookup ctx st) as [i|]; [| by intros [= <- <-]].
  destruct (queue_lookup h st); [| by intros [= <- <-]].
  destruct (clients st !! i) as [c|] eqn:E; [| by intros [= <- <-]].
  destruct (h <? zlen (clientq c)); [by intros [= <- <-] |]. destruct acc; [| by intros [= <- <-]].
  intros [= <- <-]. split_and!; [done | done | done | | done]. intros Hc. simpl.
  apply Forall_insert; [done |]. pose proof (Forall_lookup_1 _ _ _ _ Hc E). unfold client_ok. simpl. apply Forall_app.
  split; [done |]. by apply Forall_replicate.
Qed.

(** Dropping events does not concern the clients. *)
Lemma client_iterate_drop e n h l : ∀ i st,
  Forall client_ok (clients st) → client_iterate (queue_drop e n) h l i st = st.
Proof.
  induction l as [|c l IH]; intros i st Hc; cbn [client_iterate]; [done |].
  rewrite IH.
  - destruct (negb (c_inuse c)); [done |]. destruct (client_queue_lookup (context c) h false st) as [p st'] eqn:E.
    destruct (client_queue_lookup_spec _ _ _ _ _ _ E) as (_ & _ & _ & _ & ->); [| done].
    destruct p as [p|]; [| done]. destruct (get_clientq p st) as [cq|] eqn:G; [| done]. destruct (active cq); [| done].
    destruct (get_clientq_ok _ _ _ Hc G) as [Hl _]. unfold queue_drop. rewrite Hl, bool_decide_eq_false_2 by done.
    by apply put_clientq_same.
  - destruct (negb (c_inuse c)); [done |]. destruct (client_queue_lookup (context c) h false st) as [p st'] eqn:E.
    destruct (client_queue_lookup_spec _ _ _ _ _ _ E) as (_ & _ & _ & _ & ->); [| done].
    destruct p as [p|]; [| done]. destruct (get_clientq p st) as [cq|] eqn:G; [| done]. destruct (active cq); [| done].
    destruct (get_clientq_ok _ _ _ Hc G) as [Hl Hm]. apply put_clientq_clients; [done |].
    unfold queue_drop. by rewrite Hl, bool_decide_eq_false_2 by done.
Qed.
(** The oldest events go, and only as many as have to. *)
Lemma drop_events_spec h bytes st : ∀ l q,
  Forall client_ok (clients st) → 0 <= bytes → qsize q = total l → total l <= maxmemory q → maxmemory q <= INT_MAX →
  ∃ k, drop_events h bytes q l st = (set_events (total (drop k l)) (drop k l) q, st)
    ∧ (drop k l = [] ∨ total (drop k l) + bytes <= maxmemory q)
    ∧ ∀ j, (j < k)%nat → (j < length l)%nat ∧ maxmemory q < total (drop j l) + bytes.
Proof.
  induction l as [|ev l IH]; intros q Hc Hb Hs Hm Hmax; cbn [drop_events].
  { exists 0%nat. split_and!; [by rewrite Hs | by left | lia]. }
  pose proof (total_nonneg l) as Hn. simpl in Hs, Hm. assert (0 <= ev_size ev) by (unfold ev_size; lia).
  rewrite u64_id by (unfold INT_MAX in *; lia). destruct (Z.leb_spec bytes (maxmemory q - qsize q)) as [Hle|Hgt].
  - exists 0%nat. split_and!; [by rewrite Hs | right; simpl; lia | lia].
  - rewrite client_iterate_drop by done. rewrite u64_id by (unfold INT_MAX in *; lia).
    destruct (IH (set_events (qsize q - ev_size ev) l q)) as (k & E & Hk & Hj); [done | done | simpl; lia | simpl; lia | done |].
    exists (S k). rewrite E. split_and!; [done | exact Hk |]. intros [|j] Hlt; simpl.
    + split; [lia | lia].
    + destruct (Hj j) as [? ?]; [lia |]. split; [lia | done].
Qed.
Lemma drop_ok b q k : queue_ok b q → queue_ok b (set_events (total (drop k (tailq q))) (drop k (tailq q)) q).
Proof.
  intros [H1 H2 H3 H4 H5]. split; simpl; [done | done | | |].
  - rewrite <- (take_drop k (tailq q)), total_app in H3. pose proof (total_nonneg (take k (tailq q))). lia.
  - rewrite <- (take_drop k (tailq q)), fmap_app in H4. by apply NoDup_app in H4 as (_ & _ & ?).
  - by apply Forall_drop.
Qed.

(** ** Using events *)

Definition used (l : list event_t) : list event_t :=
  omap (λ e, if ev_count e - 1 <=? 0 then None
             else Some (mkEvent (ev_id e) (ev_time e) (ev_count e - 1) (ev_buffer e))) l.
Lemma used_ids l : sublist (ev_id <$> used l) (ev_id <$> l).
Proof.
  induction l as [|e l IH]; [done |]. simpl. destruct (_ <=? 0); simpl; [by apply sublist_cons | by apply sublist_skip].
Qed.
Lemma used_total l : total (used l) <= total l.
Proof. induction l as [|e l IH]; [done |]. simpl. assert (0 <= ev_size e) by (unfold ev_size; lia). destruct (_ <=? 0); simpl; unfold ev_size in *; simpl; lia. Qed.
Lemma used_app l1 l2 : used (l1 ++ l2) = used l1 ++ used l2.
Proof. apply omap_app. Qed.

Lemma without_id id (l : list event_t) : (id ∉ ev_id <$> l) →
  List.filter (λ e, negb (ev_id e =? id)%nat) l = l
  ∧ (λ e, if (ev_id e =? id)%nat then mkEvent (ev_id e) (ev_time e) (ev_count e - 1) (ev_buffer e) else e) <$> l = l.
Proof.
  induction l as [|e l IH]; [done |]. rewrite fmap_cons. intros [Hn1 Hn2]%not_elem_of_cons. simpl.
  destruct (Nat.eqb_spec (ev_id e) id); [congruence |]. simpl. destruct (IH Hn2) as [-> E]. by split; [| f_equal].
Qed.
Lemma use_event_spec ev q pre l :
  tailq q = pre ++ ev :: l → NoDup (ev_id <$> tailq q) → qsize q = total (tailq q) → total (tailq q) <= INT_MAX →
  let l' := pre ++ used [ev] ++ l in use_event ev q = set_events (total l') l' q.
Proof.
  intros Ht Hn Hs Hm. rewrite Ht in *. rewrite fmap_app, fmap_cons in Hn. apply NoDup_app in Hn as (_ & Hn1 & Hn2).
  apply NoDup_cons in Hn2 as [Hn2 _].
  assert (ev_id ev ∉ ev_id <$> pre) as Hn3 by (intros Hin; apply (Hn1 _ Hin); by left).
  destruct (without_id _ _ Hn2) as [F2 M2], (without_id _ _ Hn3) as [F3 M3].
  rewrite total_app in *. simpl total in Hs, Hm. pose proof (total_nonneg pre). pose proof (total_nonneg l).
  assert (0 <= ev_size ev) by (unfold ev_size; lia).
  unfold use_event, used. simpl. rewrite Ht, List.filter_app, fmap_app, fmap_cons. simpl. rewrite Nat.eqb_refl. simpl.
  destruct (ev_count ev - 1 <=? 0); simpl.
  - rewrite F2, F3, Hs, u64_id by (unfold INT_MAX in *; lia). f_equal. rewrite total_app. lia.
  - rewrite M2, M3, Hs. f_equal. rewrite total_app. simpl. unfold ev_size. simpl. done.
Qed.

(** ** What a fetch does *)

Section fetch_spec.
Context (junk : nat → byte) (decoder : Z → buf → Z * Z → list bufctl_t → Z * list bufctl_t) (now : Z * Z).

(** The events that the filter accepts are given to the decoder, until it fails:
    status, number of records, number of events gone through, and arrays. *)
Fixpoint decode_all (cq : event_clientq_t) (key : Z) (l : list event_t) (records : Z) (arr : list bufctl_t)
    : Z * Z * nat * list bufctl_t :=
  match l with
  | [] => (0, records, O, arr)
  | ev :: l =>
      let rest records arr := let '(sts, records, n, arr) := decode_all cq key l records arr in (sts, records, S n, arr) in
      if negb (queue_filter cq (ev_buffer ev) =? 0) then rest records arr
      else
        let '(sts, arr) := decoder key (ev_buffer ev) (ev_time ev) arr in
        if sts <? 0 then (sts, records, O, arr) else rest (records + sts) arr
  end.
Lemma fetch_loop_spec cq key : ∀ l pre records q arr,
  tailq q = pre ++ l → NoDup (ev_id <$> tailq q) → qsize q = total (tailq q) → total (tailq q) <= INT_MAX →
  fetch_loop decoder cq key l records q arr =
    let '(sts, records, n, arr) := decode_all cq key l records arr in
    let l' := pre ++ used (take n l) ++ drop n l in (sts, records, set_events (total l') l' q, arr).
Proof.
  induction l as [|ev l IH]; intros pre records q arr Ht Hn Hs Hm; cbn [fetch_loop decode_all].
  { simpl. rewrite app_nil_r in *. destruct q; simpl in *. unfold set_events. simpl. by rewrite Hs, Ht. }
  pose proof (use_event_spec ev q pre l Ht Hn Hs Hm) as Hu. set (q1 := use_event ev q) in *.
  assert (tailq q1 = (pre ++ used [ev]) ++ l) as Ht1 by (rewrite Hu; simpl; by rewrite <- app_assoc).
  assert (NoDup (ev_id <$> tailq q1)) as Hn1.
  { rewrite Ht1, <- app_assoc. rewrite Ht in Hn. eapply sublist_NoDup; [exact Hn |]. rewrite !fmap_app, fmap_cons.
    apply sublist_app; [done |]. apply (sublist_app _ [ev_id ev]); [apply (used_ids [ev]) | done]. }
  assert (total (tailq q1) <= INT_MAX) as Hm1.
  { rewrite Ht1, !total_app. rewrite Ht, total_app in Hm. pose proof (used_total [ev]). simpl in *. lia. }
  assert (∀ r a, fetch_loop decoder cq key l r q1 a =
    let '(sts, records, n, arr) := decode_all cq key l r a in
    let l' := pre ++ used (take (S n) (ev :: l)) ++ drop (S n) (ev :: l) in (sts, records, set_events (total l') l' q, arr)) as Hrest.
  { intros r a. rewrite (IH (pre ++ used [ev]) r q1 a Ht1 Hn1 ltac:(rewrite Hu; done) Hm1).
    destruct (decode_all cq key l r a) as [[[sts rec] n] a']. simpl take. simpl drop. change (ev :: take n l) with ([ev] ++ take n l).
    rewrite used_app, <- !app_assoc. by rewrite Hu. }
  destruct (negb _); [rewrite Hrest; by destruct (decode_all _ _ _ _ _) as [[[??]?]?] |].
  destruct (decoder _ _ _ _) as [sts arr']. destruct (sts <? 0).
  - simpl. destruct q; simpl in *. unfold set_events. simpl. by rewrite Hs, Ht.
  - rewrite Hrest. by destruct (decode_all _ _ _ _ _) as [[[??]?]?].
Qed.

(** The fetch of a client without a pointer into the queue. *)
Definition fetch_all (q : event_queue_t) (cq : event_clientq_t) (arr : list bufctl_t)
    : res (Z * option buf * event_clientq_t * event_queue_t * list bufctl_t) :=
  let q := if active cq then q else set_numclients (u32 (numclients q + 1)) q in
  '(_, arr) ← pmdaEventResetArray junk (eventarray q) arr;
  let '(sts, records, n, arr) := decode_all cq (eventarray q) (tailq q) 0 arr in
  '(vbp, arr) ← (if records =? 0 then Ok (None, arr) else pmdaEventGetAddr (eventarray q) arr);
  let l := used (take n (tailq q)) ++ drop n (tailq q) in
  Ok (sts, vbp, mkClientq true 0 (access cq) None (filter cq), set_events (total l) l q, arr).
Lemma queue_fetch_spec b q cq arr :
  queue_ok b q → clientq_ok cq → queue_fetch junk decoder now q cq arr = fetch_all q cq arr.
Proof.
  intros Hq [Hl Hm]. unfold queue_fetch, fetch_all. rewrite Hl, Hm. cbv zeta.
  set (q1 := if active cq then q else _).
  assert (queue_ok b q1) as [H1 H2 H3 H4 H5] by (unfold q1; destruct (active cq); [done | by apply set_numclients_ok]).
  assert ((match ev_id <$> head (tailq q1) with None => Ok [] | Some p => events_from p (tailq q1) end) = Ok (tailq q1)) as ->.
  { destruct (tailq q1) as [|e l]; [done |]. simpl. by rewrite Nat.eqb_refl. }
  cbn [mbind res_bind]. destruct (pmdaEventResetArray _ _ _) as [[s0 arr1]| |]; [| done | done]. cbn [mbind res_bind].
  rewrite (fetch_loop_spec cq (eventarray q1) (tailq q1) [] 0 q1 arr1) by (done || lia).
  destruct (decode_all cq (eventarray q1) (tailq q1) 0 arr1) as [[[sts records] n] arr2]. cbn [app].
  change (0 <? 0 - 1) with false. destruct (sts =? 0) eqn:Es.
  - apply Z.eqb_eq in Es as ->. by cbn [mbind res_bind].
  - by cbn [mbind res_bind].
Qed.
Lemma fetch_all_ok b q cq arr sts vbp cq' q' arr' :
  queue_ok b q → fetch_all q cq arr = Ok (sts, vbp, cq', q', arr') → queue_ok b q' ∧ clientq_ok cq'.
Proof.
  intros Hq. unfold fetch_all. set (q1 := if active cq then q else _).
  assert (queue_ok b q1) as [H1 H2 H3 H4 H5] by (unfold q1; destruct (active cq); [done | by apply set_numclients_ok]).
  cbv zeta. destruct (pmdaEventResetArray _ _ _) as [[s0 arr1]| |]; [| done | done]. cbn [mbind res_bind].
  destruct (decode_all cq (eventarray q1) (tailq q1) 0 arr1) as [[[sts1 records] n] arr2].
  destruct (if records =? 0 then _ else _) as [[vbp1 arr3]| |]; [| done | done]. cbn [mbind res_bind].
  intros [= <- <- <- <- <-]. split; [| done].
  assert (sublist (ev_id <$> used (take n (tailq q1)) ++ drop n (tailq q1)) (ev_id <$> tailq q1)) as Hsub.
  { rewrite <- (take_drop n (tailq q1)) at 3. rewrite !fmap_app. by apply sublist_app; [apply used_ids |]. }
  split; cbn [set_events maxmemory qsize tailq]; [done | done | | |].
  - rewrite total_app. rewrite <- (take_drop n (tailq q1)), total_app in H3. pose proof (used_total (take n (tailq q1))). lia.
  - by eapply sublist_NoDup; [exact H4 |].
  - apply Forall_forall. intros e He. rewrite Forall_forall in H5.
    assert (ev_id e ∈ ev_id <$> tailq q1) as (e' & Ee & Hin)%list_elem_of_fmap.
    { eapply elem_of_sublist; [| exact Hsub]. by apply list_elem_of_fmap_2. }
    rewrite Ee. by apply H5.
Qed.
End fetch_spec.

Lemma decode_all_done decoder cq key : ∀ l records arr records' n arr',
  decode_all decoder cq key l records arr = (0, records', n, arr') → n = length l.
Proof.
  induction l as [|ev l IH]; intros records arr records' n arr'; cbn [decode_all]; [by intros [= _ <- _] |].
  assert (∀ r a, (let '(sts, records0, n0, arr0) := decode_all decoder cq key l r a in (sts, records0, S n0, arr0))
    = (0, records', n, arr') → n = length (ev :: l)) as Hrest.
  { intros r a. destruct (decode_all decoder cq key l r a) as [[[??]?]?] eqn:E. intros [= -> <- <- <-]. simpl. f_equal. by eapply IH. }
  destruct (negb _); [apply Hrest |]. destruct (decoder _ _ _ _) as [sts a]. destruct (Z.ltb_spec sts 0); [| apply Hrest].
  intros [= -> _ _ _]. lia.
Qed.

(** ** The operations keep the invariant *)

Lemma tear_down_inv l : ∀ i st, inv st → Forall (queue_ok (fresh st)) l →
  inv (tear_down l i st) ∧ clients (tear_down l i st) = clients st ∧ fresh (tear_down l i st) = fresh st
  ∧ arrays (tear_down l i st) = arrays st ∧ length (queues (tear_down l i st)) = length (queues st).
Proof.
  induction l as [|q l IH]; intros i st Hi Hl; cbn [tear_down]; [done |]. apply Forall_cons in Hl as [Hq Hl].
  unfold queue_drop_bytes. pose proof Hq as [H1 H2 H3 H4 H5].
  destruct (drop_events_spec i INT_MAX st (tailq q) q) as (k & -> & Hk & _); [apply Hi | done | done | done | apply H1 |].
  assert (total (drop k (tailq q)) = 0) as E0.
  { destruct Hk as [-> | Hk]; [done |]. pose proof (total_nonneg (drop k (tailq q))). lia. }
  set (q' := set_events _ [] _). assert (queue_ok (fresh st) q') as Hq'.
  { split; simpl; [done | done | lia | constructor | constructor]. }
  destruct (IH (i + 1) (put_queue i q' st)) as (I1 & I2 & I3 & I4 & I5); [by apply inv_put_queue | done |].
  split_and!; [done | done | done | done |]. rewrite I5. simpl. apply length_insert.
Qed.
Lemma new_queue_inv junk name maxmem n st r st' :
  inv st → maxmem <= INT_MAX → pmdaEventNewActiveQueue junk name maxmem n st = Ok (r, st') → inv st'.
Proof.
  intros Hi Hm. unfold pmdaEventNewActiveQueue. destruct name as [name|]; [| by intros [= _ <-]].
  destruct (Z.leb_spec maxmem 0); [by intros [= _ <-] |]. destruct (find_name _ _ _); [by intros [= _ <-] |]. cbv zeta.
  match goal with |- context [pmdaEventNewArray junk (arrays ?s)] => set (st1 := s) end. assert (inv st1) as Hi1.
  { unfold st1. destruct (_ =? _)%nat; [| done]. destruct (tear_down_inv (queues st) 0 st Hi) as ([Hq Hc] & _); [apply Hi |].
    split; [| done]. simpl. apply Forall_app. split; [done |]. constructor; [| done]. split; simpl; [done | done | lia | constructor | constructor]. }
  destruct (pmdaEventNewArray junk (arrays st1)) as [[array arr]| |]; [| done | done]. cbn [mbind res_bind]. intros [= _ <-].
  apply inv_put_queue; [by destruct Hi1 |]. split; simpl; [lia | done | lia | constructor | constructor].
Qed.
Lemma append_inv h data tv st : inv st → inv (pmdaEventQueueAppend h data tv st).2.
Proof.
  intros Hi. unfold pmdaEventQueueAppend. destruct (queue_lookup h st) as [q|] eqn:E; [| done].
  pose proof (inv_queue _ _ _ Hi E) as Hq. assert (∀ b q0, queue_ok (fresh st) q0 → queue_ok (fresh st) (account b q0)) as Hacc by (by intros b q0 [?????]).
  cbv zeta. destruct (Z.ltb_spec (maxmemory q) (zlen data)) as [Hbig|Hfits]; [apply inv_put_queue; auto |].
  unfold queue_drop_bytes. pose proof Hq as [H1 H2 H3 H4 H5].
  destruct (drop_events_spec h (zlen data) st (tailq q) q) as (k & -> & Hk & _); [apply Hi | lia | done | done | apply H1 |].
  pose proof (drop_ok (fresh st) q k Hq) as Hd. set (q1 := set_events _ _ q) in *.
  destruct (numclients q1 =? 0); [apply inv_put_queue; auto |]. destruct Hi as [Hqs Hcs]. split; [| done]. cbn [snd queues fresh].
  apply Forall_insert.
  - eapply Forall_impl; [exact Hqs |]. intros q0 H0. eapply queue_ok_mono; [| exact H0]. lia.
  - destruct Hd as [D1 D2 D3 D4 D5].
    assert (total (tailq q1) + zlen data <= maxmemory q1) as Hroom.
    { unfold q1. cbn [set_events tailq maxmemory]. destruct Hk as [-> | Hk]; [simpl; lia | done]. }
    change (maxmemory q1) with (maxmemory q) in *. split; cbn [account set_events maxmemory qsize tailq].
    + done.
    + rewrite total_app. cbn [total foldr]. unfold ev_size. cbn [ev_buffer]. rewrite u64_id; [lia |].
      pose proof (total_nonneg (tailq q1)). unfold INT_MAX in *. lia.
    + rewrite total_app. cbn [total foldr]. unfold ev_size. cbn [ev_buffer]. change (maxmemory q1) with (maxmemory q). lia.
    + rewrite fmap_app. apply NoDup_app. split_and!; [done | | apply NoDup_singleton].
      intros x (e & -> & Hin)%list_elem_of_fmap Hx%list_elem_of_singleton. rewrite Forall_forall in D5.
      specialize (D5 e Hin). simpl in *. lia.
    + apply Forall_app. split; [eapply Forall_impl; [exact D5 |]; simpl; lia |]. constructor; [simpl; lia | constructor].
Qed.
Lemma inv_clientq st p cq : inv st → clientq_ok cq → inv (put_clientq p cq st).
Proof.
  intros [Hq Hc] Hok. split; [| by apply put_clientq_clients]. unfold put_clientq. by destruct (clients st !! p.1).
Qed.
Lemma lookup_inv ctx h acc st p st' : inv st → client_queue_lookup ctx h acc st = (p, st') → inv st'.
Proof. intros [Hq Hc] (E1 & _ & E2 & H & _)%client_queue_lookup_spec. split; [by rewrite E1, E2 | by apply H]. Qed.
Lemma records_inv junk decoder now h ctx st r st' :
  inv st → pmdaEventQueueRecords junk decoder now h ctx st = Ok (r, st') → inv st'.
Proof.
  intros Hi. unfold pmdaEventQueueRecords. destruct (client_queue_lookup ctx h true st) as [p st1] eqn:E.
  pose proof (lookup_inv _ _ _ _ _ _ Hi E) as Hi1.
  destruct (queue_lookup h st1) as [q|] eqn:Eq; [| by intros [= _ <-]].
  destruct p as [p|]; cbn [mbind option_bind]; [| by intros [= _ <-]].
  destruct (get_clientq p st1) as [cq|] eqn:Ec; [| by intros [= _ <-]].
  pose proof (inv_queue _ _ _ Hi1 Eq) as Hq. pose proof (get_clientq_ok _ _ _ (inv_clients _ Hi1) Ec) as Hcq.
  rewrite (queue_fetch_spec _ _ _ _ _ _ _ Hq Hcq).
  destruct (fetch_all junk decoder q cq (arrays st1)) as [[[[[sts vbp] cq'] q'] arr]| |] eqn:Ef; [| done | done].
  cbn [mbind res_bind]. intros [= _ <-]. destruct (fetch_all_ok _ _ _ _ _ _ _ _ _ _ _ Hq Ef) as [Hq' Hcq'].
  pose proof (inv_clientq st1 p cq' Hi1 Hcq') as Hi2.
  apply inv_put_queue; [by destruct Hi2 |]. cbn [set_arrays fresh]. unfold put_clientq. by destruct (clients st1 !! p.1).
Qed.
Lemma cleanup_all_inv l : ∀ i st st', Forall clientq_ok l → inv st → cleanup_all l i st = Ok st' → inv st' ∧ clients st' = clients st.
Proof.
  induction l as [|cq l IH]; intros i st st' Hl Hi; cbn [cleanup_all]; [by intros [= <-] |].
  apply Forall_cons in Hl as [[Hlast _] Hl]. unfold queue_cleanup. rewrite Hlast.
  destruct (queue_lookup i st) as [q|] eqn:Eq; [| by apply IH]. destruct (active cq); [| by apply IH].
  cbn [mbind res_bind foldl]. intros E. eapply IH in E as [? Ec]; [by split | done |].
  apply inv_put_queue; [done |]. apply set_numclients_ok. by eapply inv_queue.
Qed.
Lemma end_client_inv ctx st r st' : inv st → pmdaEventEndClient ctx st = Ok (r, st') → inv st'.
Proof.
  intros Hi. unfold pmdaEventEndClient. destruct (client_lookup ctx st) as [i|]; [| by intros [= _ <-]].
  destruct (clients st !! i) as [c|] eqn:E; [| by intros [= _ <-]].
  destruct (cleanup_all (clientq c) 0 st) as [st1| |] eqn:Ec; [| done | done]. cbn [mbind res_bind]. intros [= _ <-].
  pose proof (Forall_lookup_1 _ _ _ _ (inv_clients _ Hi) E) as Hc.
  destruct (cleanup_all_inv _ _ _ _ Hc Hi Ec) as [[Hq Hcs] _]. split; [done |]. simpl. apply Forall_insert; [done | constructor].
Qed.
Lemma new_client_inv ctx st : inv st → inv (pmdaEventNewClient ctx st).2.
Proof.
  intros [Hq Hc]. unfold pmdaEventNewClient. destruct (client_slot _ _ _); [done |]. split; [done |]. cbn [snd set_clients clients].
  destruct (_ =? _)%nat; [apply Forall_app; split; [done |]; constructor; [constructor | constructor] |].
  apply Forall_insert; [done | constructor].
Qed.
Lemma set_access_inv ctx h allow st : inv st → inv (pmdaEventSetAccess ctx h allow st).2.
Proof.
  intros Hi. unfold pmdaEventSetAccess. destruct (client_queue_lookup ctx h true st) as [p st1] eqn:E.
  pose proof (lookup_inv _ _ _ _ _ _ Hi E) as Hi1. destruct p as [p|]; [| done].
  destruct (get_clientq p st1) as [cq|] eqn:Ec; [| done]. apply inv_clientq; [done |].
  by apply (get_clientq_ok _ _ _ (inv_clients _ Hi1) Ec).
Qed.
Lemma set_filter_inv ctx h f st : inv st → inv (pmdaEventSetFilter ctx h f st).2.
Proof.
  intros Hi. unfold pmdaEventSetFilter. destruct (client_queue_lookup ctx h true st) as [p st1] eqn:E.
  pose proof (lookup_inv _ _ _ _ _ _ Hi E) as Hi1. destruct p as [p|]; [| done].
  destruct (get_clientq p st1) as [cq|] eqn:Ec; [| done]. apply inv_clientq; [done |].
  by apply (get_clientq_ok _ _ _ (inv_clients _ Hi1) Ec).
Qed.

(** ** Theorems *)

Inductive queue_step : state → state → Prop :=
| step_new junk name maxmem n st r st' :
    maxmem <= INT_MAX → pmdaEventNewActiveQueue junk name maxmem n st = Ok (r, st') → queue_step st st'
| step_append h data tv st : queue_step st (pmdaEventQueueAppend h data tv st).2
| step_records junk decoder now h ctx st r st' :
    pmdaEventQueueRecords junk decoder now h ctx st = Ok (r, st') → queue_step st st'
| step_new_client ctx st : queue_step st (pmdaEventNewClient ctx st).2
| step_end_client ctx st r st' : pmdaEventEndClient ctx st = Ok (r, st') → queue_step st st'
| step_access ctx h allow st : queue_step st (pmdaEventSetAccess ctx h allow st).2
| step_filter ctx h f st : queue_step st (pmdaEventSetFilter ctx h f st).2.

(** In every reachable state each queue accounts for the memory of its events,
    keeps to its limit and has no event twice; and no client has a pointer into a
    queue or has missed an event: a fetch leaves the pointer unset, so that events
    dropped later are not counted. *)
Lemma queue_reachable_inv st : rtc queue_step init st → inv st.
Proof.
  intros Hr. cut (∀ st0, inv st0 → rtc queue_step st0 st → inv st).
  { intros H. apply (H init); [| done]. split; constructor. }
  clear Hr. intros st0 Hi Hr. revert Hi. induction Hr as [| x y z Hs _ IH]; [done |]. intros Hi. apply IH.
  destruct Hs; [by eapply new_queue_inv | by apply append_inv | by eapply records_inv | by apply new_client_inv
    | by eapply end_client_inv | by apply set_access_inv | by apply set_filter_inv].
Qed.

(** Appending.  An event that is larger than the queue is only counted.  Any
    other makes room by dropping the oldest events, and only while the limit would be
    exceeded, and is then added at the end, to be used by every active client; if
    there is none, it is only counted.  Other queues are left alone. *)
Lemma append_makes_room handle data tv st q :
  inv st → queue_lookup handle st = Some q →
  let '(sts, st') := pmdaEventQueueAppend handle data tv st in
  ∃ q', sts = 0 ∧ queue_lookup handle st' = Some q' ∧ (∀ h, h ≠ handle → queue_lookup h st' = queue_lookup h st)
    ∧ clients st' = clients st ∧ total (tailq q') <= maxmemory q
    ∧ q_count q' = u32 (q_count q + 1) ∧ q_bytes q' = u64 (q_bytes q + zlen data)
    ∧ if maxmemory q <? zlen data then tailq q' = tailq q
      else ∃ k, (∀ j, (j < k)%nat → (j < length (tailq q))%nat ∧ maxmemory q < total (drop j (tailq q)) + zlen data)
        ∧ tailq q' = drop k (tailq q)
                     ++ (if numclients q =? 0 then [] else [mkEvent (fresh st) tv (s32 (numclients q)) data]).
Proof.
  intros Hi Hl. pose proof (append_inv handle data tv st Hi) as Hi'. pose proof (inv_queue _ _ _ Hi Hl) as [H1 H2 H3 H4 H5].
  pose proof (queue_lookup_Some _ _ _ Hl) as (Hr & Hn & Hu).
  assert (∀ q' c a f, q_inuse q' = true → let st' := mkState (<[Z.to_nat handle := q']> (queues st)) c a f in
    queue_lookup handle st' = Some q' ∧ ∀ h, h ≠ handle → queue_lookup h st' = queue_lookup h st) as Hput.
  { intros q' c a f Hu'. split; unfold queue_lookup; simpl; rewrite length_insert.
    - rewrite (proj2 (Z.leb_gt _ _)), (proj2 (Z.ltb_ge _ _)) by lia. simpl. rewrite list_lookup_insert_eq by lia. by rewrite Hu'.
    - intros h Hh. destruct (_ || _) eqn:E; [done |]. apply orb_false_iff in E as [E1 E2].
      rewrite list_lookup_insert_ne by lia. done. }
  unfold pmdaEventQueueAppend in *. rewrite Hl in *. cbv zeta in *.
  destruct (Z.ltb_spec (maxmemory q) (zlen data)) as [Hbig|Hfits].
  { destruct (Hput (account (zlen data) q) (clients st) (arrays st) (fresh st) Hu) as [P1 P2].
    exists (account (zlen data) q). by split_and!. }
  unfold queue_drop_bytes in *.
  destruct (drop_events_spec handle (zlen data) st (tailq q) q) as (k & E & Hk & Hj); [apply Hi | lia | done | done | apply H1 |].
  rewrite E in *. cbn [set_events numclients] in *. destruct (numclients q =? 0).
  - set (q1 := account _ _) in *. destruct (Hput q1 (clients st) (arrays st) (fresh st) Hu) as [P1 P2].
    exists q1. pose proof (inv_queue _ _ _ Hi' P1) as [_ _ M _ _].
    split_and!; [done | done | done | done | exact M | done | done |]. exists k. split; [done |]. by rewrite app_nil_r.
  - set (q1 := account _ _) in *. destruct (Hput q1 (clients st) (arrays st) (S (fresh st)) Hu) as [P1 P2].
    exists q1. pose proof (inv_queue _ _ _ Hi' P1) as [_ _ M _ _].
    split_and!; [done | done | done | done | exact M | done | done |]. by exists k.
Qed.

End Queues.

(** ** Instances *)

Import Queues.
Definition demo_name : buf := [Byte.x71].
(** A decoder that makes a record without parameters of every event. *)
Definition demo_decoder (key : Z) (data : buf) (tv : Z * Z) (arr : list bufctl_t) : Z * list bufctl_t :=
  match pmdaEventAddRecord (λ _, Byte.x7e) key tv.1 tv.2 0 arr with Ok (0, arr) => (1, arr) | Ok (sts, arr) => (sts, arr) | _ => (-1, arr) end.
Definition demo_fetch (ctx : Z) (st : state) : res (Z * state) :=
  '(sts, _, st) ← pmdaEventQueueRecords (λ _, Byte.x7e) demo_decoder (0, 0) 0 ctx st; Ok (sts, st).
(** A queue of four bytes and two clients, 7 and 8, that have fetched from it. *)
Definition demo_setup : res state :=
  '(_, st) ← pmdaEventNewQueue (λ _, Byte.x7e) (Some demo_name) 4 init;
  let st := (pmdaEventNewClient 7 st).2 in let st := (pmdaEventNewClient 8 st).2 in
  let st := (pmdaEventSetAccess 7 0 1 st).2 in let st := (pmdaEventSetAccess 8 0 1 st).2 in
  '(_, st) ← demo_fetch 7 st; '(_, st) ← demo_fetch 8 st; Ok st.
Definition demo_queues : state := match demo_setup with Ok st => st | _ => init end.
Lemma demo_reachable : rtc queue_step init demo_queues.
Proof.
  unfold demo_queues. destruct demo_setup as [st| |] eqn:E; [| constructor | constructor].
  revert E. unfold demo_setup, demo_fetch. unfold pmdaEventNewQueue.
  destruct (pmdaEventNewActiveQueue _ _ _ _ _) as [[r st1]| |] eqn:E1; [| done | done]. cbn [mbind res_bind].
  set (st2 := (pmdaEventNewClient 7 st1).2). set (st3 := (pmdaEventNewClient 8 st2).2).
  set (st4 := (pmdaEventSetAccess 7 0 1 st3).2). set (st5 := (pmdaEventSetAccess 8 0 1 st4).2).
  destruct (pmdaEventQueueRecords _ _ _ _ 7 st5) as [[[r6 v6] st6]| |] eqn:E6; [| done | done]. cbn [mbind res_bind].
  destruct (pmdaEventQueueRecords _ _ _ _ 8 st6) as [[[r7 v7] st7]| |] eqn:E7; [| done | done]. cbn [mbind res_bind].
  intros [= <-].
  eapply rtc_l; [eapply step_new, E1; by vm_compute |]. eapply rtc_l; [apply step_new_client |].
  eapply rtc_l; [apply step_new_client |]. eapply rtc_l; [apply step_access |]. eapply rtc_l; [apply step_access |].
  eapply rtc_l; [eapply step_records, E6 |]. apply rtc_once. eapply step_records, E7.
Qed.
Lemma demo_queues_inv : inv demo_queues.
Proof.
  split; [| repeat constructor]. vm_compute queues. vm_compute fresh. constructor; [| constructor].
  split; simpl; [done | done | lia | constructor | constructor].
Qed.

Lemma queue_reachable_inv_witness : inv demo_queues.
Proof. exact (queue_reachable_inv demo_queues demo_reachable). Defined.
Lemma append_makes_room_witness :
  ∃ q', queue_lookup 0 (pmdaEventQueueAppend 0 [Byte.x61] (5, 6) demo_queues).2 = Some q' ∧ total (tailq q') <= 4.
Proof.
  destruct (queue_lookup 0 demo_queues) as [q|] eqn:E; [| by vm_compute in E].
  pose proof (append_makes_room 0 [Byte.x61] (5, 6) demo_queues q demo_queues_inv E) as H.
  destruct (pmdaEventQueueAppend 0 [Byte.x61] (5, 6) demo_queues) as [sts st']. destruct H as (q' & _ & Hl & _ & _ & Ht & _).
  exists q'. split; [exact Hl |]. vm_compute in E. injection E as <-. exact Ht.
Defined.

(** A client that fetches twice uses an event on behalf of another: client 7 gets
    the event both times, and client 8 never gets it. *)
Lemma fetch_twice_steals :
  (let st := (pmdaEventQueueAppend 0 [Byte.x61] (5, 6) demo_queues).2 in
   '(s1, st) ← demo_fetch 7 st; '(s2, st) ← demo_fetch 7 st; '(s3, _) ← demo_fetch 8 st; Ok (s1, s2, s3))
  = Ok (PMDA_FETCH_STATIC, PMDA_FETCH_STATIC, PMDA_FETCH_NOVALUES).
Proof. by vm_compute. Qed.
(** Creating a queue while one with a limit of more than 2^31 bytes holds an event:
    the events are gone, but their memory stays accounted for. *)
Lemma large_queue_leaks :
  ('(_, st) ← pmdaEventNewActiveQueue (λ _, Byte.x7e) (Some demo_name) 4294967296 1 init;
   let st := (pmdaEventQueueAppend 0 [Byte.x61] (5, 6) st).2 in
   '(_, st) ← pmdaEventNewQueue (λ _, Byte.x7e) (Some []) 4 st;
   Ok ((λ q, (qsize q, tailq q)) <$> take 1 (queues st))) = Ok [(1, [])].
Proof. by vm_compute. Qed.
