(* ===== verification/Cache.v ===== *)
(** The instance cache of an agent, src/libpcp_pmda/src/cache.c: for each instance
    domain, the instances by identifier and by name.

    An entry is known by a number that stands for its address.  The instance list of
    a cache holds the entries in order; the chains of the two hash tables and the
    pointers [last] and [save] hold addresses.  An address that is no longer in the
    list is that of an entry that was freed: to follow it is a [Fault]. *)
From stdpp Require Import sorting.
From S2P Require Import Prelude Memory Types PduIO PduSimple PduInstance.

Definition PM_ERR_GENERIC : Z := - PM_ERR_BASE.
Definition PM_ERR_INDOM : Z := - PM_ERR_BASE - 14.
Definition PM_ERR_INST : Z := - PM_ERR_BASE - 15.
Definition PMDA_CACHE_LOAD : Z := 1.
Definition PMDA_CACHE_ADD : Z := 2.
Definition PMDA_CACHE_HIDE : Z := 3.
Definition PMDA_CACHE_CULL : Z := 4.
Definition PMDA_CACHE_EMPTY : Z := 5.
Definition PMDA_CACHE_SAVE : Z := 6.
Definition PMDA_CACHE_ACTIVE : Z := 8.
Definition PMDA_CACHE_INACTIVE : Z := 9.
Definition PMDA_CACHE_SIZE : Z := 10.
Definition PMDA_CACHE_SIZE_ACTIVE : Z := 11.
Definition PMDA_CACHE_SIZE_INACTIVE : Z := 12.
Definition PMDA_CACHE_REUSE : Z := 13.
Definition PMDA_CACHE_WALK_REWIND : Z := 14.
Definition PMDA_CACHE_WALK_NEXT : Z := 15.
Definition PMDA_CACHE_CHECK : Z := 16.
Definition PMDA_CACHE_REORG : Z := 17.
Definition PMDA_CACHE_SYNC : Z := 18.
Definition PMDA_CACHE_DUMP : Z := 19.
Definition PMDA_CACHE_DUMP_ALL : Z := 20.
Definition DIRTY_INSTANCE : Z := 1.
Definition DIRTY_STAMP : Z := 2.
Definition MAX_HASH_TRY : nat := 10.
(** [PM_IN_NULL] in an int. *)
Definition NO_INST : Z := -1.

Module Cache.
(** [keylen] is the length of [e_key]; names and keys are without the null byte. *)
Record entry_t := mkEntry {
  e_inst : Z; e_name : buf; e_hashlen : nat; e_key : buf; e_state : Z; e_private : Z; e_stamp : Z }.
(** [hsize] is the length of both tables; [save] is not initialised with the rest of
    the header. *)
Record hdr_t := mkHdr {
  elist : list (nat * entry_t); last : option nat; save : option (option nat);
  ctl_inst : list (list nat); ctl_name : list (list nat);
  indom : Z; hbits : Z; nentry : Z; ins_mode : Z; hstate : Z; keyhash_cnt : list Z; fresh : nat }.

Definition hsize (h : hdr_t) : Z := zlen (ctl_inst h).
Definition set_list (l : list (nat * entry_t)) (h : hdr_t) : hdr_t :=
  mkHdr l (last h) (save h) (ctl_inst h) (ctl_name h) (indom h) (hbits h) (nentry h) (ins_mode h) (hstate h) (keyhash_cnt h) (fresh h).
Definition set_ctl (ci cn : list (list nat)) (bits : Z) (h : hdr_t) : hdr_t :=
  mkHdr (elist h) (last h) (save h) ci cn (indom h) bits (nentry h) (ins_mode h) (hstate h) (keyhash_cnt h) (fresh h).
Definition set_save (p : option (option nat)) (h : hdr_t) : hdr_t :=
  mkHdr (elist h) (last h) p (ctl_inst h) (ctl_name h) (indom h) (hbits h) (nentry h) (ins_mode h) (hstate h) (keyhash_cnt h) (fresh h).
Definition set_mode (m : Z) (h : hdr_t) : hdr_t :=
  mkHdr (elist h) (last h) (save h) (ctl_inst h) (ctl_name h) (indom h) (hbits h) (nentry h) m (hstate h) (keyhash_cnt h) (fresh h).
Definition dirty (b : Z) (h : hdr_t) : hdr_t :=
  mkHdr (elist h) (last h) (save h) (ctl_inst h) (ctl_name h) (indom h) (hbits h) (nentry h) (ins_mode h) (Z.lor (hstate h) b) (keyhash_cnt h) (fresh h).
Definition set_cnt (l : list Z) (h : hdr_t) : hdr_t :=
  mkHdr (elist h) (last h) (save h) (ctl_inst h) (ctl_name h) (indom h) (hbits h) (nentry h) (ins_mode h) (hstate h) l (fresh h).
Definition set_state (s : Z) (e : entry_t) : entry_t :=
  mkEntry (e_inst e) (e_name e) (e_hashlen e) (e_key e) s (e_private e) (e_stamp e).

(** The entry at an address. *)
Fixpoint deref (l : list (nat * entry_t)) (p : nat) : option entry_t :=
  match l with
  | [] => None
  | (q, e) :: l => if (q =? p)%nat then Some e else deref l p
  end.
Definition update (p : nat) (f : entry_t → entry_t) (l : list (nat * entry_t)) : list (nat * entry_t) :=
  (λ x, if (x.1 =? p)%nat then (x.1, f x.2) else x) <$> l.
Definition live (e : entry_t) : bool := negb (e_state e =? PMDA_CACHE_EMPTY).

(** ** The hash function *)

(** [k[i]], a signed char, and four of them as a word. *)
Definition sc (k : buf) (i : nat) : Z :=
  match k !! i with Some c => let x := byte.unsigned c in if x <? 128 then x else x - 256 | None => 0 end.
Definition word4 (k : buf) (i : nat) : Z :=
  sc k i + sc k (i + 1) * 2^8 + sc k (i + 2) * 2^16 + sc k (i + 3) * 2^24.
Definition mix (abc : Z * Z * Z) : Z * Z * Z :=
  let step x y z s := u32 (Z.lxor (u32 (x - y - z)) s) in
  let shl x n := u32 (Z.shiftl x n) in
  let '(a, b, c) := abc in
  let a := step a b c (Z.shiftr c 13) in
  let b := step b c a (shl a 8) in
  let c := step c a b (Z.shiftr b 13) in
  let a := step a b c (Z.shiftr c 12) in
  let b := step b c a (shl a 16) in
  let c := step c a b (Z.shiftr b 5) in
  let a := step a b c (Z.shiftr c 3) in
  let b := step b c a (shl a 10) in
  let c := step c a b (Z.shiftr b 15) in
  (a, b, c).
Fixpoint hash_blocks (fuel : nat) (k : buf) (len : nat) (abc : Z * Z * Z) : buf * nat * (Z * Z * Z) :=
  match fuel with
  | O => (k, len, abc)
  | S fuel =>
      if (len <? 12)%nat then (k, len, abc)
      else
        let '(a, b, c) := abc in
        hash_blocks fuel (drop 12 k) (len - 12)
          (mix (u32 (a + word4 k 0), u32 (b + word4 k 4), u32 (c + word4 k 8)))
  end.
Definition hash (k : buf) (length_ : nat) (initval : Z) : Z :=
  let '(k, len, (a, b, c)) := hash_blocks length_ k length_ (2654435769, 2654435769, initval) in
  let byte i n := if (i <? len)%nat then sc k i * 2 ^ n else 0 in
  let c := u32 (c + Z.of_nat length_ + byte 8%nat 8 + byte 9%nat 16 + byte 10%nat 24) in
  let b := u32 (b + byte 4%nat 0 + byte 5%nat 8 + byte 6%nat 16 + byte 7%nat 24) in
  let a := u32 (a + byte 0%nat 0 + byte 1%nat 8 + byte 2%nat 16 + byte 3%nat 24) in
  (mix (a, b, c)).2.
Definition hash_str (str : buf) (len : nat) : Z := hash str len 0.

(** ** Names *)

Fixpoint get_hashlen (str : buf) : nat :=
  match str with
  | [] => O
  | c :: str => if bool_decide (c = Byte.x20) then O else S (get_hashlen str)
  end.
Definition name_eq (e : entry_t) (name : buf) (hashlen : nat) : Z :=
  if negb (e_hashlen e =? hashlen)%nat then 0
  else if negb (bool_decide (take hashlen (e_name e) = take hashlen name)) then 0
  else if (length name =? hashlen)%nat then 1
  else if (length (e_name e) =? hashlen)%nat then -1
  else if bool_decide (drop (hashlen + 1) (e_name e) = drop (hashlen + 1) name) then 1
  else -1.
Definition key_eq (e : entry_t) (key : buf) : bool := bool_decide (e_key e = key).

(** ** Finding entries *)

Definition inst_idx (bits : Z) (e : entry_t) : nat := Z.to_nat (Z.land (e_inst e) bits).
Definition name_idx (bits : Z) (e : entry_t) : nat := Z.to_nat (Z.land (hash_str (e_name e) (e_hashlen e)) bits).

(** The linear searches over the list. *)
Fixpoint find_inst (l : list (nat * entry_t)) (inst : Z) : option nat :=
  match l with
  | [] => None
  | (p, e) :: l => if (e_inst e =? inst) && live e then Some p else find_inst l inst
  end.
Fixpoint find_name (l : list (nat * entry_t)) (name : buf) (hashlen : nat) : option nat * Z :=
  match l with
  | [] => (None, 0)
  | (p, e) :: l =>
      if live e then
        let sts := name_eq e name hashlen in
        if negb (sts =? 0) then (Some p, sts) else find_name l name hashlen
      else find_name l name hashlen
  end.
(** The searches over a hash chain. *)
Fixpoint chain_inst (l : list (nat * entry_t)) (chain : list nat) (inst : Z) : res (option nat) :=
  match chain with
  | [] => Ok None
  | p :: chain =>
      match deref l p with
      | None => Fault
      | Some e => if (e_inst e =? inst) && live e then Ok (Some p) else chain_inst l chain inst
      end
  end.
Fixpoint chain_name (l : list (nat * entry_t)) (chain : list nat) (name : buf) (hashlen : nat) : res (option nat * Z) :=
  match chain with
  | [] => Ok (None, 0)
  | p :: chain =>
      match deref l p with
      | None => Fault
      | Some e =>
          if live e then
            let sts := name_eq e name hashlen in
            if negb (sts =? 0) then Ok (Some p, sts) else chain_name l chain name hashlen
          else chain_name l chain name hashlen
      end
  end.
(** [find_entry]: by identifier without a name, else by name; the status says how a
    name matched. *)
Definition find_entry (h : hdr_t) (name : option buf) (inst : Z) : res (option nat * Z) :=
  match name with
  | None =>
      match ctl_inst h !! Z.to_nat (Z.land inst (hbits h)) with
      | None => Fault
      | Some chain => p ← chain_inst (elist h) chain inst; Ok (p, 0)
      end
  | Some name =>
      let hashlen := get_hashlen name in
      match ctl_name h !! Z.to_nat (Z.land (hash_str name hashlen) (hbits h)) with
      | None => Fault
      | Some chain => chain_name (elist h) chain name hashlen
      end
  end.

(** ** Reorganising *)

(** Every entry of the old chains is put in front of its new chain. *)
Fixpoint rehash (idx : entry_t → nat) (l : list (nat * entry_t)) (old : list nat) (ctl : list (list nat)) : res (list (list nat)) :=
  match old with
  | [] => Ok ctl
  | p :: old =>
      match deref l p with
      | None => Fault
      | Some e => rehash idx l old (alter (cons p) (idx e) ctl)
      end
  end.
Definition in_state (l : list (nat * entry_t)) (s : Z) (p : nat) : bool :=
  match deref l p with Some e => e_state e =? s | None => false end.
Definition reorder_chain (l : list (nat * entry_t)) (chain : list nat) : res (list nat) :=
  if forallb (λ p, bool_decide (is_Some (deref l p))) chain
  then Ok (List.filter (in_state l PMDA_CACHE_ACTIVE) chain ++ List.filter (in_state l PMDA_CACHE_INACTIVE) chain)
  else Fault.
Fixpoint reorder (l : list (nat * entry_t)) (ctl : list (list nat)) : res (list (list nat)) :=
  match ctl with
  | [] => Ok []
  | chain :: ctl => chain ← reorder_chain l chain; ctl ← reorder l ctl; Ok (chain :: ctl)
  end.
Definition resize_hash (h : hdr_t) : res hdr_t :=
  let n := (2 * length (ctl_inst h))%nat in
  let bits := Z.lor (Z.shiftl (hbits h) 1) 1 in
  ci ← rehash (inst_idx bits) (elist h) (concat (ctl_inst h)) (replicate n []);
  cn ← rehash (name_idx bits) (elist h) (concat (ctl_name h)) (replicate n []);
  Ok (set_ctl ci cn bits h).
Definition redo_hash (h : hdr_t) (resize : bool) : res hdr_t :=
  h ← (if resize then resize_hash h else Ok h);
  ci ← reorder (elist h) (ctl_inst h);
  cn ← reorder (elist h) (ctl_name h);
  Ok (set_list (List.filter (λ x, live x.2) (elist h)) (set_ctl ci cn (hbits h) h)).

(** ** Inserting *)

(** The entry after which a known [inst] goes: the last one before it with a smaller
    identifier. *)
Fixpoint place (l : list (nat * entry_t)) (inst : Z) (last_e : option nat) : option nat :=
  match l with
  | [] => last_e
  | (p, e) :: l =>
      if e_inst e <? inst then place l inst (Some p)
      else if inst <? e_inst e then last_e else place l inst last_e
  end.
(** The first identifier that is not in use, and its place; [None] when there are
    too many. *)
Fixpoint first_unused (l : list (nat * entry_t)) (inst : Z) (last_e : option nat) : option (Z * option nat) :=
  match l with
  | [] => Some (inst, last_e)
  | (p, e) :: l =>
      if inst <? e_inst e then Some (inst, last_e)
      else if inst =? INT_MAX then None else first_unused l (inst + 1) (Some p)
  end.
Fixpoint insert_after (p : option nat) (x : nat * entry_t) (l : list (nat * entry_t)) : res (list (nat * entry_t)) :=
  match p with
  | None => Ok (x :: l)
  | Some q =>
      match l with
      | [] => Fault
      | y :: l => if (y.1 =? q)%nat then Ok (y :: x :: l) else l ← insert_after p x l; Ok (y :: l)
      end
  end.
Definition new_entry (name : buf) (inst : Z) : entry_t := mkEntry inst name (get_hashlen name) [] PMDA_CACHE_INACTIVE 0 0.
(** [last], when the entry [p] with [inst] comes in. *)
Definition new_last (h : hdr_t) (p : nat) (inst : Z) : res (option nat) :=
  match last h with
  | None => Ok (Some p)
  | Some q =>
      match deref (elist h) q with
      | None => Fault
      | Some le => Ok (if e_inst le <? inst then Some p else Some q)
      end
  end.
Definition linked (h : hdr_t) (l : list (nat * entry_t)) (last : option nat) : hdr_t :=
  mkHdr l last (save h) (ctl_inst h) (ctl_name h) (indom h) (hbits h) (nentry h + 1) (ins_mode h) (hstate h)
    (keyhash_cnt h) (S (fresh h)).
(** The new entry in the list and in the tables. *)
Definition link_entry (h : hdr_t) (name : buf) (inst : Z) (last_e : option nat) : res (nat * hdr_t) :=
  let p := fresh h in
  let e := new_entry name inst in
  l ← insert_after last_e (p, e) (elist h);
  last ← new_last h p inst;
  let h := linked h l last in
  h ← (if (0 <? hsize h) && (hsize h <? 1024) && (4 * hsize h <? nentry h) then redo_hash h true else Ok h);
  Ok (p, set_ctl (alter (cons p) (inst_idx (hbits h) e) (ctl_inst h)) (alter (cons p) (name_idx (hbits h) e) (ctl_name h)) (hbits h) h).
(** The search for an identifier that is not in use. *)
Definition retry (h : hdr_t) (name : buf) : res (option nat * Z * hdr_t) :=
  match first_unused (elist h) 0 None with
  | None => Ok (None, PM_ERR_GENERIC, h)
  | Some (inst, last_e) => '(p, h) ← link_entry h name inst last_e; Ok (Some p, 0, h)
  end.
(** The address is [None] for NULL. *)
Definition insert_cache (h : hdr_t) (name : buf) (inst : Z) : res (option nat * Z * hdr_t) :=
  if negb (inst =? NO_INST) then
    '(p, _) ← find_entry h None inst;
    match p with
    | Some p =>
        match deref (elist h) p with
        | None => Fault
        | Some e => Ok (Some p, (if negb (name_eq e name (get_hashlen name) =? 1) then PM_ERR_INST else 0), h)
        end
    | None =>
        '(p, _) ← find_entry h (Some name) NO_INST;
        match p with
        | Some p => Ok (Some p, PM_ERR_INST, h)
        | None => '(p, h) ← link_entry h name inst (place (elist h) inst None); Ok (Some p, 0, h)
        end
    end
  else
    if ins_mode h =? 0 then
      match last h with
      | None => '(p, h) ← link_entry h name 0 None; Ok (Some p, 0, h)
      | Some q =>
          match deref (elist h) q with
          | None => Fault
          | Some le =>
              if e_inst le =? INT_MAX then retry (set_mode 1 h) name
              else '(p, h) ← link_entry h name (e_inst le + 1) (Some q); Ok (Some p, 0, h)
          end
      end
    else retry h name.

(** ** The operations on one cache *)

Definition add_entry (key : buf) (private : Z) (e : entry_t) : entry_t :=
  mkEntry (e_inst e) (e_name e) (e_hashlen e) key PMDA_CACHE_ACTIVE private 0.
(** [switch (flags)] of [store]. *)
Definition store_flags (flags : Z) (p : nat) (key : buf) (private : Z) (h : hdr_t) : res (Z * hdr_t) :=
  match deref (elist h) p with
  | None => Fault
  | Some e =>
      if flags =? PMDA_CACHE_ADD then Ok (e_inst e, dirty DIRTY_STAMP (set_list (update p (add_entry key private) (elist h)) h))
      else if flags =? PMDA_CACHE_HIDE then Ok (e_inst e, set_list (update p (set_state PMDA_CACHE_INACTIVE) (elist h)) h)
      else if flags =? PMDA_CACHE_CULL then
        Ok (e_inst e, dirty DIRTY_INSTANCE (set_list (update p (set_state PMDA_CACHE_EMPTY) (elist h)) h))
      else Ok (- EINVAL, h)
  end.
Definition store (flags : Z) (name : buf) (inst : Z) (key : buf) (private : Z) (h : hdr_t) : res (Z * hdr_t) :=
  '(p, sts) ← find_entry h (Some name) inst;
  match p with
  | None =>
      if negb (flags =? PMDA_CACHE_ADD) then Ok (PM_ERR_INST, h)
      else
        '(p, sts, h) ← insert_cache h name inst;
        match p with
        | None => Ok (sts, h)
        | Some p => store_flags flags p key private (dirty DIRTY_INSTANCE h)
        end
  | Some p => if sts =? -1 then Ok (- EINVAL, h) else store_flags flags p key private h
  end.

(** The guesses for an identifier; the index of the one that was taken. *)
Fixpoint guess (n : nat) (i : nat) (try_ : Z) (name key : buf) (h : hdr_t) : res (Z * Z * hdr_t) :=
  match n with
  | O => Ok (PM_ERR_GENERIC, 0, h)
  | S n =>
      let try_ := hash key (length key) try_ in
      let inst := Z.land try_ (Z.ones 31) in
      '(p, _) ← find_entry h None inst;
      match p with
      | None => Ok (0, inst, set_cnt (alter (Z.add 1) i (keyhash_cnt h)) h)
      | Some p =>
          match deref (elist h) p with
          | None => Fault
          | Some e =>
              if bool_decide (e_name e = name) then
                if key_eq e key then Ok (0, inst, h) else Ok (PM_ERR_INST, 0, h)
              else if key_eq e key then Ok (PM_ERR_INST, 0, h)
              else guess n (S i) try_ name key h
          end
      end
  end.
Definition store_key (flags : Z) (name : buf) (key : option buf) (private : Z) (h : hdr_t) : res (Z * hdr_t) :=
  let mykey := match key with Some (c :: k) => c :: k | _ => name end in
  '(p, _) ← find_entry h (Some name) NO_INST;
  match p with
  | Some p =>
      match deref (elist h) p with
      | None => Fault
      | Some e => if key_eq e mykey then store flags name (e_inst e) mykey private h else Ok (PM_ERR_INST, h)
      end
  | None =>
      '(sts, inst, h) ← guess MAX_HASH_TRY 0 0 name mykey h;
      if sts =? 0 then store flags name inst mykey private (set_mode 1 h) else Ok (sts, h)
  end.

Definition count_state (s : Z) (h : hdr_t) : Z := zlen (List.filter (λ x, e_state x.2 =? s) (elist h)).
(** Every entry in a state [from] is put in the state [to]. *)
Definition change_state (from to : Z) (h : hdr_t) : Z * hdr_t :=
  (count_state from h, set_list ((λ x, if e_state x.2 =? from then (x.1, set_state to x.2) else x) <$> elist h) h).
Definition cull_all (h : hdr_t) : Z * hdr_t :=
  let n := zlen (List.filter (λ x, live x.2) (elist h)) in
  let h := set_list ((λ x, if live x.2 then (x.1, set_state PMDA_CACHE_EMPTY x.2) else x) <$> elist h) h in
  (n, if 0 <? n then dirty DIRTY_INSTANCE h else h).
(** [walk_cache]: the next entry. *)
Fixpoint next_of (p : nat) (l : list (nat * entry_t)) : res (option nat) :=
  match l with
  | [] => Fault
  | x :: l => if (x.1 =? p)%nat then Ok (fst <$> head l) else next_of p l
  end.
Definition walk_next (h : hdr_t) : res (option nat * hdr_t) :=
  match save h with
  | None => Fault
  | Some None => Ok (None, h)
  | Some (Some p) => n ← next_of p (elist h); Ok (Some p, set_save (Some n) h)
  end.
Definition rewind (h : hdr_t) : hdr_t := set_save (Some (fst <$> head (elist h))) h.
(** The loop over [walk_cache] until [f] is satisfied. *)
Fixpoint walk_until (fuel : nat) (f : entry_t → bool) (h : hdr_t) : res (option entry_t * hdr_t) :=
  match fuel with
  | O => Ok (None, h)
  | S fuel =>
      '(p, h) ← walk_next h;
      match p with
      | None => Ok (None, h)
      | Some p =>
          match deref (elist h) p with
          | None => Fault
          | Some e => if f e then Ok (Some e, h) else walk_until fuel f h
          end
      end
  end.
(** The operations of [pmdaCacheOp] on a cache that exists, but those on files; what a
    dump prints is not modelled. *)
Definition cache_op (op : Z) (h : hdr_t) : res (Z * hdr_t) :=
  if op =? PMDA_CACHE_ACTIVE then Ok (change_state PMDA_CACHE_INACTIVE PMDA_CACHE_ACTIVE h)
  else if op =? PMDA_CACHE_INACTIVE then Ok (change_state PMDA_CACHE_ACTIVE PMDA_CACHE_INACTIVE h)
  else if op =? PMDA_CACHE_CULL then Ok (cull_all h)
  else if op =? PMDA_CACHE_SIZE then Ok (nentry h, h)
  else if op =? PMDA_CACHE_SIZE_ACTIVE then Ok (count_state PMDA_CACHE_ACTIVE h, h)
  else if op =? PMDA_CACHE_SIZE_INACTIVE then Ok (count_state PMDA_CACHE_INACTIVE h, h)
  else if op =? PMDA_CACHE_REUSE then Ok (0, set_mode 1 h)
  else if op =? PMDA_CACHE_REORG then h ← redo_hash h false; Ok (0, h)
  else if op =? PMDA_CACHE_WALK_REWIND then Ok (0, rewind h)
  else if op =? PMDA_CACHE_WALK_NEXT then
    '(e, h) ← walk_until (S (length (elist h))) (λ e, e_state e =? PMDA_CACHE_ACTIVE) h;
    Ok (match e with Some e => e_inst e | None => -1 end, h)
  else if (op =? PMDA_CACHE_DUMP) || (op =? PMDA_CACHE_DUMP_ALL) then Ok (0, h)
  else Ok (- EINVAL, h).
(** State, identifier, name and private pointer. *)
Definition lookup (name : option buf) (inst : Z) (h : hdr_t) : res (Z * option entry_t) :=
  '(p, sts) ← find_entry h name inst;
  match p with
  | None => Ok ((if sts =? 0 then PM_ERR_INST else sts), None)
  | Some p => match deref (elist h) p with None => Fault | Some e => Ok (e_state e, Some e) end
  end.
Definition lookup_key (name : buf) (key : option buf) (h : hdr_t) : res (Z * option entry_t * hdr_t) :=
  let mykey := match key with Some (c :: k) => c :: k | _ => name end in
  '(e, h) ← walk_until (S (length (elist h))) (λ e, live e && key_eq e mykey) (rewind h);
  Ok (match e with Some e => (e_state e, Some e, h) | None => (PM_ERR_INST, None, h) end).
Definition purge (epoch : Z) (h : hdr_t) : Z * hdr_t :=
  let old (x : nat * entry_t) := negb (e_stamp x.2 =? 0) && (e_stamp x.2 <? epoch) in
  let cnt := zlen (List.filter old (elist h)) in
  let h := set_list ((λ x, if old x then (x.1, set_state PMDA_CACHE_EMPTY x.2) else x) <$> elist h) h in
  (cnt, if 0 <? cnt then dirty DIRTY_INSTANCE h else h).

(** ** All caches *)

Definition new_hdr (dom : Z) : hdr_t :=
  mkHdr [] None None (replicate 16 []) (replicate 16 []) dom 15 0 0 0 (replicate MAX_HASH_TRY 0) 0.
(** [find_cache]: the caches, with one for the domain, and its position. *)
Fixpoint find_hdr (dom : Z) (base : list hdr_t) : option nat :=
  match base with
  | [] => None
  | h :: base => if indom h =? dom then Some O else S <$> find_hdr dom base
  end.
Definition find_cache (dom : Z) (base : list hdr_t) : nat * list hdr_t :=
  match find_hdr dom base with
  | Some i => (i, base)
  | None => (O, new_hdr dom :: base)
  end.
(** An operation on the cache of a domain, unless it is the null domain. *)
Definition on_cache {A} (dom : Z) (null : A) (f : hdr_t → res (A * hdr_t)) (base : list hdr_t) : res (A * list hdr_t) :=
  if dom =? PM_INDOM_NULL then Ok (null, base)
  else
    let '(i, base) := find_cache dom base in
    match base !! i with
    | None => Fault
    | Some h => '(a, h) ← f h; Ok (a, <[i := h]> base)
    end.
Definition pmdaCacheStore (dom flags : Z) (name : buf) (private : Z) : list hdr_t → res (Z * list hdr_t) :=
  on_cache dom PM_ERR_INDOM (store flags name NO_INST [] private).
Definition pmdaCacheStoreKey (dom flags : Z) (name : buf) (key : option buf) (private : Z) : list hdr_t → res (Z * list hdr_t) :=
  on_cache dom PM_ERR_INDOM
    (if negb (flags =? PMDA_CACHE_ADD) then store flags name NO_INST [] private else store_key flags name key private).
Definition pmdaCacheLookupName (dom : Z) (name : buf) : list hdr_t → res (Z * option entry_t * list hdr_t) :=
  on_cache dom (PM_ERR_INDOM, None) (λ h, r ← lookup (Some name) NO_INST h; Ok (r, h)).
Definition pmdaCacheLookup (dom inst : Z) : list hdr_t → res (Z * option entry_t * list hdr_t) :=
  on_cache dom (PM_ERR_INDOM, None) (λ h, r ← lookup None inst h; Ok (r, h)).
Definition pmdaCacheLookupKey (dom : Z) (name : buf) (key : option buf) : list hdr_t → res (Z * option entry_t * list hdr_t) :=
  on_cache dom (PM_ERR_INDOM, None) (lookup_key name key).
(** [now]: what time() returns. *)
Definition pmdaCachePurge (now dom recent : Z) : list hdr_t → res (Z * list hdr_t) :=
  on_cache dom PM_ERR_INDOM (λ h, Ok (purge (now - recent) h)).

(** ** The invariant *)

Abbreviation ids l := (fst <$> l).
Definition prefix (e : entry_t) : buf := take (e_hashlen e) (e_name e).
Definition key_name (name : buf) : buf := take (get_hashlen name) name.

(** Chains lead to entries of the list, each in the chain it hashes to. *)
Definition table_ok (idx : entry_t → nat) (ctl : list (list nat)) (l : list (nat * entry_t)) : Prop :=
  ∀ i chain p, ctl !! i = Some chain → p ∈ chain → ∃ e, (p, e) ∈ l ∧ idx e = i.
(** Every entry that is in use, but [x], is in a chain. *)
Definition covered (x : option nat) (ctl : list (list nat)) (l : list (nat * entry_t)) : Prop :=
  ∀ p e, (p, e) ∈ l → live e = true → x ≠ Some p → p ∈ concat ctl.
Record entries_ok (bound : nat) (l : list (nat * entry_t)) : Prop := {
  eo_ids : NoDup (ids l);
  eo_fresh : Forall (λ x, (x.1 < bound)%nat) l;
  eo_names : Forall (λ x, e_hashlen x.2 = get_hashlen (e_name x.2)) l;
  eo_values : Forall (λ x, 0 <= e_inst x.2 <= INT_MAX
    ∧ (live x.2 = true → e_state x.2 = PMDA_CACHE_ACTIVE ∨ e_state x.2 = PMDA_CACHE_INACTIVE)) l;
  eo_sorted : StronglySorted (λ x y, e_inst x.2 <= e_inst y.2) l;
  eo_inst : ∀ p e q f, (p, e) ∈ l → (q, f) ∈ l → live e = true → live f = true → e_inst e = e_inst f → p = q;
  eo_prefix : ∀ p e q f, (p, e) ∈ l → (q, f) ∈ l → live e = true → live f = true → prefix e = prefix f → p = q }.
Record inv_but (x : option nat) (h : hdr_t) : Prop := {
  inv_entries : entries_ok (fresh h) (elist h);
  inv_size : ∃ k, hbits h = Z.ones (Z.of_nat k) ∧ length (ctl_inst h) = (2 ^ k)%nat ∧ length (ctl_name h) = (2 ^ k)%nat;
  inv_ci : table_ok (inst_idx (hbits h)) (ctl_inst h) (elist h);
  inv_cn : table_ok (name_idx (hbits h)) (ctl_name h) (elist h);
  inv_ci_all : covered x (ctl_inst h) (elist h);
  inv_cn_all : covered x (ctl_name h) (elist h);
  inv_last_none : last h = None → elist h = [];
  inv_last : ∀ q e, last h = Some q → (q, e) ∈ elist h → list.last (elist h) = Some (q, e) }.
Abbreviation inv := (inv_but None).
(** [last] is not the address of an entry that was freed. *)
Definition last_ok (h : hdr_t) : Prop := ∀ q, last h = Some q → q ∈ ids (elist h).

Lemma deref_spec l p e : NoDup (ids l) → deref l p = Some e ↔ (p, e) ∈ l.
Proof.
  induction l as [|[q f] l IH]; intros Hn; [split; [done | by intros ?%elem_of_nil] |]. rewrite fmap_cons in Hn.
  apply NoDup_cons in Hn as [Hq Hn]. simpl in *. rewrite elem_of_cons. destruct (Nat.eqb_spec q p) as [->|Hne].
  - split; [intros [= ->]; by left |]. intros [[= ->] | Hin]; [done |]. destruct Hq. by apply (list_elem_of_fmap_2' fst l (p, e)).
  - rewrite IH by done. split; [by right |]. intros [[= -> ->] | Hin]; done.
Qed.
Lemma deref_is_Some l p : p ∈ ids l → is_Some (deref l p).
Proof.
  induction l as [|[q f] l IH]; [by intros ?%elem_of_nil |]. rewrite fmap_cons, elem_of_cons. simpl.
  destruct (Nat.eqb_spec q p); [done |]. intros [-> | ?]; [done | by apply IH].
Qed.
Lemma entry_unique (l : list (nat * entry_t)) p e f : NoDup (ids l) → (p, e) ∈ l → (p, f) ∈ l → e = f.
Proof. intros Hn He Hf. apply (deref_spec l p e Hn) in He. apply (deref_spec l p f Hn) in Hf. congruence. Qed.
Lemma in_ids (l : list (nat * entry_t)) p (e : entry_t) : (p, e) ∈ l → p ∈ ids l.
Proof. intros H. by apply (list_elem_of_fmap_2' fst l (p, e)). Qed.

Lemma ones_idx x k : 0 <= Z.land x (Z.ones (Z.of_nat k)) ∧ (Z.to_nat (Z.land x (Z.ones (Z.of_nat k))) < 2 ^ k)%nat.
Proof.
  rewrite Z.land_ones by lia. pose proof (Z.mod_pos_bound x (2 ^ Z.of_nat k) ltac:(lia)).
  split; [lia |]. apply Nat2Z.inj_lt. rewrite Z2Nat.id by lia. rewrite Nat2Z.inj_pow. lia.
Qed.

(** An entry in use is in the chain it hashes to. *)
Lemma in_bucket idx ctl (l : list (nat * entry_t)) p e :
  NoDup (ids l) → table_ok idx ctl l → p ∈ concat ctl → (p, e) ∈ l → ∃ chain, ctl !! idx e = Some chain ∧ p ∈ chain.
Proof.
  intros Hn Ht (chain & Hc & Hp)%list_elem_of_In%in_concat He. apply list_elem_of_In in Hc, Hp.
  apply list_elem_of_lookup in Hc as (i & Hi). destruct (Ht i chain p Hi Hp) as (f & Hf & <-).
  rewrite (entry_unique _ _ _ _ Hn He Hf). by exists chain.
Qed.
Lemma chain_in_list idx ctl l i chain p : table_ok idx ctl l → ctl !! i = Some chain → p ∈ chain → is_Some (deref l p).
Proof. intros Ht Hi Hp. destruct (Ht i chain p Hi Hp) as (e & He & _). by apply deref_is_Some, (in_ids _ _ e). Qed.

(** The hash of a name depends on its first [len] characters only. *)
Lemma sc_take k n i : (i < n)%nat → sc (take n k) i = sc k i.
Proof. intros H. unfold sc. rewrite lookup_take. by rewrite decide_True by lia. Qed.
Lemma hash_blocks_take fuel : ∀ k len abc,
  hash_blocks fuel (take len k) len abc =
  let '(k', len', abc') := hash_blocks fuel k len abc in (take len' k', len', abc').
Proof.
  induction fuel as [|fuel IH]; intros k len abc; [done |]. cbn [hash_blocks].
  destruct (Nat.ltb_spec len 12); [done |]. destruct abc as [[a b] c].
  rewrite skipn_firstn_comm, <- IH. unfold word4. by rewrite !sc_take by lia.
Qed.
Lemma hash_take k len i : hash (take len k) len i = hash k len i.
Proof.
  unfold hash. rewrite hash_blocks_take. destruct (hash_blocks len k len _) as [[k' len'] [[a b] c]].
  assert (∀ j n, (if (j <? len')%nat then sc (take len' k') j * 2 ^ n else 0) = (if (j <? len')%nat then sc k' j * 2 ^ n else 0)) as E.
  { intros j n. destruct (Nat.ltb_spec j len'); [by rewrite sc_take | done]. }
  by rewrite !E.
Qed.
Lemma hash_prefix e name :
  e_hashlen e = get_hashlen (e_name e) → prefix e = key_name name →
  hash_str (e_name e) (e_hashlen e) = hash_str name (get_hashlen name).
Proof.
  intros He Hp. unfold hash_str. unfold prefix, key_name in Hp.
  assert (∀ s, get_hashlen s <= length s)%nat as Hle by (induction s as [|c s IH]; simpl; [lia | case_bool_decide; lia]).
  assert (e_hashlen e = get_hashlen name) as El.
  { apply (f_equal length) in Hp. rewrite !length_take in Hp. pose proof (Hle name). pose proof (Hle (e_name e)). lia. }
  rewrite <- hash_take, Hp, El. apply hash_take.
Qed.

(** ** Searches *)

Lemma find_inst_spec l inst p :
  find_inst l inst = Some p → ∃ e, (p, e) ∈ l ∧ e_inst e = inst ∧ live e = true.
Proof.
  induction l as [|[q e] l IH]; simpl; [done |]. destruct (Z.eqb_spec (e_inst e) inst), (live e) eqn:El; simpl.
  - intros [= ->]. exists e. split_and!; [by left | done | done].
  - intros (f & ? & ? & ?)%IH. exists f. split_and!; [by right | done | done].
  - intros (f & ? & ? & ?)%IH. exists f. split_and!; [by right | done | done].
  - intros (f & ? & ? & ?)%IH. exists f. split_and!; [by right | done | done].
Qed.
Lemma find_inst_none l inst p e : find_inst l inst = None → (p, e) ∈ l → live e = true → e_inst e ≠ inst.
Proof.
  induction l as [|[q f] l IH]; simpl; [by intros _ ?%elem_of_nil |].
  destruct (Z.eqb_spec (e_inst f) inst), (live f) eqn:El; simpl; [done | | |];
    intros Hn [[= -> ->] | Hin]%elem_of_cons Hl; try congruence; by apply IH.
Qed.
Lemma chain_inst_spec l chain inst r :
  NoDup (ids l) → chain_inst l chain inst = Ok r →
  match r with
  | Some p => ∃ e, p ∈ chain ∧ (p, e) ∈ l ∧ e_inst e = inst ∧ live e = true
  | None => ∀ p e, p ∈ chain → (p, e) ∈ l → live e = true → e_inst e ≠ inst
  end.
Proof.
  intros Hn. induction chain as [|q chain IH]; simpl; [intros [= <-]; by intros ? ? ?%elem_of_nil |].
  destruct (deref l q) as [f|] eqn:Ef; [| done]. apply deref_spec in Ef; [| done].
  destruct (Z.eqb_spec (e_inst f) inst), (live f) eqn:El; simpl.
  1: intros [= <-]; exists f; split_and!; [by left | done | done | done].
  all: intros Hr%IH; destruct r as [p|]; [destruct Hr as (e' & ? & ? & ? & ?); exists e'; split_and!; [by right | done | done | done] |];
    intros p e' [-> | Hp]%elem_of_cons He Hl; [| by eapply Hr]; pose proof (entry_unique _ _ _ _ Hn He Ef); congruence.
Qed.
Lemma chain_inst_total l chain inst : (∀ p, p ∈ chain → is_Some (deref l p)) → ∃ r, chain_inst l chain inst = Ok r.
Proof.
  induction chain as [|q chain IH]; intros H; simpl; [by eexists |]. destruct (H q) as [f ->]; [by left |].
  destruct (_ && _); [by eexists |]. apply IH. intros p Hp. apply H. by right.
Qed.

Lemma name_eq_prefix e name :
  e_hashlen e = get_hashlen (e_name e) → name_eq e name (get_hashlen name) ≠ 0 ↔ prefix e = key_name name.
Proof.
  intros He. unfold name_eq, prefix, key_name.
  assert (∀ s, get_hashlen s <= length s)%nat as Hle by (induction s as [|c s IH]; simpl; [lia | case_bool_decide; lia]).
  destruct (Nat.eqb_spec (e_hashlen e) (get_hashlen name)) as [E|E]; simpl.
  - rewrite E. case_bool_decide as Ht; simpl; [| by split]. split; [done |]. intros _.
    destruct (_ =? _)%nat; [done |]. destruct (_ =? _)%nat; [done |]. by case_bool_decide.
  - split; [done |]. intros Ht%(f_equal length). rewrite !length_take in Ht. pose proof (Hle name). pose proof (Hle (e_name e)). lia.
Qed.
Lemma find_name_spec l name r :
  find_name l name (get_hashlen name) = r → Forall (λ x, e_hashlen x.2 = get_hashlen (e_name x.2)) l →
  match r with
  | (Some p, sts) => ∃ e, (p, e) ∈ l ∧ live e = true ∧ prefix e = key_name name ∧ sts = name_eq e name (get_hashlen name)
  | (None, sts) => sts = 0 ∧ ∀ p e, (p, e) ∈ l → live e = true → prefix e ≠ key_name name
  end.
Proof.
  revert r. induction l as [|[q e] l IH]; intros r; simpl.
  { intros <- _. split; [done |]. by intros ? ? ?%elem_of_nil. }
  intros Hr [Hq Hl]%Forall_cons. simpl in Hq. pose proof (name_eq_prefix e name Hq) as Hp.
  assert (find_name l name (get_hashlen name) = r → (live e = true → prefix e ≠ key_name name) →
    match r with
    | (Some p, sts) => ∃ e0, (p, e0) ∈ (q, e) :: l ∧ live e0 = true ∧ prefix e0 = key_name name ∧ sts = name_eq e0 name (get_hashlen name)
    | (None, sts) => sts = 0 ∧ ∀ p e0, (p, e0) ∈ (q, e) :: l → live e0 = true → prefix e0 ≠ key_name name
    end) as Hrest.
  { intros Hr' Hne. specialize (IH r Hr' Hl). destruct r as [[p|] sts].
    - destruct IH as (f & ? & ? & ? & ?). exists f. split_and!; [by right | done | done | done].
    - destruct IH as [? IH]. split; [done |]. intros p f [[= -> ->] | Hin]%elem_of_cons; [done | by eapply IH]. }
  destruct (live e) eqn:El; [| by apply Hrest]. destruct (Z.eqb_spec (name_eq e name (get_hashlen name)) 0) as [E|E]; simpl in Hr.
  - apply Hrest; [done |]. intros _ Heq. by apply Hp in Heq.
  - subst r. exists e. split_and!; [by left | done | by apply Hp | done].
Qed.
Lemma chain_name_spec l chain name r :
  NoDup (ids l) → Forall (λ x, e_hashlen x.2 = get_hashlen (e_name x.2)) l → chain_name l chain name (get_hashlen name) = Ok r →
  match r with
  | (Some p, sts) => ∃ e, (p, e) ∈ l ∧ live e = true ∧ prefix e = key_name name ∧ sts = name_eq e name (get_hashlen name)
  | (None, sts) => sts = 0 ∧ ∀ p e, p ∈ chain → (p, e) ∈ l → live e = true → prefix e ≠ key_name name
  end.
Proof.
  intros Hn Hl. induction chain as [|q chain IH]; simpl.
  { intros [= <-]. split; [done |]. by intros ? ? ?%elem_of_nil. }
  destruct (deref l q) as [f|] eqn:Ef; [| done]. apply deref_spec in Ef; [| done].
  rewrite Forall_forall in Hl. pose proof (name_eq_prefix f name (Hl _ Ef)) as Hp.
  assert ((live f = true → prefix f ≠ key_name name) → chain_name l chain name (get_hashlen name) = Ok r →
    match r with
    | (Some p, sts) => ∃ e0, (p, e0) ∈ l ∧ live e0 = true ∧ prefix e0 = key_name name ∧ sts = name_eq e0 name (get_hashlen name)
    | (None, sts) => sts = 0 ∧ ∀ p e0, p ∈ q :: chain → (p, e0) ∈ l → live e0 = true → prefix e0 ≠ key_name name
    end) as Hrest.
  { intros Hne Hr. specialize (IH Hr). destruct r as [[p|] sts]; [done |]. destruct IH as [? IH]. split; [done |].
    intros p e [-> | Hin]%elem_of_cons He Hlv; [| by eapply IH]. rewrite (entry_unique _ _ _ _ Hn He Ef) in *. by apply Hne. }
  destruct (live f) eqn:El; [| by apply Hrest]. destruct (Z.eqb_spec (name_eq f name (get_hashlen name)) 0) as [E|E]; simpl.
  - apply Hrest. intros _ Heq. by apply Hp in Heq.
  - intros [= <-]. exists f. split_and!; [done | done | by apply Hp | done].
Qed.
Lemma chain_name_total l chain name n : (∀ p, p ∈ chain → is_Some (deref l p)) → ∃ r, chain_name l chain name n = Ok r.
Proof.
  induction chain as [|q chain IH]; intros H; simpl; [by eexists |]. destruct (H q) as [f ->]; [by left |].
  assert (∃ r, chain_name l chain name n = Ok r) as Hr by (apply IH; intros p Hp; apply H; by right).
  destruct (live f); [| done]. destruct (negb _); [by eexists | done].
Qed.

Lemma find_by_inst x h inst :
  inv_but x h → ∃ r, find_entry h None inst = Ok (r, 0) ∧
  match r with
  | Some p => ∃ e, (p, e) ∈ elist h ∧ e_inst e = inst ∧ live e = true
  | None => ∀ p e, (p, e) ∈ elist h → live e = true → x ≠ Some p → e_inst e ≠ inst
  end.
Proof.
  intros [Ho (k & Hb & Hl1 & Hl2) Hci _ Hcov _ _ _]. unfold find_entry. rewrite Hb in *.
  destruct (ones_idx inst k) as [_ Hlt]. destruct (lookup_lt_is_Some_2 (ctl_inst h) (Z.to_nat (Z.land inst (Z.ones (Z.of_nat k))))) as [chain Hc]; [lia |].
  rewrite Hc. destruct (chain_inst_total (elist h) chain inst) as [r Hr]; [intros p Hp; by eapply chain_in_list |].
  rewrite Hr. exists r. split; [done |]. apply chain_inst_spec in Hr; [| apply Ho]. destruct r as [p|].
  - destruct Hr as (e & _ & He). by exists e.
  - intros p e He Hlv Hx Hi. destruct (in_bucket _ _ _ _ _ (eo_ids _ _ Ho) Hci (Hcov p e He Hlv Hx) He) as (chain' & Hc' & Hp).
    unfold inst_idx in Hc'. rewrite Hi, Hc in Hc'. injection Hc' as <-. by apply (Hr p e).
Qed.
Lemma find_by_name x h name i :
  inv_but x h → ∃ r sts, find_entry h (Some name) i = Ok (r, sts) ∧
  match r with
  | Some p => ∃ e, (p, e) ∈ elist h ∧ live e = true ∧ prefix e = key_name name ∧ sts = name_eq e name (get_hashlen name)
  | None => sts = 0 ∧ ∀ p e, (p, e) ∈ elist h → live e = true → x ≠ Some p → prefix e ≠ key_name name
  end.
Proof.
  intros [Ho (k & Hb & Hl1 & Hl2) _ Hcn _ Hcov _ _]. unfold find_entry. rewrite Hb in *.
  destruct (ones_idx (hash_str name (get_hashlen name)) k) as [_ Hlt].
  destruct (lookup_lt_is_Some_2 (ctl_name h) (Z.to_nat (Z.land (hash_str name (get_hashlen name)) (Z.ones (Z.of_nat k))))) as [chain Hc]; [lia |].
  rewrite Hc. destruct (chain_name_total (elist h) chain name (get_hashlen name)) as [r Hr]; [intros p Hp; by eapply chain_in_list |].
  rewrite Hr. exists r.1, r.2. split; [by destruct r |]. apply chain_name_spec in Hr; [| apply Ho | apply Ho]. destruct r as [[p|] sts]; [done |].
  destruct Hr as [? Hr]. split; [done |]. intros p e He Hlv Hx Hp.
  destruct (in_bucket _ _ _ _ _ (eo_ids _ _ Ho) Hcn (Hcov p e He Hlv Hx) He) as (chain' & Hc' & Hin).
  pose proof (eo_names _ _ Ho) as Hnm. rewrite Forall_forall in Hnm. specialize (Hnm _ He). simpl in Hnm.
  assert (name_idx (Z.ones (Z.of_nat k)) e = Z.to_nat (Z.land (hash_str name (get_hashlen name)) (Z.ones (Z.of_nat k)))) as E.
  { unfold name_idx. do 2 f_equal. by apply hash_prefix. }
  rewrite E, Hc in Hc'. injection Hc' as <-. by apply (Hr p e).
Qed.

(** ** Reorganising *)

Lemma concat_alter p (ctl : list (list nat)) i :
  (i < length ctl)%nat → ∀ q, q ∈ concat (alter (cons p) i ctl) ↔ q = p ∨ q ∈ concat ctl.
Proof.
  revert i. induction ctl as [|c ctl IH]; intros i Hi q; simpl in *; [lia |]. destruct i as [|i]; simpl.
  - change (concat (alter (cons p) 0%nat (c :: ctl))) with ((p :: c) ++ concat ctl). simpl. rewrite elem_of_cons, !elem_of_app. tauto.
  - change (concat (alter (cons p) (S i) (c :: ctl))) with (c ++ concat (alter (cons p) i ctl)).
    rewrite elem_of_app, elem_of_app. change (list_alter (cons p) i ctl) with (alter (cons p) i ctl). rewrite IH by lia. tauto.
Qed.
Lemma table_ok_alter idx ctl l p e :
  table_ok idx ctl l → (p, e) ∈ l → table_ok idx (alter (cons p) (idx e) ctl) l.
Proof.
  intros Ht He i chain q Hi Hq. rewrite list_lookup_alter in Hi.
  destruct (decide (idx e = i)) as [Heq|Hne].
  - subst i. destruct (ctl !! idx e) as [c|] eqn:Ec; [| done]. simpl in Hi. injection Hi as <-.
    apply elem_of_cons in Hq as [-> | Hq]; [by exists e | by eapply Ht].
  - by eapply Ht.
Qed.
Lemma table_ok_mono idx ctl l l' : table_ok idx ctl l → (∀ x, x ∈ l → x ∈ l') → table_ok idx ctl l'.
Proof. intros Ht Hs i c p Hi Hp. destruct (Ht i c p Hi Hp) as (e & ? & ?). exists e. auto. Qed.

Lemma rehash_spec idx l : ∀ old ctl,
  NoDup (ids l) → (∀ p, p ∈ old → p ∈ ids l) → (∀ p e, (p, e) ∈ l → (idx e < length ctl)%nat) → table_ok idx ctl l →
  ∃ ctl', rehash idx l old ctl = Ok ctl' ∧ length ctl' = length ctl ∧ table_ok idx ctl' l
    ∧ ∀ p, p ∈ concat ctl' ↔ p ∈ old ∨ p ∈ concat ctl.
Proof.
  induction old as [|q old IH]; intros ctl Hn Hold Hlt Ht; cbn [rehash].
  { exists ctl. split_and!; [done | done | done |]. intros p. rewrite elem_of_nil. tauto. }
  destruct (deref_is_Some l q) as [e He]; [apply Hold; by left |]. rewrite He. apply deref_spec in He; [| done].
  destruct (IH (alter (cons q) (idx e) ctl)) as (ctl' & -> & Hlen & Ht' & Hc).
  - done.
  - intros p Hp. apply Hold. by right.
  - intros p f Hf. rewrite length_alter. by eapply Hlt.
  - by apply table_ok_alter.
  - exists ctl'. rewrite length_alter in Hlen. split_and!; [done | done | done |]. intros p.
    rewrite Hc, concat_alter, elem_of_cons by (by eapply Hlt). tauto.
Qed.
Lemma reorder_spec l : ∀ ctl,
  (∀ p, p ∈ concat ctl → is_Some (deref l p)) →
  ∃ ctl', reorder l ctl = Ok ctl' ∧ length ctl' = length ctl
    ∧ ∀ i c', ctl' !! i = Some c' → ∃ c, ctl !! i = Some c
        ∧ ∀ p, p ∈ c' ↔ p ∈ c ∧ (in_state l PMDA_CACHE_ACTIVE p || in_state l PMDA_CACHE_INACTIVE p = true).
Proof.
  induction ctl as [|c ctl IH]; intros Hd; cbn [reorder].
  { exists []. split_and!; [done | done | done]. }
  simpl in Hd. destruct IH as (ctl' & E & Hlen & Hc); [intros p Hp; apply Hd, elem_of_app; by right |].
  unfold reorder_chain. rewrite (proj2 (forallb_forall _ c)).
  - cbn [mbind res_bind]. rewrite E. cbn [mbind res_bind]. eexists. split; [done |]. split; [simpl; lia |].
    intros [|i] c' Hi; simpl in Hi.
    + injection Hi as <-. exists c. split; [done |]. intros p. rewrite elem_of_app, !list_elem_of_In, !filter_In, orb_true_iff.
      tauto.
    + by apply Hc.
  - intros p Hp%list_elem_of_In. apply bool_decide_eq_true, Hd, elem_of_app. by left.
Qed.

Lemma concat_ids idx ctl l p : table_ok idx ctl l → p ∈ concat ctl → p ∈ ids l.
Proof.
  intros Ht (chain & Hc & Hp)%list_elem_of_In%in_concat. apply list_elem_of_In in Hc, Hp.
  apply list_elem_of_lookup in Hc as (i & Hi). destruct (Ht i chain p Hi Hp) as (e & He & _). by eapply in_ids.
Qed.
Lemma rehash_ok idx ctl l k x :
  NoDup (ids l) → covered x ctl l → (∃ idx0, table_ok idx0 ctl l) → (∀ e, (idx e < 2 ^ S k)%nat) →
  ∃ ctl', rehash idx l (concat ctl) (replicate (2 ^ S k) []) = Ok ctl' ∧ length ctl' = (2 ^ S k)%nat
    ∧ table_ok idx ctl' l ∧ covered x ctl' l.
Proof.
  intros Hn Hc (idx0 & Ht) Hlt.
  destruct (rehash_spec idx l (concat ctl) (replicate (2 ^ S k) [])) as (ctl' & E & Hlen & Ht' & Hm).
  - done.
  - intros p Hp. by eapply concat_ids.
  - intros p e _. by rewrite length_replicate.
  - intros i c p Hi Hp. apply lookup_replicate in Hi as [-> _]. by apply elem_of_nil in Hp.
  - exists ctl'. rewrite length_replicate in Hlen. split_and!; [done | done | done |].
    intros p e He Hl Hx. apply Hm. left. by eapply Hc.
Qed.
Lemma resize_inv x h :
  inv_but x h → let n := (2 * length (ctl_inst h))%nat in let bits := Z.lor (Z.shiftl (hbits h) 1) 1 in
  ∃ ci cn, rehash (inst_idx bits) (elist h) (concat (ctl_inst h)) (replicate n []) = Ok ci
    ∧ rehash (name_idx bits) (elist h) (concat (ctl_name h)) (replicate n []) = Ok cn
    ∧ length ci = n ∧ inv_but x (set_ctl ci cn bits h).
Proof.
  intros [Ho (k & Hb & Hl1 & Hl2) Hci Hcn Hc1 Hc2 Hlast Hlast2] n bits.
  assert (n = (2 ^ S k)%nat) as -> by (unfold n; rewrite Hl1; simpl; lia).
  assert (bits = Z.ones (Z.of_nat (S k))) as ->.
  { unfold bits. rewrite Hb. apply Z.bits_inj'. intros i Hi. rewrite Z.lor_spec, Z.shiftl_spec by done.
    rewrite !Z.testbit_ones by lia. replace (Z.testbit 1 i) with (i =? 0).
    - destruct (Z.eqb_spec i 0) as [->|]; [by rewrite orb_true_r|]. rewrite orb_false_r.
      destruct (Z.leb_spec 0 (i - 1)), (Z.leb_spec 0 i), (Z.ltb_spec (i - 1) (Z.of_nat k)), (Z.ltb_spec i (Z.of_nat (S k))); simpl; lia.
    - change 1 with (2 ^ 0). rewrite Z.pow2_bits_eqb by done. destruct (Z.eqb_spec i 0), (Z.eqb_spec 0 i); lia. }
  destruct (rehash_ok (inst_idx (Z.ones (Z.of_nat (S k)))) (ctl_inst h) (elist h) k x) as (ci & E1 & L1 & T1 & C1);
    [apply Ho | done | by eexists | intros e; apply ones_idx |].
  destruct (rehash_ok (name_idx (Z.ones (Z.of_nat (S k)))) (ctl_name h) (elist h) k x) as (cn & E2 & L2 & T2 & C2);
    [apply Ho | done | by eexists | intros e; apply ones_idx |].
  exists ci, cn. split_and!; [done | done | done |]. split; [done | by exists (S k) | done ..].
Qed.

Lemma filter_sublist {A} (f : A → bool) l : sublist (List.filter f l) l.
Proof. induction l as [|x l IH]; simpl; [done |]. destruct (f x); [by apply sublist_skip | by apply sublist_cons]. Qed.
Lemma filter_sorted {A} (R : A → A → Prop) (f : A → bool) l : StronglySorted R l → StronglySorted R (List.filter f l).
Proof.
  induction 1 as [|x l Hs IH Hf]; simpl; [constructor |]. destruct (f x); [| done]. constructor; [done |].
  apply Forall_forall. intros y Hy. rewrite Forall_forall in Hf.
  apply Hf. eapply elem_of_sublist; [exact Hy | apply filter_sublist].
Qed.
Lemma filter_last {A} (f : A → bool) l x : list.last l = Some x → f x = true → list.last (List.filter f l) = Some x.
Proof. intros (l' & ->)%last_Some Hf. rewrite List.filter_app. simpl. rewrite Hf. apply last_snoc. Qed.
Lemma in_filter {A} (f : A → bool) (l : list A) x : x ∈ List.filter f l ↔ x ∈ l ∧ f x = true.
Proof. by rewrite !list_elem_of_In, filter_In. Qed.
Abbreviation live_of l := (List.filter (λ x, live x.2) l).
Lemma entries_ok_live b l : entries_ok b l → entries_ok b (live_of l).
Proof.
  intros [H1 H2 H3 H4 H5 H6 H7]. pose proof (filter_sublist (λ x : nat * entry_t, live x.2) l) as Hs. split.
  - eapply sublist_NoDup; [exact H1 |]. by apply fmap_sublist.
  - apply Forall_forall. rewrite Forall_forall in H2. intros x [Hx _]%in_filter. auto.
  - apply Forall_forall. rewrite Forall_forall in H3. intros x [Hx _]%in_filter. auto.
  - apply Forall_forall. rewrite Forall_forall in H4. intros x [Hx _]%in_filter. auto.
  - by apply filter_sorted.
  - intros p e q f [? _]%in_filter [? _]%in_filter. eauto.
  - intros p e q f [? _]%in_filter [? _]%in_filter. eauto.
Qed.

Lemma reorder_ok idx ctl l x b :
  entries_ok b l → table_ok idx ctl l → covered x ctl l →
  ∃ ctl', reorder l ctl = Ok ctl' ∧ length ctl' = length ctl ∧ table_ok idx ctl' (live_of l) ∧ covered x ctl' (live_of l).
Proof.
  intros Ho Ht Hc. destruct (reorder_spec l ctl) as (ctl' & E & Hlen & Hm).
  { intros p Hp. by eapply deref_is_Some, concat_ids. }
  assert (∀ p e, (p, e) ∈ l → in_state l PMDA_CACHE_ACTIVE p || in_state l PMDA_CACHE_INACTIVE p = live e) as Hin.
  { intros p e He. unfold in_state. rewrite (proj2 (deref_spec l p e (eo_ids _ _ Ho)) He).
    pose proof (eo_values _ _ Ho) as Hv. rewrite Forall_forall in Hv. destruct (Hv _ He) as [_ Hst]. cbn [snd] in Hst.
    unfold live in *. destruct (Z.eqb_spec (e_state e) PMDA_CACHE_EMPTY) as [->|]; [done |]. simpl.
    by destruct Hst as [-> | ->]. }
  exists ctl'. split_and!; [done | done | |].
  - intros i c' p Hi Hp. destruct (Hm i c' Hi) as (c & Hic & Hcc). destruct (proj1 (Hcc p) Hp) as [Hp' Hst].
    destruct (Ht i c p Hic Hp') as (e & He & Hidx). exists e. split; [| done]. apply in_filter. split; [done |]. cbn [snd]. by rewrite <- (Hin p e He).
  - intros p e [He Hl]%in_filter _ Hx. simpl in Hl.
    destruct (in_bucket idx ctl l p e (eo_ids _ _ Ho) Ht (Hc p e He Hl Hx) He) as (c & Hi & Hp).
    destruct (lookup_lt_is_Some_2 ctl' (idx e)) as [c' Hc']; [rewrite Hlen; by eapply lookup_lt_Some |].
    destruct (Hm _ _ Hc') as (c0 & Hi0 & Hcc). rewrite Hi in Hi0. injection Hi0 as <-.
    apply list_elem_of_In, in_concat. exists c'. split; apply list_elem_of_In; [by eapply list_elem_of_lookup_2 |].
    apply Hcc. split; [done |]. rewrite (Hin p e He). done.
Qed.
Lemma redo_hash_ok x h resize :
  inv_but x h → ∃ h', redo_hash h resize = Ok h' ∧ inv_but x h' ∧ elist h' = live_of (elist h)
    ∧ last h' = last h ∧ fresh h' = fresh h ∧ ins_mode h' = ins_mode h ∧ indom h' = indom h ∧ nentry h' = nentry h.
Proof.
  intros Hi. unfold redo_hash.
  assert (∃ h1, (if resize then resize_hash h else Ok h) = Ok h1 ∧ inv_but x h1 ∧ elist h1 = elist h ∧ last h1 = last h
    ∧ fresh h1 = fresh h ∧ ins_mode h1 = ins_mode h ∧ indom h1 = indom h ∧ nentry h1 = nentry h) as (h1 & -> & Hi1 & E1 & E2 & E3 & E4 & E5 & E6).
  { destruct resize; [| by exists h]. unfold resize_hash.
    destruct (resize_inv x h Hi) as (ci & cn & -> & -> & _ & Hi1). cbn [mbind res_bind].
    eexists. split; [done |]. by split_and!. }
  cbn [mbind res_bind]. pose proof Hi1 as [Ho Hsz Hci Hcn Hc1 Hc2 Hl1 Hl2].
  destruct (reorder_ok _ _ _ x _ Ho Hci Hc1) as (ci & -> & L1 & T1 & C1).
  destruct (reorder_ok _ _ _ x _ Ho Hcn Hc2) as (cn & -> & L2 & T2 & C2). cbn [mbind res_bind].
  eexists. split; [done |]. split_and!; [| simpl; by rewrite E1 | done ..].
  split; cbn [set_list set_ctl elist last fresh hbits ctl_inst ctl_name].
  - by apply entries_ok_live.
  - destruct Hsz as (k & ? & ? & ?). exists k. split_and!; [done | lia | lia].
  - done.
  - done.
  - done.
  - done.
  - intros Hn. by rewrite (Hl1 Hn).
  - intros q e Hq [Hin Hlv]%in_filter. apply filter_last; [by apply Hl2 | done].
Qed.
End Cache.
