(* ===== verification/CacheOps.v ===== *)
(** The operations on one cache, src/libpcp_pmda/src/cache.c: inserting entries, storing,
    changing the states, walking and reorganising keep the invariant of [Cache], and what
    the lookups find after a store. *)
From stdpp Require Import sorting.
From S2P Require Import Prelude Memory Types PduIO PduSimple PduInstance Cache.
Import Cache.Cache.

Lemma ok_bind {A B} (m : res A) (f : A → res B) b : m ≫= f = Ok b → ∃ a, m = Ok a ∧ f a = Ok b.
Proof. destruct m; [| done ..]. intros E. by eexists. Qed.

(** ** Inserting *)

(** [last_e] is the place of [inst] in a list. *)
Definition splits (l : list (nat * entry_t)) (inst : Z) (last_e : option nat) : Prop :=
  ∃ l1 l2, l = l1 ++ l2 ∧ last_e = fst <$> list.last l1
    ∧ Forall (λ x, e_inst x.2 < inst) l1 ∧ Forall (λ x, inst <= e_inst x.2) l2.

Lemma sorted_tail_ge (l : list (nat * entry_t)) p e i :
  StronglySorted (λ x y, e_inst x.2 <= e_inst y.2) ((p, e) :: l) → i <= e_inst e → Forall (λ x, i <= e_inst x.2) ((p, e) :: l).
Proof.
  intros Hs Hi. apply StronglySorted_inv in Hs as [_ Hf]. constructor; [done |].
  eapply Forall_impl; [exact Hf |]. simpl. lia.
Qed.
Lemma place_splits inst : ∀ l l0,
  StronglySorted (λ x y, e_inst x.2 <= e_inst y.2) l → Forall (λ x, e_inst x.2 < inst) l0 →
  splits (l0 ++ l) inst (place l inst (fst <$> list.last l0)).
Proof.
  assert (∀ l last_e, Forall (λ x, inst <= e_inst x.2) l → place l inst last_e = last_e) as Hge.
  { intros l. induction l as [|[p e] l IH]; intros last_e Hl; [done |]. apply Forall_cons in Hl as [He Hl]. simpl in *.
    destruct (Z.ltb_spec (e_inst e) inst); [lia |]. destruct (Z.ltb_spec inst (e_inst e)); auto. }
  intros l. induction l as [|[p e] l IH]; intros l0 Hs H0; [by exists l0, [] |].
  destruct (Z.lt_ge_cases (e_inst e) inst) as [Hlt|Hle].
  - simpl. destruct (Z.ltb_spec (e_inst e) inst); [| lia]. specialize (IH (l0 ++ [(p, e)])).
    rewrite <- app_assoc, last_snoc in IH. apply IH; [by apply StronglySorted_inv in Hs as [? _] |].
    apply Forall_app. split; [done | by repeat constructor].
  - pose proof (sorted_tail_ge _ _ _ _ Hs Hle) as Hf. rewrite Hge by done. by exists l0, ((p, e) :: l).
Qed.
Lemma first_unused_splits : ∀ l l0 i0 inst last_e,
  StronglySorted (λ x y, e_inst x.2 <= e_inst y.2) l → Forall (λ x, e_inst x.2 < i0) l0 → 0 <= i0 <= INT_MAX →
  first_unused l i0 (fst <$> list.last l0) = Some (inst, last_e) →
  splits (l0 ++ l) inst last_e ∧ 0 <= inst <= INT_MAX ∧ Forall (λ x, e_inst x.2 ≠ inst) (l0 ++ l).
Proof.
  intros l. induction l as [|[p e] l IH]; intros l0 i0 inst last_e Hs H0 Hi; simpl.
  - intros [= <- <-]. split_and!; [by exists l0, [] | lia | lia |]. rewrite app_nil_r. eapply Forall_impl; [exact H0 |]. simpl. lia.
  - destruct (Z.ltb_spec i0 (e_inst e)).
    + intros [= <- <-]. pose proof (sorted_tail_ge _ _ _ (i0 + 1) Hs ltac:(lia)) as Hf. split_and!; [| lia | lia |].
      * exists l0, ((p, e) :: l). split_and!; [done | done | done |]. eapply Forall_impl; [exact Hf |]. simpl. lia.
      * apply Forall_app. split; [eapply Forall_impl; [exact H0 |] | eapply Forall_impl; [exact Hf |]]; simpl; lia.
    + destruct (Z.eqb_spec i0 INT_MAX); [done |]. intros Hr. specialize (IH (l0 ++ [(p, e)]) (i0 + 1) inst last_e).
      rewrite <- app_assoc, last_snoc in IH. apply IH; [by apply StronglySorted_inv in Hs as [? _] | | lia | done].
      apply Forall_app. split; [eapply Forall_impl; [exact H0 |]; simpl; lia | repeat constructor; simpl; lia].
Qed.
Lemma insert_after_splits x : ∀ (l1 l2 : list (nat * entry_t)),
  NoDup (ids (l1 ++ l2)) → insert_after (fst <$> list.last l1) x (l1 ++ l2) = Ok (l1 ++ x :: l2).
Proof.
  intros l1 l2. destruct (list.last l1) as [[q e]|] eqn:El; cycle 1.
  { apply last_None in El as ->. simpl. by destruct l2. }
  apply last_Some in El as (l & ->). simpl. rewrite <- !app_assoc. simpl.
  induction l as [|y l IH]; simpl; intros Hn; [by rewrite Nat.eqb_refl |].
  apply NoDup_cons in Hn as [Hy Hn]. destruct (Nat.eqb_spec y.1 q) as [E|_].
  - destruct Hy. rewrite E, fmap_app. apply elem_of_app. right. by left.
  - by rewrite IH.
Qed.
Lemma insert_sorted (l1 l2 : list (nat * entry_t)) x :
  StronglySorted (λ x y, e_inst x.2 <= e_inst y.2) (l1 ++ l2) →
  Forall (λ y, e_inst y.2 <= e_inst x.2) l1 → Forall (λ y, e_inst x.2 <= e_inst y.2) l2 →
  StronglySorted (λ x y, e_inst x.2 <= e_inst y.2) (l1 ++ x :: l2).
Proof.
  intros Hs H1 H2. induction l1 as [|y l1 IH]; simpl in *; [by constructor |].
  apply Forall_cons in H1 as [Hy H1]. apply StronglySorted_inv in Hs as [Hs Hf]. constructor; [by apply IH |].
  apply Forall_app in Hf as [? ?]. apply Forall_app. split; [done |]. by constructor.
Qed.
Lemma elem_middle (l1 l2 : list (nat * entry_t)) x y : y ∈ l1 ++ x :: l2 ↔ y = x ∨ y ∈ l1 ++ l2.
Proof. rewrite !elem_of_app, elem_of_cons. tauto. Qed.
(** No entry in use has this identifier or this name. *)
Definition no_clash (l : list (nat * entry_t)) (name : buf) (inst : Z) : Prop :=
  ∀ p e, (p, e) ∈ l → live e = true → e_inst e ≠ inst ∧ prefix e ≠ key_name name.
Lemma insert_entries_ok b l1 l2 name inst :
  entries_ok b (l1 ++ l2) → 0 <= inst <= INT_MAX → no_clash (l1 ++ l2) name inst →
  Forall (λ x, e_inst x.2 < inst) l1 → Forall (λ x, inst <= e_inst x.2) l2 →
  entries_ok (S b) (l1 ++ (b, new_entry name inst) :: l2).
Proof.
  intros [H1 H2 H3 H4 H5 H6 H7] Hi Hc Hl1 Hl2. rewrite Forall_forall in H2, H3, H4. split.
  - rewrite fmap_app, fmap_cons, NoDup_app. rewrite fmap_app, NoDup_app in H1. destruct H1 as (N1 & N2 & N3).
    assert (∀ l' : list (nat * entry_t), (∀ x, x ∈ l' → x ∈ l1 ++ l2) → b ∉ ids l') as Hb.
    { intros l' Hs ((q & e) & Heq & Hx)%list_elem_of_fmap. simpl in Heq. subst q. specialize (H2 _ (Hs _ Hx)). simpl in H2. lia. }
    split_and!; [done | |].
    + intros q Hq [-> | Hq2]%elem_of_cons; [| by apply (N2 q)]. apply (Hb l1); [| done]. intros x Hx. apply elem_of_app. by left.
    + apply NoDup_cons. split; [| done]. apply Hb. intros x Hx. apply elem_of_app. by right.
  - apply Forall_forall. intros x [-> | Hx]%elem_middle; [simpl; lia |]. specialize (H2 x Hx). simpl in *. lia.
  - apply Forall_forall. intros x [-> | Hx]%elem_middle; [done |]. auto.
  - apply Forall_forall. intros x [-> | Hx]%elem_middle; [split; [done |]; by right |]. auto.
  - apply insert_sorted; [done | |]; (eapply Forall_impl; [eassumption |]); simpl; lia.
  - intros p e q f [[= -> ->] | He]%elem_middle [[= -> ->] | Hf]%elem_middle Le Lf Heq; [done | | | by eapply H6].
    + by destruct (proj1 (Hc q f Hf Lf)).
    + by destruct (proj1 (Hc p e He Le)).
  - intros p e q f [[= -> ->] | He]%elem_middle [[= -> ->] | Hf]%elem_middle Le Lf Heq; [done | | | by eapply H7].
    + by destruct (proj2 (Hc q f Hf Lf)).
    + by destruct (proj2 (Hc p e He Le)).
Qed.

Lemma link_tables_ok h p e :
  inv_but (Some p) h → (p, e) ∈ elist h →
  inv (set_ctl (alter (cons p) (inst_idx (hbits h) e) (ctl_inst h)) (alter (cons p) (name_idx (hbits h) e) (ctl_name h)) (hbits h) h).
Proof.
  intros [Ho (k & Hb & L1 & L2) Hci Hcn Hc1 Hc2 Hl1 Hl2] He.
  assert (∀ idx ctl, (idx e < length ctl)%nat → covered (Some p) ctl (elist h) → covered None (alter (cons p) (idx e) ctl) (elist h)) as Hcov.
  { intros idx ctl Hlt Hc q f Hf Lf _. apply concat_alter; [done |]. destruct (decide (q = p)) as [->|]; [by left |].
    right. apply (Hc q f); congruence. }
  split; cbn [set_ctl elist last fresh hbits ctl_inst ctl_name]; try done.
  - exists k. by rewrite !length_alter.
  - by apply table_ok_alter.
  - by apply table_ok_alter.
  - apply Hcov; [rewrite L1, Hb; apply ones_idx | done].
  - apply Hcov; [rewrite L2, Hb; apply ones_idx | done].
Qed.
(** [last] is the address of an entry in use. *)
Definition last_live (h : hdr_t) : Prop := ∀ q, last h = Some q → ∃ e, (q, e) ∈ elist h ∧ live e = true.
Lemma last_live_ok h : last_live h → last_ok h.
Proof. intros H q Hq. destruct (H q Hq) as (e & He & _). by eapply in_ids. Qed.
Lemma new_last_ok h inst l1 l2 p e :
  elist h = l1 ++ l2 → inv h → e_inst e = inst → p ∉ ids (elist h) →
  Forall (λ x, e_inst x.2 < inst) l1 → Forall (λ x, inst <= e_inst x.2) l2 →
  (last_ok h → ∃ r, new_last h p inst = Ok r)
  ∧ ∀ r, new_last h p inst = Ok r →
      (r ≠ None) ∧ (r = Some p ∨ r = last h)
      ∧ ∀ q f, r = Some q → (q, f) ∈ l1 ++ (p, e) :: l2 → list.last (l1 ++ (p, e) :: l2) = Some (q, f).
Proof.
  intros El Hi Einst Hp H1 H2. unfold new_last. pose proof (eo_ids _ _ (inv_entries _ _ Hi)) as Hn.
  assert (∀ f, (p, f) ∈ l1 ++ (p, e) :: l2 → f = e) as Hpe.
  { intros f [[=] | Hf]%elem_middle; [done |]. rewrite <- El in Hf. destruct Hp. by eapply in_ids. }
  destruct (last h) as [q|] eqn:Elast; cycle 1.
  { pose proof (inv_last_none _ _ Hi Elast) as E0. rewrite E0 in El. symmetry in El. apply app_nil in El as [-> ->].
    split; [by eexists |]. intros r [= <-]. split_and!; [done | by left |]. intros q f [= <-] Hf. by rewrite (Hpe f Hf). }
  split.
  { intros Hok. destruct (deref_is_Some (elist h) q (Hok q Elast)) as [le ->]. by eexists. }
  intros r Hr. destruct (deref (elist h) q) as [le|] eqn:Ed; [| done]. apply deref_spec in Ed; [| done].
  pose proof (inv_last _ _ Hi q le Elast Ed) as Hlast. rewrite El in Hlast.
  injection Hr as <-. destruct (Z.ltb_spec (e_inst le) inst) as [Hlt|Hle].
  - split_and!; [done | by left |]. intros q' f [= <-] Hf. rewrite (Hpe f Hf).
    destruct (list.last l2) as [y|] eqn:E2.
    + rewrite list.last_app, E2 in Hlast. injection Hlast as ->. rewrite Forall_forall in H2.
      specialize (H2 (q, le) (list.last_Some_elem_of _ _ E2)). simpl in H2. lia.
    + apply last_None in E2 as ->. by rewrite last_snoc.
  - split_and!; [done | by right |]. intros q' f [= <-] Hf. destruct (list.last l2) as [y|] eqn:E2.
    + rewrite list.last_app, E2 in Hlast. injection Hlast as ->. rewrite list.last_app, last_cons, E2. f_equal. f_equal.
      apply elem_middle in Hf as [[= -> ->] | Hf].
      * destruct Hp. rewrite El. apply (in_ids _ _ le), elem_of_app. right. by apply list.last_Some_elem_of.
      * rewrite <- El in Hf. by eapply entry_unique.
    + apply last_None in E2 as ->. rewrite app_nil_r in *. rewrite Forall_forall in H1.
      specialize (H1 (q, le) (list.last_Some_elem_of _ _ Hlast)). simpl in H1. lia.
Qed.

(** The entries in use of [h'] are those of [h] and [p]. *)
Definition gains (h : hdr_t) (p : nat) (e : entry_t) (h' : hdr_t) : Prop :=
  (p, e) ∈ elist h' ∧ ∀ q f, live f = true → (q, f) ∈ elist h' ↔ (q = p ∧ f = e) ∨ (q, f) ∈ elist h.
Lemma linked_but h l1 l2 name inst last_e :
  inv h → elist h = l1 ++ l2 → 0 <= inst <= INT_MAX → no_clash (elist h) name inst →
  Forall (λ x, e_inst x.2 < inst) l1 → Forall (λ x, inst <= e_inst x.2) l2 → last_e ≠ None →
  (∀ q f, last_e = Some q → (q, f) ∈ l1 ++ (fresh h, new_entry name inst) :: l2 →
     list.last (l1 ++ (fresh h, new_entry name inst) :: l2) = Some (q, f)) →
  inv_but (Some (fresh h)) (linked h (l1 ++ (fresh h, new_entry name inst) :: l2) last_e).
Proof.
  intros [Ho (k & Hb & L1 & L2) Hci Hcn Hc1 Hc2 _ _] El Hi Hc H1 H2 Hne Hl.
  assert (∀ x, x ∈ elist h → x ∈ l1 ++ (fresh h, new_entry name inst) :: l2) as Hsub.
  { intros x Hx. apply elem_middle. right. by rewrite <- El. }
  assert (∀ ctl, covered None ctl (elist h) → covered (Some (fresh h)) ctl (l1 ++ (fresh h, new_entry name inst) :: l2)) as Hcov.
  { intros ctl Hcv q f [[= -> ->] | Hf]%elem_middle Lf Hx; [done |]. rewrite <- El in Hf. by apply (Hcv q f). }
  split; cbn [linked elist last fresh hbits ctl_inst ctl_name].
  - rewrite El in Ho, Hc. by apply insert_entries_ok.
  - by exists k.
  - by eapply table_ok_mono.
  - by eapply table_ok_mono.
  - by apply Hcov.
  - by apply Hcov.
  - done.
  - done.
Qed.
Lemma link_entry_ok h name inst last_e :
  inv h → splits (elist h) inst last_e → 0 <= inst <= INT_MAX → no_clash (elist h) name inst →
  (last_ok h → ∃ r, link_entry h name inst last_e = Ok r)
  ∧ ∀ p h', link_entry h name inst last_e = Ok (p, h') →
      inv h' ∧ gains h p (new_entry name inst) h' ∧ indom h' = indom h ∧ (last_live h → last_live h').
Proof.
  intros Hi (l1 & l2 & El & -> & H1 & H2) Hin Hc. unfold link_entry.
  pose proof (inv_entries _ _ Hi) as Ho. rewrite El, insert_after_splits by (rewrite <- El; apply Ho). cbn [mbind res_bind].
  assert (fresh h ∉ ids (elist h)) as Hp.
  { intros ((q & e) & Heq & Hx)%list_elem_of_fmap. simpl in Heq. subst q. pose proof (eo_fresh _ _ Ho) as Hf.
    rewrite Forall_forall in Hf. specialize (Hf _ Hx). simpl in Hf. lia. }
  destruct (new_last_ok h inst l1 l2 (fresh h) (new_entry name inst) El Hi eq_refl Hp H1 H2) as [Ht Hl].
  destruct (new_last h (fresh h) inst) as [r| |] eqn:Er; [| split; [intros (r & ?)%Ht; done | done] ..].
  destruct (Hl r eq_refl) as (Hne & Hcase & Hlast). cbn [mbind res_bind].
  pose proof (linked_but h l1 l2 name inst r Hi El Hin Hc H1 H2 Hne Hlast) as Hb.
  match goal with |- context [if ?b then redo_hash ?g true else Ok ?g] => set (c := b); set (h1 := g) in * end.
  assert (∃ h2, (if c then redo_hash h1 true else Ok h1) = Ok h2 ∧ inv_but (Some (fresh h)) h2 ∧ last h2 = r
    ∧ (∀ q f, live f = true → (q, f) ∈ elist h2 ↔ (q, f) ∈ elist h1) ∧ indom h2 = indom h) as (h2 & -> & Hb2 & E1 & E2 & E3).
  { destruct c; [| by exists h1]. destruct (redo_hash_ok _ _ true Hb) as (h2 & -> & ? & E & ? & ? & ? & ? & ?).
    exists h2. split_and!; [done | done | done | | done]. intros q f Lf. rewrite E, in_filter. simpl. tauto. }
  clearbody c. cbn [mbind res_bind]. split; [by eexists |]. intros p h' [= <- <-].
  assert (gains h (fresh h) (new_entry name inst) h2) as [G1 G2].
  { assert (∀ q f, (q, f) ∈ elist h1 ↔ (q = fresh h ∧ f = new_entry name inst) ∨ (q, f) ∈ elist h) as G.
    { intros q f. unfold h1. cbn [linked elist]. rewrite elem_middle, El. split; intros [Hq | ?]; [| by right | | by right].
      - injection Hq as -> ->. by left.
      - destruct Hq as [-> ->]. by left. }
    split; [apply E2; [done |]; apply G; by left |]. intros q f Lf. by rewrite E2, G. }
  split_and!; [by apply link_tables_ok | done | done |].
  intros Hll q Hq. cbn [set_ctl last elist] in *. rewrite E1 in Hq. destruct Hcase as [-> | ->].
  - injection Hq as <-. by exists (new_entry name inst).
  - destruct (Hll q Hq) as (e & He & Le). exists e. split; [| done]. apply G2; [done | by right].
Qed.

(** When all entries are in use, none is lost, and the new one is in its place. *)
Lemma link_entry_list h name inst l1 l2 p h' :
  inv h → elist h = l1 ++ l2 → Forall (λ x, live x.2 = true) (elist h) →
  link_entry h name inst (fst <$> list.last l1) = Ok (p, h') →
  elist h' = l1 ++ (p, new_entry name inst) :: l2 ∧ ins_mode h' = ins_mode h.
Proof.
  intros Hi El Hl. unfold link_entry.
  rewrite El, insert_after_splits by (rewrite <- El; apply (eo_ids _ _ (inv_entries _ _ Hi))). cbn [mbind res_bind].
  destruct (new_last h (fresh h) inst) as [r| |]; cbn [mbind res_bind]; [| done ..].
  match goal with |- context [if ?b then redo_hash ?g true else Ok ?g] => set (c := b); set (h1 := g) end.
  assert (live_of (elist h1) = elist h1) as E.
  { assert (Forall (λ x, live x.2 = true) (elist h1)) as Hall.
    { apply Forall_forall. rewrite Forall_forall in Hl. intros x [-> | Hx]%elem_middle; [done |]. apply Hl. by rewrite El. }
    clear -Hall. induction Hall as [|x l Hx _ IH]; simpl; [done |]. by rewrite Hx, IH. }
  intros Hr. assert (∃ h2, (if c then redo_hash h1 true else Ok h1) = Ok h2 ∧ elist h2 = elist h1 ∧ ins_mode h2 = ins_mode h1) as (h2 & E2 & E3 & E4).
  { destruct c; [| by exists h1]. unfold redo_hash in *. destruct (resize_hash h1) as [h1'| |] eqn:Er; [| done ..].
    assert (elist h1' = elist h1 ∧ ins_mode h1' = ins_mode h1) as [E5 E6].
    { unfold resize_hash in Er. apply ok_bind in Er as (ci & _ & Er). by apply ok_bind in Er as (cn & _ & [= <-]). }
    cbn [mbind res_bind] in *. destruct (reorder (elist h1') (ctl_inst h1')) as [ci| |]; cbn [mbind res_bind] in *; [| done ..].
    destruct (reorder (elist h1') (ctl_name h1')) as [cn| |]; cbn [mbind res_bind] in *; [| done ..].
    eexists. split; [done |]. cbn [set_list set_ctl elist ins_mode]. by rewrite E5, E. }
  rewrite E2 in Hr. cbn [mbind res_bind] in Hr. injection Hr as <- <-. cbn [set_ctl elist ins_mode]. by rewrite E3, E4.
Qed.

(** ** Changes of the entries *)

(** [f] is [e] after a change that keeps what the tables depend on. *)
Definition tame (e f : entry_t) : Prop :=
  e_inst f = e_inst e ∧ e_name f = e_name e ∧ e_hashlen f = e_hashlen e
  ∧ (live f = true → live e = true ∧ (e_state f = PMDA_CACHE_ACTIVE ∨ e_state f = PMDA_CACHE_INACTIVE)).
Definition tame_map (G : nat * entry_t → nat * entry_t) (l : list (nat * entry_t)) : Prop :=
  ∀ x, x ∈ l → (G x).1 = x.1 ∧ tame x.2 (G x).2.
Lemma fmap_ids G l : tame_map G l → ids (G <$> l) = ids l.
Proof.
  intros HG. rewrite <- list_fmap_compose. apply list_fmap_ext. intros i x Hx. simpl.
  by apply HG, list_elem_of_lookup_2 with i.
Qed.
Lemma in_map G l p f : tame_map G l → (p, f) ∈ G <$> l → ∃ e, (p, e) ∈ l ∧ G (p, e) = (p, f) ∧ tame e f.
Proof.
  intros HG ([q e] & E & Hx)%list_elem_of_fmap. destruct (HG _ Hx) as [H1 H2]. rewrite <- E in H1, H2. simpl in *. subst q.
  exists e. by split_and!.
Qed.
Lemma map_sorted (G : nat * entry_t → nat * entry_t) (l : list (nat * entry_t)) :
  tame_map G l → StronglySorted (λ x y, e_inst x.2 <= e_inst y.2) l → StronglySorted (λ x y, e_inst x.2 <= e_inst y.2) (G <$> l).
Proof.
  intros HG Hs. induction Hs as [|x l Hs IH Hf]; rewrite ?fmap_nil, ?fmap_cons; constructor.
  - apply IH. intros y Hy. apply HG. by right.
  - apply Forall_fmap, Forall_forall. rewrite Forall_forall in Hf. intros y Hy. simpl.
    destruct (HG x) as [_ (-> & _)]; [by left |]. destruct (HG y) as [_ (-> & _)]; [by right |]. auto.
Qed.
Lemma entries_ok_map G b l : tame_map G l → entries_ok b l → entries_ok b (G <$> l).
Proof.
  intros HG [H1 H2 H3 H4 H5 H6 H7]. rewrite Forall_forall in H2, H3, H4. split.
  - by rewrite fmap_ids.
  - apply Forall_forall. intros [p f] (e & He & _)%in_map; [| done]. by apply (H2 (p, e)).
  - apply Forall_forall. intros [p f] (e & He & _ & (_ & En & El & _))%in_map; [| done]. simpl. rewrite En, El. by apply (H3 (p, e)).
  - apply Forall_forall. intros [p f] (e & He & _ & (Ei & _ & _ & Est))%in_map; [| done]. simpl. rewrite Ei.
    split; [by apply (H4 (p, e)) |]. intros Lf. by apply Est.
  - by apply map_sorted.
  - intros p e q f (e' & He & _ & (Ei & _ & _ & Se))%in_map (f' & Hf & _ & (Fi & _ & _ & Sf))%in_map Le Lf Heq; [| done ..].
    eapply H6; [exact He | exact Hf | by apply Se | by apply Sf | congruence].
  - intros p e q f (e' & He & _ & (_ & En & Eh & Se))%in_map (f' & Hf & _ & (_ & Fn & Fh & Sf))%in_map Le Lf Heq; [| done ..].
    eapply H7; [exact He | exact Hf | by apply Se | by apply Sf |]. unfold prefix in *. congruence.
Qed.
Lemma inv_map G h : inv h → tame_map G (elist h) → inv (set_list (G <$> elist h) h).
Proof.
  intros [Ho Hsz Hci Hcn Hc1 Hc2 Hl1 Hl2] HG.
  assert (∀ idx ctl, (∀ e f, tame e f → idx f = idx e) → table_ok idx ctl (elist h) → table_ok idx ctl (G <$> elist h)) as Ht.
  { intros idx ctl Hidx Ht i c p Hi Hp. destruct (Ht i c p Hi Hp) as (e & He & <-). destruct (HG _ He) as [H1 H2].
    exists (G (p, e)).2. split; [| by apply Hidx]. apply list_elem_of_fmap. exists (p, e).
    split; [| done]. simpl in H1. by rewrite <- H1 at 1; destruct (G (p, e)). }
  assert (∀ ctl, covered None ctl (elist h) → covered None ctl (G <$> elist h)) as Hcov.
  { intros ctl Hc p f (e & He & _ & (_ & _ & _ & Hs))%in_map Lf _; [| done]. apply (Hc p e He); [| done]. by apply Hs. }
  split; cbn [set_list elist last fresh hbits ctl_inst ctl_name].
  - by apply entries_ok_map.
  - done.
  - apply Ht; [| done]. intros e f (Ei & _). unfold inst_idx. by rewrite Ei.
  - apply Ht; [| done]. intros e f (_ & En & Eh & _). unfold name_idx. by rewrite En, Eh.
  - by apply Hcov.
  - by apply Hcov.
  - intros Hn. by rewrite (Hl1 Hn).
  - intros q f Hq (e & He & E & _)%in_map; [| done]. rewrite fmap_last, (Hl2 q e Hq He). simpl. by rewrite E.
Qed.
Lemma inv_eq h h' :
  inv h → elist h' = elist h → last h' = last h → fresh h' = fresh h → ctl_inst h' = ctl_inst h → ctl_name h' = ctl_name h →
  hbits h' = hbits h → inv h'.
Proof. intros [] E1 E2 E3 E4 E5 E6. split; by rewrite ?E1, ?E2, ?E3, ?E4, ?E5, ?E6. Qed.

(** ** The operations keep the invariant *)

Definition inst_ok (inst : Z) : Prop := inst = NO_INST ∨ 0 <= inst <= INT_MAX.
Definition unnamed (l : list (nat * entry_t)) (name : buf) : Prop :=
  ∀ p e, (p, e) ∈ l → live e = true → prefix e ≠ key_name name.
(** What an operation on a cache does to the invariants. *)
Definition keeps (h h' : hdr_t) : Prop := inv h' ∧ indom h' = indom h ∧ (last_live h → last_live h').
Lemma keeps_refl h : inv h → keeps h h.
Proof. done. Qed.
Lemma keeps_trans h1 h2 h3 : keeps h1 h2 → keeps h2 h3 → keeps h1 h3.
Proof. intros (? & ? & ?) (? & ? & ?). split_and!; [done | congruence | auto]. Qed.
Lemma keeps_mode h m : inv h → keeps h (set_mode m h).
Proof. intros H. split_and!; [by eapply inv_eq | done | done]. Qed.
Lemma keeps_dirty h b : inv h → keeps h (dirty b h).
Proof. intros H. split_and!; [by eapply inv_eq | done | done]. Qed.
Lemma keeps_cnt h c : inv h → keeps h (set_cnt c h).
Proof. intros H. split_and!; [by eapply inv_eq | done | done]. Qed.
Lemma keeps_save h s : inv h → keeps h (set_save s h).
Proof. intros H. split_and!; [by eapply inv_eq | done | done]. Qed.
Lemma last_live_mode h m : last_live (set_mode m h) ↔ last_live h.
Proof. done. Qed.

Lemma end_splits h q le :
  inv h → last h = Some q → (q, le) ∈ elist h → e_inst le < INT_MAX →
  splits (elist h) (e_inst le + 1) (Some q) ∧ 0 <= e_inst le + 1 <= INT_MAX ∧ Forall (λ x, e_inst x.2 <> e_inst le + 1) (elist h).
Proof.
  intros Hi Hq He Hlt. pose proof (inv_last _ _ Hi q le Hq He) as Hl. pose proof (inv_entries _ _ Hi) as Ho.
  pose proof (eo_values _ _ Ho) as Hv. rewrite Forall_forall in Hv. destruct (Hv _ He) as [Hv' _]. simpl in Hv'.
  assert (Forall (λ x, e_inst x.2 < e_inst le + 1) (elist h)) as Hall.
  { apply Forall_forall. intros x Hx. pose proof (eo_sorted _ _ Ho) as Hs. apply last_Some in Hl as (l' & E). rewrite E in Hx, Hs.
    apply elem_of_app in Hx as [Hx | ->%list_elem_of_singleton]; [| simpl; lia].
    clear -Hs Hx. induction l' as [|y l' IH]; [by apply elem_of_nil in Hx |]. simpl in Hs. apply StronglySorted_inv in Hs as [Hs Hf].
    apply elem_of_cons in Hx as [-> | Hx]; [| by apply IH]. rewrite Forall_forall in Hf.
    specialize (Hf (q, le)). simpl in Hf. enough (e_inst y.2 <= e_inst le) by lia. apply Hf, elem_of_app. right. by left. }
  split_and!; [| lia | lia |].
  - exists (elist h), []. rewrite app_nil_r, Hl. by split_and!.
  - eapply Forall_impl; [exact Hall |]. simpl. lia.
Qed.
(** What [insert_cache] comes back with. *)
Definition inserted (h : hdr_t) (name : buf) (inst : Z) (r : option nat * Z * hdr_t) : Prop :=
  let '(p, sts, h') := r in
  keeps h h' ∧
  match p with
  | None => sts = PM_ERR_GENERIC ∧ elist h' = elist h
  | Some p => (∃ i, gains h p (new_entry name i) h' ∧ (inst ≠ NO_INST → i = inst) ∧ 0 <= i)
              ∨ (h' = h ∧ inst ≠ NO_INST ∧ ∃ e, (p, e) ∈ elist h ∧ live e = true)
  end.
Lemma link_inserted h h1 name inst i last_e :
  inv h1 → keeps h h1 → elist h1 = elist h → splits (elist h1) i last_e → 0 <= i <= INT_MAX →
  no_clash (elist h1) name i → (inst ≠ NO_INST → i = inst) →
  (last_ok h1 → ∃ r, ('(p, h) ← link_entry h1 name i last_e; Ok (Some p, 0, h)) = Ok r)
  ∧ ∀ r, ('(p, h) ← link_entry h1 name i last_e; Ok (Some p, 0, h)) = Ok r → inserted h name inst r.
Proof.
  intros Hi Hk El Hs Hr Hc Hinst. destruct (link_entry_ok h1 name i last_e Hi Hs Hr Hc) as [Ht Hl]. split.
  - intros ([p h2] & ->)%Ht. by eexists.
  - intros r Hr'. destruct (link_entry h1 name i last_e) as [[p h2]| |]; [| done ..].
    injection Hr' as <-. destruct (Hl p h2 eq_refl) as (Hi2 & Hg & Hd & Hll). split.
    + eapply keeps_trans; [exact Hk |]. by split_and!.
    + left. exists i. split_and!; [| done | lia]. unfold gains in *. by rewrite <- El.
Qed.
Lemma no_clash_intro (l : list (nat * entry_t)) name inst : unnamed l name → Forall (λ x, e_inst x.2 <> inst) l → no_clash l name inst.
Proof. intros Hn Hf p e He Le. rewrite Forall_forall in Hf. split; [by apply (Hf _ He) | by eapply Hn]. Qed.
Lemma retry_inserted h h1 name :
  inv h1 → keeps h h1 → elist h1 = elist h → unnamed (elist h1) name →
  (last_ok h1 → ∃ r, retry h1 name = Ok r) ∧ ∀ r, retry h1 name = Ok r → inserted h name NO_INST r.
Proof.
  intros Hi Hk El Hn. unfold retry.
  destruct (first_unused (elist h1) 0 None) as [[i last_e]|] eqn:Ef; cycle 1.
  { split; [by eexists |]. intros r [= <-]. by split. }
  destruct (first_unused_splits (elist h1) [] 0 i last_e) as (Hs & Hr & Hu); [apply (eo_sorted _ _ (inv_entries _ _ Hi)) | done | done | done |].
  apply link_inserted; try done. by apply no_clash_intro.
Qed.
Lemma insert_cache_ok h name inst :
  inv h → inst_ok inst → (inst = NO_INST → unnamed (elist h) name) →
  (last_ok h → ∃ r, insert_cache h name inst = Ok r)
  ∧ ∀ r, insert_cache h name inst = Ok r → inserted h name inst r.
Proof.
  intros Hi Hin Hn. unfold insert_cache. destruct (Z.eqb_spec inst NO_INST) as [->|Hne]; cbn [negb].
  - specialize (Hn eq_refl). assert (keeps h (set_mode 1 h)) as Hk by by apply keeps_mode.
    destruct (Z.eqb_spec (ins_mode h) 0); [| by apply retry_inserted].
    destruct (last h) as [q|] eqn:El; cycle 1.
    { pose proof (inv_last_none _ _ Hi El) as E. apply link_inserted; try done.
      - rewrite E. by exists [], [].
      - rewrite E. by intros ? ? ?%elem_of_nil. }
    destruct (deref (elist h) q) as [le|] eqn:Ed; cycle 1.
    { split; [| done]. intros Hok. destruct (deref_is_Some (elist h) q (Hok q El)) as [? ?]. congruence. }
    apply deref_spec in Ed; [| apply (eo_ids _ _ (inv_entries _ _ Hi))]. destruct (Z.eqb_spec (e_inst le) INT_MAX) as [|Hlt].
    { apply (retry_inserted h (set_mode 1 h)); [apply Hk | done ..]. }
    pose proof (eo_values _ _ (inv_entries _ _ Hi)) as Hv. rewrite Forall_forall in Hv. destruct (Hv _ Ed) as [Hv' _]. simpl in Hv'.
    destruct (end_splits h q le Hi El Ed ltac:(lia)) as (Hs & Hr & Hu). apply link_inserted; try done. by apply no_clash_intro.
  - destruct (find_by_inst None h inst Hi) as (r & -> & Hr). cbn [mbind res_bind]. destruct r as [p|].
    { destruct Hr as (e & He & Ei & Le). rewrite (proj2 (deref_spec _ _ _ (eo_ids _ _ (inv_entries _ _ Hi))) He).
      split; [by eexists |]. intros r [= <-]. split; [done |]. right. split_and!; [done | done |]. by exists e. }
    destruct (find_by_name None h name NO_INST Hi) as (r & sts & -> & Hr2). cbn [mbind res_bind]. destruct r as [p|].
    { destruct Hr2 as (e & He & Le & _). split; [by eexists |]. intros r [= <-]. split; [done |]. right. split_and!; [done | done |]. by exists e. }
    destruct Hin as [? | Hin]; [done |]. apply link_inserted; try done.
    + apply (place_splits inst (elist h) []); [apply (eo_sorted _ _ (inv_entries _ _ Hi)) | done].
    + destruct Hr2 as [_ Hr2]. intros p e He Le. split; [by apply (Hr p e) | by apply (Hr2 p e)].
Qed.
Lemma tame_same b l x : entries_ok b l → x ∈ l → tame x.2 x.2.
Proof. intros Ho Hx. pose proof (eo_values _ _ Ho) as Hv. rewrite Forall_forall in Hv. split_and!; try done. intros Le. split; [done | by apply Hv]. Qed.
Lemma update_tame h p e f :
  inv h → (p, e) ∈ elist h → tame e (f e) → tame_map (λ x, if (x.1 =? p)%nat then (x.1, f x.2) else x) (elist h).
Proof.
  intros Hi He Ht [q g] Hx. simpl. destruct (Nat.eqb_spec q p) as [->|]; simpl.
  - split; [done |]. by rewrite (entry_unique _ _ _ _ (eo_ids _ _ (inv_entries _ _ Hi)) Hx He).
  - split; [done |]. by apply (tame_same _ _ (q, g) (inv_entries _ _ Hi)).
Qed.
Lemma update_in l p f q g : q ≠ p → (q, g) ∈ update p f l ↔ (q, g) ∈ l.
Proof.
  intros Hne. unfold update. split.
  - intros ([q' g'] & E & Hx)%list_elem_of_fmap. simpl in E. destruct (Nat.eqb_spec q' p); congruence.
  - intros Hx. apply list_elem_of_fmap. exists (q, g). simpl. by destruct (Nat.eqb_spec q p).
Qed.
Lemma update_at l p f e : (p, e) ∈ l → (p, f e) ∈ update p f l.
Proof. intros He. apply list_elem_of_fmap. exists (p, e). simpl. by rewrite Nat.eqb_refl. Qed.
(** Changing an entry in use to one in use. *)
Lemma keeps_update h p e f :
  inv h → (p, e) ∈ elist h → tame e (f e) → live (f e) = true → keeps h (set_list (update p f (elist h)) h).
Proof.
  intros Hi He Ht Hf. split_and!; [| done |].
  - apply inv_map; [done |]. by eapply update_tame.
  - intros Hl q Hq. destruct (Hl q Hq) as (g & Hg & Lg). cbn [set_list elist]. destruct (decide (q = p)) as [->|Hne].
    + exists (f e). split; [by apply update_at | done].
    + exists g. by rewrite update_in.
Qed.
Lemma add_tame e key private : live e = true → tame e (add_entry key private e).
Proof. intros Le. split_and!; [done .. |]. intros _. split; [done | by left]. Qed.
Lemma store_flags_ok flags p e key private h :
  inv h → (p, e) ∈ elist h → live e = true →
  ∃ r h', store_flags flags p key private h = Ok (r, h') ∧ inv h' ∧ indom h' = indom h ∧ (flags ≠ PMDA_CACHE_CULL → keeps h h').
Proof.
  intros Hi He Le. unfold store_flags. rewrite (proj2 (deref_spec _ _ _ (eo_ids _ _ (inv_entries _ _ Hi))) He).
  destruct (Z.eqb_spec flags PMDA_CACHE_ADD).
  { assert (keeps h (dirty DIRTY_STAMP (set_list (update p (add_entry key private) (elist h)) h))) as Hk.
    { assert (keeps h (set_list (update p (add_entry key private) (elist h)) h)) as Hk by (eapply keeps_update; [done | done | by apply add_tame | done]).
      eapply keeps_trans; [exact Hk |]. apply keeps_dirty, Hk. }
    eexists _, _. split; [done |]. split_and!; [apply Hk | apply Hk | done]. }
  destruct (Z.eqb_spec flags PMDA_CACHE_HIDE).
  { assert (keeps h (set_list (update p (set_state PMDA_CACHE_INACTIVE) (elist h)) h)) as Hk.
    { eapply keeps_update; [done | done | | done]. split_and!; [done .. |]. intros _. split; [done | by right]. }
    eexists _, _. split; [done |]. split_and!; [apply Hk | apply Hk | done]. }
  destruct (Z.eqb_spec flags PMDA_CACHE_CULL).
  { eexists _, _. split; [done |]. split_and!; [| done | done]. eapply (inv_eq (set_list _ h)); try done.
    apply inv_map; [done |]. by eapply update_tame. }
  eexists _, _. split; [done |]. by split_and!.
Qed.
Lemma inserted_live h name inst p sts h' :
  inserted h name inst (Some p, sts, h') → ∃ e, (p, e) ∈ elist h' ∧ live e = true.
Proof.
  intros (_ & [(i & (? & _) & _) | (-> & _ & e & He & Le)]); [by eexists | by exists e].
Qed.
Lemma store_ok flags name inst key private h :
  inv h → inst_ok inst →
  (last_ok h → ∃ r, store flags name inst key private h = Ok r)
  ∧ ∀ r h', store flags name inst key private h = Ok (r, h') → inv h' ∧ indom h' = indom h ∧ (flags ≠ PMDA_CACHE_CULL → keeps h h').
Proof.
  intros Hi Hin. unfold store. destruct (find_by_name None h name inst Hi) as (r & sts & -> & Hr). cbn [mbind res_bind].
  destruct r as [p|].
  { destruct Hr as (e & He & Le & _). destruct (Z.eqb_spec sts (-1)).
    - split; [by eexists |]. intros r h' [= <- <-]. by split_and!.
    - destruct (store_flags_ok flags p e key private h Hi He Le) as (r & h' & -> & H). split; [by eexists |].
      intros r' h'' [= <- <-]. done. }
  destruct (Z.eqb_spec flags PMDA_CACHE_ADD) as [->|]; cbn [negb]; cycle 1.
  { split; [by eexists |]. intros r h' [= <- <-]. by split_and!. }
  destruct Hr as [_ Hr]. destruct (insert_cache_ok h name inst Hi Hin) as [Ht Hl].
  { intros _ p e He Le. by apply (Hr p e). }
  destruct (insert_cache h name inst) as [[[p sts2] h1]| |]; [| split; [intros (? & ?)%Ht; done | done] ..].
  specialize (Hl _ eq_refl). cbn [mbind res_bind]. pose proof (proj1 Hl) as Hk. destruct p as [p|].
  - destruct (inserted_live _ _ _ _ _ _ Hl) as (e & He & Le).
    destruct (store_flags_ok PMDA_CACHE_ADD p e key private (dirty DIRTY_INSTANCE h1)) as (r & h' & -> & H1 & H2 & H3);
      [apply keeps_dirty, Hk | done | done |].
    split; [by eexists |]. intros r' h'' [= <- <-]. split_and!; [done | rewrite H2; apply Hk |]. intros Hc.
    eapply keeps_trans; [exact Hk |]. eapply keeps_trans; [apply keeps_dirty, Hk | by apply H3].
  - split; [by eexists |]. intros r h' [= <- <-]. split_and!; [apply Hk | apply Hk | done].
Qed.
Lemma guess_ok n : ∀ i try_ name key h,
  inv h → ∃ sts inst h', guess n i try_ name key h = Ok (sts, inst, h') ∧ keeps h h' ∧ elist h' = elist h ∧ last h' = last h
    ∧ 0 <= inst <= INT_MAX.
Proof.
  induction n as [|n IH]; intros i try_ name key h Hi; cbn [guess].
  { by eexists _, _, _. }
  set (t := hash key (length key) try_). assert (0 <= Z.land t (Z.ones 31) <= INT_MAX) as Hb.
  { rewrite Z.land_ones by lia. pose proof (Z.mod_pos_bound t (2 ^ 31) ltac:(lia)). unfold INT_MAX. lia. }
  destruct (find_by_inst None h (Z.land t (Z.ones 31)) Hi) as (r & -> & Hr). cbn [mbind res_bind]. destruct r as [p|]; cycle 1.
  { eexists _, _, _. split; [done |]. split_and!; [by apply keeps_cnt | done | done | lia | lia]. }
  destruct Hr as (e & He & _). rewrite (proj2 (deref_spec _ _ _ (eo_ids _ _ (inv_entries _ _ Hi))) He).
  case_bool_decide; destruct (key_eq e key).
  1: { eexists _, _, _. split; [done |]. split_and!; [done | done | done | lia | lia]. }
  3: by apply IH.
  all: by eexists _, _, _.
Qed.
Lemma store_key_ok flags name key private h :
  inv h →
  (last_ok h → ∃ r, store_key flags name key private h = Ok r)
  ∧ ∀ r h', store_key flags name key private h = Ok (r, h') → inv h' ∧ indom h' = indom h ∧ (flags ≠ PMDA_CACHE_CULL → keeps h h').
Proof.
  intros Hi. unfold store_key. set (mykey := match key with Some (c :: k) => c :: k | _ => name end). clearbody mykey.
  destruct (find_by_name None h name NO_INST Hi) as (r & sts & -> & Hr). cbn [mbind res_bind]. destruct r as [p|].
  - destruct Hr as (e & He & Le & _). rewrite (proj2 (deref_spec _ _ _ (eo_ids _ _ (inv_entries _ _ Hi))) He).
    destruct (key_eq e mykey).
    + apply store_ok; [done |]. right. pose proof (eo_values _ _ (inv_entries _ _ Hi)) as Hv. rewrite Forall_forall in Hv.
      by apply (Hv (p, e)).
    + split; [by eexists |]. intros r h' [= <- <-]. by split_and!.
  - destruct (guess_ok MAX_HASH_TRY 0 0 name mykey h Hi) as (s & inst & h1 & -> & Hk & El & Ell & Hin). cbn [mbind res_bind].
    destruct (Z.eqb_spec s 0); cycle 1.
    { split; [by eexists |]. intros r h' [= <- <-]. split_and!; [apply Hk | apply Hk | done]. }
    assert (keeps h (set_mode 1 h1)) as Hk1 by (eapply keeps_trans; [exact Hk | apply keeps_mode, Hk]).
    destruct (store_ok flags name inst mykey private (set_mode 1 h1)) as [Ht Hs]; [apply Hk1 | by right |]. split.
    + intros Hok. apply Ht. unfold last_ok in *. cbn [set_mode last elist]. by rewrite El, Ell.
    + intros r h' (H1 & H2 & H3)%Hs. split_and!; [done | rewrite H2; apply Hk1 |]. intros Hc. eapply keeps_trans; [exact Hk1 | by apply H3].
Qed.

Lemma walk_until_frame f : ∀ fuel h e h', walk_until fuel f h = Ok (e, h') → ∃ s, h' = set_save s h.
Proof.
  induction fuel as [|fuel IH]; intros h e h'; cbn [walk_until].
  { intros [= <- <-]. exists (save h). by destruct h. }
  destruct (walk_next h) as [[p h1]| |] eqn:Ew; cbn [mbind res_bind]; [| done ..].
  assert (∃ s, h1 = set_save s h) as (s & ->).
  { unfold walk_next in Ew. destruct (save h) as [[q|]|] eqn:Es; [| | done].
    - destruct (next_of q (elist h)); [| done ..]. injection Ew as <- <-. by eexists.
    - injection Ew as <- <-. exists (save h). by destruct h. }
  destruct p as [p|]; [| intros [= <- <-]; by exists s]. destruct (deref _ p) as [g|]; [| done].
  destruct (f g); [intros [= <- <-]; by exists s |]. intros (s' & ->)%IH. by exists s'.
Qed.
Lemma next_of_middle l0 : ∀ p (e : entry_t) l, NoDup (ids (l0 ++ (p, e) :: l)) → next_of p (l0 ++ (p, e) :: l) = Ok (fst <$> head l).
Proof.
  induction l0 as [|[q g] l0 IH]; intros p e l Hn; simpl.
  - by rewrite Nat.eqb_refl.
  - simpl in Hn. apply NoDup_cons in Hn as [Hq Hn]. destruct (Nat.eqb_spec q p) as [->|]; [| by apply IH].
    destruct Hq. rewrite fmap_app. apply elem_of_app. right. by left.
Qed.
(** From [rewind], the walk comes to the entries in the order of the list. *)
Lemma walk_until_find f : ∀ fuel l0 l h,
  NoDup (ids (elist h)) → elist h = l0 ++ l → save h = Some (fst <$> head l) → (length l < fuel)%nat →
  ∃ h', walk_until fuel f h = Ok (snd <$> List.find (λ x, f x.2) l, h').
Proof.
  induction fuel as [|fuel IH]; intros l0 l h Hn El Es Hf; [lia |]. cbn [walk_until]. unfold walk_next. rewrite Es.
  destruct l as [|[p e] l]; simpl; [by eexists |]. rewrite El, next_of_middle by (by rewrite <- El). cbn [mbind res_bind].
  cbn [set_save elist]. rewrite (proj2 (deref_spec (elist h) p e Hn)) by (rewrite El; apply elem_middle; by left).
  destruct (f e); simpl; [by eexists |]. apply (IH (l0 ++ [(p, e)])).
  - done.
  - cbn [set_save elist]. by rewrite El, <- app_assoc.
  - done.
  - simpl in Hf. lia.
Qed.
(** The abstract meaning: the first entry of the list in use that has the key. *)
Lemma lookup_key_spec name key h :
  inv h → let mykey := match key with Some (c :: k) => c :: k | _ => name end in
  ∃ h', lookup_key name key h =
    Ok (match List.find (λ x, live x.2 && key_eq x.2 mykey) (elist h) with
        | Some x => (e_state x.2, Some x.2, h')
        | None => (PM_ERR_INST, None, h')
        end) ∧ keeps h h' ∧ elist h' = elist h.
Proof.
  intros Hi mykey. unfold lookup_key. fold mykey.
  destruct (walk_until_find (λ e, live e && key_eq e mykey) (S (length (elist h))) [] (elist h) (rewind h)) as (h' & E);
    [apply (eo_ids _ _ (inv_entries _ _ Hi)) | done | done | lia |].
  rewrite E. cbn [mbind res_bind]. destruct (walk_until_frame _ _ _ _ _ E) as (s & ->). eexists. split; [by destruct (List.find _ _) |].
  split; [| done]. split_and!; [by eapply inv_eq | done | done].
Qed.
Lemma change_state_ok from to h :
  inv h → live (set_state from (new_entry [] 0)) = true → to = PMDA_CACHE_ACTIVE ∨ to = PMDA_CACHE_INACTIVE →
  keeps h (change_state from to h).2.
Proof.
  intros Hi Hfrom Hto. cbn [change_state snd].
  assert (∀ x, x ∈ elist h → tame x.2 (if e_state x.2 =? from then (x.1, set_state to x.2) else x).2) as Ht.
  { intros x Hx. destruct (Z.eqb_spec (e_state x.2) from) as [E|_]; [| by apply (tame_same _ _ x (inv_entries _ _ Hi))].
    split_and!; [done .. |]. intros _. split; [| done]. unfold live in *. simpl in Hfrom. by rewrite E. }
  split_and!; [| done |].
  - apply inv_map; [done |]. intros x Hx. split; [by destruct (_ =? from) | by apply Ht].
  - intros Hl q Hq. destruct (Hl q Hq) as (e & He & Le). cbn [set_list elist].
    exists (if e_state e =? from then set_state to e else e). split.
    + apply list_elem_of_fmap. exists (q, e). split; [| done]. simpl. by destruct (_ =? from).
    + destruct (_ =? from); [| done]. unfold live. simpl. by destruct Hto as [-> | ->].
Qed.
(** Culling is no change that the tables can see. *)
Lemma cull_inv (c : nat * entry_t → bool) h :
  inv h → inv (set_list ((λ x, if c x then (x.1, set_state PMDA_CACHE_EMPTY x.2) else x) <$> elist h) h).
Proof.
  intros Hi. apply inv_map; [done |]. intros x Hx. destruct (c x); (split; [done |]).
  - by split_and!.
  - by apply (tame_same _ _ x (inv_entries _ _ Hi)).
Qed.
Lemma dirty_inv h b (c : bool) : inv h → inv (if c then dirty b h else h).
Proof. intros Hi. destruct c; [by apply keeps_dirty | done]. Qed.
Lemma redo_keeps h h' resize : inv h → redo_hash h resize = Ok h' → keeps h h'.
Proof.
  intros Hi E. destruct (redo_hash_ok None h resize Hi) as (h1 & E' & Hi' & El & Ell & _ & _ & Ed & _). rewrite E in E'. injection E' as <-.
  split_and!; [done | done |]. intros Hl q Hq. rewrite Ell in Hq. destruct (Hl q Hq) as (e & He & Le). exists e.
  split; [| done]. rewrite El. by apply in_filter.
Qed.
Lemma cache_op_ok op h :
  inv h →
  (op ≠ PMDA_CACHE_WALK_NEXT → ∃ r, cache_op op h = Ok r)
  ∧ ∀ r h', cache_op op h = Ok (r, h') → inv h' ∧ indom h' = indom h ∧ (op ≠ PMDA_CACHE_CULL → keeps h h').
Proof.
  intros Hi. unfold cache_op.
  assert (∀ (r : Z) h', keeps h h' → (op ≠ PMDA_CACHE_WALK_NEXT → ∃ r', Ok (r, h') = Ok r') ∧
    ∀ r0 h0, Ok (r, h') = Ok (r0, h0) → inv h0 ∧ indom h0 = indom h ∧ (op ≠ PMDA_CACHE_CULL → keeps h h0)) as Hk.
  { intros r h' Hk. split; [by eexists |]. intros ? ? [= <- <-]. split_and!; [apply Hk | apply Hk | done]. }
  destruct (op =? PMDA_CACHE_ACTIVE); [apply Hk, (change_state_ok PMDA_CACHE_INACTIVE PMDA_CACHE_ACTIVE h Hi); [done | by left] |].
  destruct (op =? PMDA_CACHE_INACTIVE); [apply Hk, (change_state_ok PMDA_CACHE_ACTIVE PMDA_CACHE_INACTIVE h Hi); [done | by right] |].
  destruct (Z.eqb_spec op PMDA_CACHE_CULL).
  { split; [by eexists |]. intros r h' [= <- <-]. split_and!; [| by destruct (0 <? _) | done].
    apply dirty_inv. by apply (cull_inv (λ x, live x.2)). }
  destruct (op =? PMDA_CACHE_SIZE); [by apply Hk |].
  destruct (op =? PMDA_CACHE_SIZE_ACTIVE); [by apply Hk |].
  destruct (op =? PMDA_CACHE_SIZE_INACTIVE); [by apply Hk |].
  destruct (op =? PMDA_CACHE_REUSE); [by apply Hk, keeps_mode |].
  destruct (op =? PMDA_CACHE_REORG).
  { destruct (redo_hash_ok None h false Hi) as (h1 & E & _). rewrite E. cbn [mbind res_bind]. apply Hk. by eapply redo_keeps. }
  destruct (op =? PMDA_CACHE_WALK_REWIND); [by apply Hk, keeps_save |].
  destruct (Z.eqb_spec op PMDA_CACHE_WALK_NEXT) as [|_]; [| by destruct (_ || _); apply Hk].
  split; [done |]. intros r h' Hr. destruct (walk_until _ _ h) as [[ent h1]| |] eqn:E; [| done ..].
  destruct (walk_until_frame _ _ _ _ _ E) as (s & ->). injection Hr as <- <-. split_and!; [| done |]; intros; by apply keeps_save.
Qed.
Lemma purge_inv epoch h : inv h → inv (purge epoch h).2 ∧ indom (purge epoch h).2 = indom h.
Proof.
  intros Hi. cbn [purge snd]. split; [| by destruct (0 <? _)]. apply dirty_inv.
  by apply (cull_inv (λ x, negb (e_stamp x.2 =? 0) && (e_stamp x.2 <? epoch))).
Qed.
Lemma lookup_total name inst h : inv h → ∃ r, lookup name inst h = Ok r.
Proof.
  intros Hi. unfold lookup. destruct name as [name|].
  - destruct (find_by_name None h name inst Hi) as (r & sts & -> & Hr). cbn [mbind res_bind]. destruct r as [p|]; [| by eexists].
    destruct Hr as (e & He & _). rewrite (proj2 (deref_spec _ _ _ (eo_ids _ _ (inv_entries _ _ Hi))) He). by eexists.
  - destruct (find_by_inst None h inst Hi) as (r & -> & Hr). cbn [mbind res_bind]. destruct r as [p|]; [| by eexists].
    destruct Hr as (e & He & _). rewrite (proj2 (deref_spec _ _ _ (eo_ids _ _ (inv_entries _ _ Hi))) He). by eexists.
Qed.

(** ** What is found after a store *)

Lemma lookup_inst_some h p e : inv h → (p, e) ∈ elist h → live e = true → lookup None (e_inst e) h = Ok (e_state e, Some e).
Proof.
  intros Hi He Le. unfold lookup. destruct (find_by_inst None h (e_inst e) Hi) as (r & -> & Hr). cbn [mbind res_bind].
  pose proof (inv_entries _ _ Hi) as Ho. destruct r as [q|]; [| by destruct (Hr p e He Le)].
  destruct Hr as (f & Hf & Ef & Lf). rewrite (eo_inst _ _ Ho p e q f He Hf Le Lf (eq_sym Ef)) in He.
  rewrite (entry_unique _ _ _ _ (eo_ids _ _ Ho) He Hf). by rewrite (proj2 (deref_spec _ _ _ (eo_ids _ _ Ho)) Hf).
Qed.
Lemma lookup_inst_none h i :
  inv h → (∀ p e, (p, e) ∈ elist h → live e = true → e_inst e ≠ i) → lookup None i h = Ok (PM_ERR_INST, None).
Proof.
  intros Hi Hn. unfold lookup. destruct (find_by_inst None h i Hi) as (r & -> & Hr). cbn [mbind res_bind].
  destruct r as [q|]; [| done]. destruct Hr as (f & Hf & Ef & Lf). by destruct (Hn q f Hf Lf).
Qed.
Lemma lookup_name_some h p e name i :
  inv h → (p, e) ∈ elist h → live e = true → prefix e = key_name name → lookup (Some name) i h = Ok (e_state e, Some e).
Proof.
  intros Hi He Le Hp. unfold lookup. destruct (find_by_name None h name i Hi) as (r & sts & -> & Hr). cbn [mbind res_bind].
  pose proof (inv_entries _ _ Hi) as Ho. destruct r as [q|]; [| destruct Hr as [_ Hr]; by destruct (Hr p e He Le)].
  destruct Hr as (f & Hf & Lf & Ef & _). rewrite (eo_prefix _ _ Ho p e q f He Hf Le Lf ltac:(congruence)) in He.
  rewrite (entry_unique _ _ _ _ (eo_ids _ _ Ho) He Hf). by rewrite (proj2 (deref_spec _ _ _ (eo_ids _ _ Ho)) Hf).
Qed.
Lemma new_entry_prefix name i : prefix (new_entry name i) = key_name name.
Proof. done. Qed.

(** What [store] did to the entries in use: [p] has the name now. *)
Definition stored_at (p : nat) (h : hdr_t) (name key : buf) (private r : Z) (h' : hdr_t) : Prop :=
  0 <= r ∧ ∃ e, (p, add_entry key private e) ∈ elist h' ∧ e_inst e = r ∧ prefix e = key_name name
    ∧ (∀ q f, q ≠ p → live f = true → (q, f) ∈ elist h' ↔ (q, f) ∈ elist h)
    ∧ ∀ f, (p, f) ∈ elist h → live f = true → e_inst f = r.
Lemma store_flags_stored h p e name key private r h' :
  inv h → (p, e) ∈ elist h → live e = true → prefix e = key_name name →
  store_flags PMDA_CACHE_ADD p key private h = Ok (r, h') → stored_at p h name key private r h'.
Proof.
  intros Hi He Le Hp Hs. unfold store_flags in Hs. pose proof (inv_entries _ _ Hi) as Ho.
  rewrite (proj2 (deref_spec _ _ _ (eo_ids _ _ Ho)) He) in Hs. injection Hs as <- <-.
  pose proof (eo_values _ _ Ho) as Hv. rewrite Forall_forall in Hv. destruct (Hv _ He) as [Hv' _]. simpl in Hv'.
  split; [lia |]. exists e. split_and!; [by apply update_at | done | done | |].
  - intros q f Hne _. by apply update_in.
  - intros f Hf _. by rewrite (entry_unique _ _ _ _ (eo_ids _ _ Ho) Hf He).
Qed.
Lemma store_stored h name key private r h' :
  inv h → store PMDA_CACHE_ADD name NO_INST key private h = Ok (r, h') →
  (r < 0 ∧ ∀ q f, (q, f) ∈ elist h' ↔ (q, f) ∈ elist h) ∨ ∃ p, stored_at p h name key private r h'.
Proof.
  intros Hi Hs. unfold store in Hs. destruct (find_by_name None h name NO_INST Hi) as (o & sts & E & Hr). rewrite E in Hs.
  cbn [mbind res_bind] in Hs. destruct o as [p|].
  { destruct Hr as (e & He & Le & Hp & _). destruct (sts =? -1).
    - injection Hs as <- <-. by left.
    - right. exists p. by eapply store_flags_stored. }
  change (negb (PMDA_CACHE_ADD =? PMDA_CACHE_ADD)) with false in Hs. cbv iota in Hs. destruct Hr as [_ Hr].
  destruct (insert_cache_ok h name NO_INST Hi) as [_ Hl]; [by left | intros _ p e He Le; by apply (Hr p e) |].
  destruct (insert_cache h name NO_INST) as [[[o s1] h1]| |]; [| done ..]. specialize (Hl _ eq_refl).
  cbn [mbind res_bind] in Hs. destruct Hl as [Hk Hl]. destruct o as [p|]; cycle 1.
  { injection Hs as <- <-. destruct Hl as [-> El]. left. split; [done |]. by rewrite El. }
  destruct Hl as [(i & [G1 G2] & _) | (_ & ? & _)]; [| done]. right. exists p.
  destruct (store_flags_stored (dirty DIRTY_INSTANCE h1) p (new_entry name i) name key private r h') as (Hr0 & e & H1 & H2 & H3 & H4 & H5);
    try done; [by apply keeps_dirty, Hk |].
  split; [done |]. exists e. split_and!; [done | done | done | |].
  - intros q f Hne Lf. rewrite H4 by done. cbn [dirty elist]. rewrite G2 by done. split; [by intros [[? _] | ?] | by right].
  - intros f Hf Lf. apply H5; [| done]. apply G2; [done | by right].
Qed.
(** The lookups after a store. *)
Lemma stored_lookups p h name key private r h' :
  inv h → inv h' → stored_at p h name key private r h' →
  (∃ e, e_inst e = r ∧ e_private e = private ∧ prefix e = key_name name
    ∧ (∀ i, lookup (Some name) i h' = Ok (PMDA_CACHE_ACTIVE, Some e)) ∧ lookup None r h' = Ok (PMDA_CACHE_ACTIVE, Some e))
  ∧ ∀ i, i ≠ r → lookup None i h' = lookup None i h.
Proof.
  intros Hi Hi' (Hr & e & H1 & H2 & H3 & H4 & H5). split.
  - exists (add_entry key private e). split_and!; [done | done | done | |].
    + intros i. by apply (lookup_name_some h' p (add_entry key private e)).
    + rewrite <- H2. by apply (lookup_inst_some h' p (add_entry key private e)).
  - intros i Hne. pose proof (inv_entries _ _ Hi') as Ho.
    destruct (find_by_inst None h i Hi) as (o & _ & Ho'). destruct o as [q|].
    + destruct Ho' as (f & Hf & <- & Lf). rewrite (lookup_inst_some h q f) by done. apply (lookup_inst_some h' q f); [done | | done].
      apply H4; [intros ->; by destruct Hne; apply H5 | done | done].
    + rewrite !lookup_inst_none; [done | done | | done |].
      * intros q f Hf Lf. by apply (Ho' q f).
      * intros q f Hf Lf <-. destruct (decide (q = p)) as [->|Hq].
        -- rewrite (entry_unique _ _ _ _ (eo_ids _ _ Ho) Hf H1) in Hne. by apply Hne.
        -- by apply (Ho' q f); [apply H4 | ..].
Qed.
Lemma same_lookups h h' i :
  inv h → inv h' → (∀ q f, (q, f) ∈ elist h' ↔ (q, f) ∈ elist h) → lookup None i h' = lookup None i h.
Proof.
  intros Hi Hi' Hs. destruct (find_by_inst None h i Hi) as (o & _ & Ho). destruct o as [q|].
  - destruct Ho as (f & Hf & <- & Lf). rewrite (lookup_inst_some h q f) by done. apply (lookup_inst_some h' q f); [done | by apply Hs | done].
  - rewrite !lookup_inst_none; try done.
    + intros q f Hf Lf. by apply (Ho q f).
    + intros q f Hf Lf. by apply (Ho q f); [apply Hs | ..].
Qed.
