(* ===== verification/CacheFile.v ===== *)
(** The persistent file of an instance cache and the calls of an agent,
    src/libpcp_pmda/src/cache.c: the text that is saved and how it is loaded, what all
    calls keep to, what they promise and what goes wrong.

    Memory that the code reads without having set it, or after it was freed, holds
    whatever the [world] says; the theorems hold for every world. *)
From stdpp Require Import sorting.
From S2P Require Import Prelude Memory Text Types PduIO PduSimple PduInstance Cache CacheOps.
Import Cache.Cache.

(** ** Saving and loading *)

Definition BUFSIZE : nat := 1024.

(** What the calls find: the error of fopen if any, the file, the time, and what unset
    and freed memory holds. *)
Record world := mkWorld {
  w_errno : option Z; w_file : buf; w_now : Z; w_stack : nat → byte; w_tmp : Z → Z; w_scrap : nat → byte }.
Inductive record := BadOld | BadNew | Rec (inst stamp : Z) (key : option buf) (name : buf).

Fixpoint scan_key (n : nat) (p : buf) (tmp : Z) : buf * buf :=
  match n with
  | O => ([], p)
  | S n => let tmp := scan_2x p tmp in let '(key, p) := scan_key n (drop 2 p) tmp in (byte.of_Z (Z.land tmp 255) :: key, p)
  end.
(** A line of the file.  At a bad one the code frees [key], which is still the key of an
    earlier line ([BadOld]) or that of this line ([BadNew]). *)
Definition parse_record (p : buf) (tmp : Z) : res record :=
  p ← skip_space p;
  if at_end p then Ok BadOld
  else
    '(inst, p) ← digits p 0;
    p ← skip_space p;
    if (inst <? 0) || at_end p then Ok BadOld
    else
      '(x, p) ← digits p 0;
      p ← skip_space p;
      match p with
      | [] => Fault
      | c :: q =>
          if bool_decide (c = bracket_open) then
            pend ← to_bracket q;
            match pend with
            | None => Ok BadOld
            | Some n =>
                let '(key, q) := scan_key (Nat.div2 n) q tmp in
                p ← skip_space (drop 2 q);
                if at_end p then Ok BadNew else name ← cstr p; Ok (Rec inst x (Some key) name)
            end
          else if at_end p then Ok BadNew
          else name ← cstr p; Ok (Rec inst x None name)
      end.
Definition loaded (key : option buf) (x : Z) (e : entry_t) : entry_t :=
  mkEntry (e_inst e) (e_name e) (e_hashlen e) (default [] key) (e_state e) (e_private e) x.
(** The key of an entry was freed. *)
Definition scrap (w : world) (e : entry_t) : entry_t :=
  mkEntry (e_inst e) (e_name e) (e_hashlen e) (imap (λ i _, w_scrap w i) (e_key e)) (e_state e) (e_private e) (e_stamp e).
(** [prev]: the entry that has the key which [key] points to. *)
Fixpoint load_loop (fuel : nat) (w : world) (mem rest : buf) (prev : option nat) (cnt : Z) (h : hdr_t) : res (Z * hdr_t) :=
  match fuel with
  | O => Ok (cnt, h)
  | S fuel =>
      match fgets BUFSIZE mem rest with
      | None => Ok (cnt, h)
      | Some (mem, rest) =>
          let mem := chop mem in
          r ← parse_record mem (w_tmp w cnt);
          match r with
          | BadOld => Ok (PM_ERR_GENERIC, match prev with Some p => set_list (update p (scrap w) (elist h)) h | None => h end)
          | BadNew => Ok (PM_ERR_GENERIC, h)
          | Rec inst x key name =>
              '(p, sts, h) ← insert_cache h name inst;
              match p with
              | None => Ok (sts, h)
              | Some p =>
                  load_loop fuel w mem rest ((λ _, p) <$> key) (cnt + 1) (set_list (update p (loaded key x) (elist h)) h)
              end
          end
      end
  end.
Definition load_cache (w : world) (h : hdr_t) : res (Z * hdr_t) :=
  match w_errno w with
  | Some e => Ok (- e, h)
  | None =>
      match fgets BUFSIZE (w_stack w <$> seq 0 BUFSIZE) (w_file w) with
      | None => Ok (PM_ERR_GENERIC, h)
      | Some (mem, rest) =>
          match scan_d mem with
          | None => Ok (PM_ERR_GENERIC, h)
          | Some (x, p) =>
              match scan_d p with
              | None => Ok (PM_ERR_GENERIC, h)
              | Some (mode, _) =>
                  let h := set_mode mode h in
                  if negb (x =? 1) || (mode <? 0) || (1 <? mode) then Ok (PM_ERR_GENERIC, h)
                  else load_loop (S (length rest)) w mem rest None 0 h
              end
          end
      end
  end.

Definition stamped (now : Z) (e : entry_t) : entry_t :=
  if live e && (e_stamp e =? 0)
  then mkEntry (e_inst e) (e_name e) (e_hashlen e) (e_key e) (e_state e) (e_private e) now else e.
Definition show_entry (e : entry_t) : buf :=
  show (e_inst e) ++ space :: show (s32 (e_stamp e))
  ++ (match e_key e with [] => [] | _ => space :: bracket_open :: concat (hex2 <$> e_key e) ++ [bracket_close] end)
  ++ space :: e_name e ++ [newline].
Definition set_clean (h : hdr_t) : hdr_t :=
  mkHdr (elist h) (last h) (save h) (ctl_inst h) (ctl_name h) (indom h) (hbits h) (nentry h) (ins_mode h) 0 (keyhash_cnt h) (fresh h).
(** The status, the text if the file was written, and the cache. *)
Definition save_cache (w : world) (hstate_ : Z) (h : hdr_t) : Z * option buf * hdr_t :=
  if Z.land (hstate h) hstate_ =? 0 then (0, None, h)
  else
    match w_errno w with
    | Some e => (- e, None, h)
    | None =>
        let l := (λ x, (x.1, stamped (w_now w) x.2)) <$> elist h in
        let saved := (λ x, x.2) <$> List.filter (λ x, live x.2) l in
        (zlen saved,
         Some (show 1 ++ space :: show (ins_mode h) ++ newline :: concat (show_entry <$> saved)),
         set_clean (set_list l h))
    end.

(** ** The calls *)

Definition file_op (w : world) (op : Z) (h : hdr_t) : res (Z * option buf * hdr_t) :=
  if op =? PMDA_CACHE_LOAD then '(sts, h) ← load_cache w h; Ok (sts, None, h)
  else if op =? PMDA_CACHE_SAVE then Ok (save_cache w DIRTY_INSTANCE h)
  else if op =? PMDA_CACHE_SYNC then Ok (save_cache w (Z.lor DIRTY_INSTANCE DIRTY_STAMP) h)
  else '(sts, h) ← cache_op op h; Ok (sts, None, h).
(** The status, and the file if it was written. *)
Definition pmdaCacheOp (w : world) (dom op : Z) (base : list hdr_t) : res (Z * option buf * list hdr_t) :=
  if dom =? PM_INDOM_NULL then Ok (PM_ERR_INDOM, None, base)
  else if op =? PMDA_CACHE_CHECK then Ok (match find_hdr dom base with Some _ => 1 | None => 0 end, None, base)
  else on_cache dom (PM_ERR_INDOM, None) (file_op w op) base.

(** ** Saving and loading keep the invariant *)

Definition alike (e f : entry_t) : Prop :=
  e_inst f = e_inst e ∧ e_name f = e_name e ∧ e_hashlen f = e_hashlen e ∧ e_state f = e_state e.
Lemma keeps_alike h (G : nat * entry_t → nat * entry_t) :
  inv h → (∀ x, (G x).1 = x.1 ∧ alike x.2 (G x).2) → keeps h (set_list (G <$> elist h) h).
Proof.
  intros Hi HG. split_and!; [| done |].
  - apply inv_map; [done |]. intros x Hx. destruct (HG x) as [H1 (H2 & H3 & H4 & H5)]. split; [done |].
    split_and!; [done .. |]. unfold live. rewrite H5. intros Le. split; [done |].
    by apply (tame_same _ _ x (inv_entries _ _ Hi)).
  - intros Hl q Hq. destruct (Hl q Hq) as (e & He & Le). destruct (HG (q, e)) as [H1 (_ & _ & _ & H5)].
    exists (G (q, e)).2. split; [| unfold live in *; simpl in H5; by rewrite H5].
    apply list_elem_of_fmap. exists (q, e). split; [| done]. simpl in H1. by rewrite <- H1 at 1; destruct (G (q, e)).
Qed.
Lemma keeps_update_alike h p f : inv h → (∀ e, alike e (f e)) → keeps h (set_list (update p f (elist h)) h).
Proof.
  intros Hi Hf. apply keeps_alike; [done |]. intros x. destruct (x.1 =? p)%nat; [| done]. by split.
Qed.
Lemma digits_range p : ∀ acc n q, digits p acc = Ok (n, q) → is_s32 acc → is_s32 n.
Proof.
  induction p as [|c p IH]; intros acc n q; simpl; [done |]. destruct (isdigit c); [| by intros [= <- _]].
  intros E _. eapply IH; [exact E | apply s32_range].
Qed.
(** A line that is accepted has an identifier. *)
Lemma parse_inst p tmp inst x key name : parse_record p tmp = Ok (Rec inst x key name) → 0 <= inst <= INT_MAX.
Proof.
  unfold parse_record. intros (p1 & _ & E)%ok_bind. destruct (at_end p1); [done |].
  apply ok_bind in E as ([i p2] & Hd & E). apply digits_range in Hd; [| unfold is_s32; lia].
  apply ok_bind in E as (p3 & _ & E). destruct (Z.ltb_spec i 0); simpl orb in E; [done |]. destruct (at_end p3); [done |].
  enough (inst = i) as -> by (unfold is_s32, INT_MAX in *; lia).
  apply ok_bind in E as ([y p4] & _ & E). apply ok_bind in E as ([|c q] & _ & E); [done |]. revert E. case_bool_decide.
  - intros ([n|] & _ & E)%ok_bind; [| done]. destruct (scan_key _ q _) as [k q2]. apply ok_bind in E as (p6 & _ & E).
    destruct (at_end p6); [done |]. by apply ok_bind in E as (nm & _ & [= <- _ _ _]).
  - destruct (at_end _); [done |]. by intros (nm & _ & [= <- _ _ _])%ok_bind.
Qed.
Lemma loop_keeps w : ∀ fuel mem rest prev cnt h r h',
  inv h → load_loop fuel w mem rest prev cnt h = Ok (r, h') → keeps h h'.
Proof.
  intros fuel. induction fuel as [|fuel IH]; intros mem rest prev cnt h r h' Hi; cbn [load_loop]; [by intros [= <- <-] |].
  destruct (fgets BUFSIZE mem rest) as [[mem' rest']|]; [| by intros [= <- <-]].
  destruct (parse_record (chop mem') (w_tmp w cnt)) as [rec| |] eqn:Ep; cbn [mbind res_bind]; [| done ..].
  destruct rec as [| | inst x key name]; [| by intros [= <- <-] |].
  { destruct prev as [p|]; intros [= <- <-]; [| done]. by apply keeps_update_alike. }
  apply parse_inst in Ep. destruct (insert_cache h name inst) as [[[o sts] h1]| |] eqn:Ei; [| done ..].
  destruct (insert_cache_ok h name inst Hi) as [_ Hl]; [by right | intros ->; unfold NO_INST in *; lia |].
  specialize (Hl _ Ei). cbn [mbind res_bind]. destruct o as [p|]; [| intros [= <- <-]; apply Hl].
  assert (keeps h1 (set_list (update p (loaded key x) (elist h1)) h1)) as Hk by (apply keeps_update_alike; [apply Hl | done]).
  intros E. apply IH in E; [| apply Hk]. eapply keeps_trans; [apply Hl | by eapply keeps_trans].
Qed.
Lemma load_keeps w h r h' : inv h → load_cache w h = Ok (r, h') → keeps h h'.
Proof.
  intros Hi. unfold load_cache. destruct (w_errno w); [by intros [= <- <-] |].
  destruct (fgets _ _ _) as [[mem rest]|]; [| by intros [= <- <-]].
  destruct (scan_d mem) as [[x p]|]; [| by intros [= <- <-]]. destruct (scan_d p) as [[mode q]|]; [| by intros [= <- <-]].
  assert (keeps h (set_mode mode h)) as Hk by by apply keeps_mode.
  destruct (_ || _); [by intros [= <- <-] |]. intros E. eapply keeps_trans; [exact Hk |]. eapply loop_keeps; [apply Hk | exact E].
Qed.
Lemma save_keeps w mask h : inv h → keeps h (save_cache w mask h).2.
Proof.
  intros Hi. unfold save_cache. destruct (Z.land _ _ =? 0); [done |]. destruct (w_errno w); [done |]. cbn [snd].
  assert (keeps h (set_list ((λ x, (x.1, stamped (w_now w) x.2)) <$> elist h) h)) as Hk.
  { apply keeps_alike; [done |]. intros x. split; [done |]. unfold stamped. cbn [snd]. by destruct (_ && _). }
  eapply keeps_trans; [exact Hk |]. split_and!; [| done | done]. eapply inv_eq; [apply Hk | done ..].
Qed.
(** What [file_op] does to the invariant. *)
Lemma file_op_ok w op h r h' :
  inv h → file_op w op h = Ok (r, h') → inv h' ∧ indom h' = indom h ∧ (op ≠ PMDA_CACHE_CULL → keeps h h').
Proof.
  intros Hi. unfold file_op. assert (∀ m, Ok (save_cache w m h) = Ok (r, h') → inv h' ∧ indom h' = indom h ∧ (op ≠ PMDA_CACHE_CULL → keeps h h')) as Hs.
  { intros m E. pose proof (save_keeps w m h Hi) as Hk. injection E as E. rewrite E in Hk. split_and!; [apply Hk | apply Hk | done]. }
  destruct (op =? PMDA_CACHE_LOAD).
  { destruct (load_cache w h) as [[s h1]| |] eqn:E; [| done ..]. intros [= <- <-]. apply load_keeps in E as Hk; [| done].
    split_and!; [apply Hk | apply Hk | done]. }
  destruct (op =? PMDA_CACHE_SAVE); [apply Hs |]. destruct (op =? PMDA_CACHE_SYNC); [apply Hs |].
  destruct (cache_op op h) as [[s h1]| |] eqn:E; [| done ..]. intros [= <- <-]. by apply (cache_op_ok op h Hi) in E.
Qed.
Lemma file_op_total w op h : inv h → op ≠ PMDA_CACHE_WALK_NEXT → op ≠ PMDA_CACHE_LOAD → ∃ r, file_op w op h = Ok r.
Proof.
  intros Hi H1 H2. unfold file_op. destruct (Z.eqb_spec op PMDA_CACHE_LOAD); [done |].
  destruct (op =? PMDA_CACHE_SAVE); [by eexists |]. destruct (op =? PMDA_CACHE_SYNC); [by eexists |].
  destruct (cache_op_ok op h Hi) as [Ht _]. destruct (Ht H1) as [[s h1] ->]. by eexists.
Qed.

(** ** All caches *)

Fixpoint cache_of (dom : Z) (base : list hdr_t) : hdr_t :=
  match base with
  | [] => new_hdr dom
  | h :: base => if indom h =? dom then h else cache_of dom base
  end.
Definition put (dom : Z) (h : hdr_t) (base : list hdr_t) : list hdr_t :=
  let '(i, base) := find_cache dom base in <[i := h]> base.
Lemma find_hdr_spec dom base :
  match find_hdr dom base with
  | Some i => base !! i = Some (cache_of dom base)
  | None => cache_of dom base = new_hdr dom
  end.
Proof.
  induction base as [|h base IH]; simpl; [done |]. destruct (Z.eqb_spec (indom h) dom); [done |].
  by destruct (find_hdr dom base).
Qed.
Lemma on_cache_spec {A} dom (null : A) f base :
  dom ≠ PM_INDOM_NULL → on_cache dom null f base = '(a, h) ← f (cache_of dom base); Ok (a, put dom h base).
Proof.
  intros Hd. unfold on_cache, put, find_cache. destruct (Z.eqb_spec dom PM_INDOM_NULL); [done |].
  pose proof (find_hdr_spec dom base) as Hf. destruct (find_hdr dom base) as [i|]; [by rewrite Hf |]. simpl. by rewrite Hf.
Qed.
Lemma cache_of_put dom dom' h base :
  indom h = dom → cache_of dom' (put dom h base) = if decide (dom' = dom) then h else cache_of dom' base.
Proof.
  intros Hd. unfold put, find_cache. destruct (find_hdr dom base) as [i|] eqn:E; cycle 1.
  { simpl. rewrite Hd. case_decide; destruct (Z.eqb_spec dom dom'); congruence. }
  revert i E. induction base as [|g base IH]; intros i E; [done |]. simpl in E. destruct (Z.eqb_spec (indom g) dom) as [Eg|Ne].
  - injection E as <-. simpl. rewrite Hd, Eg. case_decide; destruct (Z.eqb_spec dom dom'); congruence.
  - destruct (find_hdr dom base) as [j|] eqn:Ej; [| done]. injection E as <-. simpl. rewrite (IH j eq_refl).
    destruct (Z.eqb_spec (indom g) dom'); [case_decide; congruence | done].
Qed.

Definition caches_ok (base : list hdr_t) : Prop :=
  Forall inv base ∧ NoDup (indom <$> base) ∧ PM_INDOM_NULL ∉ indom <$> base.
(** Moreover no cache has a [last] that was culled. *)
Definition caches_live (base : list hdr_t) : Prop := Forall (λ h, inv h ∧ last_live h) base.
Lemma inv_new_hdr dom : inv (new_hdr dom).
Proof.
  assert (∀ idx, table_ok idx (replicate 16 []) []) as Ht.
  { intros idx i c p [-> _]%lookup_replicate Hp. by apply elem_of_nil in Hp. }
  split; cbn [new_hdr elist last fresh hbits ctl_inst ctl_name]; try done.
  - split; try (by constructor); intros p e q f He; by apply elem_of_nil in He.
  - by exists 4%nat.
  - intros p e He. by apply elem_of_nil in He.
  - intros p e He. by apply elem_of_nil in He.
Qed.
Lemma cache_of_all (P : hdr_t → Prop) dom base : P (new_hdr dom) → Forall P base → P (cache_of dom base).
Proof. intros Hn. induction 1; simpl; [done |]. by destruct (_ =? _). Qed.
Lemma cache_of_indom dom base : indom (cache_of dom base) = dom.
Proof. induction base as [|h base IH]; simpl; [done |]. by destruct (Z.eqb_spec (indom h) dom). Qed.
Lemma put_all (P : hdr_t → Prop) dom h base : P h → Forall P base → Forall P (put dom h base).
Proof.
  intros Hh Hb. unfold put, find_cache. destruct (find_hdr dom base); [by apply Forall_insert |].
  by constructor.
Qed.
Lemma put_indoms dom h base :
  indom h = dom → (indom <$> put dom h base) = (match find_hdr dom base with Some _ => indom <$> base | None => dom :: (indom <$> base) end).
Proof.
  intros Hd. unfold put, find_cache. pose proof (find_hdr_spec dom base) as Hf.
  destruct (find_hdr dom base) as [i|]; [| by simpl; rewrite Hd].
  rewrite list_fmap_insert. apply list_insert_id. rewrite list_lookup_fmap, Hf, Hd. simpl. by rewrite cache_of_indom.
Qed.
Lemma find_hdr_none dom base : find_hdr dom base = None → dom ∉ indom <$> base.
Proof.
  induction base as [|h base IH]; simpl; [by intros _ ?%elem_of_nil |]. destruct (Z.eqb_spec (indom h) dom); [done |].
  destruct (find_hdr dom base); [done |]. intros _ [-> | Hin]%elem_of_cons; [done | by apply IH].
Qed.
Lemma put_ok dom h base : caches_ok base → dom ≠ PM_INDOM_NULL → inv h → indom h = dom → caches_ok (put dom h base).
Proof.
  intros (H1 & H2 & H3) Hd Hi Hdom. split; [by apply put_all |]. rewrite put_indoms by done.
  destruct (find_hdr dom base) eqn:E; [done |]. split.
  - apply NoDup_cons. split; [by apply find_hdr_none | done].
  - rewrite elem_of_cons. intros [? | ?]; [congruence | done].
Qed.
Lemma on_cache_keeps {A} dom (null : A) f base a base' :
  (∀ h a h', inv h → f h = Ok (a, h') → inv h' ∧ indom h' = indom h) → caches_ok base →
  on_cache dom null f base = Ok (a, base') → caches_ok base'.
Proof.
  intros Hf Hb Hr. destruct (Z.eq_dec dom PM_INDOM_NULL) as [->|Hd].
  { unfold on_cache in Hr. rewrite Z.eqb_refl in Hr. by injection Hr as <- <-. }
  rewrite on_cache_spec in Hr by done. destruct (f (cache_of dom base)) as [[x h']| |] eqn:E; [| done ..].
  injection Hr as <- <-. apply Hf in E as [? Ei]; [| apply cache_of_all; [apply inv_new_hdr | apply Hb]].
  apply put_ok; [done | done | done |]. by rewrite Ei, cache_of_indom.
Qed.
Lemma on_cache_live {A} dom (null : A) f base :
  (∀ h, inv h → last_live h → ∃ a h', f h = Ok (a, h') ∧ keeps h h') → caches_live base →
  ∃ a base', on_cache dom null f base = Ok (a, base') ∧ caches_live base'.
Proof.
  intros Hf Hb. destruct (Z.eq_dec dom PM_INDOM_NULL) as [->|Hd].
  { unfold on_cache. rewrite Z.eqb_refl. by eexists _, _. }
  rewrite on_cache_spec by done. assert (inv (cache_of dom base) ∧ last_live (cache_of dom base)) as [Hi Hl].
  { apply (cache_of_all (λ h, inv h ∧ last_live h)); [split; [apply inv_new_hdr | done] | done]. }
  destruct (Hf _ Hi Hl) as (a & h' & -> & Hk). cbn [mbind res_bind]. eexists _, _. split; [done |].
  apply put_all; [| done]. split; [apply Hk | by apply Hk].
Qed.

(** The calls an agent makes. *)
Inductive call :=
| Store (dom flags : Z) (name : buf) (private : Z)
| StoreKey (dom flags : Z) (name : buf) (key : option buf) (private : Z)
| Op (w : world) (dom op : Z)
| LookupName (dom : Z) (name : buf)
| Lookup (dom inst : Z)
| LookupKey (dom : Z) (name : buf) (key : option buf)
| Purge (now dom recent : Z).
Definition run (c : call) (base : list hdr_t) : res (list hdr_t) :=
  match c with
  | Store dom flags name private => snd <$> pmdaCacheStore dom flags name private base
  | StoreKey dom flags name key private => snd <$> pmdaCacheStoreKey dom flags name key private base
  | Op w dom op => snd <$> pmdaCacheOp w dom op base
  | LookupName dom name => snd <$> pmdaCacheLookupName dom name base
  | Lookup dom inst => snd <$> pmdaCacheLookup dom inst base
  | LookupKey dom name key => snd <$> pmdaCacheLookupKey dom name key base
  | Purge now dom recent => snd <$> pmdaCachePurge now dom recent base
  end.
(** The calls that cull, the walk, which the agent has to start, and the loading of a
    file. *)
Definition risky (c : call) : bool :=
  match c with
  | Store _ flags _ _ | StoreKey _ flags _ _ _ => flags =? PMDA_CACHE_CULL
  | Op _ _ op => (op =? PMDA_CACHE_CULL) || (op =? PMDA_CACHE_WALK_NEXT) || (op =? PMDA_CACHE_LOAD)
  | Purge _ _ _ => true
  | _ => false
  end.
Definition called (b b' : list hdr_t) : Prop := ∃ c, run c b = Ok b'.
Definition called_safe (b b' : list hdr_t) : Prop := ∃ c, risky c = false ∧ run c b = Ok b'.
Lemma fmap_ok {A B} (f : A → B) (r : res A) b : f <$> r = Ok b → ∃ a, r = Ok a ∧ f a = b.
Proof. destruct r; simpl; [| done ..]. intros [= <-]. by eexists. Qed.

Lemma lookup_reads name inst h a h' : (r ← lookup name inst h; Ok (r, h)) = Ok (a, h') → h' = h.
Proof. destruct (lookup name inst h); [| done ..]. by intros [= _ <-]. Qed.
Lemma lookup_key_frame name key h a h' : inv h → lookup_key name key h = Ok (a, h') → keeps h h'.
Proof.
  intros Hi Hr. destruct (lookup_key_spec name key h Hi) as (h1 & E & Hk & _). rewrite E in Hr.
  destruct (List.find _ _); by injection Hr as <- <-.
Qed.
Lemma run_ok c base base' : caches_ok base → run c base = Ok base' → caches_ok base'.
Proof.
  intros Hb Hr. destruct c; apply fmap_ok in Hr as ([a b] & Hr & <-); cbn [snd];
    try (revert Hr; apply on_cache_keeps; [| done]; intros h x h' Hi Hf).
  - destruct (store_ok flags name NO_INST [] private h Hi (or_introl eq_refl)) as [_ H]. by destruct (H _ _ Hf) as (? & ? & _).
  - destruct (negb _).
    + destruct (store_ok flags name NO_INST [] private h Hi (or_introl eq_refl)) as [_ H]. by destruct (H _ _ Hf) as (? & ? & _).
    + destruct (store_key_ok flags name key private h Hi) as [_ H]. by destruct (H _ _ Hf) as (? & ? & _).
  - unfold pmdaCacheOp in Hr. destruct (dom =? PM_INDOM_NULL); [by injection Hr as <- <- |].
    destruct (op =? PMDA_CACHE_CHECK); [by injection Hr as <- <- |].
    revert Hr. apply on_cache_keeps; [| done]. intros h x h' Hi Hf. by destruct (file_op_ok w op h x h' Hi Hf) as (? & ? & _).
  - by apply lookup_reads in Hf as ->.
  - by apply lookup_reads in Hf as ->.
  - by apply lookup_key_frame in Hf as (? & ? & _).
  - injection Hf as _ <-. by apply purge_inv.
Qed.
Lemma run_live c base : risky c = false → caches_live base → ∃ base', run c base = Ok base' ∧ caches_live base'.
Proof.
  intros Hc Hb.
  assert (∀ A (o : res (A * list hdr_t)), (∃ a b, o = Ok (a, b) ∧ caches_live b) → ∃ b, snd <$> o = Ok b ∧ caches_live b) as Hs.
  { intros A o (a & b & -> & H). by exists b. }
  assert (∀ A (null : A) dom f, (∀ h, inv h → last_live h → (∃ r, f h = Ok r) ∧ ∀ a h', f h = Ok (a, h') → keeps h h') →
    ∃ b, snd <$> on_cache dom null f base = Ok b ∧ caches_live b) as Hon.
  { intros A null dom f Hf. apply Hs, on_cache_live; [| done]. intros h Hi Hl. destruct (Hf h Hi Hl) as ([[a h'] E] & Hk).
    exists a, h'. split; [done | by eapply Hk]. }
  assert (∀ flags name private h, flags ≠ PMDA_CACHE_CULL → inv h → last_live h →
    (∃ r, store flags name NO_INST [] private h = Ok r) ∧ ∀ a h', store flags name NO_INST [] private h = Ok (a, h') → keeps h h') as Hst.
  { intros flags name private h Hne Hi Hl. destruct (store_ok flags name NO_INST [] private h Hi (or_introl eq_refl)) as [Ht H].
    split; [by apply Ht, last_live_ok |]. intros a h' E. by apply (H a h' E). }
  destruct c; simpl in Hc; [.. | done]; try (apply Hon; intros h Hi Hl).
  - apply Hst; [lia | done | done].
  - destruct (negb _); [apply Hst; [lia | done | done] |].
    destruct (store_key_ok flags name key private h Hi) as [Ht H]. split; [by apply Ht, last_live_ok |].
    intros a h' E. apply (H a h' E). lia.
  - cbn [run]. unfold pmdaCacheOp. apply orb_false_iff in Hc as [Hc H3]. apply orb_false_iff in Hc as [H1 H2].
    destruct (dom =? PM_INDOM_NULL); [by exists base |]. destruct (op =? PMDA_CACHE_CHECK); [by exists base |].
    apply Hon. intros h Hi Hl. split; [apply file_op_total; [done | lia | lia] |].
    intros a h' E. apply (file_op_ok w op h a h' Hi E). lia.
  - destruct (lookup_total (Some name) NO_INST h Hi) as [r ->]. split; [by eexists |]. by intros a h' [= _ <-].
  - destruct (lookup_total None inst h Hi) as [r ->]. split; [by eexists |]. by intros a h' [= _ <-].
  - destruct (lookup_key_spec name key h Hi) as (h1 & E & Hk & _). rewrite E. destruct (List.find _ _);
      (split; [by eexists |]); by intros a h' [= _ <-].
Qed.
Lemma called_ok base base' : rtc called base base' → caches_ok base → caches_ok base'.
Proof. induction 1 as [| ? ? ? (c & Hc)]; [done |]. intros Hb. by eapply IHrtc, run_ok. Qed.
Lemma caches_ok_nil : caches_ok [].
Proof. split_and!; [constructor | constructor | by intros ?%elem_of_nil]. Qed.

(** ** Properties *)

(** C24. The names under which a cache is searched are those of its list: in every state
    that calls of an agent lead to, [find_entry] finds over the hash chains, without ever
    following a stale pointer, exactly the entry that the linear search over the
    instance list finds, by identifier and by name, and reports the same match. *)
Theorem hash_lookup_linear base h inst name i :
  rtc called [] base → h ∈ base →
  find_entry h None inst = Ok (find_inst (elist h) inst, 0)
  ∧ find_entry h (Some name) i = Ok (find_name (elist h) name (get_hashlen name)).
Proof.
  intros Hr Hh. pose proof (called_ok _ _ Hr caches_ok_nil) as (Hall & _ & _). rewrite Forall_forall in Hall.
  specialize (Hall h Hh). pose proof (inv_entries _ _ Hall) as Ho. split.
  - destruct (find_by_inst None h inst Hall) as (r & -> & H). repeat f_equal.
    destruct (find_inst (elist h) inst) as [q|] eqn:E.
    + apply find_inst_spec in E as (f & Hf & Ef & Lf). destruct r as [p|]; [| by destruct (H q f Hf Lf)].
      destruct H as (e & He & Ei & Le). f_equal. eapply (eo_inst _ _ Ho); try done. congruence.
    + destruct r as [p|]; [| done]. destruct H as (e & He & Ei & Le). by destruct (find_inst_none _ _ p e E He Le).
  - destruct (find_by_name None h name i Hall) as (r & sts & -> & H). f_equal.
    destruct (find_name (elist h) name (get_hashlen name)) as [[q|] s] eqn:E; apply find_name_spec in E; try apply Ho.
    + destruct E as (f & Hf & Lf & Ef & ->). destruct r as [p|]; [| destruct H as [_ H]; by destruct (H q f Hf Lf)].
      destruct H as (e & He & Le & Ep & ->). assert (p = q) as -> by (eapply (eo_prefix _ _ Ho); try done; congruence).
      by rewrite (entry_unique _ _ _ _ (eo_ids _ _ Ho) He Hf).
    + destruct E as [-> E]. destruct r as [p|]; [| by destruct H as [-> _]].
      destruct H as (e & He & Le & Ep & _). by destruct (E p e He Le).
Qed.

(** C27. In every state that calls of an agent lead to, whatever they are, each cache has
    its entries in the order of their identifiers under different addresses, the entries
    in use have different identifiers and names (as far as the first space), the chains
    lead only to entries of the list, each in the chain it hashes to, every entry in use
    is in both of its chains, and [last] is the last entry unless it was freed; there is
    one cache for a domain. *)
Theorem cache_reachable_inv base : rtc called [] base → Forall inv base ∧ NoDup (indom <$> base) ∧ PM_INDOM_NULL ∉ indom <$> base.
Proof. intros Hr. exact (called_ok _ _ Hr caches_ok_nil). Qed.

(** As long as no entry was culled, every call but a walk that was not started
    returns: no stale pointer is followed, no chain is missing. *)
Lemma cache_never_faults base c : rtc called_safe [] base → risky c = false → ∃ base', run c base = Ok base'.
Proof.
  intros Hr Hc. assert (∀ b b', rtc called_safe b b' → caches_live b → caches_live b') as Hl.
  { induction 1 as [| b1 b2 b3 (c' & Hc' & E) _ IH]; [done |]. intros Hb. apply IH.
    destruct (run_live c' b1 Hc' Hb) as (b' & E' & ?). congruence. }
  destruct (run_live c base Hc (Hl _ _ Hr ltac:(constructor))) as (b' & ? & _). by exists b'.
Qed.

(** The answer of a call. *)
Definition answer {A} (r : res (A * list hdr_t)) : res A := fst <$> r.
Lemma answer_lookup dom inst base :
  dom ≠ PM_INDOM_NULL → answer (pmdaCacheLookup dom inst base) = lookup None inst (cache_of dom base).
Proof. intros Hd. unfold answer, pmdaCacheLookup. rewrite on_cache_spec by done. by destruct (lookup _ _ _). Qed.
Lemma answer_lookup_name dom name base :
  dom ≠ PM_INDOM_NULL → answer (pmdaCacheLookupName dom name base) = lookup (Some name) NO_INST (cache_of dom base).
Proof. intros Hd. unfold answer, pmdaCacheLookupName. rewrite on_cache_spec by done. by destruct (lookup _ _ _). Qed.

(** C25. When pmdaCacheStore adds an instance and returns an identifier, the lookups by
    name and by identifier both find that instance, active, with the private pointer
    that was stored; all other identifiers, of this domain and of the others, give what
    they gave before; and a store that fails changes no lookup by identifier. *)
Theorem store_lookup base base' dom name private r :
  rtc called [] base → dom ≠ PM_INDOM_NULL → pmdaCacheStore dom PMDA_CACHE_ADD name private base = Ok (r, base') →
  (0 <= r → ∃ e, e_inst e = r ∧ e_private e = private ∧ prefix e = key_name name
     ∧ answer (pmdaCacheLookupName dom name base') = Ok (PMDA_CACHE_ACTIVE, Some e)
     ∧ answer (pmdaCacheLookup dom r base') = Ok (PMDA_CACHE_ACTIVE, Some e))
  ∧ ∀ dom' i, dom' ≠ PM_INDOM_NULL → (dom' ≠ dom ∨ i ≠ r ∨ r < 0) →
      answer (pmdaCacheLookup dom' i base') = answer (pmdaCacheLookup dom' i base).
Proof.
  intros Hr Hd Hs. pose proof (called_ok _ _ Hr caches_ok_nil) as (Hall & _ & _).
  unfold pmdaCacheStore in Hs. rewrite on_cache_spec in Hs by done.
  set (h := cache_of dom base) in *. assert (inv h) as Hi by (apply cache_of_all; [apply inv_new_hdr | done]).
  destruct (store PMDA_CACHE_ADD name NO_INST [] private h) as [[r' h']| |] eqn:E; [| done ..]. injection Hs as <- <-.
  destruct (store_ok PMDA_CACHE_ADD name NO_INST [] private h Hi (or_introl eq_refl)) as [_ Hok].
  destruct (Hok _ _ E) as (Hi' & Hd' & _). assert (indom h' = dom) as Hdom by (by rewrite Hd'; apply cache_of_indom).
  apply store_stored in E; [| done]. split.
  - intros H0. destruct E as [[? _] | (p & Hp)]; [lia |]. destruct (stored_lookups _ _ _ _ _ _ _ Hi Hi' Hp) as [(e & ? & ? & ? & Hn & Hl) _].
    exists e. rewrite answer_lookup, answer_lookup_name, cache_of_put by done. by rewrite decide_True by done.
  - intros dom' i Hd2 Hne. rewrite !answer_lookup, cache_of_put by done. case_decide as Heq; [| done]. subst dom'. fold h.
    destruct E as [[Hr0 Hsame] | (p & Hp)]; [by apply same_lookups |].
    destruct (stored_lookups _ _ _ _ _ _ _ Hi Hi' Hp) as [_ Hl]. apply Hl. destruct Hp. intuition lia.
Qed.

(** ** Examples *)

Definition no_world : world := mkWorld None [] 100 (λ _, Byte.x00) (λ _, 0) (λ _, Byte.x00).

Fixpoint run_all (cs : list call) (base : list hdr_t) : res (list hdr_t) :=
  match cs with
  | [] => Ok base
  | c :: cs => base ← run c base; run_all cs base
  end.
Lemma run_all_called cs : ∀ b b', run_all cs b = Ok b' → rtc called b b'.
Proof.
  induction cs as [|c cs IH]; simpl; intros b b'; [by intros [= <-] |].
  destruct (run c b) as [b1| |] eqn:E; [| done ..]. intros H. eapply rtc_l; [by exists c | by apply IH].
Qed.
Lemma run_all_safe cs : forallb (λ c, negb (risky c)) cs = true → ∀ b b', run_all cs b = Ok b' → rtc called_safe b b'.
Proof.
  induction cs as [|c cs IH]; simpl; intros Hc b b'; [by intros [= <-] |]. apply andb_true_iff in Hc as [H1 H2].
  destruct (run c b) as [b1| |] eqn:E; [| done ..]. intros H. eapply rtc_l; [exists c; split; [by destruct (risky c) | done] | by apply IH].
Qed.
Definition name_a : buf := [Byte.x61].
(** The names b and b c. *)
Definition name_b : buf := [Byte.x62].
Definition name_bc : buf := [Byte.x62; Byte.x20; Byte.x63].
Definition safe_calls : list call :=
  [Store 7 PMDA_CACHE_ADD name_a 11; Store 9 PMDA_CACHE_ADD name_a 12; StoreKey 7 PMDA_CACHE_ADD name_bc (Some name_a) 13;
   Store 7 PMDA_CACHE_HIDE name_b 0; Op no_world 7 PMDA_CACHE_REORG; LookupKey 7 name_b None].
Definition cull_calls : list call := safe_calls ++ [Store 7 PMDA_CACHE_CULL name_a 0; Purge 100 9 10; Op no_world 9 PMDA_CACHE_ACTIVE].
Definition after (cs : list call) : list hdr_t := match run_all cs [] with Ok b => b | _ => [] end.
Lemma after_called : rtc called [] (after cull_calls).
Proof. apply (run_all_called cull_calls). vm_compute. reflexivity. Qed.

Lemma hash_lookup_linear_witness :
  find_entry (cache_of 7 (after cull_calls)) (Some name_b) NO_INST = Ok (Some 1%nat, 1)
  ∧ find_entry (cache_of 7 (after cull_calls)) (Some name_b) NO_INST
    = Ok (find_name (elist (cache_of 7 (after cull_calls))) name_b (get_hashlen name_b)).
Proof.
  split; [vm_compute; reflexivity |]. apply (hash_lookup_linear (after cull_calls) _ 0); [apply after_called |].
  apply list_elem_of_In. vm_compute. tauto.
Defined.
Lemma cache_reachable_inv_witness : length (after cull_calls) = 2%nat ∧ NoDup (indom <$> after cull_calls).
Proof. split; [vm_compute; reflexivity |]. apply (cache_reachable_inv (after cull_calls)). apply after_called. Defined.
Lemma cache_never_faults_witness :
  length (after safe_calls) = 2%nat ∧ ∃ base', run (Store 7 PMDA_CACHE_ADD name_b 14) (after safe_calls) = Ok base'.
Proof.
  split; [vm_compute; reflexivity |]. apply cache_never_faults; [| reflexivity].
  apply (run_all_safe safe_calls); vm_compute; reflexivity.
Defined.
Lemma store_lookup_witness :
  ∃ base' r, pmdaCacheStore 7 PMDA_CACHE_ADD name_a 14 (after cull_calls) = Ok (r, base') ∧ 0 <= r
  ∧ ∃ e, answer (pmdaCacheLookup 7 r base') = Ok (PMDA_CACHE_ACTIVE, Some e) ∧ e_private e = 14.
Proof.
  destruct (pmdaCacheStore 7 PMDA_CACHE_ADD name_a 14 (after cull_calls)) as [[r base']| |] eqn:E; [| vm_compute in E; discriminate ..].
  exists base', r. assert (0 <= r) as H0.
  { revert E. vm_compute. intros H. injection H as <- _. discriminate. }
  split; [reflexivity |]. split; [exact H0 |].
  destruct (store_lookup (after cull_calls) base' 7 name_a 14 r after_called ltac:(discriminate) E) as [H _].
  destruct (H H0) as (e & _ & Hp & _ & _ & Hl). exists e. split; [exact Hl | exact Hp].
Defined.

(** ** What goes wrong *)

(** When the last entry was culled, a reorganisation frees it and leaves [last] pointing
    to it: the next store follows the pointer. *)
Lemma reorg_last_dangles :
  run_all [Store 7 PMDA_CACHE_ADD name_a 0; Store 7 PMDA_CACHE_CULL name_a 0; Op no_world 7 PMDA_CACHE_REORG; Store 7 PMDA_CACHE_ADD name_b 0] [] = Fault.
Proof. vm_compute. reflexivity. Qed.
(** The walk that was not started follows a pointer that was never set. *)
Lemma walk_unset : run_all [Store 7 PMDA_CACHE_ADD name_a 0; Op no_world 7 PMDA_CACHE_WALK_NEXT] [] = Fault.
Proof. vm_compute. reflexivity. Qed.
(** The size counts entries that were reclaimed. *)
Lemma size_counts_reclaimed :
  answer (pmdaCacheOp no_world 7 PMDA_CACHE_SIZE
    (after [Store 7 PMDA_CACHE_ADD name_a 0; Store 7 PMDA_CACHE_CULL name_a 0; Op no_world 7 PMDA_CACHE_REORG])) = Ok (1, None).
Proof. vm_compute. reflexivity. Qed.
