(* ===== verification/CacheLoad.v ===== *)
(** What is saved to the persistent file of an instance cache is what is loaded from it,
    src/libpcp_pmda/src/cache.c: the lines [save_cache] prints are the lines
    [load_cache] reads, and their instances come back in their order. *)
From stdpp Require Import sorting.
From S2P Require Import Prelude Memory Text Types PduIO PduSimple PduInstance Cache CacheOps CacheFile.
Import Cache.Cache.

(** ** Printing and scanning *)

Lemma scan_key_hex k : ∀ r tmp, scan_key (length k) (concat (hex2 <$> k) ++ r) tmp = (k, r).
Proof.
  induction k as [|c k IH]; intros r tmp; [done |]. cbn [length scan_key]. rewrite fmap_cons. cbn [concat].
  rewrite <- app_assoc, hex2_scan. change (drop 2 (hex2 c ++ concat (hex2 <$> k) ++ r)) with (concat (hex2 <$> k) ++ r).
  by rewrite IH, byte_land.
Qed.
Lemma to_bracket_plain s r : Forall (λ d, inline d = true ∧ d ≠ bracket_close) s → to_bracket (s ++ bracket_close :: r) = Ok (Some (length s)).
Proof.
  induction 1 as [|c s [Hc Hb] _ IH]; [done |]. simpl. unfold inline in Hc. apply andb_true_iff in Hc as [Hc _].
  apply bool_decide_eq_true in Hc. rewrite !bool_decide_eq_false_2 by done. by rewrite IH.
Qed.
Lemma hex_plain k : Forall (λ d, inline d = true ∧ d ≠ bracket_close) (concat (hex2 <$> k)) ∧ length (concat (hex2 <$> k)) = (2 * length k)%nat.
Proof.
  induction k as [|c k [IH1 IH2]]; [done |]. rewrite fmap_cons. cbn [concat]. split.
  - apply Forall_app. split; [apply hex2_plain | done].
  - rewrite length_app, IH2. simpl. lia.
Qed.
Lemma cstr_inline s r : Forall (λ c, inline c = true) s → cstr (s ++ NUL :: r) = Ok s.
Proof.
  induction 1 as [|c s Hc _ IH]; [done |]. simpl. unfold inline in Hc. apply andb_true_iff in Hc as [Hc _].
  apply bool_decide_eq_true in Hc. rewrite bool_decide_eq_false_2 by done. by rewrite IH.
Qed.

(** ** A line *)

(** The instances that survive: the name has no newline, starts neither with a space nor,
    without a key, with a bracket, and the line fits into the buffer. *)
Definition saveable (e : entry_t) : bool :=
  forallb inline (e_name e)
  && match e_name e with
     | [] => false
     | c :: _ => negb (isspace c) && (negb (bool_decide (c = bracket_open)) || negb (bool_decide (e_key e = [])))
     end
  && (0 <=? e_stamp e) && (e_stamp e <=? INT_MAX) && (length (show_entry e) <? BUFSIZE)%nat.
Definition key_text (k : buf) : buf :=
  match k with [] => [] | _ => space :: bracket_open :: concat (hex2 <$> k) ++ [bracket_close] end.
Definition line (e : entry_t) : buf := show (e_inst e) ++ space :: show (e_stamp e) ++ key_text (e_key e) ++ space :: e_name e.
Lemma show_entry_line e : is_s32 (e_stamp e) → show_entry e = line e ++ [newline].
Proof. intros H. unfold show_entry, line. rewrite s32_id by done. rewrite <- !app_assoc. simpl. by rewrite <- !app_assoc. Qed.
Lemma saveable_spec e :
  saveable e = true → Forall (λ c, inline c = true) (e_name e) ∧ 0 <= e_stamp e <= INT_MAX ∧ (length (show_entry e) < BUFSIZE)%nat
  ∧ ∃ c q, e_name e = c :: q ∧ isspace c = false ∧ (e_key e = [] → c ≠ bracket_open).
Proof.
  unfold saveable. rewrite !andb_true_iff. intros ((((H1 & H2) & H3) & H4) & H5). rewrite forallb_forall in H1.
  split_and!; [apply Forall_forall; intros c Hc; by apply H1, list_elem_of_In | lia | lia | by apply Nat.ltb_lt |].
  destruct (e_name e) as [|c q]; [done |]. exists c, q. apply andb_true_iff in H2 as [H2 H6].
  split_and!; [done | by destruct (isspace c) |]. intros Hk ->. by rewrite Hk in H6.
Qed.
Lemma skip_space_one p c q : p = c :: q → isspace c = false → skip_space p = Ok p ∧ skip_space (space :: p) = Ok p.
Proof. intros -> Hc. simpl. by rewrite Hc. Qed.
Lemma line_inline e : saveable e = true → 0 <= e_inst e → Forall (λ c, inline c = true) (line e).
Proof.
  intros (H1 & H2 & _)%saveable_spec Hi. unfold line. apply Forall_app. split; [by apply show_inline |]. constructor; [done |].
  apply Forall_app. split; [apply show_inline; lia |]. apply Forall_app. split; [| by constructor].
  unfold key_text. destruct (e_key e) as [|k ks]; [constructor |]. do 2 (constructor; [done |]). apply Forall_app. split; [| by repeat constructor].
  eapply Forall_impl; [apply (hex_plain (k :: ks)) |]. by intros d [? _].
Qed.
Definition key_option (k : buf) : option buf := match k with [] => None | _ => Some k end.
Lemma parse_line e r tmp :
  saveable e = true → 0 <= e_inst e <= INT_MAX →
  parse_record (line e ++ NUL :: r) tmp = Ok (Rec (e_inst e) (e_stamp e) (key_option (e_key e)) (e_name e)).
Proof.
  intros (Hname & Hst & _ & (c & q & En & Hc & Hb))%saveable_spec Hi. unfold parse_record, line.
  rewrite <- !app_assoc. cbn [app]. rewrite <- !app_assoc.
  destruct (show_head (e_inst e)) as (ci & qi & Ei & Hci & _); [lia |]. destruct (digit_plain ci Hci) as (_ & Hsi & Hni).
  destruct (show_head (e_stamp e)) as (cs & qs & Es & Hcs & _); [lia |]. destruct (digit_plain cs Hcs) as (_ & Hss & Hns).
  set (tail := key_text (e_key e) ++ (space :: e_name e) ++ NUL :: r).
  destruct (skip_space_one (show (e_inst e) ++ space :: show (e_stamp e) ++ tail) ci (qi ++ space :: show (e_stamp e) ++ tail)) as [E1 _];
    [by rewrite Ei | done |].
  rewrite E1. cbn [mbind res_bind]. unfold at_end at 1. rewrite Ei at 1. cbn [app]. rewrite bool_decide_eq_false_2 by done.
  rewrite show_digits by done. cbn [mbind res_bind].
  destruct (skip_space_one (show (e_stamp e) ++ tail) cs (qs ++ tail)) as [_ E2]; [by rewrite Es | done |]. rewrite E2. cbn [mbind res_bind].
  destruct (Z.ltb_spec (e_inst e) 0); [lia |]. unfold at_end at 1. rewrite Es at 1. cbn [app orb]. rewrite bool_decide_eq_false_2 by done.
  assert (c ≠ NUL) as Hc0.
  { rewrite En in Hname. apply Forall_cons in Hname as [Hx _]. intros ->. done. }
  assert (∀ x k, (if at_end (e_name e ++ NUL :: r) then Ok BadNew else name ← cstr (e_name e ++ NUL :: r); Ok (Rec (e_inst e) x k name))
     = Ok (Rec (e_inst e) x k (e_name e))) as Hend.
  { intros x k. rewrite cstr_inline by done. rewrite En. cbn [at_end app]. by rewrite bool_decide_eq_false_2. }
  assert (∃ rest, tail = space :: rest) as (rest & Et).
  { unfold tail, key_text. destruct (e_key e); by eexists. }
  rewrite Et, show_digits by done. cbn [mbind res_bind]. rewrite <- Et. subst tail. clear Et.
  destruct (e_key e) as [|k ks] eqn:Ek; cbn [key_text app].
  - destruct (skip_space_one (e_name e ++ NUL :: r) c (q ++ NUL :: r)) as [_ E3]; [by rewrite En | done |]. rewrite E3. cbn [mbind res_bind].
    specialize (Hend (e_stamp e) None). rewrite En in Hend |- *. cbn [app] in *. rewrite bool_decide_eq_false_2 by auto. exact Hend.
  - destruct (hex_plain (k :: ks)) as [Hp1 Hp2]. rewrite <- app_assoc. cbn [app].
    destruct (skip_space_one (bracket_open :: concat (hex2 <$> k :: ks) ++ bracket_close :: space :: e_name e ++ NUL :: r)
      bracket_open (concat (hex2 <$> k :: ks) ++ bracket_close :: space :: e_name e ++ NUL :: r)) as [_ E3]; [done | done |].
    rewrite E3. cbn [mbind res_bind]. rewrite bool_decide_eq_true_2 by done. rewrite to_bracket_plain by done. cbn [mbind res_bind].
    rewrite Hp2, Nat.div2_double, scan_key_hex. cbn [drop]. rewrite drop_0.
    destruct (skip_space_one (e_name e ++ NUL :: r) c (q ++ NUL :: r)) as [E4 _]; [by rewrite En | done |]. rewrite E4. cbn [mbind res_bind].
    apply Hend.
Qed.

(** ** All lines *)

(** What loading makes of an instance. *)
Definition restored (e : entry_t) : entry_t :=
  mkEntry (e_inst e) (e_name e) (e_hashlen e) (e_key e) PMDA_CACHE_INACTIVE 0 (e_stamp e).
Definition apart (e f : entry_t) : Prop := e_inst e < e_inst f ∧ prefix e ≠ prefix f.
Lemma insert_end h name inst :
  inv h → last_live h → Forall (λ x, live x.2 = true) (elist h) → 0 <= inst <= INT_MAX →
  (∀ p e, (p, e) ∈ elist h → e_inst e < inst ∧ prefix e ≠ key_name name) →
  ∃ p h', insert_cache h name inst = Ok (Some p, 0, h') ∧ keeps h h' ∧ ins_mode h' = ins_mode h
    ∧ elist h' = elist h ++ [(p, new_entry name inst)].
Proof.
  intros Hi Hl Hlive Hin Hap. unfold insert_cache. destruct (Z.eqb_spec inst NO_INST) as [->|_]; [unfold NO_INST in *; lia |]. cbn [negb].
  destruct (find_by_inst None h inst Hi) as (r & -> & Hr). cbn [mbind res_bind]. destruct r as [p|].
  { destruct Hr as (e & He & <- & _). destruct (Hap p e He). lia. }
  destruct (find_by_name None h name NO_INST Hi) as (r & sts & -> & Hr2). cbn [mbind res_bind]. destruct r as [p|].
  { destruct Hr2 as (e & He & _ & Hp & _). by destruct (Hap p e He). }
  assert (Forall (λ x, e_inst x.2 < inst) (elist h)) as Hlt by (apply Forall_forall; intros [p e] Hx; by apply (Hap p e)).
  assert (place (elist h) inst None = fst <$> list.last (elist h)) as ->.
  { destruct (place_splits inst (elist h) []) as (l1 & l2 & El & E & _ & H2); [apply (eo_sorted _ _ (inv_entries _ _ Hi)) | done |].
    simpl in El, E. rewrite E. destruct l2 as [|x l2]; [by rewrite El, app_nil_r |]. apply Forall_cons in H2 as [H2 _].
    rewrite Forall_forall in Hlt. specialize (Hlt x). rewrite El in Hlt. enough (e_inst x.2 < inst) by lia.
    apply Hlt, elem_of_app. right. by left. }
  assert (splits (elist h) inst (fst <$> list.last (elist h))) as Hs by (exists (elist h), []; by rewrite app_nil_r).
  destruct (link_entry_ok h name inst _ Hi Hs Hin) as [Ht Hk].
  { intros p e He _. destruct (Hap p e He). split; [lia | done]. }
  destruct (Ht (last_live_ok h Hl)) as [[p h'] E]. rewrite E. cbn [mbind res_bind]. exists p, h'.
  destruct (Hk p h' E) as (? & _ & ? & ?). destruct (link_entry_list h name inst (elist h) [] p h' Hi ltac:(by rewrite app_nil_r) Hlive E) as [E1 E2].
  by split_and!.
Qed.
Lemma update_end (l : list (nat * entry_t)) p e f : p ∉ ids l → update p f (l ++ [(p, e)]) = l ++ [(p, f e)].
Proof.
  intros Hp. unfold update. rewrite fmap_app. simpl. rewrite Nat.eqb_refl. f_equal.
  induction l as [|[q g] l IH]; [done |]. rewrite fmap_cons in *. apply not_elem_of_cons in Hp as [Hne Hp].
  simpl in *. rewrite IH by done. by destruct (Nat.eqb_spec q p).
Qed.
Lemma load_lines w : ∀ es fuel mem prev cnt h,
  inv h → last_live h → Forall (λ x, live x.2 = true) (elist h) → (length es < fuel)%nat →
  Forall (λ e, saveable e = true ∧ 0 <= e_inst e <= INT_MAX ∧ e_hashlen e = get_hashlen (e_name e)) es →
  StronglySorted apart es → Forall (λ x, Forall (apart x.2) es) (elist h) →
  ∃ h', load_loop fuel w mem (concat (show_entry <$> es)) prev cnt h = Ok (cnt + zlen es, h')
    ∧ snd <$> elist h' = (snd <$> elist h) ++ (restored <$> es) ∧ ins_mode h' = ins_mode h.
Proof.
  intros es. induction es as [|e es IH]; intros fuel mem prev cnt h Hi Hl Hlive Hf Hes Hs Hap; (destruct fuel as [|fuel]; [simpl in Hf; lia |]).
  { exists h. simpl. rewrite Z.add_0_r, app_nil_r. done. }
  apply Forall_cons in Hes as [(Hsv & Hin & Hh) Hes]. apply StronglySorted_inv in Hs as [Hs He].
  pose proof (saveable_spec e Hsv) as (_ & Hst & Hlen & _). rewrite show_entry_line in Hlen by (unfold is_s32, INT_MAX in *; lia).
  rewrite length_app in Hlen. unfold BUFSIZE in Hlen. simpl in Hlen.
  cbn [load_loop]. rewrite fmap_cons. cbn [concat]. rewrite show_entry_line by (unfold is_s32, INT_MAX in *; lia).
  rewrite <- app_assoc. cbn [app]. unfold fgets.
  destruct (line e ++ newline :: concat (show_entry <$> es)) eqn:E0; [by destruct (app_cons_not_nil _ _ _ (eq_sym E0)) |]. rewrite <- E0. clear E0.
  pose proof (line_inline e Hsv ltac:(lia)) as Hline. unfold BUFSIZE. rewrite fgets_inline by (done || lia).
  rewrite <- app_assoc. cbn [app]. rewrite chop_inline by done. rewrite parse_line by done. cbn [mbind res_bind].
  destruct (insert_end h (e_name e) (e_inst e)) as (p & h1 & -> & Hk & Em & El); [done | done | done | done | |].
  { intros q f Hq. rewrite Forall_forall in Hap. specialize (Hap _ Hq). apply Forall_cons in Hap as [[H1 H2] _]. simpl in H1, H2.
    split; [done |]. intros E. apply H2. rewrite E. unfold prefix, key_name. by rewrite Hh. }
  cbn [mbind res_bind].
  assert (p ∉ ids (elist h)) as Hp.
  { pose proof (eo_ids _ _ (inv_entries _ _ (proj1 Hk))) as Hn. rewrite El, fmap_app in Hn. apply NoDup_app in Hn as (_ & Hn & _).
    intros Hx. apply (Hn p Hx). by left. }
  assert (loaded (key_option (e_key e)) (e_stamp e) (new_entry (e_name e) (e_inst e)) = restored e) as Er.
  { unfold loaded, restored. simpl. rewrite Hh. f_equal. by destruct (e_key e). }
  set (h2 := set_list _ h1). assert (elist h2 = elist h ++ [(p, restored e)]) as El2.
  { unfold h2. cbn [set_list elist]. by rewrite El, update_end, Er. }
  assert (keeps h h2) as Hk2 by (eapply keeps_trans; [exact Hk |]; apply keeps_update_alike; [apply Hk | done]).
  replace (cnt + zlen (e :: es)) with (cnt + 1 + zlen es) by (simpl; lia).
  destruct (IH fuel (line e ++ NUL :: NUL :: drop (length (line e ++ [newline]) + 1) mem) ((λ _, p) <$> key_option (e_key e)) (cnt + 1) h2) as (h' & E & E1 & E2).
  - apply Hk2.
  - by apply Hk2.
  - rewrite El2. apply Forall_app. split; [done | by repeat constructor].
  - simpl in Hf. lia.
  - done.
  - done.
  - rewrite El2. apply Forall_app. split; [| by repeat constructor].
    eapply Forall_impl; [exact Hap |]. simpl. intros x Hx. by apply Forall_cons in Hx as [_ ?].
  - exists h'. split; [exact E |]. rewrite E1, E2, El2, fmap_app, <- app_assoc. done.
Qed.
(** The entries of a domain in use, in order. *)
Definition in_use (dom : Z) (base : list hdr_t) : list entry_t :=
  List.filter live (snd <$> elist (cache_of dom base)).
Lemma filter_snd (l : list (nat * entry_t)) : (λ x, x.2) <$> List.filter (λ x, live x.2) l = List.filter live (snd <$> l).
Proof. induction l as [|[p e] l IH]; simpl; [done |]. destruct (live e); [| done]. rewrite fmap_cons. by rewrite IH. Qed.
Lemma sorted_apart h : inv h → StronglySorted apart (List.filter live (snd <$> elist h)).
Proof.
  intros Hi. pose proof (inv_entries _ _ Hi) as [H1 _ _ _ H5 H6 H7]. revert H1 H5 H6 H7.
  induction (elist h) as [|[p e] l IH]; intros H1 H5 H6 H7; [constructor |]. simpl in H1. apply NoDup_cons in H1 as [Hp H1].
  apply StronglySorted_inv in H5 as [H5 Hle].
  assert (StronglySorted apart (List.filter live (snd <$> l))) as IH'.
  { apply IH; [done | done | |].
    - intros q f q' f' Hf Hf'. apply H6; by right.
    - intros q f q' f' Hf Hf'. apply H7; by right. }
  simpl. destruct (live e) eqn:Le; [| done]. constructor; [done |]. apply Forall_forall. intros f [Hf Lf]%in_filter.
  apply list_elem_of_fmap in Hf as ([q f'] & -> & Hq). simpl in *. rewrite Forall_forall in Hle. specialize (Hle _ Hq). simpl in Hle.
  assert (q ≠ p) as Hne by (intros ->; apply Hp; by eapply in_ids). split.
  - destruct (Z.eq_dec (e_inst e) (e_inst f')) as [E|]; [| lia]. destruct Hne. symmetry. apply (H6 p e q f'); [by left | by right | done | done | done].
  - intros E. destruct Hne. symmetry. apply (H7 p e q f'); [by left | by right | done | done | done].
Qed.
Lemma load_header w h mode body :
  w_errno w = None → 0 <= mode <= 1 → w_file w = show 1 ++ space :: show mode ++ newline :: body →
  ∃ mem, load_cache w h = load_loop (S (length body)) w mem body None 0 (set_mode mode h).
Proof.
  intros He Hm Hf. unfold load_cache. rewrite He, Hf. unfold fgets.
  change (show 1 ++ space :: show mode ++ newline :: body) with (Byte.x31 :: space :: show mode ++ newline :: body). cbv iota.
  change (Byte.x31 :: space :: show mode ++ newline :: body) with ((Byte.x31 :: space :: show mode) ++ newline :: body).
  rewrite fgets_inline.
  - assert (mode = 0 ∨ mode = 1) as [-> | ->] by lia; eexists; reflexivity.
  - do 2 (constructor; [done |]). apply show_inline. lia.
  - assert (mode = 0 ∨ mode = 1) as [-> | ->] by lia; vm_compute; lia.
Qed.

Lemma lines_length es : (length es <= length (concat (show_entry <$> es)))%nat.
Proof.
  induction es as [|e es IH]; [done |]. rewrite fmap_cons. cbn [concat length]. rewrite length_app.
  assert (1 <= length (show_entry e))%nat; [| lia]. unfold show_entry. rewrite length_app. cbn [length]. lia.
Qed.

(** C26. An agent that saves a cache and, after a restart, loads the file, gets back its
    instances: whatever calls were made before, when pmdaCacheOp has written the file and
    the instances in use are ones a line can hold, loading that file into an empty cache
    returns the same number, and the instances come back in order with their identifiers,
    names, keys and time stamps, all inactive and without a private pointer. *)
Theorem save_load base base' w w2 dom op n text :
  rtc called [] base → pmdaCacheOp w dom op base = Ok (n, Some text, base') →
  0 <= ins_mode (cache_of dom base) <= 1 → Forall (λ e, saveable e = true) (in_use dom base') →
  w_errno w2 = None → w_file w2 = text →
  ∃ base2, pmdaCacheOp w2 dom PMDA_CACHE_LOAD [] = Ok (n, None, base2)
    ∧ snd <$> elist (cache_of dom base2) = restored <$> in_use dom base' ∧ n = zlen (in_use dom base').
Proof.
  intros Hr Hop Hmode Hsv Herr Hfile. pose proof (called_ok _ _ Hr caches_ok_nil) as (Hall & _ & _).
  unfold pmdaCacheOp in *. destruct (Z.eqb_spec dom PM_INDOM_NULL) as [|Hd]; [done |]. destruct (op =? PMDA_CACHE_CHECK); [done |].
  change (PMDA_CACHE_LOAD =? PMDA_CACHE_CHECK) with false. cbv iota. rewrite on_cache_spec in * by done.
  set (h := cache_of dom base) in *. assert (inv h) as Hi by (apply cache_of_all; [apply inv_new_hdr | done]).
  destruct (file_op w op h) as [[[s t] h']| |] eqn:E; [| done ..]. cbn [mbind res_bind] in Hop. injection Hop as -> -> <-.
  assert (∃ mask, save_cache w mask h = (n, Some text, h')) as (mask & Es).
  { revert E. unfold file_op. destruct (op =? PMDA_CACHE_LOAD); [destruct (load_cache w h) as [[] | |]; by intros [=] |].
    destruct (op =? PMDA_CACHE_SAVE); [intros [= E]; by eexists |]. destruct (op =? PMDA_CACHE_SYNC); [intros [= E]; by eexists |].
    destruct (cache_op op h) as [[] | |]; by intros [=]. }
  pose proof (save_keeps w mask h Hi) as (Hi' & Hdom & _). rewrite Es in Hi', Hdom. cbn [snd] in Hi', Hdom.
  unfold in_use in *. rewrite cache_of_put, decide_True in * by (done || (rewrite Hdom; apply cache_of_indom)).
  unfold save_cache in Es. destruct (Z.land _ _ =? 0); [done |]. destruct (w_errno w); [done |].
  rewrite filter_snd in Es. injection Es as <- Et Eh.
  set (es := List.filter live (snd <$> elist h')). assert (es = List.filter live (snd <$> ((λ x, (x.1, stamped (w_now w) x.2)) <$> elist h))) as Ees.
  { unfold es. by rewrite <- Eh. }
  rewrite <- Ees in *. subst text. unfold file_op. cbn [Z.eqb PMDA_CACHE_LOAD Pos.eqb].
  destruct (load_header w2 (cache_of dom []) (ins_mode h) (concat (show_entry <$> es)) Herr Hmode (eq_sym Et)) as (mem & ->).
  destruct (load_lines w2 es (S (length (concat (show_entry <$> es)))) mem None 0 (set_mode (ins_mode h) (cache_of dom []))) as (h2 & El & E1 & E2).
  - apply keeps_mode, inv_new_hdr.
  - done.
  - constructor.
  - pose proof (lines_length es). lia.
  - pose proof (inv_entries _ _ Hi') as Ho. apply Forall_forall. intros e He. rewrite Forall_forall in Hsv.
    split; [by apply Hsv |]. apply in_filter in He as [([p e'] & -> & Hx)%list_elem_of_fmap _].
    pose proof (eo_values _ _ Ho) as Hv. pose proof (eo_names _ _ Ho) as Hn. rewrite Forall_forall in Hv, Hn.
    split; [by apply (Hv (p, e')) | by apply (Hn (p, e'))].
  - by apply sorted_apart.
  - constructor.
  - rewrite El. cbn [mbind res_bind]. eexists. split; [done |]. assert (indom h2 = dom) as Hdom2.
    { apply loop_keeps in El as (_ & -> & _); [done |]. apply keeps_mode, inv_new_hdr. }
    rewrite cache_of_put, decide_True by done. rewrite E1. done.
Qed.

(** The fuel of [load_cache] is enough: every line takes a character off the file. *)
Lemma load_loop_fuel w : ∀ fuel fuel' mem rest prev cnt h,
  (length rest < fuel)%nat → (length rest < fuel')%nat → load_loop fuel w mem rest prev cnt h = load_loop fuel' w mem rest prev cnt h.
Proof.
  induction fuel as [|fuel IH]; intros [|fuel'] mem rest prev cnt h H1 H2; [lia .. |]. cbn [load_loop].
  destruct (fgets BUFSIZE mem rest) as [[mem' rest']|] eqn:E; [| done]. apply fgets_shrinks in E; [| unfold BUFSIZE; lia].
  destruct (parse_record (chop mem') (w_tmp w cnt)) as [[| | inst x key name]| |]; cbn [mbind res_bind]; [done | done | | done | done].
  destruct (insert_cache h name inst) as [[[[p|] sts] h1]| |]; cbn [mbind res_bind]; [| done ..]. apply IH; lia.
Qed.

(** ** Examples *)

Definition text_of (base : list hdr_t) (dom : Z) : buf :=
  match pmdaCacheOp no_world dom PMDA_CACHE_SYNC base with Ok (_, Some text, _) => text | _ => [] end.
Definition world_of (text : buf) : world := mkWorld None text 100 (λ _, Byte.x00) (λ _, 0) (λ _, Byte.x2a).
Definition saved_base : list hdr_t :=
  match pmdaCacheOp no_world 7 PMDA_CACHE_SAVE (after safe_calls) with Ok (_, _, base) => base | _ => [] end.
Lemma save_load_witness :
  ∃ n text base', pmdaCacheOp no_world 7 PMDA_CACHE_SAVE (after safe_calls) = Ok (n, Some text, base') ∧ n = 2
  ∧ ∃ base2, pmdaCacheOp (world_of text) 7 PMDA_CACHE_LOAD [] = Ok (n, None, base2).
Proof.
  destruct (pmdaCacheOp no_world 7 PMDA_CACHE_SAVE (after safe_calls)) as [[[n [text|]] base']| |] eqn:E;
    [| vm_compute in E; discriminate ..].
  exists n, text, base'. split; [reflexivity |]. split; [revert E; vm_compute; intros H; injection H; intros; congruence |].
  destruct (save_load (after safe_calls) base' no_world (world_of text) 7 PMDA_CACHE_SAVE n text) as (base2 & H & _).
  - apply (run_all_called safe_calls). vm_compute. reflexivity.
  - exact E.
  - vm_compute. split; discriminate.
  - assert (base' = saved_base) as -> by (unfold saved_base; now rewrite E).
    apply List.Forall_forall, forallb_forall. vm_compute. reflexivity.
  - reflexivity.
  - reflexivity.
  - exists base2. exact H.
Defined.

(** A file whose first line is good. *)
Definition first_line : buf := show 1 ++ space :: show 0 ++ [newline].
(** An instance of the file that has the identifier of another one in the cache is
    reported as ignored, but its key and time stamp replace those of the other. *)
Lemma load_overwrites :
  let calls := [Store 7 PMDA_CACHE_ADD name_a 0] in
  let file := first_line ++ [Byte.x30; space; Byte.x39; space; bracket_open; Byte.x36; Byte.x31; bracket_close; space] ++ name_b ++ [newline] in
  (λ e, (e_name e, e_key e, e_stamp e)) <$> in_use 7 (after calls) = [(name_a, [], 0)]
  ∧ (λ e, (e_name e, e_key e, e_stamp e)) <$> in_use 7 (after (calls ++ [Op (world_of file) 7 PMDA_CACHE_LOAD])) = [(name_a, [Byte.x61], 9)].
Proof. vm_compute. done. Qed.
(** A bad line after one with a key: the key is freed, and the entry keeps pointing to
    it. *)
Lemma load_frees_key :
  let file := first_line ++ [Byte.x30; space; Byte.x39; space; bracket_open; Byte.x36; Byte.x31; bracket_close; space] ++ name_a ++ [newline; newline] in
  e_key <$> in_use 7 (after [Op (world_of file) 7 PMDA_CACHE_LOAD]) = [[Byte.x2a]].
Proof. vm_compute. done. Qed.
(** A line of 1023 characters that ends with the bracket of a key: the name is looked for
    behind the end of the buffer. *)
Lemma load_reads_beyond :
  let file := first_line ++ [Byte.x30; space; Byte.x39; space; space; bracket_open] ++ replicate 1016 Byte.x30 ++ [bracket_close] ++ [newline] in
  run (Op (world_of file) 7 PMDA_CACHE_LOAD) [] = Fault.
Proof. vm_compute. done. Qed.
(** An instance whose name starts with a bracket is saved, and its line refused. *)
Lemma bracket_name_lost :
  let base := after [Store 7 PMDA_CACHE_ADD (bracket_open :: name_a) 0] in
  answer (pmdaCacheOp (world_of (text_of base 7)) 7 PMDA_CACHE_LOAD []) = Ok (PM_ERR_GENERIC, None).
Proof. vm_compute. done. Qed.
