(* ===== verification/OptFetch.v ===== *)
(** Optimised fetches, src/libpcp/src/optfetch.c: requests for instances of metrics are
    put into groups that are fetched together, so that the sum of the costs is small.

    A request is known by a number that stands for its address, and so is a fetch group;
    [brk] is the next address calloc returns.  The lists of the code are lists here;
    what is freed is gone.  [addinst] keeps [numinst] at -1 for no instance and at 0 for
    all of them. *)
From stdpp Require Import sorting gmap.
From S2P Require Import Prelude Memory Types.

Module OptFetch.
Record optcost_t := mkCost { c_pmid : Z; c_indom : Z; c_fetch : Z; c_indomsize : Z; c_xtrainst : Z; c_scope : Z }.
Record optreq := mkReq { r_addr : nat; r_fetch : option nat; r_indom : Z; r_pmid : Z; r_instlist : list Z }.
Record pmidctl := mkPmid { p_rqp : list optreq; p_pmid : Z; p_numinst : Z; p_instlist : list Z }.
Record indomctl := mkIndom { i_pmp : list pmidctl; i_indom : Z; i_numinst : Z; i_instlist : list Z }.
(** [f_numpmid] is the length of [f_pmidlist]. *)
Record fetchctl := mkFetch {
  f_addr : nat; f_idp : list indomctl; f_state : Z; f_cost : Z; f_newcost : Z; f_pmidlist : list Z }.
Record groups := mkGroups { root : list fetchctl; brk : nat }.

Definition OPT_STATE_NEW : Z := 1.
Definition OPT_STATE_PMID : Z := 2.
Definition OPT_STATE_PROFILE : Z := 4.
Definition OPT_STATE_UMASK : Z := 7.
Definition OPT_STATE_XREQ : Z := 8.
Definition OPT_STATE_XPMID : Z := 16.
Definition OPT_STATE_XINDOM : Z := 32.
Definition OPT_STATE_XFETCH : Z := 64.
Definition OPT_STATE_XPROFILE : Z := 128.
Definition OPT_COST_INFINITY : Z := INT_MAX.
Definition has (state bit : Z) : bool := negb (Z.land state bit =? 0).
Definition optcost : optcost_t := mkCost 4 1 15 10 2 0.

(** ** The lists *)

(** [addpmid]: the list with the metric, and whether it was added; the largest comes
    first. *)
Fixpoint put_pmid (pmid : Z) (l : list Z) : list Z * bool :=
  match l with
  | [] => ([pmid], true)
  | x :: l =>
      if pmid =? x then (x :: l, false)
      else if x <? pmid then (pmid :: x :: l, true)
      else let '(l, b) := put_pmid pmid l in (x :: l, b)
  end.
Definition set_pmids (l : list Z) (fp : fetchctl) : fetchctl :=
  mkFetch (f_addr fp) (f_idp fp) (f_state fp) (f_cost fp) (f_newcost fp) l.
Definition addpmid (fp : fetchctl) (pmid : Z) : fetchctl * bool :=
  let '(l, b) := put_pmid pmid (f_pmidlist fp) in (set_pmids l fp, b).
Fixpoint put_inst (x : Z) (l : list Z) : list Z :=
  match l with
  | [] => [x]
  | y :: l => if y =? x then y :: l else if x <? y then x :: y :: l else y :: put_inst x l
  end.
Definition addinst (il : Z * list Z) (new : optreq) : Z * list Z * bool :=
  let '(numinst, instlist) := il in
  if numinst =? 0 then (numinst, instlist, false)
  else
    match r_instlist new with
    | [] => (0, [], true)
    | insts =>
        let l := fold_left (λ l x, put_inst x l) insts (if numinst =? -1 then [] else instlist) in
        (zlen l, l, true)
    end.
Fixpoint miss_loop (lista listb : list Z) : Z :=
  match lista with
  | [] => zlen listb
  | a :: lista' =>
      (fix inner listb :=
         match listb with
         | [] => zlen (a :: lista')
         | b :: listb' =>
             if a =? b then miss_loop lista' listb'
             else if a <? b then 1 + miss_loop lista' (b :: listb')
             else 1 + inner listb'
         end) listb
  end.
Definition missinst (oc : optcost_t) (numa : Z) (lista : list Z) (numb : Z) (listb : list Z) : Z :=
  if numa =? 0 then
    if negb (numb =? 0) && (numb <? c_indomsize oc) then c_indomsize oc - numb else 0
  else miss_loop lista listb.

(** The lists anew from the requests. *)
Definition redo_rqp (s : Z * list Z * (Z * list Z)) (rqp : optreq) : Z * list Z * (Z * list Z) :=
  let '(p, i) := s in ((addinst p rqp).1, (addinst i rqp).1).
Definition redo_pmp (s : list pmidctl * (Z * list Z)) (pmp : pmidctl) : list pmidctl * (Z * list Z) :=
  let '(done, i) := s in
  let '(n, l, i) := fold_left redo_rqp (p_rqp pmp) (-1, p_instlist pmp, i) in
  (done ++ [mkPmid (p_rqp pmp) (p_pmid pmp) n l], i).
Definition redo_idp (idp : indomctl) : indomctl :=
  let '(pmps, (n, l)) := fold_left redo_pmp (i_pmp idp) ([], (-1, i_instlist idp)) in
  mkIndom pmps (i_indom idp) n l.
Definition set_idp (l : list indomctl) (fp : fetchctl) : fetchctl :=
  mkFetch (f_addr fp) l (f_state fp) (f_cost fp) (f_newcost fp) (f_pmidlist fp).
Definition set_state (s : Z) (fp : fetchctl) : fetchctl :=
  mkFetch (f_addr fp) (f_idp fp) s (f_cost fp) (f_newcost fp) (f_pmidlist fp).
Definition set_cost (c : Z) (fp : fetchctl) : fetchctl :=
  mkFetch (f_addr fp) (f_idp fp) (f_state fp) c (f_newcost fp) (f_pmidlist fp).
Definition set_newcost (c : Z) (fp : fetchctl) : fetchctl :=
  mkFetch (f_addr fp) (f_idp fp) (f_state fp) (f_cost fp) c (f_pmidlist fp).
Definition redoinst (fp : fetchctl) : fetchctl := set_idp (redo_idp <$> f_idp fp) fp.
Definition pmids_of (fp : fetchctl) : list Z := idp ← f_idp fp; p_pmid <$> i_pmp idp.
Definition redopmid (fp : fetchctl) : fetchctl := fold_left (λ fp pmid, (addpmid fp pmid).1) (pmids_of fp) (set_pmids [] fp).

(** ** The cost of a group *)

(** An agent costs once for its metrics and once for its domains: at the first metric or
    domain that has its number. *)
Fixpoint first_cost (c : Z) (before l : list Z) : Z :=
  match l with
  | [] => 0
  | d :: l => (if bool_decide (d ∈ before) then 0 else c) + first_cost c (before ++ [d]) l
  end.
Definition xtra_cost (oc : optcost_t) (idp : indomctl) : Z :=
  foldr (λ pmp n, c_xtrainst oc * missinst oc (i_numinst idp) (i_instlist idp) (p_numinst pmp) (p_instlist pmp) + n) 0 (i_pmp idp).
Definition optCost (oc : optcost_t) (fp : fetchctl) : Z :=
  s32 (first_cost (c_pmid oc) [] (pmid_domain <$> pmids_of fp)
       + first_cost (c_indom oc) [] (pmInDom_domain ∘ i_indom <$> f_idp fp)
       + foldr (λ idp n, xtra_cost oc idp + n) 0 (f_idp fp)).

(** ** Adding a request *)

(** The request is entered into every group, to see what it costs there.  [change] is
    what had to be made: the metric, or the domain with it. *)
Definition enter_pmp (new : optreq) (pmp : pmidctl) : pmidctl :=
  let '(n, l, _) := addinst (p_numinst pmp, p_instlist pmp) new in mkPmid (p_rqp pmp) (p_pmid pmp) n l.
Definition enter_idp (new : optreq) (idp : indomctl) : indomctl * Z * bool :=
  let '(pmps, change) :=
    match split_find (λ pmp, p_pmid pmp =? r_pmid new) (i_pmp idp) with
    | Some (pre, pmp, post) => (pre ++ enter_pmp new pmp :: post, OPT_STATE_XREQ)
    | None => (enter_pmp new (mkPmid [] (r_pmid new) (-1) []) :: i_pmp idp, Z.lor OPT_STATE_XPMID OPT_STATE_XREQ)
    end in
  let '(n, l, b) := addinst (i_numinst idp, i_instlist idp) new in
  (mkIndom pmps (i_indom idp) n l, change, b).
Definition enter_idps (new : optreq) (idps : list indomctl) : list indomctl * Z * bool :=
  match split_find (λ idp, i_indom idp =? r_indom new) idps with
  | Some (pre, idp, post) =>
      let '(idp, change, b) := enter_idp new idp in (pre ++ idp :: post, change, b)
  | None =>
      let '(idp, change, b) := enter_idp new (mkIndom [] (r_indom new) (-1) []) in
      (idp :: idps, Z.lor OPT_STATE_XINDOM change, b)
  end.
Definition enter (oc : optcost_t) (new : optreq) (is_root : bool) (fp : fetchctl) : fetchctl :=
  let fp := set_cost (optCost oc fp) fp in
  let '(idps, change, b) := enter_idps new (f_idp fp) in
  let change := if is_root then Z.lor change OPT_STATE_XFETCH else change in
  let state := Z.lor (Z.land (f_state fp) OPT_STATE_UMASK) change in
  let state := if b then Z.lor state OPT_STATE_XPROFILE else state in
  let fp := set_state state (set_idp idps fp) in
  let cost := optCost oc fp in
  set_newcost (if is_root then s32 (cost + c_fetch oc) else cost) fp.
(** What is compared, and the group that is chosen. *)
Definition price (oc : optcost_t) (fp : fetchctl) : Z :=
  if negb (c_scope oc =? 0) then f_newcost fp else s32 (f_newcost fp - f_cost fp).
Fixpoint choose (oc : optcost_t) (l : list fetchctl) (mincost : Z) (tfp : option nat) : option nat :=
  match l with
  | [] => tfp
  | fp :: l => if price oc fp <? mincost then choose oc l (price oc fp) (Some (f_addr fp)) else choose oc l mincost tfp
  end.
(** The control structures of the request in a group, which [enter] has made if need be. *)
Definition control (new : optreq) (idps : list indomctl) : res (list indomctl * indomctl * list indomctl * (list pmidctl * pmidctl * list pmidctl)) :=
  match split_find (λ idp, i_indom idp =? r_indom new) idps with
  | None => Fault
  | Some (pre, idp, post) =>
      match split_find (λ pmp, p_pmid pmp =? r_pmid new) (i_pmp idp) with
      | None => Fault
      | Some pmp => Ok (pre, idp, post, pmp)
      end
  end.
Definition back_ptr (a : nat) (new : optreq) : optreq := mkReq (r_addr new) (Some a) (r_indom new) (r_pmid new) (r_instlist new).
(** The request becomes one of the chosen group. *)
Definition attach (new : optreq) (fp : fetchctl) : res fetchctl :=
  '(pre, idp, post, (pre2, pmp, post2)) ← control new (f_idp fp);
  let st := if has (f_state fp) OPT_STATE_XFETCH then Z.lor (f_state fp) OPT_STATE_NEW else f_state fp in
  let '(fp, b) := addpmid fp (r_pmid new) in
  let st := if b then Z.lor st OPT_STATE_PMID else st in
  let st := if has st OPT_STATE_XPROFILE then Z.lor st OPT_STATE_PROFILE else st in
  let pmp := mkPmid (back_ptr (f_addr fp) new :: p_rqp pmp) (p_pmid pmp) (p_numinst pmp) (p_instlist pmp) in
  let idp := mkIndom (pre2 ++ pmp :: post2) (i_indom idp) (i_numinst idp) (i_instlist idp) in
  Ok (set_state (Z.land st OPT_STATE_UMASK) (set_cost (f_newcost fp) (set_idp (pre ++ idp :: post) fp))).
(** The group without what [enter] made; [None] when the group itself was made. *)
Definition undo (new : optreq) (fp : fetchctl) : res (option fetchctl) :=
  '(pre, idp, post, (_, pmp, post2)) ← control new (f_idp fp);
  let idp := if has (f_state fp) OPT_STATE_XPMID then mkIndom post2 (i_indom idp) (i_numinst idp) (i_instlist idp) else idp in
  let fp := set_idp (if has (f_state fp) OPT_STATE_XINDOM then post else pre ++ idp :: post) fp in
  if has (f_state fp) OPT_STATE_XFETCH then Ok None
  else
    let fp := redoinst fp in
    Ok (Some (set_state (Z.land (f_state fp) OPT_STATE_UMASK) fp)).
(** [*root = fp->f_next]: the groups before one that is undone are dropped with it. *)
Fixpoint settle (new : optreq) (tfp : option nat) (before l : list fetchctl) : res (list fetchctl) :=
  match l with
  | [] => Ok before
  | fp :: l =>
      if bool_decide (tfp = Some (f_addr fp)) then fp ← attach new fp; settle new tfp (before ++ [fp]) l
      else
        o ← undo new fp;
        match o with
        | Some fp => settle new tfp (before ++ [fp]) l
        | None => settle new tfp [] l
        end
  end.
Definition enter_all (oc : optcost_t) (new : optreq) (l : list fetchctl) : list fetchctl :=
  match l with
  | [] => []
  | fp :: l => enter oc new true fp :: (enter oc new false <$> l)
  end.
Definition __pmOptFetchAdd (oc : optcost_t) (new : optreq) (st : groups) : res groups :=
  let l := enter_all oc new (mkFetch (brk st) [] 0 0 0 [] :: root st) in
  l ← settle new (choose oc l OPT_COST_INFINITY None) [] l;
  Ok (mkGroups l (S (brk st))).

(** ** Removing a request *)

(** The list after the first element that [f] changes; an element that becomes empty is
    removed. *)
Fixpoint del_in {A} (f : A → option (option A)) (l : list A) : option (list A) :=
  match l with
  | [] => None
  | x :: l =>
      match f x with
      | Some (Some x) => Some (x :: l)
      | Some None => Some l
      | None => cons x <$> del_in f l
      end
  end.
Definition nonempty {A B} (mk : list A → B) (l : list A) : option B := match l with [] => None | _ => Some (mk l) end.
Definition del_rqp (a : nat) (rqp : optreq) : option (option optreq) := if (r_addr rqp =? a)%nat then Some None else None.
Definition del_pmp (a : nat) (pmp : pmidctl) : option (option pmidctl) :=
  nonempty (λ l, mkPmid l (p_pmid pmp) (p_numinst pmp) (p_instlist pmp)) <$> del_in (del_rqp a) (p_rqp pmp).
Definition del_idp (a : nat) (idp : indomctl) : option (option indomctl) :=
  nonempty (λ l, mkIndom l (i_indom idp) (i_numinst idp) (i_instlist idp)) <$> del_in (del_pmp a) (i_pmp idp).
Definition repair (oc : optcost_t) (fp : fetchctl) : fetchctl :=
  let fp := set_state (Z.lor OPT_STATE_PMID OPT_STATE_PROFILE) (redopmid (redoinst fp)) in set_cost (optCost oc fp) fp.
Definition del_fp (oc : optcost_t) (a : nat) (fp : fetchctl) : option (option fetchctl) :=
  nonempty (λ l, repair oc (set_idp l fp)) <$> del_in (del_idp a) (f_idp fp).
Definition __pmOptFetchDel (oc : optcost_t) (a : nat) (st : groups) : Z * groups :=
  match del_in (del_fp oc a) (root st) with
  | Some l => (0, mkGroups l (brk st))
  | None => (-1, st)
  end.

(** ** Starting again *)

Definition reqs_idp (idp : indomctl) : list optreq := pmp ← i_pmp idp; p_rqp pmp.
Definition reqs_fp (fp : fetchctl) : list optreq := idp ← f_idp fp; reqs_idp idp.
Definition reqs (l : list fetchctl) : list optreq := fp ← l; reqs_fp fp.
(** The list is cut after element [k], which becomes the last one. *)
Definition cut (k : nat) (rlist : list optreq) : list optreq :=
  if (k =? 0)%nat then rlist else drop (S k) rlist ++ take (S k) rlist.
Fixpoint add_all (oc : optcost_t) (l : list optreq) (st : groups) : res groups :=
  match l with
  | [] => Ok st
  | rqp :: l => st ← __pmOptFetchAdd oc rqp st; add_all oc l st
  end.
(** [rnd] is what lrand48 returns. *)
Definition __pmOptFetchRedo (oc : optcost_t) (rnd : Z) (st : groups) : res groups :=
  let rlist := rev (reqs (root st)) in
  match rlist with
  | [] => Ok (mkGroups [] (brk st))
  | _ => add_all oc (cut (Z.to_nat (rnd mod zlen rlist)) rlist) (mkGroups [] (brk st))
  end.

(** ** The union of the requests *)

Abbreviation insts rqs := (r_instlist <$> rqs).
(** [(n, l)] has the instances of the requests [iss]: none, all, or those of a list. *)
Definition is_union (iss : list (list Z)) (n : Z) (l : list Z) : Prop :=
  (iss = [] ∧ n = -1) ∨ ([] ∈ iss ∧ n = 0 ∧ l = []) ∨
  (iss ≠ [] ∧ [] ∉ iss ∧ n = zlen l ∧ StronglySorted Z.lt l ∧ ∀ x, x ∈ l ↔ (∃ js, js ∈ iss ∧ x ∈ js)).

Lemma put_inst_elem x l y : y ∈ put_inst x l ↔ y = x ∨ y ∈ l.
Proof.
  induction l as [|z l IH]; simpl; [by rewrite list_elem_of_singleton, elem_of_nil; tauto |].
  destruct (Z.eqb_spec z x) as [->|]; [rewrite !elem_of_cons; tauto |].
  destruct (x <? z); rewrite !elem_of_cons; [tauto |]. rewrite IH. tauto.
Qed.
Lemma put_inst_sorted x l : StronglySorted Z.lt l → StronglySorted Z.lt (put_inst x l).
Proof.
  induction 1 as [|y l Hs IH Hf]; simpl; [by repeat constructor |].
  destruct (Z.eqb_spec y x) as [->|Hne]; [by constructor |]. destruct (Z.ltb_spec x y).
  - constructor; [by constructor |]. constructor; [done |]. eapply Forall_impl; [exact Hf |]. simpl. lia.
  - constructor; [done |]. apply Forall_forall. intros z [-> | Hz]%put_inst_elem; [lia |].
    rewrite Forall_forall in Hf. by apply Hf.
Qed.
Lemma put_all_spec js : ∀ l, StronglySorted Z.lt l →
  StronglySorted Z.lt (fold_left (λ l x, put_inst x l) js l) ∧ ∀ x, x ∈ fold_left (λ l x, put_inst x l) js l ↔ x ∈ js ∨ x ∈ l.
Proof.
  induction js as [|i js IH]; intros l Hs; simpl; [split; [done |]; intros x; rewrite elem_of_nil; tauto |].
  destruct (IH (put_inst i l) (put_inst_sorted i l Hs)) as [H1 H2]. split; [done |]. intros x. rewrite H2, put_inst_elem, elem_of_cons. tauto.
Qed.
Lemma addinst_union iss n l new : is_union iss n l → is_union (r_instlist new :: iss) (addinst (n, l) new).1.1 (addinst (n, l) new).1.2.
Proof.
  intros H. unfold addinst. destruct (Z.eqb_spec n 0) as [->|Hn].
  { destruct H as [[_ ?] | [(H & _ & ->) | (Hne & Hno & Hl & _ & Hx)]]; [done | |].
    - right. left. split_and!; [by right | done | done].
    - destruct l; [| done]. destruct iss as [|[|i js] iss]; [done | destruct Hno; by left |].
      exfalso. apply (elem_of_nil i), Hx. exists (i :: js). split; by left. }
  destruct (r_instlist new) as [|i js] eqn:Ei; [right; left; split_and!; [by left | done | done] |].
  cbn [fst snd]. rewrite <- Ei. set (l0 := if n =? -1 then [] else l).
  assert (StronglySorted Z.lt l0 ∧ [] ∉ iss ∧ ∀ x, x ∈ l0 ↔ (∃ js, js ∈ iss ∧ x ∈ js)) as (Hs & Hno & Hx).
  { unfold l0. destruct H as [[-> ->] | [(_ & -> & _) | (Hne & Hno & -> & Hs & Hx)]]; [| done |].
    - split_and!; [constructor | by intros ?%elem_of_nil |]. intros x. split; [by intros ?%elem_of_nil | intros (? & []%elem_of_nil & _)].
    - destruct (Z.eqb_spec (zlen l) (-1)); [lia | done]. }
  destruct (put_all_spec (r_instlist new) l0 Hs) as [H1 H2].
  right. right. split_and!; [done | | done | done |].
  - rewrite elem_of_cons, Ei. intros [? | ?]; done.
  - intros x. rewrite H2, Hx. split.
    + intros [Hi | (j & Hj & Hi)]; [exists (r_instlist new); split; [by left | done] | exists j; split; [by right | done]].
    + intros (j & [-> | Hj]%elem_of_cons & Hi); [by left | right; by exists j].
Qed.
Lemma is_union_same iss iss' n l : (∀ js, js ∈ iss ↔ js ∈ iss') → is_union iss n l → is_union iss' n l.
Proof.
  intros E [[-> ->] | [(H & -> & ->) | (Hne & Hno & -> & Hs & Hx)]].
  - left. split; [| done]. destruct iss' as [|js iss']; [done |]. exfalso. apply (elem_of_nil js), E. by left.
  - right. left. split_and!; [by apply E | done | done].
  - right. right. split_and!; [| by rewrite <- E | done | done |].
    + intros ->. destruct iss as [|js iss]; [done |]. exfalso. apply (elem_of_nil js), E. by left.
    + intros x. rewrite Hx. by setoid_rewrite E.
Qed.
Lemma sorted_nodup l : StronglySorted Z.lt l → NoDup l.
Proof.
  induction 1 as [|x l Hs IH Hf]; constructor; [| done]. intros Hx. rewrite Forall_forall in Hf. specialize (Hf x Hx). lia.
Qed.
Lemma sorted_unique l l' : StronglySorted Z.lt l → StronglySorted Z.lt l' → (∀ x, x ∈ l ↔ x ∈ l') → l = l'.
Proof.
  intros H1 H2 E. apply (StronglySorted_unique_strong Z.lt); [intros x y _ _ ? ?; lia | done | done |].
  by apply NoDup_Permutation; [apply sorted_nodup | apply sorted_nodup |].
Qed.
Lemma is_union_unique iss n l n' l' : iss ≠ [] → is_union iss n l → is_union iss n' l' → n = n' ∧ l = l'.
Proof.
  intros Hne [[? _] | [(H & -> & ->) | (_ & Hno & -> & Hs & Hx)]] [[? _] | [(H' & -> & ->) | (_ & Hno' & -> & Hs' & Hx')]]; try done.
  assert (l = l') as ->; [| done]. apply sorted_unique; [done | done |]. intros x. by rewrite Hx, Hx'.
Qed.

(** ** Groups *)

Definition ok_pmp (dom : Z) (pmp : pmidctl) : Prop :=
  p_rqp pmp ≠ [] ∧ Forall (λ r, r_pmid r = p_pmid pmp ∧ r_indom r = dom) (p_rqp pmp)
  ∧ is_union (insts (p_rqp pmp)) (p_numinst pmp) (p_instlist pmp).
Definition ok_idp (idp : indomctl) : Prop :=
  i_pmp idp ≠ [] ∧ NoDup (p_pmid <$> i_pmp idp) ∧ Forall (ok_pmp (i_indom idp)) (i_pmp idp)
  ∧ is_union (insts (reqs_idp idp)) (i_numinst idp) (i_instlist idp).
Definition ok_idps (idps : list indomctl) : Prop := Forall ok_idp idps ∧ NoDup (i_indom <$> idps).
(** A domain without the lists that follow from the requests. *)
Definition shape_pmp (pmp : pmidctl) : Z * list optreq := (p_pmid pmp, p_rqp pmp).
Definition shape (idp : indomctl) : Z * list (Z * list optreq) := (i_indom idp, shape_pmp <$> i_pmp idp).

Lemma redo_rqps_spec rqs : ∀ p i ps js,
  is_union ps p.1 p.2 → is_union js i.1 i.2 →
  let s := fold_left redo_rqp rqs (p, i) in
  is_union (rev (insts rqs) ++ ps) s.1.1 s.1.2 ∧ is_union (rev (insts rqs) ++ js) s.2.1 s.2.2.
Proof.
  induction rqs as [|r rqs IH]; intros p i ps js Hp Hi; [done |]. cbn [fold_left]. rewrite fmap_cons. cbn [rev].
  rewrite <- !app_assoc. destruct p as [pn pl], i as [n l]. cbn [redo_rqp]. apply IH; by apply addinst_union.
Qed.
Lemma redo_pmps_spec pmps : ∀ done i js,
  is_union js i.1 i.2 → Forall (λ pmp, is_union (insts (p_rqp pmp)) (p_numinst pmp) (p_instlist pmp)) done →
  let s := fold_left redo_pmp pmps (done, i) in
  shape_pmp <$> s.1 = (shape_pmp <$> done) ++ (shape_pmp <$> pmps)
  ∧ Forall (λ pmp, is_union (insts (p_rqp pmp)) (p_numinst pmp) (p_instlist pmp)) s.1
  ∧ ∃ ks, is_union ks s.2.1 s.2.2 ∧ ∀ j, j ∈ ks ↔ j ∈ js ∨ j ∈ insts (pmp ← pmps; p_rqp pmp).
Proof.
  induction pmps as [|pmp pmps IH]; intros done0 i js Hi Hd; cbn [fold_left].
  { cbn [fst snd]. rewrite app_nil_r. split_and!; [done | done |]. exists js. split; [done |]. intros j. simpl. rewrite elem_of_nil. tauto. }
  unfold redo_pmp at 2 4 6 8. pose proof (redo_rqps_spec (p_rqp pmp) (-1, p_instlist pmp) i [] js) as Hr.
  destruct (fold_left redo_rqp (p_rqp pmp) (-1, p_instlist pmp, i)) as [[n l] i']. cbn [fst snd] in Hr.
  destruct Hr as [H1 H2]; [by left | done |]. rewrite app_nil_r in H1.
  destruct (IH (done0 ++ [mkPmid (p_rqp pmp) (p_pmid pmp) n l]) i' (rev (insts (p_rqp pmp)) ++ js) H2) as (E & Hf & ks & Hk & Hks).
  { apply Forall_app. split; [done |]. apply Forall_singleton. simpl. eapply is_union_same; [| exact H1].
    intros j. by rewrite !list_elem_of_In, <- in_rev. }
  split_and!; [| done |].
  - rewrite E, fmap_app, <- app_assoc. done.
  - exists ks. split; [done |]. intros j. rewrite Hks, elem_of_app, (list_elem_of_In (rev _) j), <- in_rev, <- list_elem_of_In.
    change (insts (pmp ← pmp :: pmps; p_rqp pmp)) with (insts (p_rqp pmp ++ (pmp ← pmps; p_rqp pmp))).
    rewrite fmap_app, elem_of_app. tauto.
Qed.
Lemma redo_idp_spec idp :
  shape (redo_idp idp) = shape idp
  ∧ Forall (λ pmp, is_union (insts (p_rqp pmp)) (p_numinst pmp) (p_instlist pmp)) (i_pmp (redo_idp idp))
  ∧ is_union (insts (reqs_idp idp)) (i_numinst (redo_idp idp)) (i_instlist (redo_idp idp)).
Proof.
  unfold redo_idp. destruct (redo_pmps_spec (i_pmp idp) [] (-1, i_instlist idp) []) as (E & Hf & ks & Hk & Hks);
    [by left | constructor |].
  destruct (fold_left redo_pmp (i_pmp idp) ([], (-1, i_instlist idp))) as [pmps [n l]]. cbn [fst snd] in *.
  split_and!; [unfold shape; simpl; by rewrite E | done |]. eapply is_union_same; [| exact Hk].
  intros j. rewrite Hks, elem_of_nil. unfold reqs_idp. tauto.
Qed.
Lemma shape_reqs idp idp' : shape idp = shape idp' → reqs_idp idp = reqs_idp idp'.
Proof.
  unfold shape, reqs_idp. intros [= _ E]. revert E. generalize (i_pmp idp'). induction (i_pmp idp) as [|p l IH]; intros [|p' l'] E; try done.
  rewrite !fmap_cons in E. injection E as E1 E2 E. simpl. rewrite E2. f_equal. by apply IH.
Qed.
(** The lists are determined by the requests. *)
Lemma redo_ok idp idp' : ok_idp idp → shape idp' = shape idp → redo_idp idp' = idp.
Proof.
  intros (Hne & Hnd & Hp & Hu) Hs. destruct (redo_idp_spec idp') as (E & Hf & Hu').
  rewrite Hs in E. rewrite (shape_reqs _ _ Hs) in Hu'.
  assert (insts (reqs_idp idp) ≠ []) as Hr.
  { destruct (i_pmp idp) as [|p l] eqn:Ei; [done |]. apply Forall_cons in Hp as [(Hq & _) _]. unfold reqs_idp. rewrite Ei. simpl.
    destruct (p_rqp p); [done |]. done. }
  destruct (is_union_unique _ _ _ _ _ Hr Hu Hu') as [En El].
  assert (i_pmp (redo_idp idp') = i_pmp idp) as Ep.
  { clear -E Hf Hp. unfold shape in E. injection E as _ E. revert E Hf Hp. generalize (i_pmp (redo_idp idp')). generalize (i_indom idp). intros d.
    induction (i_pmp idp) as [|p l IH]; intros [|p' l'] E Hf Hp; try done. rewrite !fmap_cons in E. injection E as E1 E2 E.
    apply Forall_cons in Hf as [Hf1 Hf], Hp as [(Hq & _ & Hp1) Hp]. f_equal; [| by apply IH].
    rewrite E2 in Hf1. assert (insts (p_rqp p) ≠ []) as Hr by by destruct (p_rqp p).
    destruct (is_union_unique _ _ _ _ _ Hr Hp1 Hf1) as [En El]. destruct p, p'. simpl in *. congruence. }
  unfold shape in E. injection E as Ei _. destruct (redo_idp idp'), idp. simpl in *. congruence.
Qed.

(** ** Entering a request *)

Definition other_dom (new : optreq) (idp : indomctl) : Prop := (i_indom idp =? r_indom new) = false.
Definition other_pmid (new : optreq) (pmp : pmidctl) : Prop := (p_pmid pmp =? r_pmid new) = false.
(** What [enter] does to the domains of a group: there is the metric already, only the
    domain, or neither. *)
Inductive entered (new : optreq) : list indomctl → list indomctl → Z → Prop :=
| entered_req pre idp post pre2 pmp post2 n l m k :
    Forall (other_dom new) pre → i_indom idp = r_indom new → i_pmp idp = pre2 ++ pmp :: post2 →
    Forall (other_pmid new) pre2 → p_pmid pmp = r_pmid new →
    is_union (r_instlist new :: insts (p_rqp pmp)) n l → is_union (r_instlist new :: insts (reqs_idp idp)) m k →
    entered new (pre ++ idp :: post)
      (pre ++ mkIndom (pre2 ++ mkPmid (p_rqp pmp) (p_pmid pmp) n l :: post2) (i_indom idp) m k :: post) OPT_STATE_XREQ
| entered_pmid pre idp post n l m k :
    Forall (other_dom new) pre → i_indom idp = r_indom new → Forall (other_pmid new) (i_pmp idp) →
    is_union [r_instlist new] n l → is_union (r_instlist new :: insts (reqs_idp idp)) m k →
    entered new (pre ++ idp :: post)
      (pre ++ mkIndom (mkPmid [] (r_pmid new) n l :: i_pmp idp) (i_indom idp) m k :: post) (Z.lor OPT_STATE_XPMID OPT_STATE_XREQ)
| entered_indom idps n l m k :
    Forall (other_dom new) idps → is_union [r_instlist new] n l → is_union [r_instlist new] m k →
    entered new idps (mkIndom [mkPmid [] (r_pmid new) n l] (r_indom new) m k :: idps)
      (Z.lor OPT_STATE_XINDOM (Z.lor OPT_STATE_XPMID OPT_STATE_XREQ)).

Lemma enter_idps_spec new idps : Forall ok_idp idps → let '(idps', ch, _) := enter_idps new idps in entered new idps idps' ch.
Proof.
  intros Hok. unfold enter_idps. destruct (split_find _ idps) as [[[pre idp] post]|] eqn:Ei.
  - apply split_find_Some in Ei as (-> & Hd & Hpre). apply Forall_app in Hok as [_ [(_ & _ & Hp & Hu) _]%Forall_cons].
    unfold enter_idp. pose proof (addinst_union _ _ _ new Hu) as Hu'. destruct (split_find _ (i_pmp idp)) as [[[pre2 pmp] post2]|] eqn:Ep.
    + apply split_find_Some in Ep as (Ep & Hq & Hpre2). rewrite Ep in Hp. apply Forall_app in Hp as [_ [(_ & _ & Hup) _]%Forall_cons].
      apply (addinst_union _ _ _ new) in Hup. unfold enter_pmp. destruct (addinst (p_numinst pmp, _) new) as [[n l] b].
      destruct (addinst (i_numinst idp, _) new) as [[m k] b']. simpl in *. apply entered_req; (done || lia).
    + apply split_find_None in Ep. assert (is_union [r_instlist new] (addinst (-1, []) new).1.1 (addinst (-1, []) new).1.2) as Hup
        by (apply addinst_union; by left).
      unfold enter_pmp. cbn [p_numinst p_instlist p_rqp p_pmid]. destruct (addinst (-1, []) new) as [[n l] b].
      destruct (addinst (i_numinst idp, _) new) as [[m k] b']. simpl in *. apply entered_pmid; (done || lia).
  - apply split_find_None in Ei. unfold enter_idp. cbn [i_pmp split_find i_numinst i_instlist i_indom].
    assert (is_union [r_instlist new] (addinst (-1, []) new).1.1 (addinst (-1, []) new).1.2) as Hup by (apply addinst_union; by left).
    unfold enter_pmp. cbn [p_numinst p_instlist p_rqp p_pmid]. destruct (addinst (-1, []) new) as [[n l] b]. simpl in *. by apply entered_indom.
Qed.
(** The parts that [control] finds. *)
Lemma control_app new pre idp post pre2 pmp post2 :
  Forall (other_dom new) pre → i_indom idp = r_indom new → i_pmp idp = pre2 ++ pmp :: post2 →
  Forall (other_pmid new) pre2 → p_pmid pmp = r_pmid new →
  control new (pre ++ idp :: post) = Ok (pre, idp, post, (pre2, pmp, post2)).
Proof.
  intros H1 H2 H3 H4 H5. unfold control. rewrite split_find_app by (done || lia). rewrite H3, split_find_app by (done || lia). done.
Qed.
Lemma redo_all idps : Forall ok_idp idps → redo_idp <$> idps = idps.
Proof. induction 1 as [|idp idps H _ IH]; [done |]. rewrite fmap_cons, IH. f_equal. by apply redo_ok. Qed.
(** Undoing restores the domains. *)
Lemma undo_entered new idps idps' ch :
  ok_idps idps → entered new idps idps' ch →
  ∃ pre idp post pre2 pmp post2, control new idps' = Ok (pre, idp, post, (pre2, pmp, post2))
  ∧ redo_idp <$> (if has ch OPT_STATE_XINDOM then post
      else pre ++ (if has ch OPT_STATE_XPMID then mkIndom post2 (i_indom idp) (i_numinst idp) (i_instlist idp) else idp) :: post) = idps.
Proof.
  intros [Hok _] He. destruct He as [pre idp post pre2 pmp post2 n l m k H1 H2 H3 H4 H5 H6 H7 | pre idp post n l m k H1 H2 H3 H4 H5 | idps n l m k H1 H2 H3].
  - eexists _, _, _, _, _, _. split; [by eapply control_app |].
    change (has OPT_STATE_XREQ OPT_STATE_XINDOM) with false. change (has OPT_STATE_XREQ OPT_STATE_XPMID) with false. cbv iota.
    apply Forall_app in Hok as [Hpre [Hidp Hpost]%Forall_cons]. rewrite fmap_app, fmap_cons, !redo_all by done. f_equal. f_equal.
    apply redo_ok; [done |]. unfold shape. simpl. by rewrite H3, !fmap_app, !fmap_cons.
  - eexists _, _, _, [], _, _. split; [by eapply control_app |].
    change (has (Z.lor OPT_STATE_XPMID OPT_STATE_XREQ) OPT_STATE_XINDOM) with false. change (has (Z.lor OPT_STATE_XPMID OPT_STATE_XREQ) OPT_STATE_XPMID) with true. cbv iota.
    apply Forall_app in Hok as [Hpre [Hidp Hpost]%Forall_cons]. rewrite fmap_app, fmap_cons, !redo_all by done. f_equal. f_equal.
    by apply redo_ok.
  - eexists [], _, _, [], _, _. split; [by apply (control_app new []) |].
    change (has (Z.lor OPT_STATE_XINDOM (Z.lor OPT_STATE_XPMID OPT_STATE_XREQ)) OPT_STATE_XINDOM) with true. cbv iota. by apply redo_all.
Qed.

Lemma reqs_idp_app idp pre2 pmp post2 :
  i_pmp idp = pre2 ++ pmp :: post2 → reqs_idp idp = (pre2 ≫= p_rqp) ++ p_rqp pmp ++ (post2 ≫= p_rqp).
Proof. intros E. unfold reqs_idp. by rewrite E, bind_app. Qed.
(** The domains with the request. *)
Definition with_req (a : nat) (new : optreq) (c : list indomctl * indomctl * list indomctl * (list pmidctl * pmidctl * list pmidctl)) : list indomctl :=
  let '(pre, idp, post, (pre2, pmp, post2)) := c in
  pre ++ mkIndom (pre2 ++ mkPmid (back_ptr a new :: p_rqp pmp) (p_pmid pmp) (p_numinst pmp) (p_instlist pmp) :: post2)
           (i_indom idp) (i_numinst idp) (i_instlist idp) :: post.
Definition reqs_idps (idps : list indomctl) : list optreq := idp ← idps; reqs_idp idp.
Definition pmids_idps (idps : list indomctl) : list Z := idp ← idps; p_pmid <$> i_pmp idp.
Lemma ok_pmp_new a new n l dom : r_indom new = dom → is_union [r_instlist new] n l → ok_pmp dom (mkPmid [back_ptr a new] (r_pmid new) n l).
Proof. intros Hd Hu. split_and!; [done | by repeat constructor | done]. Qed.
Lemma nodup_other new (f : indomctl → Z) : f = i_indom → ∀ idps, Forall (other_dom new) idps → r_indom new ∉ f <$> idps.
Proof.
  intros -> idps H (idp & E & Hin)%list_elem_of_fmap. rewrite Forall_forall in H. specialize (H idp Hin). unfold other_dom in H. lia.
Qed.
Lemma nodup_other_pmid new pmps : Forall (other_pmid new) pmps → r_pmid new ∉ p_pmid <$> pmps.
Proof.
  intros H (pmp & E & Hin)%list_elem_of_fmap. rewrite Forall_forall in H. specialize (H pmp Hin). unfold other_pmid in H. lia.
Qed.
Lemma attach_entered a new idps idps' ch :
  ok_idps idps → entered new idps idps' ch →
  ∃ c, control new idps' = Ok c ∧ ok_idps (with_req a new c)
    ∧ reqs_idps (with_req a new c) ≡ₚ back_ptr a new :: reqs_idps idps
    ∧ ∀ x, x ∈ pmids_idps (with_req a new c) ↔ x = r_pmid new ∨ x ∈ pmids_idps idps.
Proof.
  intros [Hok Hnd] He. destruct He as [pre idp post pre2 pmp post2 n l m k H1 H2 H3 H4 H5 H6 H7 | pre idp post n l m k H1 H2 H3 H4 H5 | idps n l m k H1 H2 H3].
  - eexists. split; [by eapply control_app |]. cbn [with_req p_rqp p_pmid p_numinst p_instlist i_indom i_numinst i_instlist].
    apply Forall_app in Hok as [Hpre [(Hi1 & Hi2 & Hi3 & Hi4) Hpost]%Forall_cons]. rewrite H3 in Hi2, Hi3.
    apply Forall_app in Hi3 as [Hp1 [(Hq1 & Hq2 & Hq3) Hp2]%Forall_cons]. split_and!.
    + split; [| by rewrite fmap_app, fmap_cons in *]. apply Forall_app. split; [done |]. constructor; [| done]. split_and!.
      * by destruct pre2.
      * simpl. by rewrite fmap_app, fmap_cons in *.
      * simpl. apply Forall_app. split; [done |]. constructor; [| done]. split_and!; [done | | done].
        constructor; [by split; simpl; lia | done].
      * cbn [i_numinst i_instlist]. eapply is_union_same; [| exact H7]. intros j. rewrite !(reqs_idp_app _ _ _ _ H3).
        erewrite (reqs_idp_app (mkIndom (pre2 ++ _ :: post2) _ _ _)) by reflexivity. cbn [p_rqp]. rewrite !fmap_app, fmap_cons, elem_of_cons, !elem_of_app, elem_of_cons. simpl. tauto.
    + unfold reqs_idps. rewrite !bind_app, !bind_cons. rewrite (reqs_idp_app idp _ _ _ H3).
      erewrite (reqs_idp_app (mkIndom (pre2 ++ _ :: post2) _ _ _)) by reflexivity. cbn [p_rqp].
      solve_Permutation.
    + intros x. unfold pmids_idps. rewrite !bind_app. simpl. rewrite H3, !fmap_app. simpl. rewrite !elem_of_app, !elem_of_cons, H5. tauto.
  - eexists. split; [eapply (control_app _ _ _ _ []); done |]. cbn [with_req p_rqp p_pmid p_numinst p_instlist i_indom i_numinst i_instlist app].
    apply Forall_app in Hok as [Hpre [(Hi1 & Hi2 & Hi3 & Hi4) Hpost]%Forall_cons]. split_and!.
    + split; [| by rewrite fmap_app, fmap_cons in *]. apply Forall_app. split; [done |]. constructor; [| done]. split_and!.
      * done.
      * simpl. constructor; [by apply nodup_other_pmid | done].
      * constructor; [by apply ok_pmp_new | done].
      * done.
    + unfold reqs_idps. rewrite !bind_app. simpl. unfold reqs_idp at 2. simpl. solve_Permutation.
    + intros x. unfold pmids_idps. rewrite !bind_app. simpl. rewrite !elem_of_app, !elem_of_cons, !elem_of_app. tauto.
  - eexists. split; [by apply (control_app new [] _ _ []) |]. cbn [with_req p_rqp p_pmid p_numinst p_instlist i_indom i_numinst i_instlist app].
    split_and!.
    + split; [| simpl; constructor; [by apply (nodup_other new i_indom) | done]]. constructor; [| done]. split_and!; [done | | | done].
      * simpl. constructor; [by intros ?%elem_of_nil | constructor].
      * constructor; [by apply ok_pmp_new | constructor].
    + done.
    + intros x. unfold pmids_idps. simpl. by rewrite elem_of_cons.
Qed.
End OptFetch.
