(* ===== verification/OptGroups.v ===== *)
(** The groups of optimised fetches, src/libpcp/src/optfetch.c: what a group costs, which
    group a request is added to, and that adding, removing and starting again keep every
    group in order and lose no request. *)
From stdpp Require Import sorting gmap.
From S2P Require Import Prelude Memory Types OptFetch.
Import OptFetch.OptFetch.

(** ** Lists of metrics *)

Abbreviation descending := (StronglySorted (λ x y, y < x)).
Lemma put_pmid_spec pmid l :
  descending l → descending (put_pmid pmid l).1 ∧ ∀ x, x ∈ (put_pmid pmid l).1 ↔ x = pmid ∨ x ∈ l.
Proof.
  induction 1 as [|y l Hs IH Hf]; simpl.
  { split; [by repeat constructor |]. intros x. rewrite list_elem_of_singleton, elem_of_nil. tauto. }
  destruct (Z.eqb_spec pmid y) as [->|Hne].
  { simpl. split; [by constructor |]. intros x. rewrite !elem_of_cons. tauto. }
  destruct (Z.ltb_spec y pmid); simpl.
  - split; [| intros x; rewrite !elem_of_cons; tauto]. constructor; [by constructor |]. constructor; [done |].
    eapply Forall_impl; [exact Hf |]. simpl. lia.
  - destruct IH as [IH1 IH2]. destruct (put_pmid pmid l) as [l' b]. simpl in *. split.
    + constructor; [done |]. apply Forall_forall. intros x [-> | Hx]%IH2; [lia |]. rewrite Forall_forall in Hf. by apply Hf.
    + intros x. rewrite !elem_of_cons, IH2. tauto.
Qed.

(** ** The invariant *)

(** A group that may be empty. *)
Record ok_body (fp : fetchctl) : Prop := {
  ob_idps : ok_idps (f_idp fp);
  ob_sorted : descending (f_pmidlist fp);
  ob_pmids : ∀ x, x ∈ f_pmidlist fp ↔ x ∈ pmids_of fp;
  ob_state : 0 <= f_state fp <= OPT_STATE_UMASK;
  ob_fetch : Forall (λ r, r_fetch r = Some (f_addr fp)) (reqs_fp fp) }.
Definition ok_fp (fp : fetchctl) : Prop := f_idp fp ≠ [] ∧ ok_body fp.
Record ok_groups (st : groups) : Prop := {
  og_fps : Forall ok_fp (root st);
  og_addrs : NoDup (f_addr <$> root st);
  og_brk : Forall (λ fp, (f_addr fp < brk st)%nat) (root st);
  og_reqs : NoDup (r_addr <$> reqs (root st)) }.
(** The same group, but for what it costs. *)
Definition same_group (fp fp' : fetchctl) : Prop :=
  f_addr fp' = f_addr fp ∧ f_idp fp' = f_idp fp ∧ f_pmidlist fp' = f_pmidlist fp ∧ f_state fp' = f_state fp.
(** The group [fp] with one more request. *)
Definition joined (new : optreq) (fp fp' : fetchctl) : Prop :=
  f_addr fp' = f_addr fp ∧ reqs_fp fp' ≡ₚ back_ptr (f_addr fp) new :: reqs_fp fp.
Lemma same_ok fp fp' : same_group fp fp' → ok_fp fp → ok_fp fp'.
Proof.
  intros (E1 & E2 & E3 & E4) [Hne [H1 H2 H3 H4 H5]]. split; [congruence |].
  split; unfold pmids_of, reqs_fp in *; by rewrite ?E1, ?E2, ?E3, ?E4.
Qed.
Lemma same_reqs fp fp' : same_group fp fp' → reqs_fp fp' = reqs_fp fp.
Proof. intros (_ & E & _). unfold reqs_fp. by rewrite E. Qed.

(** ** The bits of the state *)

Lemma entered_change new idps idps' ch :
  entered new idps idps' ch →
  ch = OPT_STATE_XREQ ∨ ch = Z.lor OPT_STATE_XPMID OPT_STATE_XREQ ∨ ch = Z.lor OPT_STATE_XINDOM (Z.lor OPT_STATE_XPMID OPT_STATE_XREQ).
Proof. destruct 1; tauto. Qed.
Definition enter_state (state ch : Z) (is_root b : bool) : Z :=
  let st := Z.lor (Z.land state OPT_STATE_UMASK) (if is_root then Z.lor ch OPT_STATE_XFETCH else ch) in
  if b then Z.lor st OPT_STATE_XPROFILE else st.
Lemma enter_bits new idps idps' ch state is_root b :
  entered new idps idps' ch → 0 <= state <= OPT_STATE_UMASK →
  let st := enter_state state ch is_root b in
  has st OPT_STATE_XPMID = has ch OPT_STATE_XPMID ∧ has st OPT_STATE_XINDOM = has ch OPT_STATE_XINDOM
  ∧ has st OPT_STATE_XFETCH = is_root ∧ Z.land st OPT_STATE_UMASK = state.
Proof.
  intros Hc%entered_change Hs. assert (state ∈ Z.of_nat <$> seq 0 8) as Hin.
  { apply list_elem_of_fmap. exists (Z.to_nat state). unfold OPT_STATE_UMASK in Hs. split; [lia |]. apply elem_of_seq. lia. }
  clear Hs. cbn in Hin. repeat (apply elem_of_cons in Hin as [-> | Hin]; [destruct Hc as [-> | [-> | ->]], is_root, b; by vm_compute |]).
  by apply elem_of_nil in Hin.
Qed.
Lemma umask_range s : 0 <= Z.land s OPT_STATE_UMASK <= OPT_STATE_UMASK.
Proof. unfold OPT_STATE_UMASK. pose proof (Z.land_ones s 3 ltac:(lia)) as E. change (Z.ones 3) with 7 in E. rewrite E. pose proof (Z.mod_pos_bound s (2 ^ 3) ltac:(lia)). lia. Qed.

(** ** One group *)

Lemma enter_eq oc new is_root fp :
  ok_idps (f_idp fp) → ∃ idps ch b cost,
    entered new (f_idp fp) idps ch
    ∧ enter oc new is_root fp = mkFetch (f_addr fp) idps (enter_state (f_state fp) ch is_root b) (optCost oc fp) cost (f_pmidlist fp).
Proof.
  intros [Hok _]. pose proof (enter_idps_spec new (f_idp fp) Hok) as He. unfold enter. cbn [set_cost f_idp].
  destruct (enter_idps new (f_idp fp)) as [[idps ch] b]. exists idps, ch, b. by eexists.
Qed.
Lemma undo_enter oc new fp : ok_body fp → ∃ fp', undo new (enter oc new false fp) = Ok (Some fp') ∧ same_group fp fp'.
Proof.
  intros [H1 H2 H3 H4 H5]. destruct (enter_eq oc new false fp H1) as (idps & ch & b & cost & He & ->).
  destruct (undo_entered _ _ _ _ H1 He) as (pre & idp & post & pre2 & pmp & post2 & Hc & Hu).
  destruct (enter_bits _ _ _ _ (f_state fp) false b He H4) as (B1 & B2 & B3 & B4).
  unfold undo. cbn [f_idp f_state]. rewrite Hc. cbn [mbind res_bind set_idp f_state]. rewrite B1, B2, B3. eexists. split; [done |].
  split_and!; [done | exact Hu | done |]. exact B4.
Qed.
Lemma undo_enter_root oc new fp : ok_body fp → undo new (enter oc new true fp) = Ok None.
Proof.
  intros [H1 H2 H3 H4 H5]. destruct (enter_eq oc new true fp H1) as (idps & ch & b & cost & He & ->).
  destruct (undo_entered _ _ _ _ H1 He) as (pre & idp & post & pre2 & pmp & post2 & Hc & _).
  destruct (enter_bits _ _ _ _ (f_state fp) true b He H4) as (_ & _ & B3 & _).
  unfold undo. cbn [f_idp f_state]. rewrite Hc. cbn [mbind res_bind set_idp f_state]. by rewrite B3.
Qed.
Lemma attach_enter oc new is_root fp :
  ok_body fp → ∃ fp', attach new (enter oc new is_root fp) = Ok fp' ∧ ok_fp fp' ∧ joined new fp fp'
    ∧ f_cost fp' = f_newcost (enter oc new is_root fp).
Proof.
  intros [H1 H2 H3 H4 H5]. destruct (enter_eq oc new is_root fp H1) as (idps & ch & b & cost & He & ->).
  destruct (attach_entered (f_addr fp) _ _ _ _ H1 He) as ([[[pre idp] post] [[pre2 pmp] post2]] & Hc & Hok & Hp & Hx).
  unfold attach. cbn [f_idp f_state]. rewrite Hc. cbn [mbind res_bind]. unfold addpmid. cbn [f_pmidlist].
  destruct (put_pmid_spec (r_pmid new) (f_pmidlist fp) H2) as [P1 P2]. destruct (put_pmid (r_pmid new) (f_pmidlist fp)) as [l b'].
  cbn [fst] in *. eexists. split; [done |]. split_and!; [| split; [done | exact Hp] | done].
  split; [by destruct pre |]. split; cbn [set_state set_cost set_idp set_pmids f_idp f_pmidlist f_state f_addr].
  - exact Hok.
  - done.
  - intros x. rewrite P2, H3. unfold pmids_of. cbn [set_state set_cost set_idp set_pmids f_idp f_pmidlist f_state f_addr].
    symmetry. apply Hx.
  - apply umask_range.
  - unfold reqs_fp. cbn [set_state set_cost set_idp set_pmids f_idp f_pmidlist f_state f_addr].
    apply Forall_forall. intros r Hr. assert (r ∈ back_ptr (f_addr fp) new :: reqs_fp fp) as Hr' by (rewrite <- Hp; exact Hr).
    apply elem_of_cons in Hr' as [-> | Hr']; [done |]. rewrite Forall_forall in H5. by apply H5.
Qed.

(** ** All groups *)

(** What becomes of a group when [a] is chosen. *)
Definition settled (new : optreq) (a : option nat) (fp fp' : fetchctl) : Prop :=
  if decide (a = Some (f_addr fp)) then ok_fp fp' ∧ joined new fp fp' else same_group fp fp'.
Lemma settle_rest oc new a l : ∀ before,
  Forall ok_fp l → ∃ l', settle new a before (enter oc new false <$> l) = Ok (before ++ l') ∧ Forall2 (settled new a) l l'.
Proof.
  induction l as [|fp l IH]; intros before Hl; [exists []; split; [simpl; by rewrite app_nil_r | constructor] |].
  apply Forall_cons in Hl as [[Hne Hb] Hl]. rewrite fmap_cons. cbn [settle].
  assert (f_addr (enter oc new false fp) = f_addr fp) as ->.
  { destruct (enter_eq oc new false fp (ob_idps _ Hb)) as (idps & ch & b & cost & _ & ->). done. }
  case_bool_decide as Ha.
  - destruct (attach_enter oc new false fp Hb) as (fp' & -> & Hok & Hj & _). cbn [mbind res_bind].
    destruct (IH (before ++ [fp']) Hl) as (l' & -> & Hl'). exists (fp' :: l'). rewrite <- app_assoc. split; [done |].
    constructor; [| done]. unfold settled. by rewrite decide_True.
  - destruct (undo_enter oc new fp Hb) as (fp' & -> & Hs). cbn [mbind res_bind].
    destruct (IH (before ++ [fp']) Hl) as (l' & -> & Hl'). exists (fp' :: l'). rewrite <- app_assoc. split; [done |].
    constructor; [| done]. unfold settled. by rewrite decide_False.
Qed.
Definition empty_fp (a : nat) : fetchctl := mkFetch a [] 0 0 0 [].
Lemma empty_ok a : ok_body (empty_fp a).
Proof. split; cbn; [split; constructor | constructor | done | done | constructor]. Qed.
(** All groups after a request was added, [a] being chosen. *)
Definition all_settled (new : optreq) (a : option nat) (st st' : groups) : Prop :=
  brk st' = S (brk st) ∧
  ∃ l', Forall2 (settled new a) (root st) l' ∧
    if decide (a = Some (brk st))
    then ∃ fp', root st' = fp' :: l' ∧ ok_fp fp' ∧ joined new (empty_fp (brk st)) fp'
    else root st' = l'.
Lemma add_settled oc new st :
  ok_groups st → ∃ st', __pmOptFetchAdd oc new st = Ok st'
    ∧ all_settled new (choose oc (enter_all oc new (empty_fp (brk st) :: root st)) OPT_COST_INFINITY None) st st'.
Proof.
  intros [H1 H2 H3 H4]. unfold __pmOptFetchAdd. fold (empty_fp (brk st)). cbn [enter_all].
  set (a := choose _ _ _ _). clearbody a. cbn [settle].
  assert (f_addr (enter oc new true (empty_fp (brk st))) = brk st) as ->.
  { destruct (enter_eq oc new true (empty_fp (brk st)) (ob_idps _ (empty_ok _))) as (idps & ch & b & cost & _ & ->). done. }
  case_bool_decide as Ha.
  - destruct (attach_enter oc new true _ (empty_ok (brk st))) as (fp' & -> & Hok & Hj & _). cbn [mbind res_bind app].
    destruct (settle_rest oc new a (root st) [fp'] H1) as (l' & -> & Hl'). cbn [mbind res_bind]. eexists. split; [done |].
    split; [done |]. exists l'. split; [done |]. rewrite decide_True by done. by exists fp'.
  - rewrite (undo_enter_root oc new _ (empty_ok (brk st))). cbn [mbind res_bind].
    destruct (settle_rest oc new a (root st) [] H1) as (l' & -> & Hl'). cbn [mbind res_bind]. eexists. split; [done |].
    split; [done |]. exists l'. split; [done |]. by rewrite decide_False.
Qed.
Lemma reqs_cons fp l : reqs (fp :: l) = reqs_fp fp ++ reqs l.
Proof. done. Qed.
Lemma settled_addr new a fp fp' : settled new a fp fp' → f_addr fp' = f_addr fp.
Proof. unfold settled. case_decide; [by intros [_ [? _]] | by intros [? _]]. Qed.
Lemma settled_ok new a fp fp' : settled new a fp fp' → ok_fp fp → ok_fp fp'.
Proof. unfold settled. case_decide; [by intros [? _] |]. apply same_ok. Qed.
Lemma settled_addrs new a l l' : Forall2 (settled new a) l l' → f_addr <$> l' = f_addr <$> l.
Proof. induction 1 as [|fp fp' l l' H _ IH]; [done |]. rewrite !fmap_cons, IH. f_equal. by eapply settled_addr. Qed.
Lemma settled_none new a l l' : Forall2 (settled new a) l l' → (∀ fp, fp ∈ l → a ≠ Some (f_addr fp)) → Forall2 same_group l l'.
Proof.
  induction 1 as [|fp fp' l l' H _ IH]; intros Ha; [constructor |]. constructor; [| apply IH; intros g Hg; apply Ha; by right].
  unfold settled in H. rewrite decide_False in H; [done |]. apply Ha. by left.
Qed.
Lemma same_all_reqs l l' : Forall2 same_group l l' → reqs l' = reqs l.
Proof. induction 1 as [|fp fp' l l' H _ IH]; [done |]. by rewrite !reqs_cons, IH, (same_reqs _ _ H). Qed.
Lemma settled_one new a l l' :
  Forall2 (settled new (Some a)) l l' → NoDup (f_addr <$> l) → a ∈ f_addr <$> l → reqs l' ≡ₚ back_ptr a new :: reqs l.
Proof.
  induction 1 as [|fp fp' l l' H Hl IH]; intros Hn Ha; [by apply elem_of_nil in Ha |]. rewrite fmap_cons in Hn, Ha.
  apply NoDup_cons in Hn as [Hf Hn]. unfold settled in H. rewrite !reqs_cons. case_decide as Hd.
  - injection Hd as ->. destruct H as (_ & _ & E). rewrite E, (same_all_reqs l l'); [done |]. eapply settled_none; [exact Hl |].
    intros g Hg [= Eg]. apply Hf. rewrite Eg. by apply list_elem_of_fmap_2.
  - apply elem_of_cons in Ha as [-> | Ha]; [done |]. rewrite (IH Hn Ha), (same_reqs _ _ H). solve_Permutation.
Qed.
Lemma settled_groups new a st st' :
  ok_groups st → r_addr new ∉ r_addr <$> reqs (root st) → a ∈ brk st :: (f_addr <$> root st) → all_settled new (Some a) st st' →
  ok_groups st' ∧ reqs (root st') ≡ₚ back_ptr a new :: reqs (root st).
Proof.
  intros [H1 H2 H3 H4] Hnew Ha (Hb & l' & Hl & Hr).
  assert (Forall ok_fp l') as Hok.
  { clear -Hl H1. induction Hl as [|fp fp' l l' H _ IH]; [constructor |]. apply Forall_cons in H1 as [? H1].
    constructor; [by eapply settled_ok | by apply IH]. }
  assert (Forall (λ fp, (f_addr fp < brk st)%nat) l') as Hlt.
  { apply Forall_fmap with (f := f_addr) (P := λ n, (n < brk st)%nat). rewrite (settled_addrs _ _ _ _ Hl). by apply Forall_fmap. }
  assert (reqs (root st') ≡ₚ back_ptr a new :: reqs (root st)) as Hreq.
  { case_decide as Hd.
    - injection Hd as ->. destruct Hr as (fp' & -> & _ & _ & Hj). rewrite reqs_cons, Hj. cbn [empty_fp reqs_fp f_idp f_addr app]. rewrite (same_all_reqs (root st) l'); [done |]. eapply settled_none; [exact Hl |].
      intros g Hg [= E]. rewrite Forall_forall in H3. specialize (H3 g Hg). lia.
    - rewrite Hr. eapply settled_one; [exact Hl | done |]. apply elem_of_cons in Ha as [-> | Ha]; [done | done]. }
  split; [| done]. split.
  - case_decide; [| by rewrite Hr]. destruct Hr as (fp' & -> & ? & _). by constructor.
  - case_decide; [| by rewrite Hr, (settled_addrs _ _ _ _ Hl)]. destruct Hr as (fp' & -> & _ & E & _). rewrite fmap_cons, (settled_addrs _ _ _ _ Hl), E.
    constructor; [| done]. intros (g & Eg & Hg)%list_elem_of_fmap. rewrite Forall_forall in H3. specialize (H3 g Hg). simpl in Eg. lia.
  - rewrite Hb. assert (Forall (λ fp, (f_addr fp < S (brk st))%nat) l') as Hlt'.
    { eapply Forall_impl; [exact Hlt |]. simpl. lia. }
    case_decide; [| by rewrite Hr]. destruct Hr as (fp' & -> & _ & E & _). constructor; [rewrite E; simpl; lia | done].
  - rewrite Hreq. simpl. by constructor.
Qed.

(** ** The choice *)

Lemma choose_spec oc l : ∀ m t,
  (choose oc l m t = t ∧ ∀ g, g ∈ l → m <= price oc g) ∨
  ∃ l1 g l2, l = l1 ++ g :: l2 ∧ choose oc l m t = Some (f_addr g) ∧ price oc g < m
    ∧ (∀ g', g' ∈ l1 → price oc g < price oc g') ∧ ∀ g', g' ∈ l2 → price oc g <= price oc g'.
Proof.
  induction l as [|fp l IH]; intros m t; simpl; [left; split; [done | by intros g ?%elem_of_nil] |].
  destruct (Z.ltb_spec (price oc fp) m) as [Hlt|Hge].
  - right. destruct (IH (price oc fp) (Some (f_addr fp))) as [[-> H] | (l1 & g & l2 & -> & -> & Hg & H1 & H2)].
    + exists [], fp, l. split_and!; [done | done | done | by intros g ?%elem_of_nil | done].
    + exists (fp :: l1), g, l2. split_and!; [done | done | lia | | done]. intros g' [-> | Hg']%elem_of_cons; [done | by apply H1].
  - destruct (IH m t) as [[-> H] | (l1 & g & l2 & -> & -> & Hg & H1 & H2)].
    + left. split; [done |]. intros g [-> | Hg]%elem_of_cons; [done | by apply H].
    + right. exists (fp :: l1), g, l2. split_and!; [done | done | done | | done]. intros g' [-> | Hg']%elem_of_cons; [lia | by apply H1].
Qed.
Lemma miss_same l : miss_loop l l = 0.
Proof. induction l as [|a l IH]; [done |]. cbn [miss_loop]. by rewrite Z.eqb_refl. Qed.
Lemma missinst_same oc n l : missinst oc n l n l = 0.
Proof. unfold missinst. destruct (n =? 0); [done |]. apply miss_same. Qed.
Lemma s32_add_l x y : s32 (s32 x + y) = s32 (x + y).
Proof.
  unfold s32. replace ((x + 2 ^ 31) mod 2 ^ 32 - 2 ^ 31 + y + 2 ^ 31) with ((x + 2 ^ 31) mod 2 ^ 32 + y) by lia.
  rewrite Zplus_mod_idemp_l. do 2 f_equal. lia.
Qed.
(** A group of its own costs the same for every request. *)
Definition own_price (oc : optcost_t) : Z := s32 (c_pmid oc + c_indom oc + c_fetch oc).
Lemma price_new oc new a : price oc (enter oc new true (empty_fp a)) = own_price oc.
Proof.
  assert (f_newcost (enter oc new true (empty_fp a)) = own_price oc ∧ f_cost (enter oc new true (empty_fp a)) = 0) as [E1 E2].
  { unfold enter, enter_idps, empty_fp. cbn [set_cost f_idp split_find]. unfold enter_idp. cbn [i_pmp split_find i_numinst i_instlist].
    unfold enter_pmp. cbn [p_numinst p_instlist p_rqp p_pmid]. destruct (addinst (-1, []) new) as [[n l] b].
    cbn [set_newcost f_newcost f_cost set_state set_idp]. split; [| done]. unfold optCost, pmids_of. simpl.
    unfold xtra_cost. simpl. rewrite missinst_same, s32_add_l. unfold own_price. f_equal. lia. }
  unfold price. rewrite E1, E2. destruct (negb _); [done |]. rewrite Z.sub_0_r. unfold own_price. rewrite s32_id; [done | apply s32_range].
Qed.
(** Costs under which a request always finds a group. *)
Definition placeable (oc : optcost_t) : Prop := own_price oc ≠ OPT_COST_INFINITY.
Lemma own_price_small oc : placeable oc → own_price oc < OPT_COST_INFINITY.
Proof.
  unfold placeable. pose proof (s32_range (c_pmid oc + c_indom oc + c_fetch oc)) as Hr. fold (own_price oc) in Hr.
  unfold is_s32, OPT_COST_INFINITY, INT_MAX in *. lia.
Qed.
Lemma enter_addr oc new b fp : ok_body fp → f_addr (enter oc new b fp) = f_addr fp.
Proof. intros Hb. by destruct (enter_eq oc new b fp (ob_idps _ Hb)) as (idps & ch & b' & cost & _ & ->). Qed.
(** [g] is the cheapest of the candidates, the first among equals. *)
Definition cheapest (oc : optcost_t) (g : fetchctl) (cands : list fetchctl) : Prop :=
  ∃ l1 l2, cands = l1 ++ g :: l2 ∧ (∀ g', g' ∈ l1 → price oc g < price oc g') ∧ ∀ g', g' ∈ l2 → price oc g <= price oc g'.
Lemma choose_cheapest oc new st :
  ok_groups st → placeable oc →
  ∃ g, cheapest oc g (enter_all oc new (empty_fp (brk st) :: root st))
    ∧ choose oc (enter_all oc new (empty_fp (brk st) :: root st)) OPT_COST_INFINITY None = Some (f_addr g)
    ∧ f_addr g ∈ brk st :: (f_addr <$> root st).
Proof.
  intros [H1 H2 H3 H4] Hp. set (l := enter_all _ _ _).
  assert (f_addr <$> l = brk st :: (f_addr <$> root st)) as El.
  { unfold l. cbn [enter_all]. rewrite fmap_cons, (enter_addr _ _ _ _ (empty_ok _)). f_equal. rewrite <- list_fmap_compose.
    apply list_fmap_ext. intros i fp Hfp. simpl. apply enter_addr. rewrite Forall_forall in H1. by apply H1, list_elem_of_lookup_2 with i. }
  destruct (choose_spec oc l OPT_COST_INFINITY None) as [[_ H] | (l1 & g & l2 & E & -> & _ & Hl1 & Hl2)].
  - specialize (H (enter oc new true (empty_fp (brk st)))). rewrite price_new in H. pose proof (own_price_small oc Hp).
    enough (OPT_COST_INFINITY <= own_price oc) by lia. apply H. by left.
  - exists g. split_and!; [by exists l1, l2 | done |]. rewrite <- El, E. apply list_elem_of_fmap_2, elem_of_app. right. by left.
Qed.

(** C28. A request that is added goes to one group, the one where it costs least by the
    current objective function (the first of them if there are several; a group of its
    own is the first candidate): unless a group of its own has the price that stands for
    infinity, the call returns, some cheapest group has the request with its back pointer
    set, every other group is what it was, its state included, and the groups are in
    order again. *)
Theorem add_cheapest oc new st :
  ok_groups st → r_addr new ∉ r_addr <$> reqs (root st) → placeable oc →
  ∃ st' g, __pmOptFetchAdd oc new st = Ok st' ∧ ok_groups st'
    ∧ cheapest oc g (enter_all oc new (empty_fp (brk st) :: root st)) ∧ all_settled new (Some (f_addr g)) st st'
    ∧ reqs (root st') ≡ₚ back_ptr (f_addr g) new :: reqs (root st).
Proof.
  intros Hok Hnew Hp. destruct (choose_cheapest oc new st Hok Hp) as (g & Hg & Hc & Hin).
  destruct (add_settled oc new st Hok) as (st' & E & Hs). rewrite Hc in Hs.
  destruct (settled_groups new (f_addr g) st st' Hok Hnew Hin Hs) as [Hok' Hr]. by exists st', g.
Qed.

(** Adding a request, whatever the costs. *)
Lemma add_groups_ok oc new st :
  ok_groups st → r_addr new ∉ r_addr <$> reqs (root st) →
  ∃ st', __pmOptFetchAdd oc new st = Ok st' ∧ ok_groups st'
    ∧ ((∃ a, reqs (root st') ≡ₚ back_ptr a new :: reqs (root st)) ∨ (¬ placeable oc ∧ reqs (root st') = reqs (root st))).
Proof.
  intros Hok Hnew. destruct (decide (own_price oc = OPT_COST_INFINITY)) as [Hp|Hp]; cycle 1.
  { destruct (choose_cheapest oc new st Hok Hp) as (g & _ & Hc & Hin). destruct (add_settled oc new st Hok) as (st' & E & Hs).
    rewrite Hc in Hs. destruct (settled_groups new (f_addr g) st st' Hok Hnew Hin Hs) as [Hok' Hr]. exists st'.
    split_and!; [done | done |]. left. by exists (f_addr g). }
  destruct (add_settled oc new st Hok) as (st' & E & Hs). exists st'. split; [done |].
  destruct (choose_spec oc (enter_all oc new (empty_fp (brk st) :: root st)) OPT_COST_INFINITY None) as [[Ec _] | (l1 & g & l2 & El & Ec & _)].
  - rewrite Ec in Hs. destruct Hs as (Hb & l' & Hl & Hr). rewrite decide_False in Hr by done. rewrite <- Hr in Hl.
    assert (Forall2 same_group (root st) (root st')) as Hsame by by eapply settled_none.
    destruct Hok as [H1 H2 H3 H4]. split; [| right; split; [by intros ? | by apply same_all_reqs]]. split.
    + clear -H1 Hsame. induction Hsame as [|fp fp' l l' H _ IH]; [constructor |]. apply Forall_cons in H1 as [? H1].
      constructor; [by eapply same_ok | by apply IH].
    + by rewrite (settled_addrs _ _ _ _ Hl).
    + rewrite Hb. apply Forall_fmap with (f := f_addr) (P := λ n, (n < S (brk st))%nat). rewrite (settled_addrs _ _ _ _ Hl).
      apply Forall_fmap. eapply Forall_impl; [exact H3 |]. simpl. lia.
    + by rewrite (same_all_reqs _ _ Hsame).
  - rewrite Ec in Hs. destruct (settled_groups new (f_addr g) st st' Hok Hnew) as [Hok' Hr]; [| done | by split; [| left; exists (f_addr g)]].
    destruct Hok as [H1 H2 H3 H4]. assert (f_addr g ∈ f_addr <$> enter_all oc new (empty_fp (brk st) :: root st)) as Hg.
    { rewrite El. apply list_elem_of_fmap_2, elem_of_app. right. by left. }
    cbn [enter_all] in Hg. rewrite fmap_cons, (enter_addr _ _ _ _ (empty_ok _)) in Hg. apply elem_of_cons in Hg as [-> | Hg]; [by left |].
    right. apply list_elem_of_fmap in Hg as (g' & -> & Hg). apply list_elem_of_fmap in Hg as (fp & -> & Hfp).
    rewrite Forall_forall in H1. rewrite enter_addr by by apply H1. by apply list_elem_of_fmap_2.
Qed.

(** ** Removing a request *)

Section del.
Context {A : Type} (f : A → option (option A)).
Lemma del_in_Some l l' : del_in f l = Some l' → ∃ pre x o post,
  l = pre ++ x :: post ∧ Forall (λ y, f y = None) pre ∧ f x = Some o ∧ l' = pre ++ option_list o ++ post.
Proof.
  revert l'. induction l as [|x l IH]; intros l' H; simpl in H; [done |]. destruct (f x) as [o|] eqn:E.
  - exists [], x, o, l. split_and!; [done | constructor | done |]. by destruct o; injection H as <-.
  - destruct (del_in f l) as [l1|]; [| done]. injection H as <-. destruct (IH l1 eq_refl) as (pre & y & o & post & -> & Hp & Hy & ->).
    exists (x :: pre), y, o, post. split_and!; [done | by constructor | done | done].
Qed.
Lemma del_in_None l : del_in f l = None → Forall (λ y, f y = None) l.
Proof.
  induction l as [|x l IH]; simpl; [constructor |]. destruct (f x) as [[y|]|] eqn:E; [done | done |].
  destruct (del_in f l); [done |]. intros _. constructor; [done | by apply IH].
Qed.
(** What [del_in] does to the requests in the elements, to a property of them and to
    their keys. *)
Lemma del_in_reqs (R : A → list optreq) a l l' :
  (∀ x o, f x = Some o → ∃ r, r_addr r = a ∧ R x ≡ₚ r :: (option_list o ≫= R)) →
  del_in f l = Some l' → ∃ r, r_addr r = a ∧ (l ≫= R) ≡ₚ r :: (l' ≫= R).
Proof.
  intros Hf (pre & x & o & post & -> & _ & Hx & ->)%del_in_Some. destruct (Hf x o Hx) as (r & Hr & HR).
  exists r. split; [done |]. rewrite !bind_app, bind_cons, HR. solve_Permutation.
Qed.
Lemma del_in_absent (R : A → list optreq) a l :
  (∀ x, f x = None → a ∉ r_addr <$> R x) → del_in f l = None → a ∉ r_addr <$> (l ≫= R).
Proof.
  intros Hf Hn%del_in_None. induction Hn as [|x l Hx _ IH]; [by intros ?%elem_of_nil |].
  rewrite bind_cons, fmap_app, elem_of_app. intros [? | ?]; [by apply (Hf x) | done].
Qed.
Lemma del_in_keeps {K} (P : A → Prop) (key : A → K) l l' :
  (∀ x y, P x → f x = Some (Some y) → P y ∧ key y = key x) → Forall P l → NoDup (key <$> l) →
  del_in f l = Some l' → Forall P l' ∧ NoDup (key <$> l').
Proof.
  intros Hf HP Hn (pre & x & o & post & -> & _ & Hx & ->)%del_in_Some. apply Forall_app in HP as [H1 [H2 H3]%Forall_cons].
  rewrite fmap_app, fmap_cons in Hn. destruct o as [y|]; simpl.
  - destruct (Hf x y H2 Hx) as [Hy Ek]. split; [apply Forall_app; split; [done | by constructor] |]. by rewrite fmap_app, fmap_cons, Ek.
  - split; [by apply Forall_app |]. rewrite fmap_app. eapply sublist_NoDup; [exact Hn |]. apply sublist_app; [done |]. by apply sublist_cons.
Qed.
End del.

(** What is left of a metric, a domain and a group, before the lists are made anew. *)
Definition weak_pmp (dom : Z) (pmp : pmidctl) : Prop :=
  p_rqp pmp ≠ [] ∧ Forall (λ r, r_pmid r = p_pmid pmp ∧ r_indom r = dom) (p_rqp pmp).
Definition weak_idp (idp : indomctl) : Prop :=
  i_pmp idp ≠ [] ∧ NoDup (p_pmid <$> i_pmp idp) ∧ Forall (weak_pmp (i_indom idp)) (i_pmp idp).
Lemma ok_weak idp : ok_idp idp → weak_idp idp.
Proof. intros (H1 & H2 & H3 & _). split_and!; [done | done |]. eapply Forall_impl; [exact H3 |]. by intros p (? & ? & _). Qed.
Lemma redo_weak idp : weak_idp idp → ok_idp (redo_idp idp).
Proof.
  intros (H1 & H2 & H3). destruct (redo_idp_spec idp) as (E & Hf & Hu).
  assert (reqs_idp (redo_idp idp) = reqs_idp idp) as Er by by apply shape_reqs. rewrite <- Er in Hu.
  unfold shape in E. injection E as Ei E. set (idp' := redo_idp idp) in *. clearbody idp'.
  split_and!; [| | | done].
  - intros E0. rewrite E0 in E. by destruct (i_pmp idp).
  - enough (p_pmid <$> i_pmp idp' = p_pmid <$> i_pmp idp) as -> by done.
    change p_pmid with (fst ∘ shape_pmp). by rewrite !list_fmap_compose, E.
  - rewrite Ei. clear -E Hf H3. revert E Hf. generalize (i_pmp idp'). generalize dependent (i_pmp idp). intros l.
    induction l as [|p l IH]; intros Hw [|p' l'] E Hf; try done. rewrite !fmap_cons in E. injection E as E1 E2 E.
    apply Forall_cons in Hf as [Hu Hf], Hw as [[W1 W2] Hw]. constructor; [| by apply IH]. split_and!; [congruence | by rewrite E1, E2 | done].
Qed.
Lemma nonempty_Some {A B} (mk : list A → B) o l :
  nonempty mk <$> o = Some l → ∃ l0, o = Some l0 ∧ ((l0 = [] ∧ l = None) ∨ (l0 ≠ [] ∧ l = Some (mk l0))).
Proof. destruct o as [l0|]; [| done]. simpl. intros [= <-]. exists l0. split; [done |]. destruct l0; [by left | by right]. Qed.
Lemma fmap_none {A B} (g : A → B) o : g <$> o = None → o = None.
Proof. by destruct o. Qed.

Section removal.
Context (a : nat).
Definition takes {A} (R : A → list optreq) (x : A) (o : option A) : Prop := ∃ r, r_addr r = a ∧ R x ≡ₚ r :: (option_list o ≫= R).
Lemma del_rqp_reqs x o : del_rqp a x = Some o → takes (λ r, [r]) x o.
Proof. unfold del_rqp. destruct (Nat.eqb_spec (r_addr x) a); [| done]. intros [= <-]. by exists x. Qed.
Lemma bind_id (l : list optreq) : (l ≫= λ r, [r]) = l.
Proof. induction l as [|r l IH]; [done |]. by rewrite bind_cons, IH. Qed.
Lemma del_pmp_reqs x o : del_pmp a x = Some o → takes p_rqp x o.
Proof.
  intros (l & Hl & Ho)%nonempty_Some. apply (del_in_reqs _ (λ r, [r]) a) in Hl as (r & Hr & Hp); [| apply del_rqp_reqs].
  rewrite !bind_id in Hp. exists r. split; [done |]. rewrite Hp. destruct Ho as [[-> ->] | [_ ->]]; [done |]. simpl. by rewrite app_nil_r.
Qed.
Lemma del_idp_reqs x o : del_idp a x = Some o → takes reqs_idp x o.
Proof.
  intros (l & Hl & Ho)%nonempty_Some. apply (del_in_reqs _ p_rqp a) in Hl as (r & Hr & Hp); [| apply del_pmp_reqs].
  exists r. split; [done |]. unfold reqs_idp at 1. rewrite Hp. destruct Ho as [[-> ->] | [_ ->]]; [done |]. simpl. by rewrite app_nil_r.
Qed.
Lemma del_pmp_none x : del_pmp a x = None → a ∉ r_addr <$> p_rqp x.
Proof.
  intros H%fmap_none. apply (del_in_absent _ (λ r, [r]) a) in H; [by rewrite bind_id in H |].
  intros r. unfold del_rqp. destruct (Nat.eqb_spec (r_addr r) a); [done |]. intros _. simpl. by rewrite list_elem_of_singleton.
Qed.
Lemma del_idp_none x : del_idp a x = None → a ∉ r_addr <$> reqs_idp x.
Proof. intros H%fmap_none. by apply (del_in_absent _ p_rqp a) in H; [| apply del_pmp_none]. Qed.
Lemma del_pmp_weak dom x y : weak_pmp dom x → del_pmp a x = Some (Some y) → weak_pmp dom y ∧ p_pmid y = p_pmid x.
Proof.
  intros [H1 H2] (l & Hl & Ho)%nonempty_Some. destruct Ho as [[_ ?] | [Hne [= ->]]]; [done |]. split; [| done]. split; [done |]. simpl.
  apply del_in_Some in Hl as (pre & z & o & post & E & _ & Hz & ->). rewrite E in H2.
  apply Forall_app in H2 as [? [_ ?]%Forall_cons]. unfold del_rqp in Hz. destruct (_ =? _)%nat; [| done]. injection Hz as <-. by apply Forall_app.
Qed.
Lemma del_idp_weak x y : weak_idp x → del_idp a x = Some (Some y) → weak_idp y ∧ i_indom y = i_indom x.
Proof.
  intros (H1 & H2 & H3) (l & Hl & Ho)%nonempty_Some. destruct Ho as [[_ ?] | [Hne [= ->]]]; [done |]. split; [| done].
  destruct (del_in_keeps (del_pmp a) (weak_pmp (i_indom x)) p_pmid (i_pmp x) l) as [K1 K2]; [apply del_pmp_weak | done | done | done |].
  by split_and!.
Qed.
End removal.

Lemma redo_pmids ps : ∀ fp, fold_left (λ fp pmid, (addpmid fp pmid).1) ps fp
  = set_pmids (fold_left (λ l p, (put_pmid p l).1) ps (f_pmidlist fp)) fp.
Proof.
  induction ps as [|p ps IH]; intros fp; simpl; [by destruct fp |]. rewrite IH. unfold addpmid. by destruct (put_pmid p (f_pmidlist fp)).
Qed.
Lemma put_pmids_spec ps : ∀ l, descending l →
  descending (fold_left (λ l p, (put_pmid p l).1) ps l) ∧ ∀ x, x ∈ fold_left (λ l p, (put_pmid p l).1) ps l ↔ x ∈ ps ∨ x ∈ l.
Proof.
  induction ps as [|p ps IH]; intros l Hl; simpl; [split; [done |]; intros x; rewrite elem_of_nil; tauto |].
  destruct (put_pmid_spec p l Hl) as [H1 H2]. destruct (IH _ H1) as [H3 H4]. split; [done |]. intros x. rewrite H4, H2, elem_of_cons. tauto.
Qed.
Lemma repair_ok oc fp :
  f_idp fp ≠ [] → Forall weak_idp (f_idp fp) → NoDup (i_indom <$> f_idp fp) → Forall (λ r, r_fetch r = Some (f_addr fp)) (reqs_fp fp) →
  ok_fp (repair oc fp) ∧ reqs_fp (repair oc fp) = reqs_fp fp ∧ f_addr (repair oc fp) = f_addr fp.
Proof.
  intros H1 H2 H3 H4. unfold repair, redopmid, redoinst. rewrite redo_pmids. cbn [set_pmids set_idp f_pmidlist].
  assert (reqs_idps (redo_idp <$> f_idp fp) = reqs_fp fp) as Er.
  { unfold reqs_idps, reqs_fp. clear. induction (f_idp fp) as [|x l IH]; [done |]. rewrite fmap_cons, !bind_cons, IH. f_equal.
    apply shape_reqs, redo_idp_spec. }
  match goal with |- context [fold_left _ ?ps []] => destruct (put_pmids_spec ps []) as [P1 P2]; [constructor |] end.
  split_and!; [| exact Er | done]. split; [cbn; by destruct (f_idp fp) |].
  split; cbn [set_cost set_state set_pmids set_idp f_idp f_pmidlist f_state f_addr].
  - split.
    + apply Forall_fmap. eapply Forall_impl; [exact H2 |]. intros x. apply redo_weak.
    + enough (i_indom <$> (redo_idp <$> f_idp fp) = i_indom <$> f_idp fp) as -> by done.
      rewrite <- list_fmap_compose. apply list_fmap_ext. intros i x _. simpl. by destruct (redo_idp_spec x) as ([= -> _] & _).
  - exact P1.
  - intros x. rewrite P2, elem_of_nil. unfold pmids_of. cbn. tauto.
  - by vm_compute.
  - unfold reqs_fp at 1. cbn [set_cost set_state set_pmids set_idp f_idp]. change (Forall (λ r, r_fetch r = Some (f_addr fp)) (reqs_idps (redo_idp <$> f_idp fp))).
    by rewrite Er.
Qed.

Lemma del_fp_spec oc a fp o :
  ok_fp fp → del_fp oc a fp = Some o →
  (∃ r, r_addr r = a ∧ reqs_fp fp ≡ₚ r :: (option_list o ≫= reqs_fp))
  ∧ ∀ fp', o = Some fp' → ok_fp fp' ∧ f_addr fp' = f_addr fp ∧ f_cost fp' = optCost oc fp'
      ∧ f_state fp' = Z.lor OPT_STATE_PMID OPT_STATE_PROFILE.
Proof.
  intros [Hne Hb] (l & Hl & Ho)%nonempty_Some. destruct (ob_idps _ Hb) as [Hi Hn].
  destruct (del_in_reqs _ reqs_idp a _ _ (del_idp_reqs a) Hl) as (r & Hr & Hp).
  destruct (del_in_keeps (del_idp a) weak_idp i_indom (f_idp fp) l) as [K1 K2]; [apply del_idp_weak | | done | done |].
  { eapply Forall_impl; [exact Hi |]. apply ok_weak. }
  assert (Forall (λ r, r_fetch r = Some (f_addr fp)) (l ≫= reqs_idp)) as Hf.
  { pose proof (ob_fetch _ Hb) as Hf. unfold reqs_fp in Hf. rewrite Hp in Hf. by apply Forall_cons in Hf as [_ ?]. }
  destruct Ho as [[-> ->] | [Hl0 ->]]; [split; [by exists r | done] |].
  destruct (repair_ok oc (set_idp l fp)) as (R1 & R2 & R3); [done | done | done | done |]. split.
  - exists r. split; [done |]. simpl. rewrite R2, app_nil_r. exact Hp.
  - intros fp' [= <-]. by split_and!.
Qed.

Lemma del_found oc a st pre fp post o :
  ok_groups st → root st = pre ++ fp :: post → del_fp oc a fp = Some o →
  ok_groups (mkGroups (pre ++ option_list o ++ post) (brk st))
  ∧ ∃ r, r_addr r = a ∧ reqs (root st) ≡ₚ r :: reqs (pre ++ option_list o ++ post).
Proof.
  intros [H1 H2 H3 H4] E Hfp. rewrite E in H1, H2, H3.
  apply Forall_app in H1 as [K1 [K2 K3]%Forall_cons]. destruct (del_fp_spec oc a fp o K2 Hfp) as [(r & Hr & Hp) Ho].
  assert (reqs (root st) ≡ₚ r :: reqs (pre ++ option_list o ++ post)) as HP.
  { rewrite E. unfold reqs. rewrite !bind_app, bind_cons, Hp. solve_Permutation. }
  split; [| by exists r]. split; cbn [root brk].
  - apply Forall_app. split; [done |]. apply Forall_app. split; [| done]. destruct o as [fp'|]; [| constructor].
    constructor; [by apply Ho | constructor].
  - rewrite !fmap_app in *. rewrite fmap_cons in H2. destruct o as [fp'|]; simpl.
    + destruct (Ho fp' eq_refl) as (_ & -> & _). done.
    + eapply sublist_NoDup; [exact H2 |]. apply sublist_app; [done |]. by apply sublist_cons.
  - apply Forall_app in H3 as [B1 [B2 B3]%Forall_cons]. apply Forall_app. split; [done |]. apply Forall_app. split; [| done].
    destruct o as [fp'|]; [| constructor]. destruct (Ho fp' eq_refl) as (_ & E' & _). repeat constructor. by rewrite E'.
  - rewrite HP in H4. by apply NoDup_cons in H4 as [_ ?].
Qed.
Lemma del_groups oc a st : ok_groups st → ok_groups (__pmOptFetchDel oc a st).2.
Proof.
  intros Hok. unfold __pmOptFetchDel. destruct (del_in (del_fp oc a) (root st)) as [l|] eqn:El; [| done].
  destruct (del_in_Some _ _ _ El) as (pre & fp & o & post & E & _ & Hfp & ->). by destruct (del_found oc a st pre fp post o Hok E Hfp).
Qed.

(** Removing a request: it is taken out of the one group that has it, with its metric,
    its domain and the group itself if nothing else is left of them; what is left of the
    group has lists made anew, its cost and the marks for the caller; all other groups
    are what they were, and the groups are in order.  A request that is in no group is
    refused. *)
Lemma del_removes oc a st sts st' :
  ok_groups st → __pmOptFetchDel oc a st = (sts, st') →
  ok_groups st' ∧
  if decide (a ∈ r_addr <$> reqs (root st))
  then sts = 0 ∧ (∃ r, r_addr r = a ∧ reqs (root st) ≡ₚ r :: reqs (root st'))
    ∧ ∃ pre fp o post, root st = pre ++ fp :: post ∧ root st' = pre ++ option_list o ++ post ∧ a ∈ r_addr <$> reqs_fp fp
      ∧ ∀ fp', o = Some fp' → f_addr fp' = f_addr fp ∧ f_cost fp' = optCost oc fp' ∧ f_state fp' = Z.lor OPT_STATE_PMID OPT_STATE_PROFILE
  else sts = -1 ∧ st' = st.
Proof.
  intros Hok Hd. unfold __pmOptFetchDel in Hd. destruct (del_in (del_fp oc a) (root st)) as [l|] eqn:El; injection Hd as <- <-; cycle 1.
  { split; [done |]. rewrite decide_False; [done |]. apply (del_in_absent _ reqs_fp a) in El; [done |].
    intros fp Hn%fmap_none. by apply (del_in_absent _ reqs_idp a) in Hn; [| apply del_idp_none]. }
  destruct (del_in_Some _ _ _ El) as (pre & fp & o & post & E & _ & Hfp & ->).
  destruct (del_found oc a st pre fp post o Hok E Hfp) as [Hok' (r & Hr & HP)]. split; [done |].
  rewrite decide_True by (rewrite HP, fmap_cons, Hr; by left). split; [done |]. split; [by exists r |]. exists pre, fp, o, post.
  assert (ok_fp fp) as Hfp' by (pose proof (og_fps _ Hok) as Hf; rewrite E in Hf; by apply Forall_app in Hf as [_ [? _]%Forall_cons]).
  destruct (del_fp_spec oc a fp o Hfp' Hfp) as [(r' & Hr' & Hp) Ho]. split_and!; [done | done | |].
  - rewrite Hp, fmap_cons, Hr'. by left.
  - intros fp' E'. destruct (Ho fp' E') as (_ & ? & ? & ?). done.
Qed.

(** ** Starting again *)

(** A request without its back pointer. *)
Definition request (r : optreq) : nat * Z * Z * list Z := (r_addr r, r_indom r, r_pmid r, r_instlist r).
Lemma cut_perm k l : cut k l ≡ₚ l.
Proof. unfold cut. destruct (k =? 0)%nat; [done |]. rewrite Permutation_app_comm. by rewrite take_drop. Qed.
Lemma add_all_ok oc l : ∀ st,
  ok_groups st → NoDup (r_addr <$> (l ++ reqs (root st))) →
  ∃ st', add_all oc l st = Ok st' ∧ ok_groups st'
    ∧ (placeable oc → request <$> reqs (root st') ≡ₚ request <$> (l ++ reqs (root st))).
Proof.
  induction l as [|r l IH]; intros st Hok Hn; cbn [add_all]; [by exists st |]. simpl in Hn. apply NoDup_cons in Hn as [Hr Hn].
  destruct (add_groups_ok oc r st Hok) as (st1 & -> & Hok1 & Hreq).
  { intros Hin. apply Hr. rewrite fmap_app. apply elem_of_app. by right. }
  cbn [mbind res_bind]. destruct (IH st1 Hok1) as (st' & -> & Hok' & Hp).
  { destruct Hreq as [(a & Ha) | [_ ->]]; [| done]. rewrite fmap_app, Ha, fmap_cons. simpl.
    rewrite <- Permutation_middle. constructor; [by rewrite <- fmap_app | by rewrite <- fmap_app]. }
  exists st'. split_and!; [done | done |]. intros Hpl. rewrite (Hp Hpl). destruct Hreq as [(a & Ha) | [Hno _]]; [| done].
  rewrite !fmap_app, Ha, !fmap_cons. simpl. rewrite <- Permutation_middle. done.
Qed.
Lemma ok_empty n : ok_groups (mkGroups [] n).
Proof. split; constructor. Qed.

(** Starting again loses no request, wherever the list is cut: the groups that come
    out have the same requests, to the same instances of the same metrics, and are in
    order. *)
Lemma redo_keeps_requests oc rnd st :
  ok_groups st → placeable oc →
  ∃ st', __pmOptFetchRedo oc rnd st = Ok st' ∧ ok_groups st' ∧ request <$> reqs (root st') ≡ₚ request <$> reqs (root st).
Proof.
  intros Hok Hp. unfold __pmOptFetchRedo. destruct (rev (reqs (root st))) as [|r l] eqn:E.
  { assert (reqs (root st) = []) as -> by (rewrite <- (rev_involutive (reqs (root st))), E; done).
    eexists. split; [done |]. split; [apply ok_empty | done]. }
  rewrite <- E. set (k := Z.to_nat _). clearbody k.
  assert (cut k (rev (reqs (root st))) ++ reqs [] ≡ₚ reqs (root st)) as HP.
  { unfold reqs at 2. rewrite app_nil_r, cut_perm. symmetry. apply Permutation_rev. }
  destruct (add_all_ok oc (cut k (rev (reqs (root st)))) (mkGroups [] (brk st)) (ok_empty _)) as (st' & -> & Hok' & Hr).
  { cbn [root]. rewrite HP. apply Hok. }
  exists st'. split_and!; [done | done |]. rewrite (Hr Hp). cbn [root]. by rewrite HP.
Qed.

(** ** All states *)

(** The calls; a request that is added is in no group, as the links through it demand. *)
Inductive opt_step : groups → groups → Prop :=
| step_add oc new st st' : r_addr new ∉ r_addr <$> reqs (root st) → __pmOptFetchAdd oc new st = Ok st' → opt_step st st'
| step_del oc a st : opt_step st (__pmOptFetchDel oc a st).2
| step_redo oc rnd st st' : __pmOptFetchRedo oc rnd st = Ok st' → opt_step st st'.
Lemma redo_groups oc rnd st : ok_groups st → ∃ st', __pmOptFetchRedo oc rnd st = Ok st' ∧ ok_groups st'.
Proof.
  intros Hok. unfold __pmOptFetchRedo. destruct (rev (reqs (root st))) as [|r l] eqn:E; [eexists; split; [done | apply ok_empty] |].
  rewrite <- E. set (k := Z.to_nat _). clearbody k.
  destruct (add_all_ok oc (cut k (rev (reqs (root st)))) (mkGroups [] (brk st)) (ok_empty _)) as (st' & -> & Hok' & _); [| by exists st'].
  unfold reqs at 2. cbn [root]. rewrite app_nil_r, cut_perm, <- Permutation_rev. apply Hok.
Qed.

Lemma step_ok st st' : opt_step st st' → ok_groups st → ok_groups st'.
Proof.
  intros [oc new st0 st1 Hnew E | oc a st0 | oc rnd st0 st1 E] Hok.
  - destruct (add_groups_ok oc new st0 Hok Hnew) as (st2 & E2 & ? & _). congruence.
  - by apply del_groups.
  - destruct (redo_groups oc rnd st0 Hok) as (st2 & E2 & ?). congruence.
Qed.
Lemma steps_ok st st' : rtc opt_step st st' → ok_groups st → ok_groups st'.
Proof. induction 1 as [|st1 st2 st3 Hs _ IH]; [done |]. intros Hok. by apply IH, (step_ok st1). Qed.

(** In every state that the calls lead to, whatever the costs are and whenever they
    are changed: a group has at least one domain, a domain at least one metric and a
    metric at least one request, all under their own names and no name twice; the
    instances of a metric and of a domain are the union of those the requests want, in
    order and without repetition, or all of them; the metrics of a group are in
    descending order without repetition; every request is in one group and points back
    to it. *)
Lemma optfetch_reachable_inv n st : rtc opt_step (mkGroups [] n) st → ok_groups st.
Proof. intros Hs. eapply steps_ok; [exact Hs | apply ok_empty]. Qed.

(** ** What a group costs *)

(** The instances that are wanted; [None] for all. *)
Definition wanted (rqs : list optreq) : option (gset Z) :=
  if decide ([] ∈ insts rqs) then None else Some (⋃ (list_to_set <$> insts rqs)).
(** The instances that are fetched for a domain but not wanted for a metric; when all of
    them are fetched their number is the expected one. *)
Definition unwanted (oc : optcost_t) (i p : option (gset Z)) : Z :=
  match i, p with
  | None, Some s => if Z.of_nat (size s) <? c_indomsize oc then c_indomsize oc - Z.of_nat (size s) else 0
  | Some t, Some s => Z.of_nat (size (t ∖ s))
  | _, None => 0
  end.
Definition sum (l : list Z) : Z := foldr Z.add 0 l.
Lemma first_cost_set c l : ∀ before,
  first_cost c before l = c * Z.of_nat (size (list_to_set l ∖ list_to_set before : gset Z)).
Proof.
  induction l as [|d l IH]; intros before; cbn [first_cost].
  { replace (list_to_set [] ∖ list_to_set before : gset Z) with (∅ : gset Z) by set_solver. rewrite size_empty. lia. }
  rewrite IH. case_bool_decide as Hd.
  - replace (list_to_set (d :: l) ∖ list_to_set before : gset Z) with (list_to_set l ∖ list_to_set (before ++ [d]) : gset Z); [lia |].
    apply set_eq. intros x. rewrite !elem_of_difference, !elem_of_list_to_set, elem_of_cons, elem_of_app, list_elem_of_singleton. naive_solver.
  - replace (list_to_set (d :: l) ∖ list_to_set before : gset Z) with ({[d]} ∪ (list_to_set l ∖ list_to_set (before ++ [d]) : gset Z)).
    + rewrite (size_union {[d]}), size_singleton; [lia |]. set_solver.
    + apply set_eq. intros x. rewrite elem_of_union, elem_of_singleton, !elem_of_difference, !elem_of_list_to_set, elem_of_cons, elem_of_app, list_elem_of_singleton.
      destruct (decide (x = d)); naive_solver.
Qed.
Lemma miss_sub l : ∀ k, StronglySorted Z.lt l → StronglySorted Z.lt k → (∀ x, x ∈ k → x ∈ l) → miss_loop l k = zlen l - zlen k.
Proof.
  induction l as [|a l IH]; intros k Hl Hk Hs.
  { destruct k as [|b k]; [done |]. exfalso. apply (elem_of_nil b), Hs. by left. }
  apply StronglySorted_inv in Hl as [Hl Ha]. rewrite Forall_forall in Ha.
  destruct k as [|b k]; [simpl; lia |]. pose proof Hk as [Hk' Hb]%StronglySorted_inv. rewrite Forall_forall in Hb. cbn [miss_loop].
  destruct (Z.eqb_spec a b) as [->|Hne].
  - rewrite IH; [simpl; lia | done | done |]. intros x Hx. destruct (proj1 (elem_of_cons l x b) (Hs x ltac:(by right))) as [-> | ?]; [| done].
    specialize (Hb b Hx). lia.
  - assert (b ∈ l) as Hbl by (destruct (proj1 (elem_of_cons l b a) (Hs b ltac:(by left))) as [-> | ?]; done).
    destruct (Z.ltb_spec a b); [| specialize (Ha b Hbl); lia]. rewrite IH; [simpl; lia | done | done |].
    intros x Hx. destruct (proj1 (elem_of_cons l x a) (Hs x Hx)) as [-> | ?]; [| done].
    apply elem_of_cons in Hx as [-> | Hx]; [done |]. specialize (Hb a Hx). lia.
Qed.
(** The union as a set. *)
Lemma union_wanted rqs n l :
  is_union (insts rqs) n l → rqs ≠ [] →
  match wanted rqs with
  | None => n = 0
  | Some s => n = zlen l ∧ n ≠ 0 ∧ StronglySorted Z.lt l ∧ (∀ x, x ∈ l ↔ x ∈ s) ∧ size s = length l
  end.
Proof.
  intros H Hne. unfold wanted. destruct H as [[E _] | [(Hin & -> & _) | (_ & Hno & -> & Hs & Hx)]]; [by destruct rqs | by rewrite decide_True |].
  rewrite decide_False by done.
  assert (∀ x, x ∈ l ↔ x ∈ (⋃ (list_to_set <$> insts rqs) : gset Z)) as Hm.
  { intros x. rewrite Hx, elem_of_union_list. split.
    - intros (j & Hj & Hxj). exists (list_to_set j). split; [by apply list_elem_of_fmap_2 | by apply elem_of_list_to_set].
    - intros (X & (j & -> & Hj)%list_elem_of_fmap & Hxj). exists j. split; [done |]. by apply elem_of_list_to_set in Hxj. }
  split_and!; [done | | done | done |].
  - destruct rqs as [|r rqs]; [done |]. destruct (r_instlist r) as [|i j] eqn:Er; [destruct Hno; rewrite fmap_cons, Er; by left |].
    destruct l; [| simpl; lia]. exfalso. apply (elem_of_nil i), Hx. exists (i :: j). rewrite fmap_cons, Er. split; by left.
  - assert ((⋃ (list_to_set <$> insts rqs) : gset Z) = list_to_set l) as -> by (apply set_eq; intros x; by rewrite <- Hm, elem_of_list_to_set).
    apply size_list_to_set, sorted_nodup, Hs.
Qed.
Lemma missinst_wanted oc idp pmp :
  ok_idp idp → pmp ∈ i_pmp idp →
  missinst oc (i_numinst idp) (i_instlist idp) (p_numinst pmp) (p_instlist pmp) = unwanted oc (wanted (reqs_idp idp)) (wanted (p_rqp pmp)).
Proof.
  intros (_ & _ & Hp & Hu) Hin. rewrite Forall_forall in Hp. destruct (Hp pmp Hin) as (Hne & _ & Hup).
  assert (∀ r, r ∈ p_rqp pmp → r ∈ reqs_idp idp) as Hsub by (intros r Hr; apply list_elem_of_bind; by exists pmp).
  assert (reqs_idp idp ≠ []) as Hne'.
  { destruct (p_rqp pmp) as [|r l]; [done |]. intros E. specialize (Hsub r ltac:(by left)). rewrite E in Hsub. by apply elem_of_nil in Hsub. }
  pose proof (union_wanted _ _ _ Hu Hne') as H1. pose proof (union_wanted _ _ _ Hup Hne) as H2. unfold missinst, unwanted.
  assert (wanted (p_rqp pmp) = None → wanted (reqs_idp idp) = None) as Hnone.
  { unfold wanted. destruct (decide ([] ∈ insts (p_rqp pmp))) as [Hi|]; [| done]. intros _. rewrite decide_True; [done |].
    apply list_elem_of_fmap in Hi as (r & E & Hr). apply list_elem_of_fmap. exists r. split; [done | by apply Hsub]. }
  destruct (wanted (reqs_idp idp)) as [t|] eqn:Et; cycle 1.
  { rewrite H1, Z.eqb_refl. destruct (wanted (p_rqp pmp)) as [s|]; [| by rewrite H2].
    destruct H2 as (-> & Hn & _ & _ & ->). destruct (Z.eqb_spec (zlen (p_instlist pmp)) 0); [lia |]. done. }
  destruct (wanted (p_rqp pmp)) as [s|] eqn:Es; [| by specialize (Hnone eq_refl)]. clear Hnone.
  destruct H1 as (-> & Hn & Hs & Hx & Hsz), H2 as (_ & _ & Hs2 & Hx2 & Hsz2). destruct (Z.eqb_spec (zlen (i_instlist idp)) 0); [lia |].
  assert (s ⊆ t) as Hst.
  { unfold wanted in Es, Et. destruct (decide _); [done |]. destruct (decide _); [done |]. injection Es as <-. injection Et as <-.
    intros x. rewrite !elem_of_union_list. intros (X & (j & -> & (r & -> & Hr)%list_elem_of_fmap)%list_elem_of_fmap & Hxj).
    eexists. split; [apply list_elem_of_fmap_2, list_elem_of_fmap_2, Hsub, Hr | done]. }
  rewrite miss_sub; [| done | done | intros x Hxx; apply Hx, Hst; by apply Hx2].
  rewrite size_difference by done. assert (size s <= size t)%nat by by apply subseteq_size. lia.
Qed.

(** The cost of a group, in every state that the calls lead to: [c_pmid] for each
    agent that has one of the metrics, [c_indom] for each agent that has one of the
    domains, and [c_xtrainst] for each instance that is fetched of a metric because
    another metric over the same domain wants it; modulo the width of an int. *)
Lemma cost_formula n st oc fp :
  rtc opt_step (mkGroups [] n) st → fp ∈ root st →
  optCost oc fp = s32
    (c_pmid oc * Z.of_nat (size (list_to_set (pmid_domain <$> pmids_of fp) : gset Z))
     + c_indom oc * Z.of_nat (size (list_to_set (pmInDom_domain ∘ i_indom <$> f_idp fp) : gset Z))
     + c_xtrainst oc * sum (idp ← f_idp fp; pmp ← i_pmp idp; [unwanted oc (wanted (reqs_idp idp)) (wanted (p_rqp pmp))])).
Proof.
  intros Hs Hin. pose proof (steps_ok _ _ Hs (ok_empty n)) as [Hf _ _ _]. rewrite Forall_forall in Hf. destruct (Hf fp Hin) as [_ Hb].
  destruct (ob_idps _ Hb) as [Hi _]. unfold optCost. f_equal. rewrite !first_cost_set.
  assert (∀ X : gset Z, X ∖ list_to_set [] = X) as E by set_solver. rewrite !E. f_equal. clear -Hi.
  assert (∀ a b, sum (a ++ b) = sum a + sum b) as Happ by (intros a b; unfold sum; induction a as [|x a IH]; simpl; lia).
  induction Hi as [|idp idps Hidp _ IH]; [simpl; lia |]. rewrite bind_cons, Happ. cbn [foldr]. rewrite IH.
  enough (xtra_cost oc idp = c_xtrainst oc * sum (pmp ← i_pmp idp; [unwanted oc (wanted (reqs_idp idp)) (wanted (p_rqp pmp))])) by lia.
  unfold xtra_cost. assert (∀ pmp, pmp ∈ i_pmp idp → missinst oc (i_numinst idp) (i_instlist idp) (p_numinst pmp) (p_instlist pmp)
    = unwanted oc (wanted (reqs_idp idp)) (wanted (p_rqp pmp))) as Hm by (intros pmp; by apply missinst_wanted).
  revert Hm. generalize (i_pmp idp). intros l. induction l as [|p l IHl]; intros Hm; [simpl; lia |].
  rewrite bind_cons, Happ. cbn [foldr]. rewrite Hm by by left. rewrite IHl by (intros q Hq; apply Hm; by right). simpl. lia.
Qed.

(** ** Examples *)

Definition demo_dom : Z := pmInDom_build 60 1.
Definition demo_reqs : list optreq :=
  [mkReq 1 None demo_dom (pmid_build 60 0 1) [5; 2; 5]; mkReq 2 None demo_dom (pmid_build 60 0 2) [2];
   mkReq 3 None (pmInDom_build 29 1) (pmid_build 29 0 9) []].
Definition demo_new : optreq := mkReq 4 None demo_dom (pmid_build 60 0 1) [7].
Definition demo_after (l : list optreq) : groups := match add_all optcost l (mkGroups [] 0) with Ok st => st | _ => mkGroups [] 0 end.
Definition demo_groups : groups := demo_after demo_reqs.
Lemma add_all_steps oc l : ∀ st st', ok_groups st → NoDup (r_addr <$> (l ++ reqs (root st))) → add_all oc l st = Ok st' → rtc opt_step st st'.
Proof.
  induction l as [|r l IH]; intros st st' Hok Hn E; cbn [add_all] in E; [injection E as <-; done |].
  simpl in Hn. apply NoDup_cons in Hn as [Hr Hn].
  assert (r_addr r ∉ r_addr <$> reqs (root st)) as Hnew by (intros Hin; apply Hr; rewrite fmap_app; apply elem_of_app; by right).
  destruct (add_groups_ok oc r st Hok Hnew) as (st1 & E1 & Hok1 & Hreq). rewrite E1 in E. cbn [mbind res_bind] in E.
  eapply rtc_l; [by eapply step_add |]. apply IH; [done | | done].
  destruct Hreq as [(a & Ha) | [_ ->]]; [| done]. rewrite fmap_app, Ha, fmap_cons. simpl.
  rewrite <- Permutation_middle. constructor; by rewrite <- fmap_app.
Qed.
Lemma demo_groups_steps : rtc opt_step (mkGroups [] 0) demo_groups.
Proof.
  apply (add_all_steps optcost demo_reqs); [apply ok_empty | apply (bool_decide_unpack _); vm_compute; exact I | vm_compute; reflexivity].
Qed.
Lemma demo_groups_ok : ok_groups demo_groups.
Proof. eapply steps_ok; [apply demo_groups_steps | apply ok_empty]. Qed.
(** By the default costs the three requests share a group. *)
Lemma demo_groups_lists :
  (λ fp, (f_pmidlist fp, (λ idp, i_instlist idp) <$> f_idp fp, r_addr <$> reqs_fp fp)) <$> root demo_groups
  = [([pmid_build 60 0 2; pmid_build 60 0 1; pmid_build 29 0 9], [[]; [2; 5]], [3; 2; 1]%nat)].
Proof. vm_compute. reflexivity. Qed.

Lemma add_cheapest_witness :
  ∃ st' g, __pmOptFetchAdd optcost demo_new demo_groups = Ok st' ∧ reqs (root st') ≡ₚ back_ptr (f_addr g) demo_new :: reqs (root demo_groups).
Proof.
  destruct (add_cheapest optcost demo_new demo_groups demo_groups_ok) as (st' & g & E & _ & _ & _ & Hr).
  - apply (bool_decide_unpack _). vm_compute. exact I.
  - vm_compute. discriminate.
  - exists st', g. split; [exact E | exact Hr].
Defined.
Lemma del_removes_witness : (__pmOptFetchDel optcost 2 demo_groups).1 = 0 ∧ ok_groups (__pmOptFetchDel optcost 2 demo_groups).2.
Proof.
  split; [vm_compute; reflexivity |].
  destruct (__pmOptFetchDel optcost 2 demo_groups) as [sts st'] eqn:E.
  exact (proj1 (del_removes optcost 2 demo_groups sts st' demo_groups_ok E)).
Defined.
Lemma redo_keeps_requests_witness :
  ∃ st', __pmOptFetchRedo optcost 4 demo_groups = Ok st' ∧ request <$> reqs (root st') ≡ₚ request <$> reqs (root demo_groups).
Proof.
  destruct (redo_keeps_requests optcost 4 demo_groups demo_groups_ok) as (st' & E & _ & Hr); [vm_compute; discriminate |].
  exists st'. split; [exact E | exact Hr].
Defined.
Lemma optfetch_reachable_inv_witness : length (reqs (root demo_groups)) = 3%nat ∧ ok_groups demo_groups.
Proof. split; [vm_compute; reflexivity |]. apply (optfetch_reachable_inv 0), demo_groups_steps. Defined.
Lemma cost_formula_witness :
  ∃ fp, fp ∈ root demo_groups ∧ optCost optcost fp = 12
    ∧ s32 (4 * 2 + 1 * 2 + 2 * sum (idp ← f_idp fp; pmp ← i_pmp idp; [unwanted optcost (wanted (reqs_idp idp)) (wanted (p_rqp pmp))])) = optCost optcost fp.
Proof.
  destruct (root demo_groups) as [|fp l] eqn:E; [vm_compute in E; discriminate |]. exists fp.
  assert (fp ∈ root demo_groups) as Hin by (rewrite E; left). split; [left |].
  assert (optCost optcost fp = 12) as Hc by (vm_compute in E; injection E as <- _; vm_compute; reflexivity).
  split; [exact Hc |]. rewrite (cost_formula 0 demo_groups optcost fp demo_groups_steps Hin).
  vm_compute in E. injection E as <- _. vm_compute. reflexivity.
Defined.
(** The comment says that the element at the cut becomes the head; it becomes the last
    one. *)
Lemma cut_head : r_addr <$> cut 1 demo_reqs = [3; 1; 2]%nat.
Proof. vm_compute. reflexivity. Qed.
(** When a group of its own has the price that stands for infinity, a request may be put
    nowhere. *)
Lemma infinite_price_drops : root (match __pmOptFetchAdd (mkCost 4 1 (INT_MAX - 5) 10 2 0) demo_new (mkGroups [] 0) with Ok st => st | _ => demo_groups end) = [].
Proof. vm_compute. reflexivity. Qed.
