(* ===== verification/PmnsTree.v ===== *)
(** The tree of the performance metrics name space, libpcp/src/pmns.c: its nodes, the hash
    table from metric identifiers to nodes, adding names, and the marks that hide them.

    A node is named by an identifier, its address: the hash chains of a tree are lists of
    identifiers.  The [first] and [next] pointers are the list of children, the [parent]
    pointer is the place in the tree, which [__pmFixPMNSHashTab] writes into the nodes.
    A name is cut at its dots into components, as every routine does that walks it. *)
From S2P Require Import Prelude Memory Text Types.

Definition PM_ERR_PMNS : Z := - PM_ERR_BASE - 1.
Definition PM_ERR_NAME : Z := - PM_ERR_BASE - 12.
Definition PM_ERR_PMID : Z := - PM_ERR_BASE - 13.
Definition ENOMEM : Z := 12.
Definition DYNAMIC_PMID : Z := 511.
Definition UNKNOWN_MARK_STATE : Z := -1.
Definition PMID_MASK : Z := 0x7fffffff.
Definition MARK_BIT : Z := 0x80000000.

Module Pmns.

(** ** Names *)

Abbreviation str := (list byte).
Definition dot : byte := Byte.x2e.
(** The pieces of a name between its dots; there is always one. *)
Fixpoint components (name : str) : list str :=
  match name with
  | [] => [[]]
  | c :: name =>
      if bool_decide (c = dot) then [] :: components name
      else match components name with p :: ps => (c :: p) :: ps | [] => [[c]] end
  end.
Fixpoint join (path : list str) : str :=
  match path with
  | [] => []
  | [p] => p
  | p :: path => p ++ dot :: join path
  end.

(** ** Nodes and trees *)

Inductive node : Type := Node (nid : nat) (name : str) (pmid : Z) (first : list node).
Definition nid (n : node) : nat := let '(Node i _ _ _) := n in i.
Definition name (n : node) : str := let '(Node _ s _ _) := n in s.
Definition pmid (n : node) : Z := let '(Node _ _ p _) := n in p.
Definition first (n : node) : list node := let '(Node _ _ _ l) := n in l.
Definition set_first (l : list node) (n : node) : node := Node (nid n) (name n) (pmid n) l.
Definition set_pmid (p : Z) (n : node) : node := Node (nid n) (name n) p (first n).

(** [next_id] is the identifier of the next node that is allocated. *)
Record tree := mkTree {
  root : node; htab : list (list nat); htabsize : Z; contiguous : bool; mark_state : Z; next_id : nat }.
Definition set_root (r : node) (t : tree) : tree :=
  mkTree r (htab t) (htabsize t) (contiguous t) (mark_state t) (next_id t).
Definition set_htab (h : list (list nat)) (size : Z) (t : tree) : tree :=
  mkTree (root t) h size (contiguous t) (mark_state t) (next_id t).
Definition set_mark_state (m : Z) (t : tree) : tree :=
  mkTree (root t) (htab t) (htabsize t) (contiguous t) m (next_id t).

(** The base of a subtree whose names an agent knows. *)
Definition dynamic (p : Z) : bool := (pmid_domain p =? DYNAMIC_PMID) && (pmid_item p =? 0).
Definition marked (p : Z) : bool := negb (Z.land p MARK_BIT =? 0).

(** All nodes below a node, in the order of a depth-first walk. *)
Fixpoint below (n : node) : list node :=
  let '(Node _ _ _ l) := n in flat_map (λ k, k :: below k) l.
Definition nodes (n : node) : list node := n :: below n.
Definition ids (n : node) : list nat := nid <$> nodes n.
(** The node at an address. *)
Definition node_at (r : node) (id : nat) : option node := find (λ n, (nid n =? id)%nat) (nodes r).

(** ** Looking up a name *)

Fixpoint locate (path : list str) (r : node) : option node :=
  match path with
  | [] => None
  | c :: tail =>
      np ← find (λ np, bool_decide (name np = c) && negb (marked (pmid np))) (first r);
      match tail with
      | [] => Some np
      | _ => locate tail np
      end
  end.

(** ** The name of a node, from the node up to the root *)

Fixpoint path_to (id : nat) (r : node) : option (list str) :=
  let '(Node i _ _ l) := r in
  if (i =? id)%nat then Some []
  else (fix go (l : list node) : option (list str) :=
          match l with
          | [] => None
          | k :: l => match path_to id k with Some p => Some (name k :: p) | None => go l end
          end) l.
Definition backname (r : node) (id : nat) : option str := join <$> path_to id r.

(** ** New trees and new names *)

Definition new_root (id : nat) : node := Node id [Byte.x72; Byte.x6f; Byte.x6f; Byte.x74] PM_ID_NULL [].
Definition __pmNewPMNS : tree := mkTree (new_root 0) [] 0 false UNKNOWN_MARK_STATE 1.

(** The nodes made for the components from the first unknown one on. *)
Fixpoint new_nodes (id : nat) (p : Z) (c : str) (tail : list str) : node :=
  match tail with
  | [] => Node id c (u32 p) []
  | c' :: tail => Node id c PM_ID_NULL [new_nodes (S id) p c' tail]
  end.
Fixpoint AddPMNSNode (id : nat) (r : node) (p : Z) (path : list str) : Z * node :=
  match path with
  | [] => (0, r)
  | c :: tail =>
      match split_find (λ np, bool_decide (name np = c)) (first r) with
      | None => (0, set_first (new_nodes id p c tail :: first r) r)
      | Some (l1, np, l2) =>
          match tail with
          | [] => (if pmid np =? u32 p then 0 else PM_ERR_PMID, r)
          | _ => let '(sts, np') := AddPMNSNode id np p tail in (sts, set_first (l1 ++ np' :: l2) r)
          end
      end
  end.
(** [None]: the process exits. *)
Definition __pmAddPMNSNode (t : tree) (p : Z) (nm : str) : option (Z * tree) :=
  if contiguous t then None
  else
    let path := components nm in
    let '(sts, r) := AddPMNSNode (next_id t) (root t) p path in
    Some (sts, mkTree r (htab t) (htabsize t) (contiguous t) (mark_state t) (next_id t + length path)).

(** ** Marks *)

Definition mark (bit : bool) (p : Z) : Z := if bit then Z.lor p MARK_BIT else Z.land p PMID_MASK.
(** Every node from the one at [id] up to the root. *)
Fixpoint mark_up (bit : bool) (id : nat) (r : node) : node :=
  let '(Node i s p l) := r in
  if bool_decide (id ∈ ids r) then Node i s (mark bit p) (mark_up bit id <$> l) else r.
Definition bit_state (bit : bool) : Z := if bit then 1 else 0.
Definition mark_all (bit : bool) (t : tree) : tree :=
  if mark_state t =? bit_state bit then t
  else set_mark_state (bit_state bit)
         (set_root (foldl (λ r id, mark_up bit id r) (root t) (concat (htab t))) t).
Definition bucket (size p : Z) : nat := Z.to_nat (p mod size).
Definition chain (t : tree) (p : Z) : list nat := htab t !!! bucket (htabsize t) p.
Definition pmid_at (r : node) (id : nat) : Z := from_option pmid PM_ID_NULL (node_at r id).
Definition mark_one (p : Z) (bit : bool) (t : tree) : tree :=
  if mark_state t =? bit_state bit then t
  else
    let t := set_mark_state UNKNOWN_MARK_STATE t in
    match find (λ id, Z.land (pmid_at (root t) id) PMID_MASK =? Z.land p PMID_MASK) (chain t p) with
    | Some id => set_root (mark_up bit id (root t)) t
    | None => t
    end.

(** ** The hash table *)

(** A node joins its chain, unless its identifier is taken. *)
Definition hash_node (r : node) (dupok : bool) (size : Z) (np : node) (h : list (list nat)) : Z * list (list nat) :=
  if pmid np =? PM_ID_NULL then (0, h)
  else
    let i := bucket size (pmid np) in
    if existsb (λ x, (pmid_at r x =? pmid np) && negb dupok && negb (dynamic (pmid np))) (h !!! i)
    then (PM_ERR_PMNS, h)
    else (0, <[i := nid np :: h !!! i]> h).
Fixpoint backlink (r : node) (dupok : bool) (size : Z) (n : node) (h : list (list nat)) : Z * list (list nat) :=
  let '(Node _ _ _ l) := n in
  (fix loop (l : list node) (h : list (list nat)) : Z * list (list nat) :=
     match l with
     | [] => (0, h)
     | np :: l =>
         let '(sts, h) := hash_node r dupok size np h in
         if negb (sts =? 0) then (sts, h)
         else
           let '(sts, h) := backlink r dupok size np h in
           if negb (sts =? 0) then (sts, h) else loop l h
     end) l h.
Definition hash_size (numpmid : Z) : Z :=
  let n := Z.quot numpmid 5 in
  let n := if Z.rem n 2 =? 0 then n + 1 else n in
  let n := if Z.rem n 3 =? 0 then n + 2 else n in
  if Z.rem n 5 =? 0 then n + 2 else n.
Definition __pmFixPMNSHashTab (t : tree) (numpmid : Z) (dupok : bool) : Z * tree :=
  let size := hash_size numpmid in
  if size <? 0 then (- ENOMEM, set_htab [] size t)
  else
    let '(sts, h) := backlink (root t) dupok size (root t) (replicate (Z.to_nat size) []) in
    let t := set_htab h size t in
    if sts <? 0 then (sts, t) else (0, mark_all false t).

(** ** What a tree says *)

(** Every node below [r] with its path; with all nodes on the path visible. *)
Fixpoint walk (r : node) : list (list str * node) :=
  let '(Node _ _ _ l) := r in
  flat_map (λ k, ([name k], k) :: ((λ '(p, x), (name k :: p, x)) <$> walk k)) l.
Fixpoint visible (r : node) : list (list str * node) :=
  let '(Node _ _ _ l) := r in
  flat_map (λ k, if marked (pmid k) then []
                 else ([name k], k) :: ((λ '(p, x), (name k :: p, x)) <$> visible k)) l.
(** Siblings have different names. *)
Definition uniq (r : node) : Prop := Forall (λ n, NoDup (name <$> first n)) (nodes r).
Definition plain_names (r : node) : Prop := Forall (λ n, dot ∉ name n) (nodes r).
(** The node with a path, seen or not, and the identifier of the metric it names. *)
Fixpoint get (path : list str) (r : node) : option node :=
  match path with
  | [] => None
  | c :: tail =>
      np ← find (λ np, bool_decide (name np = c)) (first r);
      match tail with [] => Some np | _ => get tail np end
  end.
Definition named (r : node) (path : list str) : option Z :=
  n ← get path r; if pmid n =? PM_ID_NULL then None else Some (pmid n).
(** A node that stands for a metric, marked or not. *)
Definition metric (n : node) : bool := negb (Z.land (pmid n) PMID_MASK =? PMID_MASK).
Definition metrics (r : node) : list node := filter (λ n, metric n = true) (below r).
(** The tree with other identifiers of metrics. *)
Fixpoint remark (f : node → Z) (r : node) : node :=
  let '(Node i s p l) := r in Node i s (f r) (remark f <$> l).

(** ** Induction *)

Lemma node_ind' (P : node → Prop) : (∀ i s p l, Forall P l → P (Node i s p l)) → ∀ n, P n.
Proof.
  intros H. fix IH 1. intros [i s p l]. apply H.
  induction l as [|k l IHl]; constructor; [apply IH | exact IHl].
Qed.
Lemma below_eq n : below n = flat_map nodes (first n).
Proof. by destruct n. Qed.
Lemma walk_eq n : walk n = flat_map (λ k, ([name k], k) :: ((λ '(p, x), (name k :: p, x)) <$> walk k)) (first n).
Proof. by destruct n. Qed.
Lemma visible_eq n : visible n =
  flat_map (λ k, if marked (pmid k) then [] else ([name k], k) :: ((λ '(p, x), (name k :: p, x)) <$> visible k)) (first n).
Proof. by destruct n. Qed.
Lemma remark_eq f n : remark f n = Node (nid n) (name n) (f n) (remark f <$> first n).
Proof. by destruct n. Qed.
Lemma elem_of_flat_map {A B} (f : A → list B) l y : y ∈ flat_map f l ↔ ∃ x, x ∈ l ∧ y ∈ f x.
Proof. rewrite !list_elem_of_In, in_flat_map. by setoid_rewrite list_elem_of_In. Qed.
Lemma elem_of_nodes x n : x ∈ nodes n ↔ x = n ∨ ∃ k, k ∈ first n ∧ x ∈ nodes k.
Proof. unfold nodes. rewrite elem_of_cons, below_eq, elem_of_flat_map. done. Qed.
Lemma nodes_self n : n ∈ nodes n.
Proof. by left. Qed.
Lemma nodes_trans x n m : x ∈ nodes n → n ∈ nodes m → x ∈ nodes m.
Proof.
  revert x n. induction m as [i s p l IH] using node_ind'. intros x n Hx Hn.
  apply elem_of_nodes in Hn as [-> | (k & Hk & Hn)]; [done |].
  apply elem_of_nodes. right. exists k. split; [done |]. rewrite Forall_forall in IH. by eapply IH.
Qed.
Lemma child_nodes k n : k ∈ first n → k ∈ nodes n.
Proof. intros. apply elem_of_nodes. right. exists k. split; [done | apply nodes_self]. Qed.
Lemma walk_below r : (walk r).*2 = below r.
Proof.
  induction r as [i s p l IH] using node_ind'. cbn [walk below].
  induction IH as [|k l Hk Hl IHl]; [done |]. cbn [flat_map]. rewrite fmap_app, fmap_cons. cbn [snd].
  rewrite IHl, <- Hk. f_equal. f_equal. rewrite <- list_fmap_compose. by apply list_fmap_ext; intros ? [].
Qed.
Lemma elem_of_walk p x r :
  (p, x) ∈ walk r ↔ ∃ k, k ∈ first r ∧ (p = [name k] ∧ x = k ∨ ∃ q, p = name k :: q ∧ (q, x) ∈ walk k).
Proof.
  rewrite walk_eq, elem_of_flat_map. split.
  - intros (k & Hk & [[= -> ->] | Hx]%elem_of_cons); [by eauto |].
    apply list_elem_of_fmap in Hx as ([q y] & [= -> ->] & Hy). eauto 6.
  - intros (k & Hk & [[-> ->] | (q & -> & Hq)]); exists k; (split; [done |]); [by left |]. right.
    apply list_elem_of_fmap. by exists (q, x).
Qed.
Lemma elem_of_visible p x r :
  (p, x) ∈ visible r ↔
  ∃ k, k ∈ first r ∧ marked (pmid k) = false ∧ (p = [name k] ∧ x = k ∨ ∃ q, p = name k :: q ∧ (q, x) ∈ visible k).
Proof.
  rewrite visible_eq, elem_of_flat_map. split.
  - intros (k & Hk & Hx). destruct (marked (pmid k)) eqn:Em; [by apply elem_of_nil in Hx |].
    apply elem_of_cons in Hx as [[= -> ->] | Hx]; [by eauto 6 |].
    apply list_elem_of_fmap in Hx as ([q y] & [= -> ->] & Hy). eauto 8.
  - intros (k & Hk & Em & [[-> ->] | (q & -> & Hq)]); exists k; (split; [done |]); rewrite Em; [by left |]. right.
    apply list_elem_of_fmap. by exists (q, x).
Qed.
Lemma walk_nodes p x r : (p, x) ∈ walk r → x ∈ below r.
Proof. intros H. rewrite <- walk_below. apply list_elem_of_fmap. by exists (p, x). Qed.
Lemma below_walk x r : x ∈ below r → ∃ p, (p, x) ∈ walk r.
Proof. rewrite <- walk_below, list_elem_of_fmap. intros ([p y] & -> & H). by exists p. Qed.
Lemma below_nodes x r : x ∈ below r → x ∈ nodes r.
Proof. by right. Qed.
Lemma walk_nonempty p x r : (p, x) ∈ walk r → p ≠ [].
Proof. intros (k & _ & [[-> _] | (q & -> & _)])%elem_of_walk; done. Qed.
Lemma visible_walk p x r : (p, x) ∈ visible r → (p, x) ∈ walk r ∧ marked (pmid x) = false.
Proof.
  revert p. induction r as [i s m l IH] using node_ind'. intros p (k & Hk & Em & [[-> ->] | (q & -> & Hq)])%elem_of_visible.
  - split; [| done]. apply elem_of_walk. eauto.
  - rewrite Forall_forall in IH. apply IH in Hq as [Hq ?]; [| done]. split; [| done]. apply elem_of_walk. eauto 6.
Qed.

(** ** Looking up *)

Lemma find_Some {A} (P : A → bool) l x : List.find P l = Some x → x ∈ l ∧ P x = true.
Proof. intros H. rewrite list_elem_of_In. by apply find_some. Qed.
Lemma find_name l k (P : node → bool) :
  NoDup (name <$> l) → k ∈ l → P k = true → List.find (λ n, bool_decide (name n = name k) && P n) l = Some k.
Proof.
  induction l as [|n l IH]; [by intros _ H%elem_of_nil |]. rewrite fmap_cons, NoDup_cons. intros [Hn Hnd] Hk HP. simpl.
  apply elem_of_cons in Hk as [<- | Hk]; [by rewrite bool_decide_eq_true_2, HP |].
  case_bool_decide as E; [| by apply IH]. exfalso. apply Hn. rewrite E. by apply list_elem_of_fmap_2.
Qed.
Lemma find_andb_true {A} (P : A → bool) l : List.find (λ x, P x && true) l = List.find P l.
Proof. induction l as [|x l IH]; [done |]. simpl. rewrite andb_true_r, IH. done. Qed.
Lemma uniq_first r k : uniq r → k ∈ first r → uniq k.
Proof.
  unfold uniq. rewrite !Forall_forall. intros H Hk n Hn. apply H. eapply nodes_trans; [done | by apply child_nodes].
Qed.
Lemma uniq_names r : uniq r → NoDup (name <$> first r).
Proof. unfold uniq. rewrite Forall_forall. intros H. apply H, nodes_self. Qed.

Lemma locate_visible p r x : locate p r = Some x → (p, x) ∈ visible r.
Proof.
  revert r. induction p as [|c p IH]; intros r; [done |]. cbn [locate].
  destruct (List.find _ _) as [np|] eqn:Ef; [| done]. cbn [mbind option_bind].
  apply find_Some in Ef as [Hin [Hn%bool_decide_eq_true_1 Hm%negb_true_iff]%andb_true_iff].
  intros E. apply elem_of_visible. exists np. split_and!; [done .. |]. rewrite <- Hn in *.
  destruct p as [|c' p]; [left; by injection E as -> | right; exists (c' :: p); split; [done |]; by apply IH].
Qed.
Lemma visible_locate p r x : uniq r → (p, x) ∈ visible r → locate p r = Some x.
Proof.
  revert r. induction p as [|c p IH]; intros r Hu; [by intros ?%visible_walk%proj1%walk_nonempty |].
  intros (k & Hk & Em & H)%elem_of_visible. cbn [locate].
  assert (c = name k) as -> by (by destruct H as [[[= ->] _] | (q & [= -> _] & _)]).
  rewrite (find_name _ k (λ n, negb (marked (pmid n)))); [| by apply uniq_names | done | by rewrite Em].
  cbn [mbind option_bind]. destruct H as [[[= ->] ->] | (q & [= ->] & Hq)]; [done |].
  destruct q as [|c' q]; [by apply visible_walk, proj1, walk_nonempty in Hq | apply IH; [by eapply uniq_first | done]].
Qed.
Lemma get_walk p r x : get p r = Some x → (p, x) ∈ walk r.
Proof.
  revert r. induction p as [|c p IH]; intros r; [done |]. cbn [get].
  destruct (List.find _ _) as [np|] eqn:Ef; [| done]. cbn [mbind option_bind].
  apply find_Some in Ef as [Hin Hn%bool_decide_eq_true_1].
  intros E. apply elem_of_walk. exists np. split_and!; [done .. |]. rewrite <- Hn in *.
  destruct p as [|c' p]; [left; by injection E as -> | right; exists (c' :: p); split; [done |]; by apply IH].
Qed.
Lemma walk_get p r x : uniq r → (p, x) ∈ walk r → get p r = Some x.
Proof.
  revert r. induction p as [|c p IH]; intros r Hu; [by intros ?%walk_nonempty |].
  intros (k & Hk & H)%elem_of_walk. cbn [get].
  assert (c = name k) as -> by (by destruct H as [[[= ->] _] | (q & [= -> _] & _)]).
  rewrite <- find_andb_true, (find_name _ k (λ _, true)); [| by apply uniq_names | done ..].
  cbn [mbind option_bind]. destruct H as [[[= ->] ->] | (q & [= ->] & Hq)]; [done |].
  destruct q as [|c' q]; [by apply walk_nonempty in Hq | apply IH; [by eapply uniq_first | done]].
Qed.

Lemma walk_NoDup r : uniq r → NoDup (walk r).*1.
Proof.
  induction r as [i s p l IH] using node_ind'. intros Hu. rewrite walk_eq. cbn [first].
  pose proof (uniq_names _ Hu) as Hn. cbn [first] in Hn.
  assert (∀ k, k ∈ l → uniq k) as Hk by (intros k Hk; by apply (uniq_first (Node i s p l))). clear Hu.
  induction IH as [|k l Hwk _ IHl]; [apply NoDup_nil_2 |]. cbn [flat_map]. rewrite fmap_app, fmap_cons. cbn [fst].
  rewrite fmap_cons in Hn. apply NoDup_cons in Hn as [Hnk Hn].
  assert (((λ '(p, x), (name k :: p, x)) <$> walk k).*1 = cons (name k) <$> (walk k).*1) as ->.
  { rewrite <- !list_fmap_compose. by apply list_fmap_ext; intros ? [? ?]. }
  apply NoDup_app. split_and!.
  - apply NoDup_cons. split.
    + intros (q & [= E] & Hq)%list_elem_of_fmap. apply list_elem_of_fmap in Hq as ([q2 y] & E2 & Hq). apply walk_nonempty in Hq. by rewrite <- E in E2.
    + apply NoDup_fmap_2; [by intros ? ? [= ->] |]. apply Hwk, Hk. by left.
  - intros q Hq Hq'. apply list_elem_of_fmap in Hq' as ([q' y] & -> & (k' & Hk' & Hw)%elem_of_flat_map).
    assert (∃ t, q' = name k :: t) as [t ->] by (apply elem_of_cons in Hq as [E | (t & E & _)%list_elem_of_fmap]; eauto).
    apply Hnk. apply elem_of_cons in Hw as [[= E _ _] | ([q2 y2] & [= E _ _] & _)%list_elem_of_fmap]; rewrite E; by apply list_elem_of_fmap_2.
  - apply IHl; [done |]. intros k' Hk'. apply Hk. by right.
Qed.

(** ** Identifiers *)

Lemma NoDup_same {A B} (f : A → B) l x y : NoDup (f <$> l) → x ∈ l → y ∈ l → f x = f y → x = y.
Proof.
  induction l as [|a l IH]; [by intros _ H%elem_of_nil |]. rewrite fmap_cons, NoDup_cons. intros [Ha Hnd].
  intros [-> | Hx]%elem_of_cons [-> | Hy]%elem_of_cons E; [done | | | by apply IH].
  - destruct Ha. rewrite E. by apply list_elem_of_fmap_2.
  - destruct Ha. rewrite <- E. by apply list_elem_of_fmap_2.
Qed.
Lemma node_at_Some r id x : node_at r id = Some x → x ∈ nodes r ∧ nid x = id.
Proof. by intros [Hx E%Nat.eqb_eq]%find_Some. Qed.
Lemma node_at_in r x : NoDup (ids r) → x ∈ nodes r → node_at r (nid x) = Some x.
Proof.
  intros Hnd Hx. unfold node_at. destruct (List.find _ _) as [y|] eqn:E.
  - apply find_Some in E as [Hy E%Nat.eqb_eq]. f_equal. by eapply NoDup_same.
  - apply list_elem_of_In in Hx. eapply find_none in E; [| exact Hx]. by rewrite Nat.eqb_refl in E.
Qed.
Lemma pmid_at_in r x : NoDup (ids r) → x ∈ nodes r → pmid_at r (nid x) = pmid x.
Proof. intros. unfold pmid_at. by rewrite node_at_in. Qed.
Lemma ids_eq n : ids n = nid n :: flat_map ids (first n).
Proof.
  unfold ids, nodes. rewrite fmap_cons, below_eq. f_equal. induction (first n) as [|k l IH]; [done |].
  cbn [flat_map]. rewrite fmap_app. f_equal. exact IH.
Qed.
Lemma elem_of_ids id n : id ∈ ids n ↔ ∃ x, id = nid x ∧ x ∈ nodes n.
Proof. apply list_elem_of_fmap. Qed.
Lemma NoDup_ids_child r k : NoDup (ids r) → k ∈ first r → NoDup (ids k).
Proof.
  rewrite ids_eq, NoDup_cons. intros [_ H] Hk. induction (first r) as [|k' l IH]; [by apply elem_of_nil in Hk |].
  cbn [flat_map] in H. apply NoDup_app in H as (H1 & _ & H2). apply elem_of_cons in Hk as [-> | Hk]; [done | by apply IH].
Qed.
(** An address lies below one child only. *)
Lemma ids_disjoint l k k' id : NoDup (flat_map ids l) → k ∈ l → k' ∈ l → id ∈ ids k → id ∈ ids k' → k = k'.
Proof.
  induction l as [|a l IH]; [by intros _ H%elem_of_nil |]. cbn [flat_map]. rewrite NoDup_app.
  intros (_ & Hd & Hnd) Hk Hk' H H'.
  apply elem_of_cons in Hk as [-> | Hk], Hk' as [-> | Hk']; [done | | | by apply IH].
  - destruct (Hd id H). apply elem_of_flat_map. eauto.
  - destruct (Hd id H'). apply elem_of_flat_map. eauto.
Qed.

(** ** Paths upwards *)

Fixpoint path_in (id : nat) (l : list node) : option (list str) :=
  match l with
  | [] => None
  | k :: l => match path_to id k with Some p => Some (name k :: p) | None => path_in id l end
  end.
Lemma path_to_eq id r : path_to id r = if (nid r =? id)%nat then Some [] else path_in id (first r).
Proof. destruct r as [i s p l]. cbn [path_to nid first]. destruct (i =? id)%nat; [done |]. by induction l as [|k l IH]; [| cbn [path_in]; rewrite <- IH]. Qed.
Lemma path_to_ids id r p : path_to id r = Some p → id ∈ ids r.
Proof.
  revert p. induction r as [i s m l IH] using node_ind'. intros p. rewrite path_to_eq, ids_eq. cbn [nid first].
  destruct (Nat.eqb_spec i id) as [-> |]; [by left |]. intros E. right. apply elem_of_flat_map. revert p E.
  induction IH as [|k l Hk _ IHl]; intros p; [done |]. cbn [path_in]. destruct (path_to id k) as [q|] eqn:Eq.
  - intros _. exists k. split; [by left | by eapply Hk].
  - intros E. apply IHl in E as (k' & ? & ?). exists k'. split; [by right | done].
Qed.
Lemma path_in_walk id l p :
  path_in id l = Some p → ∃ k q, k ∈ l ∧ p = name k :: q ∧ path_to id k = Some q.
Proof.
  induction l as [|k l IH]; [done |]. cbn [path_in]. destruct (path_to id k) as [q|] eqn:Eq.
  - intros [= <-]. exists k, q. split_and!; [by left | done | done].
  - intros (k' & q & ? & ? & ?)%IH. exists k', q. split_and!; [by right | done | done].
Qed.
Lemma walk_path_to r p x : NoDup (ids r) → (p, x) ∈ walk r → path_to (nid x) r = Some p.
Proof.
  revert p. induction r as [i s m l IH] using node_ind'. intros p Hnd Hw. rewrite path_to_eq.
  pose proof Hnd as Hnd'. rewrite ids_eq in Hnd'. apply NoDup_cons in Hnd' as [Hi Hnd'].
  destruct (Nat.eqb_spec (nid (Node i s m l)) (nid x)) as [E|_].
  { destruct Hi. rewrite E. apply walk_nodes in Hw. rewrite below_eq in Hw. apply elem_of_flat_map in Hw as (k & Hk & Hx).
    apply elem_of_flat_map. exists k. split; [done |]. apply elem_of_ids. eauto. }
  apply elem_of_walk in Hw as (k & Hk & Hw). cbn [first] in *.
  assert (∃ q, p = name k :: q ∧ path_to (nid x) k = Some q) as (q & -> & Hq).
  { rewrite Forall_forall in IH. destruct Hw as [[-> ->] | (q & -> & Hq)].
    - exists []. split; [done |]. rewrite path_to_eq. by rewrite Nat.eqb_refl.
    - exists q. split; [done |]. apply IH; [done | | done]. by apply (NoDup_ids_child (Node i s m l)). }
  clear IH Hi Hnd Hw. induction l as [|k' l IHl]; [by apply elem_of_nil in Hk |]. cbn [path_in].
  destruct (path_to (nid x) k') as [q'|] eqn:E'.
  - assert (k = k') as -> by (eapply ids_disjoint; [done | done | by left | by eapply path_to_ids | by eapply path_to_ids]).
    congruence.
  - apply elem_of_cons in Hk as [-> | Hk]; [congruence |]. apply IHl; [done |]. cbn [flat_map] in Hnd'. by apply NoDup_app in Hnd' as (_ & _ & ?).
Qed.

(** ** Marks as a rewriting of the tree *)

Lemma remark_ext f g r : (∀ n, n ∈ nodes r → f n = g n) → remark f r = remark g r.
Proof.
  induction r as [i s p l IH] using node_ind'. intros H. cbn [remark]. rewrite (H _ (nodes_self _)). f_equal.
  rewrite Forall_forall in IH. apply list_fmap_ext. intros j k Hk. apply list_elem_of_lookup_2 in Hk. apply IH; [done |].
  intros n Hn. apply H. eapply nodes_trans; [done | by apply child_nodes].
Qed.
Lemma remark_pmid r : remark pmid r = r.
Proof.
  induction r as [i s p l IH] using node_ind'. cbn [remark pmid]. f_equal.
  induction IH as [|k l Hk _ IHl]; [done |]. by rewrite fmap_cons, Hk, IHl.
Qed.
Lemma remark_remark f g r : remark g (remark f r) = remark (λ n, g (remark f n)) r.
Proof.
  induction r as [i s p l IH] using node_ind'. cbn [remark]. f_equal. rewrite <- list_fmap_compose.
  rewrite Forall_forall in IH. apply list_fmap_ext. intros j k Hk. apply list_elem_of_lookup_2 in Hk. by apply IH.
Qed.
Lemma below_remark f r : below (remark f r) = remark f <$> below r.
Proof.
  induction r as [i s p l IH] using node_ind'. cbn [remark below].
  induction IH as [|k l Hk _ IHl]; [done |]. rewrite fmap_cons. cbn [flat_map]. by rewrite Hk, IHl, fmap_app.
Qed.
Lemma nodes_remark f r : nodes (remark f r) = remark f <$> nodes r.
Proof. unfold nodes. by rewrite below_remark. Qed.
Lemma ids_remark f r : ids (remark f r) = ids r.
Proof. unfold ids. rewrite nodes_remark, <- list_fmap_compose. by apply list_fmap_ext; intros ? []. Qed.
Lemma name_remark f n : name (remark f n) = name n.
Proof. by destruct n. Qed.
Lemma nid_remark f n : nid (remark f n) = nid n.
Proof. by destruct n. Qed.
Lemma pmid_remark f n : pmid (remark f n) = f n.
Proof. by destruct n. Qed.
Lemma first_remark f n : first (remark f n) = remark f <$> first n.
Proof. by destruct n. Qed.
Lemma uniq_remark f r : uniq (remark f r) ↔ uniq r.
Proof.
  unfold uniq. rewrite nodes_remark, Forall_fmap. apply Forall_iff. intros n. unfold compose. rewrite first_remark, <- list_fmap_compose.
  by rewrite (list_fmap_ext _ name) by (intros ? []; done).
Qed.
Lemma elem_of_walk_remark f r p y : (p, y) ∈ walk (remark f r) ↔ ∃ x, y = remark f x ∧ (p, x) ∈ walk r.
Proof.
  revert p. induction r as [i s m l IH] using node_ind'. intros p. rewrite elem_of_walk. cbn [remark first]. rewrite Forall_forall in IH. split.
  - intros (k & (k' & -> & Hk)%list_elem_of_fmap & H). rewrite name_remark in H. destruct H as [[-> ->] | (q & -> & Hq)].
    + exists k'. split; [done |]. apply elem_of_walk. eauto.
    + apply IH in Hq as (x & -> & Hx); [| done]. exists x. split; [done |]. apply elem_of_walk. eauto 6.
  - intros (x & -> & (k & Hk & H)%elem_of_walk). exists (remark f k). split; [by apply list_elem_of_fmap_2 |]. rewrite name_remark.
    destruct H as [[-> ->] | (q & -> & Hq)]; [by left |]. right. exists q. split; [done |]. apply IH; eauto.
Qed.
(** A node is seen when all nodes above it are unmarked. *)
Lemma remark_visible f r p x :
  (p, x) ∈ walk r → (∀ n, n ∈ below r → x ∈ nodes n → marked (f n) = false) → (p, remark f x) ∈ visible (remark f r).
Proof.
  revert p. induction r as [i s m l IH] using node_ind'. intros p Hw Hf. rewrite Forall_forall in IH.
  apply elem_of_walk in Hw as (k & Hk & Hw). apply elem_of_visible. exists (remark f k). cbn [first] in Hk.
  assert (x ∈ nodes k) as Hx by (destruct Hw as [[_ ->] | (q & _ & Hq%walk_nodes)]; [apply nodes_self | by right]).
  assert (k ∈ below (Node i s m l)) as Hkb by (rewrite below_eq; apply elem_of_flat_map; exists k; split; [done | apply nodes_self]).
  split_and!; [cbn [remark first]; by apply list_elem_of_fmap_2 | by rewrite pmid_remark; apply Hf |]. rewrite name_remark.
  destruct Hw as [[-> ->] | (q & -> & Hq)]; [by left |]. right. exists q. split; [done |]. apply IH; [done .. |].
  intros n Hn. apply Hf. rewrite below_eq. apply elem_of_flat_map. exists k. split; [done | by right].
Qed.
Lemma mark_up_eq bit id r :
  mark_up bit id r = if bool_decide (id ∈ ids r) then Node (nid r) (name r) (mark bit (pmid r)) (mark_up bit id <$> first r) else r.
Proof. by destruct r. Qed.
Lemma mark_up_remark bit id r :
  mark_up bit id r = remark (λ n, if bool_decide (id ∈ ids n) then mark bit (pmid n) else pmid n) r.
Proof.
  induction r as [i s p l IH] using node_ind'. rewrite mark_up_eq. case_bool_decide as Hid.
  - cbn [remark nid name pmid first]. rewrite bool_decide_eq_true_2 by done. f_equal. rewrite Forall_forall in IH.
    apply list_fmap_ext. intros j k Hk. apply list_elem_of_lookup_2 in Hk. by apply IH.
  - rewrite <- (remark_pmid (Node i s p l)) at 1. apply remark_ext. intros n Hn. rewrite bool_decide_eq_false_2; [done |].
    intros (x & -> & Hx)%elem_of_ids. apply Hid, elem_of_ids. exists x. split; [done | by eapply nodes_trans].
Qed.
Lemma mark_idem bit p : mark bit (mark bit p) = mark bit p.
Proof.
  destruct bit; simpl; [rewrite <- Z.lor_assoc, Z.lor_diag; done | rewrite <- Z.land_assoc, Z.land_diag; done].
Qed.
(** Marking from several nodes up marks what has one of them below it. *)
Definition hits (l : list nat) (n : node) : bool := existsb (λ id, bool_decide (id ∈ ids n)) l.
Lemma marks_remark bit l r :
  foldl (λ r id, mark_up bit id r) r l = remark (λ n, if hits l n then mark bit (pmid n) else pmid n) r.
Proof.
  revert r. induction l as [|id l IH]; intros r; [cbn; by rewrite remark_pmid |]. cbn [foldl]. rewrite IH, mark_up_remark, remark_remark.
  apply remark_ext. intros n _. rewrite pmid_remark. unfold hits. cbn [existsb]. rewrite ids_remark.
  case_bool_decide; simpl orb; [| done]. destruct (existsb _ l); [apply mark_idem | done].
Qed.

(** ** Filling the hash table *)

Fixpoint hash_all (r : node) (dupok : bool) (size : Z) (l : list node) (h : list (list nat)) : Z * list (list nat) :=
  match l with
  | [] => (0, h)
  | np :: l =>
      let '(sts, h) := hash_node r dupok size np h in
      if negb (sts =? 0) then (sts, h) else hash_all r dupok size l h
  end.
Lemma hash_all_app r d s l1 l2 h :
  hash_all r d s (l1 ++ l2) h =
  let '(sts, h) := hash_all r d s l1 h in if negb (sts =? 0) then (sts, h) else hash_all r d s l2 h.
Proof.
  revert h. induction l1 as [|np l1 IH]; intros h; [done |]. cbn [app hash_all].
  destruct (hash_node r d s np h) as [sts h1]. destruct (negb (sts =? 0)) eqn:E; [by rewrite E | apply IH].
Qed.
Lemma backlink_below r d s n h : backlink r d s n h = hash_all r d s (below n) h.
Proof.
  revert h. induction n as [i nm p l IH] using node_ind'. intros h. cbn [backlink below]. revert h.
  induction IH as [|k l Hk _ IHl]; intros h; [done |]. cbn [flat_map app]. cbn [hash_all].
  destruct (hash_node r d s k h) as [sts h1]. destruct (negb (sts =? 0)); [done |].
  rewrite Hk, hash_all_app. destruct (hash_all r d s (below k) h1) as [sts2 h2]. destruct (negb (sts2 =? 0)); [done | apply IHl].
Qed.
(** Nodes with an identifier, as the code tests it while it builds the table. *)
Definition known (n : node) : bool := negb (pmid n =? PM_ID_NULL).
Definition link (size : Z) (h : list (list nat)) (np : node) : list (list nat) :=
  if known np then <[bucket size (pmid np) := nid np :: h !!! bucket size (pmid np)]> h else h.
Definition hashes (size : Z) (i : nat) (n : node) : bool := known n && (bucket size (pmid n) =? i)%nat.
Lemma links_length s l h : length (foldl (link s) h l) = length h.
Proof.
  revert h. induction l as [|n l IH]; intros h; [done |]. cbn [foldl]. rewrite IH. unfold link.
  destruct (known n); [apply length_insert | done].
Qed.
Lemma link_chain s l h i :
  (i < length h)%nat →
  foldl (link s) h l !!! i = reverse (nid <$> filter (λ n, hashes s i n = true) l) ++ h !!! i.
Proof.
  revert h. induction l as [|n l IH]; intros h Hi; [done |]. cbn [foldl].
  rewrite IH by (unfold link; destruct (known n); rewrite ?length_insert; done).
  rewrite filter_cons. unfold link, hashes. destruct (known n); simpl; [| done]. case_decide as E.
  - apply Nat.eqb_eq in E as ->. rewrite list_lookup_total_insert_eq by done.
    rewrite fmap_cons, reverse_cons, <- app_assoc. done.
  - assert (bucket s (pmid n) ≠ i) by (by intros Eb; apply E, Nat.eqb_eq). rewrite list_lookup_total_insert_ne by done. done.
Qed.
Lemma hash_node_sts r d s np h sts h' :
  hash_node r d s np h = (sts, h') → sts = 0 ∧ h' = link s h np ∨ sts = PM_ERR_PMNS ∧ h' = h ∧ d = false.
Proof.
  unfold hash_node, link, known. destruct (pmid np =? PM_ID_NULL); [intros [= <- <-]; by left |]. simpl negb. cbv iota.
  destruct (existsb _ _) eqn:E; intros [= <- <-]; [right | by left]. split_and!; [done .. |].
  apply existsb_exists in E as (x & _ & E). destruct d; [| done]. by rewrite andb_false_r in E.
Qed.
Lemma hash_all_sts r d s l h sts h' :
  hash_all r d s l h = (sts, h') → sts = 0 ∧ h' = foldl (link s) h l ∨ sts = PM_ERR_PMNS ∧ d = false.
Proof.
  revert h. induction l as [|n l IH]; intros h; cbn [hash_all foldl]; [intros [= <- <-]; by left |].
  destruct (hash_node r d s n h) as [sts1 h1] eqn:E1. apply hash_node_sts in E1 as [(-> & ->) | (-> & -> & ->)].
  - apply IH.
  - intros [= <- <-]. by right.
Qed.
(** Without [dupok] a second node with an identifier is refused, roots of dynamic
    subtrees apart. *)
Definition fixed (n : node) : bool := known n && negb (dynamic (pmid n)).
Lemma hash_node_taken r s np h :
  (hash_node r false s np h).1 = 0 ↔
  (fixed np = true → Forall (λ x, pmid_at r x ≠ pmid np) (h !!! bucket s (pmid np))).
Proof.
  unfold hash_node, fixed, known. destruct (pmid np =? PM_ID_NULL); simpl; [done |].
  destruct (existsb _ _) eqn:E; simpl.
  - split; [done |]. apply existsb_exists in E as (x & Hx%list_elem_of_In & E).
    rewrite andb_true_r in E. apply andb_true_iff in E as [Ex%Z.eqb_eq Ed]. intros H. specialize (H Ed).
    rewrite Forall_forall in H. by apply H in Hx.
  - split; [| done]. intros _ Ed. apply Forall_forall. intros x Hx Ep.
    enough (existsb (λ x, (pmid_at r x =? pmid np) && true && negb (dynamic (pmid np))) (h !!! bucket s (pmid np)) = true) by congruence.
    apply existsb_exists. exists x. split; [by apply list_elem_of_In |]. by rewrite Ep, Z.eqb_refl, Ed.
Qed.
Lemma hash_all_distinct r s size l1 l2 :
  NoDup (ids r) → (∀ n, n ∈ l1 ++ l2 → n ∈ nodes r) → 0 < s → size = Z.to_nat s →
  (hash_all r false s l2 (foldl (link s) (replicate size []) l1)).1 = 0 ↔
  (∀ l3 n l4, l2 = l3 ++ n :: l4 → fixed n = true → Forall (λ m, known m = true → pmid m ≠ pmid n) (l1 ++ l3)).
Proof.
  intros Hnd Hin Hs ->. revert l1 Hin. induction l2 as [|n l2 IH]; intros l1 Hin.
  { cbn [hash_all fst]. split; [| done]. intros _ [|? ?] m l4; done. }
  assert (∀ m, m ∈ (l1 ++ [n]) ++ l2 → m ∈ nodes r) as Hin' by (intros m; rewrite <- app_assoc; apply Hin).
  specialize (IH (l1 ++ [n]) Hin').
  set (h := foldl (link s) (replicate (Z.to_nat s) []) l1) in *.
  assert (∀ p, bucket s p < length h)%nat as Hb.
  { intros p. unfold h. rewrite links_length, length_replicate. unfold bucket.
    pose proof (Z.mod_pos_bound p s Hs). lia. }
  assert (h !!! bucket s (pmid n) = reverse (nid <$> filter (λ m, hashes s (bucket s (pmid n)) m = true) l1)) as Hc.
  { unfold h. rewrite link_chain by (specialize (Hb (pmid n)); unfold h in Hb; by rewrite links_length in Hb).
    rewrite lookup_total_replicate_2; [by rewrite app_nil_r |]. specialize (Hb (pmid n)). unfold h in Hb.
    by rewrite links_length, length_replicate in Hb. }
  assert (Forall (λ x, pmid_at r x ≠ pmid n) (h !!! bucket s (pmid n)) ↔ Forall (λ m, known m = true → pmid m ≠ pmid n) l1) as Hf.
  { rewrite Hc, !Forall_forall. split.
    - intros H m Hm Hk E. apply (H (nid m)).
      + rewrite elem_of_reverse. apply list_elem_of_fmap_2, list_elem_of_filter. split; [| done]. unfold hashes. by rewrite Hk, E, Nat.eqb_refl.
      + rewrite pmid_at_in; [done | done |]. apply Hin, elem_of_app. by left.
    - intros H x. rewrite elem_of_reverse. intros (m & -> & [Hh Hm]%list_elem_of_filter)%list_elem_of_fmap E.
      rewrite pmid_at_in in E; [| done |]. 2: { apply Hin, elem_of_app. by left. }
      apply (H m Hm); [| done]. unfold hashes in Hh. by apply andb_true_iff in Hh as [? _]. }
  pose proof (hash_node_taken r s n h) as Ht. rewrite Hf in Ht. cbn [hash_all].
  destruct (hash_node r false s n h) as [sts h1] eqn:E1. cbn [fst] in Ht.
  apply hash_node_sts in E1 as [(-> & ->) | (-> & -> & _)].
  - simpl negb. cbv iota. rewrite foldl_app in IH. fold h in IH. cbn [foldl] in IH. rewrite IH.
    destruct Ht as [Ht _]. specialize (Ht eq_refl). clear -Ht. split.
    + intros H l3 m l4 E Hm. destruct l3 as [|x l3]; injection E as -> ->; [rewrite app_nil_r; by apply Ht |].
      specialize (H l3 m l4 eq_refl Hm). by rewrite <- app_assoc in H.
    + intros H l3 m l4 -> Hm. specialize (H (n :: l3) m l4 eq_refl Hm). by rewrite <- app_assoc.
  - simpl negb. cbv iota. cbn [fst]. split; [done |]. intros H.
    assert (PM_ERR_PMNS = 0); [| done]. apply Ht. intros Hn.
    specialize (H [] n l2 eq_refl Hn). by rewrite app_nil_r in H.
Qed.

(** ** A tree with its hash table *)

(** A node on the way to a metric. *)
Definition bears (n : node) : bool := existsb metric (nodes n).
(** The bucket of a metric, whatever its mark. *)
Definition in_bucket (size : Z) (i : nat) (n : node) : bool :=
  metric n && (bucket size (Z.land (pmid n) PMID_MASK) =? i)%nat.
Record hashed (t : tree) : Prop := {
  hs_ids : NoDup (ids (root t));
  hs_uniq : uniq (root t);
  hs_size : 0 < htabsize t;
  hs_length : length (htab t) = Z.to_nat (htabsize t);
  hs_chain : ∀ i, (i < length (htab t))%nat →
    htab t !!! i = reverse (nid <$> filter (λ n, in_bucket (htabsize t) i n = true) (below (root t)));
  hs_root : metric (root t) = false;
  hs_names : plain_names (root t);
  hs_pmid : ∀ n, n ∈ nodes (root t) → is_u32 (pmid n);
  hs_marks : ∀ bit n, mark_state t = bit_state bit → n ∈ nodes (root t) → bears n = true → marked (pmid n) = bit }.
(** A tree as the loaders build it: identifiers are below the mark bit. *)
Definition plain_pmid (p : Z) : Prop := p = PM_ID_NULL ∨ 0 <= p < PMID_MASK.
Record built (t : tree) : Prop := {
  bt_ids : NoDup (ids (root t));
  bt_fresh : Forall (λ id, id < next_id t)%nat (ids (root t));
  bt_uniq : uniq (root t);
  bt_names : plain_names (root t);
  bt_root : pmid (root t) = PM_ID_NULL;
  bt_pmid : ∀ n, n ∈ nodes (root t) → plain_pmid (pmid n);
  bt_state : mark_state t = UNKNOWN_MARK_STATE }.

Lemma land_mask p : Z.land p PMID_MASK = p mod 2^31.
Proof. change PMID_MASK with (Z.ones 31). by rewrite Z.land_ones. Qed.
Lemma land_mark p : is_u32 p → Z.land p MARK_BIT = (p / 2^31) * 2^31.
Proof.
  intros Hp. change MARK_BIT with (2^31). rewrite <- Z.shiftl_mul_pow2 by lia. rewrite <- Z.shiftr_div_pow2 by lia.
  apply Z.bits_inj'. intros n Hn. rewrite Z.land_spec, Z.pow2_bits_eqb by lia.
  destruct (Z.eqb_spec 31 n) as [<-|Hne].
  - rewrite andb_true_r, Z.shiftl_spec by lia. change (31 - 31) with 0. rewrite Z.shiftr_spec by lia. done.
  - rewrite andb_false_r. symmetry. destruct (decide (n < 31)).
    + apply Z.shiftl_spec_low. lia.
    + rewrite Z.shiftl_spec, Z.shiftr_spec by lia. apply Z.bits_above_log2; [unfold is_u32 in Hp; lia |].
      replace (n - 31 + 31) with n by lia. destruct (decide (p = 0)) as [-> |]; [simpl; lia |].
      apply Z.log2_lt_pow2; [unfold is_u32 in Hp; lia |]. unfold is_u32 in Hp. eapply Z.lt_le_trans; [apply Hp |].
      apply Z.pow_le_mono_r; lia.
Qed.
Lemma marked_spec p : is_u32 p → marked p = negb (p <? 2^31).
Proof.
  intros Hp. unfold marked. rewrite land_mark by done. unfold is_u32 in Hp. f_equal.
  destruct (Z.ltb_spec p (2^31)); [by rewrite Z.div_small by lia |]. apply Z.eqb_neq.
  enough (p / 2^31 = 1) by lia. symmetry. apply (Z.div_unique_pos p (2^31) 1 (p - 2^31)); lia.
Qed.
Lemma mark_land bit p : Z.land (mark bit p) PMID_MASK = Z.land p PMID_MASK.
Proof.
  destruct bit; simpl; [| by rewrite <- Z.land_assoc, Z.land_diag].
  rewrite Z.land_lor_distr_l. change (Z.land MARK_BIT PMID_MASK) with 0. apply Z.lor_0_r.
Qed.
Lemma mark_range bit p : is_u32 p → is_u32 (mark bit p).
Proof.
  intros Hp. unfold is_u32 in *. destruct bit; simpl.
  - split; [apply Z.lor_nonneg; split; [lia | unfold MARK_BIT; lia] |].
    destruct (decide (Z.lor p MARK_BIT = 0)) as [E|]; [rewrite E; lia |].
    assert (0 < Z.lor p MARK_BIT) by (pose proof (proj2 (Z.lor_nonneg p MARK_BIT)); unfold MARK_BIT in *; lia).
    apply Z.log2_lt_pow2; [lia |]. rewrite Z.log2_lor by (unfold MARK_BIT; lia).
    apply Z.max_lub_lt; [| done]. destruct (decide (p = 0)) as [-> |]; [simpl; lia |]. apply Z.log2_lt_pow2; lia.
  - rewrite land_mask. pose proof (Z.mod_pos_bound p (2^31)). lia.
Qed.
Lemma marked_mark bit p : marked (mark bit p) = bit.
Proof.
  unfold marked. destruct bit; simpl.
  - rewrite Z.land_lor_distr_l, Z.land_diag. apply negb_true_iff, Z.eqb_neq. intros [_ E]%Z.lor_eq_0_iff. done.
  - rewrite <- Z.land_assoc. change (Z.land PMID_MASK MARK_BIT) with 0. by rewrite Z.land_0_r.
Qed.
Lemma metric_remark f n : Z.land (f n) PMID_MASK = Z.land (pmid n) PMID_MASK → metric (remark f n) = metric n.
Proof. intros E. unfold metric. by rewrite pmid_remark, E. Qed.
Lemma bit_state_inj b b' : bit_state b = bit_state b' → b = b'.
Proof. by destruct b, b'. Qed.
Lemma bears_spec n : bears n = true ↔ ∃ m, m ∈ nodes n ∧ metric m = true.
Proof. unfold bears. rewrite existsb_exists. by setoid_rewrite list_elem_of_In. Qed.
(** [f] changes marks only. *)
Definition tames (f : node → Z) (r : node) : Prop :=
  ∀ n, n ∈ nodes r → Z.land (f n) PMID_MASK = Z.land (pmid n) PMID_MASK ∧ (is_u32 (pmid n) → is_u32 (f n)).
Lemma tames_sub f r n : tames f r → n ∈ nodes r → tames f n.
Proof. intros H Hn m Hm. apply H. by eapply nodes_trans. Qed.
Lemma bears_remark f n : tames f n → bears (remark f n) = bears n.
Proof.
  intros Hf. apply eq_true_iff_eq. rewrite !bears_spec. split.
  - intros (m & Hm & Em). rewrite nodes_remark in Hm. apply list_elem_of_fmap in Hm as (m' & -> & Hm).
    exists m'. split; [done |]. rewrite <- Em. symmetry. by apply metric_remark, Hf.
  - intros (m & Hm & Em). exists (remark f m). rewrite nodes_remark. split; [by apply list_elem_of_fmap_2 |].
    rewrite <- Em. by apply metric_remark, Hf.
Qed.
Lemma tames_if (P : node → bool) bit r : tames (λ n, if P n then mark bit (pmid n) else pmid n) r.
Proof. intros n _. destruct (P n); [| done]. split; [apply mark_land | apply mark_range]. Qed.
Lemma mark_same bit p : is_u32 p → marked p = bit → mark bit p = p.
Proof.
  intros Hp Hm. rewrite marked_spec in Hm by done. destruct bit; simpl.
  - assert (Z.land p MARK_BIT = MARK_BIT) as E.
    { rewrite land_mark by done. unfold is_u32 in Hp. apply negb_true_iff, Z.ltb_ge in Hm.
      replace (p / 2^31) with 1; [done |]. apply (Z.div_unique_pos p (2^31) 1 (p - 2^31)); lia. }
    rewrite <- E. apply Z.bits_inj'. intros n _. rewrite Z.lor_spec, Z.land_spec. by destruct (Z.testbit p n), (Z.testbit MARK_BIT n).
  - rewrite land_mask. unfold is_u32 in Hp. apply negb_false_iff, Z.ltb_lt in Hm. apply Z.mod_small; lia.
Qed.

(** Marks may be changed anywhere as long as [mark_state] knows of it. *)
Lemma hashed_remark t f m :
  hashed t → tames f (root t) →
  (∀ bit n, m = bit_state bit → n ∈ nodes (root t) → bears n = true → marked (f n) = bit) →
  hashed (set_mark_state m (set_root (remark f (root t)) t)).
Proof.
  intros [H1 H2 H3 H4 H5 H6 Hnm H7 H8] Hf Hm. constructor; cbn [root htab htabsize mark_state set_mark_state set_root].
  - by rewrite ids_remark.
  - by rewrite uniq_remark.
  - done.
  - done.
  - intros i Hi. rewrite H5 by done. f_equal. rewrite below_remark.
    assert (∀ n, n ∈ below (root t) → in_bucket (htabsize t) i (remark f n) = in_bucket (htabsize t) i n) as Hb.
    { intros n Hn. unfold in_bucket. destruct (Hf n (below_nodes _ _ Hn)) as [E _]. by rewrite metric_remark, pmid_remark, E. }
    clear -Hb. induction (below (root t)) as [|n l IH]; [done |]. rewrite fmap_cons, !filter_cons.
    rewrite (Hb n) by (by left). assert (∀ x, x ∈ l → in_bucket (htabsize t) i (remark f x) = in_bucket (htabsize t) i x) by (intros; apply Hb; by right).
    case_decide; [rewrite !fmap_cons, nid_remark; by f_equal; apply IH | by apply IH].
  - rewrite metric_remark; [done |]. apply Hf, nodes_self.
  - unfold plain_names. rewrite nodes_remark, Forall_fmap. eapply Forall_impl; [exact Hnm |]. intros n. unfold compose. by rewrite name_remark.
  - intros n Hn. rewrite nodes_remark in Hn. apply list_elem_of_fmap in Hn as (x & -> & Hx). rewrite pmid_remark. by apply Hf, H7.
  - intros bit n Em Hn Hbe. rewrite nodes_remark in Hn. apply list_elem_of_fmap in Hn as (x & -> & Hx). rewrite pmid_remark.
    apply Hm; [done .. |]. rewrite bears_remark in Hbe; [done | by eapply tames_sub].
Qed.

(** The chains hold the metrics. *)
Lemma chains_metrics t id : hashed t → id ∈ concat (htab t) ↔ ∃ m, m ∈ metrics (root t) ∧ nid m = id.
Proof.
  intros H. rewrite list_elem_of_In, in_concat. setoid_rewrite <- list_elem_of_In. split.
  - intros (l & Hl & Hid). apply list_elem_of_lookup in Hl as (i & Hi). pose proof (lookup_lt_Some _ _ _ Hi) as Hlt.
    apply list_lookup_total_correct in Hi. rewrite (hs_chain t H) in Hi by done. subst l.
    apply elem_of_reverse, list_elem_of_fmap in Hid as (m & -> & [Hb Hm]%list_elem_of_filter).
    exists m. split; [| done]. apply list_elem_of_filter. split; [| done]. unfold in_bucket in Hb. by apply andb_true_iff in Hb as [? _].
  - intros (m & [Em Hm]%list_elem_of_filter & <-). set (i := bucket (htabsize t) (Z.land (pmid m) PMID_MASK)).
    assert (i < length (htab t))%nat as Hi.
    { rewrite (hs_length t H). unfold i, bucket. pose proof (hs_size t H).
      pose proof (Z.mod_pos_bound (Z.land (pmid m) PMID_MASK) (htabsize t)). lia. }
    exists (htab t !!! i). split; [by apply list_elem_of_lookup_total_2 |]. rewrite (hs_chain t H) by done.
    apply elem_of_reverse, list_elem_of_fmap_2, list_elem_of_filter. split; [| done]. unfold in_bucket. by rewrite Em, Nat.eqb_refl.
Qed.
Lemma hits_spec l n : hits l n = true ↔ ∃ x, x ∈ nodes n ∧ nid x ∈ l.
Proof.
  unfold hits. rewrite existsb_exists. setoid_rewrite <- list_elem_of_In. split.
  - intros (id & Hid & (x & -> & Hx)%bool_decide_eq_true_1%elem_of_ids). eauto.
  - intros (x & Hx & Hid). exists (nid x). split; [done |]. apply bool_decide_eq_true_2, elem_of_ids. eauto.
Qed.
Lemma metrics_nodes t x : hashed t → x ∈ nodes (root t) → metric x = true → x ∈ metrics (root t).
Proof.
  intros H Hx Em. apply list_elem_of_filter. split; [done |]. apply elem_of_cons in Hx as [-> | Hx]; [| done].
  by rewrite (hs_root t H) in Em.
Qed.
Lemma hits_bears t n : hashed t → n ∈ nodes (root t) → hits (concat (htab t)) n = bears n.
Proof.
  intros H Hn. apply eq_true_iff_eq. rewrite hits_spec, bears_spec. split.
  - intros (x & Hx & (m & Hm & E)%(chains_metrics t _ H)). exists x. split; [done |].
    apply list_elem_of_filter in Hm as [Em Hm]. enough (x = m) as -> by done.
    eapply (NoDup_same nid); [exact (hs_ids t H) | by eapply nodes_trans | by apply below_nodes | done].
  - intros (m & Hm & Em). exists m. split; [done |]. apply (chains_metrics t _ H). exists m. split; [| done].
    apply metrics_nodes; [done | | done]. by eapply nodes_trans.
Qed.
Definition mark_bearing (bit : bool) (n : node) : Z := if bears n then mark bit (pmid n) else pmid n.
Lemma mark_all_remark t bit :
  hashed t → mark_all bit t = set_mark_state (bit_state bit) (set_root (remark (mark_bearing bit) (root t)) t).
Proof.
  intros H. unfold mark_all. destruct (Z.eqb_spec (mark_state t) (bit_state bit)) as [E|E].
  - assert (remark (mark_bearing bit) (root t) = root t) as ->.
    { rewrite <- (remark_pmid (root t)) at 2. apply remark_ext. intros n Hn. unfold mark_bearing.
      destruct (bears n) eqn:Eb; [| done]. apply mark_same; [by apply (hs_pmid t H) | by eapply (hs_marks t H)]. }
    rewrite <- E. by destruct t.
  - f_equal. f_equal. rewrite marks_remark. apply remark_ext. intros n Hn. by rewrite hits_bears.
Qed.
Lemma mark_all_hashed t bit : hashed t → hashed (mark_all bit t).
Proof.
  intros H. rewrite mark_all_remark by done. apply hashed_remark; [done | apply tames_if |].
  intros b n E%bit_state_inj Hn Hb. unfold mark_bearing. rewrite Hb, <- E. apply marked_mark.
Qed.

(** ** Building the table *)

Lemma filter_agree {A} (P Q : A → bool) (l : list A) :
  (∀ x, x ∈ l → P x = Q x) → filter (λ x, P x = true) l = filter (λ x, Q x = true) l.
Proof.
  induction l as [|x l IH]; intros H; [done |]. rewrite !filter_cons, (H x) by (by left).
  rewrite IH; [done |]. intros y Hy. apply H. by right.
Qed.
Lemma plain_known n : plain_pmid (pmid n) → known n = metric n ∧ (known n = true → Z.land (pmid n) PMID_MASK = pmid n).
Proof.
  intros [E | E]; unfold known, metric; [by rewrite E |]. rewrite land_mask. unfold PMID_MASK in *. rewrite Z.mod_small by lia.
  split; [| done]. rewrite (proj2 (Z.eqb_neq _ _)) by (unfold PM_ID_NULL; lia). by rewrite (proj2 (Z.eqb_neq _ _)) by lia.
Qed.
Lemma plain_u32 p : plain_pmid p → is_u32 p.
Proof. unfold is_u32. intros [-> | ?]; unfold PM_ID_NULL, PMID_MASK in *; lia. Qed.
Lemma hash_size_bounds n : 0 <= n → 1 <= hash_size n.
Proof. intros. unfold hash_size. repeat case_match; Z.to_euclidean_division_equations; lia. Qed.
Definition table (t : tree) (size : Z) : tree :=
  set_htab (foldl (link size) (replicate (Z.to_nat size) []) (below (root t))) size t.
Lemma table_hashed t size : built t → 0 < size → hashed (table t size).
Proof.
  intros [H1 H2 H3 Hnm H4 H5 H6] Hs. unfold table. constructor; cbn [root htab htabsize mark_state set_htab].
  - done.
  - done.
  - done.
  - by rewrite links_length, length_replicate.
  - intros i Hi. rewrite links_length in Hi. rewrite link_chain by done. rewrite length_replicate in Hi.
    rewrite lookup_total_replicate_2, app_nil_r by done. f_equal. f_equal.
    apply filter_agree. intros n Hn. unfold hashes, in_bucket.
    destruct (plain_known n) as [Ek Em]; [by apply H5, below_nodes |]. rewrite <- Ek. destruct (known n); [by rewrite Em | done].
  - unfold metric. by rewrite H4.
  - done.
  - intros n Hn. by apply plain_u32, H5.
  - intros bit n Em. rewrite H6 in Em. by destruct bit.
Qed.
Lemma distinct_spec l1 l2 :
  (∀ l3 n l4, l2 = l3 ++ n :: l4 → fixed n = true → Forall (λ m, known m = true → pmid m ≠ pmid n) (l1 ++ l3)) ↔
  NoDup (pmid <$> filter (λ n, fixed n = true) l2) ∧
  (∀ m n, m ∈ l1 → n ∈ l2 → fixed m = true → fixed n = true → pmid m ≠ pmid n).
Proof.
  assert (∀ m n, fixed n = true → pmid m = pmid n → fixed m = true) as Hfix by (intros m n; unfold fixed, known; by intros H ->).
  assert (∀ m, fixed m = true → known m = true) as Hkn by (intros m; unfold fixed; by intros [? _]%andb_true_iff).
  revert l1. induction l2 as [|n l2 IH]; intros l1.
  { split; [intros _; split; [apply NoDup_nil_2 | by intros m n _ ?%elem_of_nil] | by intros _ [|y l3] n l4]. }
  split.
  - intros H. destruct (proj1 (IH (l1 ++ [n]))) as [IH1 IH2].
    { intros l3 m l4 -> Hm. specialize (H (n :: l3) m l4 eq_refl Hm). by rewrite <- app_assoc. }
    split.
    + rewrite filter_cons. case_decide as Hn; [| done]. rewrite fmap_cons. apply NoDup_cons_2; [| done].
      intros (m & E & [Hm Hin]%list_elem_of_filter)%list_elem_of_fmap. apply (IH2 n m); [| done ..]. apply elem_of_app. right. by left.
    + intros m k Hm [-> | Hk]%elem_of_cons Fm Fk; [| apply IH2; [apply elem_of_app; by left | done ..]].
      specialize (H [] n l2 eq_refl Fk). rewrite app_nil_r, Forall_forall in H. apply H; [done | by apply Hkn].
  - intros [Hnd Hd] l3 m l4 E Hm. destruct l3 as [|x l3]; injection E as -> E.
    + subst. rewrite app_nil_r, Forall_forall. intros k Hk _ Ek. apply (Hd k m); [done | by left | by eapply Hfix | done | done].
    + subst l2. assert (Forall (λ k, known k = true → pmid k ≠ pmid m) ((l1 ++ [x]) ++ l3)) as Hf; [| by rewrite <- app_assoc in Hf].
      apply (IH (l1 ++ [x])) with l4; [| done | done]. rewrite filter_cons in Hnd. split; [case_decide; [by apply NoDup_cons in Hnd as [_ ?] | done] |].
      intros k j [Hk | ->%list_elem_of_singleton]%elem_of_app Hj Fk Fj Ekj; [apply (Hd k j); [done | by right | done ..] |].
      rewrite decide_True in Hnd by done. rewrite fmap_cons in Hnd. apply NoDup_cons in Hnd as [Hx _]. apply Hx. rewrite Ekj.
      by apply list_elem_of_fmap_2, list_elem_of_filter.
Qed.
(** What [__pmFixPMNSHashTab] does to a tree that has been built. *)
Lemma fix_table t numpmid dupok :
  built t → 0 <= numpmid →
  ∃ sts t', __pmFixPMNSHashTab t numpmid dupok = (sts, t') ∧
    (sts = 0 ∧ t' = mark_all false (table t (hash_size numpmid)) ∨ sts = PM_ERR_PMNS) ∧
    (sts = 0 ↔ dupok = true ∨ NoDup (pmid <$> filter (λ n, fixed n = true) (below (root t)))).
Proof.
  intros Hb Hn. unfold __pmFixPMNSHashTab. pose proof (hash_size_bounds numpmid Hn) as Hs. set (s := hash_size numpmid) in *.
  rewrite (proj2 (Z.ltb_ge s 0)) by lia. rewrite backlink_below.
  destruct (hash_all (root t) dupok s (below (root t)) (replicate (Z.to_nat s) [])) as [sts h] eqn:E.
  assert (sts = 0 ↔ dupok = true ∨ NoDup (pmid <$> filter (λ n, fixed n = true) (below (root t)))) as Hiff.
  { destruct dupok.
    - apply hash_all_sts in E as [[-> _] | [_ ?]]; [| done]. split; [by left | done].
    - pose proof (hash_all_distinct (root t) s (Z.to_nat s) [] (below (root t)) (bt_ids t Hb)) as Hd. cbn [foldl] in Hd.
      rewrite E in Hd. cbn [fst] in Hd. rewrite Hd; [| intros n Hin; by apply below_nodes | lia | done].
      rewrite distinct_spec. split; [intros [? _]; by right |]. intros [? | ?]; [done |]. split; [done |]. by intros m n ?%elem_of_nil. }
  pose proof (hash_all_sts _ _ _ _ _ _ _ E) as [[-> ->] | [-> Ed]].
  - exists 0, (mark_all false (table t s)). split_and!; [done | by left | done].
  - exists PM_ERR_PMNS, (set_htab h s t). split_and!; [done | by right | done].
Qed.

(** ** Names and components *)

Lemma components_plain nm : Forall (λ c, dot ∉ c) (components nm).
Proof.
  induction nm as [|c nm IH]; [apply Forall_singleton; by intros ?%elem_of_nil |]. simpl. case_bool_decide as Hc.
  - constructor; [by intros ?%elem_of_nil | done].
  - destruct (components nm) as [|p ps]; [apply Forall_singleton; by intros E%list_elem_of_singleton |].
    apply Forall_cons in IH as [Hp Hps]. constructor; [| done]. intros [E | ?]%elem_of_cons; [congruence | done].
Qed.
Lemma components_nonempty nm : components nm ≠ [].
Proof. destruct nm as [|c nm]; [done |]. simpl. case_bool_decide; [done |]. by destruct (components nm). Qed.
Lemma join_cons p path : path ≠ [] → join (p :: path) = p ++ dot :: join path.
Proof. by destruct path. Qed.
Lemma join_snoc path s : path ≠ [] → join (path ++ [s]) = join path ++ dot :: s.
Proof.
  induction path as [|b path IH]; [done |]. intros _. destruct path as [|b' path]; [done |].
  rewrite join_cons by done. cbn [app]. rewrite (join_cons b (b' :: path ++ [s])) by done. rewrite <- app_assoc. f_equal. cbn [app]. f_equal.
  by apply IH.
Qed.
Lemma join_components nm : join (components nm) = nm.
Proof.
  induction nm as [|c nm IH]; [done |]. simpl. pose proof (components_nonempty nm). case_bool_decide as Hc.
  - rewrite join_cons by done. by rewrite IH, Hc.
  - destruct (components nm) as [|p [|p' ps]]; [done | by rewrite <- IH |]. by rewrite <- IH.
Qed.
Lemma components_app p nm : dot ∉ p → components (p ++ dot :: nm) = p :: components nm.
Proof.
  induction p as [|c p IH]; intros Hp; [done |]. apply not_elem_of_cons in Hp as [Hc Hp].
  simpl. rewrite bool_decide_eq_false_2 by congruence. by rewrite IH.
Qed.
Lemma components_one p : dot ∉ p → components p = [p].
Proof.
  induction p as [|c p IH]; intros Hp; [done |]. apply not_elem_of_cons in Hp as [Hc Hp].
  simpl. rewrite bool_decide_eq_false_2 by congruence. by rewrite IH.
Qed.
Lemma components_join path : path ≠ [] → Forall (λ c, dot ∉ c) path → components (join path) = path.
Proof.
  induction path as [|p path IH]; [done |]. intros _ [Hp Hf]%Forall_cons.
  destruct path as [|p' path]; [by apply components_one |]. rewrite join_cons by done. rewrite components_app by done. by rewrite IH.
Qed.
Lemma walk_plain r p x : plain_names r → (p, x) ∈ walk r → Forall (λ c, dot ∉ c) p.
Proof.
  unfold plain_names. revert p. induction r as [i s m l IH] using node_ind'. intros p Hn (k & Hk & Hw)%elem_of_walk.
  cbn [first] in Hk. rewrite Forall_forall in IH, Hn.
  assert (k ∈ nodes (Node i s m l)) as Hkb by (by apply child_nodes).
  assert (dot ∉ name k) by exact (Hn k Hkb). destruct Hw as [[-> ->] | (q & -> & Hq)]; [by apply Forall_singleton |].
  constructor; [done |]. eapply IH; [done | | done]. unfold plain_names in *. apply Forall_forall. intros n Hnk. apply (Hn n).
  by eapply nodes_trans.
Qed.

(** ** Adding names *)

Lemma named_eq r c tail :
  named r (c :: tail) =
  match List.find (λ np, bool_decide (name np = c)) (first r) with
  | None => None
  | Some np => match tail with
               | [] => if pmid np =? PM_ID_NULL then None else Some (pmid np)
               | _ => named np tail
               end
  end.
Proof. unfold named. cbn [get]. destruct (List.find _ _) as [np|]; [| done]. by destruct tail. Qed.
Lemma name_new id p c tail : name (new_nodes id p c tail) = c.
Proof. by destruct tail. Qed.
Lemma named_new id p c tail q :
  u32 p ≠ PM_ID_NULL →
  match q with
  | [] => if pmid (new_nodes id p c tail) =? PM_ID_NULL then None else Some (pmid (new_nodes id p c tail))
  | _ => named (new_nodes id p c tail) q
  end = if decide (q = tail) then Some (u32 p) else None.
Proof.
  intros Hp. revert id c q. induction tail as [|c' tail IH]; intros id c q; cbn [new_nodes].
  - destruct q as [|d q]; [| done]. cbn [pmid]. rewrite (proj2 (Z.eqb_neq _ _)) by done. by rewrite decide_True.
  - destruct q as [|d q]; [done |]. rewrite named_eq. cbn [first List.find]. rewrite name_new.
    case_bool_decide as E; [subst d |]; [| rewrite decide_False; [done | congruence]].
    rewrite IH. by repeat case_decide; try congruence.
Qed.
Lemma find_split {A} (P : A → bool) l p x q : split_find P l = Some (p, x, q) → List.find P l = Some x.
Proof.
  revert p x q. induction l as [|a l IH]; intros p x q; simpl; [done |]. destruct (P a); [by intros [= <- <- <-] |].
  destruct (split_find P l) as [[[p' y] q']|]; simpl; [| done]. intros [= <- <- <-]. by eapply IH.
Qed.
Lemma find_split_None {A} (P : A → bool) l : split_find P l = None → List.find P l = None.
Proof.
  induction l as [|a l IH]; simpl; [done |]. destruct (P a); [done |].
  destruct (split_find P l) as [[[p' y] q']|]; simpl; [done |]. intros _. by apply IH.
Qed.
Lemma find_replace (l1 l2 : list node) np np' c :
  name np = name np' →
  List.find (λ n, bool_decide (name n = c)) (l1 ++ np' :: l2) =
  match List.find (λ n, bool_decide (name n = c)) l1 with
  | Some x => Some x
  | None => if bool_decide (name np = c) then Some np' else List.find (λ n, bool_decide (name n = c)) l2
  end.
Proof.
  intros E. induction l1 as [|a l1 IH]; simpl; [by rewrite E |]. rewrite IH. by destruct (bool_decide (name a = c)).
Qed.
Lemma add_get id r p path sts r' :
  path ≠ [] → AddPMNSNode id r p path = (sts, r') →
  match get path r with
  | Some x => sts = (if pmid x =? u32 p then 0 else PM_ERR_PMID) ∧ r' = r
  | None => sts = 0 ∧ name r' = name r ∧ pmid r' = pmid r ∧
            (u32 p ≠ PM_ID_NULL → ∀ q, named r' q = if decide (q = path) then Some (u32 p) else named r q)
  end.
Proof.
  revert r sts r'. induction path as [|c tail IH]; intros r sts r'; [done |]. intros _. cbn [AddPMNSNode get].
  destruct (split_find _ (first r)) as [[[l1 np] l2]|] eqn:Es.
  - rewrite (find_split _ _ _ _ _ Es). cbn [mbind option_bind]. apply split_find_Some in Es as (Hl & Hc%bool_decide_eq_true_1 & Hl1).
    destruct tail as [|c' tail]; [by intros [= <- <-] |].
    destruct (AddPMNSNode id np p (c' :: tail)) as [sts1 np'] eqn:Ea. intros [= <- <-].
    specialize (IH np sts1 np' ltac:(done) Ea). destruct (get (c' :: tail) np) as [x|].
    + destruct IH as [-> ->]. split; [done |]. rewrite <- Hl. by destruct r.
    + destruct IH as (-> & Hn & Hp & IH). split_and!; [done .. |]. intros Hu q. specialize (IH Hu).
      destruct q as [|d q]; [done |]. rewrite !named_eq. cbn [set_first first]. rewrite Hl.
      rewrite (find_replace l1 l2 np np' d) by done. rewrite (find_replace l1 l2 np np d) by done.
      destruct (List.find _ l1) as [x|] eqn:El1.
      * assert (d ≠ c) as Hd.
        { intros ->. apply find_Some in El1 as [Hx Ex]. rewrite Forall_forall in Hl1. by rewrite (Hl1 _ Hx) in Ex. }
        by rewrite decide_False by congruence.
      * case_bool_decide as E; [| by rewrite decide_False by congruence]. rewrite Hc in E. subst d.
        destruct q as [|d q]; [rewrite Hp; by rewrite decide_False by congruence |]. rewrite IH.
        by repeat case_decide; try congruence.
  - rewrite (find_split_None _ _ Es). intros [= <- <-]. split_and!; [done .. |]. intros Hu q.
    destruct q as [|d q]; [done |]. rewrite !named_eq. cbn [set_first first List.find]. rewrite name_new.
    case_bool_decide as E.
    + subst d. rewrite (find_split_None _ _ Es). rewrite named_new by done. by repeat case_decide; try congruence.
    + by rewrite decide_False by congruence.
Qed.
Lemma nodes_new id p c tail n :
  n ∈ nodes (new_nodes id p c tail) → (pmid n = PM_ID_NULL ∨ pmid n = u32 p) ∧ name n ∈ c :: tail ∧ (length (first n) <= 1)%nat.
Proof.
  revert id c. induction tail as [|c' tail IH]; intros id c; cbn [new_nodes].
  - intros [-> | (k & Hk & _)]%elem_of_nodes; [| by apply elem_of_nil in Hk]. simpl. split_and!; [by right | by left | lia].
  - intros [-> | (k & Hk & Hn)]%elem_of_nodes.
    + simpl. split_and!; [by left | by left | lia].
    + cbn [first] in Hk. apply list_elem_of_singleton in Hk as ->. apply IH in Hn as (? & ? & ?). split_and!; [done | by right | done].
Qed.
Lemma ids_new id p c tail : ids (new_nodes id p c tail) = seq id (S (length tail)).
Proof.
  revert id c. induction tail as [|c' tail IH]; intros id c; [done |]. cbn [new_nodes]. rewrite ids_eq. cbn [first flat_map].
  rewrite IH, app_nil_r. done.
Qed.
Lemma below_set_first l r : below (set_first l r) = flat_map nodes l.
Proof. by destruct r. Qed.
Lemma ids_set_first l r : ids (set_first l r) = nid r :: flat_map ids l.
Proof. by rewrite ids_eq. Qed.
Lemma add_ids id r p path sts r' :
  AddPMNSNode id r p path = (sts, r') → ∃ m, (m <= length path)%nat ∧ ids r' ≡ₚ seq id m ++ ids r.
Proof.
  revert r sts r'. induction path as [|c tail IH]; intros r sts r'; cbn [AddPMNSNode]; [intros [= <- <-]; by exists 0%nat |].
  destruct (split_find _ (first r)) as [[[l1 np] l2]|] eqn:Es.
  - apply split_find_Some in Es as (Hl & _ & _). destruct tail as [|c' tail]; [intros [= <- <-]; exists 0%nat; split; [simpl; lia | done] |].
    destruct (AddPMNSNode id np p (c' :: tail)) as [sts1 np'] eqn:Ea. intros [= <- <-].
    apply IH in Ea as (m & Hm & E). exists m. split; [simpl in *; lia |].
    rewrite ids_set_first, ids_eq, Hl, !flat_map_app. cbn [flat_map]. rewrite E. solve_Permutation.
  - intros [= <- <-]. exists (S (length tail)). split; [simpl; lia |]. rewrite ids_set_first. cbn [flat_map].
    rewrite ids_new, (ids_eq r). solve_Permutation.
Qed.
Lemma add_nodes id r p path sts r' (P : node → Prop) :
  AddPMNSNode id r p path = (sts, r') →
  (∀ n, n ∈ nodes r → P n) →
  (∀ n, (pmid n = PM_ID_NULL ∨ pmid n = u32 p) → name n ∈ path → (length (first n) <= 1)%nat → P n) →
  (∀ n l, P n → (∀ k, k ∈ first n → P k) → (NoDup (name <$> first n) → NoDup (name <$> l)) → P (set_first l n)) →
  ∀ n, n ∈ nodes r' → P n.
Proof.
  revert r sts r'. induction path as [|c tail IH]; intros r sts r'; cbn [AddPMNSNode]; [by intros [= <- <-] |].
  destruct (split_find _ (first r)) as [[[l1 np] l2]|] eqn:Es; intros E Hr Hnew Hset n Hn.
  - apply split_find_Some in Es as (Hl & _ & _). destruct tail as [|c' tail]; [injection E as <- <-; by apply Hr |].
    destruct (AddPMNSNode id np p (c' :: tail)) as [sts1 np'] eqn:Ea. injection E as <- <-.
    assert (∀ k, k ∈ first r → ∀ x, x ∈ nodes k → P x) as Hk.
    { intros k Hk x Hx. apply Hr. eapply nodes_trans; [done | by apply child_nodes]. }
    assert (name np' = name np) as Enm.
    { apply add_get in Ea; [| done]. destruct (get _ np); [by destruct Ea as [_ ->] | apply Ea]. }
    apply elem_of_nodes in Hn as [-> | (k & Hin & Hx)].
    + apply Hset; [apply Hr, nodes_self | intros k Hin; eapply Hk; [done | apply nodes_self] |].
      by rewrite Hl, !fmap_app, !fmap_cons, Enm.
    + cbn [set_first first] in Hin. apply elem_of_app in Hin as [Hin | [-> | Hin]%elem_of_cons].
      * eapply Hk; [| done]. rewrite Hl. apply elem_of_app. by left.
      * eapply IH; [exact Ea | | | | exact Hx]; [| | done].
        { intros m Hm. eapply Hk; [| done]. rewrite Hl. apply elem_of_app. right. by left. }
        { intros m Hm Hnm. apply Hnew; [done |]. by right. }
      * eapply Hk; [| done]. rewrite Hl. apply elem_of_app. right. by right.
  - injection E as <- <-. apply split_find_None in Es. apply elem_of_nodes in Hn as [-> | (k & Hin & Hx)].
    + apply Hset; [apply Hr, nodes_self | intros k Hin; apply Hr; by apply child_nodes |].
      intros Hnd. rewrite fmap_cons, name_new. apply NoDup_cons. split; [| done].
      intros (k & -> & Hk)%list_elem_of_fmap. rewrite Forall_forall in Es. apply Es in Hk. by rewrite bool_decide_eq_true_2 in Hk.
    + cbn [set_first first] in Hin. apply elem_of_cons in Hin as [-> | Hin].
      * apply nodes_new in Hx as (H1 & H2 & H3). by apply Hnew.
      * apply Hr. eapply nodes_trans; [done | by apply child_nodes].
Qed.
Lemma add_below id r p path sts r' : AddPMNSNode id r p path = (sts, r') → nid r' = nid r.
Proof.
  destruct path as [|c tail]; cbn [AddPMNSNode]; [by intros [= <- <-] |].
  destruct (split_find _ _) as [[[l1 np] l2]|]; [| by intros [= <- <-]].
  destruct tail; [by intros [= <- <-] |]. destruct (AddPMNSNode _ np _ _). by intros [= <- <-].
Qed.
(** Identifiers an agent or an archive may use. *)
Lemma add_built t p nm sts t' :
  built t → plain_pmid (u32 p) → __pmAddPMNSNode t p nm = Some (sts, t') → built t'.
Proof.
  intros [H1 H2 H3 Hnm H4 H5 H6] Hp. unfold __pmAddPMNSNode. destruct (contiguous t); [done |].
  destruct (AddPMNSNode (next_id t) (root t) p (components nm)) as [sts1 r] eqn:E. intros [= <- <-].
  pose proof (add_ids _ _ _ _ _ _ E) as (m & Hm & Hperm).
  pose proof (add_get _ _ _ _ _ _ (components_nonempty nm) E) as Hg.
  constructor; cbn [root htab htabsize mark_state next_id].
  - rewrite Hperm. apply NoDup_app. split_and!; [apply NoDup_seq | | done].
    intros id Hs Hid. apply elem_of_seq in Hs. rewrite Forall_forall in H2. apply H2 in Hid. lia.
  - rewrite Hperm. apply Forall_app. split; apply Forall_forall.
    + intros id Hs. apply elem_of_seq in Hs. lia.
    + intros id Hid. rewrite Forall_forall in H2. apply H2 in Hid. lia.
  - unfold uniq in *. rewrite Forall_forall in *. eapply add_nodes; [exact E | exact H3 | |].
    + intros n _ _ Hl. destruct (first n) as [|a [|b l]]; [constructor | rewrite fmap_cons; apply NoDup_singleton | simpl in Hl; lia].
    + intros n l Hn _ Himp. cbn [set_first first]. by apply Himp.
  - unfold plain_names in *. rewrite Forall_forall in *. eapply add_nodes; [exact E | done | | done].
    intros n _ Hin _. pose proof (components_plain nm) as Hc. rewrite Forall_forall in Hc. by apply Hc.
  - destruct (get _ _); [by destruct Hg as [_ ->] | by destruct Hg as (_ & _ & -> & _)].
  - eapply add_nodes; [exact E | done | | done]. intros n [-> | ->] _ _; [by left | done].
  - done.
Qed.
Lemma find_fmap {A B} (f : A → B) (P : B → bool) l : List.find P (f <$> l) = f <$> List.find (λ x, P (f x)) l.
Proof. induction l as [|x l IH]; [done |]. rewrite fmap_cons. simpl. by destruct (P (f x)). Qed.
Lemma find_agree {A} (P Q : A → bool) l : (∀ x, P x = Q x) → List.find P l = List.find Q l.
Proof. intros H. induction l as [|x l IH]; [done |]. simpl. rewrite H, IH. done. Qed.
Lemma node_at_remark f r id : node_at (remark f r) id = remark f <$> node_at r id.
Proof. unfold node_at. rewrite nodes_remark, find_fmap. f_equal. apply find_agree. intros x. by rewrite nid_remark. Qed.

(** ** Trimming *)

(** The metric [mark_one] finds for an identifier. *)
Definition pick (t : tree) (p : Z) : option nat :=
  List.find (λ id, Z.land (pmid_at (root t) id) PMID_MASK =? Z.land p PMID_MASK) (chain t p).
Definition trim (t : tree) (ps : list Z) : tree := foldl (λ t p, mark_one p false t) (mark_all true t) ps.
Definition trimmed (t : tree) (ps : list Z) (n : node) : Z :=
  if hits (omap (pick t) ps) n then mark false (pmid n) else mark_bearing true n.
Lemma pmid_at_land f r id : tames f r → Z.land (pmid_at (remark f r) id) PMID_MASK = Z.land (pmid_at r id) PMID_MASK.
Proof.
  intros Hf. unfold pmid_at. rewrite node_at_remark. destruct (node_at r id) as [x|] eqn:E; [| done]. simpl. rewrite pmid_remark.
  apply Hf. by apply node_at_Some in E as [? _].
Qed.
Lemma find_ext_in {A} (P Q : A → bool) l : (∀ x, x ∈ l → P x = Q x) → List.find P l = List.find Q l.
Proof.
  induction l as [|x l IH]; intros H; [done |]. simpl. rewrite (H x) by (by left). rewrite IH; [done |]. intros y Hy. apply H. by right.
Qed.
Lemma trimmed_tames t ps r : tames (trimmed t ps) r.
Proof.
  intros n Hn. unfold trimmed, mark_bearing. destruct (hits _ n); [| destruct (bears n); [| done]]; (split; [apply mark_land | apply mark_range]).
Qed.
Lemma mark_false_true p : mark false (mark true p) = mark false p.
Proof. cbn [mark]. apply mark_land with (bit := true). Qed.
Lemma hits_snoc t ps p n :
  hits (omap (pick t) (ps ++ [p])) n =
  hits (omap (pick t) ps) n || match pick t p with Some id => bool_decide (id ∈ ids n) | None => false end.
Proof.
  unfold hits. rewrite omap_app, existsb_app. f_equal. simpl. destruct (pick t p); [apply orb_false_r | done].
Qed.
Lemma trim_remark t ps :
  hashed t → trim t ps = set_mark_state (if ps is [] then 1 else UNKNOWN_MARK_STATE) (set_root (remark (trimmed t ps) (root t)) t).
Proof.
  intros H. unfold trim. rewrite mark_all_remark by done.
  induction ps as [|p ps IH] using rev_ind.
  { cbn [foldl]. f_equal. }
  rewrite foldl_app, IH. cbn [foldl]. set (T := remark (trimmed t ps) (root t)).
  assert (∀ q m, pick (set_mark_state m (set_root T t)) q = pick t q) as Hp.
  { intros q m. unfold pick, chain. cbn [root htab htabsize set_mark_state set_root]. apply find_ext_in. intros id _. unfold T. by rewrite pmid_at_land by apply trimmed_tames. }
  assert (∀ m, m ≠ 0 → mark_one p false (set_mark_state m (set_root T t)) =
    set_mark_state UNKNOWN_MARK_STATE (set_root (remark (trimmed t (ps ++ [p])) (root t)) t)) as Hm.
  { intros m Hm0. unfold mark_one. cbn [mark_state set_mark_state]. rewrite (proj2 (Z.eqb_neq _ _)) by done.
    specialize (Hp p UNKNOWN_MARK_STATE). unfold pick in Hp at 1. cbn [root set_mark_state set_root] in Hp |- *.
    change (chain (set_mark_state UNKNOWN_MARK_STATE (set_mark_state m (set_root T t))) p) with
      (chain (set_mark_state UNKNOWN_MARK_STATE (set_root T t)) p). rewrite Hp.
    destruct (pick t p) as [id|] eqn:Ep; unfold set_root, set_mark_state; cbn [root htab htabsize contiguous mark_state next_id]; f_equal; unfold T.
    - rewrite mark_up_remark, remark_remark. apply remark_ext. intros n _. rewrite pmid_remark, ids_remark.
      unfold trimmed. rewrite hits_snoc, Ep. case_bool_decide; [| by rewrite orb_false_r]. rewrite orb_true_r.
      destruct (hits _ _); [apply mark_idem |]. unfold mark_bearing. destruct (bears n); [apply mark_false_true | done].
    - apply remark_ext. intros n _. unfold trimmed. by rewrite hits_snoc, Ep, orb_false_r. }
  rewrite Hm; [| by destruct ps]. by destruct ps.
Qed.
Lemma trim_hashed t ps : hashed t → hashed (trim t ps).
Proof.
  intros H. rewrite trim_remark by done. apply hashed_remark; [done | apply trimmed_tames |].
  intros bit n Eb Hn Hb. destruct ps as [|p ps]; [| by destruct bit].
  assert (bit = true) as -> by (by destruct bit). unfold trimmed, mark_bearing. simpl. rewrite Hb. apply (marked_mark true).
Qed.
(** A metric is picked for its own identifier only. *)
Lemma pick_spec t p id :
  hashed t → pick t p = Some id → ∃ x, x ∈ metrics (root t) ∧ nid x = id ∧ Z.land (pmid x) PMID_MASK = Z.land p PMID_MASK.
Proof.
  intros H [Hin E%Z.eqb_eq]%find_Some. assert (id ∈ concat (htab t)) as Hc.
  { unfold chain in Hin. destruct (decide (bucket (htabsize t) p < length (htab t))%nat) as [Hlt|Hge].
    - apply list_elem_of_In, in_concat. exists (htab t !!! bucket (htabsize t) p). rewrite <- !list_elem_of_In.
      split; [by apply list_elem_of_lookup_total_2 | done].
    - rewrite list_lookup_total_alt, lookup_ge_None_2 in Hin by lia. by apply elem_of_nil in Hin. }
  apply (chains_metrics t _ H) in Hc as (m & Hm & <-). exists m. split_and!; [done .. |]. rewrite <- E.
  rewrite pmid_at_in; [done | exact (hs_ids t H) |]. apply list_elem_of_filter in Hm as [_ Hm]. by apply below_nodes.
Qed.

(** ** Locating what was added *)

(** Seen or not, what the tree knows by a name. *)
Definition metric_named (t : tree) (nm : str) : option Z := named (root t) (components nm).

Lemma named_walk r path p : uniq r → named r path = Some p ↔ p ≠ PM_ID_NULL ∧ ∃ x, (path, x) ∈ walk r ∧ pmid x = p.
Proof.
  intros Hu. unfold named. split.
  - destruct (get path r) as [x|] eqn:E; [| done]. cbn [mbind option_bind]. apply get_walk in E.
    destruct (Z.eqb_spec (pmid x) PM_ID_NULL); [done |]. intros [= <-]. eauto.
  - intros (Hp & x & Hw%walk_get & <-); [| done]. rewrite Hw. cbn [mbind option_bind]. by rewrite (proj2 (Z.eqb_neq _ _)).
Qed.
(** In a table whose metrics are all unmarked, a metric is located by its name. *)
Lemma locate_metric t f path x :
  hashed t → (∀ n, n ∈ nodes (root t) → bears n = true → marked (f n) = false) →
  (path, x) ∈ walk (root t) → metric x = true → locate path (remark f (root t)) = Some (remark f x).
Proof.
  intros H Hf Hw Hm. apply visible_locate; [by apply uniq_remark, (hs_uniq t H) |].
  apply remark_visible; [done |]. intros n Hn Hx. apply Hf; [by apply below_nodes |]. apply bears_spec. eauto.
Qed.
Lemma mark_false_plain p : 0 <= p < PMID_MASK → mark false p = p.
Proof. intros. cbn [mark]. rewrite land_mask. apply Z.mod_small. unfold PMID_MASK in *. lia. Qed.
Lemma plain_metric n : plain_pmid (pmid n) → metric n = true ↔ 0 <= pmid n < PMID_MASK.
Proof.
  unfold metric. intros [E | E]; [rewrite E; split; [done | unfold PM_ID_NULL, PMID_MASK; lia] |]. split; [done |]. intros _.
  rewrite land_mask, Z.mod_small by (unfold PMID_MASK in *; lia). by rewrite (proj2 (Z.eqb_neq _ _)) by lia.
Qed.
Lemma mark_one_hashed t p bit : hashed t → hashed (mark_one p bit t).
Proof.
  intros H. unfold mark_one. destruct (_ =? _); [done |].
  assert (∀ f, tames f (root t) → hashed (set_mark_state UNKNOWN_MARK_STATE (set_root (remark f (root t)) t))) as Hr.
  { intros f Hf. apply hashed_remark; [done | done |]. intros b n E. by destruct b. }
  destruct (List.find _ _) as [id|].
  - cbn [root set_mark_state]. rewrite mark_up_remark.
    apply (Hr (λ n, if bool_decide (id ∈ ids n) then mark bit (pmid n) else pmid n)), tames_if.
  - specialize (Hr pmid). rewrite remark_pmid in Hr. by apply Hr.
Qed.
Lemma new_built : built __pmNewPMNS.
Proof.
  constructor; cbn; try done.
  - apply NoDup_singleton.
  - apply Forall_singleton. lia.
  - apply Forall_singleton. constructor.
  - apply Forall_singleton. by apply (bool_decide_eq_true_1 _).
  - intros n ->%list_elem_of_singleton. by left.
Qed.

(** Trees as the programs make them. *)
Inductive building : tree → Prop :=
| build_new : building __pmNewPMNS
| build_add t p nm sts t' :
    building t → plain_pmid (u32 p) → __pmAddPMNSNode t p nm = Some (sts, t') → building t'.
Inductive reach (start : tree → Prop) : tree → Prop :=
| reach_fix t n dupok t' : start t → 0 <= n → __pmFixPMNSHashTab t n dupok = (0, t') → reach start t'
| reach_mark_all t bit : reach start t → reach start (mark_all bit t)
| reach_mark_one t p bit : reach start t → reach start (mark_one p bit t).
Lemma building_built t : building t → built t.
Proof. induction 1; [apply new_built | by eapply add_built]. Qed.
Lemma fix_hashed t n dupok t' :
  built t → 0 <= n → __pmFixPMNSHashTab t n dupok = (0, t') →
  t' = mark_all false (table t (hash_size n)) ∧ hashed t'.
Proof.
  intros Hb Hn E. destruct (fix_table t n dupok Hb Hn) as (sts & t1 & E1 & Hor & _). rewrite E in E1. injection E1 as <- <-.
  destruct Hor as [[_ ->] | ?]; [| done]. split; [done |]. apply mark_all_hashed, table_hashed; [done |].
  pose proof (hash_size_bounds n Hn). lia.
Qed.
Lemma reach_hashed start t : (∀ t, start t → built t) → reach start t → hashed t.
Proof.
  intros Hs. induction 1; [by eapply fix_hashed; [apply Hs | |] | by apply mark_all_hashed | by apply mark_one_hashed].
Qed.

End Pmns.
Import Pmns.

(** ** Theorems *)

(** C9. Adding a name to a name space gives the name its identifier and leaves what all
    other names mean; it is refused, and changes nothing, exactly when the name is in use
    with another identifier or for an inner node. *)
Theorem add_inserts t p nm :
  built t → contiguous t = false → 0 <= p < PMID_MASK →
  ∃ sts t', __pmAddPMNSNode t p nm = Some (sts, t') ∧ built t' ∧
    match get (components nm) (root t) with
    | Some x => root t' = root t ∧ sts = if pmid x =? p then 0 else PM_ERR_PMID
    | None => sts = 0 ∧ ∀ nm', metric_named t' nm' = if decide (nm' = nm) then Some p else metric_named t nm'
    end.
Proof.
  intros Hb Hc Hp. assert (u32 p = p) as Hu by (apply u32_id; unfold is_u32, PMID_MASK in *; lia).
  assert (plain_pmid (u32 p)) as Hpl by (right; by rewrite Hu).
  destruct (__pmAddPMNSNode t p nm) as [[sts t']|] eqn:E; [| unfold __pmAddPMNSNode in E; rewrite Hc in E; by destruct (AddPMNSNode _ _ _ _)].
  exists sts, t'. split; [done |]. split; [by eapply add_built |]. unfold __pmAddPMNSNode in E. rewrite Hc in E.
  destruct (AddPMNSNode (next_id t) (root t) p (components nm)) as [sts1 r] eqn:Ea. injection E as <- <-. cbn [root].
  apply add_get in Ea; [| apply components_nonempty]. rewrite Hu in Ea. destruct (get _ _) as [x|]; [by destruct Ea |].
  destruct Ea as (-> & _ & _ & Hn). split; [done |]. intros nm'. unfold metric_named. cbn [root].
  rewrite Hn by (unfold PM_ID_NULL, PMID_MASK in *; lia). destruct (decide (nm' = nm)) as [-> |]; [by rewrite decide_True |].
  rewrite decide_False; [done |]. intros E. apply (f_equal join) in E. by rewrite !join_components in E.
Qed.

(** C10. [__pmFixPMNSHashTab] succeeds on a name space that has been built unless two of its
    metrics have one identifier and duplicates are not wanted; then the names of the name
    space are exactly those that are located, with their identifiers. *)
Theorem fix_locates t numpmid dupok :
  built t → 0 <= numpmid →
  ∃ sts t', __pmFixPMNSHashTab t numpmid dupok = (sts, t') ∧
    (sts = 0 ↔ dupok = true ∨ NoDup (pmid <$> filter (λ n, fixed n = true) (below (root t)))) ∧
    (sts = 0 → ∀ nm p,
       metric_named t nm = Some p ↔
       ∃ x, locate (components nm) (root t') = Some x ∧ metric x = true ∧ pmid x = p).
Proof.
  intros Hb Hn. destruct (fix_table t numpmid dupok Hb Hn) as (sts & t' & E & _ & Hiff).
  exists sts, t'. split_and!; [done .. |]. intros -> nm p. destruct (fix_hashed _ _ _ _ Hb Hn E) as [-> _].
  pose proof (hash_size_bounds numpmid Hn). pose proof (table_hashed t (hash_size numpmid) Hb ltac:(lia)) as Hh.
  rewrite mark_all_remark by done. cbn [root set_mark_state set_root]. unfold metric_named.
  change (root t) with (root (table t (hash_size numpmid))) at 1. rewrite named_walk by apply (hs_uniq _ Hh). split.
  - intros (Hp & x & Hw & <-). pose proof (bt_pmid t Hb x (below_nodes _ _ (walk_nodes _ _ _ Hw))) as Hpl.
    destruct Hpl as [? | Hpl]; [done |]. assert (metric x = true) as Hm by (by apply plain_metric; [right |]).
    assert (bears x = true) as Hbx by (apply bears_spec; exists x; split; [apply nodes_self | done]).
    exists (remark (mark_bearing false) x). split_and!.
    + apply (locate_metric _ _ _ _ Hh); [| done | done]. intros n _ Hbe. unfold mark_bearing. rewrite Hbe. apply (marked_mark false).
    + rewrite metric_remark; [done |]. unfold mark_bearing. rewrite Hbx. apply mark_land.
    + rewrite pmid_remark. unfold mark_bearing. rewrite Hbx. by apply mark_false_plain.
  - intros (y & Hl & Hm & <-). apply locate_visible in Hl. apply visible_walk in Hl as [Hw _].
    apply elem_of_walk_remark in Hw as (x & -> & Hw). pose proof (below_nodes _ _ (walk_nodes _ _ _ Hw)) as Hx.
    rewrite metric_remark in Hm by (apply (tames_if bears false x), nodes_self).
    pose proof (bt_pmid t Hb x Hx) as Hpl. pose proof (proj1 (plain_metric x Hpl) Hm) as Hr.
    assert (bears x = true) as Hbx by (apply bears_spec; exists x; split; [apply nodes_self | done]).
    rewrite pmid_remark. unfold mark_bearing. rewrite Hbx, mark_false_plain by done.
    split; [unfold PM_ID_NULL, PMID_MASK in *; lia | by exists x].
Qed.

(** C11. Every name space that is made, indexed and marked keeps its hash chains, its unique
    names and addresses, and knows which marks its metrics have. *)
Theorem tree_reachable_inv t : reach building t → hashed t.
Proof. apply reach_hashed, building_built. Qed.

(** ** Examples *)

(** Names added one after the other; a name that is refused is skipped. *)
Definition add_all (t : tree) (l : list (Z * str)) : tree :=
  foldl (λ t '(p, nm), match __pmAddPMNSNode t p nm with Some (_, t') => t' | None => t end) t l.
Lemma building_add_all t l :
  building t → Forall (λ e, plain_pmid (u32 e.1)) l → building (add_all t l).
Proof.
  intros Hb Hl. unfold add_all. revert t Hb. induction Hl as [|[p nm] l Hp _ IH]; intros t Hb; [done |]. cbn [foldl]. apply IH.
  destruct (__pmAddPMNSNode t p nm) as [[sts t']|] eqn:E; [| done]. by eapply build_add.
Qed.
Definition ex_tree : tree :=
  add_all __pmNewPMNS
    [(pmid_build 1 2 3, [Byte.x61; dot; Byte.x62]); (pmid_build 1 2 4, [Byte.x61; dot; Byte.x63]);
     (pmid_build 1 2 5, [Byte.x64; dot; Byte.x65; dot; Byte.x66])].
Lemma ex_building : building ex_tree.
Proof. apply building_add_all; [constructor |]. repeat (apply Forall_cons; split; [right; vm_compute; split; congruence |]). by apply Forall_nil. Qed.

Lemma add_inserts_witness :
  ∃ sts t', __pmAddPMNSNode ex_tree 77 [Byte.x61; dot; Byte.x67] = Some (sts, t') ∧ built t' ∧
    match get (components [Byte.x61; dot; Byte.x67]) (root ex_tree) with
    | Some x => root t' = root ex_tree ∧ sts = if pmid x =? 77 then 0 else PM_ERR_PMID
    | None => sts = 0 ∧ ∀ nm', metric_named t' nm' = if decide (nm' = [Byte.x61; dot; Byte.x67]) then Some 77 else metric_named ex_tree nm'
    end.
Proof. apply (add_inserts ex_tree 77 [Byte.x61; dot; Byte.x67]); [apply building_built, ex_building | reflexivity | unfold PMID_MASK; lia]. Defined.
Lemma fix_locates_witness :
  ∃ sts t', __pmFixPMNSHashTab ex_tree 3 false = (sts, t') ∧
    (sts = 0 ↔ false = true ∨ NoDup (pmid <$> filter (λ n, fixed n = true) (below (root ex_tree)))) ∧
    (sts = 0 → ∀ nm p,
       metric_named ex_tree nm = Some p ↔
       ∃ x, locate (components nm) (root t') = Some x ∧ metric x = true ∧ pmid x = p).
Proof. apply (fix_locates ex_tree 3 false); [apply building_built, ex_building | lia]. Defined.
Lemma tree_reachable_inv_witness :
  hashed (mark_one (pmid_build 1 2 3) false (mark_all true (snd (__pmFixPMNSHashTab ex_tree 3 false)))).
Proof.
  apply tree_reachable_inv. apply reach_mark_one, reach_mark_all. apply (reach_fix _ ex_tree 3 false); [apply ex_building | lia |].
  vm_compute. reflexivity.
Defined.

(** ** What goes wrong *)

(** Nodes may not be added to a name space that has its table: the first table clears the
    top bit of the inner nodes, which then have an identifier; the second one finds it
    twice, or leaves the new inner nodes marked. *)
Lemma refix_fails :
  fst (__pmFixPMNSHashTab (snd (__pmFixPMNSHashTab ex_tree 3 false)) 3 false) = PM_ERR_PMNS ∧
  let t := add_all (snd (__pmFixPMNSHashTab ex_tree 3 true)) [(pmid_build 1 2 6, [Byte.x67; dot; Byte.x68])] in
  metric_named t [Byte.x67; dot; Byte.x68] = Some (pmid_build 1 2 6) ∧
  locate [[Byte.x67]; [Byte.x68]] (root (snd (__pmFixPMNSHashTab t 4 true))) = None.
Proof. split; [| split]; vm_compute; reflexivity. Qed.
(** The size of the table is odd; it can be a multiple of three, and the lists can be
    longer than five on average. *)
Lemma hash_size_odd n : 0 <= n → Z.odd (hash_size n) = true.
Proof.
  intros Hn. unfold hash_size. rewrite Zodd_mod. apply Z.eqb_eq.
  repeat case_match; rewrite ?Z.eqb_eq, ?Z.eqb_neq in *; Z.to_euclidean_division_equations; lia.
Qed.
Lemma hash_size_claims : hash_size 125 = 3 * 9 ∧ hash_size 9 = 1.
Proof. done. Qed.
(** A metric whose name goes on from the name of another metric takes that name away: it is
    the name of an inner node, although the identifier still leads to it. *)
Lemma name_below_metric :
  let t := snd (__pmFixPMNSHashTab (add_all __pmNewPMNS [(1, [Byte.x61]); (2, [Byte.x61; dot; Byte.x62])]) 2 true) in
  ∃ x, locate [[Byte.x61]] (root t) = Some x ∧ pmid x = 1 ∧ first x ≠ [].
Proof. vm_compute. eexists. split_and!; [reflexivity | reflexivity | done]. Qed.
