(* ===== verification/PmnsLoad.v ===== *)
(** The loader of the name space, libpcp/src/pmns.c: the lexical analyser over the output of
    pmcpp, the parser, the assembly of the subtrees, and what a failed load leaves behind.

    The addresses of the nodes matter once there is a hash table, so they are given by
    [number] when the tree is whole. *)
From S2P Require Import Prelude Memory Text Types PmnsTree.
Import PmnsTree.Pmns.

Definition PM_ERR_DUPPMNS : Z := - PM_ERR_BASE - 3.
Definition colon : byte := Byte.x3a.
Definition star : byte := Byte.x2a.
Definition lbrace : byte := Byte.x7b.
Definition rbrace : byte := Byte.x7d.
Definition hash_sign : byte := Byte.x23.
Definition quote : byte := Byte.x22.
Definition tab : byte := Byte.x09.

Module PmnsLoad.

(** ** The lexical analyser *)

Inductive token := NAME (s : str) | PATH (s : str) | PMID (p : Z) | LBRACE | RBRACE | BOGUS.
(** The line buffer, all 256 characters of it, the position [lp] in it, what pmcpp has yet
    to write, and the place in the source of the text. *)
Definition LINEBUF : nat := 256.
Record lexer := mkLexer { linebuf : str; lp : nat; stream : str; lineno : Z; fname : str }.
(** [Stop]: the end of the text, or an error; [Quit]: the process exits; [Wild]: the code
    leaves its arrays. *)
Inductive lexed := Tok (t : token) (l : lexer) | Stop (sts : Z) | Quit | Wild.

(** Runs of white space become one character, none at the start of a line and around
    colons.  [out] is the line so far, reversed; [None]: a character is stored in front of
    the array. *)
Fixpoint squeeze (p : str) (out : str) (inspace : bool) : option str :=
  match p with
  | [] => Some (reverse out)
  | c :: p =>
      if isspace c then
        if inspace then squeeze p out true
        else match out with
             | d :: _ => if bool_decide (d = colon) then squeeze p out true else squeeze p (c :: out) true
             | [] => squeeze p out true
             end
      else if bool_decide (c = colon) then
        if inspace then match out with _ :: out => squeeze p (c :: out) false | [] => None end
        else squeeze p (c :: out) inspace
      else squeeze p (c :: out) false
  end.
(** The scan of a line with the name of the source and a line number. *)
Fixpoint word (p : str) : str :=
  match p with
  | [] => []
  | c :: p => if isspace c then [] else c :: word p
  end.
Definition scan_control (p : str) : option (Z * str) :=
  match p with
  | c :: p =>
      '(n, p) ← (if bool_decide (c = hash_sign) then scan_d p else None);
      match drop_space p with
      | c :: p => if bool_decide (c = quote) then match word (drop_space p) with [] => None | w => Some (n, w) end else None
      | [] => None
      end
  | [] => None
  end.
(** while ( *lp && isspace( *lp)) lp++; [None]: beyond the end of the array. *)
Fixpoint skip (p : str) : option nat :=
  match p with
  | [] => None
  | c :: p => if bool_decide (c = NUL) then Some O else if isspace c then S <$> skip p else Some O
  end.
(** while (!isspace( *lp)) *tp++ = *lp++; *)
Fixpoint copy_token (p : str) : option str :=
  match p with
  | [] => None
  | c :: p => if isspace c then Some [] else cons c <$> copy_token p
  end.
(** Reading on until there is a line with something in it; [status] is what pclose returns. *)
Fixpoint next_line (fuel : nat) (status : Z) (l : lexer) : lexed + lexer :=
  match fuel with
  | O => inl (Stop 0)
  | S fuel =>
      match fgets LINEBUF (linebuf l) (stream l) with
      | None => inl (Stop (if status =? 0 then 0 else PM_ERR_PMNS))
      | Some (mem, rest) =>
          let s := string_at mem in
          match squeeze s [] false, last s with
          | None, _ | _, None => inl Wild
          | Some out, Some c =>
              if negb (bool_decide (c = newline)) then inl Quit
              else
                let buf := out ++ NUL :: drop (length out + 1) mem in
                if bool_decide (head buf = Some hash_sign) then
                  match scan_control out with
                  | None => inl (Stop PM_ERR_PMNS)
                  | Some (n, w) => next_line fuel status (mkLexer buf (lp l) rest (n - 1) (removelast w))
                  end
                else
                  match skip buf with
                  | None => inl Wild
                  | Some k =>
                      let l := mkLexer buf k rest (lineno l + 1) (fname l) in
                      if bool_decide (buf !! k = Some NUL) then next_line fuel status l else inr l
                  end
          end
      end
  end.
(** The kinds of token. *)
Definition name_char (c : byte) : bool := isalpha c || isdigit c || bool_decide (c = Byte.x5f).
Definition count_colons (s : str) : nat := length (filter (λ c, c = colon) s).
Definition pmid_chars (s : str) : bool :=
  forallb (λ c, bool_decide (c = colon) || isdigit c || bool_decide (c = star)) s && (count_colons s <=? 3)%nat.
Fixpoint after_colon (s : str) : option str :=
  match s with
  | [] => None
  | c :: s => if bool_decide (c = colon) then Some s else after_colon s
  end.
Definition expect (c : byte) (s : str) : option str :=
  match s with d :: s => if bool_decide (d = c) then Some s else None | [] => None end.
(** sscanf (tokbuf, "%d:%d:%d", &d, &c, &i) == 3 *)
Definition scan_pmid (s : str) : option (Z * Z * Z) :=
  '(d, s) ← scan_d s; s ← expect colon s;
  '(c, s) ← scan_d s; s ← expect colon s;
  '(i, s) ← scan_d s; Some (d, c, i).
Definition lex_pmid (s : str) : token :=
  match scan_pmid s with
  | Some (d, c, i) =>
      if 510 <? d then BOGUS else if 4095 <? c then BOGUS else if 1023 <? i then BOGUS
      else PMID (pmid_build d c i)
  | None =>
      if match after_colon s with Some r => negb (bool_decide (r = [star; colon; star])) | None => false end then BOGUS
      else match scan_d s with
           | Some (d, _) => if 510 <? d then BOGUS else PMID (pmid_build DYNAMIC_PMID d 0)
           | None => BOGUS
           end
  end.
Definition classify (s : str) : token :=
  if bool_decide (s = [lbrace]) then LBRACE
  else if bool_decide (s = [rbrace]) then RBRACE
  else if match s with c :: t => isalpha c && forallb (λ c, bool_decide (c = dot) || name_char c) t | [] => false end
  then if bool_decide (dot ∈ s) then PATH s else NAME s
  else if pmid_chars s then lex_pmid s
  else BOGUS.
Definition take_token (l : lexer) : lexed :=
  match copy_token (drop (lp l) (linebuf l)) with
  | None => Wild
  | Some raw => Tok (classify (string_at raw)) (mkLexer (linebuf l) (lp l + length raw) (stream l) (lineno l) (fname l))
  end.
Definition lex (status : Z) (l : lexer) : lexed :=
  match skip (drop (lp l) (linebuf l)) with
  | None => Wild
  | Some k =>
      let l := mkLexer (linebuf l) (lp l + k) (stream l) (lineno l) (fname l) in
      if bool_decide (linebuf l !! lp l = Some NUL) then
        match next_line (S (length (stream l))) status l with
        | inl r => r
        | inr l => take_token l
        end
      else take_token l
  end.

(** ** The parser *)

(** [state] is that of the automaton in the comment of [loadascii]; [seen] are the subtrees
    of pass one, the last one first, and the current node is the last child of the first. *)
Record parser := mkParser { state : Z; seen : list node; seenpmid : Z }.
Definition new_node (s : str) : node := Node 0 s PM_ID_NULL [].
Definition new_subtree (s : str) (p : parser) : parser := mkParser 1 (new_node s :: seen p) (seenpmid p + 1).
Definition add_child (s : str) (p : parser) : parser :=
  match seen p with
  | x :: l => mkParser 3 (set_first (first x ++ [new_node s]) x :: l) (seenpmid p + 1)
  | [] => p
  end.
Definition set_last (f : node → node) (l : list node) : list node :=
  match last l with Some x => removelast l ++ [f x] | None => l end.
Definition set_tokpmid (v : Z) (p : parser) : parser :=
  match seen p with
  | x :: l => mkParser 2 (set_first (set_last (set_pmid v) (first x)) x :: l) (seenpmid p)
  | [] => p
  end.
(** The end of a subtree, which must not have a name twice. *)
Definition end_subtree (p : parser) : option parser :=
  if bool_decide (NoDup (name <$> from_option first [] (head (seen p))))
  then Some (mkParser 0 (seen p) (seenpmid p)) else None.
(** [None]: the error PM_ERR_PMNS. *)
Definition parse (t : token) (p : parser) : option parser :=
  if state p =? 0 then
    match t with NAME s | PATH s => Some (new_subtree s p) | _ => None end
  else if state p =? 1 then
    match t with LBRACE => Some (mkParser 2 (seen p) (seenpmid p)) | _ => None end
  else if state p =? 2 then
    match t with NAME s => Some (add_child s p) | RBRACE => end_subtree p | _ => None end
  else
    match t with
    | NAME s => Some (add_child s p)
    | PMID v => Some (set_tokpmid v p)
    | RBRACE => end_subtree p
    | _ => None
    end.

(** ** The whole tree *)

Definition findseen (s : str) (l : list node) : option (node * list node) :=
  '(l1, x, l2) ← split_find (λ n, bool_decide (name n = s)) l; Some (x, l1 ++ l2).
Definition sub_path (base s : str) : str := match base with [] => s | _ => base ++ dot :: s end.
(** The children of a node get their own subtrees.  With [fuel] for the subtrees that are
    left there is always a result; it has the subtrees that have not been used. *)
Fixpoint attach (fuel : nat) (base : str) (l : list node) (seen : list node) {struct fuel} : option (Z * list node * list node) :=
  (fix go (l : list node) (seen : list node) : option (Z * list node * list node) :=
     match l with
     | [] => Some (0, [], seen)
     | np :: l =>
         if pmid np =? PM_ID_NULL then
           match findseen (sub_path base (name np)) seen with
           | None => Some (PM_ERR_PMNS, np :: l, seen)
           | Some (xp, seen) =>
               match fuel with
               | O => None
               | S fuel =>
                   '(sts, kids, seen) ← attach fuel (sub_path base (name np)) (first xp) seen;
                   if sts =? 0 then '(sts, l, seen) ← go l seen; Some (sts, set_first kids np :: l, seen)
                   else Some (sts, set_first kids np :: l, seen)
               end
           end
         else '(sts, l, seen) ← go l seen; Some (sts, np :: l, seen)
     end) l seen.
(** Addresses for the nodes, in depth-first order. *)
Fixpoint number (k : nat) (n : node) : node * nat :=
  let '(Node _ s p l) := n in
  let '(l, k') := (fix go (k : nat) (l : list node) : list node * nat :=
                     match l with
                     | [] => ([], k)
                     | x :: l => let '(x, k) := number k x in let '(l, k) := go k l in (x :: l, k)
                     end) (S k) l in
  (Node k s p l, k').
(** What main_pmns points to: nothing, a tree whose table and marks have not been set and
    whose root may be missing, or a tree. *)
Inductive pmns := Unloaded | Broken (r : option node) | Loaded (t : tree).
Definition root_name : str := [Byte.x72; Byte.x6f; Byte.x6f; Byte.x74].
Definition pass2 (dupok : bool) (p : parser) : option (Z * pmns) :=
  match findseen root_name (seen p) with
  | None => Some (PM_ERR_PMNS, Broken None)
  | Some (r, l) =>
      match findseen root_name l with
      | Some _ => Some (PM_ERR_PMNS, Broken (Some r))
      | None =>
          '(sts, kids, rest) ← attach (length l) [] (first r) l;
          if (sts =? 0) && bool_decide (rest = []) then
            let '(r, k) := number 0 (set_first kids r) in
            let count := seenpmid p - (Z.of_nat (length l) - Z.of_nat (length rest)) in
            let '(sts, t) := __pmFixPMNSHashTab (mkTree r [] 0 false UNKNOWN_MARK_STATE k) count dupok in
            Some (sts, Loaded t)
          else Some (PM_ERR_PMNS, Broken (Some (set_first kids r)))
      end
  end.

(** What the loader finds: whether the file can be read, whether pmcpp can be run, what it
    writes and how it ends, and the line buffer. *)
Record source := mkSource {
  s_access : option Z; s_popen : option Z; s_text : str; s_status : Z; s_linebuf : str; s_fname : str }.
Inductive loaded := Result (sts : Z) (m : pmns) | Exit | Undefined.
Fixpoint load_loop (fuel : nat) (status : Z) (dupok : bool) (l : lexer) (p : parser) : option loaded :=
  match fuel with
  | O => None
  | S fuel =>
      match lex status l with
      | Tok t l =>
          match parse t p with
          | Some p => load_loop fuel status dupok l p
          | None => Some (Result PM_ERR_PMNS Unloaded)
          end
      | Stop sts =>
          if sts =? 0 then '(sts, m) ← pass2 dupok p; Some (Result sts m) else Some (Result sts Unloaded)
      | Quit => Some Exit
      | Wild => Some Undefined
      end
  end.
Definition load_fuel (s : source) : nat := S (LINEBUF * S (length (s_text s))).
Definition loadascii (dupok : bool) (s : source) : option loaded :=
  match s_access s, s_popen s with
  | Some e, _ | _, Some e => Some (Result (- e) Unloaded)
  | None, None =>
      load_loop (load_fuel s) (s_status s) dupok
        (mkLexer (NUL :: tail (s_linebuf s)) 0 (s_text s) 1 (s_fname s)) (mkParser 0 [] 0)
  end.
(** ** The loader stops *)

Definition measure (l : lexer) : nat := LINEBUF * length (stream l) + (LINEBUF - lp l).
Lemma skip_bound p k : skip p = Some k → (k < length p)%nat ∧ ∃ c, p !! k = Some c ∧ isspace c = false.
Proof.
  revert k. induction p as [|c p IH]; intros k; [done |]. cbn [skip]. case_bool_decide as Hc.
  - intros [= <-]. split; [simpl; lia |]. exists c. by rewrite Hc.
  - destruct (isspace c) eqn:Es.
    + destruct (skip p) as [j|]; [| done]. intros [= <-]. destruct (IH j eq_refl) as (? & ?). split; [simpl; lia | done].
    + intros [= <-]. split; [simpl; lia |]. by exists c.
Qed.
Lemma length_copy_token p raw : copy_token p = Some raw → (length raw < length p)%nat ∧
  ∀ c, p !! 0%nat = Some c → isspace c = false → raw !! 0%nat = Some c.
Proof.
  revert raw. induction p as [|c p IH]; intros raw; [done |]. cbn [copy_token]. destruct (isspace c) eqn:Es.
  - intros [= <-]. split; [simpl; lia |]. intros d [= ->]. congruence.
  - destruct (copy_token p) as [t|]; [| done]. intros [= <-]. split; [simpl; specialize (IH t eq_refl); lia | by intros d [= ->]].
Qed.
Lemma squeeze_length p : ∀ out b q, squeeze p out b = Some q → (length q <= length p + length out)%nat.
Proof.
  induction p as [|c p IH]; intros out b q; cbn [squeeze]; [intros [= <-]; rewrite length_reverse; simpl; lia |].
  destruct (isspace c).
  - destruct b; [intros E; apply IH in E; simpl; lia |]. destruct out as [|d out]; [intros E; apply IH in E; simpl in *; lia |].
    case_bool_decide; intros E; apply IH in E; simpl in *; lia.
  - case_bool_decide; [destruct b; [destruct out as [|d out]; [done |] |] |]; intros E; apply IH in E; simpl in *; lia.
Qed.
Lemma length_string_at p : (length (string_at p) <= length p)%nat.
Proof. induction p as [|c p IH]; simpl; [lia |]. case_bool_decide; simpl; lia. Qed.
Lemma string_at_lt p : NUL ∈ p → (length (string_at p) < length p)%nat.
Proof.
  induction p as [|c p IH]; [by intros ?%elem_of_nil |]. intros Hp. simpl. case_bool_decide; simpl; [lia |].
  apply elem_of_cons in Hp as [E | Hp]; [congruence |]. specialize (IH Hp). lia.
Qed.
Lemma fgets_line_length n : ∀ f line rest, fgets_line n f = (line, rest) → (length line <= n)%nat.
Proof.
  induction n as [|n IH]; intros f line rest; [intros [= <- <-]; simpl; lia |]. destruct f as [|c f]; [intros [= <- <-]; simpl; lia |].
  simpl. case_bool_decide; [intros [= <- <-]; simpl; lia |]. destruct (fgets_line n f) as [l r] eqn:E. intros [= <- <-].
  apply IH in E. simpl. lia.
Qed.
Lemma fgets_array size mem f mem' rest :
  (0 < size)%nat → length mem = size → fgets size mem f = Some (mem', rest) → length mem' = size ∧ NUL ∈ mem'.
Proof.
  intros Hs Hm. unfold fgets. destruct f as [|c f]; [done |]. destruct (fgets_line (size - 1) (c :: f)) as [line r] eqn:E.
  intros [= <- <-]. apply fgets_line_length in E. split; [rewrite length_app, length_cons, length_drop; lia |].
  apply elem_of_app. right. by left.
Qed.
(** The arrays keep their size, and a line that has been read has been taken from the text. *)
Definition good (l : lexer) : Prop := length (linebuf l) = LINEBUF ∧ (lp l < LINEBUF)%nat.
Lemma next_line_reads fuel status l l' :
  length (linebuf l) = LINEBUF → next_line fuel status l = inr l' →
  good l' ∧ (length (stream l') < length (stream l))%nat ∧
  ∃ c, linebuf l' !! lp l' = Some c ∧ c ≠ NUL ∧ isspace c = false.
Proof.
  revert l. induction fuel as [|fuel IH]; intros l Hl; [done |]. cbn [next_line].
  destruct (fgets LINEBUF (linebuf l) (stream l)) as [[mem rest]|] eqn:Ef; [| done].
  pose proof (fgets_shrinks LINEBUF _ _ _ _ ltac:(unfold LINEBUF; lia) Ef) as Hsh.
  apply fgets_array in Ef as [Hmem Hnul]; [| unfold LINEBUF; lia | done].
  destruct (squeeze (string_at mem) [] false) as [out|] eqn:Eq; [| done]. destruct (last (string_at mem)) as [c|]; [| done].
  destruct (negb _); [done |]. apply squeeze_length in Eq. apply string_at_lt in Hnul. cbn [length] in Eq.
  set (buf := out ++ NUL :: drop (length out + 1) mem).
  assert (length buf = LINEBUF) as Hbuf by (unfold buf; rewrite length_app, length_cons, length_drop; lia).
  case_bool_decide as Eh.
  - destruct (scan_control out) as [[n w]|]; [| done]. intros E. apply IH in E as (? & Hlt & ?); [| done]. cbn [stream] in Hlt.
    split_and!; [done | lia | done].
  - destruct (skip buf) as [k|] eqn:Ek; [| done]. apply skip_bound in Ek as (Hk & d & Hd & Es).
    case_bool_decide as En.
    + intros E. apply IH in E as (? & Hlt & ?); [| done]. cbn [stream] in Hlt. split_and!; [done | lia | done].
    + intros [= <-]. cbn [stream linebuf lp]. split_and!; [split; cbn; [done | lia] | done |].
      exists d. split_and!; [done | by intros -> | done].
Qed.
Lemma next_line_not_tok fuel status l t l' : next_line fuel status l = inl (Tok t l') → False.
Proof.
  revert l. induction fuel as [|fuel IH]; intros l; [done |]. cbn [next_line].
  destruct (fgets _ _ _) as [[mem rest]|]; [| by destruct (status =? 0)].
  destruct (squeeze _ _ _); [| done]. destruct (last _); [| done]. destruct (negb _); [done |].
  case_bool_decide; [destruct (scan_control _) as [[n w]|]; [apply IH | done] |].
  destruct (skip _); [| done]. case_bool_decide; [apply IH | done].
Qed.
Lemma take_token_good l t l' c :
  good l → linebuf l !! lp l = Some c → isspace c = false → take_token l = Tok t l' →
  good l' ∧ stream l' = stream l ∧ (lp l < lp l')%nat.
Proof.
  intros [Hl Hp] Hc Hs. unfold take_token. destruct (copy_token _) as [raw|] eqn:E; [| done]. intros [= _ <-].
  apply length_copy_token in E as [E1 E2]. rewrite length_drop in E1. unfold good. cbn [linebuf lp stream].
  specialize (E2 c). rewrite lookup_drop, Nat.add_0_r in E2. specialize (E2 Hc Hs). apply lookup_lt_Some in E2.
  split_and!; [done | lia | done | lia].
Qed.
Lemma lex_measure status l t l' : good l → lex status l = Tok t l' → good l' ∧ (measure l' < measure l)%nat.
Proof.
  intros [Hl Hp]. unfold lex. destruct (skip _) as [k|] eqn:Ek; [| done]. apply skip_bound in Ek as (Hk & c & Hc & Hs).
  rewrite length_drop in Hk. rewrite lookup_drop in Hc. cbn [linebuf lp stream]. case_bool_decide as En.
  - destruct (next_line _ _ _) as [r|l1] eqn:E.
    { destruct r; intros ?; [| done ..]. by eapply (next_line_not_tok) in E. }
    apply next_line_reads in E as (Hg & Hlt & d & Hd & _ & Hds); [| done]. cbn [stream] in Hlt.
    intros E. eapply take_token_good in E as (Hg' & Hst & Hlp); [| done ..]. split; [done |].
    unfold measure. rewrite Hst. destruct Hg' as [_ Hg']. destruct Hg as [_ Hg]. unfold LINEBUF in *. lia.
  - intros E. eapply (take_token_good _ _ _ c) in E as (Hg' & Hst & Hlp); [| split; cbn; [done | lia] | done | done].
    split; [done |]. unfold measure. rewrite Hst. cbn [stream lp] in *. destruct Hg' as [_ Hg']. unfold LINEBUF in *. lia.
Qed.
Lemma findseen_spec s l x l' :
  findseen s l = Some (x, l') → ∃ l1 l2, l = l1 ++ x :: l2 ∧ l' = l1 ++ l2 ∧ name x = s ∧ Forall (λ n, name n ≠ s) l1.
Proof.
  unfold findseen. destruct (split_find _ l) as [[[l1 y] l2]|] eqn:E; [| done]. cbn. intros [= <- <-].
  apply split_find_Some in E as (-> & Hn%bool_decide_eq_true_1 & Hf). exists l1, l2. split_and!; [done .. |].
  eapply Forall_impl; [exact Hf |]. intros n. cbn. intros ?%bool_decide_eq_false_1. done.
Qed.
Lemma attach_leaf fuel base np l seen :
  pmid np ≠ PM_ID_NULL →
  attach fuel base (np :: l) seen = '(sts, l, seen) ← attach fuel base l seen; Some (sts, np :: l, seen).
Proof. intros H. destruct fuel; cbn [attach]; by rewrite (proj2 (Z.eqb_neq _ _)). Qed.
Lemma attach_inner fuel base np l seen :
  pmid np = PM_ID_NULL →
  attach (S fuel) base (np :: l) seen =
  match findseen (sub_path base (name np)) seen with
  | None => Some (PM_ERR_PMNS, np :: l, seen)
  | Some (xp, seen) =>
      '(sts, kids, seen) ← attach fuel (sub_path base (name np)) (first xp) seen;
      if sts =? 0 then '(sts, l, seen) ← attach (S fuel) base l seen; Some (sts, set_first kids np :: l, seen)
      else Some (sts, set_first kids np :: l, seen)
  end.
Proof. intros H. cbn [attach]. by rewrite H, Z.eqb_refl. Qed.
Lemma attach_total fuel : ∀ base l seen,
  (length seen <= fuel)%nat →
  ∃ sts l' seen', attach fuel base l seen = Some (sts, l', seen') ∧ (length seen' <= length seen)%nat.
Proof.
  induction fuel as [|fuel IH]; intros base l.
  - induction l as [|np l IHl]; intros seen Hs; [exists 0, [], seen; split; [done | lia] |].
    destruct (decide (pmid np = PM_ID_NULL)) as [E|E].
    + destruct seen; [| simpl in Hs; lia]. cbn [attach]. rewrite E, Z.eqb_refl. cbn. eauto.
    + rewrite attach_leaf by done. destruct (IHl seen Hs) as (sts & l' & seen' & -> & ?). cbn. eauto 6.
  - induction l as [|np l IHl]; intros seen Hs; [exists 0, [], seen; split; [done | lia] |].
    destruct (decide (pmid np = PM_ID_NULL)) as [E|E].
    + rewrite attach_inner by done. destruct (findseen _ seen) as [[xp seen1]|] eqn:Ef; [| eauto 6].
      apply findseen_spec in Ef as (l1 & l2 & -> & -> & _). rewrite length_app, length_cons in Hs.
      destruct (IH (sub_path base (name np)) (first xp) (l1 ++ l2)) as (sts & kids & seen2 & -> & H2); [rewrite length_app; lia |].
      rewrite length_app in H2. cbn [mbind option_bind]. destruct (sts =? 0).
      * destruct (IHl seen2) as (sts2 & l' & seen3 & -> & ?); [lia |]. cbn. do 3 eexists. split; [done |]. rewrite length_app, length_cons. lia.
      * do 3 eexists. split; [done |]. rewrite length_app, length_cons. lia.
    + rewrite attach_leaf by done. destruct (IHl seen Hs) as (sts & l' & seen' & -> & ?). cbn. eauto 6.
Qed.
Lemma pass2_total dupok p : ∃ r, pass2 dupok p = Some r.
Proof.
  unfold pass2. destruct (findseen root_name (seen p)) as [[r l]|]; [| eauto]. destruct (findseen root_name l); [eauto |].
  destruct (attach_total (length l) [] (first r) l ltac:(lia)) as (sts & kids & rest & -> & _). cbn [mbind option_bind].
  destruct (_ && _); [| eauto]. destruct (number 0 _) as [r' k]. destruct (__pmFixPMNSHashTab _ _ _). eauto.
Qed.
Lemma load_loop_total fuel status dupok l p :
  good l → (measure l < fuel)%nat → ∃ r, load_loop fuel status dupok l p = Some r.
Proof.
  revert l p. induction fuel as [|fuel IH]; intros l p Hg Hm; [lia |]. cbn [load_loop].
  destruct (lex status l) as [t l'|sts| |] eqn:E; [| | eauto ..].
  - apply lex_measure in E as [Hg' Hlt]; [| done]. destruct (parse t p) as [p'|]; [| eauto]. apply IH; [done | lia].
  - destruct (sts =? 0); [| eauto]. destruct (pass2_total dupok p) as ([sts' m] & ->). cbn. eauto.
Qed.
Lemma loadascii_total dupok s : length (s_linebuf s) = LINEBUF → ∃ r, loadascii dupok s = Some r.
Proof.
  intros Hl. unfold loadascii. destruct (s_access s); [eauto |]. destruct (s_popen s); [eauto |].
  apply load_loop_total.
  - split; cbn; [| unfold LINEBUF; lia]. rewrite <- Hl. destruct (s_linebuf s); [by unfold LINEBUF in Hl | done].
  - unfold measure, load_fuel. cbn [stream lp]. unfold LINEBUF. lia.
Qed.

(** ** What is loaded *)

(** The tokens of a text, up to where the analyser stops. *)
Fixpoint tokens (fuel : nat) (status : Z) (l : lexer) : list token :=
  match fuel with
  | O => []
  | S fuel => match lex status l with Tok t l => t :: tokens fuel status l | _ => [] end
  end.
Definition text_tokens (s : source) : list token :=
  tokens (load_fuel s) (s_status s) (mkLexer (NUL :: tail (s_linebuf s)) 0 (s_text s) 1 (s_fname s)).
Fixpoint parse_all (ts : list token) (p : parser) : option parser :=
  match ts with [] => Some p | t :: ts => p ← parse t p; parse_all ts p end.
Lemma load_loop_tokens fuel status dupok l p m :
  load_loop fuel status dupok l p = Some (Result 0 m) →
  ∃ p', parse_all (tokens fuel status l) p = Some p' ∧ pass2 dupok p' = Some (0, m).
Proof.
  revert l p. induction fuel as [|fuel IH]; intros l p; [done |]. cbn [load_loop tokens].
  destruct (lex status l) as [t l'|sts| |] eqn:E; [| | done ..].
  - cbn [parse_all]. destruct (parse t p) as [p'|]; [| done]. cbn [mbind option_bind]. apply IH.
  - cbn [parse_all]. destruct (Z.eqb_spec sts 0) as [-> |]; [| intros [= ? <-]; done].
    destruct (pass2 dupok p) as [[sts m']|] eqn:Ep; [| done]. cbn [mbind option_bind]. intros [= -> ->]. by exists p.
Qed.
(** Tokens whose numbers have not run over. *)
Definition plain_token (t : token) : bool :=
  match t with
  | NAME s => negb (bool_decide (dot ∈ s))
  | PMID v => (0 <=? v) && (v <? PMID_MASK)
  | _ => true
  end.
Lemma classify_name s t : classify s = t → match t with NAME u => u = s ∧ dot ∉ u | PATH u => u = s | _ => True end.
Proof.
  intros <-. unfold classify. case_bool_decide; [done |]. case_bool_decide; [done |]. destruct (match s with [] => _ | _ => _ end).
  - by case_bool_decide.
  - destruct (pmid_chars s); [| done]. unfold lex_pmid. by repeat case_match.
Qed.

(** A child as the parser makes it, and a subtree. *)
Definition stub (k : node) : Prop := first k = [] ∧ (dot ∉ name k) ∧ plain_pmid (pmid k).
Definition flat (x : node) : Prop := pmid x = PM_ID_NULL ∧ Forall stub (first x).
Record parsed (p : parser) : Prop := {
  ps_flat : Forall flat (seen p);
  ps_tail : Forall (λ x, NoDup (name <$> first x)) (tail (seen p));
  ps_head : state p = 0 → Forall (λ x, NoDup (name <$> first x)) (seen p);
  ps_some : state p ≠ 0 → seen p ≠ [];
  ps_new : state p = 1 → from_option first [] (head (seen p)) = [];
  ps_count : Z.of_nat (length (seen p)) <= seenpmid p }.
Lemma Forall_set_last (P : node → Prop) f l : Forall P l → (∀ x, P x → P (f x)) → Forall P (set_last f l).
Proof.
  intros Hl Hf. unfold set_last. destruct (last l) as [x|] eqn:E; [| done].
  apply last_Some in E as [l' ->]. rewrite removelast_last. apply Forall_app in Hl as [H1 H2].
  apply Forall_app. split; [done |]. apply Forall_singleton. apply Hf. by inversion H2.
Qed.
Lemma parse_parsed t p p' : parsed p → plain_token t = true → parse t p = Some p' → parsed p'.
Proof.
  intros [H1 H2 H3 H4 H5 H6] Ht. unfold parse.
  assert (state p ≠ 0 → ∀ s, dot ∉ s → parsed (add_child s p)) as Hadd.
  { intros Hs s Hd. unfold add_child. destruct (seen p) as [|x l]; [by destruct (H4 Hs) |]. inversion H1 as [|? ? [Hx1 Hx2] Hl]; subst.
    constructor; cbn [seen state seenpmid tail head from_option]; [| done | done | done | done | simpl in *; lia].
    constructor; [| done]. split; [done |]. cbn [set_first first]. apply Forall_app. split; [done |]. apply Forall_singleton.
    split_and!; [done | done | by left]. }
  assert (state p ≠ 0 → end_subtree p = Some p' → parsed p') as Hend.
  { intros Hs. unfold end_subtree. case_bool_decide as Hd; [| done]. intros [= <-]. constructor; cbn [seen state seenpmid]; try done.
    intros _. destruct (seen p) as [|x l]; [constructor |]. by constructor. }
  destruct (Z.eqb_spec (state p) 0) as [E0|E0].
  { assert (∀ s, parsed (new_subtree s p)) as Hnew.
    { intros s. constructor; cbn [seen state seenpmid new_subtree tail head]; [| by apply H3 | done | done | done | simpl; lia].
      constructor; [by split; [| constructor] | done]. }
    destruct t; try done; intros [= <-]; apply Hnew. }
  destruct (Z.eqb_spec (state p) 1) as [E1|E1].
  { destruct t; try done. intros [= <-]. constructor; try done. intros _. by apply H4. }
  assert (state p ≠ 0) as Hs by done.
  destruct (state p =? 2).
  { destruct t as [s| | | | |]; try done; [intros [= <-]; apply Hadd; [done | cbn in Ht; by apply negb_true_iff, bool_decide_eq_false_1 in Ht] | by apply Hend]. }
  destruct t as [s| |v| | |]; try done; [intros [= <-]; apply Hadd; [done | cbn in Ht; by apply negb_true_iff, bool_decide_eq_false_1 in Ht] | | by apply Hend].
  intros [= <-]. unfold set_tokpmid. destruct (seen p) as [|x l]; [by destruct (H4 Hs) |].
  inversion H1 as [|? ? [Hx1 Hx2] Hl]; subst. constructor; cbn [seen state seenpmid tail head]; [| done | done | done | done | done].
  constructor; [| done]. split; [done |]. cbn [set_first first]. apply Forall_set_last; [done |].
  intros k (Hk1 & Hk2 & _). split_and!; [by destruct k | by destruct k |]. cbn in Ht. apply andb_true_iff in Ht as [?%Z.leb_le ?%Z.ltb_lt].
  right. by destruct k.
Qed.
Lemma parse_all_parsed ts p p' : parsed p → forallb plain_token ts = true → parse_all ts p = Some p' → parsed p'.
Proof.
  revert p. induction ts as [|t ts IH]; intros p Hp; cbn [forallb parse_all]; [by intros _ [= <-] |].
  intros [Ht Hts]%andb_true_iff. destruct (parse t p) as [p1|] eqn:E; [| done]. cbn [mbind option_bind]. apply IH; [| done].
  by eapply parse_parsed.
Qed.

(** A subtree with everything below it. *)
Definition tidy (n : node) : Prop := uniq n ∧ Forall (λ k, (dot ∉ name k) ∧ plain_pmid (pmid k)) (below n).
Lemma tidy_eq n :
  tidy n ↔ NoDup (name <$> first n) ∧ Forall (λ k, (dot ∉ name k) ∧ plain_pmid (pmid k) ∧ tidy k) (first n).
Proof.
  unfold tidy, uniq, nodes. rewrite below_eq, Forall_cons. split.
  - intros [[H1 H2] H3]. split; [done |]. apply Forall_forall. intros k Hk. rewrite !Forall_forall in *.
    assert (∀ x, x ∈ nodes k → x ∈ flat_map nodes (first n)) as Hin by (intros; apply elem_of_flat_map; eauto).
    destruct (H3 k (Hin _ (nodes_self k))) as [? ?]. split_and!; [done | done | ..].
    + intros x Hx. apply H2, Hin, Hx.
    + intros x Hx. apply H3, Hin. by right.
  - intros [H1 H2]. rewrite Forall_forall in H2. split; [split; [done |] |]; apply Forall_forall; intros x (k & Hk & Hx)%elem_of_flat_map;
      destruct (H2 k Hk) as (Hd & Hp & Hu & Hb).
    + apply Forall_cons in Hu as [Hu1 Hu2]. rewrite Forall_forall in Hu2. apply elem_of_cons in Hx as [-> | Hx]; [done | by apply Hu2].
    + rewrite Forall_forall in Hb. apply elem_of_cons in Hx as [-> | Hx]; [done | by apply Hb].
Qed.
Definition subtree_ok (x : node) : Prop := flat x ∧ NoDup (name <$> first x).
Lemma attach_tidy fuel : ∀ base l seen sts l' seen',
  Forall stub l → Forall subtree_ok seen → attach fuel base l seen = Some (sts, l', seen') →
  name <$> l' = name <$> l ∧ Forall (λ k, (dot ∉ name k) ∧ plain_pmid (pmid k) ∧ tidy k) l' ∧ Forall subtree_ok seen'.
Proof.
  assert (∀ k, stub k → (dot ∉ name k) ∧ plain_pmid (pmid k) ∧ tidy k) as Hstub.
  { intros k (Hf & Hd & Hp). split_and!; [done .. |]. apply tidy_eq. rewrite Hf. split; [apply NoDup_nil_2 | constructor]. }
  assert (∀ l, Forall stub l → Forall (λ k, (dot ∉ name k) ∧ plain_pmid (pmid k) ∧ tidy k) l) as Hstubs.
  { intros l Hl. eapply Forall_impl; [exact Hl |]. exact Hstub. }
  induction fuel as [|fuel IH]; intros base l; induction l as [|np l IHl]; intros seen sts l' seen' Hl Hseen;
    try (intros [= <- <- <-]; by split_and!; [| constructor |]); apply Forall_cons in Hl as [Hnp Hl];
    (destruct (decide (pmid np = PM_ID_NULL)) as [E|E]; [| rewrite attach_leaf by done;
       destruct (attach _ base l seen) as [[[s1 l1] seen1]|] eqn:Ea; [| done]; intros [= <- <- <-];
       apply IHl in Ea as (Hn & H1 & H2); [| done ..]; rewrite !fmap_cons, Hn; split_and!; [done | | done]; constructor; [by apply Hstub | done]]).
  - cbn [attach]. rewrite E, Z.eqb_refl. destruct (findseen _ seen) as [[? ?]|]; [done |]. intros [= <- <- <-].
    split_and!; [done | | done]. apply Hstubs. by constructor.
  - rewrite attach_inner by done. destruct (findseen _ seen) as [[xp seen1]|] eqn:Ef.
    2: { intros [= <- <- <-]. split_and!; [done | | done]. apply Hstubs. by constructor. }
    apply findseen_spec in Ef as (s1 & s2 & -> & -> & _). apply Forall_app in Hseen as [Hs1 [[[_ Hx1] Hx2] Hs2]%Forall_cons].
    destruct (attach fuel _ (first xp) (s1 ++ s2)) as [[[s kids] seen2]|] eqn:Ek; [| done]. cbn [mbind option_bind].
    apply IH in Ek as (Hn & Hk & Hs); [| done | by apply Forall_app].
    assert ((dot ∉ name (set_first kids np)) ∧ plain_pmid (pmid (set_first kids np)) ∧ tidy (set_first kids np)) as Hset.
    { destruct Hnp as (_ & ? & ?). split_and!; [done .. |]. apply tidy_eq. cbn [set_first first]. by rewrite Hn. }
    destruct (s =? 0).
    + destruct (attach (S fuel) base l seen2) as [[[s3 l3] seen3]|] eqn:Ea; [| done]. intros [= <- <- <-].
      apply IHl in Ea as (Hn3 & H1 & H2); [| done ..]. rewrite !fmap_cons, Hn3. split_and!; [done | by constructor | done].
    + intros [= <- <- <-]. rewrite !fmap_cons. split_and!; [done | | done]. constructor; [done |]. by apply Hstubs.
Qed.

(** ** Addresses *)

Fixpoint number_list (k : nat) (l : list node) : list node * nat :=
  match l with
  | [] => ([], k)
  | x :: l => let '(x, k) := number k x in let '(l, k) := number_list k l in (x :: l, k)
  end.
Lemma number_eq k n :
  number k n = let '(l, k') := number_list (S k) (first n) in (Node k (name n) (pmid n) l, k').
Proof.
  destruct n as [i s p l]. cbn [number first name pmid].
  assert (∀ j, (fix go (k : nat) (l : list node) : list node * nat :=
                  match l with
                  | [] => ([], k)
                  | x :: l => let '(x, k) := number k x in let '(l, k) := go k l in (x :: l, k)
                  end) j l = number_list j l) as ->; [| done].
  induction l as [|x l IH]; intros j; [done |]. cbn [number_list]. destruct (number j x) as [x' j']. by rewrite IH.
Qed.
(** The tree without its addresses. *)
Fixpoint strip (n : node) : node := let '(Node _ s p l) := n in Node 0 s p (strip <$> l).
Lemma strip_eq n : strip n = Node 0 (name n) (pmid n) (strip <$> first n).
Proof. by destruct n. Qed.
Lemma below_strip r : below (strip r) = strip <$> below r.
Proof.
  induction r as [i s p l IH] using node_ind'. cbn [strip below].
  induction IH as [|k l Hk _ IHl]; [done |]. rewrite fmap_cons. cbn [flat_map]. by rewrite Hk, IHl, fmap_app.
Qed.
Lemma name_strip n : name (strip n) = name n.
Proof. by destruct n. Qed.
Lemma pmid_strip n : pmid (strip n) = pmid n.
Proof. by destruct n. Qed.
Lemma first_strip n : first (strip n) = strip <$> first n.
Proof. by destruct n. Qed.
Lemma number_spec n : ∀ k n' k',
  number k n = (n', k') → strip n' = strip n ∧ ids n' = seq k (k' - k) ∧ (k < k')%nat.
Proof.
  induction n as [i s p l IH] using node_ind'. intros k n' k'. rewrite number_eq. cbn [first name pmid].
  assert (∀ j l' j', number_list j l = (l', j') →
    strip <$> l' = strip <$> l ∧ flat_map ids l' = seq j (j' - j) ∧ (j <= j')%nat) as Hl.
  { clear -IH. induction IH as [|x l Hx _ IHl]; intros j l' j'; cbn [number_list].
    - intros [= <- <-]. split_and!; [done | by rewrite Nat.sub_diag | lia].
    - destruct (number j x) as [x' j1] eqn:E1. destruct (number_list j1 l) as [l1 j2] eqn:E2. intros [= <- <-].
      apply Hx in E1 as (E1 & E1' & ?). apply IHl in E2 as (E2 & E2' & ?). rewrite !fmap_cons, E1, E2. cbn [flat_map].
      rewrite E1', E2'. split_and!; [done | | lia]. replace j1 with (j + (j1 - j))%nat at 2 by lia.
      rewrite <- seq_app. f_equal. lia. }
  destruct (number_list (S k) l) as [l' j] eqn:E. intros [= <- <-]. apply Hl in E as (E1 & E2 & ?).
  cbn [strip]. rewrite E1. split_and!; [done | | lia]. rewrite ids_eq. cbn [nid first]. rewrite E2.
  replace (j - k)%nat with (S (j - S k)) by lia. done.
Qed.
Lemma tidy_strip n : tidy n ↔ tidy (strip n).
Proof.
  unfold tidy, uniq, nodes. rewrite !Forall_cons, below_strip, !Forall_fmap. unfold compose. rewrite first_strip.
  assert (∀ k : list node, name <$> (strip <$> k) = name <$> k) as Hn.
  { intros k. rewrite <- list_fmap_compose. by apply list_fmap_ext; intros ? []. }
  rewrite Hn. setoid_rewrite first_strip. setoid_rewrite Hn. setoid_rewrite name_strip. by setoid_rewrite pmid_strip.
Qed.
Lemma number_built r k r' k' size cont :
  tidy r → name r = root_name → pmid r = PM_ID_NULL → number k r = (r', k') →
  built (mkTree r' [] size cont UNKNOWN_MARK_STATE k').
Proof.
  intros Ht Hn Hp E. apply number_spec in E as (Es & Ei & Hk). rewrite tidy_strip, <- Es, <- tidy_strip in Ht.
  assert (name r' = root_name) as Hn' by (rewrite <- name_strip, Es, name_strip; done).
  assert (pmid r' = PM_ID_NULL) as Hp' by (rewrite <- pmid_strip, Es, pmid_strip; done).
  destruct Ht as [Hu Hb]. constructor; cbn [root next_id mark_state]; [| | done | | done | | done].
  - rewrite Ei. apply NoDup_seq.
  - rewrite Ei. apply Forall_forall. intros x Hx. apply elem_of_seq in Hx. lia.
  - constructor; [rewrite Hn'; by apply (bool_decide_eq_true_1 _) |]. eapply Forall_impl; [exact Hb |]. by intros x [? _].
  - intros n [-> | Hin]%elem_of_cons; [by left |]. rewrite Forall_forall in Hb. by apply Hb.
Qed.
(** What [pass2] makes of well-formed subtrees. *)
Lemma pass2_spec dupok p m :
  parsed p → state p = 0 → pass2 dupok p = Some (0, m) →
  ∃ t0 n t, m = Loaded t ∧ built t0 ∧ 0 <= n ∧ __pmFixPMNSHashTab t0 n dupok = (0, t).
Proof.
  intros [H1 H2 H3 H4 H5 H6] Hs. unfold pass2.
  assert (Forall subtree_ok (seen p)) as Hok.
  { specialize (H3 Hs). rewrite !Forall_forall in *. intros x Hx. split; [by apply H1 | by apply H3]. }
  destruct (findseen root_name (seen p)) as [[r l]|] eqn:Er; [| done].
  apply findseen_spec in Er as (l1 & l2 & El & -> & Hr & _). rewrite El in Hok, H6.
  apply Forall_app in Hok as [Hl1 [[[Hp Hst] Hnd] Hl2]%Forall_cons].
  destruct (findseen root_name (l1 ++ l2)) as [?|]; [done |].
  destruct (attach_total (length (l1 ++ l2)) [] (first r) (l1 ++ l2) ltac:(lia)) as (sts & kids & rest & Ea & Hlen).
  rewrite Ea. cbn [mbind option_bind]. destruct (Z.eqb_spec sts 0) as [-> |]; cbn [andb]; [| by intros [= ? _]].
  case_bool_decide as Erest; [| done].
  apply attach_tidy in Ea as (Hn & Hk & _); [| done | by apply Forall_app].
  destruct (number 0 (set_first kids r)) as [r' k] eqn:Enum.
  set (t0 := mkTree r' [] 0 false UNKNOWN_MARK_STATE k).
  assert (built t0) as Hb.
  { apply (number_built (set_first kids r) 0 r' k); [| done | done | done]. apply tidy_eq. cbn [set_first first].
    split; [by rewrite Hn | done]. }
  set (n := seenpmid p - (Z.of_nat (length (l1 ++ l2)) - Z.of_nat (length rest))).
  destruct (__pmFixPMNSHashTab t0 n dupok) as [sts t] eqn:Ef. intros [= -> <-].
  exists t0, n, t. split_and!; [done | done | | done]. unfold n. rewrite !length_app, length_cons in *. lia.
Qed.
Lemma new_parsed : parsed (mkParser 0 [] 0).
Proof. by constructor; try constructor. Qed.
(** A text that ends after a subtree makes a name space in order. *)
Lemma load_spec dupok s m p :
  s_access s = None → s_popen s = None →
  loadascii dupok s = Some (Result 0 m) → forallb plain_token (text_tokens s) = true →
  parse_all (text_tokens s) (mkParser 0 [] 0) = Some p → state p = 0 →
  ∃ t0 n t, m = Loaded t ∧ built t0 ∧ 0 <= n ∧ __pmFixPMNSHashTab t0 n dupok = (0, t).
Proof.
  unfold loadascii, text_tokens. intros -> -> El Ht Ep Hs.
  apply load_loop_tokens in El as (p' & Ep' & E2). rewrite Ep in Ep'. injection Ep' as <-.
  apply (pass2_spec dupok p); [| done | done]. eapply parse_all_parsed; [apply new_parsed | done | done].
Qed.
Lemma sub_path_join (bp : list str) s : bp = [] ∨ join bp ≠ [] → sub_path (join bp) s = join (bp ++ [s]).
Proof.
  intros [-> | H]; [done |]. rewrite join_snoc by (by intros ->). unfold sub_path. by destruct (join bp).
Qed.

End PmnsLoad.
Import PmnsLoad.

(** ** Theorems *)



(** ** Examples *)

Definition text_source (text : str) : source := mkSource None None text 0 (replicate LINEBUF NUL) [].
Definition ex_lines : str :=
  root_name ++ [space; lbrace; newline; Byte.x61; newline; Byte.x62; space; Byte.x31; colon; Byte.x32; colon; Byte.x33; newline; rbrace; newline;
    Byte.x61; space; lbrace; newline; Byte.x63; space; Byte.x31; colon; Byte.x32; colon; Byte.x34; newline; rbrace; newline].
Definition loaded_tree (r : option (loaded)) : option tree := match r with Some (Result 0 (Loaded t)) => Some t | _ => None end.
Lemma loaded_tree_Some r t : loaded_tree r = Some t → r = Some (Result 0 (Loaded t)).
Proof. destruct r as [[[] [| |] | |] |]; simpl; congruence. Qed.


(** ** What goes wrong *)

(** Identifiers with too many or too few fields, or with stray stars, are taken. *)
Lemma malformed_pmids :
  classify [Byte.x31; Byte.x32] = PMID (pmid_build DYNAMIC_PMID 12 0) ∧
  classify [Byte.x31; star; Byte.x32] = PMID (pmid_build DYNAMIC_PMID 1 0) ∧
  classify [Byte.x31; colon; Byte.x32; colon; Byte.x33; colon; Byte.x34] = PMID (pmid_build 1 2 3) ∧
  classify [Byte.x31; colon; Byte.x32; colon; Byte.x33; star] = PMID (pmid_build 1 2 3).
Proof. vm_compute. done. Qed.
(** A colon that follows a colon and white space replaces the first one. *)
Lemma colon_lost :
  squeeze [Byte.x31; colon; space; colon; Byte.x32; newline] [] false = Some [Byte.x31; colon; Byte.x32; newline].
Proof. done. Qed.
(** A line that ends with a colon has no white space after it: the analyser goes on behind
    the end of the line, and of the buffer; a line that starts with white space and a colon
    is stored in front of the buffer. *)
Lemma colon_overruns :
  loadascii false (text_source [Byte.x72; colon; newline]) = Some Undefined ∧
  loadascii false (text_source [space; colon; newline]) = Some Undefined.
Proof. vm_compute. done. Qed.
(** The end of the text is accepted in the middle of a subtree, whose names are then not
    compared: here a name is loaded twice. *)
Definition cut_text : str :=
  root_name ++ [space; lbrace; newline; Byte.x61; space; Byte.x31; colon; Byte.x32; colon; Byte.x33; newline;
    Byte.x61; space; Byte.x31; colon; Byte.x32; colon; Byte.x34; newline].
Lemma cut_accepted : (λ t, name <$> first (root t)) <$> loaded_tree (loadascii false (text_source cut_text)) = Some [[Byte.x61]; [Byte.x61]].
Proof. vm_compute. reflexivity. Qed.
(** A text without root leaves a name space without one, whose table was never set. *)
Lemma failed_load_leaves_broken :
  loadascii false (text_source [Byte.x61; space; lbrace; newline; rbrace; newline]) = Some (Result PM_ERR_PMNS (Broken None)).
Proof. vm_compute. reflexivity. Qed.
