(* ===== verification/PmnsWrite.v ===== *)
(** The routine that writes a name space as text, pmns/pmnsutil.c, and the round trip: what
    [pmns_output] writes is what the loader of PmnsLoad.v reads. *)
From S2P Require Import Prelude Memory Text Types PmnsTree PmnsLoad.
Import PmnsTree.Pmns PmnsLoad.PmnsLoad.

Module PmnsWrite.

(** ** Writing a name space *)

(** The text so far and the static [lastdepth] of [output]. *)
Record outfile := mkOut { text : str; lastdepth : Z }.
Definition put (s : str) (d : Z) (o : outfile) : outfile := mkOut (text o ++ s) d.
Definition show_pmid (p : Z) : str :=
  if dynamic p then show (pmid_cluster p) ++ [colon; star; colon; star]
  else show (pmid_domain p) ++ colon :: show (pmid_cluster p) ++ colon :: show (pmid_item p).
Definition output (p : option node) (depth : Z) (path : str) (o : outfile) : outfile :=
  match p with
  | None =>
      put (if (0 <? lastdepth o) || ((lastdepth o =? 1) && (depth =? -2)) then [rbrace; newline] else []) (-1) o
  | Some p =>
      if depth =? 0 then put (root_name ++ [space; lbrace; newline]) 1 o
      else
        put ((if depth =? lastdepth o then [] else newline :: path ++ [space; lbrace; newline]) ++
             (match first p with
              | [] => tab :: name p ++ tab :: show_pmid (pmid p) ++ [newline]
              | _ => tab :: name p ++ [newline]
              end)) depth o
  end.
Definition new_path (depth : Z) (path s : str) : str :=
  if depth =? 0 then [] else if depth =? 1 then s else path ++ dot :: s.
(** pmns_traverse of the children of a node that has some. *)
Fixpoint traverse (n : node) (depth : Z) (path : str) (o : outfile) : outfile :=
  let '(Node _ _ _ l) := n in
  let o := foldl (λ o q, output (Some q) depth path o) o l in
  let o := output None (-1) [] o in
  (fix go (l : list node) (o : outfile) : outfile :=
     match l with
     | [] => o
     | q :: l => go l (match first q with [] => o | _ => traverse q (depth + 1) (new_path depth path (name q)) o end)
     end) l o.
Definition pmns_output (r : node) : str :=
  let o := output (Some r) 0 [] (mkOut [] (-1)) in
  let o := match first r with [] => o | _ => traverse r 1 (new_path 0 [] (name r)) o end in
  text (output None (-2) [] o).
(** ** A name space that is written is loaded again *)

(** The nodes with children, depth first, with their paths. *)
Definition inner (x : node) : bool := match first x with [] => false | _ => true end.
Definition inner_walk (r : node) : list (list str * node) := filter (λ e, inner e.2 = true) (walk r).
(** What is written of a child, and of the children of a node. *)
Definition kid_text (k : node) : str :=
  if inner k then tab :: name k ++ [newline] else tab :: name k ++ tab :: show_pmid (pmid k) ++ [newline].
Definition kids_text (x : node) : str := flat_map kid_text (first x) ++ [rbrace; newline].
Definition block (e : list str * node) : str := newline :: join e.1 ++ [space; lbrace; newline] ++ kids_text e.2.

Lemma outputs_text l depth path o :
  0 < depth → lastdepth o = depth →
  foldl (λ o q, output (Some q) depth path o) o l = mkOut (text o ++ flat_map kid_text l) depth.
Proof.
  intros Hd. revert o. induction l as [|k l IH]; intros o Ho; [destruct o; cbn in *; by rewrite app_nil_r, Ho |].
  cbn [foldl]. rewrite IH.
  - cbn [output put text]. rewrite (proj2 (Z.eqb_neq _ _)) by lia. rewrite Ho, Z.eqb_refl. unfold put. cbn [text]. f_equal. rewrite <- app_assoc. f_equal.
    cbn [flat_map app]. unfold kid_text, inner. by destruct (first k).
  - cbn [output]. by rewrite (proj2 (Z.eqb_neq _ _)) by lia.
Qed.
Lemma outputs_header l depth path o :
  1 < depth → lastdepth o = -1 → l ≠ [] →
  foldl (λ o q, output (Some q) depth path o) o l =
  mkOut (text o ++ newline :: path ++ [space; lbrace; newline] ++ flat_map kid_text l) depth.
Proof.
  intros Hd Ho Hl. destruct l as [|k l]; [done |]. cbn [foldl]. rewrite outputs_text; [| lia |].
  - cbn [output put text]. rewrite (proj2 (Z.eqb_neq depth 0)) by lia. rewrite Ho, (proj2 (Z.eqb_neq depth (-1))) by lia.
    unfold put. cbn [text]. f_equal. rewrite <- !app_assoc. f_equal. cbn [app flat_map]. f_equal. rewrite <- !app_assoc. f_equal. cbn [app]. do 3 f_equal.
    unfold kid_text at 2. unfold inner. by destruct (first k).
  - cbn [output]. by rewrite (proj2 (Z.eqb_neq depth 0)) by lia.
Qed.
Definition shift (p : list str) (e : list str * node) : list str * node := (p ++ e.1, e.2).
Lemma inner_walk_eq r :
  inner_walk r = flat_map (λ k, (if inner k then [([name k], k)] else []) ++ (shift [name k] <$> inner_walk k)) (first r).
Proof.
  unfold inner_walk. rewrite walk_eq. induction (first r) as [|k l IH]; [done |]. cbn [flat_map]. rewrite filter_app, IH. f_equal.
  rewrite filter_cons. assert (filter (λ e, inner e.2 = true) ((λ '(p, x), (name k :: p, x)) <$> walk k) =
    shift [name k] <$> filter (λ e, inner e.2 = true) (walk k)) as ->.
  { induction (walk k) as [|[p x] w IHw]; [done |]. rewrite fmap_cons, !filter_cons, IHw. cbn [snd]. by destruct (inner x). }
  cbn [snd]. by destruct (inner k).
Qed.
Lemma inner_walk_leaf k : inner k = false → inner_walk k = [].
Proof. intros H. rewrite inner_walk_eq. unfold inner in H. by destruct (first k). Qed.
Lemma traverse_eq n depth path o :
  traverse n depth path o =
  foldl (λ o q, if inner q then traverse q (depth + 1) (new_path depth path (name q)) o else o)
    (output None (-1) [] (foldl (λ o q, output (Some q) depth path o) o (first n))) (first n).
Proof.
  destruct n as [i s p l]. cbn [traverse first]. generalize (output None (-1) [] (foldl (λ o q, output (Some q) depth path o) o l)).
  induction l as [|q l IH]; intros o'; [done |]. cbn [foldl]. rewrite <- IH. unfold inner. by destruct (first q).
Qed.
(** Names are not empty, so that neither are paths. *)
Definition named_nodes (r : node) : Prop := Forall (λ n, name n ≠ []) (below r).
Lemma named_child r k : named_nodes r → k ∈ first r → name k ≠ [] ∧ named_nodes k.
Proof.
  unfold named_nodes. rewrite below_eq, !Forall_forall. intros H Hk. split; [apply H, elem_of_flat_map; exists k; split; [done | apply nodes_self] |].
  intros n Hn. apply H, elem_of_flat_map. exists k. split; [done | by right].
Qed.
Lemma new_path_join depth (bp : list str) s :
  (depth = 1 ∧ bp = []) ∨ (1 < depth ∧ bp ≠ []) → new_path depth (join bp) s = join (bp ++ [s]).
Proof.
  intros [[-> ->] | [Hd Hb]]; [done |]. unfold new_path. rewrite (proj2 (Z.eqb_neq _ _)), (proj2 (Z.eqb_neq _ _)) by lia.
  by rewrite join_snoc.
Qed.
Lemma traverse_text n : ∀ depth bp o,
  inner n = true →
  (depth = 1 ∧ bp = [] ∧ lastdepth o = 1) ∨ (1 < depth ∧ bp ≠ [] ∧ lastdepth o = -1) →
  traverse n depth (join bp) o =
  mkOut (text o ++ (if depth =? 1 then kids_text n else block (bp, n)) ++ flat_map block (shift bp <$> inner_walk n)) (-1).
Proof.
  induction n as [i s p l IH] using node_ind'. intros depth bp o Hi Hc. rewrite traverse_eq. cbn [first].
  assert (l ≠ []) as Hl by (by destruct l).
  assert (output None (-1) [] (foldl (λ o q, output (Some q) depth (join bp) o) o l) =
    mkOut (text o ++ if depth =? 1 then kids_text (Node i s p l) else block (bp, Node i s p l)) (-1)) as ->.
  { destruct Hc as [(-> & -> & Ho) | (Hd & Hb & Ho)].
    - rewrite outputs_text by done. unfold kids_text. cbn. f_equal. by rewrite app_assoc.
    - rewrite outputs_header by done. rewrite (proj2 (Z.eqb_neq _ _)) by lia. unfold block, kids_text. cbn [output put lastdepth text first fst snd].
      rewrite (proj2 (Z.ltb_lt _ _)) by lia. unfold put. cbn [text orb]. f_equal. rewrite <- !app_assoc. cbn [app]. rewrite <- !app_assoc. done. }
  set (T := text o ++ _). rewrite app_assoc. fold T. clearbody T. clear Hl Hi.
  rewrite inner_walk_eq. cbn [first]. revert T. induction IH as [|k l Hk _ IHl]; intros T; [cbn; by rewrite app_nil_r |].
  cbn [foldl flat_map]. destruct (inner k) eqn:Ek.
  - rewrite new_path_join by (destruct Hc as [(? & ? & _) | (? & ? & _)]; [by left | by right]).
    rewrite Hk; [| done |]. 2: { right. split_and!; [destruct Hc as [(-> & _) | (? & _)]; lia | by destruct bp | done]. }
    rewrite IHl. f_equal. cbn [text]. rewrite (proj2 (Z.eqb_neq (depth + 1) 1)) by (destruct Hc as [(-> & _) | (? & _)]; lia).
    rewrite <- !app_assoc. f_equal. rewrite !fmap_app, !flat_map_app. cbn [fmap list_fmap flat_map app].
    rewrite <- !app_assoc. unfold shift at 3. cbn [fst snd app]. f_equal. f_equal.
    rewrite <- list_fmap_compose. f_equal. apply list_fmap_ext. intros j [q x] _. unfold shift, compose. cbn. by rewrite <- app_assoc.
  - rewrite IHl. f_equal. rewrite (inner_walk_leaf k Ek). done.
Qed.
Lemma pmns_output_text r :
  pmns_output r = root_name ++ [space; lbrace; newline] ++ kids_text r ++ flat_map block (inner_walk r).
Proof.
  unfold pmns_output. cbn [output]. cbn [Z.eqb put text app]. destruct (first r) as [|k l] eqn:Ef.
  - rewrite (inner_walk_leaf r) by (unfold inner; by rewrite Ef). unfold kids_text. rewrite Ef. done.
  - change (new_path 0 [] (name r)) with (join []). rewrite traverse_text; [| unfold inner; by rewrite Ef | by left].
    cbn [output put lastdepth text Z.eqb Z.ltb Z.compare andb orb]. rewrite app_nil_r.
    assert (shift [] <$> inner_walk r = inner_walk r) as -> by (rewrite <- (list_fmap_id (inner_walk r)) at 2; apply list_fmap_ext; by intros j [? ?] _).
    cbn [Pos.eqb]. by rewrite <- !app_assoc.
Qed.

(** ** Lexing lines *)

Definition wordy (w : str) : Prop := w ≠ [] ∧ Forall (λ c, isspace c = false ∧ c ≠ NUL) w.
Definition at_rest (l : lexer) (r : str) : Prop :=
  length (linebuf l) = LINEBUF ∧ ∃ junk, drop (lp l) (linebuf l) = r ++ NUL :: junk.
Lemma space_not_nul c : isspace c = true → c ≠ NUL.
Proof. by intros H ->. Qed.
Lemma skip_spaces sp p :
  Forall (λ c, isspace c = true) sp → match p with c :: _ => isspace c = false | [] => False end →
  skip (sp ++ p) = Some (length sp).
Proof.
  intros Hs Hp. induction Hs as [|c sp Hc _ IH].
  - destruct p as [|c p]; [done |]. cbn [app skip]. case_bool_decide; [done |]. by rewrite Hp.
  - cbn [app skip]. rewrite bool_decide_eq_false_2 by (by apply space_not_nul). by rewrite Hc, IH.
Qed.
Lemma copy_word w c p : Forall (λ c, isspace c = false ∧ c ≠ NUL) w → isspace c = true → copy_token (w ++ c :: p) = Some w.
Proof. intros Hw Hc. induction Hw as [|d w [Hd _] _ IH]; [by cbn; rewrite Hc |]. cbn [app copy_token]. by rewrite Hd, IH. Qed.
Lemma string_at_app w p : Forall (λ c, c ≠ NUL) w → string_at (w ++ NUL :: p) = w.
Proof.
  intros Hw. induction Hw as [|c w Hc _ IH]; [done |]. cbn [app string_at]. rewrite bool_decide_eq_false_2 by done. by rewrite IH.
Qed.
Lemma string_at_word w : Forall (λ c, c ≠ NUL) w → string_at w = w.
Proof. intros Hw. induction Hw as [|c w Hc _ IH]; [done |]. cbn [string_at]. rewrite bool_decide_eq_false_2 by done. by rewrite IH. Qed.
Lemma take_word l w c r :
  wordy w → isspace c = true → at_rest l (w ++ c :: r) →
  ∃ l', take_token l = Tok (classify w) l' ∧ at_rest l' (c :: r) ∧ stream l' = stream l.
Proof.
  intros [Hw Hf] Hc [Hlen (junk & Hd)]. unfold take_token. rewrite Hd, <- app_assoc. cbn [app]. rewrite copy_word by done.
  rewrite string_at_word by (eapply Forall_impl; [exact Hf |]; by intros d [_ ?]).
  eexists. split; [done |]. split; [| done]. split; [done |]. cbn [linebuf lp]. exists junk.
  rewrite <- drop_drop, Hd, <- app_assoc. cbn [app]. by rewrite drop_app_length.
Qed.
Lemma at_rest_lookup l c r : at_rest l (c :: r) → linebuf l !! lp l = Some c.
Proof.
  intros [_ (junk & Hd)]. assert (drop (lp l) (linebuf l) !! 0%nat = Some c) as E by (by rewrite Hd).
  by rewrite lookup_drop, Nat.add_0_r in E.
Qed.
(** A word in the line. *)
Lemma lex_word st l sp w c r :
  Forall (λ c, isspace c = true) sp → wordy w → isspace c = true → at_rest l (sp ++ w ++ c :: r) →
  ∃ l', lex st l = Tok (classify w) l' ∧ at_rest l' (c :: r) ∧ stream l' = stream l.
Proof.
  intros Hsp Hw Hc [Hlen (junk & Hd)]. unfold lex. rewrite Hd, <- !app_assoc. cbn [app].
  destruct w as [|d w]; [by destruct Hw |]. pose proof Hw as [_ [[Hd1 Hd2] _]%Forall_cons].
  rewrite skip_spaces by done. set (l1 := mkLexer _ _ _ _ _).
  assert (at_rest l1 ((d :: w) ++ c :: r)) as Hr.
  { split; [done |]. exists junk. unfold l1. cbn [linebuf lp]. rewrite <- drop_drop, Hd, <- !app_assoc. by rewrite drop_app_length. }
  rewrite bool_decide_eq_false_2.
  2: { rewrite (at_rest_lookup l1 d (w ++ c :: r) Hr). congruence. }
  destruct (take_word l1 (d :: w) c r Hw Hc Hr) as (l' & -> & ? & Hs). by exists l'.
Qed.
(** The next line is read and has a word first. *)
Lemma squeeze_word w p out b :
  Forall (λ c, isspace c = false ∧ c ≠ NUL) w → w ≠ [] → (b = true → head w ≠ Some colon) →
  squeeze (w ++ p) out b = squeeze p (reverse w ++ out) false.
Proof.
  intros Hw Hne Hb. assert (∀ out, squeeze (w ++ p) out false = squeeze p (reverse w ++ out) false) as Hfalse.
  { clear Hne Hb. induction Hw as [|c w [Hc _] _ IH]; intros o; [done |]. cbn [app squeeze]. rewrite Hc, reverse_cons, <- app_assoc. cbn [app].
    by case_bool_decide; rewrite IH. }
  destruct b; [| apply Hfalse]. destruct w as [|c w]; [done |]. apply Forall_cons in Hw as [[Hc _] Hw].
  specialize (Hb eq_refl). rewrite <- Hfalse. cbn [app squeeze]. rewrite Hc.
  assert (c ≠ colon) as Hcc by (intros ->; by apply Hb). by rewrite !(bool_decide_eq_false_2 (c = colon)).
Qed.
Lemma squeeze_sep c p d out : isspace c = true → d ≠ colon → squeeze (c :: p) (d :: out) false = squeeze p (c :: d :: out) true.
Proof. intros Hc Hd. cbn [squeeze]. rewrite Hc. by rewrite bool_decide_eq_false_2. Qed.
Lemma next_line_text fuel st l line rest out w c r :
  length (linebuf l) = LINEBUF → stream l = line ++ newline :: rest → Forall (λ c, inline c = true) line →
  (length line < 255)%nat → squeeze (line ++ [newline]) [] false = Some out →
  out = w ++ c :: r → wordy w → head w ≠ Some hash_sign → isspace c = true →
  ∃ l', next_line (S fuel) st l = inr l' ∧ at_rest l' (w ++ c :: r) ∧ stream l' = rest.
Proof.
  intros Hlen Hs Hline Hll Hsq Hout Hw Hh Hc. cbn [next_line].
  assert (fgets LINEBUF (linebuf l) (stream l) =
    Some ((line ++ [newline]) ++ NUL :: drop (length (line ++ [newline]) + 1) (linebuf l), rest)) as ->.
  { rewrite Hs. unfold fgets. rewrite fgets_inline by (done || (unfold LINEBUF; lia)). by destruct line. }
  assert (Forall (λ c, c ≠ NUL) (line ++ [newline])) as Hnn.
  { apply Forall_app. split; [| by apply Forall_singleton]. eapply Forall_impl; [exact Hline |]. intros d. unfold inline.
    by intros [?%bool_decide_eq_true_1 _]%andb_true_iff. }
  rewrite string_at_app by done. rewrite Hsq, last_snoc. rewrite bool_decide_eq_true_2 by done. cbn [negb].
  set (mem := (line ++ [newline]) ++ NUL :: drop (length (line ++ [newline]) + 1) (linebuf l)).
  assert (length mem = LINEBUF) as Hmem.
  { unfold mem. rewrite length_app, length_cons, length_drop, Hlen, length_app. simpl. unfold LINEBUF. lia. }
  pose proof (squeeze_length _ _ _ _ Hsq) as Hol. rewrite length_app in Hol. simpl in Hol.
  set (buf := out ++ NUL :: drop (length out + 1) mem).
  assert (length buf = LINEBUF) as Hbuf by (unfold buf; rewrite length_app, length_cons, length_drop, Hmem; unfold LINEBUF; lia).
  destruct w as [|d w]; [by destruct Hw |]. pose proof Hw as [_ [[Hd1 Hd2] _]%Forall_cons].
  rewrite bool_decide_eq_false_2.
  2: { unfold buf. rewrite Hout. cbn. intros [= ->]. by apply Hh. }
  assert (skip buf = Some 0%nat) as ->.
  { unfold buf. rewrite Hout. cbn [app skip]. rewrite bool_decide_eq_false_2 by done. by rewrite Hd1. }
  rewrite bool_decide_eq_false_2.
  2: { unfold buf. rewrite Hout. cbn. congruence. }
  eexists. split; [done |]. split; [| done]. split; [done |]. cbn [linebuf lp]. rewrite drop_0, <- Hout. by eexists.
Qed.
Lemma next_line_blank fuel st l rest :
  length (linebuf l) = LINEBUF → stream l = newline :: rest →
  ∃ l', next_line (S fuel) st l = next_line fuel st l' ∧ length (linebuf l') = LINEBUF ∧ stream l' = rest.
Proof.
  intros Hlen Hs. cbn [next_line]. rewrite Hs. unfold fgets. change (fgets_line (LINEBUF - 1) (newline :: rest)) with ([newline], rest).
  cbn [app string_at squeeze last length].
  set (mem := newline :: NUL :: drop (1 + 1) (linebuf l)).
  assert (length mem = LINEBUF) as Hmem by (unfold mem; cbn [length]; rewrite length_drop, Hlen; unfold LINEBUF; lia).
  change (string_at mem) with [newline]. cbn [last squeeze reverse]. change (isspace newline) with true. cbn [bool_decide negb].
  change (reverse (A:=byte) []) with (@nil byte). cbn [app]. eexists. split.
  - cbn [head skip lookup list_lookup]. done.
  - split; [| done]. change (length (NUL :: drop 1 mem) = LINEBUF). cbn [length]. rewrite length_drop, Hmem. unfold LINEBUF. lia.
Qed.
Inductive lexes (st : Z) : lexer → list token → lexer → Prop :=
| lexes_nil l : lexes st l [] l
| lexes_cons l t l1 ts l2 : lex st l = Tok t l1 → lexes st l1 ts l2 → lexes st l (t :: ts) l2.
Lemma lexes_app st l ts l1 ts' l2 : lexes st l ts l1 → lexes st l1 ts' l2 → lexes st l (ts ++ ts') l2.
Proof. induction 1; [done |]. intros. cbn [app]. econstructor; eauto. Qed.
(** At the end of a line. *)
Definition eol (l : lexer) : Prop := ∃ sp, Forall (λ c, isspace c = true) sp ∧ at_rest l sp.
Lemma lex_eol st l :
  eol l → ∃ l1, length (linebuf l1) = LINEBUF ∧ stream l1 = stream l ∧
    lex st l = match next_line (S (length (stream l))) st l1 with inl r => r | inr l => take_token l end.
Proof.
  intros (sp & Hsp & Hlen & junk & Hd). unfold lex. rewrite Hd, skip_spaces by done.
  exists (mkLexer (linebuf l) (lp l + length sp) (stream l) (lineno l) (fname l)). cbn [linebuf stream lp]. split_and!; [done .. |].
  rewrite bool_decide_eq_true_2; [done |]. assert (drop (lp l + length sp) (linebuf l) !! 0%nat = Some NUL) as E.
  { rewrite <- drop_drop, Hd, drop_app_length. done. }
  by rewrite lookup_drop, Nat.add_0_r in E.
Qed.
(** Words that keep to themselves. *)
Definition word_ok (w : str) : Prop :=
  wordy w ∧ head w ≠ Some hash_sign ∧ head w ≠ Some colon ∧ last w ≠ Some colon.
Lemma wordy_inline w : wordy w → Forall (λ c, inline c = true) w.
Proof.
  intros [_ Hw]. eapply Forall_impl; [exact Hw |]. intros c [Hs Hn]. unfold inline. rewrite bool_decide_eq_true_2 by done.
  rewrite bool_decide_eq_true_2; [done |]. by intros ->.
Qed.
Lemma reverse_last (w : str) : w ≠ [] → ∃ d o, reverse w = d :: o ∧ last w = Some d.
Proof.
  intros Hw. destruct (last w) as [d|] eqn:E; [| by apply last_None in E]. apply last_Some in E as [w' ->].
  exists d, (reverse w'). by rewrite reverse_app.
Qed.
Lemma squeeze_word_sep w c p out b :
  word_ok w → isspace c = true →
  squeeze (w ++ c :: p) out b = squeeze p (c :: reverse w ++ out) true.
Proof.
  intros ([Hw Hf] & _ & Hc & Hl) Hs. rewrite squeeze_word by done. destruct (reverse_last w Hw) as (d & o & -> & E).
  cbn [app]. rewrite squeeze_sep; [done | done |]. intros ->. by rewrite E in Hl.
Qed.
Lemma squeeze_lead lead p : lead = [] ∨ lead = [tab] → ∃ b, squeeze (lead ++ p) [] false = squeeze p [] b.
Proof. intros [-> | ->]; eauto. Qed.
Lemma lex_line st l blank lead w tail rest c r :
  eol l → stream l = blank ++ lead ++ w ++ tail ++ newline :: rest → blank = [] ∨ blank = [newline] → lead = [] ∨ lead = [tab] →
  word_ok w → Forall (λ c, inline c = true) tail → (length lead + length w + length tail < 255)%nat →
  squeeze (lead ++ w ++ tail ++ [newline]) [] false = Some (w ++ c :: r) → isspace c = true →
  ∃ l', lex st l = Tok (classify w) l' ∧ at_rest l' (c :: r) ∧ stream l' = rest.
Proof.
  intros He Hs Hb Hle (Hw & Hh & _ & _) Ht Hlen Hsq Hc. destruct (lex_eol st l He) as (l1 & Hl1 & Hs1 & ->).
  assert (∀ fuel l2, length (linebuf l2) = LINEBUF → stream l2 = lead ++ w ++ tail ++ newline :: rest →
    ∃ l', match next_line (S fuel) st l2 with inl r => r | inr l => take_token l end = Tok (classify w) l' ∧
          at_rest l' (c :: r) ∧ stream l' = rest) as Hgo.
  { intros fuel l2 Hl2 Hs2. assert (Forall (λ c, inline c = true) (lead ++ w ++ tail)) as Hin.
    { apply Forall_app. split; [destruct Hle as [-> | ->]; [constructor | by apply Forall_singleton] |]. apply Forall_app. split; [by apply wordy_inline | done]. }
    destruct (next_line_text fuel st l2 (lead ++ w ++ tail) rest (w ++ c :: r) w c r) as (l3 & -> & Hr & Hs3); try done.
    - by rewrite Hs2, <- !app_assoc.
    - rewrite !length_app. lia.
    - by rewrite <- !app_assoc.
    - destruct (take_word l3 w c r Hw Hc Hr) as (l4 & E & Hr4 & Hs4). exists l4. split_and!; [done | done | congruence]. }
  destruct Hb as [-> | ->].
  - apply Hgo; [done |]. by rewrite Hs1, Hs.
  - rewrite Hs. cbn [app length]. destruct (next_line_blank (S (length (lead ++ w ++ tail ++ newline :: rest))) st l1 (lead ++ w ++ tail ++ newline :: rest))
      as (l2 & -> & Hl2 & Hs2); [done | by rewrite Hs1, Hs |]. by apply Hgo.
Qed.
Lemma lexes_line1 st l blank lead w rest :
  eol l → stream l = blank ++ lead ++ w ++ newline :: rest → blank = [] ∨ blank = [newline] → lead = [] ∨ lead = [tab] →
  word_ok w → (length lead + length w < 255)%nat →
  ∃ l', lexes st l [classify w] l' ∧ eol l' ∧ stream l' = rest.
Proof.
  intros He Hs Hb Hle Hw Hlen. destruct (lex_line st l blank lead w [] rest newline []) as (l' & E & Hr & Hs'); try done.
  - simpl. lia.
  - destruct (squeeze_lead lead (w ++ [] ++ [newline]) Hle) as (b & ->). cbn [app]. rewrite squeeze_word_sep by done. cbn [squeeze].
    by rewrite app_nil_r, reverse_cons, reverse_involutive.
  - exists l'. split; [by repeat econstructor |]. split; [| done]. exists [newline]. by split; [apply Forall_singleton |].
Qed.
Lemma lexes_line2 st l blank lead w s w2 rest :
  eol l → stream l = blank ++ lead ++ w ++ s :: w2 ++ newline :: rest → blank = [] ∨ blank = [newline] → lead = [] ∨ lead = [tab] →
  word_ok w → word_ok w2 → isspace s = true → inline s = true → (length lead + length w + length w2 < 254)%nat →
  ∃ l', lexes st l [classify w; classify w2] l' ∧ eol l' ∧ stream l' = rest.
Proof.
  intros He Hs Hb Hle Hw Hw2 Hsp Hin Hlen.
  destruct (lex_line st l blank lead w (s :: w2) rest s (w2 ++ [newline])) as (l' & E & Hr & Hs'); try done.
  - constructor; [done |]. apply wordy_inline, Hw2.
  - simpl. lia.
  - destruct (squeeze_lead lead (w ++ (s :: w2) ++ [newline]) Hle) as (b & ->). cbn [app]. rewrite squeeze_word_sep by done.
    rewrite squeeze_word_sep by done. cbn [squeeze]. f_equal. rewrite reverse_cons, reverse_app, reverse_cons, !app_nil_r, !reverse_involutive.
    by rewrite <- !app_assoc.
  - destruct (lex_word st l' [s] w2 newline []) as (l2 & E2 & Hr2 & Hs2); [by apply Forall_singleton | apply Hw2 | done | done |].
    exists l2. split; [by repeat econstructor |]. split; [| congruence]. exists [newline]. by split; [apply Forall_singleton |].
Qed.
Lemma lexer_ends l : eol l → stream l = [] → lex 0 l = Stop 0.
Proof. intros He Hs. destruct (lex_eol 0 l He) as (l1 & _ & Hs1 & ->). rewrite Hs. cbn [length next_line]. by rewrite Hs1, Hs. Qed.

(** ** Printing words *)

Definition ident (s : str) : bool := match s with c :: t => isalpha c && forallb name_char t | [] => false end.
Definition path_char (c : byte) : bool := bool_decide (c = dot) || name_char c.
Lemma path_char_plain c : path_char c = true →
  isspace c = false ∧ c ≠ NUL ∧ c ≠ hash_sign ∧ c ≠ colon ∧ c ≠ lbrace ∧ c ≠ rbrace.
Proof. by destruct c. Qed.
Lemma alpha_path c : isalpha c = true → path_char c = true ∧ c ≠ dot.
Proof. by destruct c. Qed.
Lemma word_ok_path w : w ≠ [] → Forall (λ c, path_char c = true) w → word_ok w.
Proof.
  intros Hw Hf. assert (∀ c, c ∈ w → isspace c = false ∧ c ≠ NUL ∧ c ≠ hash_sign ∧ c ≠ colon) as H.
  { intros c Hc. rewrite Forall_forall in Hf. apply Hf in Hc. apply path_char_plain in Hc. tauto. }
  split_and!.
  - split; [done |]. apply Forall_forall. intros c Hc. apply H in Hc. tauto.
  - destruct w as [|c w]; [done |]. intros [= ->]. by destruct (H hash_sign ltac:(by left)) as (_ & _ & ? & _).
  - destruct w as [|c w]; [done |]. intros [= ->]. by destruct (H colon ltac:(by left)) as (_ & _ & _ & ?).
  - intros E. apply last_Some in E as [l' ->]. destruct (H colon) as (_ & _ & _ & ?); [apply elem_of_app; right; by left | done].
Qed.
Lemma ident_chars s : ident s = true → s ≠ [] ∧ Forall (λ c, path_char c = true) s ∧ (dot ∉ s).
Proof.
  destruct s as [|c t]; [done |]. cbn [ident]. intros [Hc Ht]%andb_true_iff. apply alpha_path in Hc as [Hc Hd]. split_and!; [done | |].
  - constructor; [done |]. apply Forall_forall. intros d Hdt. rewrite forallb_forall in Ht. apply list_elem_of_In, Ht in Hdt.
    unfold path_char. by rewrite Hdt, orb_true_r.
  - intros [E | Hin]%elem_of_cons; [done |]. rewrite forallb_forall in Ht. apply list_elem_of_In, Ht in Hin. done.
Qed.
Lemma classify_path c t :
  isalpha c = true → Forall (λ c, path_char c = true) t →
  classify (c :: t) = if bool_decide (dot ∈ c :: t) then PATH (c :: t) else NAME (c :: t).
Proof.
  intros Hc Ht. pose proof (alpha_path c Hc) as [Hp _]. apply path_char_plain in Hp as (_ & _ & _ & _ & Hl & Hr).
  unfold classify. rewrite bool_decide_eq_false_2 by congruence. rewrite bool_decide_eq_false_2 by congruence.
  rewrite Hc. assert (forallb (λ c, bool_decide (c = dot) || name_char c) t = true) as ->; [| done].
  apply forallb_forall. intros d Hd. apply list_elem_of_In in Hd. rewrite Forall_forall in Ht. by apply Ht.
Qed.
Lemma classify_ident s : ident s = true → classify s = NAME s.
Proof.
  intros Hs. pose proof (ident_chars s Hs) as (_ & Hf & Hd). destruct s as [|c t]; [done |]. cbn [ident] in Hs.
  apply andb_true_iff in Hs as [Hc _]. apply Forall_cons in Hf as [_ Hf]. rewrite classify_path by done. by rewrite bool_decide_eq_false_2.
Qed.
Lemma join_idents p : p ≠ [] → Forall (λ s, ident s = true) p →
  ∃ c t, join p = c :: t ∧ isalpha c = true ∧ Forall (λ c, path_char c = true) t.
Proof.
  induction p as [|s p IH]; [done |]. intros _ [Hs Hp]%Forall_cons.
  pose proof (ident_chars s Hs) as (_ & Hf & _). destruct s as [|c t]; [done |]. cbn [ident] in Hs. apply andb_true_iff in Hs as [Hc _].
  apply Forall_cons in Hf as [_ Hf]. destruct p as [|s' p]; [exists c, t; done |].
  rewrite join_cons by done. exists c, (t ++ dot :: join (s' :: p)). split_and!; [done | done |]. apply Forall_app. split; [done |].
  destruct IH as (c' & t' & -> & Hc' & Ht'); [done | done |]. constructor; [done |]. constructor; [by apply alpha_path | done].
Qed.

Lemma pmid_chars_plain c : isdigit c = true ∨ c = star ∨ c = colon → isspace c = false ∧ c ≠ NUL.
Proof. intros [H | [-> | ->]]; [by destruct c | done | done]. Qed.
Lemma show_pmid_cases p :
  is_u32 p → show_pmid p = show (pmid_cluster p) ++ [colon; star; colon; star] ∧ dynamic p = true ∨
  show_pmid p = show (pmid_domain p) ++ colon :: show (pmid_cluster p) ++ colon :: show (pmid_item p) ∧ dynamic p = false.
Proof. intros _. unfold show_pmid. destruct (dynamic p); [by left | by right]. Qed.
Lemma digit_not c : isdigit c = true → c ≠ hash_sign ∧ c ≠ colon ∧ c ≠ lbrace ∧ c ≠ rbrace ∧ isalpha c = false.
Proof. by destruct c. Qed.
Lemma pmid_word d q x :
  isdigit d = true → Forall (λ c, isdigit c = true ∨ c = star ∨ c = colon) q → (isdigit x = true ∨ x = star) →
  word_ok (d :: q ++ [x]).
Proof.
  intros Hd Hq Hx. pose proof (digit_not d Hd) as (? & ? & _). split_and!; [split; [done |] | cbn; congruence | cbn; congruence |].
  - constructor; [apply pmid_chars_plain; by left |]. apply Forall_app. split.
    + eapply Forall_impl; [exact Hq |]. intros c. apply pmid_chars_plain.
    + apply Forall_singleton, pmid_chars_plain. tauto.
  - rewrite app_comm_cons, last_snoc. intros [= ->]. by destruct Hx.
Qed.
Lemma fields_nonneg p : is_u32 p → 0 <= pmid_domain p < 512 ∧ 0 <= pmid_cluster p < 4096 ∧ 0 <= pmid_item p < 1024.
Proof. intros H. unfold pmid_domain, pmid_cluster, pmid_item. bitfields. Qed.
Lemma show_snoc n : 0 <= n → ∃ q x, show n = q ++ [x] ∧ Forall (λ c, isdigit c = true) q ∧ isdigit x = true.
Proof.
  intros Hn. destruct (show_head n Hn) as (c & q & E & Hc & Hq). rewrite E.
  assert (Forall (λ c, isdigit c = true) (c :: q)) as Hf by (by constructor). clear E Hc Hq.
  destruct (last (c :: q)) as [x|] eqn:El; [| by apply last_None in El]. apply last_Some in El as [l' El]. rewrite El in Hf |- *.
  apply Forall_app in Hf as [H1 H2]. exists l', x. split_and!; [done | done |]. by inversion H2.
Qed.
Lemma show_pmid_word p : is_u32 p → word_ok (show_pmid p).
Proof.
  intros Hp. pose proof (fields_nonneg p Hp) as (Hd & Hc & Hi).
  assert (∀ n, 0 <= n → Forall (λ c, isdigit c = true ∨ c = star ∨ c = colon) (show n)) as Hs.
  { intros n Hn. destruct (show_head n Hn) as (c & q & -> & H1 & H2). constructor; [by left |]. eapply Forall_impl; [exact H2 |]. intros; by left. }
  unfold show_pmid. destruct (dynamic p).
  - destruct (show_head (pmid_cluster p)) as (c & q & -> & H1 & H2); [lia |]. cbn [app].
    replace (q ++ [colon; star; colon; star]) with ((q ++ [colon; star; colon]) ++ [star]) by (by rewrite <- app_assoc).
    apply pmid_word; [done | | by right]. apply Forall_app. split; [eapply Forall_impl; [exact H2 |]; intros; by left |].
    repeat (constructor; [tauto |]). constructor.
  - destruct (show_head (pmid_domain p)) as (c & q & -> & H1 & H2); [lia |]. destruct (show_snoc (pmid_item p)) as (q' & x & -> & H3 & H4); [lia |].
    cbn [app]. replace (q ++ colon :: show (pmid_cluster p) ++ colon :: q' ++ [x]) with ((q ++ colon :: show (pmid_cluster p) ++ colon :: q') ++ [x])
      by (rewrite <- !app_assoc; cbn [app]; by rewrite <- app_assoc).
    apply pmid_word; [done | | by left]. apply Forall_app. split; [eapply Forall_impl; [exact H2 |]; intros; by left |].
    constructor; [tauto |]. apply Forall_app. split; [apply Hs; lia |]. constructor; [tauto |]. eapply Forall_impl; [exact H3 |]; intros; by left.
Qed.
(** Identifiers that a text can give. *)
Definition loadable (p : Z) : Prop :=
  0 <= p < 2^31 ∧ if dynamic p then pmid_cluster p <= 510 else pmid_domain p <= 510.
Lemma build_fields p : 0 <= p < 2^31 → pmid_build (pmid_domain p) (pmid_cluster p) (pmid_item p) = p.
Proof. intros H. unfold pmid_build, pmid_domain, pmid_cluster, pmid_item. bitfields. Qed.
Lemma after_colon_digits s r : Forall (λ c, isdigit c = true) s → after_colon (s ++ colon :: r) = Some r.
Proof.
  intros Hs. induction Hs as [|c s Hc _ IH]; [done |]. cbn [app after_colon]. rewrite bool_decide_eq_false_2; [done |]. by intros ->.
Qed.
Lemma show_all_digits n : 0 <= n → Forall (λ c, isdigit c = true) (show n).
Proof. intros Hn. destruct (show_head n Hn) as (c & q & -> & ? & ?). by constructor. Qed.
Lemma lex_show p : loadable p → lex_pmid (show_pmid p) = PMID p.
Proof.
  intros [Hp Hl]. assert (is_u32 p) as Hu by (unfold is_u32; lia). pose proof (fields_nonneg p Hu) as (Hd & Hc & Hi).
  unfold lex_pmid, show_pmid. destruct (dynamic p) eqn:Ed.
  - assert (scan_d (show (pmid_cluster p) ++ [colon; star; colon; star]) = Some (pmid_cluster p, [colon; star; colon; star])) as Es.
    { apply scan_show; [unfold INT_MAX; lia | done]. }
    unfold scan_pmid. rewrite Es. cbn. rewrite after_colon_digits by (apply show_all_digits; lia). cbn.
    rewrite (proj2 (Z.ltb_ge _ _)) by lia. f_equal. unfold dynamic in Ed. apply andb_true_iff in Ed as [E1%Z.eqb_eq E2%Z.eqb_eq].
    rewrite <- (build_fields p Hp) at 2. by rewrite E1, E2.
  - unfold scan_pmid. rewrite scan_show; [| unfold INT_MAX; lia | done]. cbn [mbind option_bind expect]. rewrite bool_decide_eq_true_2 by done.
    cbn [mbind option_bind]. rewrite scan_show; [| unfold INT_MAX; lia | done]. cbn [mbind option_bind expect]. rewrite bool_decide_eq_true_2 by done.
    cbn [mbind option_bind]. rewrite <- (app_nil_r (show (pmid_item p))), scan_show; [| unfold INT_MAX; lia | done]. cbn [mbind option_bind].
    rewrite !(proj2 (Z.ltb_ge _ _)) by lia. by rewrite build_fields.
Qed.
Lemma colons_app a b : count_colons (a ++ b) = (count_colons a + count_colons b)%nat.
Proof. unfold count_colons. by rewrite filter_app, length_app. Qed.
Lemma colons_digits s : Forall (λ c, isdigit c = true) s → count_colons s = 0%nat.
Proof.
  intros Hs. unfold count_colons. rewrite filter_none; [done |]. eapply Forall_impl; [exact Hs |]. by intros c Hc ->.
Qed.
Lemma digits_chars s : Forall (λ c, isdigit c = true) s → forallb (λ c, bool_decide (c = colon) || isdigit c || bool_decide (c = star)) s = true.
Proof. intros Hs. induction Hs as [|c s Hc _ IH]; [done |]. cbn [forallb]. rewrite Hc, orb_true_r. done. Qed.
Lemma pmid_chars_show p : is_u32 p → pmid_chars (show_pmid p) = true.
Proof.
  intros Hu. pose proof (fields_nonneg p Hu) as (Hd & Hc & Hi).
  pose proof (show_all_digits (pmid_domain p) ltac:(lia)) as H1. pose proof (show_all_digits (pmid_cluster p) ltac:(lia)) as H2.
  pose proof (show_all_digits (pmid_item p) ltac:(lia)) as H3.
  unfold pmid_chars, show_pmid. destruct (dynamic p).
  - rewrite forallb_app, digits_chars, colons_app, colons_digits by done. done.
  - change (colon :: show (pmid_cluster p) ++ colon :: show (pmid_item p)) with ([colon] ++ show (pmid_cluster p) ++ [colon] ++ show (pmid_item p)).
    rewrite !forallb_app, (digits_chars _ H1), (digits_chars _ H2), (digits_chars _ H3). rewrite !colons_app, (colons_digits _ H1), (colons_digits _ H2), (colons_digits _ H3). done.
Qed.
Lemma classify_show p : loadable p → classify (show_pmid p) = PMID p.
Proof.
  intros Hl. assert (is_u32 p) as Hu by (destruct Hl as [? _]; unfold is_u32; lia).
  assert (∃ c q, show_pmid p = c :: q ∧ isdigit c = true) as (c & q & E & Hc).
  { pose proof (fields_nonneg p Hu) as (Hd & Hcl & Hi). unfold show_pmid. destruct (dynamic p).
    - destruct (show_head (pmid_cluster p)) as (c & q & -> & H1 & H2); [lia |]. eexists _, _. by split.
    - destruct (show_head (pmid_domain p)) as (c & q & -> & H1 & H2); [lia |]. eexists _, _. by split. }
  pose proof (digit_not c Hc) as (_ & _ & Hlb & Hrb & Ha).
  unfold classify. rewrite pmid_chars_show, lex_show by done. rewrite E, Ha.
  rewrite bool_decide_eq_false_2 by congruence. by rewrite bool_decide_eq_false_2 by congruence.
Qed.

(** ** Reading the blocks *)

(** What can be written and read again: names that are identifiers, identifiers of metrics
    that a text can give, lines that fit the line buffer, and no inner node that is taken
    for the root. *)
Record printable (r : node) : Prop := {
  pr_root : name r = root_name;
  pr_uniq : uniq r;
  pr_names : Forall (λ n, ident (name n) = true) (below r);
  pr_metrics : Forall (λ n, inner n = false → loadable (pmid n) ∧ (length (name n) + length (show_pmid (pmid n)) < 253)%nat) (below r);
  pr_paths : Forall (λ e, join e.1 ≠ root_name ∧ (length (join e.1) < 253)%nat) (inner_walk r) }.
(** What a text says of a tree. *)
Fixpoint norm (n : node) : node :=
  let '(Node _ s p l) := n in Node 0 s (match l with [] => p | _ => PM_ID_NULL end) (norm <$> l).
Definition kid_stub (k : node) : node := Node 0 (name k) (if inner k then PM_ID_NULL else pmid k) [].
Definition subtree (e : list str * node) : node := Node 0 (join e.1) PM_ID_NULL (kid_stub <$> first e.2).
Definition kid_ok (k : node) : Prop :=
  ident (name k) = true ∧
  if inner k then (length (name k) < 253)%nat
  else loadable (pmid k) ∧ (length (name k) + length (show_pmid (pmid k)) < 253)%nat.
Definition kid_tokens (k : node) : list token :=
  if inner k then [NAME (name k)] else [NAME (name k); PMID (pmid k)].
Lemma ident_word s : ident s = true → word_ok s.
Proof. intros H. destruct (ident_chars s H) as (? & ? & _). by apply word_ok_path. Qed.
Lemma lexes_kid st l k rest :
  kid_ok k → eol l → stream l = kid_text k ++ rest →
  ∃ l', lexes st l (kid_tokens k) l' ∧ eol l' ∧ stream l' = rest.
Proof.
  intros [Hi Hk] He Hs. unfold kid_text, kid_tokens in *. rewrite <- (classify_ident _ Hi). destruct (inner k).
  - eapply (lexes_line1 st l [] [tab]); [done | | by left | by right | by apply ident_word | simpl; lia].
    rewrite Hs. cbn [app]. by rewrite <- app_assoc.
  - destruct Hk as [Hl Hlen]. rewrite <- (classify_show _ Hl).
    eapply (lexes_line2 st l [] [tab] (name k) tab); [done | | by left | by right | by apply ident_word | | done | done | simpl; lia].
    + rewrite Hs. cbn [app]. rewrite <- !app_assoc. cbn [app]. by rewrite <- !app_assoc.
    + apply show_pmid_word. destruct Hl as [? _]. unfold is_u32. lia.
Qed.
Lemma lexes_kids st ks l rest :
  Forall kid_ok ks → eol l → stream l = flat_map kid_text ks ++ rest →
  ∃ l', lexes st l (flat_map kid_tokens ks) l' ∧ eol l' ∧ stream l' = rest.
Proof.
  intros Hks. revert l. induction Hks as [|k ks Hk _ IH]; intros l He Hs; [exists l; by split_and!; [constructor | |] |].
  cbn [flat_map] in Hs |- *. rewrite <- app_assoc in Hs. destruct (lexes_kid st l k _ Hk He Hs) as (l1 & H1 & He1 & Hs1).
  destruct (IH l1 He1 Hs1) as (l2 & H2 & He2 & Hs2). exists l2. split; [| done]. by eapply lexes_app.
Qed.
Definition block_tokens (s : str) (x : node) : list token :=
  classify s :: LBRACE :: flat_map kid_tokens (first x) ++ [RBRACE].
Lemma brace_words : word_ok [lbrace] ∧ word_ok [rbrace].
Proof. split; (split_and!; [split; [done | apply Forall_singleton; done] | done | done | done]). Qed.
Lemma lexes_block st l blank s x rest :
  blank = [] ∨ blank = [newline] → word_ok s → (length s < 253)%nat → Forall kid_ok (first x) →
  eol l → stream l = blank ++ s ++ [space; lbrace; newline] ++ kids_text x ++ rest →
  ∃ l', lexes st l (block_tokens s x) l' ∧ eol l' ∧ stream l' = rest.
Proof.
  intros Hb Hw Hlen Hk He Hs. destruct brace_words as [Hlb Hrb].
  destruct (lexes_line2 st l blank [] s space [lbrace] (kids_text x ++ rest)) as (l1 & H1 & He1 & Hs1); try done; [by left | simpl; lia |].
  unfold kids_text in Hs1. rewrite <- app_assoc in Hs1.
  destruct (lexes_kids st (first x) l1 _ Hk He1 Hs1) as (l2 & H2 & He2 & Hs2).
  destruct (lexes_line1 st l2 [] [] [rbrace] rest) as (l3 & H3 & He3 & Hs3); [done | by rewrite Hs2 | by left | by left | done | simpl; lia |].
  exists l3. split; [| done]. unfold block_tokens. change (classify s :: LBRACE :: flat_map kid_tokens (first x) ++ [RBRACE])
    with ([classify s; classify [lbrace]] ++ flat_map kid_tokens (first x) ++ [classify [rbrace]]).
  eapply lexes_app; [done |]. by eapply lexes_app.
Qed.

(** ** Parsing the blocks *)

Lemma parse_all_app ts1 ts2 p : parse_all (ts1 ++ ts2) p = parse_all ts1 p ≫= parse_all ts2.
Proof. revert p. induction ts1 as [|t ts IH]; intros p; [done |]. cbn [app parse_all]. destruct (parse t p); [apply IH | done]. Qed.
Definition inside (p : parser) : Prop := state p = 2 ∨ state p = 3.
Lemma parse_kid k y S n s :
  s = 2 ∨ s = 3 →
  ∃ s' n', (s' = 2 ∨ s' = 3) ∧ n <= n' ∧
  parse_all (kid_tokens k) (mkParser s (y :: S) n) = Some (mkParser s' (set_first (first y ++ [kid_stub k]) y :: S) n').
Proof.
  intros Hs. assert (parse (NAME (name k)) (mkParser s (y :: S) n) = Some (add_child (name k) (mkParser s (y :: S) n))) as E1.
  { by destruct Hs as [-> | ->]. }
  unfold kid_tokens, kid_stub. destruct (inner k); cbn [parse_all]; rewrite E1; cbn [mbind option_bind add_child seen].
  - exists 3, (n + 1). split_and!; [by right | lia | done].
  - exists 2, (n + 1). split_and!; [by left | lia |]. unfold parse. cbn [state Z.eqb Pos.eqb set_tokpmid seen mbind option_bind].
    cbn [first set_first]. unfold set_last. by rewrite last_snoc, removelast_last.
Qed.
Lemma parse_kids ks : ∀ y S n s,
  s = 2 ∨ s = 3 →
  ∃ s' n', (s' = 2 ∨ s' = 3) ∧ n <= n' ∧
  parse_all (flat_map kid_tokens ks) (mkParser s (y :: S) n) = Some (mkParser s' (set_first (first y ++ (kid_stub <$> ks)) y :: S) n').
Proof.
  induction ks as [|k ks IH]; intros y S n s Hs; cbn [flat_map].
  - exists s, n. split_and!; [done | lia |]. rewrite app_nil_r. by destruct y.
  - destruct (parse_kid k y S n s Hs) as (s1 & n1 & Hs1 & Hn1 & E1). rewrite parse_all_app, E1. cbn [mbind option_bind].
    destruct (IH (set_first (first y ++ [kid_stub k]) y) S n1 s1 Hs1) as (s2 & n2 & Hs2 & Hn2 & E2). rewrite E2.
    exists s2, n2. split_and!; [done | lia |]. cbn [first set_first]. rewrite <- app_assoc. by destruct y.
Qed.
Lemma name_stubs (l : list node) : name <$> (kid_stub <$> l) = name <$> l.
Proof. rewrite <- list_fmap_compose. by apply list_fmap_ext; intros ? []. Qed.
Lemma parse_block s x S n :
  (classify s = NAME s ∨ classify s = PATH s) → NoDup (name <$> first x) →
  ∃ n', n < n' ∧ parse_all (block_tokens s x) (mkParser 0 S n) = Some (mkParser 0 (Node 0 s PM_ID_NULL (kid_stub <$> first x) :: S) n').
Proof.
  intros Hc Hnd. unfold block_tokens. cbn [parse_all].
  assert (parse (classify s) (mkParser 0 S n) = Some (mkParser 1 (new_node s :: S) (n + 1))) as -> by (by destruct Hc as [-> | ->]).
  cbn [mbind option_bind parse state Z.eqb seen seenpmid Pos.eqb]. rewrite parse_all_app.
  destruct (parse_kids (first x) (new_node s) S (n + 1) 2 ltac:(by left)) as (s' & n' & Hs' & Hn & ->).
  cbn [mbind option_bind parse_all new_node first app set_first nid name pmid].
  assert (∀ S, parse RBRACE (mkParser s' S n') = end_subtree (mkParser s' S n')) as -> by (by destruct Hs' as [-> | ->]).
  unfold end_subtree. cbn [seen head from_option set_first first seenpmid]. rewrite name_stubs, bool_decide_eq_true_2 by done.
  exists n'. split; [lia | done].
Qed.

(** ** The assembly of the blocks *)

Lemma findseen_perm x l rest :
  l ≡ₚ x :: rest → NoDup (name <$> l) → ∃ l', findseen (name x) l = Some (x, l') ∧ l' ≡ₚ rest.
Proof.
  intros Hp Hnd. assert (x ∈ l) as Hx by (rewrite Hp; by left). apply list_elem_of_split in Hx as (l1 & l2 & ->).
  exists (l1 ++ l2). split.
  - unfold findseen. rewrite split_find_app; [done | | by apply bool_decide_eq_true_2]. apply Forall_forall. intros y Hy.
    apply bool_decide_eq_false_2. intros E. rewrite fmap_app, fmap_cons in Hnd. apply NoDup_app in Hnd as (_ & Hd & _).
    apply (Hd (name y)); [by apply list_elem_of_fmap_2 |]. rewrite E. by left.
  - rewrite <- Permutation_middle in Hp. by apply Permutation_cons_inv in Hp.
Qed.
Lemma norm_eq n : norm n = Node 0 (name n) (if inner n then PM_ID_NULL else pmid n) (norm <$> first n).
Proof. destruct n as [i s p l]. unfold inner. cbn [first]. by destruct l. Qed.
Lemma loadable_known p : loadable p → p ≠ PM_ID_NULL.
Proof. intros [? _]. unfold PM_ID_NULL. lia. Qed.
Lemma stub_kid k : (inner k = true → pmid (kid_stub k) = PM_ID_NULL) ∧ name (kid_stub k) = name k ∧ first (kid_stub k) = [].
Proof. unfold kid_stub. cbn. split; [by intros -> | done]. Qed.
(** With the subtrees of its inner nodes at hand a node gets everything below it. *)
Lemma attach_norm n : ∀ bp fuel seen rest,
  named_nodes n → Forall (λ k, inner k = false → loadable (pmid k)) (below n) →
  bp = [] ∨ join bp ≠ [] → (length seen <= fuel)%nat → NoDup (name <$> seen) →
  seen ≡ₚ (subtree <$> (shift bp <$> inner_walk n)) ++ rest →
  ∃ seen', attach fuel (join bp) (kid_stub <$> first n) seen = Some (0, norm <$> first n, seen') ∧ seen' ≡ₚ rest.
Proof.
  induction n as [i s p l IH] using node_ind'. intros bp fuel seen rest Hnm Hld Hbp Hfuel Hnd Hperm. cbn [first].
  rewrite inner_walk_eq in Hperm. cbn [first] in Hperm.
  assert (Forall (λ k, name k ≠ [] ∧ named_nodes k ∧ Forall (λ k, inner k = false → loadable (pmid k)) (below k) ∧
    (inner k = false → loadable (pmid k))) l) as Hl.
  { apply Forall_forall. intros k Hk. destruct (named_child _ k Hnm Hk). split_and!; [done | done | |].
    - rewrite Forall_forall in *. intros x Hx. apply Hld. rewrite below_eq. apply elem_of_flat_map. exists k. split; [done | by right].
    - rewrite Forall_forall in Hld. apply Hld. rewrite below_eq. apply elem_of_flat_map. exists k. split; [done | apply nodes_self]. }
  clear Hnm Hld. revert fuel seen Hfuel Hnd Hperm. induction IH as [|k l Hk _ IHl]; intros fuel seen Hfuel Hnd Hperm.
  { exists seen. split; [by destruct fuel | done]. }
  apply Forall_cons in Hl as [(Hkn & Hkc & Hkl & Hkp) Hl]. cbn [flat_map] in Hperm. rewrite !fmap_app, <- app_assoc in Hperm.
  rewrite !fmap_cons. destruct (inner k) eqn:Ek.
  - assert (pmid (kid_stub k) = PM_ID_NULL) as Enull by (by apply stub_kid).
    cbn [app] in Hperm. rewrite fmap_cons, fmap_cons in Hperm. set (bk := bp ++ [name k]) in *.
    change (seen ≡ₚ subtree (bk, k) :: (subtree <$> (shift bp <$> (shift [name k] <$> inner_walk k))) ++
      (subtree <$> (shift bp <$> flat_map (λ k, (if inner k then [([name k], k)] else []) ++ (shift [name k] <$> inner_walk k)) l)) ++ rest) in Hperm.
    assert (join bk ≠ []) as Hbk by (unfold bk; destruct (decide (bp = [])) as [-> |]; [done | rewrite join_snoc by done; by destruct (join bp)]).
    destruct (findseen_perm (subtree (bk, k)) seen _ Hperm Hnd) as (seen1 & Ef & Hp1).
    destruct fuel as [|fuel]; [destruct seen; [by apply Permutation_nil_l in Hperm | simpl in Hfuel; lia] |].
    rewrite attach_inner by done. destruct (stub_kid k) as (_ & Ens & _). rewrite Ens, sub_path_join by done. fold bk.
    change (name (subtree (bk, k))) with (join bk) in Ef. rewrite Ef. change (first (subtree (bk, k))) with (kid_stub <$> first k).
    assert (length seen = S (length seen1)) as Hlen by (rewrite Hperm; cbn [length]; by rewrite Hp1).
    assert (NoDup (name <$> seen1)) as Hnd1.
    { assert (NoDup (name <$> (subtree (bk, k) :: seen1))) as H by (by rewrite Hp1, <- Hperm). by apply NoDup_cons in H as [_ ?]. }
    destruct (Hk bk fuel seen1 ((subtree <$> (shift bp <$> flat_map (λ k, (if inner k then [([name k], k)] else []) ++ (shift [name k] <$> inner_walk k)) l)) ++ rest))
      as (seen2 & E2 & Hp2); [done | done | by right | lia | done | |].
    { rewrite Hp1. assert (shift bp <$> (shift [name k] <$> inner_walk k) = shift bk <$> inner_walk k) as ->; [| done].
      rewrite <- list_fmap_compose. apply list_fmap_ext. intros j [q x] _. unfold compose, shift. cbn. unfold bk. by rewrite <- app_assoc. }
    rewrite E2. cbn [mbind option_bind Z.eqb].
    assert (NoDup (name <$> seen2)) as Hnd2.
    { pose proof (fmap_Permutation name _ _ Hp1) as Hpm. rewrite fmap_app in Hpm. rewrite Hpm in Hnd1. apply NoDup_app in Hnd1 as (_ & _ & Hnd1). by rewrite Hp2. }
    destruct (IHl Hl (S fuel) seen2) as (seen3 & E3 & Hp3); [| done | by rewrite Hp2 |].
    { rewrite Hp2. rewrite Hp1, length_app in Hlen. lia. }
    rewrite E3. cbn [mbind option_bind]. exists seen3. split; [| done]. do 4 f_equal. rewrite norm_eq. unfold kid_stub. by rewrite Ek.
  - rewrite (inner_walk_leaf k Ek) in Hperm. cbn [fmap list_fmap app] in Hperm.
    rewrite attach_leaf. 2: { unfold kid_stub. rewrite Ek. cbn [pmid]. apply loadable_known, Hkp. done. }
    destruct (IHl Hl fuel seen Hfuel Hnd Hperm) as (seen3 & E3 & Hp3). rewrite E3. cbn [mbind option_bind].
    exists seen3. split; [| done]. do 4 f_equal. rewrite norm_eq. unfold kid_stub. rewrite Ek. unfold inner in Ek. by destruct (first k).
Qed.
Lemma inner_walk_walk e r : e ∈ inner_walk r → e ∈ walk r ∧ inner e.2 = true.
Proof. intros [? ?]%list_elem_of_filter. done. Qed.
Lemma printable_plain r p x : printable r → (p, x) ∈ walk r → p ≠ [] ∧ Forall (λ s, ident s = true) p.
Proof.
  intros Hp Hw. split; [by eapply walk_nonempty |]. pose proof (pr_names r Hp) as Hn. clear Hp.
  revert p Hw Hn. induction r as [i s m l IH] using node_ind'. intros p (k & Hk & Hw)%elem_of_walk Hn. cbn [first] in Hk.
  rewrite below_eq in Hn. cbn [first] in Hn. rewrite Forall_forall in IH, Hn.
  assert (ident (name k) = true) as Hi by (apply Hn, elem_of_flat_map; exists k; split; [done | apply nodes_self]).
  destruct Hw as [[-> ->] | (q & -> & Hq)]; [by apply Forall_singleton |]. constructor; [done |]. eapply IH; [done | done |].
  apply Forall_forall. intros n Hnk. apply Hn, elem_of_flat_map. exists k. split; [done | by right].
Qed.
Lemma subtree_names r : printable r → NoDup (name <$> (subtree <$> inner_walk r)).
Proof.
  intros Hp. rewrite <- list_fmap_compose. change (name ∘ subtree) with (λ e : list str * node, join e.1).
  assert (∀ e, e ∈ inner_walk r → components (join e.1) = e.1) as Hc.
  { intros [p x] [Hw _]%inner_walk_walk. destruct (printable_plain r p x Hp Hw) as [Hne Hi]. apply components_join; [done |].
    eapply Forall_impl; [exact Hi |]. intros s Hs. by apply ident_chars in Hs as (_ & _ & ?). }
  assert (NoDup (inner_walk r).*1) as Hnd.
  { eapply sublist_NoDup; [apply (walk_NoDup r (pr_uniq r Hp)) |]. apply fmap_sublist, sublist_filter. }
  clear Hp. induction (inner_walk r) as [|e w IH]; [apply NoDup_nil_2 |].
  change (NoDup (e.1 :: w.*1)) in Hnd. rewrite fmap_cons.
  apply NoDup_cons in Hnd as [He Hnd]. apply NoDup_cons. split; [| apply IH; [intros; apply Hc; by right | done]].
  intros (e' & E & He')%list_elem_of_fmap. apply He. rewrite <- (Hc e) by (by left). rewrite E, Hc by (by right).
  by apply list_elem_of_fmap_2.
Qed.
Lemma printable_kids r n : printable r → n = r ∨ (∃ p, (p, n) ∈ walk r) → Forall kid_ok (first n) ∧ NoDup (name <$> first n).
Proof.
  intros Hp Hn. assert (n ∈ nodes r) as Hin by (destruct Hn as [-> | (p & Hw%walk_nodes)]; [apply nodes_self | by right]).
  assert (∃ bp, ∀ k, k ∈ first n → (bp ++ [name k], k) ∈ walk r) as (bp & Hbp).
  { destruct Hn as [-> | (p & Hw)].
    - exists []. intros k Hk. apply elem_of_walk. eauto.
    - exists p. clear Hp Hin. revert p Hw. induction r as [i s m l IH] using node_ind'. intros p Hw k Hk.
      apply elem_of_walk in Hw as (c & Hc & Hw). apply elem_of_walk. exists c. split; [done |]. right.
      rewrite Forall_forall in IH. destruct Hw as [[-> ->] | (q & -> & Hq)].
      + exists [name k]. split; [done |]. apply elem_of_walk. eauto.
      + exists (q ++ [name k]). split; [done |]. by eapply IH. }
  split; [| by pose proof (pr_uniq r Hp) as Hu; unfold uniq in Hu; rewrite Forall_forall in Hu; apply Hu].
  apply Forall_forall. intros k Hk. specialize (Hbp k Hk). pose proof (walk_nodes _ _ _ Hbp) as Hkb.
  pose proof (pr_names r Hp) as H1. pose proof (pr_metrics r Hp) as H2. pose proof (pr_paths r Hp) as H3. rewrite Forall_forall in H1, H2. rewrite Forall_forall in H3.
  split; [by apply H1 |]. destruct (inner k) eqn:Ek; [| by apply H2].
  assert ((bp ++ [name k], k) ∈ inner_walk r) as Hiw by (by apply list_elem_of_filter).
  apply H3 in Hiw as [_ Hlen]. cbn [fst] in Hlen. destruct (decide (bp = [])) as [-> |]; [exact Hlen |].
  rewrite join_snoc, length_app in Hlen by done. simpl in Hlen. lia.
Qed.
Definition text_of (r : node) : list token :=
  block_tokens root_name r ++ flat_map (λ e, block_tokens (join e.1) e.2) (inner_walk r).
Lemma lexes_blocks st es : ∀ l rest,
  Forall (λ e, word_ok (join e.1) ∧ (length (join e.1) < 253)%nat ∧ Forall kid_ok (first e.2)) es →
  eol l → stream l = flat_map block es ++ rest →
  ∃ l', lexes st l (flat_map (λ e, block_tokens (join e.1) e.2) es) l' ∧ eol l' ∧ stream l' = rest.
Proof.
  induction es as [|[p x] es IH]; intros l rest Hes He Hs; [exists l; by split_and!; [constructor | |] |].
  apply Forall_cons in Hes as [(Hw & Hlen & Hk) Hes]. cbn [flat_map fst snd] in *.
  destruct (lexes_block st l [newline] (join p) x (flat_map block es ++ rest)) as (l1 & H1 & He1 & Hs1); [by right | done | done | done | done | |].
  { rewrite Hs. unfold block. cbn [fst snd app]. f_equal. rewrite <- !app_assoc. done. }
  destruct (IH l1 rest Hes He1 Hs1) as (l2 & H2 & He2 & Hs2). exists l2. split; [| done]. by eapply lexes_app.
Qed.
Lemma parse_blocks es : ∀ S n,
  Forall (λ e, (classify (join e.1) = NAME (join e.1) ∨ classify (join e.1) = PATH (join e.1)) ∧ NoDup (name <$> first e.2)) es →
  ∃ n', n + Z.of_nat (length es) <= n' ∧ parse_all (flat_map (λ e, block_tokens (join e.1) e.2) es) (mkParser 0 S n) =
    Some (mkParser 0 (reverse (subtree <$> es) ++ S) n').
Proof.
  induction es as [|e es IH]; intros S n Hes; [exists n; by split; [simpl; lia |] |].
  apply Forall_cons in Hes as [[Hc Hnd] Hes]. cbn [flat_map]. rewrite parse_all_app.
  destruct (parse_block (join e.1) e.2 S n Hc Hnd) as (n1 & Hn1 & ->). cbn [mbind option_bind].
  destruct (IH (subtree e :: S) n1 Hes) as (n2 & Hn2 & E). exists n2. split; [simpl; lia |]. unfold subtree at 1 in E. rewrite E.
  rewrite fmap_cons, reverse_cons, <- app_assoc. done.
Qed.
Lemma path_token p : p ≠ [] → Forall (λ s, ident s = true) p →
  word_ok (join p) ∧ (classify (join p) = NAME (join p) ∨ classify (join p) = PATH (join p)).
Proof.
  intros Hp Hi. destruct (join_idents p Hp Hi) as (c & t & -> & Hc & Ht). split.
  - apply word_ok_path; [done |]. constructor; [by apply alpha_path | done].
  - rewrite classify_path by done. case_bool_decide; [by right | by left].
Qed.
Lemma read_output st r l :
  printable r → eol l → stream l = pmns_output r →
  ∃ l' n, lexes st l (text_of r) l' ∧ eol l' ∧ stream l' = [] ∧ Z.of_nat (length (inner_walk r)) <= n ∧
  parse_all (text_of r) (mkParser 0 [] 0) =
    Some (mkParser 0 (reverse (subtree <$> inner_walk r) ++ [Node 0 root_name PM_ID_NULL (kid_stub <$> first r)]) n).
Proof.
  intros Hp He Hs. rewrite pmns_output_text in Hs.
  destruct (printable_kids r r Hp ltac:(by left)) as [Hk Hnd].
  assert (word_ok root_name ∧ classify root_name = NAME root_name) as [Hrw Hrc] by (split; [apply ident_word; done | by apply classify_ident]).
  destruct (lexes_block st l [] root_name r (flat_map block (inner_walk r))) as (l1 & H1 & He1 & Hs1); [by left | done | simpl; lia | done | done | by rewrite Hs |].
  assert (∀ e, e ∈ inner_walk r → word_ok (join e.1) ∧ (classify (join e.1) = NAME (join e.1) ∨ classify (join e.1) = PATH (join e.1)) ∧
    (length (join e.1) < 253)%nat ∧ Forall kid_ok (first e.2) ∧ NoDup (name <$> first e.2)) as Hall.
  { intros [p x] Hin. destruct (inner_walk_walk _ _ Hin) as [Hw _]. destruct (printable_plain r p x Hp Hw) as [Hne Hid].
    destruct (path_token p Hne Hid) as [? ?]. pose proof (pr_paths r Hp) as H3. rewrite Forall_forall in H3. apply H3 in Hin as [_ Hlen].
    destruct (printable_kids r x Hp ltac:(right; by exists p)) as [? ?]. split_and!; done. }
  destruct (lexes_blocks st (inner_walk r) l1 []) as (l2 & H2 & He2 & Hs2); [| done | by rewrite app_nil_r |].
  { apply Forall_forall. intros e Hin. by apply Hall in Hin as (? & _ & ? & ? & _). }
  destruct (parse_block root_name r [] 0) as (n1 & Hn1 & E1); [by left | done |].
  destruct (parse_blocks (inner_walk r) [Node 0 root_name PM_ID_NULL (kid_stub <$> first r)] n1) as (n2 & Hn2 & E2).
  { apply Forall_forall. intros e Hin. by apply Hall in Hin as (_ & ? & _ & _ & ?). }
  exists l2, n2. split_and!; [by eapply lexes_app | done | done | lia |]. unfold text_of. rewrite parse_all_app, E1. exact E2.
Qed.
Lemma load_loop_lexes st dupok l ts l' : lexes st l ts l' → ∀ fuel p p' r,
  parse_all ts p = Some p' → lex st l' = Stop 0 → load_loop fuel st dupok l p = Some r →
  ∃ sts m, pass2 dupok p' = Some (sts, m) ∧ r = Result sts m.
Proof.
  induction 1 as [l|l t l1 ts l2 E _ IH]; intros fuel p p' r Hp Hl Hr; (destruct fuel as [|fuel]; [done |]); cbn [load_loop parse_all] in *.
  - injection Hp as <-. rewrite Hl in Hr. cbn [Z.eqb] in Hr. destruct (pass2 dupok p) as [[sts m]|]; [| done]. injection Hr as <-. eauto.
  - rewrite E in Hr. destruct (parse t p) as [p1|]; [| done]. by eapply IH.
Qed.
Lemma below_norm n : below (norm n) = norm <$> below n.
Proof.
  induction n as [i s p l IH] using node_ind'. cbn [norm below].
  induction IH as [|k l Hk _ IHl]; [done |]. rewrite fmap_cons. cbn [flat_map]. by rewrite Hk, IHl, fmap_app.
Qed.
Lemma name_norm n : name (norm n) = name n.
Proof. by destruct n. Qed.
Lemma first_norm n : first (norm n) = norm <$> first n.
Proof. by destruct n. Qed.
Lemma pmid_norm n : pmid (norm n) = if inner n then PM_ID_NULL else pmid n.
Proof. by rewrite norm_eq. Qed.
Lemma inner_norm n : inner (norm n) = inner n.
Proof. unfold inner. rewrite first_norm. by destruct (first n). Qed.
Lemma norm_ext f r : (∀ n, n ∈ below r → inner n = false → f n = pmid n) → norm <$> first (remark f r) = norm <$> first r.
Proof.
  intros H. rewrite first_remark, <- list_fmap_compose. apply list_fmap_ext. intros j k Hk. apply list_elem_of_lookup_2 in Hk.
  assert (∀ n, n ∈ nodes k → inner n = false → f n = pmid n) as Hf.
  { intros n Hn. apply H. rewrite below_eq. apply elem_of_flat_map. eauto. }
  clear Hk H. unfold compose. induction k as [i s p l IH] using node_ind'. rewrite !norm_eq, name_remark, pmid_remark, first_remark. f_equal.
  - unfold inner at 1. rewrite first_remark. cbn [first]. specialize (Hf _ (nodes_self _)). unfold inner in *. cbn [first] in *. by destruct l; [apply Hf |].
  - rewrite <- list_fmap_compose. apply list_fmap_ext. intros j' k Hk. apply list_elem_of_lookup_2 in Hk. rewrite Forall_forall in IH.
    apply IH; [done |]. intros n Hn. apply Hf. eapply nodes_trans; [done | by apply child_nodes].
Qed.
Lemma norm_strip n : norm (strip n) = norm n.
Proof.
  induction n as [i s p l IH] using node_ind'. rewrite !norm_eq. cbn [strip name pmid first]. f_equal; [unfold inner; cbn [first]; by destruct l |].
  rewrite <- list_fmap_compose. apply list_fmap_ext. intros j k Hk. apply list_elem_of_lookup_2 in Hk. rewrite Forall_forall in IH. by apply IH.
Qed.
Lemma norm_norm n : norm (norm n) = norm n.
Proof.
  induction n as [i s p l IH] using node_ind'. rewrite (norm_eq (norm _)), inner_norm, name_norm, first_norm, pmid_norm, (norm_eq (Node i s p l)).
  f_equal; [by destruct (inner _) |]. cbn [first]. rewrite <- list_fmap_compose. apply list_fmap_ext. intros j k Hk.
  apply list_elem_of_lookup_2 in Hk. rewrite Forall_forall in IH. by apply IH.
Qed.
Lemma loadable_plain p : loadable p → 0 <= p < PMID_MASK.
Proof.
  intros [Hp Hl]. split; [lia |]. unfold PMID_MASK. destruct (decide (p = 2147483647)) as [-> |]; [| lia]. vm_compute in Hl. by destruct Hl.
Qed.
Lemma norm_tidy r : printable r → tidy (set_first (norm <$> first r) (new_node root_name)).
Proof.
  intros Hp. unfold tidy, uniq, nodes. rewrite below_set_first.
  assert (flat_map nodes (norm <$> first r) = norm <$> below r) as ->.
  { rewrite <- below_norm, below_eq, first_norm. done. }
  assert (∀ l : list node, name <$> (norm <$> l) = name <$> l) as Hn.
  { intros l. rewrite <- list_fmap_compose. apply list_fmap_ext. intros j k _. apply name_norm. }
  pose proof (pr_uniq r Hp) as Hu. unfold uniq in Hu. split.
  - constructor; [cbn [set_first first]; rewrite Hn; by apply uniq_names, pr_uniq |]. rewrite Forall_fmap.
    apply Forall_cons in Hu as [_ Hu]. eapply Forall_impl; [exact Hu |]. intros n. unfold compose. by rewrite first_norm, Hn.
  - apply Forall_fmap, Forall_forall. intros n Hin. unfold compose. rewrite name_norm, pmid_norm.
    pose proof (pr_names r Hp) as H1. pose proof (pr_metrics r Hp) as H2. rewrite Forall_forall in H1, H2. split.
    + apply H1 in Hin. by apply ident_chars in Hin as (_ & _ & ?).
    + destruct (inner n) eqn:E; [by left |]. right. by apply loadable_plain, H2.
Qed.
Lemma fixed_strip n : fixed (strip n) = fixed n.
Proof. unfold fixed, known. by rewrite pmid_strip. Qed.
Lemma fixed_pmids_strip n : pmid <$> filter (λ n, fixed n = true) (below (strip n)) = pmid <$> filter (λ n, fixed n = true) (below n).
Proof.
  rewrite below_strip. induction (below n) as [|k l IH]; [done |]. rewrite fmap_cons, !filter_cons, fixed_strip.
  case_decide; [rewrite !fmap_cons, pmid_strip; by rewrite IH | done].
Qed.
(** The identifiers of the metrics of a tree, roots of dynamic subtrees apart. *)
Definition leaf_pmids (r : node) : list Z :=
  pmid <$> filter (λ n, negb (inner n) && negb (dynamic (pmid n)) = true) (below r).
Lemma fixed_norm r : printable r → pmid <$> filter (λ n, fixed n = true) (norm <$> below r) = leaf_pmids r.
Proof.
  intros Hp. pose proof (pr_metrics r Hp) as Hm. unfold leaf_pmids. clear Hp. induction (below r) as [|n l IH]; [done |].
  apply Forall_cons in Hm as [Hn Hm]. rewrite fmap_cons, !filter_cons.
  assert (fixed (norm n) = negb (inner n) && negb (dynamic (pmid n))) as ->.
  { unfold fixed, known. rewrite pmid_norm. destruct (inner n) eqn:E; [done |]. destruct (Hn eq_refl) as [Hl _].
    by rewrite (proj2 (Z.eqb_neq _ _)) by (by apply loadable_known). }
  case_decide as E; [| by apply IH]. rewrite !fmap_cons, IH by done. f_equal. rewrite pmid_norm. by destruct (inner n).
Qed.
Lemma pass2_output dupok r n :
  printable r → Z.of_nat (length (inner_walk r)) <= n → (dupok = true ∨ NoDup (leaf_pmids r)) →
  ∃ t, pass2 dupok (mkParser 0 (reverse (subtree <$> inner_walk r) ++ [Node 0 root_name PM_ID_NULL (kid_stub <$> first r)]) n) =
    Some (0, Loaded t) ∧ hashed t ∧ name (root t) = root_name ∧ norm <$> first (root t) = norm <$> first r.
Proof.
  intros Hp Hn Hd. unfold pass2. cbn [seen seenpmid]. set (subs := reverse (subtree <$> inner_walk r)).
  assert (Forall (λ x, name x ≠ root_name) subs) as Hne.
  { unfold subs. apply Forall_reverse, Forall_fmap. eapply Forall_impl; [exact (pr_paths r Hp) |]. by intros e [? _]. }
  assert (findseen root_name (subs ++ [Node 0 root_name PM_ID_NULL (kid_stub <$> first r)]) =
    Some (Node 0 root_name PM_ID_NULL (kid_stub <$> first r), subs)) as ->.
  { unfold findseen. rewrite split_find_app; [cbn; by rewrite app_nil_r | | by apply bool_decide_eq_true_2].
    eapply Forall_impl; [exact Hne |]. intros x Hx. by apply bool_decide_eq_false_2. }
  assert (findseen root_name subs = None) as ->.
  { unfold findseen. rewrite (proj2 (split_find_None _ _)); [done |]. eapply Forall_impl; [exact Hne |]. intros x Hx. by apply bool_decide_eq_false_2. }
  cbn [first]. assert (subs ≡ₚ (subtree <$> (shift [] <$> inner_walk r)) ++ []) as Hperm.
  { rewrite app_nil_r. unfold subs. rewrite reverse_Permutation. assert (shift [] <$> inner_walk r = inner_walk r) as ->; [| done].
    rewrite <- (list_fmap_id (inner_walk r)) at 2. apply list_fmap_ext. by intros j [? ?] _. }
  assert (NoDup (name <$> subs)) as Hnd.
  { pose proof (subtree_names r Hp) as H. unfold subs. by rewrite reverse_Permutation. }
  destruct (attach_norm r [] (length subs) subs []) as (rest & Ea & Hr); [| | by left | lia | done | done |].
  { unfold named_nodes. eapply Forall_impl; [exact (pr_names r Hp) |]. intros x Hx. by apply ident_chars in Hx as [? _]. }
  { eapply Forall_impl; [exact (pr_metrics r Hp) |]. intros x Hx Hi. by apply Hx. }
  change (join []) with (@nil byte) in Ea. rewrite Ea. apply Permutation_nil_r in Hr as ->. cbn [mbind option_bind Z.eqb andb].
  rewrite bool_decide_eq_true_2 by done. change (set_first (norm <$> first r) (Node 0 root_name PM_ID_NULL (kid_stub <$> first r)))
    with (set_first (norm <$> first r) (new_node root_name)).
  destruct (number 0 (set_first (norm <$> first r) (new_node root_name))) as [r' k] eqn:En.
  pose proof (norm_tidy r Hp) as Ht. pose proof (number_built _ 0 r' k 0 false Ht eq_refl eq_refl En) as Hb.
  set (t0 := mkTree r' [] 0 false UNKNOWN_MARK_STATE k) in *.
  apply number_spec in En as (Es & _). set (c := n - (Z.of_nat (length subs) - Z.of_nat (length (@nil node)))).
  assert (0 <= c) as Hc.
  { unfold c, subs. rewrite length_reverse, length_fmap. simpl. lia. }
  destruct (fix_table t0 c dupok Hb Hc) as (sts & t & Ef & Hor & Hiff). rewrite Ef.
  assert (sts = 0) as ->.
  { apply Hiff. destruct Hd as [? | Hd]; [by left | right]. cbn [root t0]. rewrite <- fixed_pmids_strip, Es, fixed_pmids_strip, below_set_first.
    assert (flat_map nodes (norm <$> first r) = norm <$> below r) as -> by (rewrite <- below_norm, below_eq, first_norm; done).
    by rewrite fixed_norm. }
  destruct (fix_hashed t0 c dupok t Hb Hc Ef) as [-> Hh]. exists (mark_all false (table t0 (hash_size c))). split_and!; [done | done | |].
  all: pose proof (hash_size_bounds c Hc); rewrite mark_all_remark by (apply table_hashed; [done | lia]);
    cbn [root set_mark_state set_root table set_htab t0].
  - rewrite name_remark, <- name_strip, Es. done.
  - assert (norm <$> first r' = norm <$> first r) as Er.
    { assert (norm <$> first (strip r') = norm <$> first (strip (set_first (norm <$> first r) (new_node root_name)))) as E by (by rewrite Es).
      rewrite !first_strip, <- !list_fmap_compose in E. cbn [set_first first] in E.
      assert (∀ l : list node, norm ∘ strip <$> l = norm <$> l) as Hs by (intros l; apply list_fmap_ext; intros j x _; apply norm_strip).
      rewrite !Hs, <- list_fmap_compose in E. rewrite E. apply list_fmap_ext. intros j x _. apply norm_norm. }
    rewrite <- Er. apply norm_ext. intros x Hx Hi. unfold mark_bearing. destruct (bears x); [| done].
    apply mark_false_plain. assert (plain_pmid (pmid x)) as Hpl by (apply (bt_pmid t0 Hb x), below_nodes, Hx).
    destruct Hpl as [E | ?]; [| done]. exfalso.
    assert (strip x ∈ below (strip r')) as Hxs by (rewrite below_strip; by apply list_elem_of_fmap_2).
    rewrite Es, below_strip, below_set_first in Hxs.
    assert (flat_map nodes (norm <$> first r) = norm <$> below r) as Hbn by (rewrite <- below_norm, below_eq, first_norm; done).
    rewrite Hbn in Hxs. apply list_elem_of_fmap in Hxs as (y & Ey & Hy). apply list_elem_of_fmap in Hy as (z & -> & Hz).
    assert (inner z = false) as Hiz.
    { rewrite <- inner_norm. unfold inner in *. assert (strip <$> first x = strip <$> first (norm z)) as E2 by (rewrite <- !first_strip; by rewrite Ey).
      destruct (first x); [| done]. by destruct (first (norm z)). }
    assert (pmid x = pmid z) as Exz by (rewrite <- (pmid_strip x), Ey, pmid_strip, pmid_norm, Hiz; done).
    pose proof (pr_metrics r Hp) as Hm. rewrite Forall_forall in Hm. destruct (Hm z Hz Hiz) as [Hl _]. apply loadable_known in Hl. congruence.
Qed.
(** Deciding whether a tree can be written. *)
Definition loadable_b (p : Z) : bool :=
  (0 <=? p) && (p <? 2^31) && if dynamic p then pmid_cluster p <=? 510 else pmid_domain p <=? 510.
Definition printable_b (r : node) : bool :=
  bool_decide (name r = root_name) && bool_decide (uniq r) && forallb (λ n, ident (name n)) (below r)
  && forallb (λ n, inner n || loadable_b (pmid n) && (length (name n) + length (show_pmid (pmid n)) <? 253)%nat) (below r)
  && forallb (λ e, negb (bool_decide (join e.1 = root_name)) && (length (join e.1) <? 253)%nat) (inner_walk r).
Lemma loadable_b_spec p : loadable_b p = true → loadable p.
Proof.
  unfold loadable_b, loadable. intros [[H1%Z.leb_le H2%Z.ltb_lt]%andb_true_iff H3]%andb_true_iff. split; [lia |].
  destruct (dynamic p); by apply Z.leb_le.
Qed.
Lemma printable_b_spec r : printable_b r = true → printable r.
Proof.
  unfold printable_b. intros [[[[H1 H2]%andb_true_iff H3%forallb_Forall]%andb_true_iff H4%forallb_Forall]%andb_true_iff H5%forallb_Forall]%andb_true_iff.
  apply bool_decide_eq_true_1 in H1, H2. constructor; [done | done | done | |].
  - eapply Forall_impl; [exact H4 |]. intros n [Hi | [Hl Hlen]%andb_true_iff]%orb_true_iff E; [congruence |].
    split; [by apply loadable_b_spec | by apply Nat.ltb_lt].
  - eapply Forall_impl; [exact H5 |]. intros e [Hn Hlen]%andb_true_iff. split; [by apply negb_true_iff, bool_decide_eq_false_1 in Hn | by apply Nat.ltb_lt].
Qed.
End PmnsWrite.
Import PmnsWrite.

(** ** Theorems *)

(** C14. A name space that is written by [pmns_output] and loaded again is the same: every
    name is there, in its order, with its identifier. *)
Theorem load_output dupok r s :
  printable r → dupok = true ∨ NoDup (leaf_pmids r) →
  s_access s = None → s_popen s = None → s_status s = 0 → length (s_linebuf s) = LINEBUF →
  s_text s = pmns_output r →
  ∃ t, loadascii dupok s = Some (Result 0 (Loaded t)) ∧ hashed t ∧
       name (root t) = name r ∧ norm <$> first (root t) = norm <$> first r.
Proof.
  intros Hp Hd Ha Ho Hst Hl Ht. destruct (loadascii_total dupok s Hl) as [res Hres].
  pose proof Hres as Hr. unfold loadascii in Hr. rewrite Ha, Ho, Hst in Hr.
  set (l0 := mkLexer (NUL :: tail (s_linebuf s)) 0 (s_text s) 1 (s_fname s)) in *.
  assert (eol l0) as He.
  { exists []. split; [constructor |]. split; [cbn; rewrite <- Hl; destruct (s_linebuf s); [by unfold LINEBUF in Hl | done] |].
    exists (tail (s_linebuf s)). done. }
  destruct (read_output 0 r l0 Hp He Ht) as (l' & n & Hlx & He' & Hs' & Hn & Hparse).
  destruct (load_loop_lexes 0 dupok l0 _ l' Hlx _ _ _ res Hparse (lexer_ends l' He' Hs') Hr) as (sts & m & Hp2 & ->).
  destruct (pass2_output dupok r n Hp Hn Hd) as (t & Ep & Hh & Hnm & Hf). rewrite Ep in Hp2. injection Hp2 as <- <-.
  exists t. split_and!; [done | done | by rewrite Hnm, (pr_root r Hp) | done].
Qed.

(** ** Examples *)

Definition ex_root : node := root (snd (__pmFixPMNSHashTab ex_tree 3 false)).
Definition ex_text : str := pmns_output ex_root.
Lemma load_output_witness :
  ∃ t, loadascii false (text_source ex_text) = Some (Result 0 (Loaded t)) ∧ hashed t ∧
       name (root t) = name ex_root ∧ norm <$> first (root t) = norm <$> first ex_root.
Proof.
  apply (load_output false ex_root (text_source ex_text)); [| | reflexivity ..].
  - apply printable_b_spec. vm_compute. reflexivity.
  - right. apply (bool_decide_eq_true_1 _). vm_compute. reflexivity.
Defined.
(** ** What goes wrong *)

(** An inner node without children is written as a metric with an identifier that the
    loader refuses. *)
Definition empty_inner : str :=
  root_name ++ [space; lbrace; newline; Byte.x61; newline; rbrace; newline; Byte.x61; space; lbrace; newline; rbrace; newline].
Lemma empty_inner_lost :
  (t ← loaded_tree (loadascii false (text_source empty_inner)); loadascii false (text_source (pmns_output (root t))))
  = Some (Result PM_ERR_PMNS Unloaded).
Proof. vm_compute. reflexivity. Qed.
