(* ===== verification/Derive.v ===== *)
(** Derived metrics, libpcp/src/derive.c: the lexical analyser and the parser of
    expressions, the registration of metrics, the configuration files, and what the name
    space asks about the names that are registered.  The evaluation of the expressions is
    not here. *)
From S2P Require Import Prelude Memory Text Types PmnsTree.
From Stdlib Require Import QArith.Qcanon.
Import PmnsTree.Pmns.

Definition PM_ERR_GENERIC : Z := - PM_ERR_BASE.
Definition PMNS_LEAF_STATUS : Z := 0.
Definition PMNS_NONLEAF_STATUS : Z := 1.
Local Open Scope Z_scope.

Module Derive.

(** ** The lexical analyser *)

Inductive lex_t :=
  L_ERROR | L_EOF | L_NUMBER | L_NAME | L_PLUS | L_MINUS | L_STAR | L_SLASH | L_LPAREN | L_RPAREN
  | L_AVG | L_COUNT | L_DELTA | L_MAX | L_MIN | L_SUM | L_ANON.
#[export] Instance lex_t_eq_decision : EqDecision lex_t.
Proof. solve_decision. Defined.
Definition func : list (lex_t * str) :=
  [(L_AVG, lit "avg"); (L_COUNT, lit "count"); (L_DELTA, lit "delta"); (L_MAX, lit "max");
   (L_MIN, lit "min"); (L_SUM, lit "sum"); (L_ANON, lit "anon")].
Inductive errmsg := Illegal_character | End_of_input | Unexpected_paren | Constant_too_large | Duplicate_name.

(** [string] is what is left of the expression and [pos] the number of characters before;
    [this] is the start of the current token, relative to the expression. *)
Record scanner := mkScan {
  string : str; pos : Z; lexpeek : option byte; this : Z; tokbuf : str; derive_errmsg : option errmsg }.
Definition set_this (v : Z) (s : scanner) : scanner :=
  mkScan (string s) (pos s) (lexpeek s) v (tokbuf s) (derive_errmsg s).
Definition set_tokbuf (v : str) (s : scanner) : scanner :=
  mkScan (string s) (pos s) (lexpeek s) (this s) v (derive_errmsg s).
Definition set_err (e : option errmsg) (s : scanner) : scanner :=
  mkScan (string s) (pos s) (lexpeek s) (this s) (tokbuf s) e.
(** To put back the character 0 is to put back nothing. *)
Definition unget (c : byte) (s : scanner) : scanner :=
  mkScan (string s) (pos s) (if bool_decide (c = NUL) then None else Some c) (this s) (tokbuf s) (derive_errmsg s).
(** [None] is L_EOF, which is also what the character 0xff becomes. *)
Definition get (s : scanner) : option byte * scanner :=
  match lexpeek s with
  | Some c => (Some c, mkScan (string s) (pos s) None (this s) (tokbuf s) (derive_errmsg s))
  | None =>
      match string s with
      | [] => (None, s)
      | c :: p =>
          (if bool_decide (c = Byte.xff) then None else Some c,
           mkScan p (pos s + 1) None (this s) (tokbuf s) (derive_errmsg s))
      end
  end.
Inductive kind := K_UNDEF | K_NUMBER | K_NAME.
Definition operator (c : byte) : option lex_t :=
  match c with
  | Byte.x2b => Some L_PLUS
  | Byte.x2d => Some L_MINUS
  | Byte.x2a => Some L_STAR
  | Byte.x2f => Some L_SLASH
  | Byte.x28 => Some L_LPAREN
  | Byte.x29 => Some L_RPAREN
  | _ => None
  end.
Definition is_func (p : str) : option lex_t := fst <$> find (λ f, bool_decide (f.2 = p)) func.
Definition name_more (c : byte) : bool :=
  isalpha c || isdigit c || bool_decide (c = Byte.x5f) || bool_decide (c = dot).
(** The loop of lex; [p] is the token so far. *)
Fixpoint lex_loop (fuel : nat) (ltype : kind) (firstch : bool) (p : str) (s : scanner) : option (lex_t * scanner) :=
  match fuel with
  | O => None
  | S fuel =>
      let '(c, s) := get s in
      if firstch && from_option isspace false c then lex_loop fuel ltype true p s
      else
        let s := if firstch then set_this (pos s - 1) s else s in
        match c, ltype with
        | None, K_UNDEF => Some (L_EOF, s)
        | _, _ =>
            let ch := default NUL c in
            match ltype with
            | K_UNDEF =>
                if isdigit ch then lex_loop fuel K_NUMBER false [ch] s
                else if isalpha ch then lex_loop fuel K_NAME false [ch] s
                else match operator ch with
                     | Some t => Some (t, set_tokbuf [ch] s)
                     | None => Some (L_ERROR, s)
                     end
            | K_NUMBER =>
                if isdigit ch then lex_loop fuel K_NUMBER false (p ++ [ch]) s
                else Some (L_NUMBER, set_tokbuf p (unget ch s))
            | K_NAME =>
                if name_more ch then lex_loop fuel K_NAME false (p ++ [ch]) s
                else match (if bool_decide (ch = Byte.x28) then is_func p else None) with
                     | Some t => Some (t, set_tokbuf (p ++ [ch]) s)
                     | None => Some (L_NAME, set_tokbuf p (unget ch s))
                     end
            end
        end
  end.
Definition room (s : scanner) : nat := length (string s) + length (option_list (lexpeek s)).
Definition lex (s : scanner) : option (lex_t * scanner) := lex_loop (S (S (room s))) K_UNDEF true [] s.

(** ** The parser *)

(** [desc] is the type of a constant; otherwise the descriptor is not set. *)
Inductive node_t :=
  NULL | Expr (type : lex_t) (save_last : bool) (left right : node_t) (value : option str) (desc : option Z).
Definition type (n : node_t) : lex_t := match n with NULL => L_EOF | Expr t _ _ _ _ _ => t end.
Definition right (n : node_t) : node_t := match n with NULL => NULL | Expr _ _ _ r _ _ => r end.
Definition set_left (l : node_t) (n : node_t) : node_t := match n with NULL => NULL | Expr t s _ r v d => Expr t s l r v d end.
Definition set_right (r : node_t) (n : node_t) : node_t := match n with NULL => NULL | Expr t s l _ v d => Expr t s l r v d end.
Definition newnode (t : lex_t) : node_t := Expr t false NULL NULL None None.
Definition leaf (t : lex_t) (v : str) : node_t :=
  Expr t false NULL NULL (Some v) (if bool_decide (t = L_NUMBER) then Some PM_TYPE_U32 else None).
(** [curr] is reached from [expr] by going right [d] times. *)
Fixpoint at_right (d : nat) (n : node_t) : node_t := match d with O => n | S d => at_right d (right n) end.
Fixpoint upd_right (d : nat) (f : node_t → node_t) (n : node_t) : node_t :=
  match d with O => f n | S d => set_right (upd_right d f (right n)) n end.

Inductive pstate := P_INIT | P_LEAF | P_LEAF_PAREN | P_BINOP | P_FUNC_OP | P_FUNC_END.
#[export] Instance pstate_eq_decision : EqDecision pstate.
Proof. solve_decision. Defined.
Definition is_op (t : lex_t) : bool := match t with L_PLUS | L_MINUS | L_STAR | L_SLASH => true | _ => false end.
Definition is_fun (t : lex_t) : bool :=
  match t with L_AVG | L_COUNT | L_DELTA | L_MAX | L_MIN | L_SUM | L_ANON => true | _ => false end.
Definition additive (t : lex_t) : bool := match t with L_PLUS | L_MINUS => true | _ => false end.
(** Nodes that an operator takes as a whole. *)
Definition tight (t : lex_t) : bool := is_fun t || match t with L_NAME | L_NUMBER => true | _ => false end.
Definition anon_type (v : str) : option Z :=
  snd <$> find (λ e, bool_decide (e.1 = v))
    [(lit "PM_TYPE_32", PM_TYPE_32); (lit "PM_TYPE_U32", PM_TYPE_U32); (lit "PM_TYPE_64", PM_TYPE_64);
     (lit "PM_TYPE_U64", PM_TYPE_U64); (lit "PM_TYPE_FLOAT", PM_TYPE_FLOAT); (lit "PM_TYPE_DOUBLE", PM_TYPE_DOUBLE)].
(** The argument of a function; [None]: not a type. *)
Definition argument (f : lex_t) (v : str) : option node_t :=
  if bool_decide (f = L_ANON) then t ← anon_type v; Some (Expr L_NUMBER true NULL NULL (Some v) (Some t))
  else Some (Expr L_NAME true NULL NULL (Some v) None).
Definition strtoull (v : str) : Z := Z.min (2^64 - 1) (span_digits v 0).1.
(** The loop of parse; the result is NULL for an error, [None] stands for a loop that is
    not at its end. *)
Fixpoint parse_loop (fuel : nat) (level : Z) (st : pstate) (expr : node_t) (d : nat) (s : scanner)
    : option (node_t * scanner) :=
  match fuel with
  | O => None
  | S fuel =>
      '(t, s) ← lex s;
      let fail := Some (NULL, s) in
      let error e := Some (NULL, set_err (Some e) s) in
      match t with
      | L_ERROR => error Illegal_character
      | L_EOF =>
          if (level =? 1) && (bool_decide (st = P_LEAF) || bool_decide (st = P_LEAF_PAREN)) then Some (expr, s)
          else error End_of_input
      | L_RPAREN =>
          if bool_decide (st = P_FUNC_END) then parse_loop fuel level P_LEAF expr d s
          else if ((1 <? level) && bool_decide (st = P_LEAF_PAREN)) || bool_decide (st = P_LEAF) then Some (expr, s)
          else error Unexpected_paren
      | _ =>
          match st with
          | P_INIT =>
              if bool_decide (t = L_NAME) || bool_decide (t = L_NUMBER) then
                if bool_decide (t = L_NUMBER) && (0xffffffff <? strtoull (tokbuf s)) then error Constant_too_large
                else parse_loop fuel level P_LEAF (leaf t (tokbuf s)) 0 s
              else if bool_decide (t = L_LPAREN) then
                '(np, s) ← parse_loop fuel (level + 1) P_INIT NULL 0 s;
                match np with NULL => Some (NULL, s) | _ => parse_loop fuel level P_LEAF_PAREN np 0 s end
              else if is_fun t then parse_loop fuel level P_FUNC_OP (newnode t) 0 s
              else fail
          | P_LEAF | P_LEAF_PAREN =>
              if is_op t then
                let curr := at_right d expr in
                if bool_decide (st = P_LEAF_PAREN) || tight (type curr) || additive t then
                  parse_loop fuel level P_BINOP (set_left curr (newnode t)) 0 s
                else
                  parse_loop fuel level P_BINOP
                    (upd_right d (λ curr, set_right (set_left (right curr) (newnode t)) curr) expr) (S d) s
              else fail
          | P_BINOP =>
              if bool_decide (t = L_NAME) || bool_decide (t = L_NUMBER) then
                parse_loop fuel level P_LEAF (upd_right d (set_right (leaf t (tokbuf s))) expr) 0 s
              else if bool_decide (t = L_LPAREN) then
                '(np, s) ← parse_loop fuel (level + 1) P_INIT NULL 0 s;
                match np with
                | NULL => Some (NULL, s)
                | _ => parse_loop fuel level P_LEAF_PAREN (upd_right d (set_right np) expr) d s
                end
              else if is_fun t then parse_loop fuel level P_FUNC_OP (upd_right d (set_right (newnode t)) expr) (S d) s
              else fail
          | P_FUNC_OP =>
              if bool_decide (t = L_NAME) then
                match argument (type (at_right d expr)) (tokbuf s) with
                | None => fail
                | Some np => parse_loop fuel level P_FUNC_END (upd_right d (set_left np) expr) 0 s
                end
              else fail
          | P_FUNC_END => fail
          end
      end
  end.
Definition parse (s : scanner) : option (node_t * scanner) := parse_loop (S (S (room s))) 1 P_INIT NULL 0 s.

(** ** Registration *)

Record dm_t := mkDm { dm_name : str; dm_pmid : Z; dm_expr : node_t }.
(** The registered metrics and what the analyser keeps between expressions. *)
Record ctl_t := mkCtl { mlist : list dm_t; peek : option byte; errstr : option errmsg; need_init : bool }.
Definition nmetric (r : ctl_t) : Z := zlen (mlist r).
(** The identifier of the metric that is registered as the [n]th. *)
Definition derived_pmid (n : Z) : Z := pmid_build DYNAMIC_PMID 0 n.
(** The result is NULL when the metric is registered, else a place in the expression. *)
Definition pmRegisterDerived (nm expr : str) (r : ctl_t) : option (option Z * ctl_t) :=
  if existsb (λ m, bool_decide (dm_name m = nm)) (mlist r) then
    Some (Some 0, mkCtl (mlist r) (peek r) (Some Duplicate_name) (need_init r))
  else
    '(np, s) ← parse (mkScan expr 0 (peek r) 0 [] None);
    match np with
    | NULL => Some (Some (this s), mkCtl (mlist r) (lexpeek s) (derive_errmsg s) (need_init r))
    | _ =>
        Some (None, mkCtl (mlist r ++ [mkDm nm (derived_pmid (nmetric r + 1)) np]) (lexpeek s) (derive_errmsg s) (need_init r))
    end.
Definition anon_expr (ty : Z) : option str :=
  match find (λ e, e.2 =? ty)
    [(lit "PM_TYPE_32", PM_TYPE_32); (lit "PM_TYPE_U32", PM_TYPE_U32); (lit "PM_TYPE_64", PM_TYPE_64);
     (lit "PM_TYPE_U64", PM_TYPE_U64); (lit "PM_TYPE_FLOAT", PM_TYPE_FLOAT); (lit "PM_TYPE_DOUBLE", PM_TYPE_DOUBLE)] with
  | Some e => Some (take 20 (lit "anon(" ++ e.1 ++ lit ")"))
  | None => None
  end.
Definition __pmRegisterAnon (nm : str) (ty : Z) (r : ctl_t) : option (Z * ctl_t) :=
  match anon_expr ty with
  | None => Some (PM_ERR_TYPE, r)
  | Some e => '(msg, r) ← pmRegisterDerived nm e r; Some (match msg with Some _ => PM_ERR_GENERIC | None => 0 end, r)
  end.

(** ** Configuration files *)

Fixpoint checkname (firstch : bool) (p : str) : Z :=
  match p with
  | [] => 0
  | c :: p =>
      if firstch then if isalpha c then checkname false p else -1
      else if isalpha c || isdigit c || bool_decide (c = Byte.x5f) then checkname false p
      else if bool_decide (c = dot) then checkname true p else -1
  end.
Definition trim_tail (p : str) : str := reverse (drop_space (reverse p)).
Definition equals : byte := Byte.x3d.
(** One line of a file without its end; the result counts the metrics that are registered.
    [None]: there is a NUL before the first =, and the code leaves its copy of the name. *)
Definition config_line (line : str) (eq : option nat) (r : ctl_t) : option (Z * ctl_t) :=
  if bool_decide (line = []) || bool_decide (head line = Some Byte.x23) then Some (0, r)
  else
    match eq with
    | None => Some (0, r)
    | Some eq =>
        if bool_decide (NUL ∈ take eq line) then None
        else
          let q := drop_space (trim_tail (take eq line)) in
          let ep := drop_space (string_at (drop (S eq) line)) in
          if bool_decide (q = []) || (checkname true q <? 0) || bool_decide (ep = []) then Some (0, r)
          else '(errp, r) ← pmRegisterDerived q ep r; Some (match errp with None => 1 | Some _ => 0 end, r)
    end.
(** [buf] is the line so far, [eq] the place of its first =.  What follows the last newline
    is not looked at. *)
Fixpoint config_loop (file buf : str) (eq : option nat) (sts : Z) (r : ctl_t) : option (Z * ctl_t) :=
  match file with
  | [] => Some (sts, r)
  | c :: file =>
      if bool_decide (c = newline) then '(n, r) ← config_line buf eq r; config_loop file [] None (sts + n) r
      else
        let eq := match eq with None => if bool_decide (c = equals) then Some (length buf) else None | _ => eq end in
        config_loop file (buf ++ [c]) eq sts r
  end.
(** The file, or why it cannot be read. *)
Definition pmLoadDerivedConfig (f : Z + str) (r : ctl_t) : option (Z * ctl_t) :=
  match f with inl e => Some (- e, r) | inr file => config_loop file [] None 0 r end.
(** What PCP_DERIVED_CONFIG names, when it is set. *)
Definition init (env : option (Z + str)) (r : ctl_t) : option ctl_t :=
  if need_init r then
    r ← match env with Some f => snd <$> pmLoadDerivedConfig f r | None => Some r end;
    Some (mkCtl (mlist r) (peek r) (errstr r) false)
  else Some r.

(** ** Questions about the names *)

(** What follows [nm] in [m], when that is the end or a dot. *)
Fixpoint after (nm m : str) : option str :=
  match nm, m with
  | [], _ => Some m
  | c :: nm, d :: m => if bool_decide (c = d) then after nm m else None
  | _ :: _, [] => None
  end.
Definition under (nm m : str) : bool :=
  match nm with
  | [] => true
  | _ => match after nm m with Some [] => true | Some (c :: _) => bool_decide (c = dot) | None => false end
  end.
Definition __dmtraverse (nm : str) (r : ctl_t) : list str := dm_name <$> filter (λ m, under nm (dm_name m) = true) (mlist r).
Fixpoint to_dot (p : str) : str * str :=
  match p with
  | [] => ([], [])
  | c :: q => if bool_decide (c = dot) then ([], p) else let '(w, r) := to_dot q in (c :: w, r)
  end.
(** [Assert]: the process dies. *)
Inductive dm_children := Assert | Kids (sts : Z) (children : list (str * Z)).
Fixpoint dmchildren_loop (nm : str) (l : list dm_t) (children : list (str * Z)) : dm_children :=
  match l with
  | [] => if bool_decide (children = []) then Kids PM_ERR_NAME [] else Kids (zlen children) children
  | m :: l =>
      if under nm (dm_name m) then
        match after nm (dm_name m) with
        | Some (c :: tail) =>
            let rest := match nm with [] => c :: tail | _ => tail end in
            if existsb (λ k, match after k.1 rest with Some (c :: _) => bool_decide (c = dot) | _ => false end) children
            then dmchildren_loop nm l children
            else
              let '(w, more) := to_dot rest in
              dmchildren_loop nm l (children ++ [(w, match more with [] => PMNS_LEAF_STATUS | _ => PMNS_NONLEAF_STATUS end)])
        | _ => if bool_decide (children = []) then Kids 0 [] else Assert
        end
      else dmchildren_loop nm l children
  end.
Definition __dmchildren (nm : str) (r : ctl_t) : dm_children := dmchildren_loop nm (mlist r) [].
Definition __dmgetpmid (nm : str) (r : ctl_t) : Z + Z :=
  match find (λ m, bool_decide (dm_name m = nm)) (mlist r) with Some m => inr (dm_pmid m) | None => inl PM_ERR_NAME end.
Definition __dmgetname (p : Z) (r : ctl_t) : Z + str :=
  match find (λ m, dm_pmid m =? p) (mlist r) with Some m => inr (dm_name m) | None => inl PM_ERR_PMID end.

(** ** The analyser comes to an end *)

Lemma get_room s c s' :
  get s = (c, s') → match c with None => (room s' <= room s)%nat | Some _ => room s = S (room s') end.
Proof.
  unfold get, room. destruct (lexpeek s) as [x|] eqn:Ep; [intros [= <- <-]; simpl; lia |].
  destruct (string s) as [|x p] eqn:Es; [intros [= <- <-]; rewrite Ep, Es; simpl; lia |].
  case_bool_decide; intros [= <- <-]; simpl; lia.
Qed.
Lemma unget_room c s : (room (unget c s) <= S (room s))%nat.
Proof. unfold unget, room. simpl. case_bool_decide; simpl; lia. Qed.
Lemma room_set_this v s : room (set_this v s) = room s. Proof. done. Qed.
Lemma room_set_tokbuf v s : room (set_tokbuf v s) = room s. Proof. done. Qed.
Lemma room_set_err e s : room (set_err e s) = room s. Proof. done. Qed.
Lemma lex_loop_room fuel : ∀ k f p s, (room s < fuel)%nat →
  ∃ t s', lex_loop fuel k f p s = Some (t, s') ∧
    (room s' <= room s)%nat ∧ (k = K_UNDEF → t = L_EOF ∨ (room s' < room s)%nat).
Proof.
  induction fuel as [|fuel IH]; intros k f p s Hf; [lia |]. cbn [lex_loop].
  destruct (get s) as [c s1] eqn:Eg. apply get_room in Eg.
  destruct (f && from_option isspace false c) eqn:Esp.
  { destruct c as [c|]; [| by rewrite andb_false_r in Esp].
    destruct (IH k true p s1) as (t & s' & E & Hle & H); [lia |]. exists t, s'. split_and!; [exact E | lia |].
    intros Hk. destruct (H Hk); [by left | right; lia]. }
  set (s2 := if f then set_this (pos s1 - 1) s1 else s1).
  assert (room s2 = room s1) as Hs2 by (unfold s2; by destruct f). clearbody s2.
  assert (∀ k', k' ≠ K_UNDEF → ∀ p', c ≠ None → ∃ t s', lex_loop fuel k' false p' s2 = Some (t, s') ∧ (room s' < room s)%nat) as Hrec.
  { intros k' Hk p' Hc. destruct c as [c|]; [| done]. destruct (IH k' false p' s2) as (t & s' & E & Hle & _); [lia |].
    exists t, s'. split; [exact E | lia]. }
  assert (∀ (t : lex_t) v c', c' = default NUL c → ∃ s', Some (t, set_tokbuf v (unget c' s2)) = Some (t, s') ∧ (room s' <= room s)%nat) as Hun.
  { intros t v c' ->. eexists. split; [done |]. rewrite room_set_tokbuf. pose proof (unget_room (default NUL c) s2).
    destruct c; [lia |]. simpl. unfold room, unget in *. simpl in *. rewrite Hs2 in *. lia. }
  destruct k.
  - destruct c as [c|]; [| exists L_EOF, s2; split_and!; [done | lia | by left]].
    simpl. destruct (isdigit c); [| destruct (isalpha c)].
    + destruct (Hrec K_NUMBER ltac:(done) [c] ltac:(done)) as (t & s' & E & H). exists t, s'. split_and!; [exact E | lia | right; lia].
    + destruct (Hrec K_NAME ltac:(done) [c] ltac:(done)) as (t & s' & E & H). exists t, s'. split_and!; [exact E | lia | right; lia].
    + destruct (operator c); eexists _, _; (split_and!; [done | |]); [| right | | right]; rewrite ?room_set_tokbuf; lia.
  - destruct (isdigit (default NUL c)) eqn:Ed.
    + destruct c as [c|]; [| done]. destruct (Hrec K_NUMBER ltac:(done) (p ++ [c]) ltac:(done)) as (t & s' & E & H).
      exists t, s'. split_and!; [exact E | lia | done].
    + destruct (Hun L_NUMBER p _ eq_refl) as (s' & E & H). exists L_NUMBER, s'. split_and!; [by destruct c | lia | done].
  - destruct (name_more (default NUL c)) eqn:Ed.
    + destruct c as [c|]; [| done]. destruct (Hrec K_NAME ltac:(done) (p ++ [c]) ltac:(done)) as (t & s' & E & H).
      exists t, s'. split_and!; [exact E | lia | done].
    + destruct (if bool_decide (default NUL c = Byte.x28) then is_func p else None) as [t|] eqn:Ef.
      * exists t, (set_tokbuf (p ++ [default NUL c]) s2). split_and!; [destruct c; simpl in *; by rewrite ?Ef | | done].
        rewrite room_set_tokbuf. destruct c; lia.
      * destruct (Hun L_NAME p _ eq_refl) as (s' & E & H). exists L_NAME, s'. split_and!; [destruct c; simpl in *; by rewrite ?Ef | lia | done].
Qed.
Lemma lex_room s : ∃ t s', lex s = Some (t, s') ∧ (room s' <= room s)%nat ∧ (t = L_EOF ∨ (room s' < room s)%nat).
Proof. destruct (lex_loop_room (S (S (room s))) K_UNDEF true [] s) as (t & s' & E & Hle & H); [lia |]. eauto 6. Qed.
(** The parser returns, and with more fuel it returns the same. *)
Lemma parse_loop_total fuel : ∀ level st e d s, (room s < fuel)%nat →
  ∃ r s', parse_loop fuel level st e d s = Some (r, s') ∧ (room s' <= room s)%nat.
Proof.
  induction fuel as [|fuel IH]; intros level st e d s Hf; [lia |]. cbn [parse_loop].
  destruct (lex_room s) as (t & s1 & -> & Hle & Hr). cbn [mbind option_bind].
  assert (∀ s2, room s2 = room s1 → ∃ r s', Some (NULL, s2) = Some (r, s') ∧ (room s' <= room s)%nat) as Hfail.
  { intros s2 E. eexists _, _. split; [done | lia]. }
  assert (t ≠ L_EOF → ∀ st' e' d', ∃ r s', parse_loop fuel level st' e' d' s1 = Some (r, s') ∧ (room s' <= room s)%nat) as Hrec.
  { intros Ht st' e' d'. destruct Hr as [-> | Hr]; [done |]. destruct (IH level st' e' d' s1) as (r & s' & E & H); [lia |].
    exists r, s'. split; [exact E | lia]. }
  assert (t ≠ L_EOF → ∀ (k : node_t → node_t) st' d', ∃ r s',
    ('(np, s) ← parse_loop fuel (level + 1) P_INIT NULL 0 s1;
     match np with NULL => Some (NULL, s) | _ => parse_loop fuel level st' (k np) d' s end) = Some (r, s')
    ∧ (room s' <= room s)%nat) as Hpar.
  { intros Ht k st' d'. destruct Hr as [-> | Hr]; [done |]. destruct (IH (level + 1) P_INIT NULL O s1) as (r & s' & E & H); [lia |].
    rewrite E. cbn [mbind option_bind]. destruct (IH level st' (k r) d' s') as (r' & s'' & E' & H'); [lia |].
    destruct r; [| exists r', s'']; [eexists _, _; split; [done | lia] |]. split; [exact E' | lia]. }
  destruct t; try (by apply Hfail);
    try (destruct (_ && _); [eexists _, _; split; [done | lia] |]; by apply Hfail).
  all: try (case_bool_decide; [by apply Hrec |]; destruct (_ || _); [eexists _, _; split; [done | lia] |]; by apply Hfail).
  all: specialize (Hrec ltac:(done)); specialize (Hpar ltac:(done)); destruct st; cbn -[parse_loop at_right upd_right];
    repeat (first [by apply Hfail | apply Hrec | apply (Hpar id) | apply (Hpar (λ np, upd_right d (set_right np) e)) | case_match | case_bool_decide]).
Qed.
Lemma parse_loop_mono fuel : ∀ fuel' level st e d s r, (fuel <= fuel')%nat →
  parse_loop fuel level st e d s = Some r → parse_loop fuel' level st e d s = Some r.
Proof.
  induction fuel as [|fuel IH]; intros fuel' level st e d s r Hle; [done |]. destruct fuel' as [|fuel']; [lia |]. cbn [parse_loop].
  destruct (lex s) as [[t s1]|]; [| done]. cbn [mbind option_bind].
  assert (∀ level st e d s r, parse_loop fuel level st e d s = Some r → parse_loop fuel' level st e d s = Some r) as H by (intros; apply IH; [lia | done]).
  assert (∀ (k : node_t → node_t) st' d',
    ('(np, s) ← parse_loop fuel (level + 1) P_INIT NULL 0 s1;
     match np with NULL => Some (NULL, s) | _ => parse_loop fuel level st' (k np) d' s end) = Some r →
    ('(np, s) ← parse_loop fuel' (level + 1) P_INIT NULL 0 s1;
     match np with NULL => Some (NULL, s) | _ => parse_loop fuel' level st' (k np) d' s end) = Some r) as Hpar.
  { intros k st' d'. destruct (parse_loop fuel (level + 1) P_INIT NULL 0 s1) as [[np s2]|] eqn:E; [| done].
    rewrite (H _ _ _ _ _ _ E). cbn [mbind option_bind]. destruct np; [done |]. apply H. }
  destruct t; try done; try (case_bool_decide; [apply H | done]);
    (destruct st; cbn -[parse_loop at_right upd_right];
     repeat (first [done | apply H | apply (Hpar id) | apply (Hpar (λ np, upd_right d (set_right np) e)) | case_match | case_bool_decide])).
Qed.
Lemma parse_total s : ∃ r s', parse s = Some (r, s').
Proof. destruct (parse_loop_total (S (S (room s))) 1 P_INIT NULL 0 s) as (r & s' & E & _); [lia |]. eauto. Qed.
(** What one amount of fuel finds, the parser finds. *)
Lemma parse_found fuel s r : parse_loop fuel 1 P_INIT NULL 0 s = Some r → parse s = Some r.
Proof.
  intros H. destruct (parse_total s) as (r' & s' & E). unfold parse in *.
  pose proof (λ L, parse_loop_mono _ (fuel + S (S (room s))) _ _ _ _ _ _ L E) as E1. specialize (E1 ltac:(lia)).
  pose proof (λ L, parse_loop_mono _ (fuel + S (S (room s))) _ _ _ _ _ _ L H) as E2. specialize (E2 ltac:(lia)). congruence.
Qed.

(** ** Reading tokens *)

Definition ahead (s : scanner) : str := option_list (lexpeek s) ++ string s.
Definition at_text (r : str) (s : scanner) : Prop := ahead s = r ∧ derive_errmsg s = None.
Lemma room_ahead s : room s = length (ahead s).
Proof. unfold room, ahead. rewrite length_app. lia. Qed.
Lemma get_text c r s : at_text (c :: r) s → c ≠ Byte.xff → ∃ s', get s = (Some c, s') ∧ at_text r s'.
Proof.
  unfold at_text, ahead, get. intros [Ha He] Hc. destruct (lexpeek s) as [x|]; simpl in Ha.
  - injection Ha as -> <-. eexists. split; [done |]. done.
  - rewrite Ha. rewrite bool_decide_eq_false_2 by done. eexists. split; [done |]. done.
Qed.
Lemma get_end s : at_text [] s → get s = (None, s).
Proof. unfold at_text, ahead, get. intros [Ha He]. destruct (lexpeek s); [done |]. simpl in Ha. by rewrite Ha. Qed.
Lemma at_text_this v r s : at_text r s → at_text r (set_this v s). Proof. done. Qed.
Lemma unget_text c r s v : at_text r s → lexpeek s = None → c ≠ NUL → at_text (c :: r) (set_tokbuf v (unget c s)).
Proof. unfold at_text, ahead, unget. simpl. intros [Ha He] Hp Hc. rewrite bool_decide_eq_false_2 by done. rewrite Hp in Ha. simpl in *. by rewrite Ha. Qed.
Lemma unget_end s v : at_text [] s → at_text [] (set_tokbuf v (unget NUL s)).
Proof. unfold at_text, ahead, unget. simpl. intros [Ha He]. by destruct (lexpeek s). Qed.
Lemma get_peek c s s' : get s = (Some c, s') → lexpeek s' = None.
Proof.
  unfold get. destruct (lexpeek s); [by intros [= _ <-] |]. destruct (string s); [done |]. by case_bool_decide; intros [= _ <-].
Qed.
(** The text goes on with a character that is not one of a token. *)
Definition stops (P : byte → bool) (r : str) : Prop :=
  match r with [] => True | c :: _ => P c = false ∧ c ≠ NUL ∧ c ≠ Byte.xff end.
Lemma class_not_ff c : isspace c = true ∨ isdigit c = true ∨ isalpha c = true ∨ name_more c = true → c ≠ Byte.xff.
Proof. intros H ->. by decompose [or] H. Qed.
Lemma loop_number ds : ∀ fuel p r s,
  at_text (ds ++ r) s → Forall (λ c, isdigit c = true) ds → stops isdigit r → (length ds < fuel)%nat →
  ∃ s', lex_loop fuel K_NUMBER false p s = Some (L_NUMBER, s') ∧ tokbuf s' = p ++ ds ∧ at_text r s'.
Proof.
  induction ds as [|c ds IH]; intros fuel p r s Ht Hd Hr Hf; (destruct fuel as [|fuel]; [simpl in Hf; lia |]); cbn [lex_loop].
  - cbn [app] in Ht. rewrite app_nil_r. destruct r as [|c r].
    + rewrite (get_end s Ht). cbn -[is_func]. eexists. split_and!; [done | done |]. by apply unget_end.
    + destruct Hr as (Hc & Hn & Hx). destruct (get_text c r s Ht Hx) as (s1 & Eg & H1). rewrite Eg. cbn -[is_func]. rewrite Hc.
      eexists. split_and!; [done | done |]. apply unget_text; [done | by apply get_peek in Eg | done].
  - apply Forall_cons in Hd as [Hc Hd]. destruct (get_text c (ds ++ r) s Ht) as (s1 & -> & H1); [apply class_not_ff; tauto |].
    cbn -[is_func]. rewrite Hc. destruct (IH fuel (p ++ [c]) r s1) as (s' & -> & Hv & H'); [done | done | done | simpl in Hf; lia |].
    exists s'. split_and!; [done | by rewrite Hv, <- app_assoc | done].
Qed.
Lemma loop_name ds : ∀ fuel p r s,
  at_text (ds ++ r) s → Forall (λ c, name_more c = true) ds → (length ds < fuel)%nat →
  (stops name_more r → head r ≠ Some Byte.x28 ∨ is_func (p ++ ds) = None →
     ∃ s', lex_loop fuel K_NAME false p s = Some (L_NAME, s') ∧ tokbuf s' = p ++ ds ∧ at_text r s') ∧
  (∀ f r', r = Byte.x28 :: r' → is_func (p ++ ds) = Some f →
     ∃ s', lex_loop fuel K_NAME false p s = Some (f, s') ∧ at_text r' s').
Proof.
  induction ds as [|c ds IH]; intros fuel p r s Ht Hd Hf; (destruct fuel as [|fuel]; [simpl in Hf; lia |]); cbn [lex_loop].
  - cbn [app] in Ht. rewrite app_nil_r. destruct r as [|c r].
    + rewrite (get_end s Ht). cbn -[is_func]. split; [| done]. intros _ _. eexists. split_and!; [done | done |]. by apply unget_end.
    + split.
      * intros (Hc & Hn & Hx) Hp. destruct (get_text c r s Ht Hx) as (s1 & Eg & H1). rewrite Eg. cbn -[is_func]. rewrite Hc.
        assert ((if bool_decide (c = Byte.x28) then is_func p else None) = None) as ->.
        { case_bool_decide; [| done]. destruct Hp as [Hp | ?]; [subst; by destruct Hp | done]. }
        eexists. split_and!; [done | done |]. apply unget_text; [done | by apply get_peek in Eg | done].
      * intros f r' [= -> ->] Hp. destruct (get_text _ r' s Ht) as (s1 & -> & H1); [done |]. cbn -[is_func]. rewrite Hp. eexists. split; done.
  - apply Forall_cons in Hd as [Hc Hd]. destruct (get_text c (ds ++ r) s Ht) as (s1 & -> & H1); [apply class_not_ff; tauto |].
    cbn -[is_func]. rewrite Hc. destruct (IH fuel (p ++ [c]) r s1) as [IH1 IH2]; [done | done | simpl in Hf; lia |].
    rewrite <- app_assoc in IH1, IH2. split; [apply IH1 | apply IH2].
Qed.
Lemma skip_ws ws : ∀ fuel r s, at_text (ws ++ r) s → Forall (λ c, isspace c = true) ws →
  ∃ s', at_text r s' ∧ lex_loop (length ws + fuel) K_UNDEF true [] s = lex_loop fuel K_UNDEF true [] s'.
Proof.
  induction ws as [|c ws IH]; intros fuel r s Ht Hs; [by exists s |]. apply Forall_cons in Hs as [Hc Hs]. cbn [length plus lex_loop].
  destruct (get_text c (ws ++ r) s Ht) as (s1 & -> & H1); [apply class_not_ff; tauto |]. cbn. rewrite Hc. by apply IH.
Qed.
(** The first character of a token. *)
Definition start (fuel : nat) (c : byte) (s : scanner) : option (lex_t * scanner) :=
  if isdigit c then lex_loop fuel K_NUMBER false [c] s
  else if isalpha c then lex_loop fuel K_NAME false [c] s
  else match operator c with Some t => Some (t, set_tokbuf [c] s) | None => Some (L_ERROR, s) end.
Lemma lex_at ws c r s : at_text (ws ++ c :: r) s → Forall (λ c, isspace c = true) ws → isspace c = false → c ≠ Byte.xff →
  ∃ s1, at_text r s1 ∧ lex s = start (S (S (length r))) c s1.
Proof.
  intros Ht Hs Hc Hx. unfold lex. rewrite room_ahead. destruct Ht as [Ha He]. rewrite Ha, length_app. cbn [length].
  replace (S (S (length ws + S (length r)))) with (length ws + S (S (S (length r))))%nat by lia.
  destruct (skip_ws ws (S (S (S (length r)))) (c :: r) s) as (s1 & H1 & ->); [done | done |].
  cbn [lex_loop]. destruct (get_text c r s1 H1 Hx) as (s2 & -> & H2). cbn [andb from_option]. rewrite Hc.
  exists (set_this (pos s2 - 1) s2). done.
Qed.
Lemma lex_end ws s : at_text ws s → Forall (λ c, isspace c = true) ws → ∃ s', at_text [] s' ∧ lex s = Some (L_EOF, s').
Proof.
  intros Ht Hs. unfold lex. rewrite room_ahead. pose proof Ht as [Ha He]. rewrite Ha.
  replace (S (S (length ws))) with (length ws + 2)%nat by lia. rewrite <- (app_nil_r ws) in Ht.
  destruct (skip_ws ws 2 [] s) as (s1 & H1 & ->); [done | done |]. cbn [lex_loop]. rewrite (get_end s1 H1). cbn.
  eexists. split; [| done]. done.
Qed.

(** ** Expressions without parentheses *)

(** White space is kept: between the parts of a text any amount of it may stand. *)
Inductive operand := OName (s : str) | ONum (s : str) | OFun (f : lex_t) (w1 : str) (arg : str) (w2 : str).
Record item := mkItem { i_before : str; i_op : lex_t; i_after : str; i_operand : operand }.
Definition fun_name (f : lex_t) : str := from_option snd [] (find (λ e, bool_decide (e.1 = f)) func).
Definition op_char (t : lex_t) : byte :=
  match t with L_PLUS => Byte.x2b | L_MINUS => Byte.x2d | L_STAR => Byte.x2a | _ => Byte.x2f end.
Definition operand_text (x : operand) : str :=
  match x with
  | OName s | ONum s => s
  | OFun f w1 a w2 => fun_name f ++ Byte.x28 :: w1 ++ a ++ w2 ++ [Byte.x29]
  end.
Definition item_text (i : item) : str := i_before i ++ op_char (i_op i) :: i_after i ++ operand_text (i_operand i).
Definition flat_text (x : operand) (l : list item) : str := operand_text x ++ flat_map item_text l.
Definition blanks (w : str) : bool := forallb isspace w.
Definition is_name (s : str) : bool := match s with c :: t => isalpha c && forallb name_more t | [] => false end.
Definition operand_ok (x : operand) : bool :=
  match x with
  | OName s => is_name s
  | ONum s => negb (bool_decide (s = [])) && forallb isdigit s && (strtoull s <=? 0xffffffff)
  | OFun f w1 a w2 => is_fun f && blanks w1 && is_name a && blanks w2 && match argument f a with Some _ => true | None => false end
  end.
Definition item_ok (i : item) : bool := blanks (i_before i) && is_op (i_op i) && blanks (i_after i) && operand_ok (i_operand i).
Definition operand_node (x : operand) : node_t :=
  match x with
  | OName s => leaf L_NAME s
  | ONum s => leaf L_NUMBER s
  | OFun f _ a _ => set_left (default NULL (argument f a)) (newnode f)
  end.
(** How an operator and its right operand join what is there. *)
Definition push (e : node_t) (i : item) : node_t :=
  let y := operand_node (i_operand i) in
  if tight (type e) || additive (i_op i) then set_right y (set_left e (newnode (i_op i)))
  else set_right (set_right y (set_left (right e) (newnode (i_op i)))) e.
Definition group (x : operand) (l : list item) : node_t := foldl push (operand_node x) l.

Definition follows (r : str) : Prop := stops name_more r ∧ head r ≠ Some Byte.x28.
Lemma digit_name c : isdigit c = true → name_more c = true.
Proof. unfold name_more. intros ->. by rewrite orb_true_r. Qed.
Lemma follows_digit r : follows r → stops isdigit r.
Proof.
  intros [H _]. destruct r as [|c r]; [done |]. destruct H as (H & ? & ?). split_and!; [| done | done].
  destruct (isdigit c) eqn:E; [apply digit_name in E; congruence | done].
Qed.
Lemma alpha_facts c : isalpha c = true → isspace c = false ∧ isdigit c = false ∧ c ≠ Byte.xff ∧ name_more c = true.
Proof. by destruct c. Qed.
Lemma lex_name ws v r s : at_text (ws ++ v ++ r) s → blanks ws = true → is_name v = true → follows r →
  ∃ s', lex s = Some (L_NAME, s') ∧ tokbuf s' = v ∧ at_text r s'.
Proof.
  intros Ht Hs%forallb_Forall Hv [Hr Hp]. destruct v as [|c t]; [done |]. apply andb_true_iff in Hv as [Hc Hn%forallb_Forall].
  destruct (alpha_facts c Hc) as (H1 & H2 & H3 & H4).
  destruct (lex_at ws c (t ++ r) s) as (s1 & Ht1 & ->); [done | done | done | done |]. unfold start. rewrite H2, Hc.
  destruct (loop_name t (S (S (length (t ++ r)))) [c] r s1 Ht1 Hn) as [H _]; [rewrite length_app; lia |]. apply H; [done | by left].
Qed.
Lemma lex_number ws v r s : at_text (ws ++ v ++ r) s → blanks ws = true → v ≠ [] → forallb isdigit v = true → follows r →
  ∃ s', lex s = Some (L_NUMBER, s') ∧ tokbuf s' = v ∧ at_text r s'.
Proof.
  intros Ht Hs%forallb_Forall Hv Hd%forallb_Forall Hr%follows_digit. destruct v as [|c t]; [done |]. apply Forall_cons in Hd as [Hc Hd].
  destruct (lex_at ws c (t ++ r) s) as (s1 & Ht1 & ->); [done | done | by destruct c | by destruct c |]. unfold start. rewrite Hc.
  apply (loop_number t (S (S (length (t ++ r)))) [c] r s1 Ht1 Hd Hr). rewrite length_app. lia.
Qed.
Lemma lex_function ws f r s : at_text (ws ++ fun_name f ++ Byte.x28 :: r) s → blanks ws = true → is_fun f = true →
  ∃ s', lex s = Some (f, s') ∧ at_text r s'.
Proof.
  intros Ht Hs%forallb_Forall Hf.
  assert (∃ c t, fun_name f = c :: t ∧ isalpha c = true ∧ forallb name_more t = true ∧ is_func ([c] ++ t) = Some f) as (c & t & E & Hc & Hn%forallb_Forall & Hi).
  { destruct f; try done; eexists _, _; split; reflexivity || done. }
  rewrite E in Ht. destruct (alpha_facts c Hc) as (H1 & H2 & H3 & H4).
  destruct (lex_at ws c (t ++ Byte.x28 :: r) s) as (s1 & Ht1 & ->); [done | done | done | done |]. unfold start. rewrite H2, Hc.
  destruct (loop_name t (S (S (length (t ++ Byte.x28 :: r)))) [c] _ s1 Ht1 Hn) as [_ H]; [rewrite length_app; lia |].
  by apply (H f r).
Qed.
Lemma lex_operator ws c t r s : at_text (ws ++ c :: r) s → blanks ws = true → operator c = Some t →
  ∃ s', lex s = Some (t, s') ∧ at_text r s'.
Proof.
  intros Ht Hs%forallb_Forall Hc.
  destruct (lex_at ws c r s) as (s1 & Ht1 & ->); [done | done | by destruct c | by destruct c |]. unfold start.
  assert (isdigit c = false ∧ isalpha c = false) as [-> ->] by (by destruct c). rewrite Hc. eexists. split; done.
Qed.
Lemma blank_follows w r : blanks w = true → follows r → follows (w ++ r).
Proof.
  destruct w as [|c w]; [done |]. intros [Hc _]%andb_true_iff _. unfold follows. simpl.
  assert (∀ c, isspace c = true → name_more c = false ∧ c ≠ NUL ∧ c ≠ Byte.xff ∧ c ≠ Byte.x28) as H by (by intros []).
  destruct (H c Hc) as (? & ? & ? & ?). split_and!; [done | done | done | congruence].
Qed.
Lemma item_follows i r : item_ok i = true → follows (item_text i ++ r).
Proof.
  unfold item_ok, item_text. intros [[[Hb Ho]%andb_true_iff _]%andb_true_iff _]%andb_true_iff. rewrite <- app_assoc. apply blank_follows; [done |].
  destruct (i_op i); done.
Qed.

Lemma at_right_nonnull d e : at_right d e ≠ NULL → e ≠ NULL.
Proof. destruct e; [| done]. induction d; done. Qed.
Lemma at_right_set d : ∀ e n, at_right d e ≠ NULL → at_right (S d) (upd_right d (set_right n) e) = n.
Proof.
  induction d as [|d IH]; intros e n He; [by destruct e |]. cbn [upd_right]. pose proof (at_right_nonnull _ _ He).
  destruct e; [done |]. cbn [set_right right at_right] in *. by apply IH.
Qed.
Lemma upd_right_set d f : ∀ e n, at_right d e ≠ NULL → upd_right (S d) f (upd_right d (set_right n) e) = upd_right d (set_right (f n)) e.
Proof.
  induction d as [|d IH]; intros e n He; [by destruct e |]. pose proof (at_right_nonnull _ _ He).
  destruct e; [done |]. cbn [upd_right right set_right] in *. f_equal. by apply IH.
Qed.
Lemma type_set_left l n : type (set_left l n) = type n. Proof. by destruct n. Qed.
Lemma paren_follows r : follows (Byte.x29 :: r). Proof. split_and!; done. Qed.
(** Single steps of the parser. *)
Lemma parse_leaf fuel level st e d s t s1 : lex s = Some (t, s1) →
  t = L_NAME ∨ t = L_NUMBER ∧ strtoull (tokbuf s1) <= 0xffffffff → st = P_INIT ∨ st = P_BINOP →
  parse_loop (S fuel) level st e d s =
  parse_loop fuel level P_LEAF (if bool_decide (st = P_INIT) then leaf t (tokbuf s1) else upd_right d (set_right (leaf t (tokbuf s1))) e) 0 s1.
Proof.
  intros E Ht Hst. cbn [parse_loop]. rewrite E. cbn [mbind option_bind].
  assert (bool_decide (t = L_NUMBER) && (0xffffffff <? strtoull (tokbuf s1)) = false) as Hs.
  { destruct Ht as [-> | [_ H]]; [done |]. rewrite (proj2 (Z.ltb_ge _ _) H). by rewrite andb_false_r. }
  destruct Hst as [-> | ->]; [rewrite Hs; rewrite (bool_decide_eq_true_2 (P_INIT = P_INIT)) by done | rewrite (bool_decide_eq_false_2 (P_BINOP = P_INIT)) by done];
    by destruct Ht as [-> | [-> _]].
Qed.
Lemma parse_fun fuel level st e d s t s1 : lex s = Some (t, s1) → is_fun t = true → st = P_INIT ∨ st = P_BINOP →
  parse_loop (S fuel) level st e d s =
  if bool_decide (st = P_INIT) then parse_loop fuel level P_FUNC_OP (newnode t) 0 s1
  else parse_loop fuel level P_FUNC_OP (upd_right d (set_right (newnode t)) e) (S d) s1.
Proof. intros E Ht Hst. cbn [parse_loop]. rewrite E. cbn [mbind option_bind]. by destruct Hst as [-> | ->]; destruct t. Qed.
Lemma parse_arg fuel level e d s s1 np : lex s = Some (L_NAME, s1) → argument (type (at_right d e)) (tokbuf s1) = Some np →
  parse_loop (S fuel) level P_FUNC_OP e d s = parse_loop fuel level P_FUNC_END (upd_right d (set_left np) e) 0 s1.
Proof. intros E Ha. cbn [parse_loop]. rewrite E. cbn [mbind option_bind]. rewrite bool_decide_eq_true_2 by done. by rewrite Ha. Qed.
Lemma parse_close fuel level e d s s1 : lex s = Some (L_RPAREN, s1) →
  parse_loop (S fuel) level P_FUNC_END e d s = parse_loop fuel level P_LEAF e d s1.
Proof. intros E. cbn [parse_loop]. by rewrite E. Qed.
Lemma parse_op fuel e s t s1 : lex s = Some (t, s1) → is_op t = true →
  parse_loop (S fuel) 1 P_LEAF e 0 s =
  if tight (type e) || additive t then parse_loop fuel 1 P_BINOP (set_left e (newnode t)) 0 s1
  else parse_loop fuel 1 P_BINOP (set_right (set_left (right e) (newnode t)) e) 1 s1.
Proof. intros E Ho. cbn [parse_loop]. rewrite E. cbn [mbind option_bind]. by destruct t. Qed.
(** The tokens of a function after its name. *)
Lemma parse_call level f w1 a w2 r s e d np :
  at_text (w1 ++ a ++ w2 ++ Byte.x29 :: r) s → blanks w1 = true → is_name a = true → blanks w2 = true →
  argument f a = Some np → type (at_right d e) = f →
  ∃ s', at_text r s' ∧ ∀ fuel,
    parse_loop (S (S fuel)) level P_FUNC_OP e d s = parse_loop fuel level P_LEAF (upd_right d (set_left np) e) 0 s'.
Proof.
  intros Ht H1 Ha H2 Hnp Hty.
  destruct (lex_name w1 a (w2 ++ Byte.x29 :: r) s) as (s1 & E1 & Hv & Ht1); [done | done | done | apply blank_follows, paren_follows; done |].
  destruct (lex_operator w2 Byte.x29 L_RPAREN r s1) as (s2 & E2 & Ht2); [done | done | done |].
  exists s2. split; [done |]. intros fuel. rewrite (parse_arg _ _ _ _ _ s1 np) by (done || by rewrite Hty, Hv). by rewrite (parse_close _ _ _ _ _ s2).
Qed.
(** An operand at the start and after an operator. *)
Lemma parse_operand level st ws x r s e d :
  at_text (ws ++ operand_text x ++ r) s → blanks ws = true → operand_ok x = true → follows r →
  st = P_INIT ∨ st = P_BINOP ∧ at_right d e ≠ NULL →
  ∃ s', at_text r s' ∧ ∀ fuel res,
    parse_loop fuel level P_LEAF (if bool_decide (st = P_INIT) then operand_node x else upd_right d (set_right (operand_node x)) e) 0 s' = Some res →
    parse_loop (S (S (S fuel))) level st e d s = Some res.
Proof.
  intros Ht Hw Hx Hr Hst. assert (st = P_INIT ∨ st = P_BINOP) as Hst' by tauto.
  destruct x as [v|v|f w1 a w2]; cbn [operand_text operand_ok operand_node] in *.
  - destruct (lex_name ws v r s) as (s1 & E & Hv & Ht1); [done | done | done | done |]. exists s1. split; [done |]. intros fuel res H.
    rewrite (parse_leaf _ _ _ _ _ _ _ _ E) by tauto. eapply (parse_loop_mono fuel); [lia | by rewrite Hv].
  - apply andb_true_iff in Hx as [[Hne Hd]%andb_true_iff Hm%Z.leb_le]. apply negb_true_iff, bool_decide_eq_false_1 in Hne.
    destruct (lex_number ws v r s) as (s1 & E & Hv & Ht1); [done | done | done | done | done |]. exists s1. split; [done |]. intros fuel res H.
    rewrite (parse_leaf _ _ _ _ _ _ _ _ E) by (rewrite ?Hv; tauto). eapply (parse_loop_mono fuel); [lia | by rewrite Hv].
  - destruct (argument f a) as [np|] eqn:Enp; [| by rewrite andb_false_r in Hx]. rewrite andb_true_r in Hx. cbn [default from_option].
    apply andb_true_iff in Hx as [[[Hf H1]%andb_true_iff Ha]%andb_true_iff H2].
    assert ((fun_name f ++ Byte.x28 :: w1 ++ a ++ w2 ++ [Byte.x29]) ++ r = fun_name f ++ Byte.x28 :: (w1 ++ a ++ w2 ++ Byte.x29 :: r)) as E.
    { by rewrite <- !app_assoc; cbn [app]; rewrite <- !app_assoc. }
    rewrite E in Ht. clear E. destruct (lex_function ws f _ s Ht Hw Hf) as (s1 & E1 & Ht1).
    destruct Hst as [-> | [-> Hd]]; [rewrite bool_decide_eq_true_2 by done | rewrite bool_decide_eq_false_2 by done].
    + destruct (parse_call level f w1 a w2 r s1 (newnode f) 0 np) as (s2 & Ht2 & Hk); [done .. |].
      exists s2. split; [done |]. intros fuel res H. rewrite (parse_fun _ _ _ _ _ _ _ _ E1 Hf) by done.
      rewrite bool_decide_eq_true_2, Hk by done. exact H.
    + destruct (parse_call level f w1 a w2 r s1 (upd_right d (set_right (newnode f)) e) (S d) np) as (s2 & Ht2 & Hk); [done .. | |].
      { by rewrite at_right_set. }
      exists s2. split; [done |]. intros fuel res H. rewrite (parse_fun _ _ _ _ _ _ _ _ E1 Hf) by done.
      rewrite bool_decide_eq_false_2, Hk, upd_right_set by done. exact H.
Qed.
Lemma operand_nonnull x : operand_ok x = true → operand_node x ≠ NULL ∧ tight (type (operand_node x)) = true.
Proof.
  destruct x as [v|v|f w1 a w2]; cbn; [done | done |]. intros H. repeat apply andb_true_iff in H as [H ?].
  unfold tight. by rewrite H.
Qed.
Lemma push_nonnull e i : e ≠ NULL → push e i ≠ NULL.
Proof. unfold push. intros He. destruct (_ || _); [done |]. by destruct e. Qed.
Lemma operator_char t : is_op t = true → operator (op_char t) = Some t.
Proof. by destruct t. Qed.
Lemma parse_items l : ∀ e s wend,
  at_text (flat_map item_text l ++ wend) s → forallb item_ok l = true → blanks wend = true → e ≠ NULL →
  ∃ s', at_text [] s' ∧ parse_loop (S (4 * length l)) 1 P_LEAF e 0 s = Some (foldl push e l, s').
Proof.
  induction l as [|i l IH]; intros e s wend Ht Hl Hw He.
  { apply forallb_Forall in Hw. destruct (lex_end wend s) as (s1 & H1 & E); [done | done |]. exists s1. split; [done |].
    cbn [length Nat.mul parse_loop]. rewrite E. done. }
  cbn [flat_map forallb] in *. apply andb_true_iff in Hl as [Hi Hl]. rewrite <- app_assoc in Ht.
  assert (follows (flat_map item_text l ++ wend)) as Hf.
  { destruct l as [|j l]; [cbn [flat_map app]; rewrite <- (app_nil_r wend); apply blank_follows; [done | by split] |]. cbn [flat_map forallb] in *. apply andb_true_iff in Hl as [Hj _].
    rewrite <- app_assoc. by apply item_follows. }
  unfold item_text in Ht at 1. rewrite <- app_assoc in Ht. cbn [app] in Ht. rewrite <- app_assoc in Ht.
  unfold item_ok in Hi. apply andb_true_iff in Hi as [[[Hb Ho]%andb_true_iff Ha]%andb_true_iff Hx].
  destruct (lex_operator _ _ _ _ s Ht Hb (operator_char _ Ho)) as (s1 & E1 & Ht1).
  replace (S (4 * length (i :: l))) with (S (S (S (S (S (4 * length l)))))) by (cbn [length]; lia).
  rewrite (parse_op _ e s _ s1 E1 Ho).
  assert (push e i = if tight (type e) || additive (i_op i) then upd_right 0 (set_right (operand_node (i_operand i))) (set_left e (newnode (i_op i)))
    else upd_right 1 (set_right (operand_node (i_operand i))) (set_right (set_left (right e) (newnode (i_op i))) e)) as Epush.
  { unfold push. destruct (_ || _); [done |]. by destruct e. }
  destruct (tight (type e) || additive (i_op i)).
  - destruct (parse_operand 1 P_BINOP _ _ _ s1 (set_left e (newnode (i_op i))) 0 Ht1 Ha Hx Hf) as (s2 & Ht2 & Hk); [by right |].
    destruct (IH (push e i) s2 wend Ht2 Hl Hw (push_nonnull e i He)) as (s' & He' & Hp). exists s'. split; [done |].
    apply Hk. rewrite bool_decide_eq_false_2, <- Epush by done. exact Hp.
  - destruct (parse_operand 1 P_BINOP _ _ _ s1 (set_right (set_left (right e) (newnode (i_op i))) e) 1 Ht1 Ha Hx Hf) as (s2 & Ht2 & Hk); [right; split; [done | by destruct e] |].
    destruct (IH (push e i) s2 wend Ht2 Hl Hw (push_nonnull e i He)) as (s' & He' & Hp). exists s'. split; [done |].
    apply Hk. rewrite bool_decide_eq_false_2, <- Epush by done. exact Hp.
Qed.
Lemma parse_flat x l w wend s :
  at_text (w ++ flat_text x l ++ wend) s → blanks w = true → operand_ok x = true → forallb item_ok l = true → blanks wend = true →
  ∃ s', at_text [] s' ∧ parse s = Some (group x l, s').
Proof.
  intros Ht Hw Hx Hl He. unfold flat_text in Ht. rewrite <- app_assoc in Ht.
  destruct (parse_operand 1 P_INIT w x _ s NULL 0 Ht Hw Hx) as (s1 & Ht1 & Hk); [| by left |].
  { destruct l as [|j l]; [cbn [flat_map app]; rewrite <- (app_nil_r wend); apply blank_follows; [done | by split] |]. cbn [flat_map forallb] in *. apply andb_true_iff in Hl as [Hj _].
    rewrite <- app_assoc. by apply item_follows. }
  destruct (parse_items l (operand_node x) s1 wend Ht1 Hl He) as (s' & He' & Hp); [by apply operand_nonnull |].
  exists s'. split; [done |]. eapply parse_found, Hk. rewrite bool_decide_eq_true_2 by done. exact Hp.
Qed.

(** ** The value of an expression *)

Section value.
(** The values of names, numbers and functions. *)
Context (env : node_t → Qc).
Fixpoint eval (n : node_t) : Qc :=
  match n with
  | NULL => 0%Qc
  | Expr t _ l r _ _ =>
      match t with
      | L_PLUS => (eval l + eval r)%Qc
      | L_MINUS => (eval l - eval r)%Qc
      | L_STAR => (eval l * eval r)%Qc
      | L_SLASH => (eval l / eval r)%Qc
      | _ => env n
      end
  end.
(** The usual reading: a sum [tot] of products, of which [cur] is the last. *)
Fixpoint usual_from (tot cur : Qc) (l : list item) : Qc :=
  match l with
  | [] => (tot + cur)%Qc
  | i :: l =>
      let y := env (operand_node (i_operand i)) in
      match i_op i with
      | L_PLUS => usual_from (tot + cur) y l
      | L_MINUS => usual_from (tot + cur) (- y) l
      | L_STAR => usual_from tot (cur * y) l
      | _ => usual_from tot (cur / y) l
      end
  end.
Definition usual (x : operand) (l : list item) : Qc := usual_from 0 (env (operand_node x)) l.
(** A division that comes first is the last of its product. *)
Definition first_division_ends (l : list item) : bool :=
  match l with
  | i :: j :: _ => negb (bool_decide (i_op i = L_SLASH)) || additive (i_op j)
  | _ => true
  end.

Definition before_op (e : node_t) (l : list item) : Prop :=
  match l with
  | i :: _ => type e = L_SLASH → additive (i_op i) = true
  | [] => True
  end.
Inductive shape (e : node_t) (tot cur : Qc) : Prop :=
  | shape_tight : tight (type e) = true → tot = 0%Qc → eval e = cur → shape e tot cur
  | shape_sum l r : e = Expr L_PLUS false l r None None → tot = eval l → cur = eval r → shape e tot cur
  | shape_diff l r : e = Expr L_MINUS false l r None None → tot = eval l → cur = (- eval r)%Qc → shape e tot cur
  | shape_prod l r : e = Expr L_STAR false l r None None → tot = 0%Qc → cur = (eval l * eval r)%Qc → shape e tot cur
  | shape_quot l r : e = Expr L_SLASH false l r None None → tot = 0%Qc → cur = (eval l / eval r)%Qc → shape e tot cur.
Lemma shape_value e tot cur : shape e tot cur → eval e = (tot + cur)%Qc.
Proof. intros [| | | |]; subst; cbn [eval]; try ring. Qed.
Lemma tight_value e : tight (type e) = true → eval e = env e.
Proof. destruct e as [|t ? ? ? ? ?]; [done |]. by destruct t. Qed.
Lemma push_usual l : ∀ e tot cur, shape e tot cur → forallb item_ok l = true → before_op e l →
  (tight (type e) = true → first_division_ends l = true) → e ≠ NULL →
  eval (foldl push e l) = usual_from tot cur l.
Proof.
  induction l as [|i l IH]; intros e tot cur Hs Hl Hb Hf He; [by apply shape_value |].
  cbn [forallb] in Hl. apply andb_true_iff in Hl as [Hi Hl]. unfold item_ok in Hi. apply andb_true_iff in Hi as [[[_ Ho]%andb_true_iff _]%andb_true_iff Hx].
  apply operand_nonnull in Hx as [_ Hx]. apply tight_value in Hx. cbn [before_op] in Hb. cbn [foldl usual_from].
  pose proof (shape_value e tot cur Hs) as Hv.
  rewrite (eq_refl : push e i = if tight (type e) || additive (i_op i) then _ else _).
  set (y := operand_node (i_operand i)) in *. rewrite <- Hx.
  destruct (additive (i_op i)) eqn:Eadd.
  - rewrite orb_true_r. destruct (i_op i) eqn:Eo; try done; cbn -[eval]; (apply IH; [| done | | done | done]).
    + by apply (shape_sum _ _ _ e y).
    + by destruct l.
    + by apply (shape_diff _ _ _ e y).
    + by destruct l.
  - rewrite orb_false_r. destruct Hs as [Ht -> <- | a b -> -> -> | a b -> -> -> | a b -> -> -> | a b -> -> ->]; cbn [tight type is_fun orb].
    + rewrite Ht. specialize (Hf Ht). destruct (i_op i) eqn:Eo; try done; cbn -[eval]; (apply IH; [| done | | done | done]).
      * by apply (shape_prod _ _ _ e y).
      * by destruct l.
      * by apply (shape_quot _ _ _ e y).
      * destruct l as [|j l]; [done |]. intros _. cbn in Hf. by rewrite Eo in Hf || exact Hf.
    + destruct (i_op i) eqn:Eo; try done; cbn -[eval]; (apply IH; [| done | by destruct l | done | done]);
        (eapply shape_sum; [done | done |]); done.
    + destruct (i_op i) eqn:Eo; try done; cbn -[eval]; (apply IH; [| done | by destruct l | done | done]);
        (eapply shape_diff; [done | done |]); cbn [eval]; unfold Qcdiv; ring.
    + destruct (i_op i) eqn:Eo; try done; cbn -[eval]; (apply IH; [| done | by destruct l | done | done]);
        (eapply shape_prod; [done | done |]); cbn [eval]; unfold Qcdiv; ring.
    + by specialize (Hb eq_refl).
Qed.
Lemma group_usual x l : operand_ok x = true → forallb item_ok l = true → first_division_ends l = true →
  eval (group x l) = usual x l.
Proof.
  intros Hx Hl Hf. destruct (operand_nonnull x Hx) as [Hn Ht]. apply push_usual; [| done | | done | done].
  - apply shape_tight; [done | done | by apply tight_value].
  - destruct l as [|i l]; [done |]. cbn. intros E. by rewrite E in Ht.
Qed.
End value.

(** ** The registered metrics *)

Record registry_ok (r : ctl_t) : Prop := {
  reg_names : NoDup (dm_name <$> mlist r);
  reg_ids : ∀ i m, mlist r !! i = Some m → dm_pmid m = derived_pmid (Z.of_nat i + 1);
  reg_exprs : Forall (λ m, dm_expr m ≠ NULL) (mlist r) }.
Inductive registering : ctl_t → Prop :=
  | reg_start : registering (mkCtl [] None None true)
  | reg_derived nm e r res r' : registering r → pmRegisterDerived nm e r = Some (res, r') → registering r'
  | reg_anon nm ty r res r' : registering r → __pmRegisterAnon nm ty r = Some (res, r') → registering r'
  | reg_config f r res r' : registering r → pmLoadDerivedConfig f r = Some (res, r') → registering r'
  | reg_init env r r' : registering r → init env r = Some r' → registering r'.
Lemma register_total nm e r : ∃ res r', pmRegisterDerived nm e r = Some (res, r').
Proof.
  unfold pmRegisterDerived. destruct (existsb _ _); [eauto |].
  destruct (parse_total (mkScan e 0 (peek r) 0 [] None)) as (np & s & ->). cbn [mbind option_bind]. destruct np; eauto.
Qed.
Lemma existsb_names (l : list dm_t) nm : existsb (λ m, bool_decide (dm_name m = nm)) l = false ↔ nm ∉ dm_name <$> l.
Proof.
  rewrite <- not_true_iff_false. apply not_iff_compat. rewrite existsb_exists, list_elem_of_fmap. split.
  - intros (m & Hm & E%bool_decide_eq_true_1). exists m. split; [done | by apply list_elem_of_In].
  - intros (m & -> & Hm). exists m. split; [by apply list_elem_of_In | by apply bool_decide_eq_true_2].
Qed.
Lemma register_ok nm e r res r' : registry_ok r → pmRegisterDerived nm e r = Some (res, r') → registry_ok r'.
Proof.
  intros [Hn Hi He]. unfold pmRegisterDerived. destruct (existsb _ _) eqn:Ed; [by intros [= <- <-] |].
  destruct (parse _) as [[np s]|]; [| done]. cbn [mbind option_bind]. apply existsb_names in Ed.
  destruct np as [| t b a c v d]; intros [= <- <-]; [done |]. split; cbn [mlist].
  - rewrite fmap_app. apply NoDup_app. split_and!; [done | | apply NoDup_singleton].
    intros x Hx. cbn. intros ->%list_elem_of_singleton. done.
  - intros i m [Hm | [Hl Hm]]%lookup_app_Some; [by apply Hi |]. apply list_lookup_singleton_Some in Hm as [Hm <-].
    cbn. f_equal. unfold nmetric. lia.
  - apply Forall_app. split; [done |]. by apply Forall_singleton.
Qed.
(** What registration keeps true of the list of metrics is true whatever calls are made. *)
Section kept.
Context (P : list dm_t → Prop) (P_nil : P []).
Context (P_register : ∀ nm e r res r', P (mlist r) → pmRegisterDerived nm e r = Some (res, r') → P (mlist r')).
Lemma config_line_keeps line eq r n r' : P (mlist r) → config_line line eq r = Some (n, r') → P (mlist r').
Proof using P_register.
  intros Hr. unfold config_line. destruct (_ || _); [by intros [= _ <-] |]. destruct eq as [eq|]; [| by intros [= _ <-]].
  case_bool_decide; [done |]. destruct (_ || _); [by intros [= _ <-] |].
  destruct (pmRegisterDerived _ _ r) as [[res r1]|] eqn:E; [| done]. cbn [mbind option_bind]. intros [= _ <-]. by apply P_register in E.
Qed.
Lemma load_config_keeps f r n r' : P (mlist r) → pmLoadDerivedConfig f r = Some (n, r') → P (mlist r').
Proof using P_register.
  intros Hr. destruct f as [e|file]; cbn; [by intros [= _ <-] |]. generalize (@nil byte) (@None nat) 0. revert r Hr.
  induction file as [|c file IH]; intros r Hr b eq sts; cbn [config_loop]; [by intros [= _ <-] |].
  case_bool_decide; [| by apply IH]. destruct (config_line b eq r) as [[k r1]|] eqn:E; [| done]. cbn [mbind option_bind].
  apply IH. by apply config_line_keeps in E.
Qed.
Lemma registering_keeps r : registering r → P (mlist r).
Proof using P_nil P_register.
  induction 1 as [| nm e r res r' _ IH E | nm ty r res r' _ IH E | f r res r' _ IH E | env r r' _ IH E]; [done | by apply P_register in E | | by apply load_config_keeps in E |].
  - unfold __pmRegisterAnon in E. destruct (anon_expr ty) as [e|]; [| by injection E as _ <-].
    destruct (pmRegisterDerived nm e r) as [[msg r1]|] eqn:E1; [| done]. injection E as _ <-. by apply P_register in E1.
  - unfold init in E. destruct (need_init r); [| by injection E as <-]. destruct env as [f|]; [| by injection E as <-].
    destruct (pmLoadDerivedConfig f r) as [[n r1]|] eqn:E1; [| done]. injection E as <-. by apply load_config_keeps in E1.
Qed.
End kept.
Lemma registry_ok_mlist r r' : mlist r = mlist r' → registry_ok r → registry_ok r'.
Proof. intros E [? ? ?]. split; by rewrite <- E. Qed.
Lemma registering_ok r : registering r → registry_ok r.
Proof.
  intros Hr. set (P l := registry_ok (mkCtl l None None true)).
  apply (registry_ok_mlist (mkCtl (mlist r) None None true) r eq_refl). change (P (mlist r)). apply registering_keeps; [| | done].
  - split; [constructor | done | constructor].
  - intros nm e r1 res r2 Hok E. apply (registry_ok_mlist r2); [done |]. eapply register_ok; [| exact E]. by apply (registry_ok_mlist _ r1) in Hok.
Qed.
Lemma derived_pmid_inj i j : 1 <= i < 1024 → 1 <= j < 1024 → derived_pmid i = derived_pmid j → i = j.
Proof.
  intros Hi Hj E. apply (f_equal pmid_item) in E. unfold derived_pmid in E.
  pose proof (pmid_build_fields DYNAMIC_PMID 0 i ltac:(done) ltac:(done) ltac:(lia)) as (_ & _ & _ & H1).
  pose proof (pmid_build_fields DYNAMIC_PMID 0 j ltac:(done) ltac:(done) ltac:(lia)) as (_ & _ & _ & H2). by rewrite H1, H2 in E.
Qed.
Lemma reg_pmids r : registry_ok r → nmetric r < 1024 → NoDup (dm_pmid <$> mlist r).
Proof.
  intros Hr Hn. apply NoDup_alt. intros i j p Hi Hj. rewrite list_lookup_fmap in Hi, Hj.
  destruct (mlist r !! i) as [m|] eqn:Ei; [| done]. destruct (mlist r !! j) as [k|] eqn:Ej; [| done].
  injection Hi as <-. injection Hj as Hjk. rewrite (reg_ids r Hr _ _ Ei), (reg_ids r Hr _ _ Ej) in Hjk.
  apply lookup_lt_Some in Ei, Ej. unfold nmetric in Hn. apply derived_pmid_inj in Hjk; lia.
Qed.
Lemma find_key {A K} (f : A → K) (P : K → A → bool) (l : list A) x :
  (∀ k a, P k a = true ↔ f a = k) → NoDup (f <$> l) → find (P (f x)) l = Some x ↔ x ∈ l.
Proof.
  intros HP Hn. split; [by intros [? _]%find_Some |]. intros Hx. induction l as [|y l IH]; [by apply elem_of_nil in Hx |].
  cbn in *. apply NoDup_cons in Hn as [Hy Hn]. destruct (P (f x) y) eqn:E.
  - apply HP in E. apply elem_of_cons in Hx as [-> | Hx]; [done |]. destruct Hy. rewrite E. by apply list_elem_of_fmap_2.
  - apply elem_of_cons in Hx as [-> | Hx]; [| by apply IH]. rewrite <- not_true_iff_false, HP in E. done.
Qed.

(** ** The names below a name *)

Definition full (nm w : str) : str := match nm with [] => w | _ => nm ++ dot :: w end.
(** A registered name gives [nm] a child: the metric itself or a name on the way to it. *)
Definition child_of (nm m w : str) (st : Z) : Prop :=
  (dot ∉ w) ∧ (st = PMNS_LEAF_STATUS ∧ m = full nm w ∨ st = PMNS_NONLEAF_STATUS ∧ ∃ q, m = full nm w ++ dot :: q).
(** No registered name is on the way to another. *)
Definition prefix_free (l : list str) : Prop := ∀ m q, m ∈ l → m ++ dot :: q ∈ l → False.
Lemma after_Some nm m t : after nm m = Some t ↔ m = nm ++ t.
Proof.
  revert m. induction nm as [|c nm IH]; intros m; cbn; [split; congruence |]. destruct m as [|d m]; [done |].
  case_bool_decide; [subst; rewrite IH; split; [by intros -> | by intros [= ->]] |]. split; [done | intros [= -> _]; done].
Qed.
Lemma to_dot_spec p w more : to_dot p = (w, more) → p = w ++ more ∧ (dot ∉ w) ∧ (more = [] ∨ ∃ q, more = dot :: q).
Proof.
  revert w more. induction p as [|c p IH]; intros w more; cbn; [intros [= <- <-]; split_and!; [done | apply not_elem_of_nil | by left] |].
  case_bool_decide as Ec; [intros [= <- <-]; subst; split_and!; [done | apply not_elem_of_nil | right; eauto] |].
  destruct (to_dot p) as [w' r]. intros [= <- <-]. destruct (IH w' r eq_refl) as (-> & Hd & Hm). split_and!; [done | | done].
  intros [E | ?]%elem_of_cons; [by rewrite E in Ec | done].
Qed.
Lemma under_rest nm m : m ≠ nm → under nm m = true → ∃ c tail, after nm m = Some (c :: tail) ∧
  m = full nm (match nm with [] => c :: tail | _ => tail end).
Proof.
  intros Hne Hu. unfold under in Hu. destruct nm as [|n nm].
  - destruct m as [|c m]; [done |]. exists c, m. done.
  - destruct (after (n :: nm) m) as [[|c t]|] eqn:Ea; [| | done].
    + apply after_Some in Ea. by rewrite app_nil_r in Ea.
    + exists c, t. split; [done |]. apply after_Some in Ea. apply bool_decide_eq_true_1 in Hu as ->. done.
Qed.
Lemma full_under nm w t : under nm (full nm w ++ t) = true.
Proof.
  unfold under, full. destruct nm as [|n nm]; [done |].
  assert (after (n :: nm) (((n :: nm) ++ dot :: w) ++ t) = Some (dot :: w ++ t)) as ->.
  { apply after_Some. by rewrite <- app_assoc. }
  by apply bool_decide_eq_true_2.
Qed.
Lemma full_inj nm a b : full nm a = full nm b → a = b.
Proof. unfold full. destruct nm; [done |]. intros E. apply (inj (app _)) in E. by injection E. Qed.
Lemma full_app nm a b : full nm (a ++ b) = full nm a ++ b.
Proof. unfold full. destruct nm; [done |]. by rewrite <- app_assoc. Qed.
Lemma dot_split (a b x y : str) : dot ∉ a → dot ∉ b → a ++ dot :: x = b ++ dot :: y → a = b ∧ x = y.
Proof.
  revert b. induction a as [|c a IH]; intros [|d b] Ha Hb E; simpl in E.
  - by injection E.
  - injection E as <- _. destruct Hb. by left.
  - injection E as -> _. destruct Ha. by left.
  - injection E as -> E. destruct (IH b) as [-> ->]; [by intros ?; apply Ha; right | by intros ?; apply Hb; right | done | done].
Qed.
Definition has_child (c : list (str * Z)) (nm : str) (done : list str) : Prop :=
  NoDup c.*1 ∧ ∀ w st, (w, st) ∈ c ↔ ∃ m, m ∈ done ∧ m ≠ nm ∧ under nm m = true ∧ child_of nm m w st.
Lemma dmchildren_loop_spec nm names : ∀ l seen c,
  NoDup names → prefix_free names → nm ∉ names → names = seen ++ (dm_name <$> l) → has_child c nm seen →
  ∃ c', dmchildren_loop nm l c = Kids (if bool_decide (c' = []) then PM_ERR_NAME else zlen c') c' ∧ has_child c' nm names.
Proof.
  induction l as [|m l IH]; intros seen c Hn Hp Hnm E Hc; cbn [dmchildren_loop].
  { exists c. cbn in E. rewrite app_nil_r in E. subst. split; [| done]. by case_bool_decide; subst. }
  assert (dm_name m ∈ names) as Hm by (rewrite E; apply elem_of_app; right; by left).
  assert (names = (seen ++ [dm_name m]) ++ (dm_name <$> l)) as E' by (by rewrite <- app_assoc).
  assert (dm_name m ∉ seen) as Hnew.
  { intros Hs. rewrite E in Hn. apply NoDup_app in Hn as (_ & Hd & _). apply (Hd _ Hs). by left. }
  destruct (under nm (dm_name m)) eqn:Eu.
  2:{ apply (IH _ _ Hn Hp Hnm E'). destruct Hc as [Hnd Hc]. split; [done |]. intros w st. rewrite Hc. split.
      - intros (x & Hx & ?). exists x. split; [| done]. apply elem_of_app. by left.
      - intros (x & [Hx | ->%list_elem_of_singleton]%elem_of_app & Hxm & Hxu & Hch); [eauto 6 | congruence]. }
  assert (dm_name m ≠ nm) as Hne by congruence.
  destruct (under_rest nm (dm_name m) Hne Eu) as (b & tail & -> & Efull). set (rest := match nm with [] => _ | _ => _ end) in *.
  destruct (to_dot rest) as [w more] eqn:Ed. apply to_dot_spec in Ed as (Er & Hdw & Hmore). destruct Hc as [Hnd Hc].
  assert (∀ k, match after k rest with Some (x :: _) => bool_decide (x = dot) | _ => false end = true → dot ∉ k → k = w ∧ more ≠ []) as Hfound.
  { intros k Hk Hdk. destruct (after k rest) as [[|x t]|] eqn:Ea; try done. apply bool_decide_eq_true_1 in Hk as ->.
    apply after_Some in Ea. destruct Hmore as [-> | (q & ->)].
    - rewrite app_nil_r in Er. rewrite Er in Ea. rewrite Ea in Hdw. destruct Hdw. apply elem_of_app. right. by left.
    - rewrite Ea in Er. apply dot_split in Er as [-> _]; done. }
  assert (∀ w' st, child_of nm (dm_name m) w' st ↔ w' = w ∧ st = match more with [] => PMNS_LEAF_STATUS | _ => PMNS_NONLEAF_STATUS end) as Hone.
  { intros w' st. unfold child_of. rewrite Efull, Er. split.
    - intros [Hd [[-> H] | [-> (q & H)]]].
      + apply full_inj in H. destruct Hmore as [-> | (q & ->)]; [by rewrite app_nil_r in H |].
        destruct Hd. rewrite <- H. apply elem_of_app. right. by left.
      + rewrite <- full_app in H. apply full_inj in H. destruct Hmore as [-> | (q' & ->)].
        * rewrite app_nil_r in H. destruct Hdw. rewrite H. apply elem_of_app. right. by left.
        * apply dot_split in H as [-> _]; done.
    - intros [-> ->]. split; [done |]. destruct Hmore as [-> | (q & ->)]; [left; by rewrite app_nil_r | right].
      split; [done |]. exists q. by rewrite full_app. }
  assert (∀ st, (w, st) ∈ c → st = PMNS_NONLEAF_STATUS ∧ more ≠ []) as Hhave.
  { intros st (x & Hx & _ & _ & _ & Hst)%Hc.
    assert (x ∈ names) as Hxn by (rewrite E; apply elem_of_app; by left).
    destruct Hst as [[-> Ex] | [-> (q & Ex)]].
    - exfalso. destruct Hmore as [-> | (q & ->)].
      + rewrite app_nil_r in Er. rewrite Er in Efull. congruence.
      + apply (Hp x q); [done |]. by rewrite Ex, <- full_app, <- Er, <- Efull.
    - split; [done |]. intros ->. rewrite app_nil_r in Er. rewrite Er in Efull. apply (Hp (dm_name m) q); [done |]. by rewrite Efull, <- Ex. }
  assert (∀ w' st, (∃ x, x ∈ seen ++ [dm_name m] ∧ x ≠ nm ∧ under nm x = true ∧ child_of nm x w' st) ↔
    (w', st) ∈ c ∨ w' = w ∧ st = match more with [] => PMNS_LEAF_STATUS | _ => PMNS_NONLEAF_STATUS end) as Hnext.
  { intros w' st. rewrite Hc, <- Hone. split.
    - intros (x & [Hx | ->%list_elem_of_singleton]%elem_of_app & ? & ? & ?); [left; eauto 6 | by right].
    - intros [(x & Hx & ?) | ?]; [exists x | exists (dm_name m)]; (split; [apply elem_of_app |]); [by left | done | right; by left | done]. }
  destruct (existsb _ c) eqn:Eex.
  - apply existsb_exists in Eex as ([k st] & Hk%list_elem_of_In & Hkr). cbn in Hkr.
    destruct (Hfound k Hkr) as [-> Hmo]; [by apply Hc in Hk as (? & _ & _ & _ & ? & _) |].
    apply (IH _ _ Hn Hp Hnm E'). split; [done |]. intros w' st'. rewrite Hnext. split; [by left |]. intros [? | [-> ->]]; [done |].
    destruct (Hhave st Hk) as [-> _]. by destruct more.
  - assert (w ∉ c.*1) as Hw.
    { intros ([k st] & Ek & Hk)%list_elem_of_fmap. cbn in Ek. subst k. destruct (Hhave st Hk) as [_ Hmo].
      rewrite <- not_true_iff_false in Eex. apply Eex. apply existsb_exists. exists (w, st). split; [by apply list_elem_of_In |]. cbn.
      destruct Hmore as [-> | (q & Hq)]; [done |].
      assert (after w rest = Some (dot :: q)) as -> by (apply after_Some; by rewrite Er, Hq). by apply bool_decide_eq_true_2. }
    apply (IH _ _ Hn Hp Hnm E'). split.
    + rewrite fmap_app. apply NoDup_app. split_and!; [done | | apply NoDup_singleton]. intros x Hx ->%list_elem_of_singleton. done.
    + intros w' st'. rewrite Hnext, elem_of_app, list_elem_of_singleton. split; [intros [? | [= -> ->]]; auto | intros [? | [-> ->]]; auto].
Qed.
Lemma dmchildren_leaf nm : ∀ l c, nm ∈ dm_name <$> l → c = [] → (∀ m, m ∈ dm_name <$> l → under nm m = true → m = nm) →
  dmchildren_loop nm l c = Kids 0 [].
Proof.
  induction l as [|m l IH]; intros c Hin -> Hu; [by apply elem_of_nil in Hin |]. cbn [dmchildren_loop].
  destruct (under nm (dm_name m)) eqn:Eu.
  - rewrite (Hu (dm_name m)) by (done || by left). assert (after nm nm = Some []) as -> by (apply after_Some; by rewrite app_nil_r). done.
  - apply IH; [| done | intros x Hx; apply Hu; by right]. cbn in Hin. apply elem_of_cons in Hin as [Hin | Hin]; [| done].
    exfalso. rewrite <- Hin in Eu. unfold under in Eu. destruct nm as [|n nm]; [done |].
    assert (after (n :: nm) (n :: nm) = Some []) as E by (apply after_Some; by rewrite app_nil_r). by rewrite E in Eu.
Qed.

(** ** Where an error is *)

(** The scanner is in an expression of [n] characters; [set]: the start of a token is known. *)
Definition within (n : Z) (set : bool) (s : scanner) : Prop :=
  pos s + zlen (string s) = n ∧ 0 <= pos s ∧ (set = true → -1 <= this s < n ∨ this s = -1).
Lemma get_within n b s c s' : within n b s → get s = (c, s') → within n b s'.
Proof.
  unfold within, get. intros (H & Hp & Hb). destruct (lexpeek s); [intros [= _ <-]; by split_and! |].
  destruct (string s) as [|x p] eqn:E; [intros [= _ <-]; rewrite E; by split_and! |]. cbn [length] in H. rewrite Nat2Z.inj_succ in H.
  case_bool_decide; intros [= _ <-]; cbn [pos string this]; split_and!; (lia || exact Hb).
Qed.
Lemma within_this n b s : within n b s → within n true (set_this (pos s - 1) s).
Proof. unfold within, set_this. cbn. intros (H & Hp & _). split_and!; [done | done |]. lia. Qed.
Lemma lex_loop_within n fuel : ∀ k f p s t s', within n (negb f) s → lex_loop fuel k f p s = Some (t, s') → within n true s'.
Proof.
  induction fuel as [|fuel IH]; intros k f p s t s' Hs; [done |]. cbn [lex_loop].
  destruct (get s) as [c s1] eqn:Eg. pose proof (get_within n _ s c s1 Hs Eg) as H1.
  destruct (f && from_option isspace false c) eqn:Ef.
  { apply andb_true_iff in Ef as [-> _]. by apply IH. }
  set (s2 := if f then _ else s1). assert (within n true s2) as H2.
  { unfold s2. destruct f; [by eapply within_this | done]. }
  clearbody s2.
  destruct c as [c|], k; cbn [default from_option];
    repeat case_match; try done; try (by intros [= <- <-]); intros Hl; (eapply IH; [| exact Hl]; exact H2).
Qed.
Lemma lex_within n b s t s' : within n b s → lex s = Some (t, s') → within n true s'.
Proof. intros (H1 & H2 & _). apply lex_loop_within. split_and!; done. Qed.
Lemma parse_loop_within n fuel : ∀ level st e d s r s' b, within n b s → parse_loop fuel level st e d s = Some (r, s') → within n true s'.
Proof.
  induction fuel as [|fuel IH]; intros level st e d s r s' b Hs; [done |]. cbn [parse_loop].
  destruct (lex s) as [[t s1]|] eqn:E; [| done]. cbn [mbind option_bind]. apply (lex_within n b) in E as H1; [| done].
  assert (∀ (k : node_t → node_t) st' d',
    ('(np, s) ← parse_loop fuel (level + 1) P_INIT NULL 0 s1;
     match np with NULL => Some (NULL, s) | _ => parse_loop fuel level st' (k np) d' s end) = Some (r, s') → within n true s') as Hpar.
  { intros k st' d'. destruct (parse_loop fuel (level + 1) P_INIT NULL 0 s1) as [[np s2]|] eqn:E2; [| done].
    cbn [mbind option_bind]. pose proof (IH _ _ _ _ _ _ _ _ H1 E2) as H2. destruct np; [by intros [= <- <-] |]. by apply (IH _ _ _ _ _ _ _ _ H2). }
  assert (∀ st' e' d', parse_loop fuel level st' e' d' s1 = Some (r, s') → within n true s') as Hrec by (intros ? ? ?; by apply (IH _ _ _ _ _ _ _ _ H1)).
  destruct t; (destruct st; cbn -[parse_loop at_right upd_right];
     repeat (first [by apply Hrec | apply (Hpar id) | apply (Hpar (λ np, upd_right d (set_right np) e)) | by intros [= <- <-] | case_match | case_bool_decide])).
Qed.

End Derive.
Import Derive.

(** ** Theorems *)

(** C15. An expression of names, numbers and functions with binary operators between them,
    with any white space, is registered, under the next identifier; unless a division
    comes first and its product goes on, its value is the one of the usual precedence. *)
Theorem expression_registered nm w x l wend r :
  (nm ∉ dm_name <$> mlist r) → peek r = None →
  blanks w = true → operand_ok x = true → forallb item_ok l = true → blanks wend = true →
  ∃ r' e, pmRegisterDerived nm (w ++ flat_text x l ++ wend) r = Some (None, r') ∧ peek r' = None ∧
          mlist r' = mlist r ++ [mkDm nm (derived_pmid (nmetric r + 1)) e] ∧
          (first_division_ends l = true → ∀ env, eval env e = usual env x l).
Proof.
  intros Hn Hp Hw Hx Hl He. unfold pmRegisterDerived. rewrite (proj2 (existsb_names _ _) Hn), Hp.
  destruct (parse_flat x l w wend (mkScan (w ++ flat_text x l ++ wend) 0 None 0 [] None)) as (s' & [Ha _] & ->); [done .. |].
  cbn [mbind option_bind]. assert (group x l ≠ NULL) as Hg.
  { unfold group. assert (operand_node x ≠ NULL) as H0 by (by apply operand_nonnull). revert H0. generalize (operand_node x).
    clear. induction l as [|i l IH]; intros e He; [done |]. by apply IH, push_nonnull. }
  eexists _, (group x l). destruct (group x l) eqn:E; [done |]. rewrite <- E. split_and!; [done | | done |].
  - cbn. unfold ahead in Ha. by destruct (lexpeek s').
  - intros Hf env. by apply group_usual.
Qed.


(** While fewer than 1024 metrics are registered, names and identifiers of derived
    metrics determine each other. *)
Lemma derived_names_ids r nm p :
  registering r → nmetric r < 1024 → __dmgetpmid nm r = inr p ↔ __dmgetname p r = inr nm.
Proof.
  intros Hr%registering_ok Hn. pose proof (reg_pmids r Hr Hn) as Hp. pose proof (reg_names r Hr) as Hnm.
  unfold __dmgetpmid, __dmgetname.
  pose proof (λ m, find_key dm_name (λ k a, bool_decide (dm_name a = k)) (mlist r) m (λ k a, bool_decide_eq_true _) Hnm) as H1.
  pose proof (λ m, find_key dm_pmid (λ k a, dm_pmid a =? k) (mlist r) m (λ k a, Z.eqb_eq _ _) Hp) as H2. cbn in H1, H2.
  split.
  - destruct (find _ (mlist r)) as [m|] eqn:E; [| done]. intros [= <-]. apply find_Some in E as [Hm E%bool_decide_eq_true_1].
    assert (m ∈ mlist r) as Hm' by done. apply H2 in Hm' as ->. by rewrite E.
  - destruct (find (λ a, dm_pmid a =? p) (mlist r)) as [m|] eqn:E; [| done]. intros [= <-]. apply find_Some in E as [Hm E%Z.eqb_eq].
    assert (m ∈ mlist r) as Hm' by done. apply H1 in Hm' as ->. by rewrite E.
Qed.

(** When no derived metric's name is on the way to another's, the children of a name
    that are found are exactly the next components of the registered names below it, each
    once, with the status that says whether the child is a metric. *)
Lemma derived_children r nm :
  registering r → prefix_free (dm_name <$> mlist r) → ([] ∉ dm_name <$> mlist r) →
  if bool_decide (nm ∈ dm_name <$> mlist r) then __dmchildren nm r = Kids 0 []
  else ∃ c, __dmchildren nm r = Kids (if bool_decide (c = []) then PM_ERR_NAME else zlen c) c ∧ NoDup c.*1 ∧
            ∀ w st, (w, st) ∈ c ↔ ∃ m, m ∈ dm_name <$> mlist r ∧ child_of nm m w st.
Proof.
  intros Hr%registering_ok Hp Hne. unfold __dmchildren. case_bool_decide as Hnm.
  - apply dmchildren_leaf; [done | done |]. intros m Hm Hu. destruct (decide (m = nm)) as [|Hmn]; [done | exfalso].
    destruct (under_rest nm m Hmn Hu) as (c & tail & Ha & E). destruct nm as [|n nm]; [done |]. apply (Hp _ tail Hnm).
    by rewrite <- E at 1.
  - destruct (dmchildren_loop_spec nm (dm_name <$> mlist r) (mlist r) [] []) as (c & Ec & Hnd & Hc);
      [apply (reg_names r Hr) | done | done | done | |].
    { split; [constructor |]. intros w st. split; [intros H; by apply elem_of_nil in H | intros (? & H & _); by apply elem_of_nil in H]. }
    exists c. split_and!; [exact Ec | done |]. intros w st. rewrite Hc. split; [intros (m & ? & _ & _ & ?); eauto |].
    intros (m & Hm & Hch). exists m. split_and!; [done | congruence | | done].
    destruct Hch as [_ [[_ ->] | [_ (q & ->)]]].
    + rewrite <- (app_nil_r (full nm w)). apply full_under.
    + apply full_under.
Qed.

(** ** Examples *)

Definition no_metrics : ctl_t := mkCtl [] None None true.
Definition register (nm e : str) (r : ctl_t) : ctl_t := from_option snd r (pmRegisterDerived nm e r).
Definition ex_registry : ctl_t :=
  register (lit "a.b.c") (lit "x") (register (lit "a.d") (lit "x + y") (register (lit "a.b.e") (lit "x / 2") no_metrics)).
Lemma registering_register nm e r : registering r → registering (register nm e r).
Proof. intros H. unfold register. destruct (register_total nm e r) as (res & r' & E). rewrite E. by eapply reg_derived. Qed.
Lemma ex_registering : registering ex_registry.
Proof. repeat apply registering_register. constructor. Qed.
(** x + 3 * sum( y ) - z *)
Definition ex_items : list item :=
  [mkItem [space] L_PLUS [space] (ONum (lit "3")); mkItem [space] L_STAR [space] (OFun L_SUM [space] (lit "y") [space]);
   mkItem [] L_MINUS [] (OName (lit "z"))].
Definition ex_operand : operand := OName (lit "x").

Lemma expression_registered_witness :
  ∃ r' e, pmRegisterDerived (lit "a") (lit " x + 3 * sum( y )-z ") no_metrics = Some (None, r') ∧ peek r' = None ∧
          mlist r' = mlist no_metrics ++ [mkDm (lit "a") (derived_pmid (nmetric no_metrics + 1)) e] ∧
          (first_division_ends ex_items = true → ∀ env, eval env e = usual env ex_operand ex_items).
Proof.
  apply (expression_registered (lit "a") [space] ex_operand ex_items [space] no_metrics);
    [apply not_elem_of_nil | reflexivity ..].
Defined.
Lemma derived_names_ids_witness : __dmgetpmid (lit "a.d") ex_registry = inr (derived_pmid 2) ↔ __dmgetname (derived_pmid 2) ex_registry = inr (lit "a.d").
Proof. apply (derived_names_ids ex_registry); [exact ex_registering | vm_compute; reflexivity]. Defined.
Definition prefix_free_b (l : list str) : bool :=
  forallb (λ m, forallb (λ n, match after m n with Some (c :: _) => negb (bool_decide (c = dot)) | _ => true end) l) l.
Lemma prefix_free_b_spec l : prefix_free_b l = true → prefix_free l.
Proof.
  unfold prefix_free_b. rewrite forallb_forall. intros H m q Hm Hq. specialize (H m (proj1 (list_elem_of_In _ _) Hm)).
  rewrite forallb_forall in H. specialize (H _ (proj1 (list_elem_of_In _ _) Hq)).
  by rewrite (proj2 (after_Some m (m ++ dot :: q) (dot :: q)) eq_refl) in H.
Qed.
Lemma derived_children_witness :
  ∃ c, __dmchildren (lit "a") ex_registry = Kids (if bool_decide (c = []) then PM_ERR_NAME else zlen c) c ∧ NoDup c.*1 ∧
       ∀ w st, (w, st) ∈ c ↔ ∃ m, m ∈ dm_name <$> mlist ex_registry ∧ child_of (lit "a") m w st.
Proof.
  assert (prefix_free (dm_name <$> mlist ex_registry)) as Hp by (apply prefix_free_b_spec; vm_compute; reflexivity).
  assert ([] ∉ dm_name <$> mlist ex_registry) as Hn by (apply (bool_decide_eq_true_1 _); vm_compute; reflexivity).
  assert (lit "a" ∉ dm_name <$> mlist ex_registry) as Ha by (apply (bool_decide_eq_true_1 _); vm_compute; reflexivity).
  pose proof (derived_children ex_registry (lit "a") ex_registering Hp Hn) as H.
  rewrite bool_decide_eq_false_2 in H by exact Ha. exact H.
Defined.

(** ** What goes wrong *)

Definition parsed (e : str) : option node_t := r ← pmRegisterDerived (lit "m") e no_metrics; m ← head (mlist r.2); Some (dm_expr m).
Definition nm_ (s : str) : node_t := leaf L_NAME s.
Definition bin (t : lex_t) (a b : node_t) : node_t := Expr t false a b None None.
(** A division that comes first takes the rest of its product as the divisor. *)
Lemma division_groups_right :
  parsed (lit "a / b / c") = Some (bin L_SLASH (nm_ (lit "a")) (bin L_SLASH (nm_ (lit "b")) (nm_ (lit "c")))) ∧
  parsed (lit "a / b * c") = Some (bin L_SLASH (nm_ (lit "a")) (bin L_STAR (nm_ (lit "b")) (nm_ (lit "c")))).
Proof. vm_compute. done. Qed.
(** After a parenthesis a product takes the whole sum before it. *)
Lemma parenthesis_takes_sum :
  parsed (lit "a + (b) * c") = Some (bin L_STAR (bin L_PLUS (nm_ (lit "a")) (nm_ (lit "b"))) (nm_ (lit "c"))).
Proof. vm_compute. done. Qed.
(** An operator after a parenthesis in a product loses what is before the product. *)
Lemma parenthesis_loses_sum :
  parsed (lit "a + b * (c) + d") = Some (bin L_PLUS (bin L_STAR (nm_ (lit "b")) (nm_ (lit "c"))) (nm_ (lit "d"))).
Proof. vm_compute. done. Qed.
(** What follows a closing parenthesis that nothing opens is not read. *)
Lemma stray_parenthesis : parsed (lit "a ) + (") = Some (nm_ (lit "a")).
Proof. vm_compute. done. Qed.
(** A constant is checked only when it comes first. *)
Lemma constant_not_checked :
  parsed (lit "99999999999 + a") = None ∧ is_Some (parsed (lit "a + 99999999999")).
Proof. vm_compute. eauto. Qed.
(** A character that an error leaves behind starts the next expression. *)
Lemma character_left_behind :
  (r ← pmRegisterDerived (lit "m") (lit "a b+c") no_metrics; fst <$> pmRegisterDerived (lit "n") (lit "y") r.2) = Some (Some (-1)) ∧
  (fst <$> pmRegisterDerived (lit "n") (lit "y") no_metrics) = Some None.
Proof. vm_compute. done. Qed.
(** The error of an empty expression is in front of it. *)
Lemma empty_expression : (fst <$> pmRegisterDerived (lit "m") [] no_metrics) = Some (Some (-1)).
Proof. vm_compute. done. Qed.
(** A name may end with a dot, and a last line without newline is not looked at. *)
Lemma config_gaps :
  checkname true (lit "a.") = 0 ∧
  (fst <$> pmLoadDerivedConfig (inr (lit "m = a")) no_metrics) = Some 0 ∧
  (fst <$> pmLoadDerivedConfig (inr (lit "m = a" ++ [newline])) no_metrics) = Some 1.
Proof. vm_compute. done. Qed.
(** A metric whose name is on the way to another: the process dies, or a child is there twice. *)
Lemma children_assert :
  __dmchildren (lit "a") (register (lit "a") (lit "x") (register (lit "a.b") (lit "x") no_metrics)) = Assert ∧
  __dmchildren [] (register (lit "a") (lit "x") (register (lit "a.b") (lit "x") no_metrics)) =
    Kids 2 [(lit "a", PMNS_NONLEAF_STATUS); (lit "a", PMNS_LEAF_STATUS)].
Proof. vm_compute. done. Qed.
(** The 1024th metric has the identifier of a dynamic subtree, the next one that of the first. *)
Lemma derived_pmid_wraps : dynamic (derived_pmid 1024) = true ∧ derived_pmid 1025 = derived_pmid 1.
Proof. done. Qed.
