(* ===== verification/DeriveBind.v ===== *)
(** Derived metrics in a context, libpcp/src/derive.c: the expressions are copied, their
    operands looked up, and their types, units and instance domains checked.  What
    pmLookupName and pmLookupDesc say about the operands is a parameter. *)
From S2P Require Import Prelude Memory Text Types PmnsTree Derive.
Import Derive.Derive.

Definition PM_SEM_COUNTER : Z := 1.
Definition PM_SEM_INSTANT : Z := 3.
Definition PM_SEM_DISCRETE : Z := 4.
Definition PM_TYPE_NOSUPPORT : Z := -1.
Definition PM_COUNT_ONE : Z := 0.
Local Open Scope Z_scope.

Module DeriveBind.

Abbreviation str := (list byte).

(** ** Expressions in a context *)

(** [ivlist] and [last_ivlist] are addresses of arrays of values; [inumval] and
    [last_numval] count what is in them. *)
Record info_t := mkInfo {
  ipmid : Z; inumval : Z; mul_scale : Z; div_scale : Z; ivlist : option nat; last_numval : Z; last_ivlist : option nat }.
Definition new_info (p : Z) : info_t := mkInfo p 0 1 1 None 0 None.
Definition set_mul (m : Z) (i : info_t) : info_t :=
  mkInfo (ipmid i) (inumval i) m (div_scale i) (ivlist i) (last_numval i) (last_ivlist i).
Definition set_div (m : Z) (i : info_t) : info_t :=
  mkInfo (ipmid i) (inumval i) (mul_scale i) m (ivlist i) (last_numval i) (last_ivlist i).
Definition set_values (n : Z) (l : option nat) (i : info_t) : info_t :=
  mkInfo (ipmid i) n (mul_scale i) (div_scale i) l (last_numval i) (last_ivlist i).
Definition set_last_values (n : Z) (l : option nat) (i : info_t) : info_t :=
  mkInfo (ipmid i) (inumval i) (mul_scale i) (div_scale i) (ivlist i) n l.

Inductive bnode :=
  BNULL | Bound (type : lex_t) (desc : pmDesc) (save_last : bool) (left right : bnode) (value : option str) (info : info_t).
Definition btype (n : bnode) : lex_t := match n with BNULL => L_EOF | Bound t _ _ _ _ _ _ => t end.
Definition bleft (n : bnode) : bnode := match n with BNULL => BNULL | Bound _ _ _ l _ _ _ => l end.
Definition bright (n : bnode) : bnode := match n with BNULL => BNULL | Bound _ _ _ _ r _ _ => r end.
Definition no_units : pmUnits := mkUnits 0 0 0 0 0 0 0.
Definition no_desc : pmDesc := mkDesc 0 0 0 0 no_units.
Definition bdesc (n : bnode) : pmDesc := match n with BNULL => no_desc | Bound _ d _ _ _ _ _ => d end.
Definition binfo (n : bnode) : info_t := match n with BNULL => new_info PM_ID_NULL | Bound _ _ _ _ _ _ i => i end.
Definition set_bdesc (d : pmDesc) (n : bnode) : bnode :=
  match n with BNULL => BNULL | Bound t _ s l r v i => Bound t d s l r v i end.
Definition set_binfo (i : info_t) (n : bnode) : bnode :=
  match n with BNULL => BNULL | Bound t d s l r v _ => Bound t d s l r v i end.

(** The descriptor that [parse] gives to a constant of a type. *)
Definition constant (ty : Z) : pmDesc := mkDesc PM_ID_NULL ty PM_INDOM_NULL PM_SEM_DISCRETE no_units.

Section context.
(** What pmLookupName says about a name, and pmLookupDesc about an identifier: an error
    or the result. *)
Context (pmLookupName : str → Z + Z) (pmLookupDesc : Z → Z + pmDesc).

(** [None]: an operand is not known.  The descriptor of other nodes is not set yet. *)
Fixpoint bind_expr (np : node_t) : option bnode :=
  match np with
  | NULL => Some BNULL
  | Expr t s l r v d =>
      l ← bind_expr l;
      r ← bind_expr r;
      match t with
      | L_NAME =>
          match pmLookupName (default [] v) with
          | inl _ => None
          | inr p =>
              match pmLookupDesc p with
              | inl _ => None
              | inr desc => Some (Bound t desc s l r v (new_info p))
              end
          end
      | L_NUMBER => Some (Bound t (constant (default 0 d)) s l r v (new_info PM_ID_NULL))
      | _ => Some (Bound t no_desc s l r v (new_info PM_ID_NULL))
      end
  end.

(** ** Units *)

Definition promote : list (list Z) :=
  [[PM_TYPE_32; PM_TYPE_U32; PM_TYPE_64; PM_TYPE_U64; PM_TYPE_FLOAT; PM_TYPE_DOUBLE];
   [PM_TYPE_U32; PM_TYPE_U32; PM_TYPE_64; PM_TYPE_U64; PM_TYPE_FLOAT; PM_TYPE_DOUBLE];
   [PM_TYPE_64; PM_TYPE_64; PM_TYPE_64; PM_TYPE_U64; PM_TYPE_FLOAT; PM_TYPE_DOUBLE];
   [PM_TYPE_U64; PM_TYPE_U64; PM_TYPE_U64; PM_TYPE_U64; PM_TYPE_FLOAT; PM_TYPE_DOUBLE];
   [PM_TYPE_FLOAT; PM_TYPE_FLOAT; PM_TYPE_FLOAT; PM_TYPE_FLOAT; PM_TYPE_FLOAT; PM_TYPE_DOUBLE];
   [PM_TYPE_DOUBLE; PM_TYPE_DOUBLE; PM_TYPE_DOUBLE; PM_TYPE_DOUBLE; PM_TYPE_DOUBLE; PM_TYPE_DOUBLE]].
Definition timefactor : list Z := [1000; 1000; 1000; 60; 60].

Definition set_dtype (ty : Z) (d : pmDesc) : pmDesc := mkDesc (pmid d) ty (dindom d) (sem d) (units d).
Definition set_indom (v : Z) (d : pmDesc) : pmDesc := mkDesc (pmid d) (dtype d) v (sem d) (units d).
Definition set_sem (v : Z) (d : pmDesc) : pmDesc := mkDesc (pmid d) (dtype d) (dindom d) v (units d).
Definition set_units (u : pmUnits) (d : pmDesc) : pmDesc := mkDesc (pmid d) (dtype d) (dindom d) (sem d) u.
Definition set_dpmid (p : Z) (d : pmDesc) : pmDesc := mkDesc p (dtype d) (dindom d) (sem d) (units d).
Definition set_scaleCount (v : Z) (u : pmUnits) : pmUnits :=
  mkUnits (dimSpace u) (dimTime u) (dimCount u) (scaleSpace u) (scaleTime u) v (upad u).
Definition set_scaleTime (v : Z) (u : pmUnits) : pmUnits :=
  mkUnits (dimSpace u) (dimTime u) (dimCount u) (scaleSpace u) v (scaleCount u) (upad u).
Definition set_scaleSpace (v : Z) (u : pmUnits) : pmUnits :=
  mkUnits (dimSpace u) (dimTime u) (dimCount u) v (scaleTime u) (scaleCount u) (upad u).
(** A signed field of four bits. *)
Definition s4 (x : Z) : Z := (x + 8) mod 16 - 8.
Definition set_dims (f : Z → Z → Z) (l r : pmUnits) (u : pmUnits) : pmUnits :=
  mkUnits (s4 (f (dimSpace l) (dimSpace r))) (s4 (f (dimTime l) (dimTime r))) (s4 (f (dimCount l) (dimCount r)))
    (scaleSpace u) (scaleTime u) (scaleCount u) (upad u).

(** The scale of an operand is multiplied, an int at a time, by each of the factors. *)
Definition multiply (fs : list Z) (x : Z) : Z := foldl (λ x f, s32 (x * f)) x fs.
Definition rescale (dim : Z) (fs : list Z) (i : info_t) : info_t :=
  if 0 <? dim then set_div (multiply fs (div_scale i)) i else set_mul (multiply fs (mul_scale i)) i.
(** The factors from one time scale to a larger one; [None]: outside of the table. *)
Definition time_factors (lo hi : Z) : option (list Z) :=
  mapM (λ i, timefactor !! i) (seq (Z.to_nat lo) (Z.to_nat (hi - lo))).

(** The result's descriptor and what is known about the operands. *)
Record mapping := mkMapping { m_desc : pmDesc; m_left : info_t; m_right : info_t }.
Definition scale_right (dim : Z) (fs : list Z) (m : mapping) : mapping :=
  mkMapping (set_dtype PM_TYPE_DOUBLE (m_desc m)) (m_left m) (rescale dim fs (m_right m)).
Definition scale_left (set : pmUnits → pmUnits) (dim : Z) (fs : list Z) (m : mapping) : mapping :=
  mkMapping (set_dtype PM_TYPE_DOUBLE (set_units (set (units (m_desc m))) (m_desc m))) (rescale dim fs (m_left m)) (m_right m).

Definition map_count (l r : pmUnits) (m : mapping) : mapping :=
  if negb (dimCount l =? 0) && negb (dimCount r =? 0) then
    let diff := scaleCount l - scaleCount r in
    if 0 <? diff then scale_right (dimCount r) (replicate (Z.to_nat diff) 10) m
    else if diff <? 0 then scale_left (set_scaleCount (scaleCount r)) (dimCount l) (replicate (Z.to_nat (- diff)) 10) m
    else m
  else m.
Definition map_time (l r : pmUnits) (m : mapping) : option mapping :=
  if negb (dimTime l =? 0) && negb (dimTime r =? 0) then
    if scaleTime r <? scaleTime l then fs ← time_factors (scaleTime r) (scaleTime l); Some (scale_right (dimTime r) fs m)
    else if scaleTime l <? scaleTime r then
      fs ← time_factors (scaleTime l) (scaleTime r); Some (scale_left (set_scaleTime (scaleTime r)) (dimTime r) fs m)
    else Some m
  else Some m.
Definition map_space (l r : pmUnits) (m : mapping) : mapping :=
  if negb (dimSpace l =? 0) && negb (dimSpace r =? 0) then
    let diff := scaleSpace l - scaleSpace r in
    if 0 <? diff then scale_right (dimSpace r) (replicate (Z.to_nat diff) 1024) m
    else if diff <? 0 then scale_left (set_scaleSpace (scaleSpace r)) (dimSpace r) (replicate (Z.to_nat (- diff)) 1024) m
    else m
  else m.
Definition map_dims (op : lex_t) (l r u : pmUnits) : pmUnits :=
  match op with
  | L_STAR => set_dims Z.add l r u
  | L_SLASH => set_dims Z.sub l r u
  | _ => u
  end.
(** Scales of dimensions that are only in the right operand. *)
Definition map_scales (l r u : pmUnits) : pmUnits :=
  let u := if negb (dimCount u =? 0) && (dimCount l =? 0) then set_scaleCount (scaleCount r) u else u in
  let u := if negb (dimTime u =? 0) && (dimTime l =? 0) then set_scaleTime (scaleTime r) u else u in
  if negb (dimSpace u =? 0) && (dimSpace l =? 0) then set_scaleSpace (scaleSpace r) u else u.
Definition map_units (op : lex_t) (l r : pmUnits) (m : mapping) : option mapping :=
  m ← map_time l r (map_count l r m);
  let m := map_space l r m in
  let u := map_scales l r (map_dims op l r (units (m_desc m))) in
  Some (mkMapping (set_units u (m_desc m)) (m_left m) (m_right m)).

(** ** Types, semantics and instance domains *)

Inductive sem_error :=
  Illegal_for_counters | Illegal_counter_and_non_counter | Illegal_non_counter_and_counter | Illegal_for_non_counters
  | Left_not_arithmetic | Right_not_arithmetic | Dimensions_differ
  | Right_not_dimensionless | Left_not_dimensionless | Indoms_differ | Operand_not_arithmetic.
Definition counter (d : pmDesc) : bool := sem d =? PM_SEM_COUNTER.
Definition discrete (d : pmDesc) : bool := sem d =? PM_SEM_DISCRETE.
Definition arithmetic (d : pmDesc) : bool := (PM_TYPE_32 <=? dtype d) && (dtype d <=? PM_TYPE_DOUBLE).
Definition dimensionless (d : pmDesc) : bool :=
  (dimCount (units d) =? 0) && (dimTime (units d) =? 0) && (dimSpace (units d) =? 0).
Definition same_dims (l r : pmDesc) : bool :=
  (dimCount (units l) =? dimCount (units r)) && (dimTime (units l) =? dimTime (units r)) && (dimSpace (units l) =? dimSpace (units r)).
Definition bad_semantics (op : lex_t) (l r : pmDesc) : option sem_error :=
  if counter l then
    if counter r then (if bool_decide (op = L_PLUS) || bool_decide (op = L_MINUS) then None else Some Illegal_for_counters)
    else if bool_decide (op = L_STAR) || bool_decide (op = L_SLASH) then None else Some Illegal_counter_and_non_counter
  else if counter r then (if bool_decide (op = L_STAR) then None else Some Illegal_non_counter_and_counter)
  else if is_op op then None else Some Illegal_for_non_counters.
(** The first of the checks before the units that fails. *)
Definition bad_operands (op : lex_t) (l r : pmDesc) : option sem_error :=
  match bad_semantics op l r with
  | Some e => Some e
  | None =>
      if negb (arithmetic l) then Some Left_not_arithmetic
      else if negb (arithmetic r) then Some Right_not_arithmetic
      else if bool_decide (op = L_PLUS) || bool_decide (op = L_MINUS) then
        if same_dims l r then None else Some Dimensions_differ
      else if counter l && negb (counter r) && negb (dimensionless r) then Some Right_not_dimensionless
      else if negb (counter l) && counter r && negb (dimensionless l) then Some Left_not_dimensionless
      else None
  end.
Definition promoted (l r : Z) : Z := default [] (promote !! Z.to_nat l) !!! Z.to_nat r.
(** The descriptor before the units are mapped. *)
Definition base_desc (op : lex_t) (lt : lex_t) (l r : pmDesc) : pmDesc :=
  let d := if bool_decide (lt = L_NUMBER) then r else l in
  let d := if negb (counter l) && negb (counter r)
           then set_sem (if discrete l && discrete r then PM_SEM_DISCRETE else PM_SEM_INSTANT) d else d in
  set_dtype (if bool_decide (op = L_SLASH) then PM_TYPE_DOUBLE else promoted (dtype l) (dtype r)) d.
(** [None]: the code reads outside of a table. *)
Definition map_desc (op : lex_t) (save : bool) (l r : bnode) (v : option str) (i : info_t) : option (sem_error + bnode) :=
  let ld := bdesc l in let rd := bdesc r in
  match bad_operands op ld rd with
  | Some e => Some (inl e)
  | None =>
      m ← map_units op (units ld) (units rd) (mkMapping (base_desc op (btype l) ld rd) (binfo l) (binfo r));
      if negb (dindom ld =? PM_INDOM_NULL) && negb (dindom rd =? PM_INDOM_NULL) && negb (dindom ld =? dindom rd)
      then Some (inl Indoms_differ)
      else Some (inr (Bound op (m_desc m) save (set_binfo (m_left m) l) (set_binfo (m_right m) r) v i))
  end.

(** A function of the values of [l]. *)
Definition count_units : pmUnits := mkUnits 0 0 1 0 0 PM_COUNT_ONE 0.
Definition function_desc (t : lex_t) (d : pmDesc) : pmDesc :=
  if bool_decide (t = L_ANON) then d
  else
    let d := if bool_decide (t = L_COUNT) then set_units count_units (set_dtype PM_TYPE_U32 d) else d in
    let d := set_sem PM_SEM_INSTANT d in
    let d := if bool_decide (t = L_DELTA) then d else set_indom PM_INDOM_NULL d in
    if bool_decide (t = L_AVG) then set_dtype PM_TYPE_FLOAT d else d.
Definition check_function (t : lex_t) (l : bnode) : option sem_error :=
  if bool_decide (t = L_COUNT) || bool_decide (t = L_ANON) || negb (is_fun t) || arithmetic (bdesc l) then None
  else Some Operand_not_arithmetic.
(** [None]: an assertion fails, or the code reads outside of a table. *)
Fixpoint check_expr (np : bnode) : option (sem_error + bnode) :=
  match np with
  | BNULL => None
  | Bound t d save l r v i =>
      if bool_decide (t = L_NUMBER) || bool_decide (t = L_NAME) then Some (inr np)
      else
        cl ← check_expr l;
        match cl with
        | inl e => Some (inl e)
        | inr l =>
            match r with
            | BNULL =>
                match check_function t l with
                | Some e => Some (inl e)
                | None => Some (inr (Bound t (if is_fun t then function_desc t (bdesc l) else bdesc l) save l BNULL v i))
                end
            | _ =>
                cr ← check_expr r;
                match cr with
                | inl e => Some (inl e)
                | inr r => map_desc t save l r v i
                end
            end
        end
  end.

(** ** The derived metrics of a context *)

Record bdm := mkBdm { bd_name : str; bd_pmid : Z; bd_expr : bnode }.
(** [fetch_has_dm] and [numpmid] are kept from the preparation of a fetch to its end. *)
Record context_dm := mkContextDm { c_mlist : list bdm; fetch_has_dm : bool; c_numpmid : Z }.
Definition bind_metric (m : dm_t) : option bdm :=
  match dm_expr m with
  | NULL => None
  | _ =>
      match bind_expr (dm_expr m) with
      | None => Some (mkBdm (dm_name m) (dm_pmid m) BNULL)
      | Some np =>
          c ← check_expr np;
          Some (mkBdm (dm_name m) (dm_pmid m)
            match c with inl _ => BNULL | inr np => set_bdesc (set_dpmid (dm_pmid m) (bdesc np)) np end)
      end
  end.
(** The result is NULL when no metrics are registered; [None] as above. *)
Definition __dmopencontext (r : ctl_t) : option (option context_dm) :=
  if nmetric r =? 0 then Some None
  else l ← mapM bind_metric (mlist r); Some (Some (mkContextDm l false 0)).
End context.

Definition __dmdesc (c : option context_dm) (p : Z) : Z + pmDesc :=
  match c with
  | None => inl PM_ERR_PMID
  | Some c =>
      match find (λ m, bd_pmid m =? p) (c_mlist c) with
      | Some m => match bd_expr m with BNULL => inl PM_ERR_NAME | e => inr (bdesc e) end
      | None => inl PM_ERR_PMID
      end
  end.

(** ** What the parser makes *)

(** Names and constants are leaves, operators have two operands, and functions have one
    argument, which is a name, or a type for anon. *)
Fixpoint formed (n : node_t) : bool :=
  match n with
  | NULL => false
  | Expr t s l r v d =>
      match t, l, r with
      | L_NAME, NULL, NULL => bool_decide (is_Some v)
      | L_NUMBER, NULL, NULL => bool_decide (is_Some v) && bool_decide (d = Some PM_TYPE_U32)
      | L_ANON, Expr L_NUMBER _ NULL NULL _ (Some ty), NULL => negb s && (PM_TYPE_32 <=? ty) && (ty <=? PM_TYPE_DOUBLE)
      | (L_AVG | L_COUNT | L_DELTA | L_MAX | L_MIN | L_SUM), Expr L_NAME true NULL NULL (Some _) _, NULL => negb s
      | (L_PLUS | L_MINUS | L_STAR | L_SLASH), _, _ => negb s && (formed l && formed r)
      | _, _, _ => false
      end
  end.
Lemma formed_leaf t v : t = L_NAME ∨ t = L_NUMBER → formed (leaf t v) = true.
Proof. by intros [-> | ->]. Qed.
Lemma formed_argument t v np : is_fun t = true → argument t v = Some np → formed (set_left np (newnode t)) = true.
Proof.
  unfold argument. intros Ht. case_bool_decide as Ha.
  - subst t. unfold anon_type. destruct (find _ _) as [[w ty]|] eqn:E; [| done]. intros [= <-]. apply find_some in E as [Hi _].
    cbn in Hi. repeat destruct Hi as [[= <- <-] | Hi]; done.
  - intros [= <-]. by destruct t.
Qed.
Lemma formed_op t l r : is_op t = true → formed l = true → formed r = true → formed (set_right r (set_left l (newnode t))) = true.
Proof. intros Ht Hl Hr. destruct t; try done; cbn; by rewrite Hl, Hr. Qed.
Lemma formed_nonnull n : formed n = true → n ≠ NULL.
Proof. by intros H ->. Qed.
Lemma formed_loose n : formed n = true → tight (type n) = false →
  is_op (type n) = true ∧ ∃ l r, formed l = true ∧ formed r = true ∧ ∃ v d, n = Expr (type n) false l r v d.
Proof.
  intros H Ht. destruct n as [|t s l r v d]; [done |]. cbn in Ht |- *. unfold tight in Ht. apply orb_false_iff in Ht as [Hf Hl].
  destruct t; try done; cbn in H; apply andb_true_iff in H as [->%negb_true_iff [H1 H2]%andb_true_iff]; (split; [done |]); exists l, r; eauto 10.
Qed.

Lemma upd_right_comp d f g n : upd_right d f (upd_right d g n) = upd_right d (λ m, f (g m)) n.
Proof. revert n. induction d as [|d IH]; intros n; [done |]. cbn. destruct n; [done |]. cbn. by rewrite IH. Qed.
Lemma upd_right_S d f n : upd_right (S d) f n = upd_right d (λ m, set_right (f (right m)) m) n.
Proof. revert n. induction d as [|d IH]; intros n; [done |]. cbn [upd_right] in *. by rewrite IH. Qed.
Lemma upd_right_ext d f g n : (∀ m, f m = g m) → upd_right d f n = upd_right d g n.
Proof. intros E. revert n. induction d as [|d IH]; intros n; cbn; [apply E | by rewrite IH]. Qed.
Lemma at_right_upd d f n : f NULL = NULL → at_right d (upd_right d f n) = f (at_right d n).
Proof.
  intros Hf. revert n. induction d as [|d IH]; intros n; [done |]. cbn [upd_right at_right].
  destruct n; cbn [right set_right]; [| apply IH]. clear IH. by induction d.
Qed.
Lemma at_right_S d n : at_right (S d) n = right (at_right d n).
Proof. revert n. induction d as [|d IH]; intros n; [done |]. cbn [at_right] in *. apply IH. Qed.

Lemma formed_right n : formed n = true → right n ≠ NULL → formed (right n) = true ∧ ∀ x, formed x = true → formed (set_right x n) = true.
Proof.
  destruct n as [|t s l r v d]; [done |]. cbn. intros Hn Hr. destruct r as [|rt rs rl rr rv rd]; [done |].
  destruct t; try done; try (destruct l; done);
    try (destruct l as [|[] [] [] [] [] ?]; done); try (by apply andb_true_iff in Hn as [-> [-> ->]%andb_true_iff]; eauto).
  by destruct l as [|[] [] [] [] ? []].
Qed.
Lemma at_right_NULL d : at_right d NULL = NULL.
Proof. by induction d. Qed.
Lemma formed_upd d f n :
  formed n = true → formed (at_right d n) = true → formed (f (at_right d n)) = true → formed (upd_right d f n) = true.
Proof.
  revert n. induction d as [|d IH]; intros n Hn Ha Hf; [done |]. cbn [upd_right at_right] in *.
  assert (right n ≠ NULL) as Hr by (intros E; rewrite E, at_right_NULL in Ha; done).
  destruct (formed_right n Hn Hr) as [H1 H2]. by apply H2, IH.
Qed.

(** The node at [d] lacks its right operand, or its argument. *)
Definition hole (d : nat) (n : node_t) : Prop :=
  at_right d n ≠ NULL ∧
  ∀ x, formed x = true → formed (upd_right d (set_right x) n) = true ∧ formed (at_right d (upd_right d (set_right x) n)) = true.
Definition gap (d : nat) (n : node_t) : Prop :=
  is_fun (type (at_right d n)) = true ∧
  ∀ v np, argument (type (at_right d n)) v = Some np → formed (upd_right d (set_left np) n) = true.
Definition state_ok (st : pstate) (expr : node_t) (d : nat) : Prop :=
  match st with
  | P_INIT => True
  | P_LEAF | P_LEAF_PAREN => formed expr = true ∧ formed (at_right d expr) = true
  | P_BINOP => hole d expr
  | P_FUNC_OP => gap d expr
  | P_FUNC_END => d = O ∧ formed expr = true
  end.
Lemma hole_new t l : is_op t = true → formed l = true → hole 0 (set_left l (newnode t)).
Proof. intros Ht Hl. split; [done |]. intros x Hx. cbn [upd_right at_right]. by split; apply formed_op. Qed.
(** The right branch of an operator goes down one level. *)
Lemma hole_push t d n :
  is_op t = true → formed n = true → formed (at_right d n) = true → tight (type (at_right d n)) = false →
  hole (S d) (upd_right d (λ c, set_right (set_left (right c) (newnode t)) c) n).
Proof.
  intros Ht Hn Hc Hl. destruct (formed_loose _ Hc Hl) as (Hop & l & r & Hlf & Hrf & v & dd & Ec).
  split; [rewrite at_right_S, at_right_upd by done; by rewrite Ec |]. intros x Hx. rewrite upd_right_S, upd_right_comp. split.
  - apply formed_upd; [done .. |]. rewrite Ec. cbn -[newnode]. pose proof (formed_op t r x Ht Hrf Hx) as H. revert H. cbn -[formed newnode].
    intros H. destruct (type (at_right d n)); try done; cbn -[newnode formed]; cbn [formed]; by rewrite Hlf.
  - rewrite at_right_S, at_right_upd by done. rewrite Ec. by apply formed_op.
Qed.
Lemma hole_fun t d n : is_fun t = true → hole d n → gap (S d) (upd_right d (set_right (newnode t)) n).
Proof.
  intros Ht [Hn Hh]. assert (at_right (S d) (upd_right d (set_right (newnode t)) n) = newnode t) as E.
  { rewrite at_right_S, at_right_upd by done. by destruct (at_right d n). }
  split; rewrite E; [done |]. intros v np Ha. cbn [type newnode] in Ha. rewrite upd_right_S, upd_right_comp.
  pose proof (formed_argument t v np Ht Ha) as Hx. destruct (Hh _ Hx) as [H _].
  rewrite (upd_right_ext d _ (set_right (set_left np (newnode t)))); [done |]. by intros [].
Qed.
Lemma gap_new t : is_fun t = true → gap 0 (newnode t).
Proof. intros Ht. split; [done |]. intros v np Ha. by apply formed_argument with v. Qed.
Lemma formed_state np : formed np = true → state_ok P_LEAF np 0.
Proof. by split. Qed.
Lemma hole_filled d n x : hole d n → formed x = true → state_ok P_LEAF_PAREN (upd_right d (set_right x) n) d ∧ state_ok P_LEAF (upd_right d (set_right x) n) 0.
Proof. intros [_ H] Hx. destruct (H x Hx). by repeat split. Qed.
(** Comparisons of two tokens or two states. *)
Local Ltac compare_tokens E :=
  repeat match type of E with
  | context [bool_decide (?a = ?b)] =>
      first [rewrite (bool_decide_eq_true_2 (a = b)) in E by reflexivity
            | rewrite (bool_decide_eq_false_2 (a = b)) in E by discriminate]
  end; cbn [is_fun is_op andb orb] in E; cbv zeta in E.
Lemma parse_loop_formed fuel level st expr d s np s' :
  parse_loop fuel level st expr d s = Some (np, s') → state_ok st expr d → np = NULL ∨ formed np = true.
Proof.
  revert level st expr d s np s'. induction fuel as [|fuel IH]; intros level st expr d s np s'; [done |]. cbn [parse_loop].
  destruct (lex s) as [[t s1]|]; [| done]. cbn [mbind option_bind]. cbv zeta. intros E Hst.
  assert (∀ (x s2 : scanner), Some (NULL, x) = Some (np, s2) → np = NULL ∨ formed np = true) as Hnull by (intros x s2 [= <- _]; by left).
  destruct t; [exact (Hnull _ _ E) | destruct (_ && _) eqn:Eb; [| exact (Hnull _ _ E)] | ..].
  { injection E as <- <-. right. apply andb_true_iff in Eb as [_ Eb].
    apply orb_true_iff in Eb as [->%bool_decide_eq_true_1 | ->%bool_decide_eq_true_1]; apply Hst. }
  8: { destruct st; compare_tokens E; try (rewrite andb_false_r in E; cbn [orb] in E); try (exact (Hnull _ _ E)).
       - injection E as <- <-. right. apply Hst.
       - rewrite andb_true_r, orb_false_r in E. destruct (1 <? level); [injection E as <- <-; right; apply Hst | exact (Hnull _ _ E)].
       - eapply IH; [exact E |]. by destruct Hst as [-> Hf]. }
  all: destruct st; compare_tokens E; try (exact (Hnull _ _ E)).
  all: try (by eapply IH; [exact E |]; apply formed_state, formed_leaf; auto).
  all: try (by eapply IH; [exact E |]; apply gap_new).
  all: try (by eapply IH; [exact E |]; destruct Hst; apply hole_new).
  all: try (by eapply IH; [exact E |]; apply hole_fun).
  all: try (by eapply IH; [exact E |]; apply hole_filled; [exact Hst | apply formed_leaf; auto]).
  { destruct (_ <? _); [exact (Hnull _ _ E) |]. eapply IH; [exact E |]. apply formed_state, formed_leaf; auto. }
  { destruct (argument _ _) as [x|] eqn:Ea; [| exact (Hnull _ _ E)]. eapply IH; [exact E |]. split; [done |]. by eapply Hst. }
  1-4: destruct Hst; destruct (_ || _) eqn:Eb; [by eapply IH; [exact E |]; apply hole_new |];
    apply orb_false_iff in Eb as [Ht _]; eapply IH; [exact E |]; by apply hole_push.
  all: destruct (parse_loop fuel (level + 1) P_INIT NULL 0 s1) as [[x s2]|] eqn:Ex; [| done]; cbn [mbind option_bind] in E;
    apply IH in Ex as [-> | Hx]; [exact (Hnull _ _ E) | | done]; destruct x as [|xt xs xl xr xv xd]; [done |]; eapply IH; [exact E |].
  - by apply formed_state.
  - by apply hole_filled.
Qed.
Lemma parse_formed s np s' : parse s = Some (np, s') → np = NULL ∨ formed np = true.
Proof. intros E. by eapply parse_loop_formed. Qed.
Lemma registering_formed r : registering r → Forall (λ m, formed (dm_expr m) = true) (mlist r).
Proof.
  apply (registering_keeps (λ l, Forall (λ m, formed (dm_expr m) = true) l)); [constructor |].
  intros nm e r1 res r2 Hr. unfold pmRegisterDerived. destruct (existsb _ _); [by intros [= <- <-] |].
  destruct (parse _) as [[np s]|] eqn:E; [| done]. cbn [mbind option_bind]. apply parse_formed in E as [-> | Hf]; [by intros [= <- <-] |].
  destruct np; [done |]. intros [= <- <-]. cbn [mlist]. apply Forall_app. split; [done |]. by apply Forall_singleton.
Qed.

(** ** What the checks accept *)

(** The types of an expression: names have the type of the metric; an operator has
    arithmetic operands, and its type is the larger of theirs or the type of reals. *)
Inductive well_typed : bnode → Prop :=
  | ty_name d s v i : well_typed (Bound L_NAME d s BNULL BNULL (Some v) i)
  | ty_number s v i : well_typed (Bound L_NUMBER (constant PM_TYPE_U32) s BNULL BNULL (Some v) i)
  | ty_anon ty s' v v' i i' :
      well_typed (Bound L_ANON (constant ty) false (Bound L_NUMBER (constant ty) s' BNULL BNULL v' i') BNULL v i)
  | ty_function t d v v' i i' :
      is_fun t = true → t ≠ L_ANON → t = L_COUNT ∨ arithmetic d = true →
      well_typed (Bound t (function_desc t d) false (Bound L_NAME d true BNULL BNULL (Some v') i') BNULL v i)
  | ty_operator t d l r v i :
      is_op t = true → well_typed l → well_typed r → arithmetic (bdesc l) = true → arithmetic (bdesc r) = true →
      (dtype d = PM_TYPE_DOUBLE ∨ t ≠ L_SLASH ∧ dtype d = Z.max (dtype (bdesc l)) (dtype (bdesc r))) →
      (dindom d = dindom (bdesc l) ∨ dindom d = dindom (bdesc r)) →
      (dindom (bdesc l) = PM_INDOM_NULL ∨ dindom (bdesc r) = PM_INDOM_NULL ∨ dindom (bdesc l) = dindom (bdesc r)) →
      well_typed (Bound t d false l r v i).
(** The time scales that exist. *)
Definition timely (d : pmDesc) : Prop := 0 <= scaleTime (units d) <= 5.

Lemma promoted_max l r : arithmetic l = true → arithmetic r = true → promoted (dtype l) (dtype r) = Z.max (dtype l) (dtype r).
Proof.
  unfold arithmetic, PM_TYPE_32, PM_TYPE_DOUBLE. intros [H1%Z.leb_le H2%Z.leb_le]%andb_true_iff [H3%Z.leb_le H4%Z.leb_le]%andb_true_iff.
  assert (dtype l = 0 ∨ dtype l = 1 ∨ dtype l = 2 ∨ dtype l = 3 ∨ dtype l = 4 ∨ dtype l = 5) as Hl by lia.
  assert (dtype r = 0 ∨ dtype r = 1 ∨ dtype r = 2 ∨ dtype r = 3 ∨ dtype r = 4 ∨ dtype r = 5) as Hr by lia.
  decompose [or] Hl; decompose [or] Hr; subst; by repeat match goal with H : dtype _ = _ |- _ => rewrite H; clear H end.
Qed.
Lemma time_factors_ok lo hi : 0 <= lo → hi <= 5 → ∃ fs, time_factors lo hi = Some fs.
Proof.
  intros Hl Hh. unfold time_factors. apply mapM_is_Some. apply Forall_forall. intros i Hi. apply elem_of_seq in Hi.
  apply lookup_lt_is_Some. cbn. lia.
Qed.
Lemma map_units_ok op l r d li ri :
  0 <= scaleTime l <= 5 → 0 <= scaleTime r <= 5 → scaleTime (units d) = scaleTime l ∨ scaleTime (units d) = scaleTime r →
  ∃ m, map_units op l r (mkMapping d li ri) = Some m ∧ timely (m_desc m) ∧
       (dtype (m_desc m) = PM_TYPE_DOUBLE ∨ dtype (m_desc m) = dtype d) ∧ dindom (m_desc m) = dindom d.
Proof.
  intros Hl Hr Hd. unfold map_units.
  set (P m := (scaleTime (units (m_desc m)) = scaleTime l ∨ scaleTime (units (m_desc m)) = scaleTime r) ∧
              (dtype (m_desc m) = PM_TYPE_DOUBLE ∨ dtype (m_desc m) = dtype d) ∧ dindom (m_desc m) = dindom d).
  assert (P (mkMapping d li ri)) as H0 by (split_and!; auto).
  assert (∀ m, P m → P (map_count l r m)) as Hc.
  { intros m (H1 & H2 & H3). unfold map_count. repeat case_match; split_and!; cbn; auto. }
  assert (∀ m, P m → P (map_space l r m)) as Hs.
  { intros m (H1 & H2 & H3). unfold map_space. repeat case_match; split_and!; cbn; auto. }
  assert (∀ m, P m → ∃ m', map_time l r m = Some m' ∧ P m') as Ht.
  { intros m (H1 & H2 & H3). unfold map_time. destruct (_ && _); [| by eexists].
    destruct (Z.ltb_spec (scaleTime r) (scaleTime l)).
    { destruct (time_factors_ok (scaleTime r) (scaleTime l)) as [fs ->]; [lia .. |]. eexists. split; [done |]. split_and!; cbn; auto. }
    destruct (Z.ltb_spec (scaleTime l) (scaleTime r)).
    { destruct (time_factors_ok (scaleTime l) (scaleTime r)) as [fs ->]; [lia .. |]. eexists. split; [done |]. split_and!; cbn; auto. }
    eexists. split; [done |]. split_and!; auto. }
  destruct (Ht _ (Hc _ H0)) as (m & -> & Hm). cbn [mbind option_bind]. pose proof (Hs _ Hm) as (H1 & H2 & H3).
  eexists. split; [done |]. cbn. split_and!; [| done | done]. unfold timely. cbn. unfold map_scales, map_dims.
  repeat case_match; cbn; destruct H1 as [E | E]; try rewrite E; lia.
Qed.

Lemma bdesc_set_binfo i n : bdesc (set_binfo i n) = bdesc n.
Proof. by destruct n. Qed.
Lemma well_typed_info n i : well_typed n → well_typed (set_binfo i n).
Proof. by destruct 1; constructor. Qed.
Lemma bad_operands_ok op l r : bad_operands op l r = None → arithmetic l = true ∧ arithmetic r = true.
Proof.
  unfold bad_operands. destruct (bad_semantics _ _ _); [done |]. destruct (arithmetic l); [| done]. by destruct (arithmetic r).
Qed.
Lemma timely_function t d : timely d → timely (function_desc t d).
Proof. unfold timely, function_desc. intros H. repeat case_bool_decide; cbn; try done; lia. Qed.

Lemma map_desc_ok op l r v i :
  is_op op = true → well_typed l → well_typed r → timely (bdesc l) → timely (bdesc r) →
  ∃ c, map_desc op false l r v i = Some c ∧ match c with inr n => well_typed n ∧ timely (bdesc n) | inl _ => True end.
Proof.
  intros Hop Hl Hr Htl Htr. unfold map_desc. destruct (bad_operands op _ _) as [e|] eqn:Eb; [by eexists |].
  apply bad_operands_ok in Eb as [Hal Har]. set (d := base_desc op (btype l) (bdesc l) (bdesc r)).
  destruct (map_units_ok op (units (bdesc l)) (units (bdesc r)) d (binfo l) (binfo r)) as (m & -> & Ht & Hty & Hi); [done | done | |].
  { unfold d, base_desc. repeat case_match; cbn; auto. }
  cbn [mbind option_bind]. destruct (_ && _) eqn:Ei; eexists; (split; [done |]); [done |].
  split; [| done]. apply ty_operator; rewrite ?bdesc_set_binfo; try done; try (by apply well_typed_info).
  - assert (dtype d = if bool_decide (op = L_SLASH) then PM_TYPE_DOUBLE else promoted (dtype (bdesc l)) (dtype (bdesc r))) as Ed by done.
    rewrite promoted_max in Ed by done. destruct Hty as [E | E]; [by left |]. rewrite E, Ed.
    case_bool_decide; [by left | by right].
  - rewrite Hi. unfold d, base_desc. repeat case_match; cbn; auto.
  - apply andb_false_iff in Ei as [[Ei | Ei]%andb_false_iff | Ei]; apply negb_false_iff, Z.eqb_eq in Ei; auto.
Qed.

(** Once its operands are known, an expression of the parser is checked to an end, and
    what passes has types. *)
Lemma check_bound np b lookup desc :
  formed np = true → (∀ p d, desc p = inr d → timely d) → bind_expr lookup desc np = Some b →
  ∃ c, check_expr b = Some c ∧ match c with inr n => well_typed n ∧ timely (bdesc n) | inl _ => True end.
Proof.
  intros Hf Ht. revert b. induction np as [| t s l IHl r IHr v d]; intros b; [done |]. cbn [bind_expr].
  assert (∀ s v d, bind_expr lookup desc (Expr L_NAME s NULL NULL (Some v) d) =
    match lookup v with inl _ => None | inr p =>
    match desc p with inl _ => None | inr dd => Some (Bound L_NAME dd s BNULL BNULL (Some v) (new_info p)) end end) as Hname by done.
  assert (timely (constant PM_TYPE_U32)) as Hu by (unfold timely; cbn; lia).
  destruct (is_op t) eqn:Hop.
  { assert (s = false ∧ formed l = true ∧ formed r = true) as (-> & Hl & Hr).
    { destruct t; try done; cbn [formed] in Hf; by apply andb_true_iff in Hf as [->%negb_true_iff [-> ->]%andb_true_iff]. }
    destruct (bind_expr lookup desc l) as [bl|] eqn:El; [| done]. destruct (bind_expr lookup desc r) as [br|] eqn:Er; [| done].
    cbn [mbind option_bind]. intros E. assert (b = Bound t no_desc false bl br v (new_info PM_ID_NULL)) as -> by (destruct t; try done; by injection E as <-).
    destruct (IHl Hl bl eq_refl) as (cl & E1 & H1), (IHr Hr br eq_refl) as (cr & E2 & H2).
    assert (br ≠ BNULL) as Hn by by intros ->.
    cbn [check_expr]. rewrite (bool_decide_eq_false_2 (t = L_NUMBER)), (bool_decide_eq_false_2 (t = L_NAME)) by by intros ->.
    cbn [orb]. rewrite E1. cbn [mbind option_bind]. destruct cl as [e|l1]; [by eexists |].
    destruct br as [|t' d' s' l' r' v' i']; [done |]. rewrite E2. cbn [mbind option_bind]. destruct cr as [e|r1]; [by eexists |].
    destruct H1, H2. by apply map_desc_ok. }
  destruct (is_fun t) eqn:Hfun.
  { assert (s = false ∧ r = NULL ∧ (t = L_ANON ∧ (∃ s' v' ty, l = Expr L_NUMBER s' NULL NULL v' (Some ty)) ∨
      t ≠ L_ANON ∧ ∃ v' d', l = Expr L_NAME true NULL NULL (Some v') d')) as (-> & -> & Hl).
    { cbn [formed] in Hf. destruct t; try done.
      1-6: destruct l as [|[] [] [] [] [] ?]; try done; destruct r; try done; apply negb_true_iff in Hf as ->; (split_and!; [done | done |]); right; eauto.
      destruct l as [|[] s' [] [] v' [ty|]]; try done; destruct r; try done. apply andb_true_iff in Hf as [[->%negb_true_iff _]%andb_true_iff _].
      split_and!; [done | done |]. left. eauto. }
    destruct Hl as [(-> & s' & v' & ty & ->) | (Hna & v' & d' & ->)].
    - cbn. intros [= <-]. eexists. split; [done |]. split; [constructor | by unfold timely; cbn].
    - rewrite Hname. destruct (lookup v') as [e|p]; [done |]. destruct (desc p) as [e|dd] eqn:Ed; [done |]. cbn [mbind option_bind bind_expr].
      intros E. assert (b = Bound t no_desc false (Bound L_NAME dd true BNULL BNULL (Some v') (new_info p)) BNULL v (new_info PM_ID_NULL)) as ->
        by (destruct t; try done; by injection E as <-).
      cbn [check_expr]. rewrite (bool_decide_eq_false_2 (t = L_NUMBER)), (bool_decide_eq_false_2 (t = L_NAME)) by by intros ->.
      cbn [orb]. change (bool_decide (L_NAME = L_NUMBER) || bool_decide (L_NAME = L_NAME)) with true. cbn [mbind option_bind].
      unfold check_function. rewrite Hfun. cbn [negb orb bdesc]. rewrite orb_false_r.
      destruct (bool_decide (t = L_COUNT) || bool_decide (t = L_ANON) || arithmetic dd) eqn:Ec; eexists; (split; [done |]); [| done].
      split; [| by apply timely_function, (Ht p)]. apply ty_function; [done | done |].
      apply orb_true_iff in Ec as [[->%bool_decide_eq_true_1 | E1%bool_decide_eq_true_1]%orb_true_iff | E1]; auto; done. }
  destruct t; try done; cbn [formed] in Hf.
  - destruct l, r; try done. apply andb_true_iff in Hf as [[v' ->]%bool_decide_eq_true_1 ->%bool_decide_eq_true_1].
    cbn. intros [= <-]. eexists. split; [done |]. split; [constructor | done].
  - destruct l, r; try done. apply bool_decide_eq_true_1 in Hf as [v' ->].
    intros E. change (bind_expr lookup desc (Expr L_NAME s NULL NULL (Some v') d) = Some b) in E. rewrite Hname in E. revert E.
    destruct (lookup v') as [e|p]; [done |]. destruct (desc p) as [e|dd] eqn:Ed; [done |]. intros [= <-].
    eexists. split; [done |]. split; [constructor | by apply (Ht p)].
Qed.

(** ** Contexts *)

(** The identifier of the metric is put into the descriptor at the root. *)
Definition tag (p : Z) (np : bnode) : bnode := set_bdesc (set_dpmid p (bdesc np)) np.
Definition checked (p : Z) (e : bnode) : Prop := e = BNULL ∨ ∃ np, e = tag p np ∧ well_typed np.
(** Nothing has been evaluated. *)
Definition unused_info (i : info_t) : Prop := inumval i = 0 ∧ ivlist i = None ∧ last_numval i = 0 ∧ last_ivlist i = None.
Fixpoint unused (np : bnode) : Prop :=
  match np with BNULL => True | Bound _ _ _ l r _ i => unused_info i ∧ unused l ∧ unused r end.

Section context_lemmas.
Context (lookup : str → Z + Z) (desc : Z → Z + pmDesc).
Lemma bind_unused np b : bind_expr lookup desc np = Some b → unused b.
Proof.
  revert b. induction np as [|t s l IHl r IHr v d]; intros b; cbn [bind_expr]; [by intros [= <-] |].
  destruct (bind_expr lookup desc l) as [bl|]; [| done]. destruct (bind_expr lookup desc r) as [br|]; [| done]. cbn [mbind option_bind].
  specialize (IHl _ eq_refl). specialize (IHr _ eq_refl).
  destruct t; try (by intros [= <-]). destruct (lookup _) as [|p]; [done |]. destruct (desc p); [done |]. by intros [= <-].
Qed.
Lemma map_units_unused op l r m m' :
  map_units op l r m = Some m' → unused_info (m_left m) → unused_info (m_right m) → unused_info (m_left m') ∧ unused_info (m_right m').
Proof.
  set (P m := unused_info (m_left m) ∧ unused_info (m_right m)). unfold map_units. intros E Hl Hr.
  assert (∀ d fs m, P m → P (scale_right d fs m)) as S1 by (intros d fs x [H1 H2]; split; [done |]; cbn; unfold rescale; by case_match).
  assert (∀ f d fs m, P m → P (scale_left f d fs m)) as S2 by (intros f d fs x [H1 H2]; split; [| done]; cbn; unfold rescale; by case_match).
  assert (P (map_count l r m)) as Hc by (unfold map_count; repeat case_match; first [by apply S1 | by apply S2 | by split]).
  revert E. unfold map_time. set (mc := map_count l r m) in *. clearbody mc.
  assert (∀ m, P m → P (map_space l r m)) as Hs by (intros x Hx; unfold map_space; repeat case_match; first [by apply S1 | by apply S2 | done]).
  destruct (_ && _); [| by intros [= <-]; apply Hs].
  repeat case_match; [destruct (time_factors _ _) as [fs|]; [| done].. |]; intros [= <-]; apply Hs; auto.
Qed.
Lemma unused_set_binfo n i : unused n → unused_info i → unused (set_binfo i n).
Proof. destruct n; [done |]. by intros (_ & H). Qed.
Lemma unused_binfo n : unused n → unused_info (binfo n).
Proof. destruct n; [intros _; by split_and! | by intros [H _]]. Qed.
Lemma check_unused np c : check_expr np = Some c → unused np → match c with inr n => unused n | inl _ => True end.
Proof.
  revert c. induction np as [|t d s l IHl r IHr v i]; intros c; [done |]. cbn [check_expr].
  destruct (_ || _); [by intros [= <-] |]. intros E (Hi & Hl & Hr). destruct (check_expr l) as [[e|l1]|]; [by injection E as <- | | done].
  specialize (IHl _ eq_refl Hl). cbn [mbind option_bind] in E. destruct r as [|t' d' s' l' r' v' i'].
  { destruct (check_function t l1); injection E as <-; [done |]. by split_and!. }
  destruct (check_expr (Bound t' d' s' l' r' v' i')) as [[e|r1]|]; [by injection E as <- | | done]. specialize (IHr _ eq_refl Hr).
  cbn [mbind option_bind] in E. unfold map_desc in E. destruct (bad_operands _ _ _); [by injection E as <- |].
  destruct (map_units _ _ _ _) as [m|] eqn:Em; [| done]. cbn [mbind option_bind] in E.
  apply map_units_unused in Em as [Hml Hmr]; [| by apply unused_binfo ..]. destruct (_ && _); injection E as <-; [done |].
  split_and!; [done | by apply unused_set_binfo ..].
Qed.
Lemma bind_metric_ok m : formed (dm_expr m) = true → (∀ p d, desc p = inr d → timely d) →
  ∃ b, bind_metric lookup desc m = Some b ∧ bd_name b = dm_name m ∧ bd_pmid b = dm_pmid m ∧ checked (bd_pmid b) (bd_expr b) ∧ unused (bd_expr b).
Proof.
  intros Hf Ht. unfold bind_metric. destruct (dm_expr m) as [|t s l r v d] eqn:Ee; [done |]. rewrite <- Ee in *. clear Ee.
  destruct (bind_expr lookup desc (dm_expr m)) as [np|] eqn:E; [| by eexists; split_and!; [done .. | by left | done]].
  destruct (check_bound _ _ _ _ Hf Ht E) as (c & Ec & Hc). rewrite Ec. cbn [mbind option_bind]. eexists. split; [done |]. cbn.
  apply bind_unused in E. pose proof (check_unused _ _ Ec E) as Hu. destruct c as [e|n]; [by split_and!; [.. | left |] |].
  destruct Hc as [Hc _]. split_and!; [done .. | right; by exists n | by destruct n].
Qed.
Lemma open_ok r : registering r → (∀ p d, desc p = inr d → timely d) →
  ∃ c, __dmopencontext lookup desc r = Some c ∧
    match c with
    | None => mlist r = []
    | Some c => bd_pmid <$> c_mlist c = dm_pmid <$> mlist r ∧ bd_name <$> c_mlist c = dm_name <$> mlist r ∧
        Forall (λ m, checked (bd_pmid m) (bd_expr m) ∧ unused (bd_expr m)) (c_mlist c)
    end.
Proof.
  intros Hr Ht. apply registering_formed in Hr. unfold __dmopencontext, nmetric. destruct (Z.eqb_spec (zlen (mlist r)) 0) as [E|].
  { eexists. split; [done |]. by destruct (mlist r). }
  assert (∃ l, mapM (bind_metric lookup desc) (mlist r) = Some l ∧ bd_pmid <$> l = dm_pmid <$> mlist r ∧ bd_name <$> l = dm_name <$> mlist r ∧
    Forall (λ m, checked (bd_pmid m) (bd_expr m) ∧ unused (bd_expr m)) l) as (l & -> & H1 & H2 & H3).
  { induction Hr as [|m l Hm _ IH]; [by exists [] |]. destruct (bind_metric_ok m Hm Ht) as (b & Eb & Hn & Hp & Hc & Hu).
    destruct (decide (zlen l = 0)) as [E|].
    - destruct l; [| done]. exists [b]. cbn. rewrite Eb. cbn. rewrite Hn, Hp. split_and!; [done .. |]. by apply Forall_singleton.
    - destruct (IH ltac:(done)) as (bl & E & E1 & E2 & E3). exists (b :: bl). cbn. rewrite Eb, E. cbn. rewrite Hn, Hp, E1, E2.
      split_and!; [done .. |]. by constructor. }
  cbn [mbind option_bind]. by eexists.
Qed.
End context_lemmas.
End DeriveBind.
