(* ===== verification/DeriveEval.v ===== *)
(** The values of derived metrics, libpcp/src/derive_fetch.c: arithmetic on values, the
    evaluation of expressions, with the arrays of values in a heap, and the rewriting of
    fetches and their results. *)
From S2P Require Import Prelude Memory Text Types PmnsTree ValueBlock PduResult Derive DeriveBind.
From stdpp Require Import gmap.
From Stdlib Require Import Floats.SpecFloat.
Import Derive.Derive DeriveBind.DeriveBind.
Local Open Scope Z_scope.

Module DeriveEval.

(** ** Floating point numbers *)

(** A format of IEEE 754: the precision, the exponent bound and the width. *)
Record format := mkFormat { prec : Z; emax : Z; width : Z }.
Definition single : format := mkFormat 24 128 32.
Definition double : format := mkFormat 53 1024 64.
Definition mbits (f : format) : Z := prec f - 1.
Definition ebits (f : format) : Z := width f - prec f.
Definition least (f : format) : Z := 3 - emax f - prec f.
Definition decode (f : format) (b : Z) : spec_float :=
  let m := b mod 2 ^ mbits f in
  let e := (b / 2 ^ mbits f) mod 2 ^ ebits f in
  let s := 2 ^ (width f - 1) <=? b in
  if e =? 2 ^ ebits f - 1 then (if m =? 0 then S754_infinity s else S754_nan)
  else if e =? 0 then match m with Zpos p => S754_finite s p (least f) | _ => S754_zero s end
  else match m + 2 ^ mbits f with Zpos p => S754_finite s p (e + least f - 1) | _ => S754_nan end.
(** Of a NaN neither sign nor payload are kept. *)
Definition encode (f : format) (x : spec_float) : Z :=
  let sign (s : bool) := if s then 2 ^ (width f - 1) else 0 in
  let top := (2 ^ ebits f - 1) * 2 ^ mbits f in
  match x with
  | S754_zero s => sign s
  | S754_infinity s => sign s + top
  | S754_nan => top + 2 ^ (mbits f - 1)
  | S754_finite s m e =>
      if Zpos m <? 2 ^ mbits f then sign s + Zpos m
      else sign s + (e - least f + 1) * 2 ^ mbits f + (Zpos m - 2 ^ mbits f)
  end.
Definition of_int (f : format) (z : Z) : spec_float := binary_normalize (prec f) (emax f) z 0 false.
(** A number of another format. *)
Definition convert (f : format) (x : spec_float) : spec_float :=
  match x with S754_finite s m e => binary_round (prec f) (emax f) s m e | x => x end.
Definition fadd (f : format) : spec_float → spec_float → spec_float := SFadd (prec f) (emax f).
Definition fsub (f : format) : spec_float → spec_float → spec_float := SFsub (prec f) (emax f).
Definition fmul (f : format) : spec_float → spec_float → spec_float := SFmul (prec f) (emax f).
Definition fdiv (f : format) : spec_float → spec_float → spec_float := SFdiv (prec f) (emax f).

(** ** Values *)

(** The union pmAtomValue: the bits of a word of 32 or 64 bits, a string with the length
    that is kept beside it, or a value block. *)
Inductive atom := Word32 (b : Z) | Word64 (b : Z) | Chars (cp : buf) | Blob (vbp : pmValueBlock).
(** An entry of an array; the value may not be set. *)
Record val_t := mkVal { v_inst : Z; v_value : option atom }.
Definition s64 (x : Z) : Z := (x + 2^63) mod 2^64 - 2^63.
Definition word32 (a : atom) : option Z :=
  match a with Word32 b => Some b | Word64 b => Some (u32 b) | _ => None end.
Definition word64 (a : atom) : option Z := match a with Word64 b => Some b | _ => None end.
Definition is_word32 (ty : Z) : bool := (ty =? PM_TYPE_32) || (ty =? PM_TYPE_U32).
Definition is_word64 (ty : Z) : bool := (ty =? PM_TYPE_64) || (ty =? PM_TYPE_U64).
(** The member of an integer type. *)
Definition int_of (ty : Z) (a : atom) : option Z :=
  if ty =? PM_TYPE_32 then s32 <$> word32 a
  else if ty =? PM_TYPE_U32 then word32 a
  else if ty =? PM_TYPE_64 then s64 <$> word64 a
  else word64 a.
Definition to_double (ty : Z) (a : atom) : option spec_float :=
  if is_word32 ty || is_word64 ty then of_int double <$> int_of ty a
  else if ty =? PM_TYPE_FLOAT then (λ b, convert double (decode single b)) <$> word32 a
  else decode double <$> word64 a.
Definition to_single (ty : Z) (a : atom) : option spec_float :=
  if is_word32 ty || is_word64 ty then of_int single <$> int_of ty a
  else if ty =? PM_TYPE_FLOAT then decode single <$> word32 a
  else (λ b, convert single (decode double b)) <$> word64 a.

(** An operand of type [oty] for a result of type [ty]. *)
Definition operand (ty oty mul div : Z) (a : atom) : option atom :=
  if is_word64 ty then
    if oty =? PM_TYPE_32 then b ← word32 a; Some (Word64 (u64 (s32 b)))
    else if oty =? PM_TYPE_U32 then b ← word32 a; Some (Word64 b)
    else Some a
  else if ty =? PM_TYPE_FLOAT then
    if is_word32 oty || is_word64 oty then x ← to_single oty a; Some (Word32 (encode single x)) else Some a
  else if ty =? PM_TYPE_DOUBLE then
    x ← to_double oty a;
    Some (Word64 (encode double (fmul double (fdiv double x (of_int double div)) (of_int double mul))))
  else Some a.
Definition int_op (op : lex_t) (x y : Z) : option Z :=
  match op with L_PLUS => Some (x + y) | L_MINUS => Some (x - y) | L_STAR => Some (x * y) | _ => None end.
Definition float_op (f : format) (op : lex_t) (x y : spec_float) : option spec_float :=
  match op with L_PLUS => Some (fadd f x y) | L_MINUS => Some (fsub f x y) | L_STAR => Some (fmul f x y) | _ => None end.
Definition is_zero (x : spec_float) : bool := match x with S754_zero _ => true | _ => false end.
(** [None]: the result is not set. *)
Definition compute (ty : Z) (op : lex_t) (l r : atom) : option atom :=
  if is_word32 ty then x ← word32 l; y ← word32 r; z ← int_op op x y; Some (Word32 (u32 z))
  else if is_word64 ty then x ← word64 l; y ← word64 r; z ← int_op op x y; Some (Word64 (u64 z))
  else if ty =? PM_TYPE_FLOAT then
    x ← word32 l; y ← word32 r; z ← float_op single op (decode single x) (decode single y); Some (Word32 (encode single z))
  else if ty =? PM_TYPE_DOUBLE then
    x ← decode double <$> word64 l; y ← decode double <$> word64 r;
    z ← match op with
        | L_SLASH => Some (if is_zero x then S754_zero false else fdiv double x y)
        | _ => float_op double op x y
        end;
    Some (Word64 (encode double z))
  else None.
Definition bin_op (ty : Z) (op : lex_t) (a : atom) (lty lmul ldiv : Z) (b : atom) (rty rmul rdiv : Z) : option atom :=
  l ← operand ty lty lmul ldiv a; r ← operand ty rty rmul rdiv b; compute ty op l r.
(** The comparison of two values of a type. *)
Definition less (ty : Z) (a b : atom) : option bool :=
  if is_word32 ty || is_word64 ty then x ← int_of ty a; y ← int_of ty b; Some (x <? y)
  else if ty =? PM_TYPE_FLOAT then x ← word32 a; y ← word32 b; Some (SFltb (decode single x) (decode single y))
  else x ← word64 a; y ← word64 b; Some (SFltb (decode double x) (decode double y)).

(** ** Arrays of values *)

(** An array has room for [a_room] entries; [a_vals] are those that have been written.  An
    address that is not in the heap is that of an array that was freed. *)
Record array := mkArray { a_room : Z; a_vals : list val_t }.
Record heap := mkHeap { arrays : gmap nat array; next_array : nat }.
Definition malloc (n : Z) (h : heap) : nat * heap :=
  (next_array h, mkHeap (<[next_array h := mkArray n []]> (arrays h)) (S (next_array h))).
(** [None]: freed before. *)
Definition free (p : option nat) (h : heap) : option heap :=
  match p with
  | None => Some h
  | Some a => _ ← arrays h !! a; Some (mkHeap (delete a (arrays h)) (next_array h))
  end.
(** The entries are written; [None]: there is no array, or not enough room. *)
Definition fill (a : nat) (l : list val_t) (h : heap) : option heap :=
  b ← arrays h !! a;
  if zlen l <=? a_room b then Some (mkHeap (<[a := mkArray (a_room b) l]> (arrays h)) (next_array h)) else None.
Definition array_at (p : option nat) (h : heap) : option (list val_t) :=
  a ← p; a_vals <$> arrays h !! a.
(** A new array with [room] for entries, of which [l] are written. *)
Definition new_array (room : Z) (l : list val_t) (h : heap) : option (nat * heap) :=
  let '(a, h) := malloc room h in h ← fill a l h; Some (a, h).
Definition free_ivlist (save_last : bool) (i : info_t) (h : heap) : option (info_t * heap) :=
  if save_last then
    h ← free (last_ivlist i) h; Some (set_last_values (inumval i) (ivlist i) i, h)
  else h ← free (ivlist i) h; Some (set_values 0 None i, h).

(** ** Evaluation of a node *)

(** The results of the evaluation of a node are a status and what is known about it. *)
Definition outcome : Type := Z * info_t * heap.

Definition eval_number (value : option str) (i : info_t) (h : heap) : option outcome :=
  if inumval i =? 0 then
    '(a, h) ← new_array 1 [mkVal (s32 PM_INDOM_NULL) (Some (Word32 (u32 (Z.min LONG_MAX (span_digits (default [] value) 0).1))))] h;
    Some (1, set_values 1 (Some a) i, h)
  else Some (1, i, h).

(** delta(): [last] has [n] entries. *)
Fixpoint delta_loop (ty : Z) (last : list val_t) (n : Z) (k : nat) (l : list val_t) : option (list val_t) :=
  match l with
  | [] => Some []
  | x :: l =>
      let j := if n <=? Z.of_nat k then O else k in
      y ← last !! j;
      let same := if v_inst x =? v_inst y then Some y else find (λ y, v_inst y =? v_inst x) (take (Z.to_nat n) last) in
      match same with
      | None => delta_loop ty last n (S k) l
      | Some y =>
          a ← v_value x; b ← v_value y; v ← compute ty L_MINUS a b;
          rest ← delta_loop ty last n (S k) l; Some (mkVal (v_inst x) (Some v) :: rest)
      end
  end.
Definition eval_delta (d : pmDesc) (save_last : bool) (left i : info_t) (h : heap) : option outcome :=
  '(i, h) ← free_ivlist save_last i h;
  let n := Z.min (inumval left) (last_numval left) in
  if n <=? 0 then Some (n, set_values n (ivlist i) i, h)
  else
    let '(a, h) := malloc n h in
    vals ← array_at (ivlist left) h; last ← array_at (last_ivlist left) h;
    if zlen vals <? inumval left then None
    else if negb (arithmetic d) then Some (PM_ERR_CONV, set_values n (Some a) i, h)
    else
      l ← delta_loop (dtype d) last (last_numval left) 0 (take (Z.to_nat (inumval left)) vals);
      h ← fill a l h;
      Some (zlen l, set_values (zlen l) (Some a) i, h).

(** The aggregate functions: the value so far after each value of the argument, which has
    [n] of them. *)
Definition aggr_step (t : lex_t) (ty lty n : Z) (first : bool) (cur : option atom) (x : atom) : option atom :=
  match t with
  | L_AVG =>
      c ← cur; f ← decode single <$> word32 c; v ← to_single lty x;
      Some (Word32 (encode single (fadd single f (fdiv single v (of_int single n)))))
  | L_SUM => c ← cur; compute ty L_PLUS c x
  | L_MAX | L_MIN =>
      if first then Some x
      else c ← cur; b ← (if bool_decide (t = L_MAX) then less ty c x else less ty x c); Some (if b : bool then x else c)
  | _ => None
  end.
Fixpoint aggr_loop (t : lex_t) (ty lty n : Z) (first : bool) (cur : option atom) (l : list val_t) : option (option atom) :=
  match l with
  | [] => Some cur
  | x :: l => a ← v_value x; c ← aggr_step t ty lty n first cur a; aggr_loop t ty lty n false (Some c) l
  end.
Definition aggr_zero (t : lex_t) (ty : Z) (cur : option atom) : option atom :=
  match t with
  | L_AVG => Some (Word32 0)
  | L_SUM => if is_word32 ty || (ty =? PM_TYPE_FLOAT) then Some (Word32 0) else if is_word64 ty || (ty =? PM_TYPE_DOUBLE) then Some (Word64 0) else cur
  | _ => cur
  end.
Definition eval_aggr (t : lex_t) (d ld : pmDesc) (left i : info_t) (h : heap) : option outcome :=
  '(a, h) ← match ivlist i with
            | None => new_array 1 [mkVal (s32 PM_IN_NULL) None] h
            | Some a => Some (a, h)
            end;
  old ← array_at (Some a) h; first ← head old;
  let i := set_values 1 (Some a) i in
  if bool_decide (t = L_COUNT) then
    h ← fill a [mkVal (v_inst first) (Some (Word32 (u32 (inumval left))))] h; Some (1, i, h)
  else
    let zero := aggr_zero t (dtype d) (v_value first) in
    if inumval left <=? 0 then h ← fill a [mkVal (v_inst first) zero] h; Some (1, i, h)
    else if negb (arithmetic (if bool_decide (t = L_AVG) then ld else d)) then
      h ← fill a [mkVal (v_inst first) zero] h; Some (PM_ERR_CONV, i, h)
    else
      vals ← array_at (ivlist left) h;
      if zlen vals <? inumval left then None
      else
        c ← aggr_loop t (dtype d) (dtype ld) (inumval left) true zero (take (Z.to_nat (inumval left)) vals);
        h ← fill a [mkVal (v_inst first) c] h; Some (1, i, h).

(** The value of a metric, as the type says; the result is an error or the value. *)
Definition get_word32 (b : buf) : option Z := if 4 <=? zlen b then Some (LittleEndianList.le_combine (take 4 b)) else None.
Definition get_word64 (b : buf) : option Z := if 8 <=? zlen b then Some (LittleEndianList.le_combine (take 8 b)) else None.
Definition extract (ty fmt : Z) (v : value) : option (Z + atom) :=
  if is_word32 ty then match v with Lval l => Some (inr (Word32 (u32 l))) | Pval _ => None end
  else if is_word64 ty || (ty =? PM_TYPE_DOUBLE) then
    match v with Pval p => b ← get_word64 (vbuf p); Some (inr (Word64 b)) | Lval _ => None end
  else if ty =? PM_TYPE_FLOAT then
    match v with
    | Lval l => if fmt =? PM_VAL_INSITU then Some (inr (Word32 (u32 l))) else None
    | Pval p => if (fmt =? PM_VAL_INSITU) || negb (vtype p =? PM_TYPE_FLOAT) then None else b ← get_word32 (vbuf p); Some (inr (Word32 b))
    end
  else if ty =? PM_TYPE_STRING then match v with Pval p => Some (inr (Chars (vbuf p))) | Lval _ => None end
  else if (ty =? PM_TYPE_AGGREGATE) || (ty =? PM_TYPE_AGGREGATE_STATIC) || (ty =? PM_TYPE_EVENT) then
    match v with Pval p => Some (inr (Blob p)) | Lval _ => None end
  else Some (inl PM_ERR_TYPE).
Fixpoint extract_all (ty fmt : Z) (l : list pmValue) : option (Z + list val_t) :=
  match l with
  | [] => Some (inr [])
  | x :: l =>
      v ← extract ty fmt (val x);
      match v with
      | inl e => Some (inl e)
      | inr v => r ← extract_all ty fmt l; Some (match r with inl e => inl e | inr l => inr (mkVal (inst x) (Some v) :: l) end)
      end
  end.
Definition eval_name (d : pmDesc) (save_last : bool) (i : info_t) (rp : list pmValueSet) (h : heap) : option outcome :=
  match find (λ vs, vpmid vs =? ipmid i) rp with
  | None => Some (PM_ERR_PMID, i, h)
  | Some vs =>
      '(i, h) ← free_ivlist save_last i h;
      if numval vs <=? 0 then Some (numval vs, set_values (numval vs) (ivlist i) i, h)
      else
        let '(a, h) := malloc (numval vs) h in
        let i := set_values (numval vs) (Some a) i in
        if zlen (vlist vs) <? numval vs then None
        else
          r ← extract_all (dtype d) (valfmt vs) (take (Z.to_nat (numval vs)) (vlist vs));
          match r with
          | inl e => Some (e, i, h)
          | inr l => h ← fill a l h; Some (numval vs, i, h)
          end
  end.

(** Operators: an entry of the left operand is joined with the one of the right operand
    for the same instance; an operand without instances has one entry for all.  [ln] and
    [rn] say whether the operands have an instance domain, [nl] and [nr] how many entries
    there are, [n] how many the result has room for.  The loop is at its end when [fuel]
    is as long as both lists. *)
Fixpoint index_of (inst : Z) (l : list val_t) : option nat :=
  match l with
  | [] => None
  | y :: l => if v_inst y =? inst then Some O else S <$> index_of inst l
  end.
Fixpoint join_loop (fuel : nat) (f : atom → atom → option atom) (ln rn : bool) (lv rv : list val_t) (i j : nat) (n k : Z)
    : option (list val_t) :=
  match fuel with
  | O => None
  | S fuel =>
      if n <=? k then Some []
      else if (length lv <=? i)%nat || (length rv <=? j)%nat then Some []
      else
        x ← lv !! i; y ← rv !! j;
        match (if ln && rn && negb (v_inst x =? v_inst y) then index_of (v_inst x) rv else Some j) with
        | None => join_loop fuel f ln rn lv rv (S i) 0 n k
        | Some j =>
            y ← rv !! j; a ← v_value x; b ← v_value y; v ← f a b;
            let i' := if ln then S i else i in
            let j' := if ln then (if rn then (if (length rv <=? S j)%nat then O else S j) else j) else if rn then S j else j in
            rest ← join_loop fuel f ln rn lv rv i' j' n (k + 1);
            Some (mkVal (if ln then v_inst x else v_inst y) (Some v) :: rest)
        end
  end.
Definition has_indom (d : pmDesc) : bool := negb (dindom d =? PM_INDOM_NULL).
Definition eval_operator (t : lex_t) (d : pmDesc) (save_last : bool) (l r : bnode) (i : info_t) (h : heap) : option outcome :=
  let ld := bdesc l in let rd := bdesc r in
  let li := binfo l in let ri := binfo r in
  '(i, h) ← free_ivlist save_last i h;
  if (inumval li =? 0) || (inumval ri =? 0) then Some (0, set_values 0 (ivlist i) i, h)
  else
    let n := if negb (has_indom ld) then inumval ri
             else if negb (has_indom rd) then inumval li
             else Z.min (inumval li) (inumval ri) in
    let '(a, h) := malloc n h in
    lv ← array_at (ivlist li) h; rv ← array_at (ivlist ri) h;
    if (zlen lv <? inumval li) || (zlen rv <? inumval ri) then None
    else
      let lv := take (Z.to_nat (inumval li)) lv in
      let rv := take (Z.to_nat (inumval ri)) rv in
      let f a b := bin_op (dtype d) t a (dtype ld) (mul_scale li) (div_scale li) b (dtype rd) (mul_scale ri) (div_scale ri) in
      vals ← join_loop (S (length lv + length rv)) f (has_indom ld) (has_indom rd) lv rv 0 0 n 0;
      h ← fill a vals h;
      Some (zlen vals, set_values (zlen vals) (Some a) i, h).

(** ** Evaluation of an expression *)

Definition eval_node (t : lex_t) (d : pmDesc) (save_last : bool) (l r : bnode) (v : option str) (i : info_t)
    (rp : list pmValueSet) (h : heap) : option outcome :=
  match t with
  | L_NUMBER => eval_number v i h
  | L_NAME => eval_name d save_last i rp h
  | _ =>
      match l with
      | BNULL => None
      | _ =>
          match t with
          | L_DELTA => eval_delta d save_last (binfo l) i h
          | L_AVG | L_COUNT | L_SUM | L_MAX | L_MIN => eval_aggr t d (bdesc l) (binfo l) i h
          | L_ANON => Some (0, i, h)
          | _ => match r with BNULL => None | _ => eval_operator t d save_last l r i h end
          end
      end
  end.
(** [None]: an assertion fails, or the code uses a value that was not set, or memory that
    was freed or is not there. *)
Fixpoint eval_expr (np : bnode) (rp : list pmValueSet) (h : heap) : option (Z * bnode * heap) :=
  match np with
  | BNULL => None
  | Bound t d s l r v i =>
      '(sts, l, h) ← match l with BNULL => Some (0, BNULL, h) | _ => eval_expr l rp h end;
      if sts <? 0 then Some (sts, Bound t d s l r v i, h)
      else
        '(sts, r, h) ← match r with BNULL => Some (0, BNULL, h) | _ => eval_expr r rp h end;
        if sts <? 0 then Some (sts, Bound t d s l r v i, h)
        else
          '(sts, i, h) ← eval_node t d s l r v i rp h;
          Some (sts, Bound t d s l r v i, h)
  end.

(** ** Fetches *)

Fixpoint get_pmids (np : bnode) : list Z :=
  match np with
  | BNULL => []
  | Bound t _ _ l r _ i => get_pmids l ++ get_pmids r ++ (if bool_decide (t = L_NAME) then [ipmid i] else [])
  end.
Definition is_derived (p : Z) : bool := (pmid_domain p =? DYNAMIC_PMID) && negb (pmid_item p =? 0).
Definition the_metric (c : context_dm) (p : Z) : option bdm := find (λ m, bd_pmid m =? p) (c_mlist c).
(** The expression of a metric that is fetched, when it is derived and bound. *)
Definition bound_expr (c : context_dm) (p : Z) : option bnode :=
  if is_derived p then
    match the_metric c p with Some m => match bd_expr m with BNULL => None | e => Some e end | None => None end
  else None.
(** Identifiers that are not in the list yet. *)
Fixpoint extras (pmidlist xtra : list Z) (done : list Z) : list Z :=
  match xtra with
  | [] => done
  | p :: xtra => extras pmidlist xtra (if bool_decide (p ∈ pmidlist) || bool_decide (p ∈ done) then done else done ++ [p])
  end.
(** The result is 0 when there is nothing to do, or the length of the new list, which is
    NULL when it would be the old one. *)
Definition __dmprefetch (c : option context_dm) (pmidlist : list Z) : Z * option (list Z) * option context_dm :=
  match c with
  | None => (0, None, None)
  | Some c =>
      let exprs := omap (bound_expr c) pmidlist in
      let has := negb (bool_decide (exprs = [])) in
      let c' := mkContextDm (c_mlist c) has (zlen pmidlist) in
      let xtra := flat_map get_pmids exprs in
      if bool_decide (xtra = []) then (if has then zlen pmidlist else 0, None, Some c')
      else
        match extras pmidlist xtra [] with
        | [] => (zlen pmidlist, None, Some c')
        | l => (zlen pmidlist + zlen l, Some (pmidlist ++ l), Some c')
        end
  end.

(** A value in the result that is given to the client; the formats are those of the type. *)
Definition put_word (n : nat) (b : Z) : buf := LittleEndianList.le_split n b.
Definition result_value (ty : Z) (x : val_t) : option pmValue :=
  a ← v_value x;
  if is_word32 ty then b ← word32 a; Some (mkValue (v_inst x) (Lval (s32 b)))
  else if is_word64 ty || (ty =? PM_TYPE_DOUBLE) then b ← word64 a; Some (mkValue (v_inst x) (Pval (mkVB ty (put_word 8 b))))
  else if ty =? PM_TYPE_FLOAT then b ← word32 a; Some (mkValue (v_inst x) (Pval (mkVB ty (put_word 4 b))))
  else
    match a with
    | Chars cp => Some (mkValue (v_inst x) (Pval (mkVB ty cp)))
    | Blob vbp => Some (mkValue (v_inst x) (Pval vbp))
    | _ => None
    end.
(** A copy of a value, whose format says which member of the union is in use. *)
Definition copy_value (fmt : Z) (x : pmValue) : option pmValue :=
  match val x with
  | Lval _ => if fmt =? PM_VAL_INSITU then Some x else None
  | Pval _ => if fmt =? PM_VAL_INSITU then None else Some x
  end.
Definition set_expr (p : Z) (e : bnode) (l : list bdm) : list bdm :=
  match split_find (λ m, bd_pmid m =? p) l with
  | Some (l1, m, l2) => l1 ++ mkBdm (bd_name m) (bd_pmid m) e :: l2
  | None => l
  end.
(** One value set of the result, which for a derived metric is made from its expression. *)
Definition rewrite_vset (l : list bdm) (rp : list pmValueSet) (vs : pmValueSet) (h : heap) : option (pmValueSet * list bdm * heap) :=
  match (if is_derived (vpmid vs) then find (λ m, bd_pmid m =? vpmid vs) l else None) with
  | None =>
      vals ← (if numval vs <=? 0 then Some []
              else if zlen (vlist vs) <? numval vs then None
              else mapM (copy_value (valfmt vs)) (take (Z.to_nat (numval vs)) (vlist vs)));
      Some (mkVset (vpmid vs) (numval vs) (valfmt vs) vals, l, h)
  | Some m =>
      match bd_expr m with
      | BNULL => Some (mkVset (vpmid vs) PM_ERR_PMID (valfmt vs) [], l, h)
      | e =>
          '(sts, e, h) ← eval_expr e rp h;
          let ty := dtype (bdesc e) in
          let fmt := if is_word32 ty then PM_VAL_INSITU else PM_VAL_DPTR in
          vals ← (if sts <=? 0 then Some []
                  else vals ← array_at (ivlist (binfo e)) h;
                       if zlen vals <? sts then None else mapM (result_value ty) (take (Z.to_nat sts) vals));
          Some (mkVset (vpmid vs) sts fmt vals, set_expr (vpmid vs) e l, h)
      end
  end.
Fixpoint rewrite_vsets (n : nat) (l : list bdm) (rp rest : list pmValueSet) (h : heap) : option (list pmValueSet * list bdm * heap) :=
  match n with
  | O => Some ([], l, h)
  | S n =>
      match rest with
      | [] => None
      | vs :: rest =>
          '(vs, l, h) ← rewrite_vset l rp vs h;
          '(new, l, h) ← rewrite_vsets n l rp rest h;
          Some (vs :: new, l, h)
      end
  end.
Definition __dmpostfetch (c : option context_dm) (rp : list pmValueSet) (h : heap) : option (list pmValueSet * option context_dm * heap) :=
  match c with
  | None => Some (rp, c, h)
  | Some c =>
      if negb (fetch_has_dm c) then Some (rp, Some c, h)
      else
        '(new, l, h) ← rewrite_vsets (Z.to_nat (c_numpmid c)) (c_mlist c) rp rp h;
        Some (new, Some (mkContextDm l (fetch_has_dm c) (c_numpmid c)), h)
  end.

(** ** Encodings *)

Definition arith (ty : Z) : bool := (PM_TYPE_32 <=? ty) && (ty <=? PM_TYPE_DOUBLE).
Definition atom_typed (ty : Z) (a : atom) : Prop :=
  if is_word32 ty || (ty =? PM_TYPE_FLOAT) then ∃ b, a = Word32 b
  else if is_word64 ty || (ty =? PM_TYPE_DOUBLE) then ∃ b, a = Word64 b
  else if ty =? PM_TYPE_STRING then ∃ s, a = Chars s
  else ∃ v, a = Blob v.
Lemma arith_cases ty : arith ty = true →
  ty = PM_TYPE_32 ∨ ty = PM_TYPE_U32 ∨ ty = PM_TYPE_64 ∨ ty = PM_TYPE_U64 ∨ ty = PM_TYPE_FLOAT ∨ ty = PM_TYPE_DOUBLE.
Proof.
  unfold arith, PM_TYPE_32, PM_TYPE_U32, PM_TYPE_64, PM_TYPE_U64, PM_TYPE_FLOAT, PM_TYPE_DOUBLE.
  intros [H1%Z.leb_le H2%Z.leb_le]%andb_true_iff. lia.
Qed.
Local Ltac types H := apply arith_cases in H; decompose [or] H; clear H; subst.
Lemma operand_typed ty oty mul div a :
  arith ty = true → arith oty = true → oty <= ty → atom_typed oty a → ∃ b, operand ty oty mul div a = Some b ∧ atom_typed ty b.
Proof.
  intros Ht Ho Hle Ha. types Ht; types Ho; try (exfalso; unfold PM_TYPE_32, PM_TYPE_U32, PM_TYPE_64, PM_TYPE_U64, PM_TYPE_FLOAT, PM_TYPE_DOUBLE in Hle; lia);
    destruct Ha as [b ->]; cbn -[encode of_int decode convert fmul fdiv s32 u64 s64 u32]; eexists; (split; [reflexivity | by eexists]).
Qed.
Lemma compute_typed ty op a b :
  arith ty = true → is_op op = true → ty = PM_TYPE_DOUBLE ∨ op ≠ L_SLASH → atom_typed ty a → atom_typed ty b →
  ∃ c, compute ty op a b = Some c ∧ atom_typed ty c.
Proof.
  intros Ht Hop Hs Ha Hb. types Ht; destruct Ha as [x ->], Hb as [y ->]; destruct op; try done; try (by destruct Hs);
    cbn -[encode decode fadd fsub fmul fdiv u64 u32]; eexists; (split; [reflexivity | by eexists]).
Qed.

(** ** Joins *)

Definition apply_to (f : atom → atom → option atom) (x y : val_t) : option atom := a ← v_value x; b ← v_value y; f a b.
Definition partner (inst : Z) (l : list val_t) : option val_t := find (λ y, v_inst y =? inst) l.
(** Every entry of the left list with the one of the right list for its instance. *)
Fixpoint join_both (f : atom → atom → option atom) (lv rv : list val_t) : option (list val_t) :=
  match lv with
  | [] => Some []
  | x :: lv =>
      match partner (v_inst x) rv with
      | None => join_both f lv rv
      | Some y => v ← apply_to f x y; rest ← join_both f lv rv; Some (mkVal (v_inst x) (Some v) :: rest)
      end
  end.
(** The first entry of one list with every entry of the other, whose instances remain. *)
Definition join_left (f : atom → atom → option atom) (lv : list val_t) (y : val_t) : option (list val_t) :=
  mapM (λ x, v ← apply_to f x y; Some (mkVal (v_inst x) (Some v))) lv.
Definition join_right (f : atom → atom → option atom) (x : val_t) (rv : list val_t) : option (list val_t) :=
  mapM (λ y, v ← apply_to f x y; Some (mkVal (v_inst y) (Some v))) rv.
Definition join (f : atom → atom → option atom) (ln rn : bool) (lv rv : list val_t) : option (list val_t) :=
  if ln then
    if rn then join_both f lv rv else y ← head rv; join_left f lv y
  else x ← head lv; y ← head rv; join_right f x (if rn then rv else (λ _, y) <$> rv).
Definition insts (l : list val_t) : list Z := v_inst <$> l.

Lemma partner_at l j y : NoDup (insts l) → l !! j = Some y → partner (v_inst y) l = Some y.
Proof.
  intros Hn Hj. unfold partner. revert j Hj Hn. induction l as [|z l IH]; intros j Hj Hn; [done |]. cbn in *.
  apply NoDup_cons in Hn as [Hz Hn]. destruct j as [|j]; [injection Hj as ->; by rewrite Z.eqb_refl |].
  destruct (Z.eqb_spec (v_inst z) (v_inst y)) as [E|]; [| by eapply IH].
  destruct Hz. rewrite E. apply list_elem_of_fmap_2. by eapply list_elem_of_lookup_2.
Qed.
Lemma partner_Some inst l y : partner inst l = Some y → y ∈ l ∧ v_inst y = inst.
Proof. intros [Hy E%Z.eqb_eq]%find_some. split; [by apply list_elem_of_In | done]. Qed.
Lemma partner_in inst l y : partner inst l = Some y → inst ∈ insts l.
Proof. intros [Hy <-]%partner_Some. by apply list_elem_of_fmap_2. Qed.
Lemma index_of_partner inst l :
  match index_of inst l with
  | None => partner inst l = None
  | Some j => ∃ y, l !! j = Some y ∧ partner inst l = Some y ∧ v_inst y = inst
  end.
Proof.
  unfold partner. induction l as [|y l IH]; [done |]. cbn. destruct (Z.eqb_spec (v_inst y) inst) as [E|].
  - by exists y.
  - by destruct (index_of inst l).
Qed.
Definition matched (lv rv : list val_t) : list Z := filter (λ i, i ∈ insts rv) (insts lv).
Lemma matched_cons x lv rv :
  matched (x :: lv) rv = if bool_decide (v_inst x ∈ insts rv) then v_inst x :: matched lv rv else matched lv rv.
Proof. unfold matched. change (insts (x :: lv)) with (v_inst x :: insts lv). rewrite filter_cons. by case_decide; [rewrite bool_decide_eq_true_2 | rewrite bool_decide_eq_false_2]. Qed.
Lemma partner_None inst l : partner inst l = None → inst ∉ insts l.
Proof.
  intros E (y & -> & Hy)%list_elem_of_fmap. apply list_elem_of_In in Hy.
  eapply find_none in E; [| exact Hy]. cbn in E. by rewrite Z.eqb_refl in E.
Qed.
Lemma join_both_length f lv rv out : join_both f lv rv = Some out → insts out = matched lv rv.
Proof.
  revert out. induction lv as [|x lv IH]; intros out; cbn [join_both]; [by intros [= <-] |]. rewrite matched_cons.
  destruct (partner (v_inst x) rv) as [y|] eqn:E.
  - rewrite bool_decide_eq_true_2 by by eapply partner_in. destruct (apply_to f x y) as [v|]; [| done].
    destruct (join_both f lv rv) as [rest|]; [| done]. cbn. intros [= <-]. cbn. f_equal. by apply IH.
  - rewrite bool_decide_eq_false_2 by by apply partner_None. apply IH.
Qed.
Lemma matched_bounds lv rv : NoDup (insts lv) → (length (matched lv rv) <= length rv)%nat ∧ (length (matched lv rv) <= length lv)%nat.
Proof.
  intros Hn. split.
  - rewrite <- (length_fmap v_inst rv). apply submseteq_length, NoDup_submseteq.
    + by apply NoDup_filter.
    + by intros i [Hi _]%list_elem_of_filter.
  - rewrite <- (length_fmap v_inst lv). apply length_filter.
Qed.
Lemma matched_none lv rv f : matched lv rv = [] → join_both f lv rv = Some [].
Proof.
  induction lv as [|x lv IH]; [done |]. rewrite matched_cons. case_bool_decide as Hx; [done |]. intros E. cbn [join_both].
  destruct (partner (v_inst x) rv) as [y|] eqn:Ep; [| by apply IH]. by apply partner_in in Ep.
Qed.
Lemma join_loop_both f lv rv n : NoDup (insts rv) → rv ≠ [] → ∀ fuel rest i j k,
  drop i lv = rest → (length rest < fuel)%nat → (j < length rv)%nat → k + Z.of_nat (length (matched rest rv)) <= n →
  join_loop fuel f true true lv rv i j n k = join_both f rest rv.
Proof.
  intros Hnd Hne. induction fuel as [|fuel IH]; intros rest i j k Hr Hf Hj Hk; [lia |]. cbn [join_loop].
  destruct (Z.leb_spec n k).
  { symmetry. apply matched_none, length_zero_iff_nil. lia. }
  rewrite (proj2 (Nat.leb_gt _ _) Hj), orb_false_r. destruct rest as [|x rest].
  { rewrite (proj2 (Nat.leb_le _ _)); [done |]. apply (f_equal length) in Hr. rewrite length_drop in Hr. cbn in Hr. lia. }
  assert (lv !! i = Some x) as Hx by (rewrite <- (Nat.add_0_r i), <- lookup_drop, Hr; done).
  assert (drop (S i) lv = rest) as Hr' by (rewrite <- Nat.add_1_r, <- drop_drop, Hr; done).
  pose proof (lookup_lt_Some _ _ _ Hx). rewrite (proj2 (Nat.leb_gt _ _)) by lia. rewrite Hx. cbn [mbind option_bind].
  apply lookup_lt_is_Some in Hj as [y Hy]. rewrite Hy. cbn [mbind option_bind andb]. cbn in Hf.
  assert ((0 < length rv)%nat) as Hpos by (destruct rv; [done | cbn; lia]).
  assert (∀ j y, rv !! j = Some y → v_inst y = v_inst x →
    (y0 ← rv !! j; a ← v_value x; b ← v_value y0; v ← f a b;
     rest ← join_loop fuel f true true lv rv (S i) (if (length rv <=? S j)%nat then O else S j) n (k + 1);
     Some (mkVal (v_inst x) (Some v) :: rest)) = join_both f (x :: rest) rv) as Hemit.
  { intros j' y' Hy' E. rewrite Hy'. cbn [mbind option_bind join_both]. pose proof (partner_at rv j' y' Hnd Hy') as Hp. rewrite E in Hp.
    rewrite Hp. unfold apply_to. destruct (v_value x) as [a|]; [| done]. destruct (v_value y') as [b|]; [| done]. cbn [mbind option_bind].
    destruct (f a b) as [v|]; [| done]. cbn [mbind option_bind].
    rewrite (IH rest); [done | done | lia | destruct (Nat.leb_spec (length rv) (S j')); lia |].
    rewrite matched_cons, bool_decide_eq_true_2 in Hk by by eapply partner_in. cbn in Hk. lia. }
  destruct (Z.eqb_spec (v_inst x) (v_inst y)) as [E|E]; cbn [negb]; [by eapply Hemit |].
  pose proof (index_of_partner (v_inst x) rv) as Hi. destruct (index_of (v_inst x) rv) as [j'|].
  - destruct Hi as (y' & Hy' & _ & E'). by eapply Hemit.
  - cbn [join_both]. rewrite Hi. apply IH; [done | lia | done |]. rewrite matched_cons in Hk. case_bool_decide; cbn in Hk; lia.
Qed.
Lemma join_left_cons f x lv y :
  join_left f (x :: lv) y = (v ← apply_to f x y; rest ← join_left f lv y; Some (mkVal (v_inst x) (Some v) :: rest)).
Proof. unfold join_left. cbn [mapM]. by destruct (apply_to f x y). Qed.
Lemma join_right_cons f x y rv :
  join_right f x (y :: rv) = (v ← apply_to f x y; rest ← join_right f x rv; Some (mkVal (v_inst y) (Some v) :: rest)).
Proof. unfold join_right. cbn [mapM]. by destruct (apply_to f x y). Qed.
Lemma join_loop_left f lv y rv n fuel rest i k :
  drop i lv = rest → (length rest < fuel)%nat → k + zlen rest = n →
  join_loop fuel f true false lv (y :: rv) i 0 n k = join_left f rest y.
Proof.
  revert rest i k. induction fuel as [|fuel IH]; intros rest i k Hr Hf Hk; [lia |]. cbn [join_loop].
  destruct rest as [|x rest]; [by rewrite (proj2 (Z.leb_le _ _)) by (cbn in Hk; lia) |]. cbn in Hk, Hf.
  assert (lv !! i = Some x) as Hx by (rewrite <- (Nat.add_0_r i), <- lookup_drop, Hr; done).
  assert (drop (S i) lv = rest) as Hr' by (rewrite <- Nat.add_1_r, <- drop_drop, Hr; done).
  pose proof (lookup_lt_Some _ _ _ Hx). rewrite (proj2 (Z.leb_gt _ _)), (proj2 (Nat.leb_gt _ _)) by lia.
  cbn [orb length Nat.leb]. rewrite Hx. cbn [mbind option_bind andb lookup list_lookup].
  rewrite join_left_cons. unfold apply_to. destruct (v_value x) as [a|]; [| done]. cbn [mbind option_bind].
  destruct (v_value y) as [b|]; [| done]. cbn [mbind option_bind]. destruct (f a b) as [v|]; [| done]. cbn [mbind option_bind]. rewrite (IH rest); [done | done | lia | lia].
Qed.
Lemma join_loop_right f x lv rv n fuel rest j k :
  drop j rv = rest → (length rest < fuel)%nat → k + zlen rest = n →
  join_loop fuel f false true (x :: lv) rv 0 j n k = join_right f x rest.
Proof.
  revert rest j k. induction fuel as [|fuel IH]; intros rest j k Hr Hf Hk; [lia |]. cbn [join_loop].
  destruct rest as [|y rest]; [by rewrite (proj2 (Z.leb_le _ _)) by (cbn in Hk; lia) |]. cbn in Hk, Hf.
  assert (rv !! j = Some y) as Hy by (rewrite <- (Nat.add_0_r j), <- lookup_drop, Hr; done).
  assert (drop (S j) rv = rest) as Hr' by (rewrite <- Nat.add_1_r, <- drop_drop, Hr; done).
  pose proof (lookup_lt_Some _ _ _ Hy). rewrite (proj2 (Z.leb_gt _ _)) by lia. cbn [length Nat.leb orb].
  rewrite (proj2 (Nat.leb_gt _ _)) by lia. rewrite Hy. cbn [mbind option_bind andb lookup list_lookup]. rewrite Hy. cbn [mbind option_bind].
  rewrite join_right_cons. unfold apply_to. destruct (v_value x) as [a|]; [| done]. cbn [mbind option_bind].
  destruct (v_value y) as [b|]; [| done]. cbn [mbind option_bind].
  destruct (f a b) as [v|]; [| done]. cbn [mbind option_bind]. rewrite (IH rest); [done | done | lia | lia].
Qed.
Lemma join_loop_single f x lv y rv n fuel m k :
  (m < fuel)%nat → k + Z.of_nat m = n →
  join_loop fuel f false false (x :: lv) (y :: rv) 0 0 n k = join_right f x (replicate m y).
Proof.
  revert m k. induction fuel as [|fuel IH]; intros m k Hf Hk; [lia |]. cbn [join_loop].
  destruct m as [|m]; [by rewrite (proj2 (Z.leb_le _ _)) by lia |]. rewrite (proj2 (Z.leb_gt _ _)) by lia.
  cbn [length Nat.leb orb mbind option_bind andb lookup list_lookup replicate].
  rewrite join_right_cons. unfold apply_to. destruct (v_value x) as [a|]; [| done]. cbn [mbind option_bind].
  destruct (v_value y) as [b|]; [| done]. cbn [mbind option_bind].
  destruct (f a b) as [v|]; [| done]. cbn [mbind option_bind]. rewrite (IH m); [done | lia | lia].
Qed.
(** How many entries the loop makes room for. *)
Definition join_room (ln rn : bool) (nl nr : Z) : Z := if negb ln then nr else if negb rn then nl else Z.min nl nr.
Lemma join_loop_join f ln rn lv rv :
  lv ≠ [] → rv ≠ [] → (ln = true → rn = true → NoDup (insts lv) ∧ NoDup (insts rv)) →
  join_loop (S (length lv + length rv)) f ln rn lv rv 0 0 (join_room ln rn (zlen lv) (zlen rv)) 0 = join f ln rn lv rv.
Proof.
  intros Hl Hr Hnd. destruct ln, rn; unfold join_room, join; cbn [negb].
  - destruct (Hnd eq_refl eq_refl) as [H1 H2]. pose proof (matched_bounds lv rv H1).
    apply join_loop_both; [done | done | done | lia | destruct rv; [done | cbn; lia] | lia].
  - destruct rv as [|y rv]; [done |]. cbn [head mbind option_bind]. apply join_loop_left; [done | cbn; lia | lia].
  - destruct lv as [|x lv]; [done |]. destruct rv as [|y rv]; [done |]. cbn [head mbind option_bind].
    apply join_loop_right; [done | cbn; lia | lia].
  - destruct lv as [|x lv]; [done |]. destruct rv as [|y rv]; [done |]. cbn [head mbind option_bind].
    rewrite (const_fmap _ _ y) by done. apply join_loop_single; cbn; lia.
Qed.
Lemma mapM_insts (g : val_t → option val_t) l out : (∀ x y, g x = Some y → v_inst y = v_inst x) → mapM g l = Some out → insts out = insts l.
Proof.
  intros Hg E%mapM_Some. induction E as [|x y l out Hx _ IH]; [done |]. cbn. f_equal; [by apply Hg | exact IH].
Qed.
Lemma join_insts f ln rn lv rv out :
  join f ln rn lv rv = Some out →
  insts out = if ln then if rn then matched lv rv else insts lv
              else if rn then insts rv else replicate (length rv) (from_option v_inst 0 (head rv)).
Proof.
  destruct ln, rn; unfold join; [apply join_both_length | ..].
  - destruct (head rv) as [y|]; [| done]. cbn [mbind option_bind]. apply mapM_insts.
    intros x z E. destruct (apply_to f x y); [| done]. by injection E as <-.
  - destruct (head lv) as [x|]; [| done]. destruct (head rv); [| done]. cbn [mbind option_bind]. apply mapM_insts.
    intros y' z E. destruct (apply_to f x y'); [| done]. by injection E as <-.
  - destruct (head lv) as [x|]; [| done]. destruct (head rv) as [y|]; [| done]. cbn [mbind option_bind from_option].
    intros E. apply mapM_insts in E; [rewrite E, (const_fmap _ _ y) by done; unfold insts; by rewrite fmap_replicate |].
    intros y' z E'. destruct (apply_to f x y'); [| done]. by injection E' as <-.
Qed.
Lemma join_length f ln rn lv rv out :
  (ln = true → rn = true → NoDup (insts lv)) → join f ln rn lv rv = Some out → zlen out <= join_room ln rn (zlen lv) (zlen rv).
Proof.
  intros Hn E%join_insts. apply (f_equal length) in E. unfold insts in E. rewrite length_fmap in E. unfold join_room.
  destruct ln, rn; cbn [negb]; rewrite ?length_fmap, ?length_replicate in E; [| lia ..].
  pose proof (matched_bounds lv rv (Hn eq_refl eq_refl)). lia.
Qed.
Lemma delta_loop_join ty last k l :
  NoDup (insts last) → last ≠ [] → delta_loop ty last (zlen last) k l = join_both (compute ty L_MINUS) l last.
Proof.
  intros Hn Hne. revert k. induction l as [|x l IH]; intros k; [done |]. cbn [delta_loop join_both].
  set (j := if zlen last <=? Z.of_nat k then O else k).
  assert ((j < length last)%nat) as Hj.
  { assert (0 < length last)%nat by (destruct last; [done | cbn; lia]). unfold j. destruct (Z.leb_spec (zlen last) (Z.of_nat k)); lia. }
  apply lookup_lt_is_Some in Hj as [y Hy]. rewrite Hy. cbn [mbind option_bind].
  rewrite Nat2Z.id, firstn_all. fold (partner (v_inst x) last).
  destruct (Z.eqb_spec (v_inst x) (v_inst y)) as [E|E].
  - rewrite E, (partner_at last j y Hn Hy). unfold apply_to. destruct (v_value x) as [a|]; [| done]. cbn [mbind option_bind].
    destruct (v_value y) as [b|]; [| done]. cbn [mbind option_bind]. destruct (compute ty L_MINUS a b); [| done]. cbn [mbind option_bind]. by rewrite IH.
  - destruct (partner (v_inst x) last) as [z|]; [| by apply IH]. unfold apply_to. destruct (v_value x) as [a|]; [| done]. cbn [mbind option_bind].
    destruct (v_value z) as [b|]; [| done]. cbn [mbind option_bind]. destruct (compute ty L_MINUS a b); [| done]. cbn [mbind option_bind]. by rewrite IH.
Qed.
End DeriveEval.
