(* ===== verification/DeriveSound.v ===== *)
(** The evaluation of derived metrics is sound: what the values of an expression are, and
    that the code computes them, with its arrays of values in order, whatever results
    come in, as long as the arguments of functions have values. *)
From S2P Require Import Prelude Memory Text Types PmnsTree ValueBlock PduResult Derive DeriveBind DeriveEval.
From stdpp Require Import gmap.
Import Derive.Derive DeriveBind.DeriveBind DeriveEval.DeriveEval.
Local Open Scope Z_scope.

Module DeriveSound.

(** ** Ownership of arrays *)

Definition addrs_of (i : info_t) : list nat := option_list (ivlist i) ++ option_list (last_ivlist i).
Fixpoint addrs (np : bnode) : list nat :=
  match np with BNULL => [] | Bound _ _ _ l r _ i => addrs_of i ++ addrs l ++ addrs r end.
Definition heap_ok (h : heap) : Prop := ∀ a, is_Some (arrays h !! a) → (a < next_array h)%nat.
Definition owns (A : list nat) (h : heap) : Prop := heap_ok h ∧ NoDup A ∧ ∀ a, a ∈ A → is_Some (arrays h !! a).
(** From the arrays [A] to the arrays [A'], leaving all others alone. *)
Record steps (A : list nat) (h : heap) (A' : list nat) (h' : heap) : Prop := {
  st_owns : owns A' h';
  st_next : (next_array h <= next_array h')%nat;
  st_new : ∀ a, a ∈ A' → a ∈ A ∨ (next_array h <= a)%nat;
  st_frame : ∀ a, (a < next_array h)%nat → a ∉ A → arrays h' !! a = arrays h !! a }.
Lemma steps_refl A h : owns A h → steps A h A h.
Proof. intros Ho. split; auto. Qed.
Lemma steps_trans A h A1 h1 A2 h2 : steps A h A1 h1 → steps A1 h1 A2 h2 → steps A h A2 h2.
Proof.
  intros [O1 N1 W1 F1] [O2 N2 W2 F2]. split; [done | lia | |].
  - intros a [Ha | Ha]%W2; [by apply W1 | right; lia].
  - intros a Ha Hn. rewrite F2; [by apply F1 | lia |]. intros [Ha1 | Ha1]%W1; [done | lia].
Qed.
Lemma steps_in A h A' h' B C : steps A h A' h' → owns (B ++ A ++ C) h → steps (B ++ A ++ C) h (B ++ A' ++ C) h'.
Proof.
  intros [(Hh' & Hn' & Hp') N W F] (Hh & Hn & Hp).
  assert (∀ a, (a ∈ B ∨ a ∈ C) → (a ∉ A) ∧ is_Some (arrays h !! a)) as HBC.
  { intros a Ha. split; [| apply Hp; rewrite !elem_of_app; tauto]. intros HA. apply NoDup_app in Hn as (_ & H1 & Hn).
    apply NoDup_app in Hn as (_ & H2 & _). destruct Ha as [Ha | Ha]; [apply (H1 a Ha); by apply elem_of_app; left | by apply (H2 a)]. }
  assert (∀ a, (a ∈ B ∨ a ∈ C) → (a ∉ A') ∧ is_Some (arrays h' !! a)) as HBC'.
  { intros a Ha. destruct (HBC a Ha) as [HA Hs]. pose proof (Hh a Hs). split; [| by rewrite F].
    intros [HA' | HA']%W; [done | lia]. }
  split; [split_and!; [done | | ] | done | | ].
  - apply NoDup_app in Hn as (HB & H1 & Hn). apply NoDup_app in Hn as (HA & H2 & HC). apply NoDup_app. split_and!; [done | |].
    + intros a Ha [HA' | HC']%elem_of_app; [by apply (HBC' a (or_introl Ha)) | apply (H1 a Ha), elem_of_app; by right].
    + apply NoDup_app. split_and!; [done | | done]. intros a HA' HC'. by apply (HBC' a (or_intror HC')).
  - intros a. rewrite !elem_of_app. intros [Ha | [Ha | Ha]]; [apply HBC'; auto | by apply Hp' | apply HBC'; auto].
  - intros a. rewrite !elem_of_app. intros [Ha | [[Ha | Ha]%W | Ha]]; auto.
  - intros a Ha. rewrite !elem_of_app. intros Hnot. apply F; [done | tauto].
Qed.
Lemma owns_app A B h : owns (A ++ B) h → owns A h ∧ owns B h.
Proof.
  intros (Hh & Hn & Hp). apply NoDup_app in Hn as (HA & _ & HB).
  split; (split_and!; [done | done |]); intros a Ha; apply Hp, elem_of_app; auto.
Qed.
(** [holds p h l]: the array at [p] has the entries [l], and room for one at least. *)
Definition holds (p : option nat) (h : heap) (l : list val_t) : Prop :=
  ∃ a b, p = Some a ∧ arrays h !! a = Some b ∧ a_vals b = l ∧ zlen l <= a_room b.
Lemma holds_at p h l : holds p h l → array_at p h = Some l.
Proof. intros (a & b & -> & E & <- & _). unfold array_at. cbn. by rewrite E. Qed.
Lemma holds_frame p h l A A' h' : holds p h l → (∀ a, p = Some a → a ∉ A) → steps A h A' h' → heap_ok h → holds p h' l.
Proof.
  intros (a & b & -> & E & Hl) Hn [_ _ _ F] Hh. exists a, b. split; [done |]. split; [| done]. rewrite F; [done | | by apply Hn].
  apply Hh. by rewrite E.
Qed.

(** What the operations on arrays do. *)
Lemma new_array_ok n l h : heap_ok h → zlen l <= n →
  ∃ a h', new_array n l h = Some (a, h') ∧ steps [] h [a] h' ∧ holds (Some a) h' l.
Proof.
  intros Hh Hl. unfold new_array, malloc, fill. cbn. rewrite lookup_insert_eq. cbn [mbind option_bind a_room].
  rewrite (proj2 (Z.leb_le _ _)) by done. eexists _, _. split; [done |]. rewrite insert_insert_eq. split.
  - split; cbn.
    + split_and!; [| apply NoDup_singleton |].
      * intros a [x Hx]. cbn in *. destruct (decide (a = next_array h)) as [->|]; [lia |]. rewrite lookup_insert_ne in Hx by done.
        specialize (Hh a ltac:(by eexists)). lia.
      * intros a ->%list_elem_of_singleton. cbn. by rewrite lookup_insert_eq.
    + lia.
    + intros a ->%list_elem_of_singleton. by right.
    + intros a Ha _. rewrite lookup_insert_ne by lia. done.
  - exists (next_array h), (mkArray n l). cbn. rewrite lookup_insert_eq. by split_and!.
Qed.
Lemma free_ok p h : owns (option_list p) h → ∃ h', free p h = Some h' ∧ steps (option_list p) h [] h'.
Proof.
  intros (Hh & Hn & Hp). destruct p as [a|]; cbn.
  - destruct (Hp a) as [b Hb]; [by left |]. rewrite Hb. cbn [mbind option_bind]. eexists. split; [done |]. split; cbn.
    + split_and!; [| constructor | by intros x Hx%elem_of_nil]. intros x [y Hy]. cbn in *. apply lookup_delete_Some in Hy as [_ Hy]. apply Hh. by eexists.
    + lia.
    + by intros x Hx%elem_of_nil.
    + intros x _ Hx. apply lookup_delete_ne. intros ->. apply Hx. by left.
  - eexists. split; [done |]. apply steps_refl. split_and!; [done | constructor | by intros x Hx%elem_of_nil].
Qed.
Lemma fill_ok a b l h : heap_ok h → arrays h !! a = Some b → zlen l <= a_room b →
  ∃ h', fill a l h = Some h' ∧ steps [a] h [a] h' ∧ holds (Some a) h' l.
Proof.
  intros Hh Hb Hl. unfold fill. rewrite Hb. cbn [mbind option_bind]. rewrite (proj2 (Z.leb_le _ _)) by done.
  eexists. split; [done |]. assert ((a < next_array h)%nat) by (apply Hh; by eexists). split.
  - split; cbn.
    + split_and!; [| apply NoDup_singleton |].
      * intros x [y Hy]. cbn in *. destruct (decide (x = a)) as [->|]; [done |]. rewrite lookup_insert_ne in Hy by done. apply Hh. by eexists.
      * intros x ->%list_elem_of_singleton. cbn. by rewrite lookup_insert_eq.
    + lia.
    + intros x Hx. by left.
    + intros x _ Hx. rewrite lookup_insert_ne; [done |]. intros ->. apply Hx. by left.
  - exists a, (mkArray (a_room b) l). cbn. by rewrite lookup_insert_eq.
Qed.

(** ** The values of an expression *)

Definition number (v : option str) : val_t :=
  mkVal (s32 PM_INDOM_NULL) (Some (Word32 (u32 (Z.min LONG_MAX (span_digits (default [] v) 0).1)))).
(** What the argument of a function was at its last evaluation. *)
Definition past (np : bnode) (h : heap) : list val_t := default [] (array_at (ivlist (binfo np)) h).
Definition metric_values (d : pmDesc) (p : Z) (rp : list pmValueSet) : option (Z + list val_t) :=
  match find (λ vs, vpmid vs =? p) rp with
  | None => Some (inl PM_ERR_PMID)
  | Some vs => if numval vs <? 0 then Some (inl (numval vs)) else extract_all (dtype d) (valfmt vs) (vlist vs)
  end.
Definition function_values (t : lex_t) (d ld : pmDesc) (vals last : list val_t) : option (list val_t) :=
  match t with
  | L_ANON => Some []
  | L_DELTA => join_both (compute (dtype d) L_MINUS) vals last
  | L_COUNT => Some [mkVal (s32 PM_IN_NULL) (Some (Word32 (u32 (zlen vals))))]
  | _ => c ← aggr_loop t (dtype d) (dtype ld) (zlen vals) true (aggr_zero t (dtype d) None) vals; Some [mkVal (s32 PM_IN_NULL) c]
  end.
Definition operator_values (t : lex_t) (d : pmDesc) (l r : bnode) (lv rv : list val_t) : option (list val_t) :=
  let li := binfo l in let ri := binfo r in
  if bool_decide (lv = []) || bool_decide (rv = []) then Some []
  else join (λ a b, bin_op (dtype d) t a (dtype (bdesc l)) (mul_scale li) (div_scale li) b (dtype (bdesc r)) (mul_scale ri) (div_scale ri))
         (has_indom (bdesc l)) (has_indom (bdesc r)) lv rv.
(** The meaning of an expression for the result of a fetch: an error or its values. *)
Fixpoint meaning (np : bnode) (rp : list pmValueSet) (h : heap) : option (Z + list val_t) :=
  match np with
  | BNULL => None
  | Bound t d s l r v i =>
      match t with
      | L_NUMBER => Some (inr [number v])
      | L_NAME => metric_values d (ipmid i) rp
      | L_ANON => Some (inr [])
      | _ =>
          lv ← meaning l rp h;
          match lv with
          | inl e => Some (inl e)
          | inr lv =>
              match r with
              | BNULL => vals ← function_values t d (bdesc l) lv (past l h); Some (inr vals)
              | _ =>
                  rv ← meaning r rp h;
                  match rv with
                  | inl e => Some (inl e)
                  | inr rv => vals ← operator_values t d l r lv rv; Some (inr vals)
                  end
              end
          end
      end
  end.

(** The result of a fetch fits an expression: every operand is there, with values of its
    type for different instances, and with some values when it is a function's argument. *)
Definition vset_fits (d : pmDesc) (vs : pmValueSet) : Prop :=
  zlen (vlist vs) = Z.max 0 (numval vs) ∧ (∃ l, extract_all (dtype d) (valfmt vs) (vlist vs) = Some (inr l)) ∧ NoDup (inst <$> vlist vs).
Fixpoint fits (rp : list pmValueSet) (np : bnode) : Prop :=
  match np with
  | BNULL => True
  | Bound t d s l r _ i =>
      (t = L_NAME → ∃ vs, find (λ vs, vpmid vs =? ipmid i) rp = Some vs ∧ vset_fits d vs ∧ (s = true → 0 < numval vs))
      ∧ fits rp l ∧ fits rp r
  end.

Definition val_typed (ty : Z) (x : val_t) : Prop := ∃ a, v_value x = Some a ∧ atom_typed ty a.
Lemma extract_typed ty fmt v a : extract ty fmt v = Some (inr a) → atom_typed ty a.
Proof.
  unfold extract, atom_typed. intros E.
  destruct (is_word32 ty) eqn:E1; [destruct v; [by injection E as <-; eexists | done] |]. cbn [orb].
  destruct (is_word64 ty || (ty =? PM_TYPE_DOUBLE)) eqn:E2.
  { assert ((ty =? PM_TYPE_FLOAT) = false) as ->.
    { unfold is_word64, PM_TYPE_64, PM_TYPE_U64, PM_TYPE_DOUBLE, PM_TYPE_FLOAT in *. lia. }
    destruct v as [|p]; [done |]. destruct (get_word64 (vbuf p)); [| done]. injection E as <-. by eexists. }
  clear E1 E2. destruct (ty =? PM_TYPE_FLOAT).
  { destruct v as [l|p]; [destruct (fmt =? PM_VAL_INSITU); [by injection E as <-; eexists | done] |].
    destruct (_ || _); [done |]. destruct (get_word32 (vbuf p)); [| done]. injection E as <-. by eexists. }
  destruct (ty =? PM_TYPE_STRING); [destruct v; [done | by injection E as <-; eexists] |].
  destruct (_ || _); [destruct v; [done | by injection E as <-; eexists] | done].
Qed.
Lemma extract_all_ok ty fmt l out : extract_all ty fmt l = Some (inr out) → Forall (val_typed ty) out ∧ insts out = inst <$> l.
Proof.
  revert out. induction l as [|x l IH]; intros out; cbn [extract_all]; [by intros [= <-] |].
  destruct (extract ty fmt (val x)) as [[e|a]|] eqn:E; [done | | done]. cbn [mbind option_bind].
  destruct (extract_all ty fmt l) as [[e|rest]|]; [done | | done]. cbn [mbind option_bind]. intros [= <-].
  destruct (IH rest eq_refl) as [H1 H2]. split; [| cbn; f_equal; exact H2].
  constructor; [| done]. exists a. split; [done |]. by eapply extract_typed.
Qed.
Lemma metric_fits d p rp vs : find (λ vs, vpmid vs =? p) rp = Some vs → vset_fits d vs →
  ∃ m, metric_values d p rp = Some m ∧
    match m with inl e => e = numval vs ∧ e < 0 | inr l => zlen l = numval vs ∧ Forall (val_typed (dtype d)) l ∧ NoDup (insts l)
      ∧ extract_all (dtype d) (valfmt vs) (vlist vs) = Some (inr l) end.
Proof.
  intros E (Hlen & (l & Hl) & Hn). unfold metric_values. rewrite E. destruct (Z.ltb_spec (numval vs) 0); [by eexists |].
  exists (inr l). split; [done |]. destruct (extract_all_ok _ _ _ _ Hl) as [Ht Hi]. split_and!; [| done | by rewrite Hi | done].
  apply (f_equal length) in Hi. unfold insts in Hi. rewrite !length_fmap in Hi. lia.
Qed.

(** ** The state of a node *)

(** The arrays [A] are the same. *)
Definition kept (A : list nat) (h h' : heap) : Prop := ∀ a, a ∈ A → arrays h' !! a = arrays h !! a.
Lemma kept_refl A h : kept A h h.
Proof. by intros a _. Qed.
Lemma kept_trans A h1 h2 h3 : kept A h1 h2 → kept A h2 h3 → kept A h1 h3.
Proof. intros H1 H2 a Ha. by rewrite (H2 a Ha), (H1 a Ha). Qed.
Lemma kept_sub A B h h' : kept A h h' → (∀ a, a ∈ B → a ∈ A) → kept B h h'.
Proof. intros H Hs a Ha. by apply H, Hs. Qed.
Lemma kept_steps A B h A' h' : steps A h A' h' → owns B h → (∀ a, a ∈ B → a ∉ A) → kept B h h'.
Proof. intros Hs (Hh & _ & Hp) Hd a Ha. apply (st_frame _ _ _ _ Hs); [by apply Hh, Hp | by apply Hd]. Qed.
Lemma holds_same p h l A h' : holds p h l → (∀ a, p = Some a → a ∈ A) → kept A h h' → holds p h' l.
Proof. intros (a & b & -> & E & Hl) Hi Hk. exists a, b. split; [done |]. split; [| done]. by rewrite Hk by by apply Hi. Qed.
Lemma array_same p h A h' : (∀ a, p = Some a → a ∈ A) → kept A h h' → array_at p h' = array_at p h.
Proof. intros Hi Hk. unfold array_at. destruct p as [a|]; [| done]. cbn. by rewrite Hk by by apply Hi. Qed.
Lemma owns_disjoint A B h : owns (A ++ B) h → ∀ a, a ∈ B → a ∉ A.
Proof. intros (_ & Hn & _) a Hb Ha. apply NoDup_app in Hn as (_ & Hd & _). by apply (Hd a). Qed.
Lemma steps_new A n l h : owns A h → zlen l <= n →
  ∃ a h', new_array n l h = Some (a, h') ∧ steps A h (a :: A) h' ∧ holds (Some a) h' l ∧ kept A h h'.
Proof.
  intros Ho Hl. pose proof Ho as [Hh _]. destruct (new_array_ok n l h Hh Hl) as (a & h' & E & Hs & Hl').
  exists a, h'. split; [done |]. split; [apply (steps_in [] h [a] h' [] A); [done | exact Ho] |]. split; [done |].
  eapply kept_steps; [exact Hs | done |]. intros x _ Hx%elem_of_nil. done.
Qed.
Lemma steps_free_l p A h : owns (option_list p ++ A) h →
  ∃ h', free p h = Some h' ∧ steps (option_list p ++ A) h A h' ∧ kept A h h'.
Proof.
  intros Ho. pose proof Ho as [Hp HA]%owns_app. destruct (free_ok p h Hp) as (h' & E & Hs). exists h'. split; [done |].
  split; [by apply (steps_in (option_list p) h [] h' [] A) |].
  eapply kept_steps; [exact Hs | done |]. by eapply owns_disjoint.
Qed.
Lemma steps_free_r p A h : owns (A ++ option_list p) h →
  ∃ h', free p h = Some h' ∧ steps (A ++ option_list p) h A h' ∧ kept A h h'.
Proof.
  intros Ho. pose proof Ho as [HA Hp]%owns_app. destruct (free_ok p h Hp) as (h' & E & Hs). exists h'. split; [done |].
  split; [pose proof (steps_in (option_list p) h [] h' A [] Hs) as H; rewrite !app_nil_r in H; by apply H |].
  eapply kept_steps; [exact Hs | done |]. intros a Ha Hx. by eapply owns_disjoint.
Qed.
Lemma steps_fill A a l l' h : owns A h → a ∈ A → holds (Some a) h l → zlen l' <= Z.max 1 (zlen l) → (∃ b, arrays h !! a = Some b ∧ 1 <= a_room b) →
  ∃ h', fill a l' h = Some h' ∧ steps A h A h' ∧ holds (Some a) h' l'.
Proof.
  intros Ho Ha (a' & b & [= <-] & Hb & <- & Hr) Hl (b' & Hb' & Hroom). rewrite Hb in Hb'. injection Hb' as <-.
  pose proof Ho as [Hh _]. destruct (fill_ok a b l' h Hh Hb) as (h' & E & Hs & Hl'); [lia |]. exists h'. split; [done |]. split; [| done].
  apply list_elem_of_split in Ha as (B & C & ->). by apply (steps_in [a] h [a] h' B C).
Qed.

Definition node_ok (t : lex_t) (d : pmDesc) (s : bool) (v : option str) (i : info_t) (h : heap) : Prop :=
  match t with
  | L_NUMBER => inumval i = 0 ∧ ivlist i = None ∨ inumval i = 1 ∧ holds (ivlist i) h [number v]
  | L_NAME =>
      s = true → inumval i = 0 ∧ ivlist i = None ∨
        ∃ l, holds (ivlist i) h l ∧ zlen l = inumval i ∧ NoDup (insts l) ∧ Forall (val_typed (dtype d)) l
  | L_AVG | L_COUNT | L_SUM | L_MAX | L_MIN => ivlist i = None ∨ ∃ x, holds (ivlist i) h [x] ∧ v_inst x = s32 PM_IN_NULL
  | L_ANON => inumval i = 0 ∧ ivlist i = None
  | _ => True
  end.
Fixpoint nodes_ok (np : bnode) (h : heap) : Prop :=
  match np with BNULL => True | Bound t d s l r v i => node_ok t d s v i h ∧ nodes_ok l h ∧ nodes_ok r h end.
(** A node shows the values [L]. *)
Definition shows (i : info_t) (h : heap) (L : list val_t) : Prop := inumval i = zlen L ∧ (L ≠ [] → holds (ivlist i) h L).
Definition same_info (i i' : info_t) : Prop := ipmid i' = ipmid i ∧ mul_scale i' = mul_scale i ∧ div_scale i' = div_scale i.
Definition status (m : Z + list val_t) : Z := match m with inl e => e | inr l => zlen l end.

(** Arrays that a step leaves alone. *)
Lemma holds_kept p h l A h' A' : holds p h l → (∀ a, p = Some a → a ∉ A) → steps A h A' h' → owns A h → holds p h' l.
Proof. intros H1 H2 H3 [H4 _]. by eapply holds_frame. Qed.
Lemma node_ok_frame t d s v i h A h' A' :
  node_ok t d s v i h → (∀ a, a ∈ addrs_of i → a ∉ A) → steps A h A' h' → owns A h → node_ok t d s v i h'.
Proof.
  intros H Hd Hs Ho. assert (∀ a, ivlist i = Some a → a ∉ A) as Hiv by (intros a E; apply Hd; unfold addrs_of; rewrite E; by left).
  destruct t; try done; cbn in *.
  - destruct H as [H | [H1 H2]]; [by left | right]. split; [done |]. by eapply holds_kept.
  - intros E. destruct (H E) as [H0 | (l & H1 & H2)]; [by left | right]. exists l. split; [by eapply holds_kept | done].
  - destruct H as [H | (x & H1 & H2)]; [by left | right]. exists x. split; [by eapply holds_kept | done].
  - destruct H as [H | (x & H1 & H2)]; [by left | right]. exists x. split; [by eapply holds_kept | done].
  - destruct H as [H | (x & H1 & H2)]; [by left | right]. exists x. split; [by eapply holds_kept | done].
  - destruct H as [H | (x & H1 & H2)]; [by left | right]. exists x. split; [by eapply holds_kept | done].
  - destruct H as [H | (x & H1 & H2)]; [by left | right]. exists x. split; [by eapply holds_kept | done].
Qed.
Lemma nodes_ok_frame np h A h' A' :
  nodes_ok np h → (∀ a, a ∈ addrs np → a ∉ A) → steps A h A' h' → owns A h → nodes_ok np h'.
Proof.
  intros H Hd Hs Ho. induction np as [|t d s l IHl r IHr v i]; [done |]. cbn in *. destruct H as (H1 & H2 & H3). split_and!.
  - eapply node_ok_frame; [done | | done | done]. intros a Ha. apply Hd, elem_of_app. by left.
  - apply IHl; [done |]. intros a Ha. apply Hd. rewrite !elem_of_app. auto.
  - apply IHr; [done |]. intros a Ha. apply Hd. rewrite !elem_of_app. auto.
Qed.

(** ** Operands *)

Lemma new_array_split n l h a h' : new_array n l h = Some (a, h') → fill (next_array h) l (snd (malloc n h)) = Some h' ∧ a = next_array h.
Proof. unfold new_array. cbn [malloc snd]. destruct (fill _ l _) as [h1|]; [| done]. cbn. by intros [= <- <-]. Qed.
Lemma eval_name_ok d s v i rp h vs :
  find (λ vs, vpmid vs =? ipmid i) rp = Some vs → vset_fits d vs → (s = true → 0 < numval vs) →
  owns (addrs_of i) h → node_ok L_NAME d s v i h →
  ∃ m i' h', metric_values d (ipmid i) rp = Some m ∧ eval_name d s i rp h = Some (status m, i', h') ∧
    steps (addrs_of i) h (addrs_of i') h' ∧ node_ok L_NAME d s v i' h' ∧ same_info i i' ∧
    match m with
    | inl e => e < 0
    | inr L => shows i' h' L ∧ Forall (val_typed (dtype d)) L ∧ NoDup (insts L) ∧
        (s = true → L ≠ [] ∧ last_numval i' = zlen (default [] (array_at (ivlist i) h)) ∧
           (default [] (array_at (ivlist i) h) ≠ [] → holds (last_ivlist i') h' (default [] (array_at (ivlist i) h))))
    end.
Proof.
  intros E Hf Hpos Ho Hn. destruct (metric_fits d (ipmid i) rp vs E Hf) as (m & Em & Hm). exists m. unfold eval_name, free_ivlist. rewrite E.
  destruct s.
  - specialize (Hpos eq_refl). specialize (Hn eq_refl). destruct m as [e|L]; [lia |]. destruct Hm as (Hlen & Ht & Hnd & Hx).
    unfold addrs_of in Ho. destruct (steps_free_r (last_ivlist i) _ h Ho) as (h1 & -> & S1 & K1). cbn [mbind option_bind].
    rewrite (proj2 (Z.leb_gt _ _)) by done. pose proof (st_owns _ _ _ _ S1) as O1.
    destruct (steps_new _ (numval vs) L h1 O1) as (a & h2 & E2 & S2 & H2 & K2); [lia |]. apply new_array_split in E2 as [E2 ->].
    cbn [malloc snd] in E2 |- *. destruct Hf as (Hvl & _ & _). rewrite (proj2 (Z.ltb_ge _ _)) by lia.
    rewrite firstn_all2 by lia. rewrite Hx. cbn [mbind option_bind]. rewrite E2. cbn [mbind option_bind].
    eexists _, _. split; [done |]. split; [cbn [status]; by rewrite Hlen |].
    split; [by eapply steps_trans |]. split; [| split; [done |]].
    + intros _. right. exists L. by split_and!.
    + split_and!; [by split | done | done |]. intros _. split; [intros ->; cbn in Hlen; lia |]. cbn.
      destruct Hn as [[H0 Hnone] | (l & Hl & Hll & _)]; [by rewrite Hnone; cbn; rewrite H0 |].
      rewrite (holds_at _ _ _ Hl). cbn. split; [done |]. intros _.
      eapply holds_same; [exact Hl | | by eapply kept_trans]. intros a ->. by left.
  - unfold addrs_of in Ho. destruct (steps_free_l (ivlist i) _ h Ho) as (h1 & -> & S1 & K1). cbn [mbind option_bind].
    destruct m as [e|L].
    { destruct Hm as [-> Hneg]. rewrite (proj2 (Z.leb_le _ _)) by lia. eexists _, _. split; [done |]. split; [done |]. by split. }
    destruct Hm as (Hlen & Ht & Hnd & Hx). destruct (Z.leb_spec (numval vs) 0).
    { assert (L = []) as -> by (destruct L; [done | cbn in Hlen; lia]). cbn in Hlen. rewrite <- Hlen. eexists _, _. split; [done |]. split; [done |].
      split; [done |]. split; [done |]. split; [done |]. by split_and!. }
    pose proof (st_owns _ _ _ _ S1) as O1.
    destruct (steps_new _ (numval vs) L h1 O1) as (a & h2 & E2 & S2 & H2 & K2); [lia |]. apply new_array_split in E2 as [E2 ->].
    cbn [malloc snd] in E2 |- *. destruct Hf as (Hvl & _ & _). rewrite (proj2 (Z.ltb_ge _ _)) by lia.
    rewrite firstn_all2 by lia. rewrite Hx. cbn [mbind option_bind]. rewrite E2. cbn [mbind option_bind].
    eexists _, _. split; [done |]. split; [cbn [status]; by rewrite Hlen |].
    split; [by eapply steps_trans |]. split; [done |]. split; [done |]. by split_and!.
Qed.

(** ** The other nodes *)

Definition typed_values (d : pmDesc) (L : list val_t) : Prop :=
  Forall (val_typed (dtype d)) L ∧ (has_indom d = true → NoDup (insts L)).
Lemma eval_number_ok v i h : owns (addrs_of i) h → node_ok L_NUMBER (constant PM_TYPE_U32) false v i h →
  ∃ i' h', eval_number v i h = Some (1, i', h') ∧ steps (addrs_of i) h (addrs_of i') h' ∧
    (inumval i' = 1 ∧ holds (ivlist i') h' [number v]) ∧ same_info i i'.
Proof.
  intros Ho [[H0 Hn] | [H1 Hl]]; unfold eval_number.
  - rewrite H0. cbn [Z.eqb]. destruct (steps_new _ 1 [number v] h Ho) as (a & h' & E & S & Hl & _); [done |].
    unfold number in E. rewrite E. cbn [mbind option_bind]. eexists _, _. split; [done |]. unfold addrs_of in *. rewrite Hn in *. by split_and!.
  - rewrite H1. cbn [Z.eqb]. eexists _, _. split; [done |]. split; [by apply steps_refl |]. by split_and!.
Qed.

(** The entry of an aggregate function, as it is before the values are looked at. *)
Lemma eval_aggr_entry i h : owns (addrs_of i) h →
  (ivlist i = None ∨ ∃ x, holds (ivlist i) h [x] ∧ v_inst x = s32 PM_IN_NULL) →
  ∃ a x h', match ivlist i with
            | None => new_array 1 [mkVal (s32 PM_IN_NULL) None] h
            | Some a => Some (a, h)
            end = Some (a, h') ∧ steps (addrs_of i) h (addrs_of (set_values 1 (Some a) i)) h' ∧
    holds (Some a) h' [x] ∧ v_inst x = s32 PM_IN_NULL.
Proof.
  intros Ho [Hn | (x & Hl & Hx)].
  - rewrite Hn. destruct (steps_new _ 1 [mkVal (s32 PM_IN_NULL) None] h Ho) as (a & h' & E & S & Hl & _); [done |].
    exists a, (mkVal (s32 PM_IN_NULL) None), h'. unfold addrs_of in *. rewrite Hn in *. by split_and!.
  - destruct Hl as (a & b & E & Hb). rewrite E. exists a, x, h. unfold addrs_of in *. cbn [ivlist set_values last_ivlist]. rewrite E in *.
    split_and!; [done | by apply steps_refl | by exists a, b | done].
Qed.
Lemma fill_entry i a x y h : owns (addrs_of (set_values 1 (Some a) i)) h → holds (Some a) h [x] →
  ∃ h', fill a [y] h = Some h' ∧
    steps (addrs_of (set_values 1 (Some a) i)) h (addrs_of (set_values 1 (Some a) i)) h' ∧ holds (Some a) h' [y].
Proof.
  intros Ho Hl. eapply steps_fill; [done | by left | exact Hl | cbn; lia |].
  destruct Hl as (a' & b & [= <-] & Hb & E & Hr). exists b. split; [done |]. cbn in Hr. lia.
Qed.
Definition is_aggr (t : lex_t) : bool :=
  bool_decide (t = L_AVG) || bool_decide (t = L_SUM) || bool_decide (t = L_MAX) || bool_decide (t = L_MIN).
Definition aggr_type (t : lex_t) (ty : Z) : Z := if bool_decide (t = L_AVG) then PM_TYPE_FLOAT else ty.
(** Whether the value so far is used. *)
Definition aggr_uses (t : lex_t) (first : bool) : bool := bool_decide (t = L_AVG) || bool_decide (t = L_SUM) || negb first.
Lemma to_single_typed ty a : arith ty = true → atom_typed ty a → is_Some (to_single ty a).
Proof. intros [-> | [-> | [-> | [-> | [-> | ->]]]]]%arith_cases [b ->]; by eexists. Qed.
Lemma less_typed ty a b : arith ty = true → atom_typed ty a → atom_typed ty b → is_Some (less ty a b).
Proof. intros [-> | [-> | [-> | [-> | [-> | ->]]]]]%arith_cases [x ->] [y ->]; by eexists. Qed.
Lemma aggr_step_typed t ty n first c a :
  is_aggr t = true → arith ty = true → atom_typed ty a →
  (aggr_uses t first = true → ∃ b, c = Some b ∧ atom_typed (aggr_type t ty) b) →
  ∃ r, aggr_step t (aggr_type t ty) ty n first c a = Some r ∧ atom_typed (aggr_type t ty) r.
Proof.
  intros Ht Ha Hty Hc. destruct t; try done; cbn -[aggr_type] in *.
  - destruct (Hc eq_refl) as (b & -> & [x ->]). destruct (to_single_typed ty a Ha Hty) as [y Hy]. cbn -[encode decode fadd of_int fdiv].
    rewrite Hy. eexists. split; [reflexivity |]. by eexists.
  - destruct first; [by exists a |]. destruct (Hc eq_refl) as (b & -> & Hb). cbn -[less].
    destruct (less_typed ty b a Ha Hb Hty) as [o Ho]. change (less (aggr_type L_MAX ty) b a) with (less ty b a). rewrite Ho. cbn.
    eexists. split; [done |]. by destruct o.
  - destruct first; [by exists a |]. destruct (Hc eq_refl) as (b & -> & Hb). cbn -[less].
    destruct (less_typed ty a b Ha Hty Hb) as [o Ho]. change (less (aggr_type L_MIN ty) a b) with (less ty a b). rewrite Ho. cbn.
    eexists. split; [done |]. by destruct o.
  - destruct (Hc eq_refl) as (b & -> & Hb). cbn -[compute]. apply (compute_typed ty L_PLUS b a); auto.
Qed.
Lemma aggr_loop_typed t ty n l first c :
  is_aggr t = true → arith ty = true → Forall (val_typed ty) l → (l ≠ [] ∨ first = false) →
  (aggr_uses t first = true → ∃ b, c = Some b ∧ atom_typed (aggr_type t ty) b) →
  ∃ a, aggr_loop t (aggr_type t ty) ty n first c l = Some (Some a) ∧ atom_typed (aggr_type t ty) a.
Proof.
  intros Ht Ha Hl. revert first c. induction Hl as [|x l (a & Hx & Hty) _ IH]; intros first c Hne Hc.
  { destruct Hne as [? | ->]; [done |]. destruct Hc as (a & -> & H); [unfold aggr_uses; by rewrite orb_true_r |]. by exists a. }
  cbn [aggr_loop]. rewrite Hx. cbn [mbind option_bind].
  destruct (aggr_step_typed t ty n first c a) as (r & -> & Hr); [done .. |]. cbn [mbind option_bind].
  apply IH; [by right |]. intros _. by exists r.
Qed.
(** For an argument with values it does not matter what the entry was. *)
Lemma aggr_loop_start t ty n l c c' :
  is_aggr t = true → arith ty = true → l ≠ [] →
  aggr_loop t (aggr_type t ty) ty n true (aggr_zero t (aggr_type t ty) c) l =
  aggr_loop t (aggr_type t ty) ty n true (aggr_zero t (aggr_type t ty) c') l.
Proof.
  intros Ht [-> | [-> | [-> | [-> | [-> | ->]]]]]%arith_cases Hl; destruct t; try done; by destruct l.
Qed.
Lemma aggr_zero_typed t ty c first : is_aggr t = true → arith ty = true → first = true →
  aggr_uses t first = true → ∃ b, aggr_zero t (aggr_type t ty) c = Some b ∧ atom_typed (aggr_type t ty) b.
Proof.
  intros Ht [-> | [-> | [-> | [-> | [-> | ->]]]]]%arith_cases -> Hu; destruct t; try done; eexists; (split; [reflexivity |]); by eexists.
Qed.
Lemma function_type t d : is_aggr t = true → dtype (function_desc t d) = aggr_type t (dtype d).
Proof. by destruct t. Qed.

(** What the functions do to their argument's values [L], of which there are some. *)
Lemma eval_aggr_ok t d li i h L :
  is_aggr t = true ∨ t = L_COUNT → t = L_COUNT ∨ arithmetic d = true →
  owns (addrs_of i) h → (ivlist i = None ∨ ∃ x, holds (ivlist i) h [x] ∧ v_inst x = s32 PM_IN_NULL) →
  shows li h L → (∀ a, ivlist li = Some a → a ∉ addrs_of i) → Forall (val_typed (dtype d)) L → L ≠ [] →
  ∃ x i' h', function_values t (function_desc t d) d L [] = Some [x] ∧
    eval_aggr t (function_desc t d) d li i h = Some (1, i', h') ∧ steps (addrs_of i) h (addrs_of i') h' ∧
    inumval i' = 1 ∧ holds (ivlist i') h' [x] ∧ v_inst x = s32 PM_IN_NULL ∧ val_typed (dtype (function_desc t d)) x ∧ same_info i i'.
Proof.
  intros Ht Har Ho Hi [Hn Hs] Hd Hty Hne. specialize (Hs Hne). unfold eval_aggr.
  destruct (eval_aggr_entry i h Ho Hi) as (a & x & h1 & -> & S1 & Hl & Hx). cbn [mbind option_bind].
  rewrite (holds_at _ _ _ Hl). cbn [mbind option_bind head]. rewrite Hx.
  assert (holds (ivlist li) h1 L) as Hs1 by (eapply holds_kept; [exact Hs | exact Hd | exact S1 | exact Ho]).
  pose proof (st_owns _ _ _ _ S1) as O1.
  destruct (bool_decide (t = L_COUNT)) eqn:Et.
  { apply bool_decide_eq_true_1 in Et as ->.
    destruct (fill_entry i a x (mkVal (s32 PM_IN_NULL) (Some (Word32 (u32 (inumval li))))) h1 O1 Hl) as (h2 & E & S2 & Hl2).
    rewrite E. cbn [mbind option_bind]. rewrite Hn in *. eexists _, _, _. split; [done |]. split; [done |].
    split; [by eapply steps_trans |]. split_and!; [done | exact Hl2 | done | | done]. eexists. split; [done |]. by eexists. }
  apply bool_decide_eq_false_1 in Et. destruct Ht as [Ht |]; [| done]. destruct Har as [| Har]; [done |].
  assert (inumval li <> 0 ∧ 0 <= inumval li) by (rewrite Hn; destruct L; [done | cbn; lia]).
  rewrite (proj2 (Z.leb_gt _ _)) by lia.
  assert (arithmetic (if bool_decide (t = L_AVG) then d else function_desc t d) = true) as ->.
  { by destruct t. }
  cbn [negb]. rewrite (holds_at _ _ _ Hs1). cbn [mbind option_bind]. rewrite Hn. rewrite Z.ltb_irrefl. rewrite Nat2Z.id, firstn_all.
  rewrite (function_type t d Ht).
  destruct (aggr_loop_typed t (dtype d) (zlen L) L true (aggr_zero t (aggr_type t (dtype d)) None)) as (c & Ec & Hc);
    [done | done | done | by left | by apply aggr_zero_typed |].
  rewrite (aggr_loop_start _ _ _ _ _ None), Ec by done. cbn [mbind option_bind].
  destruct (fill_entry i a x (mkVal (s32 PM_IN_NULL) (Some c)) h1 O1 Hl) as (h2 & E & S2 & Hl2).
  rewrite E. cbn [mbind option_bind]. exists (mkVal (s32 PM_IN_NULL) (Some c)). eexists _, _.
  split. { unfold function_values. rewrite (function_type t d Ht), Ec. by destruct t. }
  split; [done |]. split; [by eapply steps_trans |]. split_and!; [done | exact Hl2 | done | | done]. eexists. split; [done | exact Hc].
Qed.

(** Joins of typed values. *)
Section typed.
Context (f : atom → atom → option atom) (lty rty ty : Z).
Context (f_typed : ∀ a b, atom_typed lty a → atom_typed rty b → ∃ c, f a b = Some c ∧ atom_typed ty c).
Lemma apply_typed x y : val_typed lty x → val_typed rty y → ∃ c, apply_to f x y = Some c ∧ atom_typed ty c.
Proof. intros (a & Hx & Ha) (b & Hy & Hb). unfold apply_to. rewrite Hx, Hy. by apply f_typed. Qed.
Lemma join_both_typed lv rv : Forall (val_typed lty) lv → Forall (val_typed rty) rv →
  ∃ out, join_both f lv rv = Some out ∧ Forall (val_typed ty) out.
Proof.
  intros Hl Hr. induction Hl as [|x lv Hx _ (out & E & Ho)]; [by exists [] |]. cbn [join_both].
  destruct (partner (v_inst x) rv) as [y|] eqn:Ep; [| by exists out]. apply partner_Some in Ep as [Hy _].
  destruct (apply_typed x y) as (c & -> & Hc); [done | by eapply Forall_forall in Hr |]. rewrite E. cbn [mbind option_bind].
  eexists. split; [done |]. constructor; [by exists c | done].
Qed.
Lemma join_left_typed lv y : Forall (val_typed lty) lv → val_typed rty y → ∃ out, join_left f lv y = Some out ∧ Forall (val_typed ty) out.
Proof.
  intros Hl Hy. induction Hl as [|x lv Hx _ (out & E & Ho)]; [by exists [] |]. rewrite join_left_cons.
  destruct (apply_typed x y) as (c & -> & Hc); [done .. |]. cbn [mbind option_bind]. rewrite E. cbn [mbind option_bind].
  eexists. split; [done |]. constructor; [by exists c | done].
Qed.
Lemma join_right_typed x rv : val_typed lty x → Forall (val_typed rty) rv → ∃ out, join_right f x rv = Some out ∧ Forall (val_typed ty) out.
Proof.
  intros Hx Hr. induction Hr as [|y rv Hy _ (out & E & Ho)]; [by exists [] |]. rewrite join_right_cons.
  destruct (apply_typed x y) as (c & -> & Hc); [done .. |]. cbn [mbind option_bind]. rewrite E. cbn [mbind option_bind].
  eexists. split; [done |]. constructor; [by exists c | done].
Qed.
Lemma join_typed ln rn lv rv : lv ≠ [] → rv ≠ [] → Forall (val_typed lty) lv → Forall (val_typed rty) rv →
  ∃ out, join f ln rn lv rv = Some out ∧ Forall (val_typed ty) out.
Proof.
  intros Hl Hr H1 H2. pose proof H1 as H1'. pose proof H2 as H2'. destruct lv as [|x lv]; [done |]. destruct rv as [|y rv]; [done |].
  apply Forall_cons in H1' as [Hx _]. apply Forall_cons in H2' as [Hy _].
  destruct ln, rn; unfold join; cbn [head mbind option_bind].
  - by apply join_both_typed.
  - by apply join_left_typed.
  - by apply join_right_typed.
  - apply join_right_typed; [done |]. apply Forall_fmap. by apply Forall_true.
Qed.
End typed.
Lemma join_both_nil f lv : join_both f lv [] = Some [].
Proof. by induction lv. Qed.
Lemma join_both_NoDup f lv rv out : NoDup (insts lv) → join_both f lv rv = Some out → NoDup (insts out).
Proof. intros Hn ->%join_both_length. by apply NoDup_filter. Qed.

(** A list of values that is written into a new array with room for it. *)
Lemma fill_new A n l h : owns A h → zlen l <= n →
  ∃ h', fill (next_array h) l (malloc n h).2 = Some h' ∧ steps A h (next_array h :: A) h' ∧ holds (Some (next_array h)) h' l ∧ kept A h h'.
Proof.
  intros Ho Hl. destruct (steps_new A n l h Ho Hl) as (a & h' & E & S & H & K).
  apply new_array_split in E as [E ->]. by exists h'.
Qed.
Lemma array_malloc p n h l : heap_ok h → holds p h l → array_at p (malloc n h).2 = Some l.
Proof.
  intros Hh (a & b & -> & Hb & <- & _). unfold array_at, malloc. cbn. rewrite lookup_insert_ne; [by rewrite Hb |].
  specialize (Hh a ltac:(by eexists)). lia.
Qed.
Lemma eval_delta_ok d li i h L P :
  arithmetic d = true → owns (addrs_of i) h → shows li h L → Forall (val_typed (dtype d)) L → NoDup (insts L) →
  last_numval li = zlen P → (P ≠ [] → holds (last_ivlist li) h P) → Forall (val_typed (dtype d)) P → NoDup (insts P) →
  (∀ a, a ∈ addrs_of li → a ∉ addrs_of i) →
  ∃ V i' h', join_both (compute (dtype d) L_MINUS) L P = Some V ∧ eval_delta d false li i h = Some (zlen V, i', h') ∧
    steps (addrs_of i) h (addrs_of i') h' ∧ shows i' h' V ∧ Forall (val_typed (dtype d)) V ∧ NoDup (insts V) ∧ same_info i i'.
Proof.
  intros Ha Ho [Hn Hs] HtL HnL Hnp Hp HtP HnP Hd. unfold eval_delta, free_ivlist.
  destruct (join_both_typed (compute (dtype d) L_MINUS) (dtype d) (dtype d) (dtype d)) with L P as (V & EV & HtV); [| done | done |].
  { intros a b H1 H2. apply compute_typed; auto. }
  exists V. pose proof (join_both_length _ _ _ _ EV) as Hi. pose proof (matched_bounds L P HnL) as [Hb1 Hb2]. rewrite <- Hi in Hb1, Hb2.
  unfold insts in Hb1, Hb2. rewrite length_fmap in Hb1, Hb2. pose proof (join_both_NoDup _ _ _ _ HnL EV) as HnV.
  unfold addrs_of at 1 in Ho. destruct (steps_free_l (ivlist i) _ h Ho) as (h1 & -> & S1 & K1). cbn [mbind option_bind].
  pose proof (st_owns _ _ _ _ S1) as O1.
  rewrite Hn, Hnp. destruct (Z.leb_spec (Z.min (zlen L) (zlen P)) 0).
  { eexists _, _. split; [done |]. assert (V = []) as -> by (destruct V; [done | cbn in *; lia]).
    assert (Z.min (zlen L) (zlen P) = 0) as -> by lia. split; [done |]. split; [exact S1 |]. by split_and!. }
  assert (L ≠ [] ∧ P ≠ []) as [HneL HneP] by (split; intros ->; cbn in *; lia). specialize (Hs HneL). specialize (Hp HneP).
  assert (∀ p l, holds p h l → (∀ a, p = Some a → a ∈ addrs_of li) → holds p h1 l) as Hk.
  { intros p l Hl Hin. eapply holds_kept; [exact Hl | | exact S1 | exact Ho]. intros a E. by apply Hd, Hin. }
  assert (holds (ivlist li) h1 L) as Hs1 by (apply Hk; [done |]; intros a E; unfold addrs_of; rewrite E; by left).
  assert (holds (last_ivlist li) h1 P) as Hp1 by (apply Hk; [done |]; intros a E; unfold addrs_of; rewrite E; apply elem_of_app; right; by left).
  destruct (fill_new _ (Z.min (zlen L) (zlen P)) V h1 O1) as (h2 & E2 & S2 & H2 & _); [lia |].
  destruct (malloc _ h1) as [a h1'] eqn:Em. pose proof Em as Em'. injection Em' as Ea _. subst a.
  cbn [snd] in E2. pose proof O1 as [Hh1 _].
  pose proof (array_malloc _ (Z.min (zlen L) (zlen P)) _ _ Hh1 Hs1) as A1. pose proof (array_malloc _ (Z.min (zlen L) (zlen P)) _ _ Hh1 Hp1) as A2.
  rewrite Em in A1, A2. cbn [snd] in A1, A2. rewrite A1. cbn [mbind option_bind]. rewrite A2. cbn [mbind option_bind].
  rewrite Z.ltb_irrefl, Ha. cbn [negb]. rewrite Nat2Z.id, firstn_all, delta_loop_join by done. rewrite EV. cbn [mbind option_bind].
  rewrite E2. cbn [mbind option_bind]. eexists _, _. split; [done |]. split; [done |]. split; [by eapply steps_trans |]. by split_and!.
Qed.

(** ** Operators *)

Definition operator_type (t : lex_t) (d ld rd : pmDesc) : Prop :=
  arithmetic ld = true ∧ arithmetic rd = true ∧
  (dtype d = PM_TYPE_DOUBLE ∨ t ≠ L_SLASH ∧ dtype d = Z.max (dtype ld) (dtype rd)).
Lemma operator_arith t d ld rd : operator_type t d ld rd → arith (dtype d) = true ∧ dtype ld <= dtype d ∧ dtype rd <= dtype d.
Proof.
  unfold operator_type, arithmetic, arith, PM_TYPE_32, PM_TYPE_DOUBLE. intros ([H1%Z.leb_le H2%Z.leb_le]%andb_true_iff & [H3%Z.leb_le H4%Z.leb_le]%andb_true_iff & H).
  split; [apply andb_true_iff; rewrite !Z.leb_le |]; lia.
Qed.
Lemma bin_op_typed t d ld rd lm ldv rm rdv a b :
  is_op t = true → operator_type t d ld rd → atom_typed (dtype ld) a → atom_typed (dtype rd) b →
  ∃ c, bin_op (dtype d) t a (dtype ld) lm ldv b (dtype rd) rm rdv = Some c ∧ atom_typed (dtype d) c.
Proof.
  intros Hop Ht Ha Hb. destruct (operator_arith _ _ _ _ Ht) as (Hd & Hl & Hr). destruct Ht as (Hla & Hra & Hty). unfold bin_op.
  destruct (operand_typed (dtype d) (dtype ld) lm ldv a) as (x & -> & Hx); [done .. |].
  destruct (operand_typed (dtype d) (dtype rd) rm rdv b) as (y & -> & Hy); [done .. |]. cbn [mbind option_bind].
  apply compute_typed; [done | done | | done | done]. destruct Hty as [E | [Hn _]]; auto.
Qed.
Definition indom_of (d ld rd : pmDesc) : Prop := dindom d = dindom ld ∨ dindom d = dindom rd.
Lemma join_NoDup f d ld rd lv rv out :
  indom_of d ld rd → typed_values ld lv → typed_values rd rv → join f (has_indom ld) (has_indom rd) lv rv = Some out →
  has_indom d = true → NoDup (insts out).
Proof.
  intros Hi [_ Hl] [_ Hr] ->%join_insts Hd. destruct (has_indom ld) eqn:El.
  - destruct (has_indom rd); [by apply NoDup_filter, Hl | by apply Hl].
  - destruct (has_indom rd) eqn:Er; [by apply Hr |]. unfold has_indom in *. destruct Hi as [E | E]; rewrite E in Hd; congruence.
Qed.
Lemma eval_operator_ok t d l r i h lv rv :
  is_op t = true → operator_type t d (bdesc l) (bdesc r) → indom_of d (bdesc l) (bdesc r) → owns (addrs_of i) h →
  shows (binfo l) h lv → shows (binfo r) h rv → typed_values (bdesc l) lv → typed_values (bdesc r) rv →
  (∀ a, ivlist (binfo l) = Some a ∨ ivlist (binfo r) = Some a → a ∉ addrs_of i) →
  ∃ V i' h', operator_values t d l r lv rv = Some V ∧ eval_operator t d false l r i h = Some (zlen V, i', h') ∧
    steps (addrs_of i) h (addrs_of i') h' ∧ shows i' h' V ∧ typed_values d V ∧ same_info i i'.
Proof.
  intros Hop Hty Hi Ho [Hnl Hsl] [Hnr Hsr] Hl Hr Hd. unfold eval_operator, operator_values, free_ivlist.
  unfold addrs_of at 1 in Ho. destruct (steps_free_l (ivlist i) _ h Ho) as (h1 & -> & S1 & _). cbn [mbind option_bind].
  pose proof (st_owns _ _ _ _ S1) as O1. rewrite Hnl, Hnr.
  destruct (decide (lv = [])) as [-> | HneL].
  { cbn. eexists [], _, _. split; [done |]. split; [done |]. split; [exact S1 |]. split; [done |]. split; [| done]. split; [done |]. intros _. constructor. }
  destruct (decide (rv = [])) as [-> | HneR].
  { rewrite orb_true_r. cbn. rewrite orb_true_r. eexists [], _, _. split; [done |]. split; [done |]. split; [exact S1 |]. split; [done |].
    split; [| done]. split; [done |]. intros _. constructor. }
  specialize (Hsl HneL). specialize (Hsr HneR).
  assert ((zlen lv =? 0) || (zlen rv =? 0) = false) as -> by (destruct lv, rv; done).
  rewrite !bool_decide_eq_false_2 by done. cbn [orb]. fold (join_room (has_indom (bdesc l)) (has_indom (bdesc r)) (zlen lv) (zlen rv)).
  set (f := λ a b, bin_op _ _ a _ _ _ b _ _ _). set (n := join_room _ _ _ _).
  destruct (join_typed f (dtype (bdesc l)) (dtype (bdesc r)) (dtype d)) with (has_indom (bdesc l)) (has_indom (bdesc r)) lv rv as (V & EV & HV);
    [intros; by apply bin_op_typed | done | done | by destruct Hl | by destruct Hr |].
  exists V. pose proof (join_length f _ _ _ _ _ (λ E _, proj2 Hl E) EV) as Hlen. fold n in Hlen.
  assert (∀ p x, holds p h x → (∀ a, p = Some a → a ∉ addrs_of i) → holds p h1 x) as Hk.
  { intros p x Hx Hin. eapply holds_kept; [exact Hx | exact Hin | exact S1 | exact Ho]. }
  destruct (fill_new _ n V h1 O1 Hlen) as (h2 & E2 & S2 & H2 & _). pose proof O1 as [Hh1 _].
  pose proof (array_malloc _ n _ _ Hh1 (Hk _ _ Hsl (λ a E, Hd a (or_introl E)))) as A1.
  pose proof (array_malloc _ n _ _ Hh1 (Hk _ _ Hsr (λ a E, Hd a (or_intror E)))) as A2.
  destruct (malloc n h1) as [a h1'] eqn:Em. injection Em as Ea _. subst a. cbn [snd] in E2, A1, A2.
  rewrite A1. cbn [mbind option_bind]. rewrite A2. cbn [mbind option_bind]. rewrite !Z.ltb_irrefl. cbn [orb]. rewrite !Nat2Z.id, !firstn_all.
  subst n. rewrite join_loop_join; [| done | done | intros E1 E3; split; [by apply Hl | by apply Hr]].
  rewrite EV. cbn [mbind option_bind]. rewrite E2. cbn [mbind option_bind]. eexists _, _. split; [done |]. split; [done |].
  split; [by eapply steps_trans |]. split; [by split |]. split; [| done]. split; [done |]. by eapply join_NoDup.
Qed.

(** ** Expressions *)

(** What evaluation does not change. *)
Definition strip_info (i : info_t) : info_t := mkInfo (ipmid i) 0 (mul_scale i) (div_scale i) None 0 None.
Fixpoint strip (np : bnode) : bnode :=
  match np with BNULL => BNULL | Bound t d s l r v i => Bound t d s (strip l) (strip r) v (strip_info i) end.
Lemma strip_same i i' : same_info i i' → strip_info i' = strip_info i.
Proof. unfold strip_info. by intros (-> & -> & ->). Qed.
Lemma strip_bdesc n n' : strip n' = strip n → bdesc n' = bdesc n.
Proof. destruct n, n'; cbn; congruence. Qed.
Lemma strip_scales n n' : strip n' = strip n → mul_scale (binfo n') = mul_scale (binfo n) ∧ div_scale (binfo n') = div_scale (binfo n).
Proof. destruct n, n'; intros E; try done; cbn in *; unfold strip_info in E; injection E; intuition congruence. Qed.
Lemma strip_NULL n n' : strip n' = strip n → n ≠ BNULL → n' ≠ BNULL.
Proof. by destruct n, n'. Qed.
Lemma well_typed_strip n n' : well_typed n → strip n' = strip n → well_typed n'.
Proof.
  intros H. revert n'. induction H as [| | | |? ? ? ? ? ? ? ? IH1 ? IH2]; intros n' E.
  - destruct n' as [|t' d' s' [] [] v' i']; cbn in E; try done. injection E; clear E; intros; subst. constructor.
  - destruct n' as [|t' d' s' [] [] v' i']; cbn in E; try done. injection E; clear E; intros; subst. constructor.
  - destruct n' as [|t' d' s1 [|? ? ? [] [] ? ?] [] v1 i1]; cbn in E; try done. injection E; clear E; intros; subst. constructor.
  - destruct n' as [|t' d' s1 [|? ? ? [] [] ? ?] [] v1 i1]; cbn in E; try done. injection E; clear E; intros; subst. by constructor.
  - destruct n' as [|t' d' s1 l1 r1 v1 i1]; cbn in E; try done. injection E; clear E; intros; subst.
    constructor; rewrite ?(strip_bdesc _ l1), ?(strip_bdesc _ r1) by done; auto.
Qed.
Lemma fits_strip rp n n' : fits rp n → strip n' = strip n → fits rp n'.
Proof.
  revert n'. induction n as [|t d s l IHl r IHr v i]; intros [|t' d' s' l' r' v' i'] H E; try done. cbn in E. injection E; clear E; intros; subst. cbn in *.
  destruct H as (A1 & A2 & A3). split_and!; [| by apply IHl | by apply IHr]. assert (ipmid i' = ipmid i) as -> by congruence. done.
Qed.
Lemma meaning_kept rp np h h' : kept (addrs np) h h' → meaning np rp h' = meaning np rp h.
Proof.
  induction np as [|t d s l IHl r IHr v i]; intros K; [done |]. cbn [addrs] in K.
  assert (kept (addrs l) h h' ∧ kept (addrs r) h h') as [Kl Kr] by (split; intros a Ha; apply K; rewrite !elem_of_app; auto).
  assert (past l h' = past l h) as Hp.
  { unfold past. rewrite (array_same _ h (addrs l) h'); [done | | done]. intros a E. destruct l; [done |]. cbn in *. unfold addrs_of.
    rewrite E. by left. }
  cbn [meaning]. rewrite IHl, IHr, Hp by done. done.
Qed.
Lemma owns_iff A B h : (∀ a, a ∈ A ↔ a ∈ B) → NoDup B → owns A h → owns B h.
Proof. intros H Hn (Hh & _ & Hp). split_and!; [done | done |]. intros a Ha. by apply Hp, H. Qed.

Definition answers (np np' : bnode) (h : heap) (h' : heap) (m : Z + list val_t) : Prop :=
  steps (addrs np) h (addrs np') h' ∧ nodes_ok np' h' ∧ strip np' = strip np ∧
  match m with inl e => e < 0 | inr L => shows (binfo np') h' L ∧ typed_values (bdesc np) L end.
Lemma eval_expr_unary t d s l v i rp h : l ≠ BNULL →
  eval_expr (Bound t d s l BNULL v i) rp h =
    ('(sts, l, h) ← eval_expr l rp h;
     if sts <? 0 then Some (sts, Bound t d s l BNULL v i, h)
     else '(sts, i, h) ← eval_node t d s l BNULL v i rp h; Some (sts, Bound t d s l BNULL v i, h)).
Proof. by destruct l. Qed.
Lemma eval_expr_binary t d s l r v i rp h : l ≠ BNULL → r ≠ BNULL →
  eval_expr (Bound t d s l r v i) rp h =
    ('(sts, l, h) ← eval_expr l rp h;
     if sts <? 0 then Some (sts, Bound t d s l r v i, h)
     else
       '(sts, r, h) ← eval_expr r rp h;
       if sts <? 0 then Some (sts, Bound t d s l r v i, h)
       else '(sts, i, h) ← eval_node t d s l r v i rp h; Some (sts, Bound t d s l r v i, h)).
Proof. by destruct l, r. Qed.
(** A function of an argument [l1] whose values are [L], and were [P] before. *)
Lemma function_node_ok t d v i l1 rp h L P :
  is_fun t = true → t ≠ L_ANON → t = L_COUNT ∨ arithmetic d = true → l1 ≠ BNULL → bdesc l1 = d →
  owns (addrs_of i) h → node_ok t (function_desc t d) false v i h → (∀ a, a ∈ addrs_of (binfo l1) → a ∉ addrs_of i) →
  shows (binfo l1) h L → L ≠ [] → Forall (val_typed (dtype d)) L → NoDup (insts L) →
  last_numval (binfo l1) = zlen P → (P ≠ [] → holds (last_ivlist (binfo l1)) h P) → Forall (val_typed (dtype d)) P → NoDup (insts P) →
  ∃ V i2 h2, function_values t (function_desc t d) d L P = Some V ∧
    eval_node t (function_desc t d) false l1 BNULL v i rp h = Some (zlen V, i2, h2) ∧ steps (addrs_of i) h (addrs_of i2) h2 ∧
    node_ok t (function_desc t d) false v i2 h2 ∧ same_info i i2 ∧ shows i2 h2 V ∧ typed_values (function_desc t d) V.
Proof.
  intros Hf Hna Har Hl1 Hbd Ho Hn Hd Hs Hne Hty Hnd Hnp Hlp HtP HnP.
  assert (eval_node t (function_desc t d) false l1 BNULL v i rp h =
    if bool_decide (t = L_DELTA) then eval_delta (function_desc t d) false (binfo l1) i h
    else eval_aggr t (function_desc t d) d (binfo l1) i h) as -> by (rewrite <- Hbd; destruct l1; [done |]; by destruct t).
  case_bool_decide as Et.
  - subst t. destruct Har as [|Har]; [done |].
    destruct (eval_delta_ok (function_desc L_DELTA d) (binfo l1) i h L P) as (V & i2 & h2 & EV & Ev & S2 & Hs2 & Ht2 & Hn2 & Hsi2); try done.
    exists V, i2, h2. by split_and!.
  - destruct (eval_aggr_ok t d (binfo l1) i h L) as (x & i2 & h2 & EV & Ev & S2 & Hnv & Hl2 & Hx & Ht2 & Hsi2); try done.
    + destruct t; try done; auto.
    + by destruct t.
    + intros a E. apply Hd. unfold addrs_of. rewrite E. by left.
    + exists [x], i2, h2. split; [by destruct t |]. split; [done |]. split; [done |].
      split. { destruct t; try done; right; by exists x. }
      split; [done |]. split; [by split |]. split; [by apply Forall_singleton |]. intros _. apply NoDup_singleton.
Qed.
Lemma eval_function_ok t d v v' i i' rp h :
  is_fun t = true → t ≠ L_ANON → t = L_COUNT ∨ arithmetic d = true →
  let np := Bound t (function_desc t d) false (Bound L_NAME d true BNULL BNULL (Some v') i') BNULL v i in
  fits rp np → owns (addrs np) h → nodes_ok np h →
  ∃ m np' h', meaning np rp h = Some m ∧ eval_expr np rp h = Some (status m, np', h') ∧ answers np np' h h' m.
Proof.
  intros Hf Hna Har np (_ & (Hv & _) & _) Ho (Hn & (Hnl & _) & _). destruct (Hv eq_refl) as (vs & E & Hvs & Hpos). cbn in Ho.
  rewrite !app_nil_r in Ho. pose proof Ho as [Hoi Hol]%owns_app.
  destruct (eval_name_ok d true (Some v') i' rp h vs E Hvs Hpos Hol Hnl) as (m & i1 & h1 & Em & Ee & S1 & Hnl1 & Hsi & Hm).
  set (l := Bound L_NAME d true BNULL BNULL (Some v') i') in *. set (l1 := Bound L_NAME d true BNULL BNULL (Some v') i1).
  assert (eval_expr l rp h = Some (status m, l1, h1)) as El by (unfold l; cbn [eval_expr Z.ltb eval_node mbind option_bind]; by rewrite Ee).
  assert (meaning l rp h = Some m) as Ml by done.
  pose proof (steps_in _ _ _ _ (addrs_of i) [] S1) as S1'. rewrite !app_nil_r in S1'. specialize (S1' Ho).
  pose proof (st_owns _ _ _ _ S1') as O1. pose proof O1 as [O1i _]%owns_app.
  assert (node_ok t (function_desc t d) false v i h1) as Hn1.
  { eapply node_ok_frame; [exact Hn | | exact S1 | exact Hol]. intros a Ha Ha'. exact (owns_disjoint _ _ _ Ho a Ha' Ha). }
  destruct m as [e|L].
  { exists (inl e), (Bound t (function_desc t d) false l1 BNULL v i), h1. unfold np. rewrite eval_expr_unary by done. cbn [meaning]. rewrite El, Ml.
    cbn [mbind option_bind status] in *. rewrite (proj2 (Z.ltb_lt _ _)) by done. split; [by destruct t |]. split; [done |]. unfold answers. cbn.
    rewrite !app_nil_r. split; [exact S1' |]. split; [by split_and! |]. split; [| done]. by rewrite (strip_same _ _ Hsi). }
  destruct Hm as (Hs & Hty & Hnd & Hlast). destruct (Hlast eq_refl) as (Hne & Hnp & Hlp). set (P := default [] (array_at (ivlist i') h)) in *.
  assert (past l h = P) as HP by done.
  assert (Forall (val_typed (dtype d)) P ∧ NoDup (insts P)) as [HtP HnP].
  { destruct (Hnl eq_refl) as [[_ Hz] | (l0 & Hl0 & _ & Hn0 & Ht0)]; unfold P; [by rewrite Hz; split; constructor |].
    by rewrite (holds_at _ _ _ Hl0). }
  assert (∀ a, a ∈ addrs_of i1 → a ∉ addrs_of i) as Hdis by (by eapply owns_disjoint).
  assert (∃ V i2 h2, function_values t (function_desc t d) d L P = Some V ∧
    eval_node t (function_desc t d) false l1 BNULL v i rp h1 = Some (zlen V, i2, h2) ∧ steps (addrs_of i) h1 (addrs_of i2) h2 ∧
    node_ok t (function_desc t d) false v i2 h2 ∧ same_info i i2 ∧ shows i2 h2 V ∧ typed_values (function_desc t d) V)
    as (V & i2 & h2 & EV & Ev & S2 & Hn2 & Hsi2 & Hs2 & Ht2).
  { by apply (function_node_ok t d v i l1 rp h1 L P). }
  exists (inr V), (Bound t (function_desc t d) false l1 BNULL v i2), h2. unfold np. rewrite eval_expr_unary by done. cbn [meaning]. rewrite El, Ml.
  cbn [mbind option_bind status]. rewrite (proj2 (Z.ltb_ge _ _)) by lia. change (bdesc l) with d. rewrite HP, EV, Ev.
  split; [by destruct t |]. split; [done |]. unfold answers. cbn. rewrite !app_nil_r.
  split. { eapply steps_trans; [exact S1' |]. by apply (steps_in _ _ _ _ [] (addrs_of i1)). }
  split. { split; [done |]. split; [| done]. split; [| done]. exact (node_ok_frame L_NAME d true (Some v') i1 h1 _ _ _ Hnl1 Hdis S2 O1i). }
  split; [by rewrite (strip_same _ _ Hsi), (strip_same _ _ Hsi2) | done].
Qed.

Lemma eval_leaf_ok t d s v i rp h : eval_expr (Bound t d s BNULL BNULL v i) rp h =
  ('(sts, i, h) ← eval_node t d s BNULL BNULL v i rp h; Some (sts, Bound t d s BNULL BNULL v i, h)).
Proof. done. Qed.
Lemma owns_parts i l r h : owns (addrs_of i ++ addrs l ++ addrs r) h →
  owns (addrs_of i) h ∧ owns (addrs l) h ∧ owns (addrs r) h ∧
  (∀ a, a ∈ addrs l ∨ a ∈ addrs r → a ∉ addrs_of i) ∧ (∀ a, a ∈ addrs_of i ∨ a ∈ addrs r → a ∉ addrs l) ∧
  (∀ a, a ∈ addrs_of i ∨ a ∈ addrs l → a ∉ addrs r).
Proof.
  intros Ho. pose proof Ho as [Hi Hlr]%owns_app. pose proof Hlr as [Hl Hr]%owns_app.
  pose proof (owns_disjoint _ _ _ Ho) as D1. pose proof (owns_disjoint _ _ _ Hlr) as D2. split_and!; [done .. | | |].
  - intros a Ha. apply D1. by rewrite elem_of_app.
  - intros a [Ha | Ha] Hx; [apply (D1 a); [rewrite elem_of_app; by left | done] | by apply (D2 a)].
  - intros a [Ha | Ha] Hx; [apply (D1 a); [rewrite elem_of_app; by right | done] | by apply (D2 a)].
Qed.
Lemma ivlist_addrs n a : ivlist (binfo n) = Some a → a ∈ addrs n.
Proof. destruct n; [done |]. cbn. unfold addrs_of. intros ->. by left. Qed.
Lemma shows_frame n h h' A A' L : shows (binfo n) h L → (∀ a, a ∈ addrs n → a ∉ A) → steps A h A' h' → owns A h → shows (binfo n) h' L.
Proof.
  intros [Hn Hl] Hd Hs Ho. split; [done |]. intros Hne. eapply holds_kept; [by apply Hl | | exact Hs | exact Ho].
  intros a E. by apply Hd, ivlist_addrs.
Qed.
(** An expression evaluates to its meaning: nothing that was freed, is not set or is not
    there is used, and the values have the type and are of different instances. *)
Definition evaluates (rp : list pmValueSet) (np : bnode) : Prop := ∀ h, fits rp np → owns (addrs np) h → nodes_ok np h →
  ∃ m np' h', meaning np rp h = Some m ∧ eval_expr np rp h = Some (status m, np', h') ∧ answers np np' h h' m.
Lemma evaluates_name rp d s v i : evaluates rp (Bound L_NAME d s BNULL BNULL (Some v) i).
Proof.
  intros h (Hv & _) Ho [Hn _]. destruct (Hv eq_refl) as (vs & E & Hvs & Hpos). cbn in Ho. rewrite !app_nil_r in Ho.
  destruct (eval_name_ok d s (Some v) i rp h vs E Hvs Hpos Ho Hn) as (m & i1 & h1 & Em & Ee & S & Hn1 & Hsi & Hm).
  exists m. rewrite eval_leaf_ok. cbn [eval_node]. rewrite Ee. cbn [mbind option_bind]. eexists _, _. split; [exact Em |]. split; [done |].
  unfold answers. cbn. rewrite !app_nil_r. split; [done |]. split; [by split_and! |]. split; [by rewrite (strip_same _ _ Hsi) |].
  destruct m as [e|L]; [done |]. destruct Hm as (H1 & H2 & H3 & _). by split_and!.
Qed.
Lemma evaluates_number rp s v i : evaluates rp (Bound L_NUMBER (constant PM_TYPE_U32) s BNULL BNULL v i).
Proof.
  intros h _ Ho [Hn _]. cbn in Ho. rewrite !app_nil_r in Ho. destruct (eval_number_ok v i h Ho Hn) as (i1 & h1 & Ee & S & [H1 Hl] & Hsi).
  exists (inr [number v]). rewrite eval_leaf_ok. cbn [eval_node]. rewrite Ee. cbn [mbind option_bind]. eexists _, _. split; [done |]. split; [done |].
  unfold answers. cbn -[number]. rewrite !app_nil_r. split; [done |]. split; [split_and!; auto |]. split; [by rewrite (strip_same _ _ Hsi) |].
  split; [by split |]. split; [| intros; apply NoDup_singleton]. apply Forall_singleton. eexists. split; [done |]. by eexists.
Qed.
Lemma evaluates_anon rp ty s' v v' i i' :
  evaluates rp (Bound L_ANON (constant ty) false (Bound L_NUMBER (constant ty) s' BNULL BNULL v' i') BNULL v i).
Proof.
  intros h _ Ho [[Hz Hnone] [[Hn _] _]]. cbn in Ho. rewrite !app_nil_r in Ho. pose proof Ho as [_ Ho']%owns_app.
  destruct (eval_number_ok v' i' h Ho' Hn) as (i1 & h1 & Ee & S & [H1 Hl] & Hsi).
  exists (inr []). rewrite eval_expr_unary by done. rewrite eval_leaf_ok. cbn [eval_node]. rewrite Ee. cbn [mbind option_bind].
  eexists _, _. split; [done |]. split; [done |]. unfold answers. cbn -[number]. rewrite !app_nil_r.
  pose proof (steps_in _ _ _ _ (addrs_of i) [] S) as S'. rewrite !app_nil_r in S'. split; [by apply S' |].
  split; [split_and!; auto |]. split; [by rewrite (strip_same _ _ Hsi) |]. split; [by split |]. split; [constructor | intros; constructor].
Qed.
(** The operands have been evaluated. *)
Lemma operator_node_ok t d l r l1 r1 v i rp h lv rv :
  is_op t = true → operator_type t d (bdesc l) (bdesc r) → indom_of d (bdesc l) (bdesc r) → strip l1 = strip l → strip r1 = strip r →
  l1 ≠ BNULL → r1 ≠ BNULL → owns (addrs_of i ++ addrs l1 ++ addrs r1) h →
  shows (binfo l1) h lv → shows (binfo r1) h rv → typed_values (bdesc l) lv → typed_values (bdesc r) rv → nodes_ok l1 h → nodes_ok r1 h →
  ∃ V i2 h2, operator_values t d l r lv rv = Some V ∧ eval_node t d false l1 r1 v i rp h = Some (zlen V, i2, h2) ∧
    let np := Bound t d false l1 r1 v i2 in
    steps (addrs_of i ++ addrs l1 ++ addrs r1) h (addrs np) h2 ∧ nodes_ok np h2 ∧ strip_info i2 = strip_info i ∧ shows i2 h2 V ∧ typed_values d V.
Proof.
  intros Hop Hty Hin Sl Sr Hl0 Hr0 Ho Hsl Hsr Htl Htr Hnl Hnr. destruct (owns_parts _ _ _ _ Ho) as (Oi & _ & _ & D1 & _).
  rewrite <- (strip_bdesc _ _ Sl), <- (strip_bdesc _ _ Sr) in *.
  destruct (eval_operator_ok t d l1 r1 i h lv rv) as (V & i2 & h2 & EV & Ev & S2 & Hs2 & Ht2 & Hsi); try done.
  { intros a [E | E]; apply D1; [left | right]; by apply ivlist_addrs. }
  exists V, i2, h2. split.
  { revert EV. unfold operator_values. rewrite (strip_bdesc _ _ Sl), (strip_bdesc _ _ Sr).
    destruct (strip_scales _ _ Sl) as [-> ->], (strip_scales _ _ Sr) as [-> ->]. done. }
  split. { rewrite <- Ev. destruct l1, r1; try done. by destruct t. }
  split; [by apply (steps_in _ _ _ _ [] (addrs l1 ++ addrs r1)) |]. split; [| split; [by apply strip_same | done]].
  split; [by destruct t |]. split; eapply nodes_ok_frame; try exact S2; auto.
Qed.
Lemma evaluates_operator rp t d l r v i :
  is_op t = true → operator_type t d (bdesc l) (bdesc r) → indom_of d (bdesc l) (bdesc r) → l ≠ BNULL → r ≠ BNULL →
  evaluates rp l → evaluates rp r → evaluates rp (Bound t d false l r v i).
Proof.
  intros Hop Hty Hin Hl0 Hr0 IHl IHr h (_ & Hfl & Hfr) Ho (Hn & Hnl & Hnr). cbn in Ho.
  destruct (owns_parts _ _ _ _ Ho) as (Oi & Ol & Or & D1 & D2 & D3).
  destruct (IHl h Hfl Ol Hnl) as (ml & l1 & h1 & Ml & El & S1 & Hnl1 & Sl & Hml).
  pose proof (steps_in _ _ _ _ (addrs_of i) (addrs r) S1 Ho) as S1'. pose proof (st_owns _ _ _ _ S1') as O1.
  assert (nodes_ok r h1) as Hnr1 by (eapply nodes_ok_frame; [exact Hnr | | exact S1 | exact Ol]; auto).
  assert (meaning (Bound t d false l r v i) rp h =
    (lv ← meaning l rp h;
     match lv with inl e => Some (inl e) | inr lv =>
       rv ← meaning r rp h;
       match rv with inl e => Some (inl e) | inr rv => vals ← operator_values t d l r lv rv; Some (inr vals) end end)) as ->
    by (destruct r; [done |]; by destruct t).
  rewrite eval_expr_binary, El, Ml by done. cbn [mbind option_bind].
  destruct ml as [e|lv]; cbn [status].
  { rewrite (proj2 (Z.ltb_lt _ _)) by done. eexists _, _, _. split; [done |]. split; [done |]. split; [exact S1' |].
    split; [split; [by destruct t | by split] |]. split; [| done]. cbn. by rewrite Sl. }
  rewrite (proj2 (Z.ltb_ge _ _)) by lia. destruct Hml as [Hsl Htl]. destruct (owns_parts _ _ _ _ O1) as (_ & Ol1 & Or1 & _ & D2' & D3').
  destruct (IHr h1 Hfr Or1 Hnr1) as (mr & r1 & h2 & Mr & Er & S2 & Hnr2 & Sr & Hmr). rewrite Er.
  rewrite (meaning_kept _ _ h) in Mr by (eapply kept_steps; [exact S1 | exact Or | auto]). rewrite Mr. cbn [mbind option_bind].
  pose proof (steps_in _ _ _ _ (addrs_of i ++ addrs l1) [] S2) as S2'. rewrite !app_nil_r, <- !app_assoc in S2'. specialize (S2' O1).
  pose proof (st_owns _ _ _ _ S2') as O2. pose proof (steps_trans _ _ _ _ _ _ S1' S2') as S12.
  assert (nodes_ok l1 h2) as Hnl2 by (eapply nodes_ok_frame; [exact Hnl1 | | exact S2 | exact Or1]; auto).
  destruct mr as [e|rv]; cbn [status].
  { rewrite (proj2 (Z.ltb_lt _ _)) by done. eexists _, _, _. split; [done |]. split; [done |]. split; [exact S12 |].
    split; [split; [by destruct t | by split] |]. split; [| done]. cbn. by rewrite Sl, Sr. }
  rewrite (proj2 (Z.ltb_ge _ _)) by lia. destruct Hmr as [Hsr Htr].
  assert (shows (binfo l1) h2 lv) as Hsl2 by (eapply shows_frame; [exact Hsl | | exact S2 | exact Or1]; auto).
  destruct (operator_node_ok t d l r l1 r1 v i rp h2 lv rv) as (V & i3 & h3 & EV & Ev & S3 & Hn3 & Si & Hs3 & Ht3);
    try done; [by eapply strip_NULL | by eapply strip_NULL |].
  rewrite EV, Ev. cbn [mbind option_bind]. eexists _, _, _. split; [done |]. split; [done |]. split; [by eapply steps_trans |].
  split; [done |]. split; [| done]. cbn. by rewrite Sl, Sr, Si.
Qed.
Lemma well_typed_not_NULL np : well_typed np → np ≠ BNULL.
Proof. by destruct 1. Qed.
Lemma well_typed_evaluates rp np : well_typed np → evaluates rp np.
Proof.
  induction 1; [apply evaluates_name | apply evaluates_number | apply evaluates_anon | intros h; by apply eval_function_ok |].
  apply evaluates_operator; try done; by apply well_typed_not_NULL.
Qed.
End DeriveSound.
