(* ===== verification/DeriveFetch.v ===== *)
(** Fetches of derived metrics: the contexts that are in use keep their arrays of values
    in order, and what a client gets for a derived metric is the meaning of its
    expression. *)
From S2P Require Import Prelude Memory Text Types PmnsTree ValueBlock PduResult Derive DeriveBind DeriveEval DeriveSound.
From stdpp Require Import gmap.
Import Derive.Derive DeriveBind.DeriveBind DeriveEval.DeriveEval DeriveSound.DeriveSound.
Local Open Scope Z_scope.

Module DeriveFetch.

(** ** Tagged expressions *)

Lemma binfo_tag p np : binfo (tag p np) = binfo np.
Proof. by destruct np. Qed.
Lemma addrs_tag p np : addrs (tag p np) = addrs np.
Proof. by destruct np. Qed.
Lemma strip_tag p np : strip (tag p np) = tag p (strip np).
Proof. by destruct np. Qed.
Lemma fits_tag p rp np : fits rp (tag p np) ↔ fits rp np.
Proof. by destruct np. Qed.
Lemma nodes_ok_tag p np h : nodes_ok (tag p np) h ↔ nodes_ok np h.
Proof. by destruct np. Qed.
Lemma meaning_tag p np rp h : meaning (tag p np) rp h = meaning np rp h.
Proof. by destruct np. Qed.
Lemma eval_tag p np rp h :
  eval_expr (tag p np) rp h = ('(sts, np, h) ← eval_expr np rp h; Some (sts, tag p np, h)).
Proof.
  destruct np as [|t d s l r v i]; [done |]. unfold tag. cbn [set_bdesc bdesc eval_expr].
  destruct (match l with BNULL => _ | _ => _ end) as [[[sts l'] h']|]; [| done]. cbn [mbind option_bind]. destruct (sts <? 0); [done |].
  destruct (match r with BNULL => _ | _ => _ end) as [[[sts' r'] h'']|]; [| done]. cbn [mbind option_bind]. destruct (sts' <? 0); [done |].
  assert (eval_node t (set_dpmid p d) s l' r' v i rp h'' = eval_node t d s l' r' v i rp h'') as -> by by destruct t.
  by destruct (eval_node _ _ _ _ _ _ _ _ _) as [[[? ?] ?]|].
Qed.
Lemma checked_evaluates rp p e : checked p e → e ≠ BNULL → evaluates rp e.
Proof.
  intros [-> | (np & -> & Hw)] Hne h Hf Ho Hn; [done |]. rewrite addrs_tag in Ho. apply fits_tag in Hf. apply nodes_ok_tag in Hn.
  destruct (well_typed_evaluates rp np Hw h Hf Ho Hn) as (m & np' & h' & Hm & He & S & Hn' & Hs & Hv).
  exists m, (tag p np'), h'. rewrite meaning_tag, eval_tag, He. cbn. split; [done |]. split; [done |]. unfold answers.
  rewrite !addrs_tag, !strip_tag, Hs, nodes_ok_tag, binfo_tag. split; [done |]. split; [done |]. split; [done |]. by destruct np.
Qed.
Lemma checked_strip p e e' : checked p e → strip e' = strip e → checked p e'.
Proof.
  intros [-> | (np & -> & Hw)] Hs; [left; destruct e'; [done | cbn in Hs; discriminate] |]. right. rewrite strip_tag in Hs.
  assert (∃ np', e' = tag p np' ∧ strip np' = strip np) as (np' & -> & Hs').
  { destruct np as [|t d s l r v i]; [inversion Hw |]. destruct e' as [|t' d' s' l' r' v' i']; [done |].
    exists (Bound t' d s' l' r' v' i'). pose proof (f_equal bdesc Hs) as Hd. pose proof (f_equal (set_bdesc d) Hs) as Hs'.
    split; [| exact Hs']. unfold tag. cbn in *. by rewrite Hd. }
  exists np'. split; [done |]. by eapply well_typed_strip.
Qed.

(** ** The metrics of a context *)

Definition all_addrs (l : list bdm) : list nat := flat_map (λ m, addrs (bd_expr m)) l.
Record exprs_ok (l : list bdm) (h : heap) : Prop := {
  ok_checked : Forall (λ m, checked (bd_pmid m) (bd_expr m)) l;
  ok_owns : owns (all_addrs l) h;
  ok_nodes : Forall (λ m, nodes_ok (bd_expr m) h) l }.
Definition find_metric (p : Z) (l : list bdm) : option bdm := find (λ m, bd_pmid m =? p) l.

Lemma all_addrs_app l1 l2 : all_addrs (l1 ++ l2) = all_addrs l1 ++ all_addrs l2.
Proof. unfold all_addrs. by rewrite flat_map_app. Qed.
Lemma all_addrs_in m l a : m ∈ l → a ∈ addrs (bd_expr m) → a ∈ all_addrs l.
Proof. intros Hm Ha. apply list_elem_of_In, in_flat_map. exists m. split; by apply list_elem_of_In. Qed.
Lemma metric_split p l m : find_metric p l = Some m → ∃ l1 l2,
  l = l1 ++ m :: l2 ∧ bd_pmid m = p ∧ Forall (λ m, (bd_pmid m =? p) = false) l1.
Proof.
  unfold find_metric. induction l as [|x l IH]; [done |]. cbn. destruct (bd_pmid x =? p) eqn:E.
  - intros [= ->]. exists [], l. split_and!; [done | by apply Z.eqb_eq | constructor].
  - intros (l1 & l2 & -> & Hp & H1)%IH. exists (x :: l1), l2. split_and!; [done | done |]. by constructor.
Qed.
Lemma set_expr_split p e l1 m l2 : bd_pmid m = p → Forall (λ m, (bd_pmid m =? p) = false) l1 →
  set_expr p e (l1 ++ m :: l2) = l1 ++ mkBdm (bd_name m) p e :: l2.
Proof. intros <- H1. unfold set_expr. rewrite split_find_app; [done | done | apply Z.eqb_refl]. Qed.
Lemma find_set_expr p q e l : q ≠ p → find_metric q (set_expr p e l) = find_metric q l.
Proof.
  intros Hq. unfold set_expr. destruct (split_find _ l) as [[[l1 m] l2]|] eqn:E; [| done]. apply split_find_Some in E as (-> & E%Z.eqb_eq & _).
  unfold find_metric. induction l1 as [|x l1 IH]; cbn; [| by rewrite IH]. rewrite E. by rewrite (proj2 (Z.eqb_neq p q)).
Qed.
Lemma pmids_set_expr p e l : bd_pmid <$> set_expr p e l = bd_pmid <$> l.
Proof.
  unfold set_expr. destruct (split_find _ l) as [[[l1 m] l2]|] eqn:E; [| done]. apply split_find_Some in E as (-> & _). by rewrite !fmap_app.
Qed.

Lemma owns_metric l m h : owns (all_addrs l) h → m ∈ l → owns (addrs (bd_expr m)) h.
Proof.
  intros Ho (l1 & l2 & ->)%list_elem_of_split. rewrite all_addrs_app in Ho. apply owns_app in Ho as [_ Ho].
  change (all_addrs (m :: l2)) with (addrs (bd_expr m) ++ all_addrs l2) in Ho. by apply owns_app in Ho as [Ho _].
Qed.

(** One of the metrics is evaluated. *)
Lemma eval_metric l h rp p m :
  exprs_ok l h → find_metric p l = Some m → bd_expr m ≠ BNULL → fits rp (bd_expr m) →
  ∃ μ e h', meaning (bd_expr m) rp h = Some μ ∧ eval_expr (bd_expr m) rp h = Some (status μ, e, h') ∧
    exprs_ok (set_expr p e l) h' ∧ strip e = strip (bd_expr m) ∧
    (∀ q m', q ≠ p → find_metric q l = Some m' → kept (addrs (bd_expr m')) h h') ∧
    match μ with inl s => s < 0 | inr L => shows (binfo e) h' L ∧ typed_values (bdesc (bd_expr m)) L end.
Proof.
  intros [Hc Ho Hn] Hm Hne Hf. pose proof (λ m, owns_metric l m h Ho) as Hown. destruct (metric_split p l m Hm) as (l1 & l2 & -> & Hp & H1).
  pose proof Hc as [Hc1 [Hcm Hc2]%Forall_cons]%Forall_app. pose proof Hn as [Hn1 [Hnm Hn2]%Forall_cons]%Forall_app.
  rewrite all_addrs_app in Ho. change (all_addrs (m :: l2)) with (addrs (bd_expr m) ++ all_addrs l2) in Ho.
  pose proof Ho as [_ Ho2]%owns_app. pose proof Ho2 as [Hom _]%owns_app.
  assert (∀ a, a ∈ all_addrs l1 ∨ a ∈ all_addrs l2 → a ∉ addrs (bd_expr m)) as Hd.
  { intros a [Ha | Ha] Hx; [by eapply (owns_disjoint _ _ _ Ho a); [apply elem_of_app; left; exact Hx | exact Ha] | by eapply owns_disjoint]. }
  destruct (checked_evaluates rp _ _ Hcm Hne h Hf Hom Hnm) as (μ & e & h' & Em & Ee & S & Hne' & Hs & Hv).
  exists μ, e, h'. split; [done |]. split; [done |]. rewrite set_expr_split by done. split.
  { split.
    - apply Forall_app. split; [done |]. apply Forall_cons. split; [| done]. cbn. rewrite <- Hp. by eapply checked_strip.
    - rewrite all_addrs_app. by apply (st_owns _ _ _ _ (steps_in _ _ _ _ (all_addrs l1) (all_addrs l2) S Ho)).
    - assert (∀ l0, (∀ a, a ∈ all_addrs l0 → a ∉ addrs (bd_expr m)) → Forall (λ m, nodes_ok (bd_expr m) h) l0 →
        Forall (λ m, nodes_ok (bd_expr m) h') l0) as Hk.
      { intros l0 Hd0 H0. rewrite Forall_forall in H0 |- *. intros x Hx. eapply nodes_ok_frame; [by apply H0 | | exact S | exact Hom].
        intros a Ha. apply Hd0. by eapply all_addrs_in. }
      apply Forall_app. split; [apply Hk; auto |]. apply Forall_cons. split; [done | apply Hk; auto]. }
  split; [done |]. split; [| done]. intros q m' Hq Hm'. apply metric_split in Hm' as (k1 & k2 & Ek & Hp' & _).
  assert (m' ∈ l1 ∨ m' ∈ l2) as Hin.
  { assert (m' ∈ l1 ++ m :: l2) as H by (rewrite Ek; apply elem_of_app; right; by left).
    apply elem_of_app in H as [H | H]; [by left |]. apply elem_of_cons in H as [-> | H]; [congruence | by right]. }
  eapply kept_steps; [exact S | |].
  - apply Hown. rewrite elem_of_app, elem_of_cons. tauto.
  - intros a Ha. apply Hd. destruct Hin as [Hin | Hin]; [left | right]; by eapply all_addrs_in.
Qed.

(** ** The result of a fetch *)

(** A value set that is copied can be: the format says which values are there. *)
Definition copied (vs : pmValueSet) : option pmValueSet :=
  vals ← (if numval vs <=? 0 then Some []
          else if zlen (vlist vs) <? numval vs then None
          else mapM (copy_value (valfmt vs)) (take (Z.to_nat (numval vs)) (vlist vs)));
  Some (mkVset (vpmid vs) (numval vs) (valfmt vs) vals).
Definition copyable (vs : pmValueSet) : Prop := is_Some (copied vs).
Lemma copied_same vs : zlen (vlist vs) = Z.max 0 (numval vs) → copyable vs → copied vs = Some vs.
Proof.
  intros Hl [x Hx]. unfold copied in *. destruct vs as [p n f l]. cbn in *. destruct (Z.leb_spec n 0).
  - destruct l; [done | cbn in Hl; lia].
  - rewrite (proj2 (Z.ltb_ge _ _)) in Hx |- * by lia. rewrite firstn_all2 in Hx |- * by lia.
    destruct (mapM _ l) as [l'|] eqn:E; [| done]. cbn. do 2 f_equal. clear -E. apply mapM_Some in E.
    induction E as [|a b l l' Hab _ IH]; [done |]. f_equal; [| done]. unfold copy_value in Hab. repeat case_match; congruence.
Qed.
Definition value_format (ty : Z) : Z := if is_word32 ty then PM_VAL_INSITU else PM_VAL_DPTR.
(** What a client gets for a value set of the result [rp], as the specification says. *)
Definition delivered (l : list bdm) (rp : list pmValueSet) (h : heap) (vs : pmValueSet) : option pmValueSet :=
  match (if is_derived (vpmid vs) then find_metric (vpmid vs) l else None) with
  | None => copied vs
  | Some m =>
      match bd_expr m with
      | BNULL => Some (mkVset (vpmid vs) PM_ERR_PMID (valfmt vs) [])
      | e =>
          μ ← meaning e rp h;
          let ty := dtype (bdesc e) in
          vals ← match μ with inl _ => Some [] | inr L => mapM (result_value ty) L end;
          Some (mkVset (vpmid vs) (status μ) (value_format ty) vals)
      end
  end.
Lemma result_value_typed ty x : val_typed ty x → is_Some (result_value ty x).
Proof.
  intros (a & Ha & Ht). unfold result_value, atom_typed in *. rewrite Ha. cbn [mbind option_bind].
  destruct (is_word32 ty); [destruct Ht as [b ->]; by eexists |]. cbn [orb] in Ht.
  destruct (Z.eqb_spec ty PM_TYPE_FLOAT) as [->|]; [destruct Ht as [b ->]; by eexists |].
  destruct (is_word64 ty || (ty =? PM_TYPE_DOUBLE)); [destruct Ht as [b ->]; by eexists |].
  destruct (ty =? PM_TYPE_STRING); destruct Ht as [b ->]; by eexists.
Qed.
(** The results that a metric's expression can be evaluated on. *)
Definition fits_request (l : list bdm) (rp : list pmValueSet) (vs : pmValueSet) : Prop :=
  match (if is_derived (vpmid vs) then find_metric (vpmid vs) l else None) with
  | None => copyable vs
  | Some m => fits rp (bd_expr m)
  end.
Lemma result_values (μ : Z + list val_t) np e h :
  bdesc e = bdesc np → match μ with inl s => s < 0 | inr L => shows (binfo e) h L ∧ typed_values (bdesc np) L end →
  ∃ vals,
    (if status μ <=? 0 then Some []
     else vals ← array_at (ivlist (binfo e)) h;
          if zlen vals <? status μ then None else mapM (result_value (dtype (bdesc e))) (take (Z.to_nat (status μ)) vals)) = Some vals ∧
    match μ with inl _ => Some [] | inr L => mapM (result_value (dtype (bdesc np))) L end = Some vals.
Proof.
  intros -> Hv. destruct μ as [s|L]; cbn [status]; [rewrite (proj2 (Z.leb_le _ _)) by lia; by exists [] |].
  destruct Hv as [[_ Hs] [Ht _]]. destruct (decide (L = [])) as [-> | Hne]; [by exists [] |].
  rewrite (proj2 (Z.leb_gt _ _)) by (destruct L; [done | cbn; lia]). rewrite (holds_at _ _ _ (Hs Hne)). cbn [mbind option_bind].
  rewrite Z.ltb_irrefl, Nat2Z.id, firstn_all.
  assert (is_Some (mapM (result_value (dtype (bdesc np))) L)) as [vals Ev]; [| by exists vals].
  apply mapM_is_Some. eapply Forall_impl; [exact Ht |]. apply result_value_typed.
Qed.
Lemma rewrite_vset_ok l rp vs h : exprs_ok l h → fits_request l rp vs →
  ∃ new l' h', rewrite_vset l rp vs h = Some (new, l', h') ∧ delivered l rp h vs = Some new ∧ exprs_ok l' h' ∧
    (∀ q, q ≠ vpmid vs → find_metric q l' = find_metric q l) ∧
    (∀ q m', q ≠ vpmid vs → find_metric q l = Some m' → kept (addrs (bd_expr m')) h h') ∧ bd_pmid <$> l' = bd_pmid <$> l.
Proof.
  intros Hok. unfold fits_request, rewrite_vset, delivered. fold (find_metric (vpmid vs) l).
  destruct (if is_derived (vpmid vs) then find_metric (vpmid vs) l else None) as [m|] eqn:E.
  - intros Hf. assert (find_metric (vpmid vs) l = Some m) as Em by (destruct (is_derived (vpmid vs)); [done | discriminate]).
    destruct (bd_expr m) as [|t d s el er v i] eqn:Ee; [eexists _, _, _; by split_and! |]. rewrite <- Ee in *.
    destruct (eval_metric l h rp _ m Hok Em) as (μ & e & h' & Hm & He & Hok' & Hs & Hk & Hv); [by rewrite Ee | done |].
    destruct (result_values μ (bd_expr m) e h' (strip_bdesc _ _ Hs) Hv) as (vals & Ev & Ed).
    rewrite He, Hm. cbn [mbind option_bind]. rewrite Ev, Ed. cbn [mbind option_bind]. rewrite (strip_bdesc _ _ Hs).
    eexists _, _, _. split; [done |]. split; [done |]. split; [done |].
    split; [intros; by apply find_set_expr |]. split; [done | apply pmids_set_expr].
  - intros [x Hx]. unfold copied in *. destruct (if numval vs <=? 0 then _ else _) as [vals|]; [| done]. cbn [mbind option_bind] in *.
    eexists _, _, _. by split_and!.
Qed.
Lemma mapM_ext_in {A B} (f g : A → option B) l : (∀ x, x ∈ l → f x = g x) → mapM f l = mapM g l.
Proof.
  induction l as [|x l IH]; intros H; [done |]. cbn. rewrite (H x) by by left. rewrite IH; [done |]. intros y Hy. apply H. by right.
Qed.
Lemma rewrite_vsets_ok rp n : ∀ l rest h,
  exprs_ok l h → (n <= length rest)%nat → Forall (fits_request l rp) (take n rest) → NoDup (vpmid <$> take n rest) →
  ∃ new l' h', rewrite_vsets n l rp rest h = Some (new, l', h') ∧ mapM (delivered l rp h) (take n rest) = Some new ∧
    exprs_ok l' h' ∧ bd_pmid <$> l' = bd_pmid <$> l.
Proof.
  induction n as [|n IH]; intros l rest h Hok Hn Hf Hnd; [by eexists _, _, _ |].
  destruct rest as [|vs rest]; [cbn in Hn; lia |]. cbn in Hf, Hnd, Hn. apply Forall_cons in Hf as [Hf0 Hf]. apply NoDup_cons in Hnd as [Hnin Hnd].
  destruct (rewrite_vset_ok l rp vs h Hok Hf0) as (new & l1 & h1 & E & Ed & Hok1 & Hfind & Hk & Hp).
  assert (∀ x, x ∈ take n rest → vpmid x ≠ vpmid vs) as Hne.
  { intros x Hx Ex. apply Hnin. rewrite <- Ex. by apply list_elem_of_fmap_2. }
  destruct (IH l1 rest h1) as (news & l2 & h2 & E2 & Ed2 & Hok2 & Hp2); [done | lia | | done |].
  { rewrite Forall_forall in Hf |- *. intros x Hx. specialize (Hf x Hx). unfold fits_request in *. by rewrite Hfind by by apply Hne. }
  exists (new :: news), l2, h2. cbn [rewrite_vsets take]. rewrite E. cbn [mbind option_bind]. rewrite E2. cbn [mbind option_bind].
  split; [done |]. split; [| split; [done | congruence]]. cbn. rewrite Ed. cbn.
  assert (mapM (delivered l rp h) (take n rest) = mapM (delivered l1 rp h1) (take n rest)) as ->; [| by rewrite Ed2].
  apply mapM_ext_in. intros x Hx. unfold delivered. rewrite Hfind by by apply Hne. destruct (is_derived (vpmid x)); [| done].
  destruct (find_metric (vpmid x) l) as [m|] eqn:Em; [| done]. specialize (Hk _ m (Hne _ Hx) Em).
  destruct (bd_expr m); [done |]. by rewrite (meaning_kept rp _ h h1).
Qed.

(** ** The operands that are fetched *)

Lemma extras_spec l x : ∀ done, NoDup done → (∀ p, p ∈ done → p ∉ l) →
  NoDup (extras l x done) ∧ ∀ p, p ∈ extras l x done ↔ p ∈ done ∨ (p ∈ x ∧ p ∉ l).
Proof.
  induction x as [|q x IH]; intros dn Hn Hd; cbn [extras].
  { split; [done |]. intros p. rewrite elem_of_nil. tauto. }
  destruct (bool_decide (q ∈ l) || bool_decide (q ∈ dn)) eqn:E.
  - destruct (IH dn Hn Hd) as [H1 H2]. split; [done |]. intros p. rewrite H2, elem_of_cons.
    apply orb_true_iff in E as [E%bool_decide_eq_true_1 | E%bool_decide_eq_true_1]; (split; [tauto |]); intros [? | [[-> | ?] ?]]; tauto.
  - apply orb_false_iff in E as [E1%bool_decide_eq_false_1 E2%bool_decide_eq_false_1].
    destruct (IH (dn ++ [q])) as [H1 H2].
    + apply NoDup_app. split_and!; [done | | apply NoDup_singleton]. by intros p Hp ->%list_elem_of_singleton.
    + intros p [Hp | ->%list_elem_of_singleton]%elem_of_app; [by apply Hd | done].
    + split; [done |]. intros p. rewrite H2, elem_of_app, list_elem_of_singleton, elem_of_cons. split; [intros [[? | ->] | ?]; tauto |].
      intros [? | [[-> | ?] ?]]; tauto.
Qed.
Definition needed (c : context_dm) (l : list Z) (p : Z) : Prop := ∃ q e, q ∈ l ∧ bound_expr c q = Some e ∧ p ∈ get_pmids e.
Definition has_derived (c : context_dm) (l : list Z) : bool := negb (bool_decide (omap (bound_expr c) l = [])).
Lemma needed_in c l p : p ∈ flat_map get_pmids (omap (bound_expr c) l) ↔ needed c l p.
Proof.
  rewrite list_elem_of_In, in_flat_map. split.
  - intros (e & He%list_elem_of_In & Hp%list_elem_of_In). apply list_elem_of_omap in He as (q & Hq & He). by exists q, e.
  - intros (q & e & Hq & He & Hp). exists e. split; [| by apply list_elem_of_In]. apply list_elem_of_In, list_elem_of_omap. by exists q.
Qed.
Lemma prefetch_spec c l : ∃ nl x,
  __dmprefetch (Some c) l = (if has_derived c l then zlen (l ++ x) else 0, nl, Some (mkContextDm (c_mlist c) (has_derived c l) (zlen l))) ∧
  default l nl = l ++ x ∧ NoDup x ∧ ∀ p, p ∈ x ↔ needed c l p ∧ p ∉ l.
Proof.
  unfold __dmprefetch. fold (has_derived c l). set (xtra := flat_map get_pmids (omap (bound_expr c) l)).
  destruct (extras_spec l xtra [] (NoDup_nil_2)) as [H1 H2]; [by intros p Hp%elem_of_nil |].
  assert (∀ p, p ∈ extras l xtra [] ↔ needed c l p ∧ p ∉ l) as H by (intros p; rewrite H2, elem_of_nil; unfold xtra; rewrite needed_in; tauto).
  case_bool_decide as Ex.
  { exists None, []. rewrite app_nil_r. split; [done |]. split; [done |]. split; [constructor |]. intros p. rewrite <- H, Ex. done. }
  assert (has_derived c l = true) as Eh.
  { unfold has_derived. apply negb_true_iff, bool_decide_eq_false_2. intros E. apply Ex. unfold xtra. by rewrite E. }
  rewrite Eh. destruct (extras l xtra []) as [|p x] eqn:E.
  - exists None, []. rewrite app_nil_r. split; [done |]. split; [done |]. split; [constructor | exact H].
  - exists (Some (l ++ p :: x)), (p :: x). rewrite length_app, Nat2Z.inj_add. split; [done |]. by split.
Qed.

(** The value sets that the collector sends for the operands: values of the metric's type
    for different instances, some if the metric is the argument of a function. *)
Fixpoint agrees (rp : list pmValueSet) (np : bnode) : Prop :=
  match np with
  | BNULL => True
  | Bound t d s l r _ i =>
      (t = L_NAME → ∀ vs, find (λ vs, vpmid vs =? ipmid i) rp = Some vs → vset_fits d vs ∧ (s = true → 0 < numval vs))
      ∧ agrees rp l ∧ agrees rp r
  end.
Lemma find_present p (rp : list pmValueSet) : p ∈ vpmid <$> rp → ∃ vs, find (λ vs, vpmid vs =? p) rp = Some vs.
Proof.
  intros (vs & -> & Hvs%list_elem_of_In)%list_elem_of_fmap. destruct (find _ rp) as [x|] eqn:E; [by exists x |].
  eapply find_none in E; [| exact Hvs]. cbn in E. by rewrite Z.eqb_refl in E.
Qed.
Lemma agrees_fits rp np : agrees rp np → (∀ p, p ∈ get_pmids np → p ∈ vpmid <$> rp) → fits rp np.
Proof.
  induction np as [|t d s l IHl r IHr v i]; [done |]. cbn [agrees fits get_pmids]. intros (H1 & H2 & H3) Hp. split_and!.
  - intros ->. destruct (find_present (ipmid i) rp) as [vs E].
    { apply Hp. rewrite !elem_of_app. right. right. by left. }
    destruct (H1 eq_refl vs E). by exists vs.
  - apply IHl; [done |]. intros p Hi. apply Hp. rewrite !elem_of_app. auto.
  - apply IHr; [done |]. intros p Hi. apply Hp. rewrite !elem_of_app. auto.
Qed.
(** A reply to the request for [full]. *)
Record replies (c : context_dm) (full : list Z) (rp : list pmValueSet) : Prop := {
  re_pmids : vpmid <$> rp = full;
  re_copy : Forall copyable rp;
  re_agrees : ∀ p e, p ∈ full → bound_expr c p = Some e → agrees rp e }.

Section used.
Context (lookup : list byte → Z + Z) (desc : Z → Z + pmDesc).
(** The contexts of a program, which fetches different metrics at a time. *)
Inductive used : context_dm → heap → Prop :=
  | used_open r c h : registering r → __dmopencontext lookup desc r = Some (Some c) → heap_ok h → used c h
  | used_fetch c h l n nl c1 rp new c2 h' :
      used c h → NoDup l → __dmprefetch (Some c) l = (n, nl, Some c1) → replies c (default l nl) rp →
      __dmpostfetch (Some c1) rp h = Some (new, Some c2, h') → used c2 h'.
Context (desc_timely : ∀ p d, desc p = inr d → timely d).

Lemma unused_addrs e : unused e → addrs e = [].
Proof.
  induction e as [|t d s l IHl r IHr v i]; [done |]. intros ((_ & H1 & _ & H2) & Hl & Hr). cbn. unfold addrs_of.
  by rewrite H1, H2, IHl, IHr.
Qed.
Lemma unused_nodes e h : unused e → nodes_ok e h.
Proof.
  induction e as [|t d s l IHl r IHr v i]; [done |]. intros ((H0 & H1 & _ & _) & Hl & Hr). cbn. split_and!; [| by apply IHl | by apply IHr].
  destruct t; try done; cbn; auto.
Qed.
Lemma post_ok c h l nl c1 rp :
  exprs_ok (c_mlist c) h → NoDup l → __dmprefetch (Some c) l = (if has_derived c l then zlen (default l nl) else 0, nl, Some c1) →
  replies c (default l nl) rp →
  ∃ new c2 h', __dmpostfetch (Some c1) rp h = Some (new, Some c2, h') ∧ exprs_ok (c_mlist c2) h' ∧
    bd_pmid <$> c_mlist c2 = bd_pmid <$> c_mlist c ∧
    if has_derived c l then mapM (delivered (c_mlist c) rp h) (take (length l) rp) = Some new else new = rp.
Proof.
  intros Hok Hl Hpre [Hp Hc Ha]. destruct (prefetch_spec c l) as (nl' & x & E & Hfull & _ & Hx). rewrite Hpre in E.
  injection E as _ <- ->. rewrite Hfull in *. unfold __dmpostfetch. cbn [fetch_has_dm c_numpmid c_mlist].
  destruct (has_derived c l); cbn [negb]; [| by exists rp, (mkContextDm (c_mlist c) false (zlen l)), h].
  assert (length rp = (length l + length x)%nat) as Hlen by (apply (f_equal length) in Hp; by rewrite length_fmap, length_app in Hp).
  assert (vpmid <$> take (length l) rp = l) as Htk by (by rewrite fmap_take, Hp, take_app_length).
  destruct (rewrite_vsets_ok rp (length l) (c_mlist c) rp h) as (new & l' & h' & E & Ed & Hok' & Hpm); [done | lia | | by rewrite Htk |].
  - apply Forall_forall. intros vs Hvs. unfold fits_request. pose proof (list_elem_of_fmap_2 vpmid _ _ Hvs) as Hin. rewrite Htk in Hin.
    assert (copyable vs) as Hcp by (rewrite Forall_forall in Hc; apply Hc; by eapply subseteq_take).
    pose proof (λ e, Ha (vpmid vs) e (proj2 (elem_of_app _ _ _) (or_introl Hin))) as Hag. unfold bound_expr in Hag.
    destruct (is_derived (vpmid vs)) eqn:Ei; [| done]. unfold the_metric in Hag. fold (find_metric (vpmid vs) (c_mlist c)) in Hag.
    destruct (find_metric (vpmid vs) (c_mlist c)) as [m|] eqn:Em; [| done].
    destruct (bd_expr m) as [|t d s el er v i] eqn:Ee; [done |]. apply agrees_fits; [by apply Hag |]. intros q Hq. rewrite Hp, elem_of_app.
    destruct (decide (q ∈ l)) as [|Hn]; [by left | right]. apply Hx. split; [| done]. exists (vpmid vs), (bd_expr m). rewrite Ee. split_and!; [done | | done].
    unfold bound_expr, the_metric. fold (find_metric (vpmid vs) (c_mlist c)). by rewrite Ei, Em, Ee.
  - rewrite Nat2Z.id, E. cbn [mbind option_bind]. by eexists _, _, _.
Qed.
Lemma used_ok c h : used c h → exprs_ok (c_mlist c) h.
Proof.
  induction 1 as [r c h Hr Ho Hh | c h l n nl c1 rp new c2 h' _ IH Hl Hpre Hrep Hpost].
  - destruct (open_ok lookup desc r Hr desc_timely) as (oc & E & H). rewrite Ho in E. injection E as <-. destruct H as (_ & _ & H).
    assert (all_addrs (c_mlist c) = []) as Ha.
    { unfold all_addrs. induction H as [|m l' [_ Hu] _ IHl]; [done |]. cbn. by rewrite unused_addrs, IHl. }
    split; [eapply Forall_impl; [exact H |]; by intros m [? _] | | eapply Forall_impl; [exact H |]; intros m [_ ?]; by apply unused_nodes].
    rewrite Ha. split_and!; [done | constructor | by intros a Ha'%elem_of_nil].
  - destruct (prefetch_spec c l) as (nl' & x & E & Hfull & _). assert (nl' = nl) as -> by congruence. rewrite <- Hfull in E.
    rewrite Hpre in E. injection E as -> ->. destruct (post_ok c h l nl _ rp IH Hl Hpre Hrep) as (new' & c2' & h'' & E & Hok & _).
    rewrite Hpost in E. by injection E as _ -> ->.
Qed.
End used.

(** C17. Opening a context never fails.  The descriptor that a client gets for a derived metric
    is that of its expression, whose operands are known and which has passed the checks:
    it has types at every node, so that operators and functions have arithmetic operands
    and operands with instances share their domain. *)
Theorem context_typed lookup desc r :
  registering r → (∀ p d, desc p = inr d → timely d) →
  ∃ c, __dmopencontext lookup desc r = Some c ∧
    ∀ p d, __dmdesc c p = inr d →
      ∃ m b np, m ∈ mlist r ∧ dm_pmid m = p ∧ bind_expr lookup desc (dm_expr m) = Some b ∧ check_expr b = Some (inr np) ∧
        well_typed np ∧ d = set_dpmid p (bdesc np).
Proof.
  intros Hr Ht. destruct (open_ok lookup desc r Hr Ht) as (c & Hc & _). exists c. split; [done |]. intros p d Hd.
  unfold __dmopencontext in Hc. destruct (nmetric r =? 0); [by injection Hc as <- |].
  destruct (mapM _ _) as [l|] eqn:El; [| done]. injection Hc as <-. cbn in Hd. destruct (find _ l) as [b|] eqn:Ef; [| done].
  apply find_some in Ef as [Hb Hp%Z.eqb_eq]. apply list_elem_of_In, list_elem_of_lookup in Hb as [k Hk].
  apply mapM_Some in El. destruct (Forall2_lookup_r _ _ _ _ _ El Hk) as (m & Hm & Em). apply list_elem_of_lookup_2 in Hm.
  apply registering_formed in Hr. rewrite Forall_forall in Hr. specialize (Hr m Hm). unfold bind_metric in Em.
  exists m. destruct (dm_expr m) as [|t s el er v dd] eqn:Ee; [done |]. rewrite <- Ee in *. clear Ee.
  destruct (bind_expr lookup desc (dm_expr m)) as [np|] eqn:Eb; [| by injection Em as <-].
  destruct (check_bound _ _ _ _ Hr Ht Eb) as (o & Ec & Ho). rewrite Ec in Em. cbn in Em. injection Em as <-. cbn in Hp, Hd.
  destruct o as [e|np']; [done |]. exists np, np'. destruct Ho as [Ho _]. split_and!; [done .. |].
  destruct np' as [|t' d' s' l' r' v' i']; [done |]. injection Hd as <-. by rewrite <- Hp.
Qed.

(** C18. An expression with types evaluates, on a result that fits it, to its meaning: an error
    of an operand, or values of its type, for different instances if it has a domain.  It
    uses no array that was freed and no value that is not set, and touches no array but
    its own, of which none is lost to another use. *)
Theorem evaluation_sound np rp h :
  well_typed np → fits rp np → owns (addrs np) h → nodes_ok np h →
  ∃ m np' h', meaning np rp h = Some m ∧ eval_expr np rp h = Some (status m, np', h') ∧
    owns (addrs np') h' ∧ nodes_ok np' h' ∧ strip np' = strip np ∧
    (∀ a, is_Some (arrays h !! a) → a ∉ addrs np → arrays h' !! a = arrays h !! a) ∧
    match m with
    | inl e => e < 0
    | inr L => inumval (binfo np') = zlen L ∧ (L ≠ [] → array_at (ivlist (binfo np')) h' = Some L) ∧
               Forall (val_typed (dtype (bdesc np))) L ∧ (has_indom (bdesc np) = true → NoDup (insts L))
    end.
Proof.
  intros Hw Hf Ho Hn. destruct (well_typed_evaluates rp np Hw h Hf Ho Hn) as (m & np' & h' & Hm & He & S & Hn' & Hs & Hv).
  exists m, np', h'. split; [done |]. split; [done |]. split; [apply S |]. split; [done |]. split; [done |]. split.
  - intros a Ha. apply (st_frame _ _ _ _ S). by apply Ho.
  - destruct m as [e|L]; [done |]. destruct Hv as [[Hnum Hl] [Hty Hnd]]. split; [done |]. split; [| done].
    intros Hne. by apply holds_at, Hl.
Qed.

(** The loop over two operands with instances is a join: there is one value for each
    instance that both have, in the order of the left operand, and it is that of the
    operator on their values for that instance. *)
Lemma operator_joins f lv rv :
  lv ≠ [] → rv ≠ [] → NoDup (insts lv) → NoDup (insts rv) →
  (∀ x y, x ∈ lv → y ∈ rv → v_inst x = v_inst y → is_Some (apply_to f x y)) →
  ∃ out, join_loop (S (length lv + length rv)) f true true lv rv 0 0 (Z.min (zlen lv) (zlen rv)) 0 = Some out ∧
    insts out = filter (λ i, i ∈ insts rv) (insts lv) ∧
    ∀ x y, x ∈ lv → y ∈ rv → v_inst x = v_inst y → ∃ c, apply_to f x y = Some c ∧ mkVal (v_inst x) (Some c) ∈ out.
Proof.
  intros Hl Hr Hnl Hnr Hf. pose proof (join_loop_join f true true lv rv Hl Hr (λ _ _, conj Hnl Hnr)) as E.
  unfold join_room in E. cbn [negb join] in E. rewrite E.
  assert (∃ out, join_both f lv rv = Some out ∧
    ∀ x y, x ∈ lv → y ∈ rv → v_inst x = v_inst y → ∃ c, apply_to f x y = Some c ∧ mkVal (v_inst x) (Some c) ∈ out) as (out & Eo & Hout).
  { clear E Hl Hnl. induction lv as [|x lv IH]; [exists []; split; [done |]; by intros x y Hx%elem_of_nil |].
    destruct IH as (out & Eo & Hout); [intros u y Hu; apply Hf; by right |]. cbn [join_both]. rewrite Eo.
    destruct (partner (v_inst x) rv) as [y|] eqn:Ep.
    - pose proof (partner_Some _ _ _ Ep) as [Hy Hxy]. destruct (Hf x y) as [c Hc]; [by left | done | done |]. rewrite Hc. cbn [mbind option_bind].
      eexists. split; [done |]. intros u w [-> | Hu]%elem_of_cons Hw Huw; [| destruct (Hout u w Hu Hw Huw) as (c' & ? & ?); exists c'; split; [done | by right]].
      assert (w = y) as -> by (apply list_elem_of_lookup in Hw as [j Hj]; pose proof (partner_at rv j w Hnr Hj) as Hpw; rewrite <- Huw in Hpw; congruence).
      exists c. split; [done | by left].
    - exists out. split; [done |]. intros u w [-> | Hu]%elem_of_cons Hw Huw; [| by apply Hout].
      apply partner_None in Ep. destruct Ep. rewrite Huw. by apply list_elem_of_fmap_2. }
  exists out. split; [done |]. split; [exact (join_both_length _ _ _ _ Eo) | done].
Qed.


(** ** Examples *)

Definition flat : pmUnits := no_units.
Definition ex_desc (p : Z) : Z + pmDesc :=
  if p =? 1 then inr (mkDesc 1 PM_TYPE_U32 5 PM_SEM_INSTANT flat)
  else if p =? 2 then inr (mkDesc 2 PM_TYPE_U32 5 PM_SEM_COUNTER flat)
  else if p =? 3 then inr (mkDesc 3 PM_TYPE_U64 PM_INDOM_NULL PM_SEM_INSTANT flat)
  else inl PM_ERR_PMID.
Definition ex_lookup (nm : list byte) : Z + Z :=
  if bool_decide (nm = lit "a") then inr 1 else if bool_decide (nm = lit "b") then inr 2
  else if bool_decide (nm = lit "c") then inr 3 else inl PM_ERR_NAME.
Definition ex_context (nm e : String.string) : context_dm :=
  match __dmopencontext ex_lookup ex_desc (register (lit nm) (lit e) no_metrics) with Some (Some c) => c | _ => mkContextDm [] false 0 end.
Definition no_heap : heap := mkHeap ∅ 0.
Definition word_set (p : Z) (l : list (Z * Z)) : pmValueSet :=
  mkVset p (zlen l) PM_VAL_INSITU ((λ x, mkValue x.1 (Lval x.2)) <$> l).
(** A fetch of one metric, and the next one with the context that it leaves. *)
Definition fetch_one (l : list Z) (rp : list pmValueSet) (s : option (list pmValueSet * context_dm * heap)) :
    option (list pmValueSet * context_dm * heap) :=
  '(_, c, h) ← s;
  match __dmprefetch (Some c) l with
  | (_, _, c1) => '(new, c2, h) ← __dmpostfetch c1 rp h; c2 ← c2; Some (new, c2, h)
  end.
Definition start (nm e : String.string) : option (list pmValueSet * context_dm * heap) := Some ([], ex_context nm e, no_heap).
Definition fetched (s : option (list pmValueSet * context_dm * heap)) : option (list pmValueSet) := (λ x, x.1.1) <$> s.
Lemma ex_timely p d : ex_desc p = inr d → timely d.
Proof. unfold ex_desc, timely. repeat case_match; try done; intros [= <-]; cbn; lia. Qed.
Definition d1 : Z := derived_pmid 1.

(** a + delta(b), fetched twice: 10 + (8 - 5). *)
Example ex_delta :
  fetched (fetch_one [d1] [word_set d1 []; word_set 1 [(0, 10); (1, 20)]; word_set 2 [(0, 8); (1, 9)]]
    (fetch_one [d1] [word_set d1 []; word_set 1 [(0, 10); (1, 20)]; word_set 2 [(0, 5); (1, 7)]] (start "d" "a + delta(b)"))) =
  Some [word_set d1 [(0, 13); (1, 22)]].
Proof. vm_compute. reflexivity. Qed.

Definition b_values (l : list (Z * Z)) : list pmValueSet := [word_set d1 []; word_set 2 l].
Definition ex_rp : list pmValueSet := [word_set d1 []; word_set 1 [(0, 10); (1, 20)]; word_set 2 [(0, 5); (1, 7)]].
Lemma ex_opened nm e c : __dmopencontext ex_lookup ex_desc (register (lit nm) (lit e) no_metrics) = Some (Some c) →
  used ex_lookup ex_desc c no_heap.
Proof.
  intros E. apply used_open with (register (lit nm) (lit e) no_metrics); [| done |].
  - apply registering_register. constructor.
  - intros a [b Hb]. cbn in Hb. by rewrite lookup_empty in Hb.
Qed.
Definition vset_fits_b (d : pmDesc) (vs : pmValueSet) : bool :=
  (zlen (vlist vs) =? Z.max 0 (numval vs)) &&
  match extract_all (dtype d) (valfmt vs) (vlist vs) with Some (inr _) => true | _ => false end && bool_decide (NoDup (inst <$> vlist vs)).
Lemma vset_fits_b_spec d vs : vset_fits_b d vs = true → vset_fits d vs.
Proof.
  intros [[H1%Z.eqb_eq H2]%andb_true_iff H3%bool_decide_eq_true_1]%andb_true_iff. split; [done |]. split; [| done].
  destruct (extract_all _ _ _) as [[|l]|]; [done | by exists l | done].
Qed.
Fixpoint agrees_b (rp : list pmValueSet) (np : bnode) : bool :=
  match np with
  | BNULL => true
  | Bound t d s l r _ i =>
      (if bool_decide (t = L_NAME) then
         match find (λ vs, vpmid vs =? ipmid i) rp with Some vs => vset_fits_b d vs && (negb s || (0 <? numval vs)) | None => true end
       else true) && (agrees_b rp l && agrees_b rp r)
  end.
Lemma agrees_b_spec rp np : agrees_b rp np = true → agrees rp np.
Proof.
  induction np as [|t d s l IHl r IHr v i]; [done |]. cbn [agrees agrees_b].
  intros [H [Hl Hr]%andb_true_iff]%andb_true_iff. split_and!; [| by apply IHl | by apply IHr].
  intros -> vs E. rewrite bool_decide_eq_true_2, E in H by done. apply andb_true_iff in H as [H1 H2].
  split; [by apply vset_fits_b_spec |]. intros ->. by apply Z.ltb_lt.
Qed.
Definition replies_b (c : context_dm) (full : list Z) (rp : list pmValueSet) : bool :=
  bool_decide (vpmid <$> rp = full) && forallb (λ vs, match copied vs with Some _ => true | None => false end) rp &&
  forallb (λ p, match bound_expr c p with Some e => agrees_b rp e | None => true end) full.
Lemma replies_b_spec c full rp : replies_b c full rp = true → replies c full rp.
Proof.
  intros [[H1%bool_decide_eq_true_1 H2]%andb_true_iff H3]%andb_true_iff. rewrite forallb_forall in H2, H3. split; [done | |].
  - apply Forall_forall. intros vs Hvs%list_elem_of_In%H2. unfold copyable. destruct (copied vs); [by eexists | done].
  - intros p e Hp%list_elem_of_In%H3 E. rewrite E in Hp. by apply agrees_b_spec.
Qed.

Lemma context_typed_witness :
  ∃ c, __dmopencontext ex_lookup ex_desc (register (lit "d") (lit "a + delta(b)") no_metrics) = Some c ∧
    ∀ p d, __dmdesc c p = inr d →
      ∃ m b np, m ∈ mlist (register (lit "d") (lit "a + delta(b)") no_metrics) ∧ dm_pmid m = p ∧
        bind_expr ex_lookup ex_desc (dm_expr m) = Some b ∧ check_expr b = Some (inr np) ∧ well_typed np ∧ d = set_dpmid p (bdesc np).
Proof. apply context_typed; [apply registering_register; constructor | exact ex_timely]. Defined.
(** delta(b) with values from the fetch before in the heap. *)
Definition ex_delta_node : bnode :=
  let d := mkDesc 2 PM_TYPE_U32 5 PM_SEM_COUNTER flat in
  Bound L_DELTA (function_desc L_DELTA d) false
    (Bound L_NAME d true BNULL BNULL (Some (lit "b")) (mkInfo 2 1 1 1 (Some O) 0 None)) BNULL None (new_info PM_ID_NULL).
Definition ex_heap : heap := mkHeap {[ O := mkArray 1 [mkVal 0 (Some (Word32 5))] ]} 1.
Lemma evaluation_sound_witness :
  ∃ m np' h', meaning ex_delta_node (b_values [(0, 8)]) ex_heap = Some m ∧
    eval_expr ex_delta_node (b_values [(0, 8)]) ex_heap = Some (status m, np', h') ∧ m = inr [mkVal 0 (Some (Word32 3))].
Proof.
  destruct (evaluation_sound ex_delta_node (b_values [(0, 8)]) ex_heap) as (m & np' & h' & Hm & He & _).
  - apply ty_function; [done | done | by right].
  - apply agrees_fits; [apply agrees_b_spec; vm_compute; reflexivity |]. intros p Hp.
    assert (p = 2) as -> by (vm_compute in Hp; by apply list_elem_of_singleton in Hp). apply (bool_decide_eq_true_1 _). vm_compute. reflexivity.
  - split; [| split; [apply NoDup_singleton |]].
    + intros a [b Hb]. cbn in Hb. destruct (decide (a = O)) as [-> | Ha]; [cbn; lia |]. by rewrite lookup_singleton_ne in Hb by done.
    + intros a ->%list_elem_of_singleton. by eexists.
  - split; [done |]. split; [| done]. split; [| done]. intros _. right. exists [mkVal 0 (Some (Word32 5))].
    split; [by exists O, (mkArray 1 [mkVal 0 (Some (Word32 5))]) |]. split; [done |]. split; [apply NoDup_singleton |].
    apply Forall_singleton. eexists. split; [done | by eexists].
  - exists m, np', h'. split; [exact Hm |]. split; [exact He |]. vm_compute in Hm. by injection Hm as <-.
Defined.
Lemma operator_joins_witness :
  let w := λ i n, mkVal i (Some (Word32 n)) in
  ∃ out, join_loop 6 (compute PM_TYPE_U32 L_PLUS) true true [w 1 10; w 2 20; w 3 30] [w 3 1; w 1 2] 0 0 2 0 = Some out ∧ insts out = [1; 3].
Proof.
  cbv zeta. destruct (operator_joins (compute PM_TYPE_U32 L_PLUS) [mkVal 1 (Some (Word32 10)); mkVal 2 (Some (Word32 20)); mkVal 3 (Some (Word32 30))]
    [mkVal 3 (Some (Word32 1)); mkVal 1 (Some (Word32 2))]) as (out & E & Hi & _); [done | done | | | |].
  - apply (bool_decide_eq_true_1 _). vm_compute. reflexivity.
  - apply (bool_decide_eq_true_1 _). vm_compute. reflexivity.
  - intros x y Hx Hy _. repeat setoid_rewrite elem_of_cons in Hx; repeat setoid_rewrite elem_of_cons in Hy; rewrite elem_of_nil in Hx, Hy.
    destruct Hx as [-> | [-> | [-> | []]]], Hy as [-> | [-> | []]]; by eexists.
  - exists out. split; [exact E |]. rewrite Hi. vm_compute. reflexivity.
Defined.

(** ** What goes wrong *)

(** The argument of a function without values in between: its array is freed twice. *)
Lemma delta_double_free :
  let s := fetch_one [d1] (b_values [(0, 1); (1, 2)]) (start "d" "delta(b)") in
  let s := fetch_one [d1] (b_values []) s in
  let s := fetch_one [d1] (b_values [(0, 3); (1, 4)]) s in
  is_Some s ∧ fetch_one [d1] (b_values [(0, 5); (1, 6)]) s = None.
Proof. vm_compute. split; [by eexists | reflexivity]. Qed.
(** The same metric twice in a request: the second time nothing has changed. *)
Lemma delta_twice :
  fetched (fetch_one [d1; d1] [word_set d1 []; word_set d1 []; word_set 2 [(0, 8)]]
    (fetch_one [d1] (b_values [(0, 5)]) (start "d" "delta(b)"))) = Some [word_set d1 [(0, 3)]; word_set d1 [(0, 0)]].
Proof. vm_compute. reflexivity. Qed.
(** The largest of no values is what was there before. *)
Lemma max_of_none_stale :
  fetched (fetch_one [d1] (b_values []) (fetch_one [d1] (b_values [(0, 5); (1, 7)]) (start "d" "max(b)"))) =
    Some [word_set d1 [(s32 PM_IN_NULL, 7)]] ∧
  fetch_one [d1] (b_values []) (start "d" "max(b)") = None.
Proof. vm_compute. split; reflexivity. Qed.
(** c has one value and a has two: the result has two, of a metric without instances. *)
Definition u64_set (p : Z) (v : Z) : pmValueSet :=
  mkVset p 1 PM_VAL_DPTR [mkValue (s32 PM_IN_NULL) (Pval (mkVB PM_TYPE_U64 (put_word 8 v)))].
Definition desc_has_indom (r : Z + pmDesc) : bool := match r with inr d => has_indom d | inl _ => false end.
Definition instances (o : option (list pmValueSet)) : list (list Z) :=
  match o with Some l => map (λ vs, map inst (vlist vs)) l | None => [] end.
Lemma singular_first :
  desc_has_indom (__dmdesc (Some (ex_context "d" "c + a")) d1) = false ∧
  instances (fetched (fetch_one [d1] [word_set d1 []; u64_set 3 100; word_set 1 [(4, 10); (5, 20)]] (start "d" "c + a"))) = [[4; 5]].
Proof. vm_compute. split; reflexivity. Qed.
(** Bytes and terabytes: the scale of 1024 to the fourth does not fit an int. *)
Definition bytes_desc (p : Z) : Z + pmDesc :=
  inr (mkDesc p PM_TYPE_U64 PM_INDOM_NULL PM_SEM_INSTANT (mkUnits 1 0 0 (if p =? 1 then 0 else 4) 0 0 0)).
Definition left_scales (desc : Z → Z + pmDesc) (e : String.string) : list (Z * Z) :=
  match __dmopencontext ex_lookup desc (register (lit "d") (lit e) no_metrics) with
  | Some (Some c) => map (λ m, let i := binfo (bleft (bd_expr m)) in (mul_scale i, div_scale i)) (c_mlist c)
  | _ => []
  end.
Lemma terabytes_overflow : left_scales bytes_desc "a + b" = [(1, 0)].
Proof. vm_compute. reflexivity. Qed.
(** A time scale above hours. *)
Definition days_desc (p : Z) : Z + pmDesc :=
  inr (mkDesc p PM_TYPE_U64 PM_INDOM_NULL PM_SEM_INSTANT (mkUnits 0 1 0 0 (if p =? 1 then 0 else 6) 0 0)).
Lemma time_scale_faults : __dmopencontext ex_lookup days_desc (register (lit "d") (lit "a + b") no_metrics) = None.
Proof. vm_compute. reflexivity. Qed.
(** Dimensions of different sign: the left operand, per byte, is scaled like the right. *)
Definition ratio_desc (p : Z) : Z + pmDesc :=
  inr (mkDesc p PM_TYPE_U64 PM_INDOM_NULL PM_SEM_INSTANT (if p =? 1 then mkUnits (-1) 0 0 0 0 0 0 else mkUnits 1 0 0 1 0 0 0)).
Lemma space_scaled_wrong : left_scales ratio_desc "a * b" = [(1, 1024)].
Proof. vm_compute. reflexivity. Qed.
End DeriveFetch.
