(* ===== verification/PmnsApi.v ===== *)
(** The routines of libpcp/src/pmns.c that programs call: where the name space is, loading
    and unloading it, and the questions about it, answered from the tree, by agents that
    are part of the process, by pmcd, and from the derived metrics. *)
From S2P Require Import Prelude Memory Text Types PduIO Endian PduSimple PduInstance PduPmns PmnsTree PmnsLoad Derive.
From stdpp Require Import gmap.
Import PmnsTree.Pmns PmnsLoad.PmnsLoad Derive.Derive.
Local Open Scope Z_scope.

Definition PM_ERR_NOPMNS : Z := - PM_ERR_BASE - 2.
Definition PM_ERR_NOAGENT : Z := - PM_ERR_BASE - 41.
Definition PM_ERR_NONLEAF : Z := - PM_ERR_BASE - 49.
Definition PMNS_LOCAL : Z := 1.
Definition PMNS_REMOTE : Z := 2.
Definition PMNS_ARCHIVE : Z := 3.
Definition EPIPE : Z := 32.
Definition EBADF : Z := 9.
Definition PMDA_INTERFACE_4 : Z := 4.

Module PmnsApi.

(** ** Runs *)

(** [Died]: the process exits or an assertion fails; [Wild]: the code follows a pointer that
    is NULL or freed, or divides by zero; [Deep]: a recursion is not at its end. *)
Inductive run (A : Type) := Done (a : A) | Died | Wild | Deep.
Arguments Done {_} _. Arguments Died {_}. Arguments Wild {_}. Arguments Deep {_}.
#[export] Instance run_ret : MRet run := λ A a, Done a.
#[export] Instance run_bind : MBind run := λ A B f m, match m with Done a => f a | Died => Died | Wild => Wild | Deep => Deep end.

(** ** The state *)

(** Trees are at addresses, as several pointers may lead to one; an address that is not in
    [mem] is that of a tree that was freed. *)
Record state := mkState {
  mem : gmap nat pmns; next_addr : nat;
  main_pmns : option nat; curr_pmns : option nat;
  export_ : bool; havePmLoadCall : bool; useExtPMNS : bool;
  derived : ctl_t }.
Definition set_mem (m : gmap nat pmns) (s : state) : state :=
  mkState m (next_addr s) (main_pmns s) (curr_pmns s) (export_ s) (havePmLoadCall s) (useExtPMNS s) (derived s).
Definition set_main (p : option nat) (s : state) : state :=
  mkState (mem s) (next_addr s) p (curr_pmns s) (export_ s) (havePmLoadCall s) (useExtPMNS s) (derived s).
Definition set_curr (p : option nat) (s : state) : state :=
  mkState (mem s) (next_addr s) (main_pmns s) p (export_ s) (havePmLoadCall s) (useExtPMNS s) (derived s).
Definition set_export (b : bool) (s : state) : state :=
  mkState (mem s) (next_addr s) (main_pmns s) (curr_pmns s) b (havePmLoadCall s) (useExtPMNS s) (derived s).
Definition set_call (b : bool) (s : state) : state :=
  mkState (mem s) (next_addr s) (main_pmns s) (curr_pmns s) (export_ s) b (useExtPMNS s) (derived s).
Definition set_ext (b : bool) (s : state) : state :=
  mkState (mem s) (next_addr s) (main_pmns s) (curr_pmns s) (export_ s) (havePmLoadCall s) b (derived s).
Definition set_derived (r : ctl_t) (s : state) : state :=
  mkState (mem s) (next_addr s) (main_pmns s) (curr_pmns s) (export_ s) (havePmLoadCall s) (useExtPMNS s) r.

(** The current context: for a host the descriptor, its protocol version and the number of
    the context; for an archive its version, its name space and the metrics in its table. *)
Inductive context :=
  | PM_CONTEXT_HOST (pc_fd : Z) (version : Z) (out : Xmit.wfd) (handle : Z)
  | PM_CONTEXT_LOCAL
  | PM_CONTEXT_ARCHIVE (ill_magic : Z) (l_pmns : option nat) (l_hashpmid : list Z)
  | PM_CONTEXT_OTHER.
(** An agent that is part of the process. *)
Record dso := mkDso {
  pmda_interface : Z;
  dso_pmid : str → Z * Z;                        (* the status and what is left in the identifier *)
  dso_children : str → Z * list (str * Z) }.     (* how many there are, or an error *)
(** What __pmGetPDU delivers. *)
Inductive answer := NoPDU (sts : Z) | GotPDU (ty : Z) (pb : buf).

(** What is not part of the library: buffers, whether the process has several threads, the
    files, [None] standing for the default name space, the agents in the process, and what
    comes back for the bytes that are sent to pmcd. *)
Class process := mkProcess {
  process_alloc :: PduAlloc;
  multi : bool;
  pmns_file : option str → source;
  derived_file : option (Z + str);
  __pmLookupDSO : Z → option dso;
  server : buf → answer }.

Section api.
Context `{Pr : process}.

(** ** Loading *)

Definition load (filename : option str) (dupok : bool) (s : state) : run (Z * state) :=
  let go s :=
    match loadascii dupok (pmns_file filename) with
    | Some (Result sts m) =>
        match m with
        | Unloaded => Done (sts, s)
        | _ =>
            let a := next_addr s in
            Done (sts, set_main (Some a) (mkState (<[a := m]> (mem s)) (S a) (main_pmns s) (curr_pmns s) (export_ s)
                                           (havePmLoadCall s) (useExtPMNS s) (derived s)))
        end
    | Some Exit => Died
    | _ => Wild
    end in
  match main_pmns s with
  | Some _ => if export_ s then go (set_main None (set_export false s)) else Done (PM_ERR_DUPPMNS, s)
  | None => go s
  end.
Definition pmLoadASCIINameSpace (filename : option str) (dupok : bool) (s : state) : run (Z * state) :=
  load filename dupok (set_call true s).
Definition pmLoadNameSpace (filename : option str) : state → run (Z * state) := pmLoadASCIINameSpace filename false.
(** The memory of the tree is given back; [curr_pmns] is as it was. *)
Definition pmUnloadNameSpace (s : state) : state :=
  set_main None (set_mem (match main_pmns s with Some a => delete a (mem s) | None => mem s end) (set_call false s)).
Definition __pmUsePMNS (t : option nat) (s : state) : state := set_curr t (set_ext true s).
Definition __pmExportPMNS (s : state) : option nat * state := (main_pmns s, set_export true s).

(** ** Where the name space is *)

Definition LoadDefault (s : state) : run (Z * state) :=
  match main_pmns s with
  | None => '(sts, s) ← load None false s; Done (if sts <? 0 then PM_ERR_NOPMNS else PMNS_LOCAL, s)
  | Some _ => Done (PMNS_LOCAL, s)
  end.
Definition pmGetPMNSLocation (ctx : option context) (s : state) : run (Z * state) :=
  if useExtPMNS s then Done (PMNS_LOCAL, s)
  else
    '(loc, s) ←
      (if havePmLoadCall s then Done (match main_pmns s with None => PM_ERR_NOPMNS | Some _ => PMNS_LOCAL end, s)
       else match ctx with
            | None => Done (PM_ERR_NOPMNS, s)
            | Some (PM_CONTEXT_HOST fd version _ _) =>
                Done (if fd =? -1 then PM_ERR_IPC else if version <? 0 then PM_ERR_NOPMNS
                      else if version =? Error.PDU_VERSION2 then PMNS_REMOTE else PM_ERR_NOPMNS, s)
            | Some PM_CONTEXT_LOCAL => if multi then Done (PM_ERR_THREAD, s) else LoadDefault s
            | Some (PM_CONTEXT_ARCHIVE magic l_pmns _) =>
                if Z.land magic 255 =? 2 then Done (PMNS_ARCHIVE, set_curr l_pmns s) else Done (PM_ERR_NOPMNS, s)
            | Some PM_CONTEXT_OTHER => Done (PM_ERR_NOPMNS, s)
            end);
    Done (loc, if loc =? PMNS_LOCAL then set_curr (main_pmns s) s else s).
Definition GetLocation (ctx : option context) (s : state) : run (Z * state) :=
  '(loc, s) ← pmGetPMNSLocation ctx s; Done (if loc =? PMNS_ARCHIVE then PMNS_LOCAL else loc, s).

(** curr_pmns->root and, for a tree with its hash table, *curr_pmns. *)
Definition curr_root (s : state) : run node :=
  match curr_pmns s ≫= λ a, mem s !! a with
  | Some (Loaded t) => Done (root t)
  | Some (Broken (Some r)) => Done r
  | _ => Wild
  end.
Definition curr_tree (s : state) : run tree :=
  match curr_pmns s ≫= λ a, mem s !! a with Some (Loaded t) => Done t | _ => Wild end.
Definition is_local_ctx (ctx : option context) : bool := match ctx with Some PM_CONTEXT_LOCAL => true | _ => false end.
(** The derived metrics, which are read from their file when they are asked for first. *)
Definition ready (s : state) : run state :=
  match init derived_file (derived s) with Some r => Done (set_derived r s) | None => Wild end.

(** ** Requests to pmcd *)

Definition __pmMapErrno (sts : Z) : Z := if (sts =? - EBADF) || (sts =? - EPIPE) then PM_ERR_IPC else sts.
Definition exchange (request : res (Z * buf)) : run (Z + answer) :=
  match request with
  | Ok (sts, bytes) => Done (if sts <? 0 then inl (__pmMapErrno sts) else inr (server bytes))
  | Err sts => Done (inl (__pmMapErrno sts))
  | Fault => Wild
  end.
(** An answer that is not the one wanted. *)
Definition refused (a : answer) : run Z :=
  match a with
  | NoPDU sts => Done (if sts =? PM_ERR_TIMEOUT then sts else PM_ERR_IPC)
  | GotPDU ty pb =>
      if ty =? PDU_ERROR then match Error.__pmDecodeError pb with Ok ((_, code), _) => Done code | _ => Wild end
      else Done PM_ERR_IPC
  end.
Definition wants (ty : Z) (a : answer) : option buf :=
  match a with GotPDU ty' pb => if ty' =? ty then Some pb else None | NoPDU _ => None end.
(** The status and, when they arrive, the identifiers. *)
Definition receive_ids (numids : Z) (a : answer) : run (Z * option (list Z)) :=
  match wants PDU_PMNS_IDS a with
  | Some pb =>
      match IDList.__pmDecodeIDList numids pb with
      | Ok ((op_status, ids), _) => Done (op_status, Some ids)
      | Err sts => Done (sts, None)
      | Fault => Wild
      end
  | None => sts ← refused a; Done (sts, None)
  end.
Definition receive_names (want : bool) (a : answer) : run (Z * list str * option (list Z)) :=
  match wants PDU_PMNS_NAMES a with
  | Some pb =>
      match NameList.__pmDecodeNameList want pb with
      | Ok ((names, sl), _) => Done (zlen names, names, sl)
      | Err sts => Done (sts, [], None)
      | Fault => Wild
      end
  | None => sts ← refused a; Done (sts, [], None)
  end.

(** ** Names to identifiers *)

(** The root of a dynamic subtree. *)
Definition dynamic_root (np : node) : bool := match first np with [] => dynamic (pmid np) | _ => false end.
(** The search for the root of a dynamic subtree among the first components of a name, the
    longest first; the result is the identifier, the status and the count of failures. *)
Fixpoint lookup_prefix (local : bool) (nm : str) (path : list str) (n : nat) (r : node) (sts nfail : Z) : Z * Z * Z :=
  match n with
  | O => (PM_ID_NULL, sts, nfail)
  | S n =>
      match locate (take (S n) path) r with
      | Some np =>
          if dynamic_root np then
            if local then
              match __pmLookupDSO (pmid_cluster (pmid np)) with
              | None => (PM_ID_NULL, if 0 <=? sts then PM_ERR_NOAGENT else sts, nfail)
              | Some dp =>
                  if PMDA_INTERFACE_4 <=? pmda_interface dp then
                    let '(lsts, p) := dso_pmid dp nm in (p, sts, if 0 <=? lsts then nfail - 1 else nfail)
                  else lookup_prefix local nm path n r sts nfail
              end
            else (pmid np, sts, nfail - 1)
          else lookup_prefix local nm path n r sts nfail
      | None => lookup_prefix local nm path n r sts nfail
      end
  end.
Definition lookup_one (local : bool) (r : node) (nm : str) (sts nfail : Z) : Z * Z * Z :=
  match locate (components nm) r with
  | Some np => match first np with [] => (pmid np, sts, nfail) | _ => (PM_ID_NULL, PM_ERR_NONLEAF, nfail + 1) end
  | None => lookup_prefix local nm (components nm) (length (components nm) - 1) r sts (nfail + 1)
  end.
Fixpoint lookup_all (local : bool) (r : node) (names : list str) (sts nfail : Z) : list Z * Z * Z :=
  match names with
  | [] => ([], sts, nfail)
  | nm :: names =>
      let '(p, sts, nfail) := lookup_one local r nm sts nfail in
      let '(ps, sts, nfail) := lookup_all local r names sts nfail in
      (p :: ps, sts, nfail)
  end.
(** Names without an identifier may be those of derived metrics. *)
Fixpoint lookup_derived (d : ctl_t) (names : list str) (pmidlist : list Z) (nfail : Z) : list Z * Z :=
  match names, pmidlist with
  | nm :: names, p :: ps =>
      let '(p, nfail) :=
        if p =? PM_ID_NULL then match __dmgetpmid nm d with inr p' => (p', nfail) | inl _ => (p, nfail + 1) end
        else (p, nfail) in
      let '(ps, nfail) := lookup_derived d names ps nfail in (p :: ps, nfail)
  | _, _ => (pmidlist, nfail)
  end.
(** [pmidlist] is what the caller's array holds. *)
Definition pmLookupName (ctx : option context) (namelist : list str) (pmidlist : list Z) (s : state)
    : run (Z * list Z * state) :=
  '(loc, s) ← GetLocation ctx s;
  let numpmid := zlen namelist in
  if numpmid <? 1 then Done (PM_ERR_TOOSMALL, pmidlist, s)
  else if is_local_ctx ctx && multi then Done (PM_ERR_THREAD, pmidlist, s)
  else
    '(sts, pmidlist, nfail) ←
      (if loc <? 0 then Done (loc, replicate (length namelist) PM_ID_NULL, numpmid)
       else if loc =? PMNS_LOCAL then
         r ← curr_root s;
         let '(ps, sts, nfail) := lookup_all (is_local_ctx ctx) r namelist 0 0 in
         Done (if sts =? 0 then numpmid - nfail else sts, ps, nfail)
       else
         match ctx with
         | Some (PM_CONTEXT_HOST _ _ out handle) =>
             a ← exchange (NameList.__pmSendNameList namelist None out handle);
             '(sts, ids) ← match a with inl sts => Done (sts, None) | inr a => receive_ids numpmid a end;
             Done (sts, default pmidlist ids, if 0 <=? sts then numpmid - sts else 0)
         | _ => Died
         end);
    '(sts, pmidlist, s) ←
      (if (sts <? 0) || (0 <? nfail) then
         s ← ready s;
         let '(ps, nfail) := lookup_derived (derived s) namelist pmidlist 0 in
         Done (if nfail =? 0 then numpmid else sts, ps, s)
       else Done (sts, pmidlist, s));
    Done (if (sts =? 0) && (numpmid =? 1) then PM_ERR_NAME else sts, pmidlist, s).

(** ** Children *)

Record kids := mkKids { num : Z; offspring : list str; statuslist : option (list Z) }.
(** More names join those there are, without duplicates; [want]: the statuses too. *)
Definition stitch_list (want : bool) (k : kids) (x : list (str * Z)) : run kids :=
  let old := if 0 <? num k then offspring k else [] in
  let new := filter (λ e, negb (bool_decide (e.1 ∈ old)) = true) x in
  let n := zlen old + zlen new in
  if want then
    match (if 0 <? num k then statuslist k else Some []) with
    | Some sl => Done (mkKids n (old ++ new.*1) (Some (sl ++ new.*2)))
    | None => Wild
    end
  else Done (mkKids n (old ++ new.*1) None).
Definition node_status (np : node) : Z :=
  if dynamic (pmid np) then PMNS_NONLEAF_STATUS else match first np with [] => PMNS_LEAF_STATUS | _ => PMNS_NONLEAF_STATUS end.
Definition no_kids (sts : Z) : kids := mkKids sts [] None.
(** The children of a dynamic subtree, from an agent that is part of the process. *)
Definition ask_dso (want : bool) (nm : str) (np : node) : run kids :=
  match __pmLookupDSO (pmid_cluster (pmid np)) with
  | None => Done (no_kids PM_ERR_NOAGENT)
  | Some dp =>
      if PMDA_INTERFACE_4 <=? pmda_interface dp then
        let '(x_num, x) := dso_children dp nm in
        if x_num <? 0 then Done (no_kids x_num) else stitch_list want (no_kids 0) (take (Z.to_nat x_num) x)
      else Done (no_kids PM_ERR_NAME)
  end.
Fixpoint children_prefix (path : list str) (n : nat) (r : node) : option node :=
  match n with
  | O => None
  | S n =>
      match locate (take (S n) path) r with
      | Some np => if dynamic_root np then Some np else children_prefix path n r
      | None => children_prefix path n r
      end
  end.
Definition children_local (local want : bool) (r : node) (nm : str) : run kids :=
  match (match nm with [] => Some r | _ => locate (components nm) r end) with
  | None =>
      match (if local then children_prefix (components nm) (length (components nm) - 1) r else None) with
      | Some np => ask_dso want nm np
      | None => Done (no_kids PM_ERR_NAME)
      end
  | Some np =>
      match first np with
      | [] => if dynamic (pmid np) && local then ask_dso want nm np else Done (no_kids 0)
      | l =>
          let shown := filter (λ k, marked (pmid k) = false) l in
          Done (mkKids (zlen shown) (name <$> shown) (if want then Some (node_status <$> shown) else None))
      end
  end.
Definition pmGetChildrenStatus (ctx : option context) (nm : option str) (want : bool) (s : state) : run (kids * state) :=
  '(loc, s) ← GetLocation ctx s;
  if loc <? 0 then Done (no_kids loc, s)
  else
    match nm with
    | None => Done (no_kids PM_ERR_NAME, s)
    | Some nm =>
        k ← (if loc =? PMNS_LOCAL then r ← curr_root s; children_local (is_local_ctx ctx) want r nm
             else match ctx with
                  | Some (PM_CONTEXT_HOST _ _ out handle) =>
                      a ← exchange (NameReq.__pmSendChildReq out handle nm (if want then 1 else 0));
                      match a with
                      | inl sts => Done (no_kids sts)
                      | inr a => '(n, names, sl) ← receive_names want a; Done (mkKids n names sl)
                      end
                  | _ => Died
                  end);
        s ← ready s;
        match __dmchildren nm (derived s) with
        | Assert => Died
        | Kids dm_num x =>
            if 0 <? dm_num then k ← stitch_list want k x; Done (k, s)
            else if (dm_num =? 0) && (num k <? 0) then Done (no_kids 0, s)
            else Done (k, s)
        end
    end.
Definition pmGetChildren (ctx : option context) (nm : option str) (s : state) : run (kids * state) :=
  pmGetChildrenStatus ctx nm false s.

(** ** Identifiers to names *)

Definition metrics_with (t : tree) (p : Z) : list nat := List.filter (λ id, pmid_at (root t) id =? p) (chain t p).
(** The request and the answer for the names of an identifier. *)
Definition ask_names (out : Xmit.wfd) (handle p : Z) : run (Z * list str) :=
  a ← exchange (IDList.__pmSendIDList out handle [p] 0);
  match a with
  | inl sts => Done (sts, [])
  | inr a => '(n, names, _) ← receive_names false a; Done (n, names)
  end.
Definition of_derived (r : Z + str) : Z * option str := match r with inr nm => (0, Some nm) | inl sts => (sts, None) end.
Definition pmNameID (ctx : option context) (p : Z) (s : state) : run (Z * option str * state) :=
  '(loc, s) ← GetLocation ctx s;
  if loc <? 0 then Done (loc, None, s)
  else if loc =? PMNS_LOCAL then
    t ← curr_tree s;
    if htabsize t =? 0 then Wild
    else
      match metrics_with t p with
      | id :: _ =>
          if dynamic p then Done (PM_ERR_PMID, None, s)
          else match backname (root t) id with Some nm => Done (0, Some nm, s) | None => Wild end
      | [] => s ← ready s; Done (of_derived (__dmgetname p (derived s)), s)
      end
  else
    match ctx with
    | Some (PM_CONTEXT_HOST _ _ out handle) =>
        '(n, names) ← ask_names out handle p;
        if 0 <=? n then match names with nm :: _ => Done (0, Some nm, s) | [] => Wild end
        else s ← ready s; Done (of_derived (__dmgetname p (derived s)), s)
    | _ => Done (PM_ERR_NOCONTEXT, None, s)
    end.
Definition name_derived (p : Z) (s : state) : run (Z * list str * state) :=
  s ← ready s;
  Done match __dmgetname p (derived s) with inr nm => (1, [nm], s) | inl sts => (sts, [], s) end.
Definition pmNameAll (ctx : option context) (p : Z) (s : state) : run (Z * list str * state) :=
  '(loc, s) ← GetLocation ctx s;
  if loc <? 0 then Done (loc, [], s)
  else if loc =? PMNS_LOCAL then
    if dynamic p then Done (PM_ERR_PMID, [], s)
    else
      t ← curr_tree s;
      if htabsize t =? 0 then Wild
      else
        match metrics_with t p with
        | [] => name_derived p s
        | l => match mapM (backname (root t)) l with Some names => Done (zlen names, names, s) | None => Wild end
        end
  else
    match ctx with
    | Some (PM_CONTEXT_HOST _ _ out handle) =>
        '(n, names) ← ask_names out handle p;
        if n =? 0 then name_derived p s else Done (n, names, s)
    | _ => Done (PM_ERR_NOCONTEXT, [], s)
    end.

(** ** Walking the name space *)

(** The result: the status and the names for which the function is called, in order. *)
Fixpoint TraversePMNS_local (fuel : nat) (ctx : option context) (nm : str) (s : state) : run (Z * list str * state) :=
  match fuel with
  | O => Deep
  | S fuel =>
      '(k, s) ← pmGetChildren ctx (Some nm) s;
      if num k <? 0 then Done (num k, [], s)
      else if 0 <? num k then
        (fix visit (enfants : list str) (s : state) : run (Z * list str * state) :=
           match enfants with
           | [] => Done (0, [], s)
           | e :: enfants =>
               '(sts, l, s) ← TraversePMNS_local fuel ctx (sub_path nm e) s;
               if sts <? 0 then Done (sts, l, s)
               else '(sts, l', s) ← visit enfants s; Done (sts, l ++ l', s)
           end) (offspring k) s
      else Done (0, [nm], s)
  end.
Definition anon_prefix : str := lit "anon.".
Definition is_anon (nm : str) : bool := bool_decide (take 5 nm = anon_prefix).
Definition TraversePMNS (fuel : nat) (ctx : option context) (nm : option str) (s : state) : run (Z * list str * state) :=
  '(loc, s) ← GetLocation ctx s;
  if loc <? 0 then Done (loc, [], s)
  else
    match nm with
    | None => Done (PM_ERR_NAME, [], s)
    | Some nm =>
        if loc =? PMNS_LOCAL then TraversePMNS_local fuel ctx nm s
        else
          match ctx with
          | Some (PM_CONTEXT_HOST _ _ out handle) =>
              a ← exchange (NameReq.__pmSendTraversePMNSReq out handle nm);
              match a with
              | inl sts => Done (sts, [], s)
              | inr a =>
                  '(sts, names, _) ← receive_names false a;
                  let decoded := match wants PDU_PMNS_NAMES a with Some _ => true | None => false end in
                  if (if decoded then sts <=? 0 else negb (sts =? PM_ERR_NAME) || negb (match a with GotPDU ty _ => ty =? PDU_ERROR | _ => false end))
                  then Done (sts, [], s)
                  else
                    let seen := List.filter (λ n, negb (is_anon n)) names in
                    s ← ready s;
                    match __dmtraverse nm (derived s) with
                    | [] => Done (if 0 <? sts then zlen names else sts, seen, s)
                    | x => Done (0, seen ++ x, s)
                    end
              end
          | _ => Done (PM_ERR_NOCONTEXT, [], s)
          end
    end.

(** ** Trimming *)

Definition update_curr (f : tree → tree) (s : state) : run state :=
  match curr_pmns s with
  | Some a => match mem s !! a with Some (Loaded t) => Done (set_mem (<[a := Loaded (f t)]> (mem s)) s) | _ => Wild end
  | None => Wild
  end.
Definition pmTrimNameSpace (ctx : option context) (s : state) : run (Z * state) :=
  '(loc, s) ← GetLocation ctx s;
  if loc <? 0 then Done (loc, s)
  else if loc =? PMNS_REMOTE then Done (0, s)
  else
    match ctx with
    | None => Done (PM_ERR_NOCONTEXT, s)
    | Some (PM_CONTEXT_ARCHIVE _ _ l_hashpmid) =>
        if havePmLoadCall s then s ← update_curr (λ t, trim t l_hashpmid) s; Done (0, s) else Done (0, s)
    | Some _ => s ← update_curr (mark_all false) s; Done (0, s)
    end.

(** ** Where the tree is *)

Lemma bind_Done {A B} (m : run A) (f : A → run B) b : m ≫= f = Done b → ∃ a, m = Done a ∧ f a = Done b.
Proof. destruct m; try done. eauto. Qed.
(** The routines work on [t], in the state [s'] that they find it in. *)
Definition located (ctx : option context) (s s' : state) (t : tree) : Prop :=
  GetLocation ctx s = Done (PMNS_LOCAL, s') ∧ curr_tree s' = Done t.
Lemma curr_tree_root s t : curr_tree s = Done t → curr_root s = Done (root t).
Proof. unfold curr_tree, curr_root. destruct (curr_pmns s ≫= _) as [[| |]|]; try done. by intros [= <-]. Qed.
Lemma located_root ctx s s' t : located ctx s s' t → curr_root s' = Done (root t).
Proof. intros [_ Hc]. by apply curr_tree_root. Qed.
Lemma GetLocation_derived ctx s loc s' d : GetLocation ctx s = Done (loc, s') →
  GetLocation ctx (set_derived d s) = Done (loc, set_derived d s').
Proof.
  unfold GetLocation, pmGetPMNSLocation, LoadDefault, load. cbn [useExtPMNS havePmLoadCall main_pmns export_ set_derived].
  destruct (useExtPMNS s); [by intros [= <- <-] |].
  destruct (havePmLoadCall s).
  { cbn. destruct (main_pmns s); cbn; by intros [= <- <-]. }
  destruct ctx as [[fd v o h | | m l ps |]|]; cbn [mbind run_bind].
  - repeat case_match; intros; simplify_eq; done.
  - destruct multi; [by intros [= <- <-] |]. destruct (main_pmns s) eqn:Em; [intros [= <- <-]; cbn; by rewrite Em |].
    destruct (loadascii _ _) as [[sts m| |]|]; try done. destruct m; cbn; repeat case_match; intros; simplify_eq; try done.
  - destruct (_ =? 2); by intros [= <- <-].
  - by intros [= <- <-].
  - by intros [= <- <-].
Qed.
Lemma located_again ctx s s' t : located ctx s s' t → located ctx s' s' t.
Proof.
  intros [Hl Ht]. split; [| done]. unfold GetLocation, pmGetPMNSLocation in *. destruct (useExtPMNS s) eqn:Eu; [injection Hl as <-; by rewrite Eu |].
  destruct (havePmLoadCall s) eqn:Eh; cbn [mbind run_bind] in Hl.
  { destruct (main_pmns s) eqn:Em; cbn in Hl; [| done]. injection Hl as <-. cbn. rewrite Eu, Eh, Em. cbn. by rewrite Em. }
  destruct ctx as [[fd v o h | | m l ps |]|]; cbn [mbind run_bind] in Hl; [| | | done | done].
  - exfalso. repeat case_match; simplify_eq.
  - destruct multi; [done |]. unfold LoadDefault in Hl. destruct (main_pmns s) eqn:Em.
    { cbn in Hl. injection Hl as <-. cbn. rewrite Eu, Eh. unfold LoadDefault. cbn. rewrite Em. cbn. by rewrite Em. }
    unfold load in Hl. rewrite Em in Hl. destruct (loadascii _ _) as [[sts m| |]|]; try done.
    destruct m as [|r|t']; cbn in Hl; (destruct (sts <? 0); [done |]); cbn in Hl; injection Hl as <-.
    1: unfold curr_tree in Ht; cbn in Ht; by rewrite Em in Ht.
    all: cbn; by rewrite Eu, Eh.
  - destruct (Z.land m 255 =? 2) eqn:E2; [| done]. cbn in Hl. injection Hl as <-. cbn [useExtPMNS havePmLoadCall set_curr].
    by rewrite Eu, Eh.
Qed.
Lemma located_derived ctx s s' t d : located ctx s s' t → located ctx (set_derived d s) (set_derived d s') t.
Proof. intros [Hl Ht]. split; [by apply GetLocation_derived | done]. Qed.
Lemma ready_done s s' : ready s = Done s' → ∃ d, init derived_file (derived s) = Some d ∧ s' = set_derived d s.
Proof. unfold ready. destruct (init _ _); [| done]. intros [= <-]. eauto. Qed.
(** Once the derived metrics are there, nothing more is read. *)
Lemma ready_again s s' : ready s = Done s' → ready s' = Done s'.
Proof.
  unfold ready, init. destruct (need_init (derived s)) eqn:En.
  - destruct (match derived_file with Some f => snd <$> pmLoadDerivedConfig f (derived s) | None => Some (derived s) end) as [r|]; [| done].
    cbn. intros [= <-]. done.
  - intros [= <-]. cbn. by rewrite En.
Qed.
End api.
End PmnsApi.
