(* ===== verification/PmnsNames.v ===== *)
(** What the routines of PmnsApi.v answer: names and identifiers, children, the walk over
    the name space and trimming to an archive, in terms of the tree they work on. *)
From S2P Require Import Prelude Memory Text Types PduIO Endian PduSimple PduInstance PduPmns PmnsTree PmnsLoad Derive PmnsApi.
From stdpp Require Import gmap.
Import PmnsTree.Pmns PmnsLoad.PmnsLoad Derive.Derive PmnsApi.PmnsApi.
Local Open Scope Z_scope.

Module PmnsNames.

(** ** Chains and names *)

(** The names of an identifier, in the order of its chain. *)
Definition names_with (r : node) (p : Z) : list str := reverse ((λ e, join e.1) <$> filter (λ e, pmid e.2 = p) (walk r)).
Lemma filter_List {A} (P : A → bool) (l : list A) : List.filter P l = filter (λ x, P x = true) l.
Proof. induction l as [|x l IH]; [done |]. rewrite filter_cons, <- IH. cbn [List.filter]. by destruct (P x). Qed.
Lemma filter_fmap {A B} (f : A → B) (P : B → Prop) `{!∀ x, Decision (P x)} (l : list A) :
  filter P (f <$> l) = f <$> filter (λ x, P (f x)) l.
Proof. induction l as [|x l IH]; [done |]. rewrite fmap_cons, !filter_cons, IH. by case_decide. Qed.
Lemma filter_in {A} (P Q : A → Prop) `{!∀ x, Decision (P x), !∀ x, Decision (Q x)} (l : list A) :
  (∀ x, x ∈ l → P x ↔ Q x) → filter P l = filter Q l.
Proof.
  induction l as [|x l IH]; intros Hl; [done |]. rewrite !filter_cons, IH by (intros y Hy; apply Hl; by right).
  assert (P x ↔ Q x) as Hx by (apply Hl; by left). repeat case_decide; tauto.
Qed.
Lemma metrics_with_eq t p :
  hashed t → 0 <= p < PMID_MASK → metrics_with t p = reverse (nid <$> filter (λ n, pmid n = p) (below (root t))).
Proof.
  intros H Hp. unfold metrics_with, chain.
  assert (Z.land p PMID_MASK = p) as Hland by (rewrite land_mask; apply Z.mod_small; unfold PMID_MASK in Hp; lia).
  assert (bucket (htabsize t) p < length (htab t))%nat as Hlt.
  { rewrite (hs_length t H). unfold bucket. pose proof (hs_size t H). pose proof (Z.mod_pos_bound p (htabsize t)). lia. }
  rewrite (hs_chain t H) by done. rewrite filter_List, filter_reverse. f_equal. rewrite filter_fmap. f_equal.
  rewrite list_filter_filter. apply filter_in. intros n Hn.
  rewrite pmid_at_in by (exact (hs_ids t H) || by apply below_nodes). rewrite Z.eqb_eq. split; [by intros [? _] |]. intros E.
  split; [done |]. unfold in_bucket, metric. rewrite E, Hland, Nat.eqb_refl, andb_true_r.
  apply negb_true_iff, Z.eqb_neq. lia.
Qed.
Lemma backnames t (l : list (list str * node)) :
  hashed t → (∀ e, e ∈ l → e ∈ walk (root t)) →
  mapM (backname (root t)) (nid <$> l.*2) = Some ((λ e, join e.1) <$> l).
Proof.
  intros H Hl. apply mapM_Some. induction l as [|[p x] l IH]; [constructor |]. cbn. constructor.
  - unfold backname. rewrite (walk_path_to _ p x); [done | exact (hs_ids t H) | apply Hl; by left].
  - apply IH. intros e He. apply Hl. by right.
Qed.
Lemma mapM_reverse {A B} (f : A → option B) l k : mapM f l = Some k → mapM f (reverse l) = Some (reverse k).
Proof. rewrite !mapM_Some. intros Hf. by apply Forall2_reverse. Qed.
Lemma chain_names t p :
  hashed t → 0 <= p < PMID_MASK → mapM (backname (root t)) (metrics_with t p) = Some (names_with (root t) p).
Proof.
  intros H Hp. rewrite metrics_with_eq by done. apply mapM_reverse.
  rewrite <- walk_below, filter_fmap. apply (backnames t); [done |]. intros e [_ He]%list_elem_of_filter. done.
Qed.
Lemma elem_of_names r p nm : nm ∈ names_with r p ↔ ∃ path x, (path, x) ∈ walk r ∧ pmid x = p ∧ nm = join path.
Proof.
  unfold names_with. rewrite elem_of_reverse, list_elem_of_fmap. split.
  - intros ([path x] & -> & [E Hw]%list_elem_of_filter). eauto.
  - intros (path & x & Hw & E & ->). exists (path, x). split; [done |]. by apply list_elem_of_filter.
Qed.

(** ** What is visible *)

(** An unmarked metric is below unmarked nodes only. *)
Definition closed_up (r : node) : Prop :=
  ∀ n x, n ∈ below r → x ∈ nodes n → metric x = true → marked (pmid x) = false → marked (pmid n) = false.
(** There are no names below a metric. *)
Definition leafy (r : node) : Prop := ∀ n, n ∈ below r → metric n = true → first n = [].
Lemma visible_closed r : ∀ p x, closed_up r → (p, x) ∈ walk r → metric x = true → marked (pmid x) = false → (p, x) ∈ visible r.
Proof.
  induction r as [i nm q l IH] using node_ind'. intros p x Hc Hw Hm Hx. rewrite visible_eq, walk_eq in *. cbn [first] in *.
  apply elem_of_flat_map in Hw as (k & Hk & Hw). apply elem_of_flat_map. exists k. split; [done |].
  assert (x ∈ nodes k) as Hxk.
  { apply elem_of_cons in Hw as [[= _ ->] | Hw]; [apply nodes_self |]. apply list_elem_of_fmap in Hw as ([p' y] & [= _ ->] & Hy).
    by apply below_nodes, (walk_nodes p'). }
  assert (k ∈ below (Node i nm q l)) as Hkb by (rewrite below_eq; apply elem_of_flat_map; exists k; split; [done | apply nodes_self]).
  rewrite (Hc k x Hkb Hxk Hm Hx). apply elem_of_cons in Hw as [[= -> ->] | Hw]; [by left | right].
  apply list_elem_of_fmap in Hw as ([p' y] & [= -> ->] & Hy). apply list_elem_of_fmap. exists (p', y). split; [done |].
  rewrite Forall_forall in IH. apply IH; [done | | done ..]. intros n z Hn Hz. apply Hc; [| done].
  rewrite below_eq. apply elem_of_flat_map. exists k. split; [done |]. by apply below_nodes.
Qed.
Lemma marks_closed t bit : hashed t → mark_state t = bit_state bit → closed_up (root t).
Proof.
  intros H E n x Hn Hx Hm Hk. apply below_nodes in Hn. rewrite (hs_marks t H bit x E) in Hk; [subst | by eapply nodes_trans |].
  - apply (hs_marks t H false); [done | done |]. apply bears_spec. eauto.
  - apply bears_spec. exists x. split; [apply nodes_self | done].
Qed.
Lemma trim_closed t ps : hashed t → closed_up (root (trim t ps)).
Proof.
  intros H n x Hn Hx Hm Hk. rewrite trim_remark in Hn by done. cbn [root set_mark_state set_root] in Hn.
  rewrite below_remark in Hn. apply list_elem_of_fmap in Hn as (n0 & -> & Hn).
  rewrite nodes_remark in Hx. apply list_elem_of_fmap in Hx as (x0 & -> & Hx). rewrite pmid_remark in *.
  apply below_nodes in Hn. assert (tames (trimmed t ps) (root t)) as Ht by apply trimmed_tames.
  assert (x0 ∈ nodes (root t)) as Hxr by (by eapply nodes_trans).
  rewrite metric_remark in Hm by (by apply Ht). unfold trimmed in *. destruct (hits (omap (pick t) ps) x0) eqn:Eh.
  - assert (hits (omap (pick t) ps) n0 = true) as E.
    { apply hits_spec in Eh as (y & Hy & Hin). apply hits_spec. exists y. split; [by eapply nodes_trans | done]. }
    rewrite E. apply marked_mark.
  - unfold mark_bearing in Hk. assert (bears x0 = true) as Eb by (apply bears_spec; exists x0; split; [apply nodes_self | done]).
    by rewrite Eb, marked_mark in Hk.
Qed.
Lemma plain_unmarked p : 0 <= p < PMID_MASK → marked p = false.
Proof.
  intros Hp. rewrite marked_spec by (unfold is_u32, PMID_MASK in *; lia). apply negb_false_iff, Z.ltb_lt. unfold PMID_MASK in Hp. lia.
Qed.
Lemma plain_is_metric n : 0 <= pmid n < PMID_MASK → metric n = true.
Proof. intros H. apply plain_metric; [by right | done]. Qed.
(** The name of an unmarked metric leads back to it. *)
Lemma locate_join t path x :
  hashed t → closed_up (root t) → (path, x) ∈ walk (root t) → 0 <= pmid x < PMID_MASK →
  locate (components (join path)) (root t) = Some x.
Proof.
  intros H Hc Hw Hp. rewrite components_join; [| by eapply walk_nonempty | by eapply walk_plain; [apply (hs_names t H) |]].
  apply visible_locate; [apply (hs_uniq t H) |]. apply visible_closed; [done | done | by apply plain_is_metric | by apply plain_unmarked].
Qed.

(** ** Walking *)

Definition shown (n : node) : list node := filter (λ k, marked (pmid k) = false) (first n).
(** The names at which a walk from [nm] ends. *)
Definition visits (nm : str) (np : node) : list str :=
  match shown np with
  | [] => [nm]
  | _ => (λ e, sub_path nm (join e.1)) <$> filter (λ e, shown e.2 = []) (visible np)
  end.
Definition nonempty_names (r : node) : Prop := Forall (λ n, name n ≠ []) (below r).
Definition reached (r : node) (path : list str) (np : node) : Prop := path = [] ∧ np = r ∨ (path, np) ∈ visible r.
Lemma reached_child r path np k : reached r path np → k ∈ shown np → (path ++ [name k], k) ∈ visible r.
Proof.
  intros Hr [Hm Hk]%list_elem_of_filter. destruct Hr as [[-> ->] | Hr].
  { apply elem_of_visible. exists k. cbn. tauto. }
  revert path Hr. induction r as [i s m l IH] using node_ind'. intros path (c & Hc & Hcm & Hp)%elem_of_visible.
  apply elem_of_visible. exists c. split_and!; [done | done |]. right. rewrite Forall_forall in IH.
  destruct Hp as [[-> ->] | (q & -> & Hq)].
  - exists [name k]. split; [done |]. apply elem_of_visible. exists k. tauto.
  - exists (q ++ [name k]). split; [done |]. by apply (IH c Hc).
Qed.
Lemma visible_shown n : visible n = flat_map (λ k, ([name k], k) :: ((λ '(p, x), (name k :: p, x)) <$> visible k)) (shown n).
Proof.
  rewrite visible_eq. unfold shown. induction (first n) as [|k l IH]; [done |]. cbn [flat_map]. rewrite IH, filter_cons.
  destruct (marked (pmid k)); by case_decide.
Qed.
Lemma join_path_nonempty (path : list str) : path ≠ [] → Forall (λ s : str, s ≠ []) path → join path ≠ [].
Proof. intros Hp Hf. destruct Hf as [|c q Hc Hf]; [done |]. destruct q; cbn; [done |]. by destruct c. Qed.
Lemma visible_names r path x : nonempty_names r → (path, x) ∈ visible r → Forall (λ s : str, s ≠ []) path.
Proof.
  unfold nonempty_names. revert path. induction r as [i s m l IH] using node_ind'. intros path Hn (c & Hc & _ & Hp)%elem_of_visible.
  rewrite Forall_forall in IH. rewrite below_eq in Hn. rewrite Forall_forall in Hn. cbn [first] in *.
  assert (name c ≠ []) as Hcn by (apply Hn, elem_of_flat_map; exists c; split; [done | apply nodes_self]).
  destruct Hp as [[-> _] | (q & -> & Hq)]; [by apply Forall_singleton | constructor; [done |]].
  apply (IH c Hc); [| done]. apply Forall_forall. intros y Hy. apply Hn, elem_of_flat_map. exists c. split; [done | by right].
Qed.
Lemma sub_path_snoc nm a (q : list str) : nm ≠ [] ∨ a ≠ [] → q ≠ [] → sub_path (sub_path nm a) (join q) = sub_path nm (join (a :: q)).
Proof.
  intros Ha Hq. rewrite join_cons by done. unfold sub_path. destruct nm as [|n nm].
  - destruct a; [by destruct Ha |]. done.
  - cbn. f_equal. by rewrite <- app_assoc.
Qed.
Lemma visits_eq nm np : nm ≠ [] ∨ Forall (λ k, name k ≠ []) (shown np) → shown np ≠ [] →
  visits nm np = flat_map (λ k, visits (sub_path nm (name k)) k) (shown np).
Proof.
  intros Hn Hs. unfold visits at 1. destruct (shown np) as [|k0 l0] eqn:E; [done |]. rewrite <- E in *. clear E k0 l0.
  rewrite visible_shown. clear Hs. induction (shown np) as [|k l IH]; [done |]. cbn [flat_map]. rewrite filter_app, fmap_app. f_equal.
  - assert (nm ≠ [] ∨ name k ≠ []) as Hk by (destruct Hn as [? | Hn]; [by left | right; by apply Forall_inv in Hn]).
    rewrite filter_cons. unfold visits. destruct (shown k) as [|k1 l1] eqn:Ek.
    + rewrite decide_True by done. assert (visible k = []) as -> by (by rewrite visible_shown, Ek). done.
    + rewrite decide_False by (cbn; by rewrite Ek). rewrite filter_fmap, <- list_fmap_compose.
      rewrite (filter_in _ (λ e, shown e.2 = [])) by (by intros [? ?]). apply list_fmap_ext. intros j [q x] Hq.
      cbn. symmetry. apply sub_path_snoc; [done |]. apply list_elem_of_lookup_2, list_elem_of_filter in Hq as [_ Hq].
      by apply visible_walk, proj1, walk_nonempty in Hq.
  - apply IH. destruct Hn as [? | Hn]; [by left | right]. by apply Forall_inv_tail in Hn.
Qed.

(** ** Lookups *)

Section names.
Context `{Pr : process}.

Lemma derived_domain n : pmid_domain (derived_pmid n) = DYNAMIC_PMID.
Proof.
  assert (derived_pmid n = derived_pmid (n mod 1024)) as ->.
  { unfold derived_pmid, pmid_build, field. change (2 ^ 10) with 1024. by rewrite Z.mod_mod. }
  apply pmid_build_fields; [done | done |]. by apply Z.mod_pos_bound.
Qed.
Lemma dmgetpmid_domain d nm p : registering d → __dmgetpmid nm d = inr p → pmid_domain p = DYNAMIC_PMID.
Proof.
  intros Hr%registering_ok. unfold __dmgetpmid. destruct (List.find _ _) as [m|] eqn:E; [| done]. intros [= <-].
  apply find_Some in E as [[i Hi]%list_elem_of_lookup _]. rewrite (reg_ids d Hr i m Hi). apply derived_domain.
Qed.
Lemma ready_registering s s' : registering (derived s) → ready s = Done s' → registering (derived s').
Proof. intros Hr (d & E & ->)%ready_done. by eapply reg_init. Qed.
Lemma lookup_prefix_cases nm path n r sts nfail :
  lookup_prefix false nm path n r sts nfail = (PM_ID_NULL, sts, nfail) ∨
  ∃ np, dynamic_root np = true ∧ lookup_prefix false nm path n r sts nfail = (pmid np, sts, nfail - 1).
Proof.
  induction n as [|n IH]; [by left |]. cbn [lookup_prefix]. destruct (locate _ r) as [np|]; [| done].
  destruct (dynamic_root np) eqn:E; [right; eauto | done].
Qed.
Lemma lookup_located ctx s s' t nm old x :
  located ctx s s' t → is_local_ctx ctx && multi = false →
  locate (components nm) (root t) = Some x → first x = [] → pmLookupName ctx [nm] [old] s = Done (1, [pmid x], s').
Proof.
  intros Hl Hm Hx Hf. pose proof (located_root _ _ _ _ Hl) as Hr. destruct Hl as [Hl _]. unfold pmLookupName.
  rewrite Hl. cbn [mbind run_bind length]. rewrite Hm. cbn -[lookup_all]. rewrite Hr. cbn -[components].
  unfold lookup_one. rewrite Hx, Hf. done.
Qed.
Lemma lookup_found ctx s s' t nm old p s2 :
  located ctx s s' t → is_local_ctx ctx = false → registering (derived s') → pmid_domain p ≠ DYNAMIC_PMID →
  pmLookupName ctx [nm] [old] s = Done (1, [p], s2) →
  ∃ x, locate (components nm) (root t) = Some x ∧ first x = [] ∧ pmid x = p.
Proof.
  intros Hl Hm Hreg Hp. pose proof (located_root _ _ _ _ Hl) as Hr. destruct Hl as [Hl _]. unfold pmLookupName.
  rewrite Hl, Hm. cbn -[lookup_all]. rewrite Hr. cbn -[components Nat.sub lookup_prefix Z.add]. unfold lookup_one.
  assert (∀ sts nfail, sts ≠ 1 → 0 < nfail ∨ sts < 0 →
    ('(sts, pmidlist, s) ← (if (sts <? 0) || (0 <? nfail) then
         s ← ready s'; let '(ps, nfail) := lookup_derived (derived s) [nm] [PM_ID_NULL] 0 in Done (if nfail =? 0 then 1 else sts, ps, s)
       else Done (sts, [PM_ID_NULL], s'));
    Done (if (sts =? 0) && true then PM_ERR_NAME else sts, pmidlist, s)) = Done (1, [p], s2) → False) as Hno.
  { intros sts nfail Hs Hn. assert ((sts <? 0) || (0 <? nfail) = true) as -> by (apply orb_true_iff; rewrite !Z.ltb_lt; tauto).
    destruct (ready s') as [s1| | |] eqn:Er; try done. cbn.
    destruct (__dmgetpmid nm (derived s1)) as [e|q] eqn:Eq.
    - cbn. change (0 + 1 =? 0) with false. cbn. destruct (sts =? 0); intros [= E _]; first [congruence | by compute in E].
    - cbn. intros [= -> _]. apply Hp. eapply dmgetpmid_domain; [by eapply ready_registering | exact Eq]. }
  destruct (locate (components nm) (root t)) as [x|] eqn:Ex.
  - destruct (first x) as [|k l] eqn:Ef; [| intros H; exfalso; by apply (Hno PM_ERR_NONLEAF 1) in H; [| | right]].
    cbn. intros [= <- _]. eauto.
  - intros H. exfalso. destruct (lookup_prefix_cases nm (components nm) (length (components nm) - 1) (root t) 0 (0 + 1)) as [E | (np & Hd & E)];
      rewrite E in H.
    + by apply (Hno 0 1) in H; [| | left].
    + cbn in H. injection H as <- _. apply Hp. unfold dynamic_root in Hd. destruct (first np); [| done].
      by apply andb_true_iff in Hd as [Hd%Z.eqb_eq _].
Qed.

Lemma mapM_nil {A B} (f : A → option B) l : mapM f l = Some [] → l = [].
Proof. intros H%mapM_Some%Forall2_length. by destruct l. Qed.
Lemma name_all_exact ctx s s' t p :
  located ctx s s' t → hashed t → 0 <= p < PMID_MASK → dynamic p = false →
  pmNameAll ctx p s = match names_with (root t) p with [] => name_derived p s' | names => Done (zlen names, names, s') end.
Proof.
  intros [Hl Ht] H Hp Hd. unfold pmNameAll. rewrite Hl. cbn [mbind run_bind].
  change (PMNS_LOCAL <? 0) with false. change (PMNS_LOCAL =? PMNS_LOCAL) with true. cbn match. rewrite Hd, Ht. cbn [mbind run_bind].
  pose proof (hs_size t H). rewrite (proj2 (Z.eqb_neq _ _)) by lia. pose proof (chain_names t p H Hp) as Hc.
  destruct (metrics_with t p) as [|id l].
  - cbn in Hc. by injection Hc as <-.
  - rewrite Hc. destruct (names_with (root t) p); [| done]. by apply mapM_nil in Hc.
Qed.
Lemma name_id_exact ctx s s' t p :
  located ctx s s' t → hashed t → 0 <= p < PMID_MASK → dynamic p = false →
  pmNameID ctx p s =
  match names_with (root t) p with
  | nm :: _ => Done (0, Some nm, s')
  | [] => s ← ready s'; Done (of_derived (__dmgetname p (derived s)), s)
  end.
Proof.
  intros [Hl Ht] H Hp Hd. unfold pmNameID. rewrite Hl. cbn [mbind run_bind].
  change (PMNS_LOCAL <? 0) with false. change (PMNS_LOCAL =? PMNS_LOCAL) with true. cbn match. rewrite Ht. cbn [mbind run_bind].
  pose proof (hs_size t H). rewrite (proj2 (Z.eqb_neq _ _)) by lia. pose proof (chain_names t p H Hp) as Hc.
  destruct (metrics_with t p) as [|id l].
  - cbn in Hc. by injection Hc as <-.
  - rewrite Hd. cbn [mapM] in Hc. destruct (backname (root t) id) as [nm|]; [| done]. cbn in Hc.
    destruct (mapM (backname (root t)) l); [| done]. cbn in Hc. by injection Hc as <-.
Qed.
Lemma dmgetname_domain d nm p : registering d → __dmgetname p d = inr nm → pmid_domain p = DYNAMIC_PMID.
Proof.
  intros Hr%registering_ok. unfold __dmgetname. destruct (List.find _ _) as [m|] eqn:E; [| done]. intros [= <-].
  apply find_Some in E as [[i Hi]%list_elem_of_lookup <-%Z.eqb_eq]. rewrite (reg_ids d Hr i m Hi). apply derived_domain.
Qed.

(** ** Children and the walk *)

(** Without derived metrics, in a context that asks no agent, the children are the visible
    ones of the tree. *)
Lemma children_of ctx s s1 t path np :
  located ctx s s t → ready s = Done s1 → mlist (derived s1) = [] → is_local_ctx ctx = false →
  hashed t → nonempty_names (root t) → reached (root t) path np →
  pmGetChildren ctx (Some (join path)) s = Done (mkKids (zlen (shown np)) (name <$> shown np) None, s1).
Proof.
  intros Hl Hr Hd Hm H Hn Hp. pose proof (located_root _ _ _ _ Hl) as Hroot. destruct Hl as [Hl _].
  unfold pmGetChildren, pmGetChildrenStatus. rewrite Hl. cbn -[join children_local ready __dmchildren]. rewrite Hroot, Hm.
  cbn -[join children_local ready __dmchildren].
  assert ((match join path with [] => Some (root t) | _ => locate (components (join path)) (root t) end) = Some np) as E.
  { destruct Hp as [[-> ->] | Hp]; [done |].
    assert (join path ≠ []) as Hj.
    { apply join_path_nonempty; [by apply visible_walk, proj1, walk_nonempty in Hp | by eapply visible_names]. }
    destruct (join path) eqn:Ej; [done |]. rewrite <- Ej, components_join.
    - by apply visible_locate; [apply (hs_uniq t H) |].
    - by apply visible_walk, proj1, walk_nonempty in Hp.
    - eapply walk_plain; [apply (hs_names t H) |]. by apply visible_walk in Hp as [? _]. }
  unfold children_local. rewrite E.
  assert (__dmchildren (join path) (derived s1) = Kids PM_ERR_NAME []) as Edm by (unfold __dmchildren; by rewrite Hd).
  destruct (first np) as [|k0 l0] eqn:Ef.
  - rewrite andb_false_r. cbn -[join ready __dmchildren]. rewrite Hr. cbn -[join __dmchildren]. rewrite Edm. unfold shown. by rewrite Ef.
  - cbn -[join ready __dmchildren filter]. rewrite Hr. cbn -[join __dmchildren filter]. rewrite Edm. unfold shown. by rewrite Ef.
Qed.
Lemma traverse_visits fuel : ∀ ctx s s1 t path np,
  located ctx s s t → ready s = Done s1 → mlist (derived s1) = [] → is_local_ctx ctx = false →
  hashed t → nonempty_names (root t) → reached (root t) path np → (length (nodes np) <= fuel)%nat →
  TraversePMNS_local fuel ctx (join path) s = Done (0, visits (join path) np, s1).
Proof.
  induction fuel as [|fuel IH]; intros ctx s s1 t path np Hl Hr Hd Hm H Hn Hp Hf; [cbn in Hf; lia |].
  cbn -[join]. rewrite (children_of ctx s s1 t path np) by done. cbn -[join].
  rewrite (proj2 (Z.ltb_ge _ _)) by lia. destruct (Z.ltb_spec 0 (zlen (shown np))) as [Hlt|Hge].
  2:{ unfold visits. by destruct (shown np). }
  assert (shown np ≠ []) as Hne by (intros E; rewrite E in Hlt; done).
  assert (∀ k, k ∈ shown np → name k ≠ []) as Hkn.
  { intros k Hk. pose proof (reached_child _ _ _ _ Hp Hk) as Hv. apply visible_names in Hv; [| done].
    apply Forall_app in Hv as [_ Hv]. by apply Forall_inv in Hv. }
  rewrite visits_eq; [| right; by apply Forall_forall | done].
  assert (path = [] ∨ join path ≠ []) as Hj.
  { destruct Hp as [[-> _] | Hp]; [by left | right]. apply join_path_nonempty; [by apply visible_walk, proj1, walk_nonempty in Hp | by eapply visible_names]. }
  assert (located ctx s1 s1 t) as Hl1 by (apply ready_done in Hr as (d & _ & ->); by apply located_derived).
  pose proof (ready_again _ _ Hr) as Hr1.
  assert (∀ s2 l, (∀ k, k ∈ l → k ∈ shown np) → located ctx s2 s2 t → ready s2 = Done s1 → l ≠ [] ∨ s2 = s1 →
    (fix visit (enfants : list str) (s : state) : run (Z * list str * state) :=
       match enfants with
       | [] => Done (0, [], s)
       | e :: enfants =>
           '(sts, l, s) ← TraversePMNS_local fuel ctx (sub_path (join path) e) s;
           if sts <? 0 then Done (sts, l, s)
           else '(sts, l', s) ← visit enfants s; Done (sts, l ++ l', s)
       end) (name <$> l) s2 = Done (0, flat_map (λ k, visits (sub_path (join path) (name k)) k) l, s1)) as Hv.
  { intros s2 l. revert s2. induction l as [|k l IHl]; intros s2 Hin Hl2 Hr2 Hs2; [destruct Hs2 as [? | ->]; done |].
    rewrite fmap_cons. pose proof (Hin k ltac:(by left)) as Hk. pose proof (reached_child _ _ _ _ Hp Hk) as Hvk.
    assert (sub_path (join path) (name k) = join (path ++ [name k])) as Ej by (by apply sub_path_join).
    rewrite Ej. rewrite (IH ctx s2 s1 t (path ++ [name k]) k); [| done .. | by right |].
    2:{ apply list_elem_of_filter in Hk as [_ Hk]. apply list_elem_of_split in Hk as (l1 & l2 & E). unfold nodes in Hf. rewrite below_eq, E in Hf. cbn [length] in Hf. rewrite flat_map_app in Hf. cbn [flat_map] in Hf.
        rewrite !length_app in Hf. lia. }
    cbn -[join]. rewrite (IHl s1); [| intros k' Hk'; apply Hin; by right | done | done | by right]. cbn -[join]. by rewrite Ej. }
  apply (Hv s1 (shown np)); [done | done | done | by left].
Qed.

(** ** Theorems *)

(** C20. The names that [pmNameAll] finds for an identifier are exactly the names that
    [pmLookupName] takes to it, each there once, and [pmNameID] finds the first of them. *)
Theorem names_and_ids ctx s s' t p old :
  located ctx s s' t → is_local_ctx ctx = false → registering (derived s') →
  hashed t → closed_up (root t) → leafy (root t) → 0 <= p < PMID_MASK → pmid_domain p ≠ DYNAMIC_PMID →
  (∀ nm, (∃ n names s1, pmNameAll ctx p s = Done (n, names, s1) ∧ nm ∈ names) ↔
         (∃ s1, pmLookupName ctx [nm] [old] s = Done (1, [p], s1))) ∧
  (∀ n nm names s1, pmNameAll ctx p s = Done (n, nm :: names, s1) → NoDup (nm :: names) ∧ pmNameID ctx p s = Done (0, Some nm, s1)).
Proof.
  intros Hl Hm Hreg H Hc Hleaf Hp Hdom.
  assert (dynamic p = false) as Hd by (unfold dynamic; by rewrite (proj2 (Z.eqb_neq _ _) Hdom)).
  rewrite (name_all_exact ctx s s' t p Hl H Hp Hd), (name_id_exact ctx s s' t p Hl H Hp Hd).
  assert (∀ n names s1, name_derived p s' = Done (n, names, s1) → names = [] ∧ n < 0) as Hder.
  { intros n names s1. unfold name_derived. destruct (ready s') as [s2| | |] eqn:Er; try done. cbn.
    destruct (__dmgetname p (derived s2)) as [e|nm] eqn:E.
    - intros [= <- <- _]. split; [done |]. unfold __dmgetname in E. destruct (List.find _ _); [done |]. by injection E as <-.
    - apply dmgetname_domain in E; [done |]. by eapply ready_registering. }
  split_and!.
  - intros nm. split.
    + intros (n & names & s1 & E & Hnm). assert (nm ∈ names_with (root t) p) as Hin.
      { destruct (names_with (root t) p); [| by injection E as _ <- _]. apply Hder in E as [-> _]. by apply elem_of_nil in Hnm. }
      apply elem_of_names in Hin as (path & x & Hw & <- & ->). exists s'.
      eapply lookup_located; [done | by rewrite Hm | by apply locate_join |]. apply Hleaf; [by eapply walk_nodes | by apply plain_is_metric].
    + intros (s1 & E). destruct (lookup_found ctx s s' t nm old p s1) as (x & Hx & Hf & <-); [done .. |].
      assert (nm ∈ names_with (root t) (pmid x)) as Hin.
      { apply elem_of_names. exists (components nm), x. apply locate_visible, visible_walk in Hx as [Hw _].
        split_and!; [done | done | by rewrite join_components]. }
      destruct (names_with (root t) (pmid x)) as [|y l]; [by apply elem_of_nil in Hin |]. eauto.
  - intros n nm names s1. assert (NoDup (names_with (root t) p)) as Hnd.
    { unfold names_with. rewrite reverse_Permutation. apply NoDup_fmap_2_strong.
      - intros [q x] [q' x'] [_ Hq]%list_elem_of_filter [_ Hq']%list_elem_of_filter E. cbn in E.
        apply (f_equal components) in E. rewrite !components_join in E
          by first [by eapply walk_nonempty | by eapply walk_plain; [apply (hs_names t H) |]]. subst q'.
        apply walk_get in Hq, Hq'; [| apply (hs_uniq t H) ..]. congruence.
      - apply NoDup_filter, (NoDup_fmap_1 fst), walk_NoDup, (hs_uniq t H). }
    destruct (names_with (root t) p); [intros [? _]%Hder; done |]. intros [= _ <- <- <-]. done.
Qed.

Lemma locate_plain t path : hashed t → ∀ x, (path, x) ∈ visible (root t) → components (join path) = path.
Proof.
  intros H x Hv. apply components_join; [by apply visible_walk, proj1, walk_nonempty in Hv |].
  eapply walk_plain; [apply (hs_names t H) |]. by apply visible_walk in Hv as [? _].
Qed.
Lemma visible_NoDup r : uniq r → NoDup (visible r).
Proof.
  intros Hu. assert (NoDup (walk r)) as Hw by (by eapply NoDup_fmap_1, walk_NoDup).
  eapply sublist_NoDup; [exact Hw |]. clear Hw Hu. induction r as [i s m l IH] using node_ind'. rewrite visible_eq, walk_eq. cbn [first].
  induction IH as [|k l Hk _ IHl]; [done |]. cbn [flat_map]. apply sublist_app; [| done].
  destruct (marked (pmid k)); [apply sublist_nil_l | apply sublist_skip]. by apply fmap_sublist.
Qed.

(** C21. When there are no derived metrics, the walk from the root calls the function for
    each name that leads to a visible node without visible children, and for no other,
    once; it ends when it may go as deep as there are nodes. *)
Theorem traverse_all ctx s s' s1 t fuel :
  located ctx s s' t → ready s' = Done s1 → mlist (derived s1) = [] → is_local_ctx ctx = false →
  hashed t → nonempty_names (root t) → shown (root t) ≠ [] → (length (nodes (root t)) <= fuel)%nat →
  ∃ names, TraversePMNS fuel ctx (Some []) s = Done (0, names, s1) ∧ NoDup names ∧
           ∀ nm, nm ∈ names ↔ ∃ x, locate (components nm) (root t) = Some x ∧ shown x = [].
Proof.
  intros Hl Hr Hd Hm H Hn Hs Hf. exists (visits [] (root t)). split_and!.
  - unfold TraversePMNS. destruct Hl as [Hl Ht]. rewrite Hl. cbn [mbind run_bind].
    change (PMNS_LOCAL <? 0) with false. change (PMNS_LOCAL =? PMNS_LOCAL) with true. cbn match.
    change (@nil byte) with (join []). apply (traverse_visits fuel ctx s' s1 t []); [| done .. | by left | done].
    by apply (located_again ctx s).
  - unfold visits. destruct (shown (root t)); [done |]. apply NoDup_fmap_2_strong; [| apply NoDup_filter, visible_NoDup, (hs_uniq t H)].
    intros [p x] [q y] [_ Hp]%list_elem_of_filter [_ Hq]%list_elem_of_filter E. cbn in E. apply (f_equal components) in E.
    rewrite (locate_plain t p H x Hp), (locate_plain t q H y Hq) in E. subst q. apply visible_locate in Hp, Hq; [| apply (hs_uniq t H) ..]. congruence.
  - intros nm. unfold visits. destruct (shown (root t)); [done |]. rewrite list_elem_of_fmap. split.
    + intros ([p x] & -> & [E Hv]%list_elem_of_filter). exists x. split; [| done]. cbn [fst]. change (sub_path [] (join p)) with (join p).
      rewrite (locate_plain t p H x Hv). by apply visible_locate; [apply (hs_uniq t H) |].
    + intros (x & Hx & E). exists (components nm, x). split; [cbn; by rewrite join_components |].
      apply list_elem_of_filter. split; [done |]. by apply locate_visible.
Qed.

Lemma stitch_spec want k x :
  (want = true → offspring k ≠ [] → ∃ sl, statuslist k = Some sl ∧ length sl = length (offspring k)) → num k = zlen (offspring k) → NoDup (offspring k) → NoDup x.*1 →
  ∃ k', stitch_list want k x = Done k' ∧ num k' = zlen (offspring k') ∧ NoDup (offspring k') ∧
        (∀ w, w ∈ offspring k' ↔ w ∈ offspring k ∨ w ∈ x.*1) ∧
        (want = true → ∃ sl', statuslist k' = Some sl' ∧ length sl' = length (offspring k')).
Proof.
  intros Hw Hk Hnd Hx. unfold stitch_list. rewrite Hk.
  set (old := if 0 <? zlen (offspring k) then offspring k else []).
  assert (old = offspring k) as -> by (unfold old; destruct (offspring k); done).
  set (new := filter _ x).
  assert (NoDup (offspring k ++ new.*1)) as Hn.
  { apply NoDup_app. split_and!; [done | |].
    - intros w Hw1 ([w' st] & -> & [Hf _]%list_elem_of_filter)%list_elem_of_fmap. apply negb_true_iff, bool_decide_eq_false_1 in Hf. by apply Hf.
    - eapply sublist_NoDup; [exact Hx |]. apply fmap_sublist, sublist_filter. }
  assert (∀ w, w ∈ offspring k ++ new.*1 ↔ w ∈ offspring k ∨ w ∈ x.*1) as Hin.
  { intros w. rewrite elem_of_app, !list_elem_of_fmap. split.
    - intros [? | (e & -> & [_ He]%list_elem_of_filter)]; [by left | right; eauto].
    - intros [? | (e & -> & He)]; [by left |]. destruct (decide (e.1 ∈ offspring k)) as [?|Hno]; [by left | right].
      exists e. split; [done |]. apply list_elem_of_filter. split; [| done]. apply negb_true_iff. by apply bool_decide_eq_false_2. }
  assert (zlen (offspring k) + zlen new = zlen (offspring k ++ new.*1)) as Hlen by (rewrite length_app, length_fmap; lia).
  destruct want.
  - destruct (decide (offspring k = [])) as [Eo|Eo].
    + rewrite Eo in *. change (0 <? zlen []) with false. cbn match. eexists. split; [done |]. cbn [num offspring statuslist app] in *.
      split_and!; [by rewrite length_fmap | done | done |]. intros _. eexists. split; [done |]. by rewrite !length_fmap.
    + destruct (Hw eq_refl Eo) as (sl & -> & Hsl). assert (0 < zlen (offspring k)) as Hpos by (destruct (offspring k); [done | cbn; lia]).
      rewrite (proj2 (Z.ltb_lt _ _) Hpos). eexists. split; [done |]. split_and!; [done .. |]. intros _. eexists. split; [done |].
      cbn [offspring]. rewrite !length_app, !length_fmap. lia.
  - eexists. split; [done |]. split_and!; done.
Qed.


Definition base_pmid (n : node) : Z := Z.land (pmid n) PMID_MASK.
Lemma pick_metric t x :
  hashed t → NoDup (base_pmid <$> metrics (root t)) → x ∈ metrics (root t) → pick t (base_pmid x) = Some (nid x).
Proof.
  intros H Hnd Hx. pose proof Hx as [Em Hb]%list_elem_of_filter.
  assert (0 <= base_pmid x < 2^31) as Hr by (unfold base_pmid; rewrite land_mask; by apply Z.mod_pos_bound).
  destruct (pick t (base_pmid x)) as [id|] eqn:E.
  - apply pick_spec in E as (y & Hy & <- & Ey); [| done]. f_equal. f_equal. eapply (NoDup_same base_pmid); [done .. |].
    unfold base_pmid in *. by rewrite Ey, land_mask, land_mask, Z.mod_mod.
  - exfalso. unfold pick in E.
    assert (nid x ∈ chain t (base_pmid x)) as Hin.
    { unfold chain. pose proof (hs_size t H). rewrite (hs_chain t H).
      - apply elem_of_reverse, list_elem_of_fmap_2, list_elem_of_filter. split; [| done]. unfold in_bucket. by rewrite Em, Nat.eqb_refl.
      - rewrite (hs_length t H). unfold bucket. pose proof (Z.mod_pos_bound (base_pmid x) (htabsize t)). lia. }
    eapply List.find_none in E; [| by apply list_elem_of_In]. cbv beta in E. apply Z.eqb_neq in E. apply E.
    rewrite pmid_at_in by (exact (hs_ids t H) || by apply below_nodes). unfold base_pmid. by rewrite !land_mask, Z.mod_mod.
Qed.
Lemma hits_leaf l x : first x = [] → hits l x = true ↔ nid x ∈ l.
Proof.
  intros Hf. rewrite hits_spec. assert (nodes x = [x]) as -> by (unfold nodes; by rewrite below_eq, Hf). split.
  - by intros (y & ->%list_elem_of_singleton & ?).
  - intros Hx. exists x. split; [by apply list_elem_of_singleton | done].
Qed.
Lemma trim_located t ps path x :
  hashed t → leafy (root t) → NoDup (base_pmid <$> metrics (root t)) → Forall (λ p, 0 <= p < 2^31) ps →
  (path, x) ∈ walk (root t) → metric x = true →
  is_Some (locate path (root (trim t ps))) ↔ base_pmid x ∈ ps.
Proof.
  intros H Hleaf Hnd Hps Hw Hm. pose proof (trim_hashed t ps H) as Ht. pose proof (trim_closed t ps H) as Hc.
  assert (root (trim t ps) = remark (trimmed t ps) (root t)) as Er by (by rewrite trim_remark).
  rewrite Er in *. set (f := trimmed t ps) in *.
  assert (tames f (root t)) as Hf by apply trimmed_tames.
  assert (x ∈ nodes (root t)) as Hxn by (by eapply below_nodes, walk_nodes).
  assert (x ∈ metrics (root t)) as Hxm by (by apply metrics_nodes).
  assert ((path, remark f x) ∈ walk (remark f (root t))) as Hw' by (apply elem_of_walk_remark; eauto).
  assert (metric (remark f x) = true) as Hm' by (rewrite metric_remark; [done | by apply Hf]).
  pose proof (hs_uniq _ Ht) as Hu. rewrite Er in Hu.
  assert (is_Some (locate path (remark f (root t))) ↔ marked (f x) = false) as ->.
  { split.
    - intros (y & [Hy Hm1]%locate_visible%visible_walk). apply walk_get in Hy, Hw'; [| done ..]. rewrite Hw' in Hy. injection Hy as <-.
      by rewrite pmid_remark in Hm1.
    - intros Hx. exists (remark f x). apply visible_locate; [done |]. apply visible_closed; [done .. |]. by rewrite pmid_remark. }
  assert (marked (f x) = false ↔ hits (omap (pick t) ps) x = true) as ->.
  { unfold f, trimmed. destruct (hits _ x); [by rewrite marked_mark |]. unfold mark_bearing.
    assert (bears x = true) as -> by (apply bears_spec; exists x; split; [apply nodes_self | done]). by rewrite marked_mark. }
  rewrite hits_leaf by (apply Hleaf; [by eapply walk_nodes | done]). rewrite list_elem_of_omap. split.
  - intros (p & Hp & E). rewrite Forall_forall in Hps. pose proof (Hps p Hp). apply pick_spec in E as (y & Hy & Eid & Ey); [| done].
    assert (y = x) as ->.
    { eapply (NoDup_same nid); [exact (hs_ids t H) | | done | done]. apply list_elem_of_filter in Hy as [_ Hy]. by apply below_nodes. }
    unfold base_pmid. rewrite Ey, land_mask, Z.mod_small by lia. done.
  - intros Hp. exists (base_pmid x). split; [done |]. by apply pick_metric.
Qed.

(** With a tree that was loaded, what the tree holds may change. *)
Lemma located_set_mem ctx s t m t' :
  havePmLoadCall s = true → located ctx s s t → curr_tree (set_mem m s) = Done t' → located ctx (set_mem m s) (set_mem m s) t'.
Proof.
  intros Hc [Hl _] Ht. split; [| done]. unfold GetLocation, pmGetPMNSLocation in *. destruct s as [me na ma cu ex ha us de].
  cbn in Hc. subst ha. cbn [useExtPMNS set_mem] in *. destruct us; [done |]. cbn in *. destruct ma; [| done]. cbn in *. by injection Hl as ->.
Qed.

(** In an archive context, after a name space was loaded, trimming leaves exactly the
    names whose metrics are in the archive. *)
Lemma trim_to_archive magic l_pmns ps s s0 t :
  let ctx := Some (PM_CONTEXT_ARCHIVE magic l_pmns ps) in
  located ctx s s0 t → havePmLoadCall s = true → hashed t → leafy (root t) →
  NoDup (base_pmid <$> metrics (root t)) → Forall (λ p, 0 <= p < 2^31) ps →
  ∃ s' t', pmTrimNameSpace ctx s = Done (0, s') ∧ located ctx s' s' t' ∧ hashed t' ∧ closed_up (root t') ∧
    ∀ path x, (path, x) ∈ walk (root t) → metric x = true → is_Some (locate path (root t')) ↔ base_pmid x ∈ ps.
Proof.
  intros ctx Hl Hcall H Hleaf Hnd Hps. pose proof (located_again _ _ _ _ Hl) as Hl'.
  assert (havePmLoadCall s0 = true) as Hc0.
  { destruct Hl as [Hl _]. unfold GetLocation, pmGetPMNSLocation in Hl. rewrite Hcall in Hl. destruct (useExtPMNS s); [by injection Hl as <- |].
    cbn in Hl. destruct (main_pmns s); cbn in Hl; [by injection Hl as <- | done]. }
  pose proof Hl as [Hloc Ht]. unfold curr_tree in Ht. destruct (curr_pmns s0) as [a|] eqn:Ea; [| done]. cbn in Ht.
  destruct (mem s0 !! a) as [[| |t1]|] eqn:Em; try done. injection Ht as ->.
  exists (set_mem (<[a := Loaded (trim t ps)]> (mem s0)) s0), (trim t ps). split_and!.
  - unfold pmTrimNameSpace. rewrite Hloc. cbn -[trim]. rewrite Hc0. unfold update_curr. by rewrite Ea, Em.
  - eapply located_set_mem; [done .. |]. unfold curr_tree. cbn. rewrite Ea. cbn. by rewrite lookup_insert_eq.
  - by apply trim_hashed.
  - by apply trim_closed.
  - intros path x Hw Hm. by apply trim_located.
Qed.

(** ** Safety *)

Definition sound_tree (s : state) (a : nat) : Prop := ∃ t, mem s !! a = Some (Loaded t) ∧ hashed t.
(** Every tree that the routines may be led to is in order; what the environment supplies,
    the default name space and the file of derived metrics, can be read. *)
Record sound (ctx : option context) (s : state) : Prop := {
  so_main : ∀ a, main_pmns s = Some a → sound_tree s a;
  so_ext : useExtPMNS s = true → ∃ a, curr_pmns s = Some a ∧ sound_tree s a;
  so_ctx : match ctx with
           | Some (PM_CONTEXT_HOST _ _ _ _) => False
           | Some (PM_CONTEXT_ARCHIVE _ l _) => ∃ a, l = Some a ∧ sound_tree s a
           | _ => True
           end;
  so_default : ∃ sts m, loadascii false (pmns_file None) = Some (Result sts m) ∧ (m = Unloaded ∧ sts < 0 ∨ ∃ t, m = Loaded t ∧ hashed t);
  so_derived : ∀ r, is_Some (init derived_file r);
  so_fresh : ∀ a, is_Some (mem s !! a) → (a < next_addr s)%nat }.
Lemma sound_tree_insert s a m : (∀ b, is_Some (mem s !! b) → (b < next_addr s)%nat) → sound_tree s a →
  ∃ t, <[next_addr s := m]> (mem s) !! a = Some (Loaded t) ∧ hashed t.
Proof.
  intros Hf (t & E & H). exists t. split; [| done]. rewrite lookup_insert_ne; [done |]. intros <-. specialize (Hf (next_addr s)).
  rewrite E in Hf. by apply Nat.lt_irrefl with (next_addr s), Hf.
Qed.
(** Soundness is about the trees only. *)
Lemma sound_same ctx s s' :
  sound ctx s → mem s' = mem s → next_addr s' = next_addr s → main_pmns s' = main_pmns s →
  (useExtPMNS s' = true → useExtPMNS s = true ∧ curr_pmns s' = curr_pmns s) → sound ctx s'.
Proof.
  intros [H1 H2 H3 H4 H5 H6] Em En Ep Eu. constructor; unfold sound_tree in *; rewrite ?Em, ?En, ?Ep; try done.
  intros [Hu ->]%Eu. by apply H2.
Qed.
Lemma GetLocation_sound ctx s : sound ctx s →
  ∃ loc s', GetLocation ctx s = Done (loc, s') ∧ sound ctx s' ∧ (loc < 0 ∨ ∃ t, located ctx s s' t ∧ hashed t ∧ loc = PMNS_LOCAL).
Proof.
  intros Hs. pose proof Hs as [H1 H2 H3 H4 H5 H6]. unfold located. unfold GetLocation at 1, pmGetPMNSLocation at 1.
  assert (∀ s' a, GetLocation ctx s = Done (PMNS_LOCAL, s') → curr_pmns s' = Some a → sound_tree s' a →
    ∃ t, (GetLocation ctx s = Done (PMNS_LOCAL, s') ∧ curr_tree s' = Done t) ∧ hashed t ∧ PMNS_LOCAL = PMNS_LOCAL) as Hok.
  { intros s' a El Ec (t & Em & Ht). exists t. split_and!; [done | | done | done]. unfold curr_tree. rewrite Ec. cbn. by rewrite Em. }
  destruct (useExtPMNS s) eqn:Eu.
  { destruct (H2 eq_refl) as (a & Ea & Ht). exists PMNS_LOCAL, s. split_and!; [done | done | right]. apply (Hok s a); [| done ..].
    unfold GetLocation, pmGetPMNSLocation. by rewrite Eu. }
  destruct (havePmLoadCall s) eqn:Eh; cbn [mbind run_bind].
  { destruct (main_pmns s) as [a|] eqn:Em; cbn.
    - exists PMNS_LOCAL, (set_curr (main_pmns s) s). rewrite Em. split_and!; [done | apply (sound_same ctx s); [done .. | by cbn; rewrite Eu] | right].
      apply (Hok _ a); [| done | by apply H1]. unfold GetLocation, pmGetPMNSLocation. rewrite Eu, Eh, Em. cbn. by rewrite Em.
    - eexists _, s. split_and!; [done | done | by left]. }
  destruct ctx as [[fd v o h | | m l ps |]|]; [done | | | |].
  - destruct multi eqn:Emu; [eexists _, s; split_and!; [done | done | by left] |]. unfold LoadDefault. destruct (main_pmns s) as [a|] eqn:Em; cbn.
    + exists PMNS_LOCAL, (set_curr (main_pmns s) s). rewrite Em. split_and!; [done | apply (sound_same _ s); [done .. | by cbn; rewrite Eu] | right].
      apply (Hok _ a); [| done | by apply H1]. unfold GetLocation, pmGetPMNSLocation, LoadDefault. rewrite Eu, Eh, Emu, Em. cbn. by rewrite Em.
    + unfold load. rewrite Em. destruct H4 as (sts & m & El & Hm). rewrite El. destruct Hm as [[-> Hneg] | (t & -> & Ht)].
      { cbn. rewrite (proj2 (Z.ltb_lt _ _) Hneg). cbn. eexists _, s. split_and!; [done | done | by left]. }
      set (s1 := set_main _ _). assert (sound (Some PM_CONTEXT_LOCAL) s1) as Hs1.
      { constructor; unfold sound_tree; cbn; try done.
        - intros a [= <-]. exists t. by rewrite lookup_insert_eq.
        - by rewrite Eu.
        - by exists sts, (Loaded t); split; [| right; eauto].
        - intros a. destruct (decide (a = next_addr s)) as [->|Hne]; [lia |]. rewrite lookup_insert_ne by done. intros Ha%H6. lia. }
      cbn. destruct (sts <? 0) eqn:Ests; cbn.
      * eexists _, s1. split_and!; [done | done | by left].
      * exists PMNS_LOCAL, (set_curr (Some (next_addr s)) s1). split_and!; [done | apply (sound_same _ s1); [done .. | by cbn; rewrite Eu] | right].
        apply (Hok _ (next_addr s)); [| done | exists t; cbn; by rewrite lookup_insert_eq].
        unfold GetLocation, pmGetPMNSLocation, LoadDefault, load. rewrite Eu, Eh, Emu, Em, El. cbn. rewrite Ests. cbn. unfold s1. by rewrite ?Eu, ?Eh, ?Em.
  - destruct (Z.land m 255 =? 2) eqn:E2; cbn.
    + destruct H3 as (a & -> & Ht). exists PMNS_LOCAL, (set_curr (Some a) s). split_and!; [done | apply (sound_same _ s); [done .. | by cbn; rewrite Eu] | right].
      apply (Hok _ a); [| done | done]. unfold GetLocation, pmGetPMNSLocation. rewrite Eu, Eh. cbn -[Z.land Z.eqb]. by rewrite E2.
    + eexists _, s. split_and!; [done | done | by left].
  - eexists _, s. split_and!; [done | done | by left].
  - eexists _, s. split_and!; [done | done | by left].
Qed.
Lemma ready_sound ctx s : sound ctx s → ∃ s', ready s = Done s' ∧ sound ctx s' ∧ mem s' = mem s.
Proof.
  intros Hs. unfold ready. destruct (so_derived ctx s Hs (derived s)) as [d ->]. eexists. split; [done |]. split; [| done].
  by apply (sound_same ctx s).
Qed.
Definition answers {A} (ctx : option context) (m : run (A * state)) : Prop := ∃ a s, m = Done (a, s) ∧ sound ctx s.
Lemma lookup_sound ctx names old s : sound ctx s → answers ctx (pmLookupName ctx names old s).
Proof.
  intros Hs. destruct (GetLocation_sound ctx s Hs) as (loc & s' & El & Hs' & Hloc). unfold answers, pmLookupName. rewrite El.
  cbn [mbind run_bind]. destruct (zlen names <? 1); [eauto |]. destruct (is_local_ctx ctx && multi); [eauto |].
  assert (∀ sts ps nfail, ∃ a s2,
    ('(sts, pmidlist, s) ← (if (sts <? 0) || (0 <? nfail) then
         s ← ready s'; let '(ps, nfail) := lookup_derived (derived s) names ps 0 in Done (if nfail =? 0 then zlen names else sts, ps, s)
       else Done (sts, ps, s'));
    Done (if (sts =? 0) && (zlen names =? 1) then PM_ERR_NAME else sts, pmidlist, s)) = Done (a, s2) ∧ sound ctx s2) as Hend.
  { intros sts ps nfail. destruct (_ || _); [| cbn; eauto]. destruct (ready_sound ctx s' Hs') as (s2 & -> & Hs2 & _). cbn [mbind run_bind].
    destruct (lookup_derived _ _ _ _) as [ps' k]. cbn. eauto. }
  destruct Hloc as [Hneg | (t & Hl & _ & ->)].
  - rewrite (proj2 (Z.ltb_lt _ _) Hneg). cbn [mbind run_bind]. apply Hend.
  - change (PMNS_LOCAL <? 0) with false. change (PMNS_LOCAL =? PMNS_LOCAL) with true. cbn match. rewrite (located_root _ _ _ _ Hl). cbn [mbind run_bind].
    destruct (lookup_all _ _ _ _ _) as [[ps sts] nfail]. cbn [mbind run_bind]. apply Hend.
Qed.
Lemma backnames_done t l : hashed t → (∀ id, id ∈ l → ∃ x, x ∈ below (root t) ∧ nid x = id) → is_Some (mapM (backname (root t)) l).
Proof.
  intros H Hl. apply mapM_is_Some, Forall_forall. intros id (x & Hx & <-)%Hl. apply below_walk in Hx as (q & Hq).
  unfold backname, compose. rewrite (walk_path_to _ q x); [by eexists | exact (hs_ids t H) | done].
Qed.
Lemma metrics_with_below t p : hashed t → ∀ id, id ∈ metrics_with t p → ∃ x, x ∈ below (root t) ∧ nid x = id.
Proof.
  intros H id Hid. unfold metrics_with in Hid. rewrite filter_List in Hid. apply list_elem_of_filter in Hid as [_ Hid].
  assert (id ∈ concat (htab t)) as (m & [_ Hm]%list_elem_of_filter & <-)%(chains_metrics t _ H); [| eauto].
  unfold chain in Hid. destruct (decide (bucket (htabsize t) p < length (htab t))%nat) as [Hlt|Hge].
  - apply list_elem_of_In, in_concat. exists (htab t !!! bucket (htabsize t) p). rewrite <- !list_elem_of_In.
    split; [by apply list_elem_of_lookup_total_2 | done].
  - rewrite list_lookup_total_alt, lookup_ge_None_2 in Hid by lia. by apply elem_of_nil in Hid.
Qed.
Lemma name_sound ctx p s : sound ctx s → answers ctx (pmNameID ctx p s) ∧ answers ctx (pmNameAll ctx p s).
Proof.
  intros Hs. destruct (GetLocation_sound ctx s Hs) as (loc & s' & El & Hs' & Hloc). unfold answers, pmNameID, pmNameAll, name_derived. rewrite El.
  cbn [mbind run_bind]. destruct (ready_sound ctx s' Hs') as (s2 & Er & Hs2 & _).
  destruct Hloc as [Hneg | (t & Hl & H & ->)].
  { rewrite (proj2 (Z.ltb_lt _ _) Hneg). split; eauto 6. }
  change (PMNS_LOCAL <? 0) with false. change (PMNS_LOCAL =? PMNS_LOCAL) with true. cbn match. destruct Hl as [_ Ht]. rewrite Ht. cbn [mbind run_bind].
  pose proof (hs_size t H). rewrite (proj2 (Z.eqb_neq (htabsize t) 0)) by lia. rewrite Er.
  pose proof (backnames_done t (metrics_with t p) H (metrics_with_below t p H)) as [names Hn].
  destruct (metrics_with t p) as [|id l]; cbn [mbind run_bind].
  - split; [destruct (of_derived _); eauto |]. destruct (dynamic p); [eauto |]. destruct (__dmgetname p (derived s2)); eauto.
  - rewrite Hn. cbn [mapM] in Hn. destruct (backname (root t) id); [| done]. split; destruct (dynamic p); eauto.
Qed.
Lemma trim_sound ctx s : sound ctx s → answers ctx (pmTrimNameSpace ctx s).
Proof.
  intros Hs. destruct (GetLocation_sound ctx s Hs) as (loc & s' & El & Hs' & Hloc). unfold answers, pmTrimNameSpace. rewrite El.
  cbn [mbind run_bind]. destruct Hloc as [Hneg | (t & [_ Ht] & H & ->)].
  { rewrite (proj2 (Z.ltb_lt _ _) Hneg). cbn. eauto. }
  change (PMNS_LOCAL <? 0) with false. change (PMNS_LOCAL =? PMNS_REMOTE) with false. cbn match.
  assert (∀ f, hashed (f t) → ∃ s2, update_curr f s' = Done s2 ∧ sound ctx s2) as Hup.
  { intros f Hft. unfold update_curr, curr_tree in *. destruct (curr_pmns s') as [a|] eqn:Ea; [| done]. cbn in Ht.
    destruct (mem s' !! a) as [[| |t1]|] eqn:Em; try done. injection Ht as ->. eexists. split; [done |].
    assert (∀ b, sound_tree s' b → sound_tree (set_mem (<[a := Loaded (f t)]> (mem s')) s') b) as Htr.
    { intros b (t2 & E2 & H2). unfold sound_tree. cbn. destruct (decide (a = b)) as [->|Hne].
      - exists (f t). by rewrite lookup_insert_eq.
      - exists t2. by rewrite lookup_insert_ne. }
    destruct Hs' as [H1 H2 H3 H4 H5 H6]. constructor; try done.
    - intros b Hb. by apply Htr, H1.
    - intros Hu. destruct (H2 Hu) as (b & Hb & Hbt). exists b. split; [done | by apply Htr].
    - destruct ctx as [[| | |]|]; try done. destruct H3 as (b & Hb & Hbt). exists b. split; [done | by apply Htr].
    - intros b. cbn. destruct (decide (a = b)) as [->|Hne]; [rewrite lookup_insert_eq; intros _; apply H6; by rewrite Em |].
      rewrite lookup_insert_ne by done. apply H6. }
  destruct ctx as [[| | m l ps |]|]; cbn [mbind run_bind]; try (destruct (Hup (mark_all false)) as (s2 & -> & Hs2); [by apply mark_all_hashed | cbn; by eauto]).
  - destruct (havePmLoadCall s'); [| cbn; eauto]. destruct (Hup (λ t, trim t ps)) as (s2 & -> & Hs2); [by apply trim_hashed | cbn; by eauto].
  - cbn. eauto.
Qed.
Lemma stitch_done want k x : (want = true → 0 < num k → is_Some (statuslist k)) → ∃ k', stitch_list want k x = Done k' ∧
  (want = true → is_Some (statuslist k')).
Proof.
  intros Hk. unfold stitch_list. destruct want; [| by eexists].
  destruct (Z.ltb_spec 0 (num k)) as [H|]; [| by eexists]. destruct (Hk eq_refl H) as [sl ->]. by eexists.
Qed.
Lemma ask_done want nm np : ∃ k, ask_dso want nm np = Done k ∧ (want = true → 0 < num k → is_Some (statuslist k)).
Proof.
  unfold ask_dso. destruct (__pmLookupDSO _) as [dp|]; [| by eexists]. destruct (_ <=? _); [| by eexists].
  destruct (dso_children dp nm) as [x_num x]. destruct (Z.ltb_spec x_num 0).
  - eexists. split; [done |]. cbn. lia.
  - destruct (stitch_done want (no_kids 0) (take (Z.to_nat x_num) x)) as (k & -> & Hk); [done |]. exists k. split; [done |]. intros ? _. by apply Hk.
Qed.
Lemma children_done local want r nm : ∃ k, children_local local want r nm = Done k ∧ (want = true → 0 < num k → is_Some (statuslist k)).
Proof.
  unfold children_local. destruct (match nm with [] => _ | _ => _ end) as [np|].
  - destruct (first np) as [|k0 l]; [| eexists; split; [done |]; by intros ->].
    destruct (dynamic (pmid np) && local); [apply ask_done | by eexists].
  - destruct (if local then _ else _); [apply ask_done | by eexists].
Qed.

End names.
End PmnsNames.
Import PmnsNames.

(** ** Examples *)

(** A process that loads the lines of PmnsLoad.v and gets no answer from a pmcd. *)
#[export] Instance ex_process : process :=
  mkProcess heap_alloc false (λ _, text_source ex_lines) None (λ _, None) (λ _, NoPDU PM_ERR_TIMEOUT).
Definition ex_start : state := mkState ∅ 0 None None false false false no_metrics.
Definition after_run {A} (m : run (A * state)) : state := match m with Done (_, s) => s | _ => ex_start end.
Definition ex_s0 : state := after_run (pmLoadNameSpace None ex_start).
Definition ex_s1 : state := after_run (GetLocation None ex_s0).
Definition ex_s2 : state := match ready ex_s1 with Done s => s | _ => ex_start end.
Definition ex_t : tree := match curr_tree ex_s1 with Done t => t | _ => __pmNewPMNS end.
Lemma ex_hashed : hashed ex_t.
Proof.
  assert (loaded_tree (loadascii false (text_source ex_lines)) = Some ex_t) as E by (vm_compute; reflexivity).
  apply loaded_tree_Some in E.
  destruct (parse_all (text_tokens (text_source ex_lines)) (mkParser 0 [] 0)) as [p |] eqn:Ep; [| exfalso; revert Ep; vm_compute; discriminate].
  assert (PmnsLoad.PmnsLoad.state p = 0) as Hst.
  { enough (PmnsLoad.PmnsLoad.state <$> parse_all (text_tokens (text_source ex_lines)) (mkParser 0 [] 0) = Some 0) as Hs by (rewrite Ep in Hs; by injection Hs).
    vm_compute. reflexivity. }
  destruct (load_spec false (text_source ex_lines) (Loaded ex_t) p) as (t0 & n & t & Et & Hb & Hn & Hf); [reflexivity | reflexivity | exact E | vm_compute; reflexivity | exact Ep | exact Hst |].
  assert (t = ex_t) as -> by congruence. by eapply fix_hashed.
Qed.
Lemma ex_located : located None ex_s0 ex_s1 ex_t.
Proof. split; vm_compute; reflexivity. Qed.
Definition leafy_b (r : node) : bool := forallb (λ n, negb (metric n) || bool_decide (length (first n) = 0%nat)) (below r).
Lemma leafy_b_spec r : leafy_b r = true → leafy r.
Proof.
  intros Hb%forallb_Forall n Hn Hm. rewrite Forall_forall in Hb. specialize (Hb n Hn). rewrite Hm in Hb. cbn in Hb.
  apply bool_decide_eq_true_1 in Hb. by destruct (first n).
Qed.
Lemma nonempty_b_spec r : forallb (λ n, negb (bool_decide (name n = []))) (below r) = true → nonempty_names r.
Proof. intros Hb%forallb_Forall. eapply Forall_impl; [exact Hb |]. intros n Hn%negb_true_iff%bool_decide_eq_false_1. done. Qed.
Definition ex_pmid : Z := pmid_build 1 2 4.

Lemma names_and_ids_witness :
  (∀ nm, (∃ n names s1, pmNameAll None ex_pmid ex_s0 = Done (n, names, s1) ∧ nm ∈ names) ↔
         (∃ s1, pmLookupName None [nm] [0] ex_s0 = Done (1, [ex_pmid], s1))) ∧
  (∀ n nm names s1, pmNameAll None ex_pmid ex_s0 = Done (n, nm :: names, s1) →
     NoDup (nm :: names) ∧ pmNameID None ex_pmid ex_s0 = Done (0, Some nm, s1)).
Proof.
  apply (names_and_ids None ex_s0 ex_s1 ex_t ex_pmid 0);
    [exact ex_located | reflexivity | constructor | exact ex_hashed | | | vm_compute; split; [discriminate | reflexivity] | vm_compute; discriminate].
  - apply (marks_closed ex_t false ex_hashed). vm_compute. reflexivity.
  - apply leafy_b_spec. vm_compute. reflexivity.
Defined.
Lemma traverse_all_witness :
  ∃ names, TraversePMNS 9 None (Some []) ex_s0 = Done (0, names, ex_s2) ∧ NoDup names ∧
           ∀ nm, nm ∈ names ↔ ∃ x, locate (components nm) (root ex_t) = Some x ∧ shown x = [].
Proof.
  apply (traverse_all None ex_s0 ex_s1 ex_s2 ex_t 9);
    [exact ex_located | vm_compute; reflexivity | vm_compute; reflexivity | reflexivity | exact ex_hashed | | vm_compute; discriminate | vm_compute; lia].
  apply nonempty_b_spec. vm_compute. reflexivity.
Defined.
Definition ex_archive : option context := Some (PM_CONTEXT_ARCHIVE 2 None [ex_pmid]).
Lemma trim_to_archive_witness :
  ∃ s' t', pmTrimNameSpace ex_archive ex_s0 = Done (0, s') ∧ located ex_archive s' s' t' ∧ hashed t' ∧ closed_up (root t') ∧
    ∀ path x, (path, x) ∈ walk (root ex_t) → metric x = true → is_Some (locate path (root t')) ↔ base_pmid x ∈ [ex_pmid].
Proof.
  apply (trim_to_archive 2 None [ex_pmid] ex_s0 ex_s1 ex_t);
    [split; vm_compute; reflexivity | vm_compute; reflexivity | exact ex_hashed | | |].
  - apply leafy_b_spec. vm_compute. reflexivity.
  - apply (bool_decide_eq_true_1 _). vm_compute. reflexivity.
  - apply Forall_singleton. vm_compute. split; [discriminate | reflexivity].
Defined.
Lemma ex_sound : sound (Some PM_CONTEXT_LOCAL) ex_start.
Proof.
  constructor; [discriminate | discriminate | exact I | | |].
  - exists 0, (Loaded ex_t). split; [vm_compute; reflexivity | right]. exists ex_t. split; [reflexivity | exact ex_hashed].
  - intros r. unfold init. destruct (need_init r); by eexists.
  - intros a [x Hx]. change (mem ex_start) with (∅ : gmap nat pmns) in Hx. by rewrite lookup_empty in Hx.
Qed.

(** ** What goes wrong *)

(** When pmcd does not answer, a lookup reports success and leaves what the caller's array
    held, unless one of its elements happens to be PM_ID_NULL. *)
Definition ex_host : option context := Some (PM_CONTEXT_HOST 3 2 (Xmit.mkWfd [1000] 0) 0).
Lemma lookup_hides_timeout :
  match pmLookupName ex_host [lit "a.c"] [0] ex_start with Done (sts, ps, _) => Some (sts, ps) | _ => None end = Some (1, [0]) ∧
  match pmLookupName ex_host [lit "a.c"] [PM_ID_NULL] ex_start with Done (sts, ps, _) => Some (sts, ps) | _ => None end = Some (PM_ERR_TIMEOUT, [PM_ID_NULL]).
Proof. vm_compute. done. Qed.
(** The default name space cannot be loaded: the first question says so, the next one
    follows a NULL pointer. *)
Definition bad_process : process :=
  mkProcess heap_alloc false (λ _, text_source (lit "a {" ++ [newline] ++ lit "}" ++ [newline])) None (λ _, None) (λ _, NoPDU 0).
Lemma failed_load_then_wild :
  (fst <$> match @pmLookupName bad_process (Some PM_CONTEXT_LOCAL) [lit "a"] [0] ex_start with Done (r, _) => Some r | _ => None end) = Some PM_ERR_NOPMNS ∧
  @pmLookupName bad_process (Some PM_CONTEXT_LOCAL) [lit "a"] [0]
    (after_run (@pmLookupName bad_process (Some PM_CONTEXT_LOCAL) [lit "a"] [0] ex_start)) = Wild.
Proof. vm_compute. done. Qed.
(** In a host context [pmNameAll] does not ask for derived metrics when pmcd does not know
    the identifier; [pmNameID] does. *)
Definition with_metric : state := set_derived (register (lit "m") (lit "x") no_metrics) ex_start.
Lemma name_all_ignores_derived :
  match pmNameID ex_host (derived_pmid 1) with_metric with Done (sts, nm, _) => Some (sts, nm) | _ => None end = Some (0, Some (lit "m")) ∧
  match pmNameAll ex_host (derived_pmid 1) with_metric with Done (sts, l, _) => Some (sts, l) | _ => None end = Some (PM_ERR_TIMEOUT, []).
Proof. vm_compute. done. Qed.
(** A node whose name is empty leads the walk back to the root, without end. *)
Definition empty_name : state :=
  let t := snd (__pmFixPMNSHashTab (from_option snd __pmNewPMNS (__pmAddPMNSNode __pmNewPMNS ex_pmid (lit ".a"))) 1 false) in
  mkState {[0%nat := Loaded t]} 1 (Some 0%nat) (Some 0%nat) false true false no_metrics.
Lemma walk_without_end : TraversePMNS 50 None (Some []) empty_name = Deep.
Proof. vm_compute. done. Qed.
