(* ===== verification/PmdaTree.v ===== *)
(** The dynamic name space of an agent, libpcp_pmda/src/tree.c: indexing a tree, and the
    requests for the identifier of a name, the names of an identifier and the children of
    a name.  The tree is that of [PmnsTree]; the strings of a reply lie in one block, whose
    size the code works out before it writes them. *)
From S2P Require Import Prelude Memory Text Types PmnsTree Derive.
Import PmnsTree.Pmns.
Local Open Scope Z_scope.

Module PmdaTree.

Abbreviation after := Derive.Derive.after.

(** ** Indexing *)

Definition nonleaf (n : node) : bool := pmid n =? PM_ID_NULL.
Definition hash_in (size : Z) (np : node) (h : list (list nat)) : list (list nat) :=
  if nonleaf np then h
  else let i := bucket size (pmid np) in <[i := nid np :: h !!! i]> h.
Fixpoint TreeReindexHash (size : Z) (n : node) (h : list (list nat)) : list (list nat) :=
  let '(Node _ _ _ l) := n in
  (fix loop (l : list node) (h : list (list nat)) : list (list nat) :=
     match l with
     | [] => h
     | np :: l => loop l (TreeReindexHash size np (hash_in size np h))
     end) l h.
(** A table of negative size is not allocated. *)
Definition pmdaTreeRebuildHash (t : tree) (numpmid : Z) : tree :=
  let size := hash_size numpmid in
  if size <? 0 then set_htab [] size t
  else set_htab (TreeReindexHash size (root t) (replicate (Z.to_nat size) [])) size t.

Fixpoint NodeCount (n : node) : Z :=
  let '(Node _ _ _ l) := n in
  (fix loop (l : list node) : Z :=
     match l with
     | [] => 0
     | np :: l => (if nonleaf np then NodeCount np else 1) + loop l
     end) l.
Definition pmdaTreeSize (pmns : option tree) : Z :=
  match pmns with None => 0 | Some t => NodeCount (root t) end.

(** ** Looking up a name *)

(** The search among the children of [n]: the name of a node that goes on behind a dot is
    looked for below that node only. *)
Fixpoint NodeLookup (n : node) (nm : str) : option node :=
  let '(Node _ _ _ l) := n in
  (fix loop (l : list node) : option node :=
     match l with
     | [] => None
     | np :: l =>
         match after (name np) nm with
         | Some [] => Some np
         | Some (c :: rest) => if bool_decide (c = dot) && nonleaf np then NodeLookup np rest else loop l
         | None => loop l
         end
     end) l.
Definition pmdaTreePMID (t : tree) (nm : str) : Z + Z :=
  match NodeLookup (root t) nm with
  | None => inl PM_ERR_NAME
  | Some np => if nonleaf np then inl PM_ERR_NAME else inr (pmid np)
  end.

(** ** Names in a block of memory *)

(** The bytes for the name of a node, from the node up to the root. *)
Definition path_bytes (path : list str) : Z := foldr (λ c n, zlen c + 1 + n) 0 path.
(** What is written for it, of which the last dot is the end of the string. *)
Definition absolute_name (path : list str) : str := flat_map (λ c, c ++ [dot]) path.
(** The names, one after the other; [None]: the block has not enough [room]. *)
Fixpoint put_names (room : Z) (l : list (list str)) : option (list str) :=
  match l with
  | [] => Some []
  | path :: l =>
      let text := absolute_name path in
      if room <? zlen text then None
      else rest ← put_names (room - zlen text) l; Some (removelast text :: rest)
  end.
(** [None]: a chain that is not there, or the block is too small. *)
Definition pmdaTreeName (pmns : option tree) (p : Z) : option (Z + list str) :=
  match pmns with
  | None => Some (inl PM_ERR_PMID)
  | Some t =>
      hashchain ← htab t !! bucket (htabsize t) p;
      paths ← mapM (λ id, path_to id (root t)) (filter (λ id, pmid_at (root t) id = p) hashchain);
      match paths with
      | [] => Some (inl PM_ERR_PMID)
      | _ => names ← put_names (foldr (λ q n, path_bytes q + n) 0 paths) paths; Some (inr names)
      end
  end.

(** ** Children *)

Fixpoint put_strings (room : Z) (l : list str) : option (list str) :=
  match l with
  | [] => Some []
  | s :: l => if room <? zlen s + 1 then None else rest ← put_strings (room - (zlen s + 1)) l; Some (s :: rest)
  end.
Definition leaf_status (n : node) : Z :=
  if nonleaf n then Derive.PMNS_NONLEAF_STATUS else Derive.PMNS_LEAF_STATUS.
Definition NodeRelativeChildren (base : list node) : option (list (str * Z)) :=
  names ← put_strings (foldr (λ n len, zlen (name n) + 1 + len) 0 base) (name <$> base);
  Some (zip names (leaf_status <$> base)).
(** The size of the names of the metrics below [n], whose path is [prefix], and their
    number. *)
Fixpoint NodeChildrenGetSize (prefix : list str) (n : node) (acc : Z * Z) : Z * Z :=
  let '(Node _ _ _ l) := n in
  (fix loop (l : list node) (acc : Z * Z) : Z * Z :=
     match l with
     | [] => acc
     | np :: l =>
         loop l (if nonleaf np then NodeChildrenGetSize (prefix ++ [name np]) np acc
                 else (acc.1 + path_bytes (prefix ++ [name np]), acc.2 + 1))
     end) l acc.
(** Their names, which are written as far as there is [room]; [slots] is the number of
    pointers there is room for. *)
Record listing := mkListing { o_room : Z; o_slots : Z; o_names : list (str * Z) }.
Definition put_leaf (path : list str) (o : listing) : option listing :=
  let text := absolute_name path in
  if (o_room o <? zlen text) || (o_slots o <=? 0) then None
  else Some (mkListing (o_room o - zlen text) (o_slots o - 1) (o_names o ++ [(removelast text, Derive.PMNS_LEAF_STATUS)])).
Fixpoint NodeChildrenGetList (prefix : list str) (n : node) (o : listing) : option listing :=
  let '(Node _ _ _ l) := n in
  (fix loop (l : list node) (o : listing) : option listing :=
     match l with
     | [] => Some o
     | np :: l =>
         o ← (if nonleaf np then NodeChildrenGetList (prefix ++ [name np]) np o else put_leaf (prefix ++ [name np]) o);
         loop l o
     end) l o.
(** A metric is its only child; the loops over its siblings stop after it. *)
Definition NodeAbsoluteChildren (path : list str) (np : node) : option (list (str * Z)) :=
  if nonleaf np then
    let '(length, nmetrics) := NodeChildrenGetSize path np (0, 0) in
    o_names <$> NodeChildrenGetList path np (mkListing length nmetrics [])
  else o_names <$> put_leaf path (mkListing (path_bytes path) 1 []).
Definition pmdaTreeChildren (pmns : option tree) (nm : str) (traverse : bool) : option (Z + list (str * Z)) :=
  match pmns with
  | None => Some (inl PM_ERR_NAME)
  | Some t =>
      match NodeLookup (root t) nm with
      | None => Some (inl PM_ERR_NAME)
      | Some np =>
          if traverse then
            path ← path_to (nid np) (root t); r ← NodeAbsoluteChildren path np; Some (inr r)
          else r ← NodeRelativeChildren (first np); Some (inr r)
      end
  end.

(** ** Lookups *)

(** Metrics have no children. *)
Definition leafy (r : node) : Prop := ∀ n, n ∈ nodes r → nonleaf n = false → first n = [].
Lemma leafy_first r k : leafy r → k ∈ first r → leafy k.
Proof. intros H Hk n Hn. apply H. eapply nodes_trans; [done | by apply child_nodes]. Qed.
Lemma plain_first r k : plain_names r → k ∈ first r → plain_names k ∧ dot ∉ name k.
Proof.
  unfold plain_names. rewrite !Forall_forall. intros H Hk. split; [| apply H; by apply child_nodes].
  intros n Hn. apply H. eapply nodes_trans; [done | by apply child_nodes].
Qed.

Lemma head_component nm c tail k :
  components nm = c :: tail → dot ∉ k →
  match after k nm with
  | Some [] => c = k ∧ tail = []
  | Some (d :: rest) => if bool_decide (d = dot) then c = k ∧ tail = components rest else c ≠ k
  | None => c ≠ k
  end.
Proof.
  intros E Hk. destruct (after k nm) as [[|d rest]|] eqn:Ea.
  - apply Derive.Derive.after_Some in Ea as ->. rewrite app_nil_r, components_one in E by done. by injection E as <- <-.
  - apply Derive.Derive.after_Some in Ea as ->. case_bool_decide as Ed.
    + subst d. rewrite components_app in E by done. by injection E as <- <-.
    + intros ->. apply (f_equal join) in E. rewrite join_components in E. destruct tail as [|c' tail].
      * cbn in E. apply (f_equal length) in E. rewrite length_app in E. cbn in E. lia.
      * rewrite join_cons in E by done. apply app_inv_head in E. by injection E as -> _.
  - intros ->. apply (f_equal join) in E. rewrite join_components in E.
    assert (∃ t, nm = k ++ t) as [t Ht].
    { destruct tail as [|c' tail]; [exists []; by rewrite app_nil_r |]. rewrite join_cons in E by done. by eexists. }
    apply Derive.Derive.after_Some in Ht. congruence.
Qed.
Lemma lookup_get r nm : plain_names r → uniq r → leafy r → NodeLookup r nm = get (components nm) r.
Proof.
  revert nm. induction r as [i s p l IH] using node_ind'. intros nm Hp Hu Hl. destruct (components nm) as [|c tail] eqn:E.
  { by destruct (components_nonempty nm). }
  cbn [get first]. cbn [NodeLookup]. pose proof (uniq_names _ Hu) as Hnd. cbn [first] in Hnd.
  assert (∀ k, k ∈ l → dot ∉ name k ∧ (∀ nm, NodeLookup k nm = get (components nm) k) ∧ (nonleaf k = false → first k = [])) as H.
  { intros k Hk. rewrite Forall_forall in IH. destruct (plain_first _ k Hp Hk) as [Hpk Hdk]. split; [done |]. split.
    - intros nm'. apply IH; [done | done | by eapply uniq_first | by eapply leafy_first].
    - apply Hl. by apply child_nodes. }
  clear IH Hp Hu Hl. induction l as [|k l IHl]; [done |]. cbn [List.find].
  destruct (H k) as (Hd & IHk & Hleaf); [by left |]. apply NoDup_cons in Hnd as [Hni Hnd].
  pose proof (head_component nm c tail (name k) E Hd) as Hc.
  assert (IHl' := IHl Hnd (λ x Hx, H x (proj2 (elem_of_cons _ _ _) (or_intror Hx)))). clear IHl.
  destruct (after (name k) nm) as [[|d rest]|].
  - destruct Hc as [-> ->]. by rewrite bool_decide_eq_true_2.
  - destruct (bool_decide (d = dot)); cbn [andb].
    + destruct Hc as [-> ->]. rewrite bool_decide_eq_true_2 by done. cbn [mbind option_bind].
      pose proof (components_nonempty rest). destruct (nonleaf k) eqn:Ek.
      * rewrite IHk. by destruct (components rest).
      * rewrite IHl'. destruct (List.find _ l) as [x|] eqn:Ef.
        { apply find_Some in Ef as [Hx Ex%bool_decide_eq_true_1]. destruct Hni. rewrite <- Ex. by apply list_elem_of_fmap_2. }
        cbn [mbind option_bind]. destruct (components rest); [done |]. cbn [get]. by rewrite (Hleaf eq_refl).
    + rewrite bool_decide_eq_false_2 by congruence. exact IHl'.
  - rewrite bool_decide_eq_false_2 by congruence. exact IHl'.
Qed.
Lemma lookup_walk r nm x : plain_names r → uniq r → leafy r → NodeLookup r nm = Some x ↔ (components nm, x) ∈ walk r.
Proof. intros Hp Hu Hl. rewrite lookup_get by done. split; [apply get_walk | by apply walk_get]. Qed.

(** ** The index *)

Lemma hash_in_link size h np : hash_in size np h = link size h np.
Proof. unfold hash_in, link, known, nonleaf. by destruct (pmid np =? PM_ID_NULL). Qed.
Lemma reindex_below size n h : TreeReindexHash size n h = foldl (link size) h (below n).
Proof.
  revert h. induction n as [i s p l IH] using node_ind'. intros h. cbn [TreeReindexHash below].
  revert h. induction IH as [|k l Hk _ IHl]; intros h; [done |]. cbn [flat_map foldl]. rewrite foldl_app, hash_in_link, Hk. apply IHl.
Qed.
Lemma rebuild_table t numpmid : 0 <= numpmid → pmdaTreeRebuildHash t numpmid = table t (hash_size numpmid).
Proof.
  intros H. unfold pmdaTreeRebuildHash, table. pose proof (hash_size_bounds numpmid H).
  rewrite (proj2 (Z.ltb_ge _ _)) by lia. by rewrite reindex_below.
Qed.
(** The nodes with an identifier, as the code finds them in the table. *)
Lemma chain_of t size p : built t → 0 < size → 0 <= p < PMID_MASK →
  ∃ hashchain, htab (table t size) !! bucket size p = Some hashchain ∧ NoDup hashchain ∧
    ∀ id, id ∈ filter (λ id, pmid_at (root t) id = p) hashchain ↔ ∃ x, x ∈ below (root t) ∧ nid x = id ∧ pmid x = p.
Proof.
  intros Hb Hs Hp. set (l := filter (λ n, hashes size (bucket size p) n = true) (below (root t))).
  pose proof (bt_ids t Hb) as Hnd. exists (reverse (nid <$> l)). assert (bucket size p < Z.to_nat size)%nat as Hlt.
  { unfold bucket. pose proof (Z.mod_pos_bound p size Hs). lia. }
  split; [| split].
  - unfold table. cbn [htab set_htab].
    rewrite list_lookup_lookup_total_lt by (rewrite links_length, length_replicate; lia).
    rewrite link_chain by (rewrite length_replicate; lia). by rewrite lookup_total_replicate_2, app_nil_r by lia.
  - rewrite reverse_Permutation. unfold ids, nodes in Hnd. apply NoDup_cons in Hnd as [_ Hnd]. apply NoDup_fmap_2_strong.
    + intros x y [_ Hx]%list_elem_of_filter [_ Hy]%list_elem_of_filter. by apply (NoDup_same nid (below (root t))).
    + apply NoDup_filter. by eapply NoDup_fmap_1.
  - intros id. rewrite list_elem_of_filter, elem_of_reverse, list_elem_of_fmap. split.
    + intros [Hpid (x & -> & [_ Hx]%list_elem_of_filter)]. exists x. split; [done |]. split; [done |].
      by rewrite pmid_at_in in Hpid by (done || by apply below_nodes).
    + intros (x & Hx & <- & <-). split; [by rewrite pmid_at_in by (done || by apply below_nodes) |]. exists x. split; [done |].
      apply list_elem_of_filter. split; [| done]. unfold hashes, known. rewrite Nat.eqb_refl, andb_true_r.
      apply negb_true_iff, Z.eqb_neq. unfold PM_ID_NULL, PMID_MASK in *. lia.
Qed.

(** ** Blocks of names *)

Lemma absolute_bytes path : zlen (absolute_name path) = path_bytes path.
Proof. unfold absolute_name, path_bytes. induction path as [|c path IH]; [done |]. cbn [flat_map foldr]. rewrite !length_app. cbn [length]. lia. Qed.
Lemma absolute_join path : path ≠ [] → absolute_name path = join path ++ [dot].
Proof.
  induction path as [|c path IH]; [done |]. intros _. destruct path as [|c' path]; [cbn; by rewrite app_nil_r |].
  rewrite join_cons by done. cbn [absolute_name flat_map]. fold (absolute_name (c' :: path)). unfold absolute_name in IH. cbn [flat_map] in IH |- *.
  rewrite IH by done. by rewrite <- !app_assoc.
Qed.
Lemma absolute_text path : path ≠ [] → removelast (absolute_name path) = join path.
Proof. intros H. rewrite absolute_join by done. by rewrite removelast_last. Qed.
Definition names_bytes (paths : list (list str)) : Z := foldr (λ q n, path_bytes q + n) 0 paths.
Lemma path_bytes_nonneg path : 0 <= path_bytes path.
Proof. rewrite <- absolute_bytes. lia. Qed.
Lemma bytes_nonneg paths : 0 <= names_bytes paths.
Proof. induction paths as [|p l IH]; cbn; [lia |]. pose proof (path_bytes_nonneg p). unfold names_bytes in IH. lia. Qed.
Lemma bytes_app l1 l2 : names_bytes (l1 ++ l2) = names_bytes l1 + names_bytes l2.
Proof. induction l1 as [|p l IH]; [done |]. cbn. unfold names_bytes in *. lia. Qed.
Lemma put_names_ok room paths : names_bytes paths <= room → Forall (λ q, q ≠ []) paths → put_names room paths = Some (join <$> paths).
Proof.
  intros Hr Hne. revert room Hr. induction Hne as [|q l Hq _ IH]; intros room Hr; [done |]. cbn [put_names].
  change (names_bytes (q :: l)) with (path_bytes q + names_bytes l) in Hr. rewrite absolute_bytes. pose proof (bytes_nonneg l).
  rewrite (proj2 (Z.ltb_ge _ _)), IH by lia. cbn. by rewrite absolute_text.
Qed.
Lemma put_strings_ok room (base : list node) :
  foldr (λ n len, zlen (name n) + 1 + len) 0 base <= room → put_strings room (name <$> base) = Some (name <$> base).
Proof.
  assert (∀ l : list node, 0 <= foldr (λ n len, zlen (name n) + 1 + len) 0 l) as Hnn by (induction l; cbn; lia).
  revert room. induction base as [|n l IH]; intros room Hr; [done |]. cbn in Hr |- *. specialize (Hnn l).
  rewrite (proj2 (Z.ltb_ge _ _)) by lia. change (list_fmap _ _ name l) with (name <$> l). by rewrite IH by lia.
Qed.

(** The paths of the metrics below a node, in order. *)
Definition metric_paths (n : node) : list (list str) := fst <$> filter (λ px, nonleaf px.2 = false) (walk n).
Lemma metric_paths_eq n : leafy n → metric_paths n =
  flat_map (λ k, if nonleaf k then cons (name k) <$> metric_paths k else [[name k]]) (first n).
Proof.
  intros Hl. unfold metric_paths. rewrite walk_eq. assert (∀ k, k ∈ first n → nonleaf k = false → first k = []) as H by (intros k Hk; by apply Hl, child_nodes).
  clear Hl. induction (first n) as [|k l IH]; [done |]. cbn [flat_map]. rewrite filter_app, fmap_app, IH by (intros x Hx; apply H; by right). f_equal.
  rewrite filter_cons. cbn [snd]. destruct (nonleaf k) eqn:Ek.
  - rewrite decide_False by done. clear. induction (walk k) as [|[p x] w IHw]; [done |]. cbn.
    case_decide; cbn; [f_equal |]; exact IHw.
  - rewrite decide_True by done. rewrite walk_eq, (H k) by (done || by left). done.
Qed.
Lemma elem_of_metric_paths p n : p ∈ metric_paths n ↔ ∃ x, (p, x) ∈ walk n ∧ nonleaf x = false.
Proof.
  unfold metric_paths. rewrite list_elem_of_fmap. split.
  - intros ([q x] & -> & [Hx Hw]%list_elem_of_filter). by exists x.
  - intros (x & Hw & Hx). exists (p, x). split; [done |]. by apply list_elem_of_filter.
Qed.
Lemma metric_paths_NoDup n : uniq n → NoDup (metric_paths n).
Proof.
  intros H%walk_NoDup. unfold metric_paths. induction (walk n) as [|[p x] w IH]; [constructor |]. cbn in H. apply NoDup_cons in H as [Hp H].
  rewrite filter_cons. case_decide; [| by apply IH]. cbn. apply NoDup_cons. split; [| by apply IH].
  intros ([q y] & -> & [_ Hy]%list_elem_of_filter)%list_elem_of_fmap. apply Hp. by apply (list_elem_of_fmap_2 fst) in Hy.
Qed.
Lemma size_ok n : leafy n → ∀ prefix acc,
  NodeChildrenGetSize prefix n acc = (acc.1 + names_bytes (app prefix <$> metric_paths n), acc.2 + zlen (metric_paths n)).
Proof.
  induction n as [i s p l IH] using node_ind'. intros Hl prefix acc. rewrite metric_paths_eq by done. cbn [NodeChildrenGetSize first].
  assert (∀ k, k ∈ l → leafy k) as Hk by (intros k Hk; by apply (leafy_first _ k Hl)). clear Hl. revert acc.
  induction IH as [|k l IHk _ IHl]; intros [a b]; [cbn; f_equal; lia |]. cbn [flat_map]. rewrite IHl by (intros x Hx; apply Hk; by right).
  rewrite fmap_app, bytes_app, length_app. destruct (nonleaf k).
  - rewrite IHk by (apply Hk; by left). cbn [fst snd]. rewrite <- list_fmap_compose, length_fmap.
    assert (app (prefix ++ [name k]) <$> metric_paths k = (app prefix ∘ cons (name k)) <$> metric_paths k) as ->.
    { apply list_fmap_ext. intros j x _. cbn. by rewrite <- app_assoc. }
    f_equal; lia.
  - cbn. f_equal; lia.
Qed.
Definition written (o : listing) (prefix : list str) (n : node) : listing :=
  mkListing (o_room o - names_bytes (app prefix <$> metric_paths n)) (o_slots o - zlen (metric_paths n))
    (o_names o ++ ((λ q, (join (prefix ++ q), Derive.PMNS_LEAF_STATUS)) <$> metric_paths n)).
Lemma list_ok n : leafy n → ∀ prefix o,
  names_bytes (app prefix <$> metric_paths n) <= o_room o → zlen (metric_paths n) <= o_slots o →
  NodeChildrenGetList prefix n o = Some (written o prefix n).
Proof.
  induction n as [i s p l IH] using node_ind'. intros Hl prefix o. unfold written. rewrite metric_paths_eq by done. cbn [NodeChildrenGetList first].
  assert (∀ k, k ∈ l → leafy k) as Hk by (intros k Hk; by apply (leafy_first _ k Hl)). clear Hl. revert o.
  induction IH as [|k l IHk _ IHl]; intros o Hr Hs.
  { destruct o as [a b ns]. cbn. f_equal. rewrite app_nil_r. f_equal; lia. }
  cbn [flat_map] in *. rewrite fmap_app, bytes_app in *. rewrite length_app in *. pose proof (bytes_nonneg (app prefix <$> flat_map (λ k, if nonleaf k then cons (name k) <$> metric_paths k else [[name k]]) l)) as Ht.
  set (rest := flat_map _ l) in *.
  destruct (nonleaf k).
  - assert (app (prefix ++ [name k]) <$> metric_paths k = app prefix <$> (cons (name k) <$> metric_paths k)) as Ep.
    { rewrite <- list_fmap_compose. apply list_fmap_ext. intros j x _. cbn. by rewrite <- app_assoc. }
    rewrite length_fmap in *. rewrite <- Ep in *. rewrite IHk by (lia || (apply Hk; by left)). cbn [mbind option_bind].
    rewrite IHl by (cbn; lia || (intros x Hx; apply Hk; by right)). unfold written. cbn. f_equal. f_equal; [lia | lia |].
    rewrite fmap_app, <- app_assoc, <- list_fmap_compose. f_equal. f_equal. apply list_fmap_ext. intros j x _. cbn. by rewrite <- app_assoc.
  - cbn in Hr, Hs. unfold put_leaf. rewrite absolute_bytes. rewrite (proj2 (Z.ltb_ge _ _)) by lia. rewrite (proj2 (Z.leb_gt _ _)) by lia.
    cbn [orb mbind option_bind]. rewrite IHl by (cbn; lia || (intros x Hx; apply Hk; by right)). cbn. f_equal. f_equal; [lia | lia |].
    rewrite <- app_assoc. cbn. f_equal. f_equal. f_equal. apply absolute_text. by destruct prefix.
Qed.

Lemma size_spec t : leafy (root t) → pmdaTreeSize (Some t) = zlen (metric_paths (root t)).
Proof.
  cbn. generalize (root t). intros n. induction n as [i s p l IH] using node_ind'. intros Hl. rewrite metric_paths_eq by done. cbn [NodeCount first].
  assert (∀ k, k ∈ l → leafy k) as Hk by (intros k Hk; by apply (leafy_first _ k Hl)). clear Hl.
  induction IH as [|k l IHk _ IHl]; [done |]. cbn [flat_map]. rewrite length_app, IHl by (intros x Hx; apply Hk; by right).
  destruct (nonleaf k); [rewrite length_fmap, IHk by (apply Hk; by left); lia | cbn; lia].
Qed.
Lemma relative_ok base : NodeRelativeChildren base = Some ((λ n, (name n, leaf_status n)) <$> base).
Proof.
  unfold NodeRelativeChildren. rewrite put_strings_ok by lia. cbn [mbind option_bind]. f_equal.
  induction base as [|n l IH]; [done |]. cbn. f_equal. exact IH.
Qed.
Lemma absolute_ok path np : leafy np → path ≠ [] →
  NodeAbsoluteChildren path np =
    Some ((λ q, (join q, Derive.PMNS_LEAF_STATUS)) <$> (if nonleaf np then app path <$> metric_paths np else [path])).
Proof.
  intros Hl Hp. unfold NodeAbsoluteChildren. destruct (nonleaf np).
  - rewrite size_ok by done. cbn [fst snd]. rewrite !Z.add_0_l, list_ok by (done || cbn; lia). cbn. f_equal. by rewrite <- list_fmap_compose.
  - unfold put_leaf. cbn [o_room o_slots o_names]. rewrite absolute_bytes, Z.ltb_irrefl. cbn. by rewrite absolute_text.
Qed.
Lemma mapM_total {A B} (f : A → option B) (g : A → B → Prop) l :
  (∀ x, x ∈ l → ∃ y, f x = Some y ∧ g x y) → ∃ k, mapM f l = Some k ∧ Forall2 g l k.
Proof.
  induction l as [|x l IH]; intros H; [exists []; split; [done | constructor] |]. destruct (H x) as (y & E & G); [by left |].
  destruct IH as (k & Ek & Gk); [intros z Hz; apply H; by right |]. exists (y :: k). cbn. rewrite E, Ek. split; [done | by constructor].
Qed.
(** The names of an identifier. *)
Lemma tree_name_ok t numpmid p : built t → 0 <= numpmid → 0 <= p < PMID_MASK →
  ∃ paths, pmdaTreeName (Some (pmdaTreeRebuildHash t numpmid)) p =
      Some (match paths with [] => inl PM_ERR_PMID | _ => inr (join <$> paths) end) ∧
    NoDup paths ∧ ∀ q, q ∈ paths ↔ ∃ x, (q, x) ∈ walk (root t) ∧ pmid x = p.
Proof.
  intros Hb Hn Hp. rewrite rebuild_table by done. pose proof (hash_size_bounds numpmid Hn).
  destruct (chain_of t (hash_size numpmid) p Hb ltac:(lia) Hp) as (hc & E & Hnd & Hin). unfold pmdaTreeName.
  change (htabsize (table t (hash_size numpmid))) with (hash_size numpmid). change (root (table t (hash_size numpmid))) with (root t).
  rewrite E. cbn [mbind option_bind]. set (l := filter _ hc) in *.
  destruct (mapM_total (λ id, path_to id (root t)) (λ id q, ∃ x, nid x = id ∧ pmid x = p ∧ (q, x) ∈ walk (root t)) l) as (paths & Ep & HF).
  { intros id (x & Hx & Hid & Hpx)%Hin. apply below_walk in Hx as [q Hq]. exists q. rewrite <- Hid. split; [by eapply walk_path_to, Hq; apply bt_ids | eauto]. }
  rewrite Ep. cbn [mbind option_bind]. assert (∀ q, q ∈ paths ↔ ∃ x, (q, x) ∈ walk (root t) ∧ pmid x = p) as Hpaths.
  { intros q. split.
    - intros [j Hj]%list_elem_of_lookup. destruct (Forall2_lookup_r _ _ _ _ _ HF Hj) as (id & _ & x & _ & Hx & Hw). eauto.
    - intros (x & Hw & Hx). assert (nid x ∈ l) as [j Hj]%list_elem_of_lookup by (apply Hin; exists x; split_and!; [by eapply walk_nodes | done..]).
      destruct (Forall2_lookup_l _ _ _ _ _ HF Hj) as (q' & Hq' & x' & Hid & _ & Hw'). apply list_elem_of_lookup_2 in Hq'.
      pose proof (walk_path_to _ _ _ (bt_ids t Hb) Hw) as P1. pose proof (walk_path_to _ _ _ (bt_ids t Hb) Hw') as P2. rewrite Hid in P2. congruence. }
  exists paths. split; [| split; [| done]].
  - destruct paths as [|q paths]; [done |]. change (foldr _ 0 (q :: paths)) with (names_bytes (q :: paths)). rewrite put_names_ok; [done | lia |].
    apply Forall_forall. intros q' (x & Hw & _)%Hpaths. by eapply walk_nonempty.
  - clear Ep E Hpaths Hin. assert (NoDup l) as Hl by by apply NoDup_filter. clear Hnd. induction HF as [|id q l' k (x & Hid & _ & Hw) HF IH]; [constructor |].
    apply NoDup_cons in Hl as [Hni Hl]. apply NoDup_cons. split; [| by apply IH]. intros [j Hj]%list_elem_of_lookup.
    destruct (Forall2_lookup_r _ _ _ _ _ HF Hj) as (id' & Hid'%list_elem_of_lookup_2 & y & Hy & _ & Hw').
    pose proof (walk_get _ _ _ (bt_uniq t Hb) Hw). pose proof (walk_get _ _ _ (bt_uniq t Hb) Hw'). congruence.
Qed.
Lemma tree_pmid_ok t nm p : built t → leafy (root t) → p ≠ PM_ID_NULL →
  pmdaTreePMID t nm = inr p ↔ ∃ x, (components nm, x) ∈ walk (root t) ∧ pmid x = p.
Proof.
  intros [_ _ Hu Hn _ _ _] Hl Hp. unfold pmdaTreePMID. split.
  - destruct (NodeLookup (root t) nm) as [x|] eqn:E; [| done]. destruct (nonleaf x); [done |]. intros [= <-].
    exists x. split; [by apply lookup_walk | done].
  - intros (x & Hw & <-). apply lookup_walk in Hw as ->; [| done ..]. unfold nonleaf. by rewrite (proj2 (Z.eqb_neq _ _)).
Qed.
Lemma components_dot a b : components (a ++ dot :: b) = components a ++ components b.
Proof.
  induction a as [|c a IH]; [done |]. cbn [app components]. rewrite IH. case_bool_decide; [done |].
  destruct (components a) as [|x l] eqn:E; [by destruct (components_nonempty a) | done].
Qed.
Lemma walk_app r p x : (p, x) ∈ walk r → ∀ q y, q ≠ [] → uniq r → (p ++ q, y) ∈ walk r ↔ (q, y) ∈ walk x.
Proof.
  revert r. induction p as [|c p IH]; intros r Hw q y Hq Hu; [by apply walk_nonempty in Hw |].
  apply elem_of_walk in Hw as (k & Hk & H). assert (c = name k) as -> by (by destruct H as [[[= ->] _] | (? & [= -> _] & _)]).
  rewrite elem_of_walk. split.
  - intros (k' & Hk' & H'). assert (k' = k) as ->.
    { apply (NoDup_same name (first r)); [by apply uniq_names | done | done |]. by destruct H' as [[[= ->] _] | (? & [= -> _] & _)]. }
    destruct H as [[[= ->] ->] | (p' & [= <-] & Hp)].
    + destruct H' as [[[= ->] _] | (q' & [= ->] & H')]; [done | exact H'].
    + destruct H' as [[[= E] _] | (q' & [= <-] & H')]; [by apply app_eq_nil in E as [_ ?] |].
      by apply (IH k Hp q y Hq (uniq_first _ _ Hu Hk)).
  - intros Hy. exists k. split; [done |]. right. exists (p ++ q). split; [done |].
    destruct H as [[[= ->] ->] | (p' & [= <-] & Hp)]; [done |]. by apply (IH k Hp q y Hq (uniq_first _ _ Hu Hk)).
Qed.
(** The metrics whose names are, or go on from, the name of a node. *)
Lemma names_below t nm np full : built t → leafy (root t) → (components nm, np) ∈ walk (root t) →
  (∃ q, full = join q ∧ q ∈ (if nonleaf np then app (components nm) <$> metric_paths np else [components nm])) ↔
  (∃ p, pmdaTreePMID t full = inr p) ∧ (full = nm ∨ ∃ rest, full = nm ++ dot :: rest).
Proof.
  intros Hb Hl Hw. pose proof (bt_uniq t Hb) as Hu. pose proof (bt_names t Hb) as Hn.
  assert (∀ full, (∃ p, pmdaTreePMID t full = inr p) ↔ ∃ x, (components full, x) ∈ walk (root t) ∧ nonleaf x = false) as Hm.
  { intros f. unfold pmdaTreePMID. split.
    - intros [p E]. destruct (NodeLookup (root t) f) as [x|] eqn:Ef; [| done]. exists x. split; [by apply lookup_walk | by destruct (nonleaf x)].
    - intros (x & Hx & Ex). apply lookup_walk in Hx as ->; [| done ..]. rewrite Ex. by eexists. }
  rewrite Hm. destruct (nonleaf np) eqn:En.
  - split.
    + intros (q & -> & (q' & -> & (x & Hx & Ex)%elem_of_metric_paths)%list_elem_of_fmap). pose proof (walk_nonempty _ _ _ Hx) as Hq.
      pose proof (proj2 (walk_app _ _ _ Hw q' x Hq Hu) Hx) as Hfull. split.
      * exists x. rewrite components_join by (by eapply walk_nonempty || by eapply walk_plain). done.
      * right. exists (join q'). rewrite <- (join_components nm) at 2. clear -Hq. pose proof (components_nonempty nm) as H.
        induction (components nm) as [|c l IH]; [done |]. cbn [app]. rewrite join_cons by (by destruct l).
        destruct l as [|c' l]; [done |]. rewrite IH by done. rewrite (join_cons c) by done. by rewrite <- app_assoc.
    + intros ((x & Hx & Ex) & [-> | [rest ->]]).
      { pose proof (walk_get _ _ _ Hu Hx). pose proof (walk_get _ _ _ Hu Hw). congruence. }
      exists (components (nm ++ dot :: rest)). split; [by rewrite join_components |]. apply list_elem_of_fmap. exists (components rest).
      split; [apply components_dot |]. apply elem_of_metric_paths. exists x. split; [| done].
      apply (walk_app _ _ _ Hw); [apply components_nonempty | done |]. by rewrite <- components_dot.
  - split.
    + intros (q & -> & ->%list_elem_of_singleton). rewrite join_components. split; [by exists np | by left].
    + intros ((x & Hx & Ex) & [-> | [rest ->]]); [exists (components nm); split; [by rewrite join_components | by left] |].
      rewrite components_dot in Hx. apply (walk_app _ _ _ Hw) in Hx; [| apply components_nonempty | done].
      rewrite walk_eq, (Hl np) in Hx; [by apply elem_of_nil in Hx | by apply below_nodes; eapply walk_nodes | done].
Qed.
End PmdaTree.
Import PmdaTree.

(** ** Theorems *)

(** C34. In the tree of an agent, once it is indexed, the names that an identifier has are
    exactly those that have the identifier, each once; the block for them is large enough. *)
Theorem tree_names t numpmid p :
  built t → leafy (root t) → 0 <= numpmid → 0 <= p < PMID_MASK →
  let t' := pmdaTreeRebuildHash t numpmid in
  ∃ r, pmdaTreeName (Some t') p = Some r ∧
    (r = inl PM_ERR_PMID ∨ ∃ l, r = inr l ∧ l ≠ [] ∧ NoDup l) ∧
    ∀ nm, (∃ l, r = inr l ∧ nm ∈ l) ↔ pmdaTreePMID t' nm = inr p.
Proof.
  intros Hb Hl Hn Hp t'. destruct (tree_name_ok t numpmid p Hb Hn Hp) as (paths & E & Hnd & Hin).
  eexists. split; [exact E |]. assert (∀ nm, nm ∈ join <$> paths ↔ pmdaTreePMID t' nm = inr p) as H.
  { intros nm. unfold t'. rewrite rebuild_table by done.
    assert (pmdaTreePMID (table t (hash_size numpmid)) nm = pmdaTreePMID t nm) as -> by done.
    rewrite tree_pmid_ok by (done || unfold PM_ID_NULL, PMID_MASK in *; lia). rewrite <- Hin, list_elem_of_fmap. split.
    - intros (q & -> & Hq). pose proof (proj1 (Hin q) Hq) as (x & Hw & _).
      rewrite components_join; [done | by eapply walk_nonempty | eapply walk_plain; [apply (bt_names t Hb) | done]].
    - intros Hq. exists (components nm). by rewrite join_components. }
  destruct paths as [|q paths]; [split; [by left |] | split; [right |]].
  - intros nm. rewrite <- H. split; [by intros (l & ? & _) | by intros ?%elem_of_nil].
  - eexists. split; [done |]. split; [done |]. apply NoDup_fmap_2_strong; [| done]. intros a b (x & Ha & _)%Hin (y & Hb' & _)%Hin E'.
    apply (f_equal components) in E'. rewrite !components_join in E' by (by eapply walk_nonempty || (eapply walk_plain; [apply (bt_names t Hb) | done])). done.
  - intros nm. rewrite <- H. split; [by intros (l & [= <-] & Hm) | intros Hm; by eexists].
Qed.

(** C35. The children of a name are its node's children, with what each of them is; when
    the whole subtree is asked for, they are the names of the metrics at or below the name,
    each once.  The blocks for the names and the array of their status are large enough. *)
Theorem tree_children t nm :
  built t → leafy (root t) →
  pmdaTreeChildren (Some t) nm false =
    Some (match get (components nm) (root t) with
          | None => inl PM_ERR_NAME
          | Some x => inr ((λ n, (name n, leaf_status n)) <$> first x)
          end) ∧
  ∃ r, pmdaTreeChildren (Some t) nm true = Some r ∧
    match r with
    | inl e => e = PM_ERR_NAME ∧ get (components nm) (root t) = None
    | inr l =>
        NoDup l.*1 ∧ Forall (λ e, e.2 = Derive.PMNS_LEAF_STATUS) l ∧
        ∀ full, full ∈ l.*1 ↔ (∃ p, pmdaTreePMID t full = inr p) ∧ (full = nm ∨ ∃ rest, full = nm ++ dot :: rest)
    end.
Proof.
  intros Hb Hl. pose proof (bt_uniq t Hb) as Hu. pose proof (bt_names t Hb) as Hn. unfold pmdaTreeChildren.
  rewrite lookup_get by done. destruct (get (components nm) (root t)) as [np|] eqn:E; [| split; [done | by exists (inl PM_ERR_NAME)]].
  rewrite relative_ok. split; [done |]. apply get_walk in E. rewrite (walk_path_to _ _ _ (bt_ids t Hb) E). cbn [mbind option_bind].
  assert (leafy np) as Hnp by (intros n Hi; apply Hl; eapply nodes_trans; [done | by apply below_nodes; eapply walk_nodes]).
  rewrite absolute_ok by (done || apply components_nonempty). cbn [mbind option_bind]. eexists. split; [done |]. cbn beta iota.
  pose proof (λ full, names_below t nm np full Hb Hl E) as Hbelow. set (paths := if nonleaf np then _ else _) in *.
  rewrite <- list_fmap_compose. split; [| split].
  - apply NoDup_fmap_2_strong.
    + intros a b Ha Hb' Eab. cbn in Eab. assert (∀ q, q ∈ paths → components (join q) = q) as H; [| by rewrite <- (H a Ha), <- (H b Hb'), Eab].
      intros q Hq. assert (∃ x, (q, x) ∈ walk (root t)) as [x Hx]; [| apply components_join; [by eapply walk_nonempty | by eapply walk_plain]].
      unfold paths in Hq. destruct (nonleaf np); [| apply list_elem_of_singleton in Hq as ->; by exists np].
      apply list_elem_of_fmap in Hq as (q' & -> & (x & Hx & _)%elem_of_metric_paths). exists x.
      apply (walk_app _ _ _ E); [by eapply walk_nonempty | done | done].
    + unfold paths. destruct (nonleaf np); [| apply NoDup_singleton]. apply NoDup_fmap_2_strong; [intros a b _ _ ?; by eapply app_inv_head |].
      apply metric_paths_NoDup. unfold uniq in *. rewrite Forall_forall in *. intros n Hi. apply Hu. eapply nodes_trans; [done | by apply below_nodes; eapply walk_nodes].
  - apply Forall_fmap. by apply Forall_true.
  - intros full. rewrite list_elem_of_fmap. exact (Hbelow full).
Qed.

(** ** Examples *)

Lemma ex_leafy : leafy (root ex_tree).
Proof.
  assert (Forall (λ n, nonleaf n = true ∨ first n = []) (nodes (root ex_tree))) as H.
  { vm_compute. repeat (apply Forall_cons; split; [first [by left | by right] |]). by apply Forall_nil. }
  intros n Hn Hl. rewrite Forall_forall in H. destruct (H n Hn); [congruence | done].
Qed.
Lemma tree_names_witness :
  let t' := pmdaTreeRebuildHash ex_tree 3 in
  ∃ r, pmdaTreeName (Some t') (pmid_build 1 2 4) = Some r ∧
    (r = inl PM_ERR_PMID ∨ ∃ l, r = inr l ∧ l ≠ [] ∧ NoDup l) ∧
    ∀ nm, (∃ l, r = inr l ∧ nm ∈ l) ↔ pmdaTreePMID t' nm = inr (pmid_build 1 2 4).
Proof. apply (tree_names ex_tree 3 (pmid_build 1 2 4)); [apply building_built, ex_building | apply ex_leafy | lia | vm_compute; split; congruence]. Defined.
Lemma tree_children_witness :
  ∃ r, pmdaTreeChildren (Some ex_tree) [Byte.x61] true = Some r ∧ r = inr [([Byte.x61; dot; Byte.x63], 0); ([Byte.x61; dot; Byte.x62], 0)].
Proof.
  destruct (tree_children ex_tree [Byte.x61]) as [_ (r & E & _)]; [apply building_built, ex_building | apply ex_leafy |].
  exists r. split; [exact E |]. vm_compute in E. by injection E as <-.
Defined.

(** ** What goes wrong *)

(** A name that goes on from the name of a metric is in the index, but it is not found,
    counted or listed. *)
Lemma below_metric_lost :
  let t := pmdaTreeRebuildHash (add_all __pmNewPMNS [(1, [Byte.x61]); (2, [Byte.x61; dot; Byte.x62])]) 2 in
  pmdaTreeName (Some t) 2 = Some (inr [[Byte.x61; dot; Byte.x62]]) ∧
  pmdaTreePMID t [Byte.x61; dot; Byte.x62] = inl PM_ERR_NAME ∧ pmdaTreeSize (Some t) = 1.
Proof. vm_compute. split_and!; reflexivity. Qed.
(** A negative number of metrics: there is no table, and the next request follows it. *)
Lemma negative_table : pmdaTreeName (Some (pmdaTreeRebuildHash ex_tree (-5))) 1 = None.
Proof. vm_compute. reflexivity. Qed.
