(* ===== verification/Units.v ===== *)
(** Units and values: the text of units, the conversion of values between scales and
    between types, libpcp/src/units.c, and values for results, libpcp/src/stuffvalue.c.
    The members of pmAtomValue and floating point are those of [DeriveEval]. *)
From S2P Require Import Prelude Memory Text Types ValueBlock PduResult Derive DeriveBind DeriveEval.
From Stdlib Require Import Floats.SpecFloat QArith Qpower Qabs.
Import DeriveEval.DeriveEval.
Local Open Scope Z_scope.

Definition PM_ERR_UNIT : Z := - PM_ERR_BASE - 16.
Definition PM_ERR_TRUNC : Z := - PM_ERR_BASE - 18.
Definition PM_ERR_SIGN : Z := - PM_ERR_BASE - 19.
Definition PM_TYPE_UNKNOWN : Z := 255.

Module Units.

Abbreviation str := (list byte).

(** ** The text of units *)

Definition nth_name (names : list str) (other : str) (i : Z) : str := default (other ++ show i) (names !! Z.to_nat i).
Definition spacestr (s : Z) : str :=
  nth_name [lit "byte"; lit "Kbyte"; lit "Mbyte"; lit "Gbyte"; lit "Tbyte"; lit "Pbyte"; lit "Ebyte"] (lit "space-") s.
Definition timestr (s : Z) : str :=
  nth_name [lit "nanosec"; lit "microsec"; lit "millisec"; lit "sec"; lit "min"; lit "hour"] (lit "time-") s.
Definition countstr (s : Z) : str :=
  if s =? 0 then lit "count" else if s =? 1 then lit "count x 10" else lit "count x 10^" ++ show s.
(** What is printed for a dimension. *)
Definition power (s : str) (dim : Z) : str := if dim =? 1 then s else s ++ lit "^" ++ show dim.
(** snprintf at the end of the text and a space behind it.  [None]: there is no room left
    for snprintf to end the string, and the code looks for its end behind the buffer. *)
Definition put (buflen : Z) (s buf : str) : option str :=
  let room := buflen - zlen buf in
  if room <=? 0 then None else Some (buf ++ take (Z.to_nat (room - 1)) s ++ [space]).
Definition put_if (b : bool) (buflen : Z) (s buf : str) : option str := if b then put buflen s buf else Some buf.
Definition put_slash (buflen : Z) (buf : str) : option str :=
  if buflen <? zlen buf + 2 then None else Some (buf ++ lit "/ ").
Definition pmUnitsStr_r (u : pmUnits) (buflen : Z) : option str :=
  if buflen <=? 0 then None else
  let s := spacestr (scaleSpace u) in let t := timestr (scaleTime u) in let c := countstr (scaleCount u) in
  buf ← put_if (0 <? dimSpace u) buflen (power s (dimSpace u)) [];
  buf ← put_if (0 <? dimTime u) buflen (power t (dimTime u)) buf;
  buf ← put_if (0 <? dimCount u) buflen (power c (dimCount u)) buf;
  buf ← (if (dimSpace u <? 0) || (dimTime u <? 0) || (dimCount u <? 0) then
           buf ← put_slash buflen buf;
           buf ← put_if (dimSpace u <? 0) buflen (power s (- dimSpace u)) buf;
           buf ← put_if (dimTime u <? 0) buflen (power t (- dimTime u)) buf;
           put_if (dimCount u <? 0) buflen (power c (- dimCount u)) buf
         else Some buf);
  match buf with
  | [] =>
      Some (if scaleCount u =? 1 then take (Z.to_nat (buflen - 1)) (lit "x 10")
            else if negb (scaleCount u =? 0) then take (Z.to_nat (buflen - 1)) (lit "x 10^" ++ show (scaleCount u)) else [])
  | _ => Some (removelast buf)
  end.
Definition pmUnitsStr (u : pmUnits) : option str := pmUnitsStr_r u 60.
Definition typename : list str :=
  [lit "32"; lit "U32"; lit "64"; lit "U64"; lit "FLOAT"; lit "DOUBLE"; lit "STRING"; lit "AGGREGATE"; lit "AGGREGATE_STATIC"; lit "EVENT"].
Definition pmTypeStr_r (ty buflen : Z) : str :=
  take (Z.to_nat (buflen - 1))
    (if (0 <=? ty) && (ty <? 10) then typename !!! Z.to_nat ty
     else if ty =? PM_TYPE_NOSUPPORT then lit "Not Supported"
     else if ty =? PM_TYPE_UNKNOWN then lit "Unknown"
     else lit "Illegal type=" ++ show ty).

(** ** Conversion between scales *)

(** The divisor and the multiplier that take a scale to Mbytes, and to seconds. *)
Definition space_scale (s : Z) : option (Z * Z) :=
  [(1024 * 1024, 1); (1024, 1); (1, 1); (1, 1024); (1, 1024 * 1024); (1, 1024 * 1024 * 1024); (1, 1024 * 1024 * 1024 * 1024)]
  !! Z.to_nat s.
Definition time_scale (s : Z) : option (Z * Z) :=
  [(1000000000, 1); (1000000, 1); (1000, 1); (1, 1); (1, 60); (1, 3600)] !! Z.to_nat s.
(** From one scale to another. *)
Definition step_scales (i o : Z * Z) : Z * Z := (i.1 * o.2, i.2 * o.1).
Definition tens (n : Z) : Z := 10 ^ n.
Definition count_scales (i o : Z) : Z * Z :=
  (tens (Z.max 0 (- i)) * tens (Z.max 0 o), tens (Z.max 0 i) * tens (Z.max 0 (- o))).
(** [x] is multiplied [n] times by [f], as a 64-bit integer. *)
Definition times (n : Z) (f x : Z) : Z := Nat.iter (Z.to_nat n) (λ x, s64 (x * f)) x.
(** The divisor and the multiplier for one more dimension. *)
Definition apply_dim (dim : Z) (dm : Z * Z) (acc : Z * Z) : Z * Z :=
  if 0 <? dim then (times dim dm.1 acc.1, times dim dm.2 acc.2)
  else (times (- dim) dm.2 acc.1, times (- dim) dm.1 acc.2).
Definition scale_factors (i o : pmUnits) : Z + (Z * Z) :=
  if negb (dimSpace i =? dimSpace o) || negb (dimTime i =? dimTime o) || negb (dimCount i =? dimCount o) then inl PM_ERR_CONV
  else
    let space := if dimSpace i =? 0 then Some (1, 1) else
                   a ← space_scale (scaleSpace i); b ← space_scale (scaleSpace o); Some (step_scales a b) in
    match space with
    | None => inl PM_ERR_UNIT
    | Some space =>
        let acc := if dimSpace i =? 0 then (1, 1) else apply_dim (dimSpace i) space (1, 1) in
        let time := if dimTime i =? 0 then Some (1, 1) else
                      a ← time_scale (scaleTime i); b ← time_scale (scaleTime o); Some (step_scales a b) in
        match time with
        | None => inl PM_ERR_UNIT
        | Some time =>
            let acc := if dimTime i =? 0 then acc else apply_dim (dimTime i) time acc in
            let count := count_scales (scaleCount i) (scaleCount o) in
            inr (if negb (dimCount i =? 0) then apply_dim (dimCount i) count acc
                 else if (dimSpace i =? 0) && (dimTime i =? 0) then count else acc)
        end
    end.
(** Division of 64-bit integers; [None]: the process is stopped. *)
Definition div64 (x y : Z) : option Z := if (y =? 0) || ((x =? - 2^63) && (y =? -1)) then None else Some (Z.quot x y).
Definition reduce (div mult : Z) : option (Z * Z) :=
  q ← div64 mult div; Some (if Z.rem mult div =? 0 then (1, q) else (div, mult)).
Definition scaled (ty : Z) (div mult : Z) (a : atom) : option (Z + atom) :=
  let half := Z.quot div 2 in
  if ty =? PM_TYPE_32 then
    b ← word32 a; q ← div64 (s64 (s64 (s32 b * mult) + half)) div; Some (inr (Word32 (u32 q)))
  else if ty =? PM_TYPE_U32 then
    b ← word32 a; q ← div64 (s64 (s64 (b * mult) + half)) div; Some (inr (Word32 (u32 q)))
  else if ty =? PM_TYPE_64 then
    b ← word64 a; q ← div64 (s64 (s64 (s64 b * mult) + half)) div; Some (inr (Word64 (u64 q)))
  else if ty =? PM_TYPE_U64 then
    b ← word64 a;
    if div =? 0 then None else Some (inr (Word64 (u64 (u64 (b * u64 mult) + u64 half) / u64 div)))
  else if ty =? PM_TYPE_FLOAT then
    b ← word32 a;
    Some (inr (Word32 (encode single (fmul single (decode single b) (fdiv single (of_int single mult) (of_int single div))))))
  else if ty =? PM_TYPE_DOUBLE then
    b ← word64 a;
    Some (inr (Word64 (encode double (fmul double (decode double b) (fdiv double (of_int double mult) (of_int double div))))))
  else Some (inl PM_ERR_CONV).
(** [None]: the process is stopped by a division. *)
Definition pmConvScale (ty : Z) (ival : atom) (iunit ounit : pmUnits) : option (Z + atom) :=
  match scale_factors iunit ounit with
  | inl e => Some (inl e)
  | inr (div, mult) => '(div, mult) ← reduce div mult; scaled ty div mult ival
  end.

(** ** Conversion between types *)

(** The integer part of a number; [None]: there is none. *)
Definition trunc (x : spec_float) : option Z :=
  match x with
  | S754_zero _ => Some 0
  | S754_finite s m e => let n := if 0 <=? e then Zpos m * 2 ^ e else Zpos m / 2 ^ (- e) in Some (if s then - n else n)
  | _ => None
  end.
(** A cast to an integer type.  [None]: what the cast gives is not defined. *)
Definition cast (lo hi : Z) (f : Z → atom) (x : spec_float) : option (Z + atom) :=
  z ← trunc x; if (lo <=? z) && (z <=? hi) then Some (inr (f z)) else None.
Definition to_l : spec_float → option (Z + atom) := cast (- 2^31) (2^31 - 1) (λ z, Word32 (u32 z)).
Definition to_ul : spec_float → option (Z + atom) := cast 0 (2^32 - 1) Word32.
Definition to_ll : spec_float → option (Z + atom) := cast (- 2^63) (2^63 - 1) (λ z, Word64 (u64 z)).
Definition to_ull : spec_float → option (Z + atom) := cast 0 (2^64 - 1) Word64.
Definition fabs (x : spec_float) : spec_float := SFabs x.
Definition negative (x : spec_float) : bool := SFltb x (S754_zero false).
(** From a number of the format [f], of which [b] are the bits. *)
Definition from_float (f : format) (b : Z) (otype : Z) : option (Z + atom) :=
  let x := decode f b in
  let at_least z x := SFleb (of_int f z) x in
  if otype =? PM_TYPE_32 then
    if at_least 0x7fffffff (fabs x) then Some (inl PM_ERR_TRUNC) else to_l x
  else if otype =? PM_TYPE_U32 then
    if at_least 0xffffffff x then Some (inl PM_ERR_TRUNC) else if negative x then Some (inl PM_ERR_SIGN) else to_ul x
  else if otype =? PM_TYPE_64 then
    if at_least 0x7fffffffffffffff x then Some (inl PM_ERR_TRUNC) else to_ll x
  else if otype =? PM_TYPE_U64 then
    if at_least 0xffffffffffffffff x then Some (inl PM_ERR_TRUNC) else if negative x then Some (inl PM_ERR_SIGN) else to_ull x
  else if otype =? PM_TYPE_FLOAT then Some (inr (Word32 (if width f =? 32 then b else encode single (convert single x))))
  else if otype =? PM_TYPE_DOUBLE then Some (inr (Word64 (if width f =? 64 then b else encode double (convert double x))))
  else Some (inl PM_ERR_CONV).
(** From a signed integer of 32 bits, an unsigned one, and those of 64 bits. *)
Definition from_l (v otype : Z) : Z + atom :=
  if otype =? PM_TYPE_32 then inr (Word32 (u32 v))
  else if otype =? PM_TYPE_U32 then if v <? 0 then inl PM_ERR_SIGN else inr (Word32 v)
  else if otype =? PM_TYPE_64 then inr (Word64 (u64 v))
  else if otype =? PM_TYPE_U64 then if v <? 0 then inl PM_ERR_SIGN else inr (Word64 v)
  else if otype =? PM_TYPE_FLOAT then inr (Word32 (encode single (of_int single v)))
  else if otype =? PM_TYPE_DOUBLE then inr (Word64 (encode double (of_int double v)))
  else inl PM_ERR_CONV.
Definition from_ul (v otype : Z) : Z + atom :=
  if otype =? PM_TYPE_32 then if 0x7fffffff <? v then inl PM_ERR_TRUNC else inr (Word32 v)
  else if otype =? PM_TYPE_U32 then inr (Word32 v)
  else if otype =? PM_TYPE_64 then inr (Word64 v)
  else if otype =? PM_TYPE_U64 then inr (Word64 v)
  else if otype =? PM_TYPE_FLOAT then inr (Word32 (encode single (of_int single v)))
  else if otype =? PM_TYPE_DOUBLE then inr (Word64 (encode double (of_int double v)))
  else inl PM_ERR_CONV.
Definition from_ll (v otype : Z) : Z + atom :=
  if otype =? PM_TYPE_32 then if 0x7fffffff <? v then inl PM_ERR_TRUNC else inr (Word32 (u32 v))
  else if otype =? PM_TYPE_U32 then
    if 0xffffffff <? v then inl PM_ERR_TRUNC else if v <? 0 then inl PM_ERR_SIGN else inr (Word32 v)
  else if otype =? PM_TYPE_64 then inr (Word64 (u64 v))
  else if otype =? PM_TYPE_U64 then if v <? 0 then inl PM_ERR_SIGN else inr (Word64 v)
  else if otype =? PM_TYPE_FLOAT then inr (Word32 (encode single (of_int single v)))
  else if otype =? PM_TYPE_DOUBLE then inr (Word64 (encode double (of_int double v)))
  else inl PM_ERR_CONV.
Definition from_ull (v otype : Z) : Z + atom :=
  if otype =? PM_TYPE_32 then if 0x7fffffff <? v then inl PM_ERR_TRUNC else inr (Word32 v)
  else if otype =? PM_TYPE_U32 then if 0xffffffff <? v then inl PM_ERR_TRUNC else inr (Word32 v)
  else if otype =? PM_TYPE_64 then if 0x7fffffffffffffff <? v then inl PM_ERR_TRUNC else inr (Word64 v)
  else if otype =? PM_TYPE_U64 then inr (Word64 v)
  else if otype =? PM_TYPE_FLOAT then inr (Word32 (encode single (of_int single v)))
  else if otype =? PM_TYPE_DOUBLE then inr (Word64 (encode double (of_int double v)))
  else inl PM_ERR_CONV.
(** A value block of the type, or one that does not say, with [n] bytes. *)
Definition block_of (itype : Z) (n : Z) (p : pmValueBlock) : bool :=
  (zlen (vbuf p) =? n) && ((vtype p =? itype) || (vtype p =? 0)).
(** The error or the value; a string has its end added.  [None]: a pointer that is none,
    or a cast whose result is not defined.  An unsigned integer of 64 bits is cast to a
    floating point number directly (HAVE_CAST_U64_DOUBLE). *)
Definition pmExtractValue (valfmt : Z) (ival : value) (itype otype : Z) : option (Z + atom) :=
  if valfmt =? PM_VAL_INSITU then
    match ival with
    | Pval _ => None
    | Lval l =>
        if (itype =? PM_TYPE_32) || (itype =? PM_TYPE_UNKNOWN) then Some (from_l (s32 l) otype)
        else if itype =? PM_TYPE_U32 then Some (from_ul (u32 l) otype)
        else if itype =? PM_TYPE_FLOAT then from_float single (u32 l) otype
        else Some (inl PM_ERR_CONV)
    end
  else if (valfmt =? PM_VAL_DPTR) || (valfmt =? PM_VAL_SPTR) then
    match ival with
    | Lval _ => if (itype =? PM_TYPE_64) || (itype =? PM_TYPE_U64) || (itype =? PM_TYPE_DOUBLE) || (itype =? PM_TYPE_FLOAT)
                   || (itype =? PM_TYPE_STRING) || (itype =? PM_TYPE_AGGREGATE) then None else Some (inl PM_ERR_CONV)
    | Pval p =>
        if itype =? PM_TYPE_64 then
          if block_of PM_TYPE_64 8 p then b ← get_word64 (vbuf p); Some (from_ll (s64 b) otype) else Some (inl PM_ERR_CONV)
        else if itype =? PM_TYPE_U64 then
          if block_of PM_TYPE_U64 8 p then b ← get_word64 (vbuf p); Some (from_ull b otype) else Some (inl PM_ERR_CONV)
        else if itype =? PM_TYPE_DOUBLE then
          if block_of PM_TYPE_DOUBLE 8 p then b ← get_word64 (vbuf p); from_float double b otype else Some (inl PM_ERR_CONV)
        else if itype =? PM_TYPE_FLOAT then
          if block_of PM_TYPE_FLOAT 4 p then b ← get_word32 (vbuf p); from_float single b otype else Some (inl PM_ERR_CONV)
        else if itype =? PM_TYPE_STRING then
          if negb ((vtype p =? PM_TYPE_STRING) || (vtype p =? 0)) || negb (otype =? PM_TYPE_STRING) then Some (inl PM_ERR_CONV)
          else Some (inr (Chars (vbuf p ++ [NUL])))
        else if itype =? PM_TYPE_AGGREGATE then
          if negb ((vtype p =? PM_TYPE_AGGREGATE) || (vtype p =? 0)) || negb (otype =? PM_TYPE_AGGREGATE) then Some (inl PM_ERR_CONV)
          else Some (inr (Blob p))
        else Some (inl PM_ERR_CONV)
    end
  else Some (inl PM_ERR_CONV).

(** ** Values for results *)

(** The format and the value, or an error; [None]: the member that the type says is not
    set. *)
Definition __pmStuffValue (a : atom) (ty : Z) : option (Z + (Z * value)) :=
  if is_word32 ty then b ← word32 a; Some (inr (PM_VAL_INSITU, Lval (s32 b)))
  else if ty =? PM_TYPE_FLOAT then b ← word32 a; Some (inr (PM_VAL_DPTR, Pval (mkVB ty (put_word 4 b))))
  else if is_word64 ty || (ty =? PM_TYPE_DOUBLE) then b ← word64 a; Some (inr (PM_VAL_DPTR, Pval (mkVB ty (put_word 8 b))))
  else if ty =? PM_TYPE_AGGREGATE then
    match a with Blob p => Some (inr (PM_VAL_DPTR, Pval (mkVB ty (vbuf p)))) | _ => None end
  else if ty =? PM_TYPE_STRING then
    match a with
    | Chars cp => if bool_decide (NUL ∈ cp) then Some (inr (PM_VAL_DPTR, Pval (mkVB ty (string_at cp ++ [NUL])))) else None
    | _ => None
    end
  else if (ty =? PM_TYPE_AGGREGATE_STATIC) || (ty =? PM_TYPE_EVENT) then
    match a with Blob p => Some (inr (PM_VAL_SPTR, Pval p)) | _ => None end
  else Some (inl PM_ERR_TYPE).

(** ** What the text of units is *)

(** Words with a space between them. *)
Fixpoint spaced (l : list str) : str :=
  match l with [] => [] | [w] => w | w :: l => w ++ space :: spaced l end.
Definition parts (u : pmUnits) : list (Z * str) :=
  [(dimSpace u, spacestr (scaleSpace u)); (dimTime u, timestr (scaleTime u)); (dimCount u, countstr (scaleCount u))].
Definition upper (l : list (Z * str)) : list str := (λ p, power p.2 p.1) <$> List.filter (λ p, 0 <? p.1) l.
Definition lower (l : list (Z * str)) : list str := (λ p, power p.2 (- p.1)) <$> List.filter (λ p, p.1 <? 0) l.
Definition slash (l : list str) : list str := match l with [] => [] | _ => lit "/" :: l end.
Definition units_text (u : pmUnits) : str :=
  match upper (parts u) ++ slash (lower (parts u)) with
  | [] => if scaleCount u =? 0 then [] else if scaleCount u =? 1 then lit "x 10" else lit "x 10^" ++ show (scaleCount u)
  | words => spaced words
  end.

Definition all_in (lo hi : Z) (f : Z → bool) : bool := forallb f (seqZ lo (hi - lo)).
Lemma all_in_spec lo hi f x : all_in lo hi f = true → lo <= x < hi → f x = true.
Proof. unfold all_in. rewrite forallb_forall. intros H Hx. apply H. apply list_elem_of_In, elem_of_seqZ. lia. Qed.
Lemma part_bound name lo hi b s d :
  all_in lo hi (λ s, all_in 1 9 (λ d, zlen (power (name s) d) <=? b)) = true → lo <= s < hi → 1 <= d < 9 → zlen (power (name s) d) <= b.
Proof. intros H Hs Hd. pose proof (all_in_spec _ _ _ s H Hs) as H1. pose proof (all_in_spec _ _ _ d H1 Hd). cbn in *. lia. Qed.
Lemma space_bound s d : 0 <= s < 16 → 1 <= d < 9 → zlen (power (spacestr s) d) <= 10.
Proof. apply part_bound. vm_compute. reflexivity. Qed.
Lemma time_bound s d : 0 <= s < 16 → 1 <= d < 9 → zlen (power (timestr s) d) <= 10.
Proof. apply part_bound. vm_compute. reflexivity. Qed.
Lemma count_bound s d : -8 <= s < 8 → 1 <= d < 9 → zlen (power (countstr s) d) <= 15.
Proof. apply part_bound. vm_compute. reflexivity. Qed.

Definition trailed (l : list str) : str := flat_map (λ w, w ++ [space]) l.
Lemma trailed_app l1 l2 : trailed (l1 ++ l2) = trailed l1 ++ trailed l2.
Proof. apply flat_map_app. Qed.
Lemma trailed_spaced l : l ≠ [] → trailed l = spaced l ++ [space].
Proof.
  induction l as [|w l IH]; [done |]. intros _. destruct l as [|w' l]; [cbn; by rewrite app_nil_r |].
  cbn [trailed flat_map spaced] in *. rewrite IH by done. by rewrite <- !app_assoc.
Qed.
(** Every piece fits. *)
Lemma put_fits buflen s buf : zlen buf + zlen s + 1 <= buflen → put buflen s buf = Some (buf ++ s ++ [space]).
Proof.
  intros H. unfold put. rewrite (proj2 (Z.leb_gt _ _)) by lia. by rewrite take_ge by lia.
Qed.
Definition when (b : bool) (s : str) : list str := if b then [s] else [].
Definition need (l : list str) : Z := zlen (trailed l).
Lemma need_cons w l : need (w :: l) = zlen w + 1 + need l.
Proof. unfold need, trailed. cbn [flat_map]. rewrite !length_app. cbn [length]. lia. Qed.
Lemma put_if_fits b buflen s l : need l + need (when b s) <= buflen → put_if b buflen s (trailed l) = Some (trailed (l ++ when b s)).
Proof.
  intros H. unfold put_if, when in *. destruct b; [| by rewrite app_nil_r]. rewrite need_cons in H. change (need []) with 0 in H. unfold need in H.
  rewrite put_fits by lia. rewrite trailed_app. cbn. by rewrite app_nil_r.
Qed.
Lemma put_if_first b buflen s : need (when b s) <= buflen → put_if b buflen s [] = Some (trailed (when b s)).
Proof. exact (put_if_fits b buflen s []). Qed.
Lemma put_slash_fits buflen l : need l + 2 <= buflen → put_slash buflen (trailed l) = Some (trailed (l ++ [lit "/"])).
Proof. unfold need. intros H. unfold put_slash. rewrite (proj2 (Z.ltb_ge _ _)) by lia. by rewrite trailed_app. Qed.
Lemma slash_need l : need (slash l) <= need l + 2.
Proof. unfold slash. destruct l; [done |]. rewrite !need_cons. change (zlen (lit "/")) with 1. lia. Qed.
Lemma upper_parts u : upper (parts u) =
  when (0 <? dimSpace u) (power (spacestr (scaleSpace u)) (dimSpace u)) ++
  when (0 <? dimTime u) (power (timestr (scaleTime u)) (dimTime u)) ++
  when (0 <? dimCount u) (power (countstr (scaleCount u)) (dimCount u)).
Proof. unfold upper, parts. cbn [List.filter fst]. by destruct (0 <? dimSpace u), (0 <? dimTime u), (0 <? dimCount u). Qed.
Lemma lower_parts u : lower (parts u) =
  when (dimSpace u <? 0) (power (spacestr (scaleSpace u)) (- dimSpace u)) ++
  when (dimTime u <? 0) (power (timestr (scaleTime u)) (- dimTime u)) ++
  when (dimCount u <? 0) (power (countstr (scaleCount u)) (- dimCount u)).
Proof. unfold lower, parts. cbn [List.filter fst]. by destruct (dimSpace u <? 0), (dimTime u <? 0), (dimCount u <? 0). Qed.
Lemma need_app l1 l2 : need (l1 ++ l2) = need l1 + need l2.
Proof. unfold need. rewrite trailed_app, length_app. lia. Qed.
Lemma need_nonneg l : 0 <= need l.
Proof. unfold need. lia. Qed.
(** Of a dimension one of both pieces is there. *)
Lemma need_both name d b : 0 <= b → (∀ d, 1 <= d < 9 → zlen (power name d) <= b) → -8 <= d < 8 →
  need (when (0 <? d) (power name d)) + need (when (d <? 0) (power name (- d))) <= b + 1.
Proof.
  intros Hb H Hd. assert (need [] = 0) as E by done. unfold when.
  destruct (Z.ltb_spec 0 d), (Z.ltb_spec d 0); rewrite ?need_cons, ?E; [lia | pose proof (H d); lia | pose proof (H (- d)); lia | lia].
Qed.
Lemma written_words u buflen : units_wf u → 40 <= buflen →
  need (upper (parts u) ++ slash (lower (parts u))) <= 40 ∧
  pmUnitsStr_r u buflen = Some (match trailed (upper (parts u) ++ slash (lower (parts u))) with
    | [] => if scaleCount u =? 1 then take (Z.to_nat (buflen - 1)) (lit "x 10")
            else if negb (scaleCount u =? 0) then take (Z.to_nat (buflen - 1)) (lit "x 10^" ++ show (scaleCount u)) else []
    | b => removelast b
    end).
Proof.
  intros (HS & HT & HC & HsS & HsT & HsC & _) Hb. unfold pmUnitsStr_r. rewrite (proj2 (Z.leb_gt _ _)) by lia. rewrite upper_parts, lower_parts.
  pose proof (need_both (spacestr (scaleSpace u)) (dimSpace u) 10 ltac:(lia) (λ d, space_bound _ d HsS) HS) as NS.
  pose proof (need_both (timestr (scaleTime u)) (dimTime u) 10 ltac:(lia) (λ d, time_bound _ d HsT) HT) as NT.
  pose proof (need_both (countstr (scaleCount u)) (dimCount u) 15 ltac:(lia) (λ d, count_bound _ d HsC) HC) as NC.
  set (s1 := when (0 <? dimSpace u) _) in *. set (t1 := when (0 <? dimTime u) _) in *. set (c1 := when (0 <? dimCount u) _) in *.
  set (s2 := when (dimSpace u <? 0) _) in *. set (t2 := when (dimTime u <? 0) _) in *. set (c2 := when (dimCount u <? 0) _) in *.
  pose proof (need_nonneg s1). pose proof (need_nonneg t1). pose proof (need_nonneg c1).
  pose proof (need_nonneg s2). pose proof (need_nonneg t2). pose proof (need_nonneg c2).
  rewrite put_if_first by (fold s1; lia). cbn [mbind option_bind]. fold s1.
  rewrite put_if_fits by (fold t1; lia). cbn [mbind option_bind]. fold t1.
  rewrite put_if_fits by (fold c1; rewrite need_app; lia). cbn [mbind option_bind]. fold c1. rewrite <- (app_assoc s1 t1 c1).
  set (up := s1 ++ t1 ++ c1). assert (need up = need s1 + need t1 + need c1) as Nup by (unfold up; rewrite !need_app; lia).
  assert (need (s2 ++ t2 ++ c2) = need s2 + need t2 + need c2) as Nlow by (rewrite !need_app; lia).
  pose proof (slash_need (s2 ++ t2 ++ c2)). split; [rewrite need_app; lia |].
  destruct ((dimSpace u <? 0) || (dimTime u <? 0) || (dimCount u <? 0)) eqn:E.
  - rewrite put_slash_fits by lia. cbn [mbind option_bind]. set (up' := up ++ [lit "/"]).
    assert (need up' = need up + 2) as Nup' by (unfold up'; rewrite need_app; done).
    rewrite put_if_fits by (fold s2; lia). cbn [mbind option_bind]. fold s2.
    rewrite put_if_fits by (fold t2; rewrite need_app; lia). cbn [mbind option_bind]. fold t2.
    rewrite put_if_fits by (fold c2; rewrite !need_app; lia). cbn [mbind option_bind]. fold c2.
    assert (slash (s2 ++ t2 ++ c2) = lit "/" :: s2 ++ t2 ++ c2) as ->.
    { unfold slash. destruct (s2 ++ t2 ++ c2) eqn:El; [| done]. exfalso. apply app_eq_nil in El as [E1 [E2 E3]%app_eq_nil].
      unfold s2, t2, c2, when in *. by destruct (dimSpace u <? 0), (dimTime u <? 0), (dimCount u <? 0). }
    unfold up'. rewrite <- !app_assoc. cbn [app]. by destruct (trailed _).
  - apply orb_false_iff in E as [[E1 E2]%orb_false_iff E3]. unfold s2, t2, c2. rewrite E1, E2, E3. cbn [when slash app mbind option_bind].
    rewrite app_nil_r. by destruct (trailed _).
Qed.

(** ** What the conversion of scales is *)

(** The size of a unit: only the quotient of two sizes counts. *)
Definition space_size (s : Z) : Q := inject_Z 1024 ^ s.
Definition time_size (s : Z) : Q :=
  inject_Z ([1; 1000; 1000000; 1000000000; 60 * 1000000000; 3600 * 1000000000] !!! Z.to_nat s).
Definition count_size (s : Z) : Q := inject_Z 10 ^ s.
Definition no_dim (u : pmUnits) : bool := (dimSpace u =? 0) && (dimTime u =? 0) && (dimCount u =? 0).
Definition unit_size (u : pmUnits) : Q :=
  if no_dim u then count_size (scaleCount u)
  else (space_size (scaleSpace u) ^ dimSpace u * time_size (scaleTime u) ^ dimTime u * count_size (scaleCount u) ^ dimCount u)%Q.
Definition same_dim (i o : pmUnits) : Prop := dimSpace i = dimSpace o ∧ dimTime i = dimTime o ∧ dimCount i = dimCount o.
(** The scale of a dimension that is there is one the code knows. *)
Definition known_scales (u : pmUnits) : Prop :=
  (dimSpace u = 0 ∨ 0 <= scaleSpace u < 7) ∧ (dimTime u = 0 ∨ 0 <= scaleTime u < 6).
(** The divisor and the multiplier as they are without overflow. *)
Definition factor_of (dim : Z) (dm : Z * Z) : Z * Z :=
  if 0 <? dim then (dm.1 ^ dim, dm.2 ^ dim) else (dm.2 ^ (- dim), dm.1 ^ (- dim)).
Definition space_step (i o : Z) : Z * Z := step_scales (default (1, 1) (space_scale i)) (default (1, 1) (space_scale o)).
Definition time_step (i o : Z) : Z * Z := step_scales (default (1, 1) (time_scale i)) (default (1, 1) (time_scale o)).
Definition product (a b : Z * Z) : Z * Z := (a.1 * b.1, a.2 * b.2).
Definition exact_factors (i o : pmUnits) : Z * Z :=
  if no_dim i then count_scales (scaleCount i) (scaleCount o)
  else product (product (factor_of (dimSpace i) (space_step (scaleSpace i) (scaleSpace o)))
                        (factor_of (dimTime i) (time_step (scaleTime i) (scaleTime o))))
               (factor_of (dimCount i) (count_scales (scaleCount i) (scaleCount o))).

Lemma times_exact n f x : 0 <= n → 1 <= f → 1 <= x → x * f ^ n < 2^63 → times n f x = x * f ^ n.
Proof.
  intros Hn Hf Hx. unfold times. replace (f ^ n) with (f ^ Z.of_nat (Z.to_nat n)) by (by rewrite Z2Nat.id).
  generalize (Z.to_nat n) as k. clear n Hn. induction k as [|k IH]; [cbn; lia |]. intros H. rewrite Nat2Z.inj_succ, Z.pow_succ_r in * by lia.
  assert (1 <= f ^ Z.of_nat k) as Hk by (pose proof (Z.pow_pos_nonneg f (Z.of_nat k)); lia).
  cbn [Nat.iter nat_rect]. change (nat_rect _ _ _ k) with (Nat.iter k (λ x, s64 (x * f)) x). rewrite IH by nia.
  unfold s64. rewrite Z.mod_small; nia.
Qed.
Definition positive (p : Z * Z) : Prop := 1 <= p.1 ∧ 1 <= p.2.
Lemma factor_positive dim dm : positive dm → positive (factor_of dim dm).
Proof.
  intros [H1 H2]. unfold factor_of. destruct (Z.ltb_spec 0 dim); split; cbn.
  all: match goal with |- 1 <= ?a ^ ?b => pose proof (Z.pow_pos_nonneg a b); lia end.
Qed.
Lemma apply_dim_exact dim dm acc :
  positive dm → positive acc → (product acc (factor_of dim dm)).1 < 2^63 → (product acc (factor_of dim dm)).2 < 2^63 →
  apply_dim dim dm acc = product acc (factor_of dim dm).
Proof.
  intros [H1 H2] [H3 H4]. unfold apply_dim, product, factor_of.
  destruct (Z.ltb_spec 0 dim); cbn [fst snd]; intros; rewrite !times_exact by (done || lia); done.
Qed.
Lemma scales_positive {l : list (Z * Z)} (s : nat) : Forall positive l → positive (default (1, 1) (l !! s)).
Proof. intros H. destruct (l !! s) eqn:E; [by eapply Forall_lookup_1 in E | done]. Qed.
Lemma steps_positive a b : positive a → positive b → positive (step_scales a b).
Proof. intros [? ?] [? ?]. unfold step_scales. split; cbn; nia. Qed.
Lemma space_positive i o : positive (space_step i o).
Proof. apply steps_positive; apply scales_positive; repeat constructor; cbn; lia. Qed.
Lemma time_positive i o : positive (time_step i o).
Proof. apply steps_positive; apply scales_positive; repeat constructor; cbn; lia. Qed.
Lemma count_positive i o : positive (count_scales i o).
Proof.
  unfold count_scales, tens. split; cbn [fst snd].
  all: match goal with |- 1 <= 10 ^ ?a * 10 ^ ?b => pose proof (Z.pow_pos_nonneg 10 a); pose proof (Z.pow_pos_nonneg 10 b); nia end.
Qed.
Lemma product_positive a b : positive a → positive b → positive (product a b).
Proof. intros [? ?] [? ?]. unfold product. split; cbn; nia. Qed.
Lemma exact_positive i o : positive (exact_factors i o).
Proof.
  unfold exact_factors. destruct (no_dim i); [apply count_positive |].
  repeat apply product_positive; apply factor_positive; [apply space_positive | apply time_positive | apply count_positive].
Qed.
Lemma space_known s : 0 <= s < 7 → is_Some (space_scale s).
Proof. intros H. apply lookup_lt_is_Some. cbn. lia. Qed.
Lemma time_known s : 0 <= s < 6 → is_Some (time_scale s).
Proof. intros H. apply lookup_lt_is_Some. cbn. lia. Qed.

Definition fits (dm : Z * Z) : Prop := dm.1 < 2^63 ∧ dm.2 < 2^63.
Lemma product_fits a b : positive a → positive b → fits (product a b) → fits a.
Proof. intros [? ?] [? ?] [? ?]. unfold product in *. cbn in *. split; nia. Qed.
Lemma product_one a : product (1, 1) a = a.
Proof. destruct a. unfold product. cbn [fst snd]. by rewrite !Z.mul_1_l. Qed.
Lemma product_one_r a : product a (1, 1) = a.
Proof. destruct a. unfold product. cbn [fst snd]. by rewrite !Z.mul_1_r. Qed.
Lemma factor_zero dm : factor_of 0 dm = (1, 1).
Proof. done. Qed.
(** One dimension, as the code does it. *)
Lemma one_dim dim dm acc : positive dm → positive acc → fits (product acc (factor_of dim dm)) →
  (if dim =? 0 then acc else apply_dim dim dm acc) = product acc (factor_of dim dm).
Proof.
  intros H1 H2 [H3 H4]. destruct (Z.eqb_spec dim 0) as [-> |]; [by rewrite factor_zero, product_one_r |]. by apply apply_dim_exact.
Qed.
Lemma scale_factors_exact i o : same_dim i o → known_scales i → known_scales o → fits (exact_factors i o) →
  scale_factors i o = inr (exact_factors i o).
Proof.
  intros (ES & ET & EC) [KS KT] [KS' KT'] Hf. unfold scale_factors, exact_factors in *. rewrite <- ES, <- ET, <- EC, !Z.eqb_refl. cbn [negb orb].
  set (S := factor_of (dimSpace i) _) in *. set (T := factor_of (dimTime i) _) in *. set (C := factor_of (dimCount i) _) in *.
  assert (positive S) as PS by apply factor_positive, space_positive. assert (positive T) as PT by apply factor_positive, time_positive.
  assert (positive C) as PC by apply factor_positive, count_positive.
  assert ((if dimSpace i =? 0 then Some (1, 1) else
             a ← space_scale (scaleSpace i); b ← space_scale (scaleSpace o); Some (step_scales a b)) =
          Some (if dimSpace i =? 0 then (1, 1) else space_step (scaleSpace i) (scaleSpace o))) as ->.
  { destruct (Z.eqb_spec (dimSpace i) 0); [done |]. unfold space_step.
    destruct (space_known (scaleSpace i)) as [a ->]; [lia |]. by destruct (space_known (scaleSpace o)) as [b ->]; [lia |]. }
  assert ((if dimTime i =? 0 then Some (1, 1) else
             a ← time_scale (scaleTime i); b ← time_scale (scaleTime o); Some (step_scales a b)) =
          Some (if dimTime i =? 0 then (1, 1) else time_step (scaleTime i) (scaleTime o))) as ->.
  { destruct (Z.eqb_spec (dimTime i) 0); [done |]. unfold time_step.
    destruct (time_known (scaleTime i)) as [a ->]; [lia |]. by destruct (time_known (scaleTime o)) as [b ->]; [lia |]. }
  cbn iota. f_equal. unfold no_dim in *. destruct ((dimSpace i =? 0) && (dimTime i =? 0) && (dimCount i =? 0)) eqn:E.
  { apply andb_true_iff in E as [[-> ->]%andb_true_iff ->]. done. }
  assert (fits (product S T)) as FST by (apply (product_fits _ C); [by apply product_positive | done | done]).
  assert (fits (product (1, 1) S)) as FS by (rewrite product_one; by apply (product_fits _ T)).
  assert (positive (1, 1)) as P1 by done.
  assert ((if dimSpace i =? 0 then (1, 1) else apply_dim (dimSpace i) (if dimSpace i =? 0 then (1, 1) else space_step (scaleSpace i) (scaleSpace o)) (1, 1)) = S) as ->.
  { rewrite <- (product_one S). unfold S. rewrite <- one_dim by (done || apply space_positive). by destruct (dimSpace i =? 0). }
  assert ((if dimTime i =? 0 then S else apply_dim (dimTime i) (if dimTime i =? 0 then (1, 1) else time_step (scaleTime i) (scaleTime o)) S) = product S T) as ->.
  { unfold T. rewrite <- one_dim by (done || apply time_positive). by destruct (dimTime i =? 0). }
  unfold C in *. rewrite <- one_dim by (done || apply count_positive || by apply product_positive).
  destruct (dimCount i =? 0); cbn [negb]; [| done]. rewrite andb_true_r in E. by rewrite E.
Qed.

(** ** Ratios *)

(** The factors [p] take a number of units of size [a] to the number of those of size [b]. *)
Definition ratio (p : Z * Z) (a b : Q) : Prop := (inject_Z p.2 * b == inject_Z p.1 * a)%Q.
Lemma ratio_product p q a b a' b' : ratio p a b → ratio q a' b' → ratio (product p q) (a * a') (b * b').
Proof.
  unfold ratio, product. cbn [fst snd]. intros H1 H2. rewrite !inject_Z_mult.
  transitivity ((inject_Z p.2 * b) * (inject_Z q.2 * b'))%Q; [ring |]. rewrite H1, H2. ring.
Qed.
Lemma ratio_step p q a b c : ratio p a c → ratio q b c → ratio (step_scales p q) a b.
Proof.
  unfold ratio, step_scales. cbn [fst snd]. intros H1 H2. rewrite !inject_Z_mult.
  transitivity (inject_Z p.2 * (inject_Z q.1 * b))%Q; [ring |]. rewrite <- H2.
  transitivity (inject_Z q.2 * (inject_Z p.2 * c))%Q; [ring |]. rewrite H1. ring.
Qed.
Lemma size_pos s n : (0 < s)%Q → (0 < s ^ n)%Q.
Proof. apply Qpower_0_lt. Qed.
Lemma ratio_pow p a b n : ratio p a b → (0 < a)%Q → (0 < b)%Q → ratio (factor_of n p) (a ^ n) (b ^ n).
Proof.
  unfold ratio, factor_of. intros H Ha Hb. destruct (Z.ltb_spec 0 n); cbn [fst snd].
  - rewrite !Zpower_Qpower by lia. rewrite <- !Qmult_power. by rewrite H.
  - rewrite !Zpower_Qpower by lia. set (k := - n). replace n with (- k) by lia. rewrite !Qpower_opp.
    assert (∀ x, (0 < x)%Q → ¬ (x ^ k == 0)%Q) as Hx by (intros x Hx E; pose proof (size_pos x k Hx) as Hp; rewrite E in Hp; by apply (Qlt_irrefl 0)).
    pose proof (Hx a Ha). pose proof (Hx b Hb).
    assert (inject_Z p.1 ^ k * a ^ k == inject_Z p.2 ^ k * b ^ k)%Q as E by (rewrite <- !Qmult_power; by rewrite H).
    transitivity ((inject_Z p.1 ^ k * a ^ k) * / (a ^ k) * / (b ^ k))%Q; [by field |]. rewrite E. by field.
Qed.
Lemma tens_Q n : 0 <= n → (inject_Z (tens n) == inject_Z 10 ^ n)%Q.
Proof. intros. unfold tens. by apply Zpower_Qpower. Qed.
Lemma ratio_count i o : ratio (count_scales i o) (count_size i) (count_size o).
Proof.
  unfold ratio, count_scales, count_size. cbn [fst snd]. rewrite !inject_Z_mult, !tens_Q by lia.
  assert (¬ inject_Z 10 == 0)%Q by done. rewrite <- !Qpower_plus by done.
  replace (Z.max 0 i + Z.max 0 (- o) + o) with (Z.max 0 (- i) + Z.max 0 o + i) by lia. reflexivity.
Qed.
Lemma all_Q n (f g : Z → Q) s : all_in 0 n (λ s, Qeq_bool (f s) (g s)) = true → 0 <= s < n → (f s == g s)%Q.
Proof. intros H Hs. apply Qeq_bool_iff. exact (all_in_spec 0 n _ s H Hs). Qed.
Lemma ratio_space i o : 0 <= i < 7 → 0 <= o < 7 → ratio (space_step i o) (space_size i) (space_size o).
Proof.
  assert (∀ s, 0 <= s < 7 → ratio (default (1, 1) (space_scale s)) (space_size s) (inject_Z (1024 * 1024))) as H.
  { intros s. by apply (all_Q 7 (λ s, inject_Z (default (1%Z, 1%Z) (space_scale s)).2 * inject_Z (1024 * 1024))%Q (λ s, inject_Z (default (1%Z, 1%Z) (space_scale s)).1 * space_size s)%Q). }
  intros Hi Ho. by eapply ratio_step; apply H.
Qed.
Lemma ratio_time i o : 0 <= i < 6 → 0 <= o < 6 → ratio (time_step i o) (time_size i) (time_size o).
Proof.
  assert (∀ s, 0 <= s < 6 → ratio (default (1, 1) (time_scale s)) (time_size s) (inject_Z 1000000000)) as H.
  { intros s. by apply (all_Q 6 (λ s, inject_Z (default (1%Z, 1%Z) (time_scale s)).2 * inject_Z 1000000000)%Q (λ s, inject_Z (default (1%Z, 1%Z) (time_scale s)).1 * time_size s)%Q). }
  intros Hi Ho. by eapply ratio_step; apply H.
Qed.
Lemma time_size_pos s : 0 <= s < 6 → (0 < time_size s)%Q.
Proof. intros H. apply Qnot_le_lt. rewrite <- Qle_bool_iff. apply not_true_iff_false, negb_true_iff. by apply (all_in_spec 0 6 (λ s, negb (Qle_bool (time_size s) 0))). Qed.
(** A dimension that is not there has no scale. *)
Lemma ratio_dim p a b n : (n ≠ 0 → ratio p a b ∧ (0 < a)%Q ∧ (0 < b)%Q) → ratio (factor_of n p) (a ^ n) (b ^ n).
Proof. intros H. destruct (decide (n = 0)) as [-> | Hn]; [done |]. destruct (H Hn) as (? & ? & ?). by apply ratio_pow. Qed.
Lemma exact_ratio i o : same_dim i o → known_scales i → known_scales o → ratio (exact_factors i o) (unit_size i) (unit_size o).
Proof.
  intros (ES & ET & EC) [KS KT] [KS' KT']. unfold exact_factors, unit_size, no_dim. rewrite <- ES, <- ET, <- EC.
  destruct (_ && _ && _); [apply ratio_count |]. repeat apply ratio_product; apply ratio_dim; intros Hn.
  - split; [apply ratio_space; lia |]. split; by apply size_pos.
  - split; [apply ratio_time; lia |]. split; apply time_size_pos; lia.
  - split; [apply ratio_count |]. split; by apply size_pos.
Qed.
Lemma unit_size_pos u : known_scales u → (0 < unit_size u)%Q.
Proof.
  intros [KS KT]. unfold unit_size. destruct (no_dim u); [by apply size_pos |].
  assert (0 < time_size (scaleTime u) ^ dimTime u)%Q.
  { destruct (decide (dimTime u = 0)) as [-> |]; [done |]. apply size_pos, time_size_pos. lia. }
  repeat apply Qmult_lt_0_compat; [by do 2 apply size_pos | done | by do 2 apply size_pos].
Qed.

(** ** Integers *)

Definition is_int (ty : Z) : bool := is_word32 ty || is_word64 ty.
Definition int_atom (ty z : Z) : atom := if is_word32 ty then Word32 (u32 z) else Word64 (u64 z).
Definition lowest (ty : Z) : Z :=
  if ty =? PM_TYPE_32 then - 2^31 else if ty =? PM_TYPE_64 then - 2^63 else 0.
Definition highest (ty : Z) : Z :=
  if ty =? PM_TYPE_32 then 2^31 - 1 else if ty =? PM_TYPE_U32 then 2^32 - 1
  else if ty =? PM_TYPE_64 then 2^63 - 1 else 2^64 - 1.
Definition in_type (ty z : Z) : bool := (lowest ty <=? z) && (z <=? highest ty).
Lemma int_cases ty : is_int ty = true → ty = PM_TYPE_32 ∨ ty = PM_TYPE_U32 ∨ ty = PM_TYPE_64 ∨ ty = PM_TYPE_U64.
Proof. unfold is_int, is_word32, is_word64, PM_TYPE_32, PM_TYPE_U32, PM_TYPE_64, PM_TYPE_U64. lia. Qed.
Lemma s64_id x : - 2^63 <= x < 2^63 → s64 x = x.
Proof. intros H. unfold s64. rewrite Z.mod_small; lia. Qed.
Lemma s64_u64 x : s64 (u64 x) = s64 x.
Proof. unfold s64, u64. by rewrite Zplus_mod_idemp_l. Qed.
(** The quotient, rounded, that the code takes. *)
Definition rounded (v : Z) (dm : Z * Z) : Z := (v * dm.2 + dm.1 / 2) / dm.1.
Definition reduced (dm : Z * Z) : Z * Z := if dm.2 mod dm.1 =? 0 then (1, dm.2 / dm.1) else dm.
Lemma reduced_positive dm : positive dm → positive (reduced dm).
Proof.
  intros [H1 H2]. unfold reduced. destruct (Z.eqb_spec (dm.2 mod dm.1) 0) as [E |]; [| done]. split; cbn; [lia |].
  pose proof (Z.div_mod dm.2 dm.1). nia.
Qed.
Lemma reduce_reduced dm : positive dm → reduce dm.1 dm.2 = Some (reduced dm).
Proof.
  intros [H1 H2]. unfold reduce, reduced, div64. rewrite (proj2 (Z.eqb_neq dm.1 0)) by lia. rewrite (proj2 (Z.eqb_neq dm.1 (-1))) by lia.
  rewrite andb_false_r. cbn [orb mbind option_bind]. rewrite Z.quot_div_nonneg, Z.rem_mod_nonneg by lia. by destruct dm.
Qed.
Lemma inject_nonzero z : z ≠ 0 → ¬ (inject_Z z == 0)%Q.
Proof. intros Hz E. unfold Qeq in E. cbn in E. lia. Qed.
Lemma reduced_ratio dm a b : positive dm → ratio dm a b → ratio (reduced dm) a b.
Proof.
  intros [H1 H2] H. unfold reduced. destruct (Z.eqb_spec (dm.2 mod dm.1) 0) as [E |]; [| done]. unfold ratio in *. cbn [fst snd].
  pose proof (Z.div_mod dm.2 dm.1 ltac:(lia)) as Hd. rewrite E, Z.add_0_r in Hd. rewrite Hd, inject_Z_mult in H.
  assert (¬ inject_Z dm.1 == 0)%Q as Hn by (apply inject_nonzero; lia).
  apply (Qmult_inj_l _ _ (inject_Z dm.1)); [done |]. rewrite Qmult_assoc, H. ring.
Qed.
Lemma reduced_bound v dm : positive dm → 0 <= v →
  0 <= v * (reduced dm).2 + (reduced dm).1 / 2 <= v * dm.2 + dm.1 / 2 ∧ (reduced dm).1 <= dm.1 ∧ (reduced dm).2 <= dm.2.
Proof.
  intros [H1 H2] Hv. unfold reduced. pose proof (Z.div_pos dm.1 2 ltac:(lia) ltac:(lia)). assert (0 <= v * dm.2) by nia. destruct (Z.eqb_spec (dm.2 mod dm.1) 0) as [E |]; cbn [fst snd]; [| lia].
  change (1 / 2) with 0. assert (0 <= dm.2 / dm.1 <= dm.2) by (split; [apply Z.div_pos; lia | apply Z.div_le_upper_bound; nia]). nia.
Qed.
Lemma scaled_int ty v div mult : is_int ty = true → in_type ty v = true → 0 <= v → 1 <= div < 2^63 → 1 <= mult < 2^63 → v * mult + div / 2 < 2^63 →
  scaled ty div mult (int_atom ty v) = Some (inr (int_atom ty (rounded v (div, mult)))).
Proof.
  intros Hty Hin Hv Hd Hm Hb. pose proof (Z.div_pos div 2 ltac:(lia) ltac:(lia)). assert (div / 2 < 2^63) by (apply Z.div_lt_upper_bound; lia).
  assert (0 <= v * mult) by nia. assert (0 <= (v * mult + div / 2) / div) by (apply Z.div_pos; lia).
  assert (div64 (v * mult + div / 2) div = Some ((v * mult + div / 2) / div)) as Ed.
  { unfold div64. rewrite (proj2 (Z.eqb_neq _ _)) by lia. rewrite (proj2 (Z.eqb_neq div (-1))) by lia.
    rewrite andb_false_r. cbn [orb]. by rewrite Z.quot_div_nonneg by lia. }
  unfold scaled, rounded. cbn [fst snd]. rewrite (Z.quot_div_nonneg div 2) by lia.
  destruct (int_cases ty Hty) as [-> | [-> | [-> | ->]]]; cbv [in_type lowest highest PM_TYPE_32 PM_TYPE_U32 PM_TYPE_64 PM_TYPE_U64] in Hin |- *; cbn [Z.eqb Pos.eqb] in Hin |- *.
  - change (int_atom 0 v) with (Word32 (u32 v)). cbn [word32 mbind option_bind]. rewrite s32_u32_id by (unfold is_s32; lia). rewrite (s64_id (v * mult)), s64_id, Ed by lia. done.
  - change (int_atom 1 v) with (Word32 (u32 v)). cbn [word32 mbind option_bind]. rewrite u32_id by (unfold is_u32; lia). rewrite (s64_id (v * mult)), s64_id, Ed by lia. done.
  - change (int_atom 2 v) with (Word64 (u64 v)). cbn [word64 mbind option_bind]. rewrite s64_u64, (s64_id v), (s64_id (v * mult)), s64_id, Ed by lia. done.
  - change (int_atom 3 v) with (Word64 (u64 v)). cbn [word64 mbind option_bind]. rewrite (proj2 (Z.eqb_neq div 0)) by lia.
    rewrite (u64_id v), (u64_id mult), (u64_id (v * mult)), (u64_id (div / 2)), (u64_id div), u64_id by lia.
    assert ((v * mult + div / 2) / div <= v * mult + div / 2) by (apply Z.div_le_upper_bound; nia).
    cbv [int_atom is_word32 PM_TYPE_32 PM_TYPE_U32]. cbn [Z.eqb Pos.eqb orb]. by rewrite (u64_id (_ / _)) by lia.
Qed.
Lemma rounding D n : 1 <= D → 2 * Z.abs ((n + D / 2) / D * D - n) <= D.
Proof. intros H. pose proof (Z.div_mod (n + D / 2) D). pose proof (Z.mod_pos_bound (n + D / 2) D). pose proof (Z.div_mod D 2). pose proof (Z.mod_pos_bound D 2). lia. Qed.
Lemma nearest dm v a b : positive dm → ratio dm a b → (0 < b)%Q →
  (2 * Qabs (inject_Z (rounded v dm) * b - inject_Z v * a) <= b)%Q.
Proof.
  intros [H1 H2] Hr Hb. unfold ratio in Hr. pose proof (rounding dm.1 (v * dm.2) H1) as He. fold (rounded v dm) in He.
  set (r := rounded v dm) in *. assert (0 < inject_Z dm.1)%Q as HD by (unfold Qlt; cbn; lia).
  assert (inject_Z dm.1 * (inject_Z r * b - inject_Z v * a) == inject_Z (r * dm.1 - v * dm.2) * b)%Q as E.
  { unfold Z.sub. rewrite inject_Z_plus, inject_Z_opp, !inject_Z_mult.
    transitivity (inject_Z r * inject_Z dm.1 * b - inject_Z v * (inject_Z dm.1 * a))%Q; [ring |]. rewrite <- Hr. ring. }
  apply (Qmult_lt_0_le_reg_r _ _ (inject_Z dm.1)); [done |].
  apply (Qle_trans _ (2 * Qabs (inject_Z dm.1 * (inject_Z r * b - inject_Z v * a)))).
  { rewrite Qabs_Qmult, (Qabs_pos (inject_Z dm.1)) by by apply Qlt_le_weak. apply Qle_lteq. right. ring. }
  rewrite E, Qabs_Qmult, (Qabs_pos b) by by apply Qlt_le_weak. rewrite Qmult_assoc, (Qmult_comm b).
  apply Qmult_le_compat_r; [| by apply Qlt_le_weak]. unfold Qle. cbn. lia.
Qed.

(** ** What is extracted *)

(** What the integer [v] of type [ty] is as a value of another type. *)
Definition converted (ty v otype : Z) : Z + atom :=
  if is_int otype then
    if in_type otype v || (ty =? PM_TYPE_64) && (otype =? PM_TYPE_32) && (v <? 0) then inr (int_atom otype v)
    else inl (if v <? 0 then PM_ERR_SIGN else PM_ERR_TRUNC)
  else if otype =? PM_TYPE_FLOAT then inr (Word32 (encode single (of_int single v)))
  else if otype =? PM_TYPE_DOUBLE then inr (Word64 (encode double (of_int double v)))
  else inl PM_ERR_CONV.
Definition from_int (ty v otype : Z) : Z + atom :=
  if ty =? PM_TYPE_32 then from_l v otype else if ty =? PM_TYPE_U32 then from_ul v otype
  else if ty =? PM_TYPE_64 then from_ll v otype else from_ull v otype.
Lemma not_int otype : is_int otype = false → (otype =? PM_TYPE_32) = false ∧ (otype =? PM_TYPE_U32) = false ∧ (otype =? PM_TYPE_64) = false ∧ (otype =? PM_TYPE_U64) = false.
Proof. unfold is_int, is_word32, is_word64. lia. Qed.
Lemma from_int_converted ty v otype : is_int ty = true → in_type ty v = true → from_int ty v otype = converted ty v otype.
Proof.
  intros Hty Hv. unfold converted. destruct (is_int otype) eqn:Ho.
  - destruct (int_cases ty Hty) as [-> | [-> | [-> | ->]]], (int_cases otype Ho) as [-> | [-> | [-> | ->]]].
    all: cbv [in_type lowest highest PM_TYPE_32 PM_TYPE_U32 PM_TYPE_64 PM_TYPE_U64 from_int from_l from_ul from_ll from_ull int_atom is_word32] in Hv |- *.
    all: cbn [Z.eqb Pos.eqb orb andb] in Hv |- *.
    all: repeat case_match; first [done | exfalso; lia | by rewrite u32_id by (unfold is_u32; lia) | by rewrite u64_id by lia].
  - destruct (not_int otype Ho) as (E1 & E2 & E3 & E4). unfold from_int, from_l, from_ul, from_ll, from_ull. rewrite E1, E2, E3, E4.
    by destruct (ty =? PM_TYPE_32), (ty =? PM_TYPE_U32), (ty =? PM_TYPE_64).
Qed.
Lemma word_back n z : 0 <= z < 2 ^ (8 * Z.of_nat n) → LittleEndianList.le_combine (take n (put_word n z)) = z.
Proof.
  intros H. unfold put_word. rewrite take_ge by by rewrite length_le_split. rewrite le_combine_split. apply Z.mod_small. by rewrite Z.mul_comm in H.
Qed.
Lemma word_length n z : zlen (put_word n z) = Z.of_nat n.
Proof. unfold put_word. by rewrite length_le_split. Qed.
Lemma get_word32_put z : 0 <= z < 2^32 → get_word32 (put_word 4 z) = Some z.
Proof. intros H. unfold get_word32. rewrite word_length. cbn [Z.leb]. rewrite word_back by done. done. Qed.
Lemma get_word64_put z : 0 <= z < 2^64 → get_word64 (put_word 8 z) = Some z.
Proof. intros H. unfold get_word64. rewrite word_length, word_back by done. done. Qed.
Lemma string_at_again cp l : string_at (string_at cp ++ NUL :: l) = string_at cp.
Proof. induction cp as [|c cp IH]; [done |]. cbn [string_at]. case_bool_decide as E; [done |]. cbn [app string_at]. by rewrite bool_decide_eq_false_2, IH. Qed.
Lemma block_put ty n z : block_of ty (Z.of_nat n) (mkVB ty (put_word n z)) = true.
Proof. unfold block_of. cbn [vbuf vtype]. rewrite word_length, !Z.eqb_refl. done. Qed.
End Units.
Import Units.

(** C36. The text of units is the positive dimensions with their scales, and after a slash
    the negative ones, or a power of ten if there are none; 40 bytes are always enough for
    it, so that it is never cut and the buffer of 60 bytes is never left. *)
Theorem units_text_fits u buflen :
  units_wf u → 40 <= buflen → pmUnitsStr_r u buflen = Some (units_text u) ∧ zlen (units_text u) < 40.
Proof.
  intros Hu Hb. destruct (written_words u buflen Hu Hb) as [Hn ->]. unfold units_text.
  destruct (upper (parts u) ++ slash (lower (parts u))) as [|w l] eqn:E.
  - change (trailed []) with (@nil byte). cbv iota. assert (all_in (-8) 8 (λ s, zlen (lit "x 10^" ++ show s) <=? 20) = true) as H by (vm_compute; reflexivity).
    pose proof (all_in_spec _ _ _ (scaleCount u) H ltac:(apply Hu)) as Hs%Z.leb_le.
    destruct (Z.eqb_spec (scaleCount u) 0) as [-> | H0]; [done |]. destruct (Z.eqb_spec (scaleCount u) 1) as [H1 | H1]; cbn [negb].
    + rewrite take_ge; [done | cbn; lia].
    + rewrite take_ge by lia. split; [done | lia].
  - unfold need in Hn. rewrite trailed_spaced in Hn |- * by done. rewrite length_app in Hn. cbn [length] in Hn. split; [| lia].
    destruct (spaced (w :: l) ++ [space]) eqn:Es; [by destruct (app_cons_not_nil _ _ _ (eq_sym Es)) |]. rewrite <- Es. by rewrite removelast_last.
Qed.

(** C37. An integer that is not negative, converted from one unit to another of the same
    dimension, is the nearest number of the new unit, as far as nothing overflows 64 bits;
    the result is cut to its type. *)
Theorem scale_nearest ty i o v :
  is_int ty = true → same_dim i o → known_scales i → known_scales o → fits (exact_factors i o) →
  in_type ty v = true → 0 <= v → v * (exact_factors i o).2 + (exact_factors i o).1 / 2 < 2^63 →
  ∃ r, pmConvScale ty (int_atom ty v) i o = Some (inr (int_atom ty r)) ∧
    (2 * Qabs (inject_Z r * unit_size o - inject_Z v * unit_size i) <= unit_size o)%Q.
Proof.
  intros Hty Hdim Hi Ho Hf Hin Hv Hb. pose proof (exact_positive i o) as Hp. set (dm := exact_factors i o) in *.
  exists (rounded v (reduced dm)). split.
  - unfold pmConvScale. rewrite scale_factors_exact by done. fold dm. rewrite (surjective_pairing dm), reduce_reduced by done. cbn [mbind option_bind].
    pose proof (reduced_positive dm Hp) as [? ?]. pose proof (reduced_bound v dm Hp Hv) as (? & ? & ?). destruct Hf.
    rewrite <- (surjective_pairing dm). destruct (reduced dm) as [D M]. cbn [fst snd] in *. apply scaled_int; done || lia.
  - by apply nearest; [apply reduced_positive | apply reduced_ratio, exact_ratio | apply unit_size_pos].
Qed.


(** ** Examples *)

Definition kbyte_per_sec : pmUnits := mkUnits 1 (-1) 0 1 3 0 0.
Definition byte_per_msec : pmUnits := mkUnits 1 (-1) 0 0 2 0 0.
Lemma units_text_fits_witness : units_wf kbyte_per_sec ∧ pmUnitsStr kbyte_per_sec = Some (lit "Kbyte / sec").
Proof.
  assert (units_wf kbyte_per_sec) as H by (unfold units_wf; cbn; lia). split; [done |].
  destruct (units_text_fits kbyte_per_sec 60 H ltac:(lia)) as [E _]. unfold pmUnitsStr. rewrite E. vm_compute. reflexivity.
Defined.
Lemma scale_nearest_witness :
  ∃ r, pmConvScale PM_TYPE_U32 (int_atom PM_TYPE_U32 5000) byte_per_msec kbyte_per_sec = Some (inr (int_atom PM_TYPE_U32 r)) ∧
    (2 * Qabs (inject_Z r * unit_size kbyte_per_sec - inject_Z 5000 * unit_size byte_per_msec) <= unit_size kbyte_per_sec)%Q.
Proof.
  apply (scale_nearest PM_TYPE_U32 byte_per_msec kbyte_per_sec 5000).
  - reflexivity.
  - split_and!; reflexivity.
  - split; right; cbn; lia.
  - split; right; cbn; lia.
  - split; vm_compute; reflexivity.
  - reflexivity.
  - lia.
  - vm_compute. reflexivity.
Defined.

(** ** What goes wrong *)

(** A negative integer of 64 bits that 32 do not have is cut without an error. *)
Lemma narrowing_wraps :
  pmExtractValue PM_VAL_DPTR (Pval (mkVB PM_TYPE_64 (put_word 8 (u64 (- 2^31 - 1))))) PM_TYPE_64 PM_TYPE_32 = Some (inr (Word32 (2^31 - 1))).
Proof. vm_compute. reflexivity. Qed.
(** Floating point numbers: the largest integer of 32 bits is refused; a number below the
    smallest integer of 64 bits, and one that is none, are cast all the same. *)
Lemma float_limits :
  from_float double (encode double (of_int double (2^31 - 1))) PM_TYPE_32 = Some (inl PM_ERR_TRUNC) ∧
  from_float double (encode double (of_int double (- 2^64))) PM_TYPE_64 = None ∧
  from_float double (encode double S754_nan) PM_TYPE_32 = None.
Proof. vm_compute. split_and!; reflexivity. Qed.
(** The factors overflow: the divisor is 0 and the process is stopped. *)
Lemma scale_overflow_stops :
  pmConvScale PM_TYPE_64 (Word64 1) (mkUnits 2 0 0 0 0 0 0) (mkUnits 2 0 0 6 0 0 0) = None.
Proof. vm_compute. reflexivity. Qed.
(** Negative numbers are not rounded to the nearest: -900 msec are 0 sec. *)
Lemma negative_not_nearest :
  pmConvScale PM_TYPE_32 (Word32 (u32 (-900))) (mkUnits 0 1 0 0 2 0 0) (mkUnits 0 1 0 0 3 0 0) = Some (inr (Word32 0)).
Proof. vm_compute. reflexivity. Qed.
(** Hundreds of events and the square of tens of events have the same text. *)
Lemma count_ambiguous : pmUnitsStr (mkUnits 0 0 1 0 0 2 0) = pmUnitsStr (mkUnits 0 0 2 0 0 1 0).
Proof. vm_compute. reflexivity. Qed.
