(* ===== verification/Callback.v ===== *)
(** The callbacks of an agent, libpcp_pmda/src/callback.c, with the tables that pmdaInit
    (libpcp_pmda/src/open.c) prepares: which instances a fetch is about, what is sent for
    them, and the answers to requests for instances, descriptors and texts.

    An instance domain is kept in the cache of [CacheFile] or in a table of the agent.  The
    function that fetches a value is the agent's own; it is a parameter, with its state, and
    leaves the tables and the caches alone. *)
From S2P Require Import Prelude Memory Text Types ValueBlock PduIO PduSimple PduInstance PduProfile PduResult Profile Cache CacheOps CacheFile PmnsTree Derive DeriveBind DeriveEval Units.
Import Cache.Cache DeriveEval.DeriveEval.
Abbreviation is_int := Units.Units.is_int.
Abbreviation int_atom := Units.Units.int_atom.
Abbreviation int_cases := Units.Units.int_cases.
Local Open Scope Z_scope.

Definition PM_ERR_TEXT : Z := - PM_ERR_BASE - 4.
Definition PMDA_INTERFACE_2 : Z := 2.
Definition PMDA_INTERFACE_3 : Z := 3.
Definition PMDA_INTERFACE_5 : Z := 5.

Module Callback.

(** ** The tables *)

Record pmdaMetric := mkMetric { m_user : Z; m_desc : pmDesc }.
(** [it_numinst] is the length of [it_set]. *)
Record pmdaIndom := mkIndom { it_indom : Z; it_set : list (Z * buf) }.
(** [e_idp]: the static variable last, of which only [it_indom] is used, or an entry of the
    table. *)
Inductive position := Last | Entry (i : nat).
Record pmdaExt := mkExt {
  e_interface : Z; e_direct : bool; e_context : Z; e_indoms : list pmdaIndom; e_metrics : list pmdaMetric;
  e_prof : option __pmProfile; maxnpmids : Z;
  e_idp : option position; e_ordinal : Z; e_singular : Z; last_indom : Z; last_ctx : Z; caches : list hdr_t }.
Definition set_walk (idp : option position) (ord sing : Z) (p : pmdaExt) : pmdaExt :=
  mkExt (e_interface p) (e_direct p) (e_context p) (e_indoms p) (e_metrics p) (e_prof p) (maxnpmids p) idp ord sing
    (last_indom p) (last_ctx p) (caches p).
Definition set_last (dom : Z) (p : pmdaExt) : pmdaExt :=
  mkExt (e_interface p) (e_direct p) (e_context p) (e_indoms p) (e_metrics p) (e_prof p) (maxnpmids p) (e_idp p) (e_ordinal p)
    (e_singular p) dom (last_ctx p) (caches p).
Definition set_caches (base : list hdr_t) (p : pmdaExt) : pmdaExt :=
  mkExt (e_interface p) (e_direct p) (e_context p) (e_indoms p) (e_metrics p) (e_prof p) (maxnpmids p) (e_idp p) (e_ordinal p)
    (e_singular p) (last_indom p) (last_ctx p) base.
Definition set_max (n : Z) (p : pmdaExt) : pmdaExt :=
  mkExt (e_interface p) (e_direct p) (e_context p) (e_indoms p) (e_metrics p) (e_prof p) n (e_idp p) (e_ordinal p)
    (e_singular p) (last_indom p) (last_ctx p) (caches p).
Definition __pmdaSetContext (ctx : Z) (p : pmdaExt) : pmdaExt :=
  mkExt (e_interface p) (e_direct p) (e_context p) (e_indoms p) (e_metrics p) (e_prof p) (maxnpmids p) (e_idp p) (e_ordinal p)
    (e_singular p) (last_indom p) ctx (caches p).
Definition set_e_context (ctx : Z) (p : pmdaExt) : pmdaExt :=
  mkExt (e_interface p) (e_direct p) ctx (e_indoms p) (e_metrics p) (e_prof p) (maxnpmids p) (e_idp p) (e_ordinal p)
    (e_singular p) (last_indom p) (last_ctx p) (caches p).
Definition pmdaProfile (prof : option __pmProfile) (p : pmdaExt) : Z * pmdaExt :=
  (0, mkExt (e_interface p) (e_direct p) (e_context p) (e_indoms p) (e_metrics p) prof (maxnpmids p) (e_idp p) (e_ordinal p)
    (e_singular p) (last_indom p) (last_ctx p) (caches p)).
Definition set_tables (direct : bool) (indoms : list pmdaIndom) (metrics : list pmdaMetric) (p : pmdaExt) : pmdaExt :=
  mkExt (e_interface p) direct (e_context p) indoms metrics (e_prof p) (maxnpmids p) (e_idp p) (e_ordinal p)
    (e_singular p) (last_indom p) (last_ctx p) (caches p).

Definition fix_indom (domain : Z) (d : pmdaIndom) : pmdaIndom := mkIndom (pmInDom_build domain (it_indom d)) (it_set d).
Definition desc_indom (dom : Z) (d : pmDesc) : pmDesc := mkDesc (pmid d) (dtype d) dom (sem d) (units d).
Definition desc_pmid (id : Z) (d : pmDesc) : pmDesc := mkDesc id (dtype d) (dindom d) (sem d) (units d).
Definition fix_metric_indom (domain : Z) (m : pmdaMetric) : pmdaMetric :=
  if dindom (m_desc m) =? PM_INDOM_NULL then m
  else mkMetric (m_user m) (desc_indom (pmInDom_build domain (dindom (m_desc m))) (m_desc m)).
Definition fix_metric_pmid (domain : Z) (m : pmdaMetric) : pmdaMetric :=
  let id := pmid (m_desc m) in mkMetric (m_user m) (desc_pmid (field (bits id 31 1) 31 1 + pmid_build domain (pmid_cluster id) (pmid_item id)) (m_desc m)).
(** The instance domain of a metric is one of the table, if there is a table. *)
Definition serial_known (indoms : list pmdaIndom) (m : pmdaMetric) : bool :=
  (dindom (m_desc m) =? PM_INDOM_NULL) || bool_decide (indoms = [])
  || existsb (λ d, pmInDom_serial (it_indom d) =? pmInDom_serial (dindom (m_desc m))) indoms.
Fixpoint items_are_places (l : list pmdaMetric) (i : Z) : bool :=
  match l with [] => true | m :: l => (pmid_item (pmid (m_desc m)) =? i) && items_are_places l (i + 1) end.
(** The status, and the tables as far as they were set. *)
Definition pmdaInit (domain : Z) (indoms : list pmdaIndom) (metrics : list pmdaMetric) (p : pmdaExt) : Z * pmdaExt :=
  let indoms := fix_indom domain <$> indoms in
  let metrics := fix_metric_indom domain <$> metrics in
  if forallb (serial_known indoms) metrics then
    let metrics := fix_metric_pmid domain <$> metrics in (0, set_tables (items_are_places metrics 0) indoms metrics p)
  else (PM_ERR_GENERIC, set_tables (e_direct p) indoms metrics p).

Section agent.
(** What the operations on files would see; none of them is called here. *)
Context (w : world).

(** ** Instances *)

Definition cache_call (dom o : Z) (p : pmdaExt) : res (Z * pmdaExt) :=
  '(r, _, base) ← pmdaCacheOp w dom o (caches p); Ok (r, set_caches base p).
Definition find_indom (dom : Z) (p : pmdaExt) : option nat := fst <$> list_find (λ d, it_indom d = dom) (e_indoms p).
Definition __pmdaCntInst (dom : Z) (p : pmdaExt) : res (Z * pmdaExt) :=
  if dom =? PM_INDOM_NULL then Ok (1, p)
  else
    '(c, p) ← cache_call dom PMDA_CACHE_CHECK p;
    if negb (c =? 0) then cache_call dom PMDA_CACHE_SIZE_ACTIVE p
    else Ok (match i ← find_indom dom p; e_indoms p !! i with Some d => zlen (it_set d) | None => 0 end, p).
Definition __pmdaStartInst (dom : Z) (p : pmdaExt) : res pmdaExt :=
  let p := set_walk (e_idp p) (-1) (-1) p in
  if dom =? PM_INDOM_NULL then Ok (set_walk (e_idp p) (-1) 0 p)
  else
    '(c, p) ← cache_call dom PMDA_CACHE_CHECK p;
    if negb (c =? 0) then
      '(_, p) ← cache_call dom PMDA_CACHE_WALK_REWIND p;
      Ok (set_walk (Some Last) 0 (-1) (set_last dom p))
    else match find_indom dom p with Some i => Ok (set_walk (Some (Entry i)) 0 (-1) p) | None => Ok p end.
Definition in_profile (dom : Z) (p : pmdaExt) (i : Z) : bool := negb (Profile.__pmInProfile dom (e_prof p) i =? 0).
(** The walk over the cache, to the next instance of the profile. *)
Fixpoint next_cached (fuel : nat) (p : pmdaExt) : res (option Z * pmdaExt) :=
  match fuel with
  | O => Fault
  | S fuel =>
      '(i, p) ← cache_call (last_indom p) PMDA_CACHE_WALK_NEXT p;
      if i =? -1 then Ok (None, set_walk (e_idp p) (-1) (e_singular p) p)
      else
        let p := set_walk (e_idp p) (e_ordinal p + 1) (e_singular p) p in
        if in_profile (last_indom p) p i then Ok (Some i, p) else next_cached fuel p
  end.
(** The same for a table, from the place [j]. *)
Fixpoint next_in_table (dom : Z) (l : list (Z * buf)) (j : Z) (p : pmdaExt) : option Z * pmdaExt :=
  match l with
  | [] => (None, set_walk (e_idp p) (-1) (e_singular p) p)
  | x :: l => if in_profile dom p x.1 then (Some x.1, set_walk (e_idp p) (j + 1) (e_singular p) p) else next_in_table dom l (j + 1) p
  end.
Definition cache_room (dom : Z) (p : pmdaExt) : nat := S (length (elist (cache_of dom (caches p)))).
Definition __pmdaNextInst (p : pmdaExt) : res (option Z * pmdaExt) :=
  if e_singular p =? 0 then Ok (Some 0, set_walk (e_idp p) (e_ordinal p) (-1) p)
  else if 0 <=? e_ordinal p then
    match e_idp p with
    | None => Fault
    | Some Last => next_cached (cache_room (last_indom p) p) p
    | Some (Entry i) =>
        match e_indoms p !! i with
        | None => Fault
        | Some d => Ok (next_in_table (it_indom d) (drop (Z.to_nat (e_ordinal p)) (it_set d)) (e_ordinal p) p)
        end
    end
  else Ok (None, p).

(** ** Requests for instances *)

(** The instances of a cache, until there are [numinst] of them.  [Fault]: the loop does
    not end. *)
Fixpoint collect (fuel : nat) (dom numinst : Z) (acc : list (Z * buf)) (p : pmdaExt) : res (list (Z * buf) * pmdaExt) :=
  match fuel with
  | O => Fault
  | S fuel =>
      if numinst <=? zlen acc then Ok (acc, p)
      else
        '(i, p) ← cache_call dom PMDA_CACHE_WALK_NEXT p;
        if i =? -1 then Ok (acc, p)
        else
          '(st, e, base) ← pmdaCacheLookup dom i (caches p);
          let p := set_caches base p in
          match e with
          | Some e => collect fuel dom numinst (if st =? PMDA_CACHE_ACTIVE then acc ++ [(i, e_name e)] else acc) p
          | None => collect fuel dom numinst acc p
          end
  end.
(** A name without spaces also stands for the instance whose name has it as the first
    word. *)
Definition name_matches (name instname : buf) : bool :=
  bool_decide (name = instname)
  || negb (bool_decide (space ∈ name)) && bool_decide (space ∈ instname) && bool_decide (name = take (get_hashlen instname) instname).
Definition pmdaInstance (dom inst : Z) (name : option buf) (p : pmdaExt) : res ((Z + Instance.__pmInResult) * pmdaExt) :=
  '(c, p) ← cache_call dom PMDA_CACHE_CHECK p;
  let have_cache := negb (c =? 0) in
  match (if have_cache then Some [] else i ← find_indom dom p; d ← e_indoms p !! i; Some (it_set d)) with
  | None => Ok (inl PM_ERR_INDOM, p)
  | Some set =>
      match name with
      | None =>
          if inst =? NO_INST then
            '(numinst, p) ← __pmdaCntInst dom p;
            if have_cache then
              '(_, p) ← cache_call dom PMDA_CACHE_WALK_REWIND p;
              '(l, p) ← collect (cache_room dom p) dom numinst [] p;
              if zlen l <? numinst then Fault else Ok (inr (Instance.mkInResult dom numinst (Some l.*1) (Some l.*2)), p)
            else Ok (inr (Instance.mkInResult dom numinst (Some set.*1) (Some set.*2)), p)
          else if have_cache then
            '(st, e, base) ← pmdaCacheLookup dom inst (caches p);
            let p := set_caches base p in
            match e with
            | Some e => if st =? PMDA_CACHE_ACTIVE then Ok (inr (Instance.mkInResult dom 1 None (Some [e_name e])), p) else Ok (inl PM_ERR_INST, p)
            | None => Ok (inl PM_ERR_INST, p)
            end
          else
            match List.find (λ x, inst =? x.1) set with
            | Some x => Ok (inr (Instance.mkInResult dom 1 None (Some [x.2])), p)
            | None => Ok (inl PM_ERR_INST, p)
            end
      | Some name =>
          if (inst =? NO_INST) && (0 <? zlen name) then
            if have_cache then
              '(st, e, base) ← pmdaCacheLookupName dom name (caches p);
              let p := set_caches base p in
              match e with
              | Some e => if st =? PMDA_CACHE_ACTIVE then Ok (inr (Instance.mkInResult dom 1 (Some [e_inst e]) None), p) else Ok (inl PM_ERR_INST, p)
              | None => Ok (inl PM_ERR_INST, p)
              end
            else
              match List.find (λ x, name_matches name x.2) set with
              | Some x => Ok (inr (Instance.mkInResult dom 1 (Some [x.1]) None), p)
              | None => Ok (inl PM_ERR_INST, p)
              end
          else Ok (inl PM_ERR_INST, p)
      end
  end.

(** ** Fetching *)

Context {A : Type} (fetchCallBack : Z → pmdaMetric → Z → A → Z * atom * A).

Definition find_metric (id : Z) (p : pmdaExt) : option pmdaMetric :=
  if e_direct p then
    match e_metrics p !! Z.to_nat (pmid_item id) with
    | Some m => if id =? pmid (m_desc m) then Some m else None
    | None => None
    end
  else List.find (λ m, id =? pmid (m_desc m)) (e_metrics p).
(** The number of instances, and the last one. *)
Fixpoint count_insts (fuel : nat) (n inst : Z) (p : pmdaExt) : res (Z * Z * pmdaExt) :=
  match fuel with
  | O => Fault
  | S fuel => '(i, p) ← __pmdaNextInst p; match i with Some i => count_insts fuel (n + 1) i p | None => Ok (n, inst, p) end
  end.
(** What comes of a value: the list, its format, and the status. *)
Definition put_value (p : pmdaExt) (ty inst sts : Z) (a : atom) (l : list pmValue) (fmt : Z) : res (list pmValue * Z * Z) :=
  if sts <? 0 then Ok (l, fmt, sts)
  else if (e_interface p =? PMDA_INTERFACE_2) || (PMDA_INTERFACE_3 <=? e_interface p) && (0 <? sts) then
    match Units.__pmStuffValue a ty with
    | None => Fault
    | Some (inl e) => Ok (l, fmt, e)
    | Some (inr (f, v)) => Ok (l ++ [mkValue inst v], f, sts)
    end
  else Ok (l, fmt, sts).
(** The array grows when there are more instances than were counted. *)
Fixpoint get_values (fuel : nat) (m : pmdaMetric) (inst : Z) (l : list pmValue) (fmt : Z) (p : pmdaExt) (a : A)
    : res (list pmValue * Z * Z * pmdaExt * A) :=
  match fuel with
  | O => Fault
  | S fuel =>
      let '(sts, v, a) := fetchCallBack (last_ctx p) m inst a in
      '(l, fmt, sts) ← put_value p (dtype (m_desc m)) inst sts v l fmt;
      if dindom (m_desc m) =? PM_INDOM_NULL then Ok (l, fmt, sts, p, a)
      else
        '(i, p) ← __pmdaNextInst p;
        match i with Some i => get_values fuel m i l fmt p a | None => Ok (l, fmt, sts, p, a) end
  end.
Definition table_room (dom : Z) (p : pmdaExt) : nat :=
  match i ← find_indom dom p; e_indoms p !! i with Some d => length (it_set d) | None => O end.
Definition room (dom : Z) (p : pmdaExt) : nat := S (cache_room dom p + table_room dom p).
(** The instance is not set when there is none. *)
Definition fetch_metric (id : Z) (m : pmdaMetric) (p : pmdaExt) (a : A) : res (pmValueSet * pmdaExt * A) :=
  let dom := dindom (m_desc m) in
  '(n, inst, p) ← (if dom =? PM_INDOM_NULL then Ok (1, NO_INST, p) else p ← __pmdaStartInst dom p; count_insts (room dom p) 0 0 p);
  if n <=? 0 then Ok (mkVset id n PM_VAL_INSITU [], p, a)
  else
    '(inst, p) ← (if dom =? PM_INDOM_NULL then Ok (NO_INST, p)
                  else p ← __pmdaStartInst dom p; '(i, p) ← __pmdaNextInst p; Ok (default inst i, p));
    '(l, fmt, sts, p, a) ← get_values (room dom p) m inst [] PM_VAL_INSITU p a;
    Ok (mkVset id (match l with [] => sts | _ => zlen l end) fmt l, p, a).
Definition fetch_id (id : Z) (p : pmdaExt) (a : A) : res (pmValueSet * pmdaExt * A) :=
  match find_metric id p with
  | None => Ok (mkVset id PM_ERR_PMID PM_VAL_INSITU [], p, a)
  | Some m => fetch_metric id m p a
  end.
Fixpoint fetch_ids (ids : list Z) (p : pmdaExt) (a : A) : res (list pmValueSet * pmdaExt * A) :=
  match ids with
  | [] => Ok ([], p, a)
  | id :: ids =>
      '(vs, p, a) ← fetch_id id p a;
      '(l, p, a) ← fetch_ids ids p a;
      Ok (vs :: l, p, a)
  end.
Definition enter_context (p : pmdaExt) : pmdaExt := if PMDA_INTERFACE_5 <=? e_interface p then __pmdaSetContext (e_context p) p else p.
(** The result is allocated with the first metrics that are asked for. *)
Definition pmdaFetch (pmidlist : list Z) (p : pmdaExt) (a : A) : res (pmResult * pmdaExt * A) :=
  let p := enter_context p in
  let p := if maxnpmids p <? zlen pmidlist then set_max (zlen pmidlist) p else p in
  if maxnpmids p <=? 0 then Fault
  else '(l, p, a) ← fetch_ids pmidlist p a; Ok (mkResult 0 0 l, p, a).

(** ** Descriptors and texts *)

Definition find_desc (id : Z) (p : pmdaExt) : Z + pmDesc :=
  if e_direct p then
    match e_metrics p !! Z.to_nat (pmid_item id) with
    | Some m => if pmid_cluster id =? pmid_cluster (pmid (m_desc m)) then inr (m_desc m) else inl PM_ERR_PMID
    | None => inl PM_ERR_PMID
    end
  else match List.find (λ m, id =? pmid (m_desc m)) (e_metrics p) with Some m => inr (m_desc m) | None => inl PM_ERR_PMID end.
Definition pmdaDesc (id : Z) (p : pmdaExt) : (Z + pmDesc) * pmdaExt := let p := enter_context p in (find_desc id p, p).
(** [help]: the file with the help texts, with its searches by metric and by instance
    domain. *)
Definition pmdaText (help : option ((Z → Z → option buf) * (Z → Z → option buf))) (ident type : Z) (p : pmdaExt) : (Z + buf) * pmdaExt :=
  (match help with
   | None => inl PM_ERR_TEXT
   | Some (pmdaGetHelp, pmdaGetInDomHelp) =>
       match (if Z.land type PduSimple.Text.PM_TEXT_PMID =? PduSimple.Text.PM_TEXT_PMID then pmdaGetHelp ident type else pmdaGetInDomHelp ident type) with
       | Some s => inr s
       | None => inl PM_ERR_TEXT
       end
   end, enter_context p).

(** What an agent has that stores nothing and has no names of its own. *)
Definition pmdaStore (result : pmResult) (p : pmdaExt) : Z := PM_ERR_PERMISSION.
Definition pmdaPMID (name : buf) (p : pmdaExt) : Z + Z := inl PM_ERR_NAME.
Definition pmdaName (id : Z) (p : pmdaExt) : Z + list buf := inl PM_ERR_PMID.
Definition pmdaChildren (name : buf) (traverse : Z) (p : pmdaExt) : Z + list buf * list Z := inl PM_ERR_NAME.

(** ** The walk over the instances *)

Definition active (e : entry_t) : bool := e_state e =? PMDA_CACHE_ACTIVE.
Definition cached (dom : Z) (p : pmdaExt) : bool := bool_decide (is_Some (find_hdr dom (caches p))).
(** The instances of a domain in their order. *)
Definition indom_insts (dom : Z) (p : pmdaExt) : list Z :=
  if cached dom p then e_inst <$> List.filter active (elist (cache_of dom (caches p))).*2
  else match i ← find_indom dom p; e_indoms p !! i with Some d => (it_set d).*1 | None => [] end.
Definition selected (dom : Z) (p : pmdaExt) : list Z := List.filter (in_profile dom p) (indom_insts dom p).
(** Two states that differ in walks only. *)
Record same_but_walk (p p' : pmdaExt) : Prop := {
  sw_interface : e_interface p' = e_interface p; sw_direct : e_direct p' = e_direct p;
  sw_context : e_context p' = e_context p; sw_indoms : e_indoms p' = e_indoms p; sw_metrics : e_metrics p' = e_metrics p;
  sw_prof : e_prof p' = e_prof p; sw_max : maxnpmids p' = maxnpmids p; sw_last_ctx : last_ctx p' = last_ctx p;
  sw_caches : caches_ok (caches p) → caches_ok (caches p');
  sw_find : ∀ dom, is_Some (find_hdr dom (caches p')) ↔ is_Some (find_hdr dom (caches p));
  sw_elist : ∀ dom, elist (cache_of dom (caches p')) = elist (cache_of dom (caches p)) }.
#[local] Instance same_refl : Reflexive same_but_walk.
Proof. intros p. by split. Qed.
#[local] Instance same_trans : Transitive same_but_walk.
Proof.
  intros p q r [] []. split; try congruence; [tauto | intros dom; by rewrite sw_find1].
Qed.
Lemma same_set_walk idp o s p : same_but_walk p (set_walk idp o s p).
Proof. by split. Qed.
Lemma same_set_last dom p : same_but_walk p (set_last dom p).
Proof. by split. Qed.
Lemma same_insts p p' dom : same_but_walk p p' → indom_insts dom p' = indom_insts dom p.
Proof.
  intros []. unfold indom_insts, cached, find_indom. rewrite sw_elist0, sw_indoms0. by rewrite (bool_decide_ext _ _ (sw_find0 dom)).
Qed.
Lemma same_in_profile p p' dom i : same_but_walk p p' → in_profile dom p' i = in_profile dom p i.
Proof. intros []. unfold in_profile. by rewrite sw_prof0. Qed.
Lemma same_selected p p' dom : same_but_walk p p' → selected dom p' = selected dom p.
Proof.
  intros H. unfold selected. rewrite (same_insts _ _ _ H). apply List.filter_ext. intros i. by apply same_in_profile.
Qed.
Lemma find_hdr_put dom dom' h base : indom h = dom → is_Some (find_hdr dom base) →
  is_Some (find_hdr dom' (put dom h base)) ↔ is_Some (find_hdr dom' base).
Proof.
  intros Hd Hs. unfold put, find_cache. destruct (find_hdr dom base) as [i|] eqn:E; [| by destruct Hs]. clear Hs.
  revert i E. induction base as [|g base IH]; intros i E; [done |]. cbn [find_hdr] in E |- *. destruct (Z.eqb_spec (indom g) dom) as [Eg|Ne].
  - injection E as <-. cbn [list_insert insert find_hdr]. rewrite Hd, Eg. done.
  - destruct (find_hdr dom base) as [j|] eqn:Ej; [| done]. injection E as <-. cbn. destruct (indom g =? dom'); [done |].
    rewrite !fmap_is_Some. by apply (IH j).
Qed.
(** A call that changes the place of a walk only. *)
Lemma same_put_save dom s p : dom ≠ PM_INDOM_NULL → is_Some (find_hdr dom (caches p)) →
  same_but_walk p (set_caches (put dom (set_save s (cache_of dom (caches p))) (caches p)) p).
Proof.
  intros Hd Hf. assert (indom (set_save s (cache_of dom (caches p))) = dom) as Hi by apply cache_of_indom.
  split; try done; cbn [caches set_caches].
  - intros Hc. apply put_ok; [done | done | | done]. apply keeps_save. apply cache_of_all; [apply inv_new_hdr | apply Hc].
  - intros dom'. by apply find_hdr_put.
  - intros dom'. rewrite cache_of_put by done. case_decide; [by subst | done].
Qed.
Lemma check_cached dom p : dom ≠ PM_INDOM_NULL → cache_call dom PMDA_CACHE_CHECK p = Ok (Z.b2z (cached dom p), p).
Proof.
  intros Hd. unfold cache_call, pmdaCacheOp, cached. rewrite (proj2 (Z.eqb_neq _ _)) by done. cbn [Z.eqb PMDA_CACHE_CHECK Pos.eqb mbind res_bind].
  destruct p; cbn. by destruct (find_hdr dom _).
Qed.
Lemma cache_call_op dom o p : dom ≠ PM_INDOM_NULL → o ∈ [PMDA_CACHE_WALK_REWIND; PMDA_CACHE_WALK_NEXT; PMDA_CACHE_SIZE_ACTIVE] →
  cache_call dom o p = '(r, h) ← cache_op o (cache_of dom (caches p)); Ok (r, set_caches (put dom h (caches p)) p).
Proof.
  intros Hd Ho. unfold cache_call, pmdaCacheOp. rewrite (proj2 (Z.eqb_neq dom _)) by done. rewrite on_cache_spec by done.
  assert (file_op w o (cache_of dom (caches p)) = '(sts, h) ← cache_op o (cache_of dom (caches p)); Ok (sts, None, h)) as ->.
  { rewrite !elem_of_cons, elem_of_nil in Ho. by destruct Ho as [-> | [-> | [-> | []]]]. }
  rewrite !elem_of_cons, elem_of_nil in Ho. destruct Ho as [-> | [-> | [-> | []]]]; cbn [Z.eqb Pos.eqb PMDA_CACHE_WALK_REWIND PMDA_CACHE_WALK_NEXT PMDA_CACHE_SIZE_ACTIVE PMDA_CACHE_CHECK].
  all: by destruct (cache_op _ _) as [[]| |].
Qed.
(** The walk over a list of entries stops at the first that is looked for. *)
Lemma walk_until_split f : ∀ fuel l0 l h,
  NoDup (ids (elist h)) → elist h = l0 ++ l → save h = Some (fst <$> head l) → (length l < fuel)%nat →
  (walk_until fuel f h = Ok (None, set_save (Some None) h) ∧ List.filter f l.*2 = []) ∨
  ∃ l1 p e l2, l = l1 ++ (p, e) :: l2 ∧ List.filter f l1.*2 = [] ∧ f e = true ∧
    walk_until fuel f h = Ok (Some e, set_save (Some (fst <$> head l2)) h).
Proof.
  induction fuel as [|fuel IH]; intros l0 l h Hn El Es Hf; [lia |]. cbn [walk_until]. unfold walk_next. rewrite Es.
  destruct l as [|[p e] l]; cbn [head fmap option_fmap option_map mbind res_bind].
  { left. split; [| done]. by destruct h; cbn in Es |- *; rewrite Es. }
  rewrite El, next_of_middle by (by rewrite <- El). cbn [mbind res_bind set_save elist fst].
  rewrite (proj2 (deref_spec (elist h) p e Hn)) by (rewrite El; apply elem_middle; by left).
  destruct (f e) eqn:Ef; [right; by exists [], p, e, l |].
  destruct (IH (l0 ++ [(p, e)]) l (set_save (Some (fst <$> head l)) h)) as [[E E'] | (l1 & q & g & l2 & -> & E1 & E2 & E)]; cbn [set_save elist save].
  - done.
  - by rewrite El, <- app_assoc.
  - done.
  - cbn in Hf. lia.
  - left. split; [exact E |]. cbn. by rewrite Ef.
  - right. exists ((p, e) :: l1), q, g, l2. split_and!; [done | cbn; by rewrite Ef | done | exact E].
Qed.
Definition rest_of (dom : Z) (p : pmdaExt) (l : list Z) : Prop :=
  (e_ordinal p = -1 ∧ l = []) ∨
  (0 <= e_ordinal p ∧ e_idp p = Some Last ∧ last_indom p = dom ∧ is_Some (find_hdr dom (caches p)) ∧
    ∃ l0 l1, elist (cache_of dom (caches p)) = l0 ++ l1 ∧ save (cache_of dom (caches p)) = Some (fst <$> head l1) ∧
      l = e_inst <$> List.filter active l1.*2) ∨
  (0 <= e_ordinal p ∧ ∃ i d, e_idp p = Some (Entry i) ∧ e_indoms p !! i = Some d ∧ it_indom d = dom ∧
    l = (drop (Z.to_nat (e_ordinal p)) (it_set d)).*1).
(** A walk that has the instances [s] of the profile in front of it. *)
Definition walks (dom : Z) (p : pmdaExt) (s : list Z) : Prop :=
  dom ≠ PM_INDOM_NULL ∧ e_singular p = -1 ∧ ∃ l, rest_of dom p l ∧ s = List.filter (in_profile dom p) l.

Lemma find_indom_Some dom p i : find_indom dom p = Some i → ∃ d, e_indoms p !! i = Some d ∧ it_indom d = dom.
Proof.
  unfold find_indom. intros (x & E & ->)%fmap_Some. destruct x as [i d]. apply list_find_Some in E as (? & ? & _). by exists d.
Qed.
Lemma start_walks dom p : dom ≠ PM_INDOM_NULL → ∃ p', __pmdaStartInst dom p = Ok p' ∧ same_but_walk p p' ∧ walks dom p' (selected dom p).
Proof.
  intros Hd. unfold __pmdaStartInst. rewrite (proj2 (Z.eqb_neq _ _)) by done. set (p0 := set_walk (e_idp p) (-1) (-1) p).
  rewrite check_cached by done. cbn [mbind res_bind]. change (cached dom p0) with (cached dom p).
  unfold selected, indom_insts. destruct (cached dom p) eqn:Ec; cbn [Z.b2z Z.eqb negb].
  - rewrite cache_call_op by (done || by left). cbn [mbind res_bind cache_op]. change (cache_op PMDA_CACHE_WALK_REWIND ?h) with (Ok (0, rewind h)).
    cbn [mbind res_bind]. eexists. split; [done |]. apply bool_decide_eq_true in Ec. split.
    + etransitivity; [apply (same_set_walk (e_idp p) (-1) (-1)) |]. fold p0. etransitivity; [by apply (same_put_save dom (Some (fst <$> head (elist (cache_of dom (caches p))))) p0 Hd) |].
      etransitivity; [apply (same_set_last dom) | apply same_set_walk].
    + split; [done |]. split; [done |]. eexists. split; [right; left | reflexivity].
      cbn [set_walk set_last set_caches e_ordinal e_idp last_indom caches]. split; [done |]. split; [done |]. split; [done |].
      assert (indom (rewind (cache_of dom (caches p0))) = dom) as Hi by apply cache_of_indom. split; [by apply find_hdr_put |].
      rewrite cache_of_put by done. rewrite decide_True by done. by exists [], (elist (cache_of dom (caches p))).
  - change (find_indom dom p0) with (find_indom dom p). destruct (find_indom dom p) as [i|] eqn:Ef.
    + eexists. split; [done |]. split; [etransitivity; apply same_set_walk |]. split; [done |]. split; [done |].
      destruct (find_indom_Some dom p i Ef) as (d & Hi & Hdom). eexists. split; [right; right | reflexivity]. split; [done |].
      exists i, d. split_and!; [done | done | done |]. cbn [mbind option_bind]. by rewrite Hi.
    + eexists. split; [done |]. split; [apply same_set_walk |]. split; [done |]. split; [done |]. eexists. split; [by left | done].
Qed.
Lemma caches_inv dom base : caches_ok base → inv (cache_of dom base).
Proof. intros [H _]. apply cache_of_all; [apply inv_new_hdr | done]. Qed.
Lemma next_cached_ok dom : ∀ fuel p l0 l1,
  dom ≠ PM_INDOM_NULL → caches_ok (caches p) → e_singular p = -1 → 0 <= e_ordinal p → e_idp p = Some Last → last_indom p = dom →
  is_Some (find_hdr dom (caches p)) → elist (cache_of dom (caches p)) = l0 ++ l1 → save (cache_of dom (caches p)) = Some (fst <$> head l1) →
  (length l1 < fuel)%nat →
  let s := List.filter (in_profile dom p) (e_inst <$> List.filter active l1.*2) in
  ∃ p', next_cached fuel p = Ok (head s, p') ∧ same_but_walk p p' ∧ walks dom p' (tail s).
Proof.
  clear fetchCallBack A.
  induction fuel as [|fuel IH]; intros p l0 l1 Hd Hc Hs Ho Hi Hl Hf El Es Hlt; [lia |]. cbn zeta. cbn [next_cached].
  pose proof (inv_entries _ _ (caches_inv dom _ Hc)) as He. rewrite Hl, cache_call_op by (done || right; by left).
  change (cache_op PMDA_CACHE_WALK_NEXT ?x) with
    ('(e, y) ← walk_until (S (length (elist x))) active x; Ok (match e with Some e => e_inst e | None => -1 end, y)).
  set (h := cache_of dom (caches p)) in *.
  assert (∀ s, caches_ok (put dom (set_save s h) (caches p)) ∧ is_Some (find_hdr dom (put dom (set_save s h) (caches p))) ∧
    cache_of dom (put dom (set_save s h) (caches p)) = set_save s h) as Hput.
  { intros s. pose proof (same_put_save dom s p Hd Hf) as []. split_and!; [by apply sw_caches0 | by apply sw_find0 |].
    rewrite cache_of_put by apply cache_of_indom. by rewrite decide_True. }
  destruct (walk_until_split active (S (length (elist h))) l0 l1 h) as [[E E0] | (l2 & q & e & l3 & -> & E1 & E2 & E)];
    [apply (eo_ids _ _ He) | done | done | rewrite El, length_app; lia | |]; rewrite E; cbn [mbind res_bind].
  - rewrite E0. eexists. split; [done |]. destruct (Hput (Some None)) as (H1 & H2 & H3). split.
    + etransitivity; [by apply (same_put_save dom (Some None)) | apply same_set_walk].
    + split; [done |]. split; [done |]. exists []. by split; [left |].
  - assert (0 <= e_inst e) as Hinst.
    { pose proof (eo_values _ _ He) as Hv. rewrite Forall_forall in Hv. apply (Hv (q, e)). rewrite El, !elem_of_app, elem_of_cons. tauto. }
    rewrite (proj2 (Z.eqb_neq _ _)) by lia. set (s := Some (fst <$> head l3)). destruct (Hput s) as (H1 & H2 & H3).
    set (p1 := set_walk _ _ _ _). change (last_indom p1) with (last_indom p). rewrite Hl.
    assert (same_but_walk p p1) as Hsame by (etransitivity; [by apply (same_put_save dom s) | apply same_set_walk]).
    rewrite (same_in_profile p p1) by done. rewrite fmap_app, fmap_cons, List.filter_app, E1. cbn [app List.filter snd].
    rewrite E2, fmap_cons. cbn [List.filter].
    assert (elist (cache_of dom (caches p1)) = (l0 ++ l2 ++ [(q, e)]) ++ l3) as El1.
    { rewrite (sw_elist _ _ Hsame). fold h. by rewrite El, <- !app_assoc. }
    assert (save (cache_of dom (caches p1)) = Some (fst <$> head l3)) as Es1 by (cbn [p1 set_walk set_caches caches]; by rewrite H3).
    destruct (in_profile dom p (e_inst e)).
    + eexists. split; [done |]. split; [done |]. split; [done |]. split; [done |]. exists (e_inst <$> List.filter active l3.*2). split.
      * right; left. split; [cbn; lia |]. split; [done |]. split; [done |]. split; [done |]. by exists (l0 ++ l2 ++ [(q, e)]), l3.
      * apply List.filter_ext. intros i. symmetry. by apply same_in_profile.
    + destruct (IH p1 (l0 ++ l2 ++ [(q, e)]) l3) as (p' & E' & S' & W'); try done.
      * cbn. lia.
      * rewrite length_app in Hlt. cbn in Hlt. lia.
      * rewrite (List.filter_ext _ (in_profile dom p)) in E', W' by (intros; by apply same_in_profile).
        exists p'. split; [done |]. split; [by etransitivity | done].
Qed.
Lemma next_in_table_ok dom d k p : ∀ j l,
  dom ≠ PM_INDOM_NULL → e_singular p = -1 → 0 <= j → e_idp p = Some (Entry k) → e_indoms p !! k = Some d → it_indom d = dom →
  l = drop (Z.to_nat j) (it_set d) →
  let s := List.filter (in_profile dom p) l.*1 in
  let '(i, p') := next_in_table dom l j p in i = head s ∧ same_but_walk p p' ∧ walks dom p' (tail s).
Proof.
  intros j l Hd Hs Hj Hk Hi Hdom. revert j Hj. induction l as [|[i nm] l IH]; intros j Hj El; cbn zeta; cbn [next_in_table].
  { split; [done |]. split; [apply same_set_walk |]. split; [done |]. split; [done |]. exists []. by split; [left |]. }
  assert (l = drop (Z.to_nat (j + 1)) (it_set d)) as El1.
  { replace (Z.to_nat (j + 1)) with (S (Z.to_nat j)) by lia.
    assert (it_set d !! Z.to_nat j = Some (i, nm)) as Ej by (rewrite <- (Nat.add_0_r (Z.to_nat j)), <- lookup_drop, <- El; done).
    rewrite (drop_S _ _ _ Ej) in El. by injection El. }
  cbn [fst]. rewrite fmap_cons. cbn [List.filter fst]. destruct (in_profile dom p i).
  - split; [done |]. split; [apply same_set_walk |]. split; [done |]. split; [done |]. exists l.*1. split; [| done].
    right; right. split; [cbn; lia |]. exists k, d. split_and!; [done | done | done |]. cbn [set_walk e_ordinal]. by rewrite El1.
  - by apply IH; [lia |].
Qed.
Lemma next_walks dom p s : caches_ok (caches p) → walks dom p s →
  ∃ p', __pmdaNextInst p = Ok (head s, p') ∧ same_but_walk p p' ∧ walks dom p' (tail s).
Proof.
  intros Hc (Hd & Hs & l & Hl & ->). unfold __pmdaNextInst. rewrite Hs. cbn [Z.eqb].
  destruct Hl as [[Ho ->] | [(Ho & Hi & Hlast & Hf & l0 & l1 & El & Es & ->) | (Ho & i & d & Hi & Hd' & Hdom & ->)]].
  - rewrite Ho. exists p. split; [done |]. split; [done |]. split; [done |]. split; [done |]. exists []. by split; [left |].
  - rewrite (proj2 (Z.leb_le _ _)), Hi by done. apply (next_cached_ok dom _ p l0 l1); try done.
    unfold cache_room. rewrite Hlast, El, length_app. lia.
  - rewrite (proj2 (Z.leb_le _ _)), Hi, Hd' by done. pose proof (next_in_table_ok dom d i p (e_ordinal p) _ Hd Hs Ho Hi Hd' Hdom eq_refl) as H.
    rewrite Hdom. destruct (next_in_table _ _ _ _) as [x p']. destruct H as (-> & ? & ?). by exists p'.
Qed.
Lemma count_ok dom : ∀ fuel n inst p s, caches_ok (caches p) → walks dom p s → (length s < fuel)%nat →
  ∃ p', count_insts fuel n inst p = Ok (n + zlen s, default inst (list.last s), p') ∧ same_but_walk p p'.
Proof.
  induction fuel as [|fuel IH]; intros n inst p s Hc Hw Hlt; [lia |]. cbn [count_insts].
  destruct (next_walks dom p s Hc Hw) as (p1 & -> & S1 & W1). cbn [mbind res_bind]. destruct s as [|i s]; cbn [head tail] in *.
  - exists p1. by rewrite Z.add_0_r.
  - destruct (IH (n + 1) i p1 s) as (p2 & -> & S2); [by apply (sw_caches _ _ S1) | done | cbn in Hlt; lia |].
    exists p2. split; [| by etransitivity]. replace (n + 1 + zlen s) with (n + zlen (i :: s)) by (cbn [length]; lia).
    destruct s as [|j s]; [done |]. change (list.last (i :: j :: s)) with (list.last (j :: s)). by destruct (list.last (j :: s)) eqn:E; [| apply last_None in E].
Qed.

(** ** What a fetch means *)

(** The answers of the agent for some instances, one after the other. *)
Fixpoint ask (ctx : Z) (m : pmdaMetric) (insts : list Z) (a : A) : list (Z * Z * atom) * A :=
  match insts with
  | [] => ([], a)
  | i :: insts =>
      let '(sts, v, a) := fetchCallBack ctx m i a in
      let '(xs, a) := ask ctx m insts a in ((i, sts, v) :: xs, a)
  end.
(** Does the status say that there is a value? *)
Definition has_value (interface sts : Z) : bool :=
  (0 <=? sts) && ((interface =? PMDA_INTERFACE_2) || (PMDA_INTERFACE_3 <=? interface) && (0 <? sts)).
Definition value_for (interface ty : Z) (x : Z * Z * atom) : option (Z * pmValue) :=
  let '(i, sts, v) := x in
  if has_value interface sts then match Units.__pmStuffValue v ty with Some (inr (f, y)) => Some (f, mkValue i y) | _ => None end
  else None.
Definition status_for (interface ty : Z) (x : Z * Z * atom) : Z :=
  let '(i, sts, v) := x in
  if has_value interface sts then match Units.__pmStuffValue v ty with Some (inl e) => e | _ => sts end else sts.
(** The values in the order of the instances; without any, the last status. *)
Definition gathered (id interface ty : Z) (xs : list (Z * Z * atom)) : pmValueSet :=
  let l := omap (value_for interface ty) xs in
  mkVset id (match l with [] => from_option (status_for interface ty) 0 (list.last xs) | _ => zlen l end)
    (from_option fst PM_VAL_INSITU (list.last l)) l.*2.
Definition wanted (m : pmdaMetric) (p : pmdaExt) : list Z :=
  if dindom (m_desc m) =? PM_INDOM_NULL then [NO_INST] else selected (dindom (m_desc m)) p.
Definition expected_one (id : Z) (p : pmdaExt) (a : A) : pmValueSet * A :=
  match List.find (λ m, id =? pmid (m_desc m)) (e_metrics p) with
  | None => (mkVset id PM_ERR_PMID PM_VAL_INSITU [], a)
  | Some m => let '(xs, a) := ask (last_ctx p) m (wanted m p) a in (gathered id (e_interface p) (dtype (m_desc m)) xs, a)
  end.
Fixpoint expected (ids : list Z) (p : pmdaExt) (a : A) : list pmValueSet * A :=
  match ids with
  | [] => ([], a)
  | id :: ids => let '(vs, a) := expected_one id p a in let '(l, a) := expected ids p a in (vs :: l, a)
  end.
(** With a status that is no error, the agent sets the member of the value that the type
    says. *)
Definition callback_typed : Prop :=
  ∀ ctx m i a sts v a', fetchCallBack ctx m i a = (sts, v, a') → 0 <= sts → Units.__pmStuffValue v (dtype (m_desc m)) ≠ None.
(** Direct mapping is used only when the items are the places. *)
Definition direct_ok (p : pmdaExt) : Prop := e_direct p = true → ∀ i m, e_metrics p !! i = Some m → pmid_item (pmid (m_desc m)) = Z.of_nat i.

(** What [get_values] leads to, when [xs] are the answers. *)
Definition after_values (interface ty : Z) (xs : list (Z * Z * atom)) (l : list pmValue) (fmt sts : Z) : list pmValue * Z * Z :=
  let ys := omap (value_for interface ty) xs in
  (l ++ ys.*2, from_option fst fmt (list.last ys), from_option (status_for interface ty) sts (list.last xs)).
Lemma put_value_ok p ty i sts v l fmt : (0 <= sts → Units.__pmStuffValue v ty ≠ None) →
  put_value p ty i sts v l fmt = Ok (after_values (e_interface p) ty [(i, sts, v)] l fmt 0).
Proof.
  intros Ht. unfold put_value, after_values, value_for, status_for, has_value. cbn [omap list_omap list.last from_option].
  destruct (Z.ltb_spec sts 0).
  - rewrite (proj2 (Z.leb_gt _ _)) by lia. cbn [andb]. cbn. by rewrite app_nil_r.
  - rewrite (proj2 (Z.leb_le 0 sts)) by lia. cbn [andb]. destruct (_ || _); [| cbn; by rewrite app_nil_r].
    destruct (Units.__pmStuffValue v ty) as [[e | [f y]]|]; [cbn; by rewrite app_nil_r | done | by destruct Ht].
Qed.
Lemma after_values_cons interface ty x xs l fmt sts : 
  after_values interface ty (x :: xs) l fmt sts =
    let '(l, fmt, sts) := after_values interface ty [x] l fmt 0 in after_values interface ty xs l fmt sts.
Proof.
  unfold after_values. cbn [omap list_omap list.last from_option]. destruct (value_for interface ty x) as [y|]; cbn [fmap list_fmap list.last from_option app].
  - rewrite <- app_assoc. cbn [app]. f_equal; [f_equal |].
    + destruct (omap _ xs) as [|z zs]; [done |]. cbn [list.last]. by destruct (list.last (z :: zs)) eqn:E; [| apply last_None in E].
    + destruct xs as [|z zs]; [done |]. cbn [list.last]. by destruct (list.last (z :: zs)) eqn:E; [| apply last_None in E].
  - rewrite app_nil_r. f_equal.
    destruct xs as [|z zs]; [done |]. cbn [list.last]. by destruct (list.last (z :: zs)) eqn:E; [| apply last_None in E].
Qed.
Lemma get_values_ok m : callback_typed → dindom (m_desc m) ≠ PM_INDOM_NULL → ∀ fuel i s l fmt sts p a,
  caches_ok (caches p) → walks (dindom (m_desc m)) p s → (length s < fuel)%nat →
  ∃ p', get_values fuel m i l fmt p a =
      (let '(xs, a') := ask (last_ctx p) m (i :: s) a in
       let '(l, fmt, sts) := after_values (e_interface p) (dtype (m_desc m)) xs l fmt sts in Ok (l, fmt, sts, p', a')) ∧
    same_but_walk p p'.
Proof.
  intros Ht Hd. induction fuel as [|fuel IH]; intros i s l fmt sts0 p a Hc Hw Hlt; [lia |]. cbn [get_values ask].
  destruct (fetchCallBack (last_ctx p) m i a) as [[sts v] a1] eqn:Ef. rewrite put_value_ok by (intros; by eapply Ht).
  destruct (after_values _ _ [(i, sts, v)] l fmt 0) as [[l1 fmt1] sts1] eqn:E1. cbn [mbind res_bind].
  rewrite (proj2 (Z.eqb_neq _ _)) by done. destruct (next_walks _ p s Hc Hw) as (p1 & -> & S1 & W1). cbn [mbind res_bind].
  destruct s as [|j s]; cbn [head tail ask] in *.
  - exists p1. split; [| done]. rewrite after_values_cons, E1. cbn. by rewrite app_nil_r.
  - destruct (IH j s l1 fmt1 sts1 p1 a1) as (p2 & -> & S2); [by apply (sw_caches _ _ S1) | done | cbn in Hlt; lia |].
    exists p2. split; [| by etransitivity]. rewrite (sw_last_ctx _ _ S1), (sw_interface _ _ S1). cbn [ask].
    destruct (fetchCallBack (last_ctx p) m j a1) as [[sts2 v2] a2]. destruct (ask (last_ctx p) m s a2) as [xs a3].
    by rewrite (after_values_cons _ _ (i, sts, v)), E1.
Qed.
Lemma active_fewer l : (length (List.filter active l) <= length l)%nat.
Proof. induction l as [|e l IH]; [done |]. cbn. destruct (active e); cbn; lia. Qed.
Lemma filter_fewer (f : Z → bool) l : (length (List.filter f l) <= length l)%nat.
Proof. induction l as [|e l IH]; [done |]. cbn. destruct (f e); cbn; lia. Qed.
Lemma selected_room dom p : (length (selected dom p) < room dom p)%nat.
Proof.
  pose proof (filter_fewer (in_profile dom p) (indom_insts dom p)) as H. unfold selected, room, cache_room, table_room, indom_insts in *.
  destruct (cached dom p).
  - pose proof (active_fewer (elist (cache_of dom (caches p))).*2). rewrite !length_fmap in *. lia.
  - destruct (i ← find_indom dom p; e_indoms p !! i); [rewrite length_fmap in H; lia | cbn in H |- *; lia].
Qed.
Lemma same_room p p' dom : same_but_walk p p' → room dom p' = room dom p.
Proof. intros []. unfold room, cache_room, table_room, find_indom. by rewrite sw_elist0, sw_indoms0. Qed.
Lemma gathered_after id interface ty xs :
  let '(l, fmt, sts) := after_values interface ty xs [] PM_VAL_INSITU 0 in
  mkVset id (match l with [] => sts | _ => zlen l end) fmt l = gathered id interface ty xs.
Proof.
  unfold gathered, after_values. cbn [app]. destruct (omap _ xs) as [|y ys]; [done |]. f_equal. cbn [fmap list_fmap length]. by rewrite length_fmap.
Qed.
Lemma fetch_metric_ok id m p a : callback_typed → caches_ok (caches p) →
  ∃ p', fetch_metric id m p a =
      (let '(xs, a') := ask (last_ctx p) m (wanted m p) a in Ok (gathered id (e_interface p) (dtype (m_desc m)) xs, p', a')) ∧
    same_but_walk p p'.
Proof.
  intros Ht Hc. unfold fetch_metric, wanted. destruct (Z.eqb_spec (dindom (m_desc m)) PM_INDOM_NULL) as [E | Hd].
  - exists p. split; [| done]. change (1 <=? 0) with false. cbn [mbind res_bind get_values room ask].
    destruct (fetchCallBack (last_ctx p) m NO_INST a) as [[sts v] a1] eqn:Ef. rewrite put_value_ok by (intros; by eapply Ht).
    destruct (after_values _ _ [(NO_INST, sts, v)] [] PM_VAL_INSITU 0) as [[l1 fmt1] sts1] eqn:E1. cbn [mbind res_bind].
    rewrite (proj2 (Z.eqb_eq _ _)) by done. cbn [mbind res_bind]. pose proof (gathered_after id (e_interface p) (dtype (m_desc m)) [(NO_INST, sts, v)]) as Hg.
    rewrite E1 in Hg. by rewrite Hg.
  - set (dom := dindom (m_desc m)) in *.
    destruct (start_walks dom p Hd) as (p1 & -> & S1 & W1). cbn [mbind res_bind].
    assert (caches_ok (caches p1)) as Hc1 by by apply (sw_caches _ _ S1).
    destruct (count_ok dom (room dom p1) 0 0 p1 _ Hc1 W1) as (p2 & -> & S2); [rewrite (same_room _ _ _ S1); apply selected_room |].
    cbn [mbind res_bind]. rewrite Z.add_0_l. destruct (selected dom p) as [|i s] eqn:Es.
    { exists p2. split; [done |]. by etransitivity. }
    rewrite (proj2 (Z.leb_gt _ _)) by (cbn [length]; lia).
    assert (same_but_walk p p2) as S12 by by etransitivity.
    destruct (start_walks dom p2 Hd) as (p3 & -> & S3 & W3). cbn [mbind res_bind].
    assert (same_but_walk p p3) as S13 by by etransitivity. rewrite (same_selected _ _ _ S12), Es in W3.
    destruct (next_walks dom p3 _ (sw_caches _ _ S13 Hc) W3) as (p4 & -> & S4 & W4). cbn [mbind res_bind head tail default] in W4 |- *.
    assert (same_but_walk p p4) as S14 by by etransitivity.
    destruct (get_values_ok m Ht Hd (room dom p4) i s [] PM_VAL_INSITU 0 p4 a) as (p5 & E & S5); [by apply (sw_caches _ _ S14) | done | |].
    { rewrite (same_room _ _ _ S14). pose proof (selected_room dom p) as Hr. rewrite Es in Hr. cbn in Hr. lia. }
    change (Datatypes.id i) with i. rewrite E, (sw_last_ctx _ _ S14), (sw_interface _ _ S14).
    exists p5. split; [| by etransitivity]. destruct (ask (last_ctx p) m (i :: s) a) as [xs a1].
    pose proof (gathered_after id (e_interface p) (dtype (m_desc m)) xs) as Hg.
    destruct (after_values _ _ xs [] PM_VAL_INSITU 0) as [[l fmt] sts]. cbn [mbind res_bind]. by rewrite Hg.
Qed.
Lemma places l : ∀ k, items_are_places l k = true → ∀ i m, l !! i = Some m → pmid_item (pmid (m_desc m)) = k + Z.of_nat i.
Proof.
  induction l as [|x l IH]; intros k H i m Hi; [done |]. cbn in H. apply andb_true_iff in H as [H1 H2]. destruct i as [|i]; [injection Hi as <-; lia |].
  rewrite (IH _ H2 i m Hi). lia.
Qed.
Lemma find_none_all {B} (f : B → bool) l : (∀ y, y ∈ l → f y = false) → List.find f l = None.
Proof. intros H. induction l as [|y l IH]; [done |]. cbn. rewrite H by by left. apply IH. intros z Hz. apply H. by right. Qed.
Lemma find_metric_find id p : direct_ok p → find_metric id p = List.find (λ m, id =? pmid (m_desc m)) (e_metrics p).
Proof.
  unfold find_metric, direct_ok. destruct (e_direct p); [| done]. intros H. specialize (H eq_refl).
  assert (∀ l k, (∀ i m, l !! i = Some m → pmid_item (pmid (m_desc m)) = Z.of_nat (k + i)) → (k <= Z.to_nat (pmid_item id))%nat →
    match l !! (Z.to_nat (pmid_item id) - k)%nat with Some m => if id =? pmid (m_desc m) then Some m else None | None => None end
    = List.find (λ m, id =? pmid (m_desc m)) l) as Hl.
  { induction l as [|x l IH]; intros k Hl Hk; [done |]. cbn [List.find]. assert (pmid_item (pmid (m_desc x)) = Z.of_nat k) as Hx by (rewrite (Hl 0%nat x eq_refl); lia).
    destruct (decide (k = Z.to_nat (pmid_item id))) as [E | Hne].
    - rewrite E, Nat.sub_diag. cbn. destruct (Z.eqb_spec id (pmid (m_desc x))); [done |]. symmetry. apply find_none_all. intros y Hy.
      apply Z.eqb_neq. intros ->. apply list_elem_of_lookup in Hy as [j Hj]. pose proof (Hl (S j) y Hj). subst k. lia.
    - replace (Z.to_nat (pmid_item id) - k)%nat with (S (Z.to_nat (pmid_item id) - S k))%nat by lia. cbn [lookup list_lookup].
      rewrite (proj2 (Z.eqb_neq _ _)) by (intros ->; lia). apply IH; [| lia]. intros i m Hi. rewrite (Hl (S i) m Hi). lia. }
  specialize (Hl (e_metrics p) 0%nat). rewrite Nat.sub_0_r in Hl. apply Hl; [done | lia].
Qed.
Lemma same_expected p p' ids : same_but_walk p p' → ∀ a, expected ids p' a = expected ids p a.
Proof.
  intros S. induction ids as [|id ids IH]; intros a; [done |]. cbn [expected].
  assert (expected_one id p' a = expected_one id p a) as ->; [| destruct (expected_one id p a); by rewrite IH].
  unfold expected_one. rewrite (sw_metrics _ _ S). destruct (List.find _ _) as [m|]; [| done].
  unfold wanted. rewrite (sw_last_ctx _ _ S), (sw_interface _ _ S). by rewrite (same_selected _ _ _ S).
Qed.
Lemma expected_max n p ids : ∀ a, expected ids (set_max n p) a = expected ids p a.
Proof.
  induction ids as [|id ids IH]; intros a; [done |]. cbn [expected]. change (expected_one id (set_max n p) a) with (expected_one id p a).
  destruct (expected_one id p a). by rewrite IH.
Qed.
Lemma same_direct p p' : same_but_walk p p' → direct_ok p → direct_ok p'.
Proof. intros S. unfold direct_ok. by rewrite (sw_direct _ _ S), (sw_metrics _ _ S). Qed.
Lemma fetch_ids_ok ids : callback_typed → ∀ p a, caches_ok (caches p) → direct_ok p →
  ∃ p', fetch_ids ids p a = (let '(l, a') := expected ids p a in Ok (l, p', a')) ∧ same_but_walk p p'.
Proof.
  intros Ht. induction ids as [|id ids IH]; intros p a Hc Hdir; [by exists p |]. cbn [fetch_ids expected].
  assert (∃ p1, fetch_id id p a = (let '(vs, a') := expected_one id p a in Ok (vs, p1, a')) ∧ same_but_walk p p1) as (p1 & -> & S1).
  { unfold fetch_id, expected_one. rewrite find_metric_find by done. destruct (List.find _ _) as [m|]; [| by exists p].
    destruct (fetch_metric_ok id m p a Ht Hc) as (p1 & -> & S1). exists p1. split; [| done]. by destruct (ask _ _ _ _). }
  destruct (expected_one id p a) as [vs a1]. cbn [mbind res_bind].
  destruct (IH p1 a1) as (p2 & -> & S2); [by apply (sw_caches _ _ S1) | by eapply same_direct |].
  exists p2. split; [| by etransitivity]. rewrite (same_expected _ _ _ S1). by destruct (expected ids p a1).
Qed.

(** ** Requests for instances *)

Lemma found_unique {B C} `{EqDecision C} (f : B → bool) (g : B → C) (x : B) l :
  NoDup (g <$> l) → x ∈ l → f x = true → (∀ y, y ∈ l → f y = true → g y = g x) → List.find f l = Some x.
Proof.
  intros Hnd Hx Hf Hu. induction l as [|y l IH]; [by apply elem_of_nil in Hx |]. rewrite fmap_cons in Hnd. apply NoDup_cons in Hnd as [Hy Hnd].
  cbn [List.find]. destruct (f y) eqn:Ey.
  - apply elem_of_cons in Hx as [-> | Hx]; [done |]. destruct Hy. rewrite (Hu y) by (by left || done). by apply list_elem_of_fmap_2.
  - apply elem_of_cons in Hx as [-> | Hx]; [congruence |]. apply IH; [done | done |]. intros z Hz. apply Hu. by right.
Qed.
Lemma hashlen_all nm : space ∉ nm → get_hashlen nm = length nm.
Proof.
  induction nm as [|c nm IH]; [done |]. rewrite not_elem_of_cons. intros [Hc Hn]. cbn [get_hashlen length].
  rewrite bool_decide_eq_false_2 by (intros ->; by destruct Hc). by rewrite IH.
Qed.
Lemma matches_key nm x : name_matches nm x = true → key_name x = key_name nm.
Proof.
  unfold name_matches. intros [->%bool_decide_eq_true_1 | [[H1%negb_true_iff%bool_decide_eq_false H2]%andb_true_iff H3%bool_decide_eq_true_1]%andb_true_iff]%orb_true_iff; [done |].
  unfold key_name at 2. rewrite (hashlen_all nm H1), take_ge by done. by rewrite H3.
Qed.
Lemma key_fmap (l : list (Z * buf)) : (λ x, key_name x.2) <$> l = key_name <$> l.*2.
Proof. by rewrite <- list_fmap_compose. Qed.
(** Requests for all instances, for the name of one, for the one of a name, and for one that
    there is not. *)
Definition answers (dom : Z) (p : pmdaExt) (l : list (Z * buf)) : Prop :=
  (∃ p', pmdaInstance dom NO_INST None p = Ok (inr (Instance.mkInResult dom (zlen l) (Some l.*1) (Some l.*2)), p')) ∧
  (∀ i nm, (i, nm) ∈ l → ∃ p1 p2,
    (i ≠ NO_INST → pmdaInstance dom i None p = Ok (inr (Instance.mkInResult dom 1 None (Some [nm])), p1)) ∧
    (nm ≠ [] → pmdaInstance dom NO_INST (Some nm) p = Ok (inr (Instance.mkInResult dom 1 (Some [i]) None), p2))) ∧
  (∀ i, i ≠ NO_INST → i ∉ l.*1 → ∃ p1, pmdaInstance dom i None p = Ok (inl PM_ERR_INST, p1)).
Lemma not_empty (nm : buf) : nm ≠ [] → (0 <? zlen nm) = true.
Proof. destruct nm; [done |]. intros _. apply Z.ltb_lt. cbn [length]. lia. Qed.
Lemma table_answers dom p k d : dom ≠ PM_INDOM_NULL → cached dom p = false → find_indom dom p = Some k → e_indoms p !! k = Some d →
  NoDup (it_set d).*1 → NoDup (key_name <$> (it_set d).*2) → answers dom p (it_set d).
Proof.
  intros Hd Hc Hk Hi Hn1 Hn2.
  assert (∀ inst name, pmdaInstance dom inst name p = 
    match name with
    | None =>
        if inst =? NO_INST then Ok (inr (Instance.mkInResult dom (zlen (it_set d)) (Some (it_set d).*1) (Some (it_set d).*2)), p)
        else match List.find (λ x, inst =? x.1) (it_set d) with Some x => Ok (inr (Instance.mkInResult dom 1 None (Some [x.2])), p) | None => Ok (inl PM_ERR_INST, p) end
    | Some name =>
        if (inst =? NO_INST) && (0 <? zlen name) then
          match List.find (λ x, name_matches name x.2) (it_set d) with Some x => Ok (inr (Instance.mkInResult dom 1 (Some [x.1]) None), p) | None => Ok (inl PM_ERR_INST, p) end
        else Ok (inl PM_ERR_INST, p)
    end) as E.
  { intros inst name. unfold pmdaInstance, __pmdaCntInst. rewrite check_cached, Hc by done. cbn [mbind res_bind Z.b2z Z.eqb negb].
    rewrite Hk. cbn [mbind option_bind]. rewrite Hi. cbn [mbind option_bind]. destruct name as [name|]; [done |]. destruct (inst =? NO_INST); [| done].
    rewrite (proj2 (Z.eqb_neq dom _)) by done. rewrite check_cached, Hc by done. cbn [mbind res_bind Z.b2z Z.eqb negb]. rewrite Hk. cbn [mbind option_bind]. by rewrite Hi. }
  split; [| split].
  - exists p. by rewrite E, Z.eqb_refl.
  - intros i nm Hin. exists p, p. split.
    + intros Hne. rewrite E, (proj2 (Z.eqb_neq _ _)) by done.
      rewrite (found_unique _ fst (i, nm)) by (done || apply Z.eqb_refl || by intros [? ?] _ ?%Z.eqb_eq). done.
    + intros Hne. rewrite E, Z.eqb_refl, not_empty by done. cbn [andb]. rewrite (found_unique _ (λ x, key_name x.2) (i, nm)); [done | | done | |].
      * by rewrite key_fmap.
      * unfold name_matches. by rewrite bool_decide_eq_true_2.
      * intros y _ Hy. by apply matches_key.
  - intros i Hne Hni. exists p. rewrite E, (proj2 (Z.eqb_neq _ _)) by done. rewrite find_none_all; [done |].
    intros y Hy. apply Z.eqb_neq. intros ->. destruct Hni. by apply list_elem_of_fmap_2.
Qed.
Lemma put_same dom base : is_Some (find_hdr dom base) → CacheFile.put dom (cache_of dom base) base = base.
Proof.
  intros [i Hi]. unfold CacheFile.put, find_cache. rewrite Hi. pose proof (find_hdr_spec dom base) as H. rewrite Hi in H. by apply list_insert_id.
Qed.
Lemma lookup_cached dom i p : dom ≠ PM_INDOM_NULL → cached dom p = true →
  pmdaCacheLookup dom i (caches p) = '(st, e) ← lookup None i (cache_of dom (caches p)); Ok (st, e, caches p).
Proof.
  intros Hd Hc%bool_decide_eq_true. unfold pmdaCacheLookup. rewrite on_cache_spec by done.
  destruct (lookup None i _) as [[st e]| |]; [| done | done]. cbn [mbind res_bind]. by rewrite put_same.
Qed.
Lemma lookup_name_cached dom nm p : dom ≠ PM_INDOM_NULL → cached dom p = true →
  pmdaCacheLookupName dom nm (caches p) = '(st, e) ← lookup (Some nm) NO_INST (cache_of dom (caches p)); Ok (st, e, caches p).
Proof.
  intros Hd Hc%bool_decide_eq_true. unfold pmdaCacheLookupName. rewrite on_cache_spec by done.
  destruct (lookup (Some nm) NO_INST _) as [[st e]| |]; [| done | done]. cbn [mbind res_bind]. by rewrite put_same.
Qed.
Definition as_pair (e : entry_t) : Z * buf := (e_inst e, e_name e).
Lemma active_live e : active e = true → live e = true.
Proof. unfold active, live. by intros ->%Z.eqb_eq. Qed.
Lemma collect_ok dom : dom ≠ PM_INDOM_NULL → ∀ fuel p acc l0 l1 n,
  caches_ok (caches p) → is_Some (find_hdr dom (caches p)) →
  elist (cache_of dom (caches p)) = l0 ++ l1 → save (cache_of dom (caches p)) = Some (fst <$> head l1) →
  n = zlen acc + zlen (List.filter active l1.*2) → (length (List.filter active l1.*2) < fuel)%nat →
  ∃ p', collect fuel dom n acc p = Ok (acc ++ (as_pair <$> List.filter active l1.*2), p').
Proof.
  clear fetchCallBack A.
  intros Hd. induction fuel as [|fuel IH]; intros p acc l0 l1 n Hc Hf El Es Hn Hlt; [lia |]. cbn [collect].
  destruct (Z.leb_spec n (zlen acc)) as [Hle | Hgt].
  { destruct (List.filter active l1.*2); [| cbn [length] in Hn; lia]. exists p. by rewrite app_nil_r. }
  pose proof (inv_entries _ _ (caches_inv dom _ Hc)) as He. rewrite cache_call_op by (done || right; by left).
  change (cache_op PMDA_CACHE_WALK_NEXT ?x) with
    ('(e, y) ← walk_until (S (length (elist x))) active x; Ok (match e with Some e => e_inst e | None => -1 end, y)).
  set (h := cache_of dom (caches p)) in *.
  destruct (walk_until_split active (S (length (elist h))) l0 l1 h) as [[E E0] | (l2 & q & e & l3 & -> & E1 & E2 & E)];
    [apply (eo_ids _ _ He) | done | done | rewrite El, length_app; lia | |]; rewrite E; cbn [mbind res_bind].
  { rewrite E0 in Hn. cbn [length] in Hn. lia. }
  assert ((q, e) ∈ elist h) as Hin by (rewrite El, !elem_of_app, elem_of_cons; tauto).
  assert (0 <= e_inst e) as Hinst by (pose proof (eo_values _ _ He) as Hv; rewrite Forall_forall in Hv; by apply (Hv (q, e))).
  rewrite (proj2 (Z.eqb_neq _ _)) by lia. set (p1 := set_caches _ p).
  assert (same_but_walk p p1) as Hsame by by apply (same_put_save dom (Some (fst <$> head l3)) p).
  assert (cache_of dom (caches p1) = set_save (Some (fst <$> head l3)) h) as Hh.
  { cbn [p1 set_caches caches]. rewrite cache_of_put by apply cache_of_indom. by rewrite decide_True. }
  rewrite lookup_cached by (done || apply bool_decide_eq_true; by apply (sw_find _ _ Hsame)).
  rewrite (lookup_inst_some _ q e); [| apply caches_inv; by apply (sw_caches _ _ Hsame) | by rewrite Hh | by apply active_live].
  cbn [mbind res_bind]. assert (e_state e = PMDA_CACHE_ACTIVE) as -> by by apply Z.eqb_eq.
  rewrite Z.eqb_refl. rewrite fmap_app, fmap_cons, List.filter_app, E1 in Hn, Hlt |- *. cbn [app List.filter snd] in Hn, Hlt |- *. rewrite E2 in Hn, Hlt |- *.
  cbn [length] in Hn, Hlt. destruct (IH (set_caches (caches p1) p1) (acc ++ [(e_inst e, e_name e)]) (l0 ++ l2 ++ [(q, e)]) l3 n) as (p' & ->).
  - by apply (sw_caches _ _ Hsame).
  - by apply (sw_find _ _ Hsame).
  - cbn [set_caches caches]. rewrite Hh. cbn [set_save elist]. by rewrite El, <- !app_assoc.
  - cbn [set_caches caches]. by rewrite Hh.
  - rewrite length_app. cbn [length]. lia.
  - lia.
  - exists p'. rewrite fmap_cons. by rewrite <- app_assoc.
Qed.
Lemma cache_answers dom p : dom ≠ PM_INDOM_NULL → caches_ok (caches p) → cached dom p = true →
  answers dom p (as_pair <$> List.filter active (elist (cache_of dom (caches p))).*2).
Proof.
  clear fetchCallBack A.
  intros Hd Hc Hcached. pose proof (caches_inv dom _ Hc) as Hinv. pose proof (inv_entries _ _ Hinv) as He.
  set (h := cache_of dom (caches p)) in *. set (l := as_pair <$> List.filter active (elist h).*2).
  assert (set_caches (caches p) p = p) as Ep by by destruct p.
  assert (∀ i nm, (i, nm) ∈ l → ∃ q e, (q, e) ∈ elist h ∧ active e = true ∧ e_inst e = i ∧ e_name e = nm) as Hl.
  { intros i nm (e & [= -> ->] & Hin)%list_elem_of_fmap. apply list_elem_of_In, filter_In in Hin as [Hin Ha].
    apply list_elem_of_In, list_elem_of_fmap in Hin as ([q e0] & -> & Hx). by exists q, e0. }
  assert (∀ q e, (q, e) ∈ elist h → active e = true → as_pair e ∈ l) as Hl'.
  { intros q e Hq Ha. apply list_elem_of_fmap. exists e. split; [done |]. apply list_elem_of_In, filter_In. split; [| done].
    apply list_elem_of_In. by apply (list_elem_of_fmap_2 snd _ (q, e)). }
  assert (∀ e, active e = true → e_state e = PMDA_CACHE_ACTIVE) as Hst by (intros e; apply Z.eqb_eq).
  split; [| split].
  - unfold pmdaInstance, __pmdaCntInst. rewrite check_cached, Hcached by done. cbn [mbind res_bind Z.b2z Z.eqb negb].
    rewrite Z.eqb_refl, (proj2 (Z.eqb_neq dom _)) by done. rewrite check_cached, Hcached by done. cbn [mbind res_bind Z.b2z Z.eqb negb].
    rewrite cache_call_op by (done || (right; right; by left)).
    change (cache_op PMDA_CACHE_SIZE_ACTIVE ?x) with (Ok (count_state PMDA_CACHE_ACTIVE x, x)). cbn [mbind res_bind].
    fold h. assert (count_state PMDA_CACHE_ACTIVE h = zlen (List.filter active (elist h).*2)) as ->.
    { unfold count_state. generalize (elist h) as k. intros k. induction k as [|[q e] k IH]; [done |]. cbn [List.filter fmap list_fmap snd].
      change (e_state e =? PMDA_CACHE_ACTIVE) with (active e). destruct (active e); cbn [length]; lia. }
    assert (is_Some (find_hdr dom (caches p))) as Hf by by apply bool_decide_eq_true in Hcached.
    assert (CacheFile.put dom h (caches p) = caches p) as -> by by apply put_same. rewrite Ep. rewrite cache_call_op by (done || by left).
    change (cache_op PMDA_CACHE_WALK_REWIND ?x) with (Ok (0, rewind x)). cbn [mbind res_bind]. fold h.
    pose proof (same_put_save dom (Some (fst <$> head (elist h))) p Hd Hf) as S. fold h in S. change (set_save _ h) with (rewind h) in S.
    set (p1 := set_caches (CacheFile.put dom (rewind h) (caches p)) p) in *.
    assert (cache_of dom (caches p1) = rewind h) as Hh.
    { cbn [p1 set_caches caches]. rewrite cache_of_put by apply cache_of_indom. by rewrite decide_True. }
    destruct (collect_ok dom Hd (cache_room dom p1) p1 [] [] (elist h) (zlen (List.filter active (elist h).*2))) as (p2 & ->).
    + by apply (sw_caches _ _ S).
    + by apply (sw_find _ _ S).
    + by rewrite Hh.
    + by rewrite Hh.
    + done.
    + unfold cache_room. rewrite Hh. cbn [rewind set_save elist]. pose proof (active_fewer (elist h).*2). rewrite length_fmap in *. lia.
    + cbn [mbind res_bind app]. fold l. assert (zlen l = zlen (List.filter active (elist h).*2)) as El by (unfold l; by rewrite length_fmap).
      rewrite <- El, Z.ltb_irrefl. by exists p2.
  - intros i nm Hin. destruct (Hl i nm Hin) as (q & e & Hq & Ha & <- & <-). exists p, p. split.
    + intros Hne. unfold pmdaInstance. rewrite check_cached, Hcached by done. cbn [mbind res_bind Z.b2z Z.eqb negb].
      rewrite (proj2 (Z.eqb_neq _ _)), lookup_cached by done. fold h. rewrite (lookup_inst_some h q e) by (done || by apply active_live).
      cbn [mbind res_bind]. by rewrite Hst, Z.eqb_refl, Ep.
    + intros Hne. unfold pmdaInstance. rewrite check_cached, Hcached by done. cbn [mbind res_bind Z.b2z Z.eqb negb].
      rewrite Z.eqb_refl, not_empty, lookup_name_cached by done. cbn [andb]. fold h. rewrite (lookup_name_some h q e); [| done | done | by apply active_live |].
      * cbn [mbind res_bind]. by rewrite Hst, Z.eqb_refl, Ep.
      * pose proof (eo_names _ _ He) as Hn. rewrite Forall_forall in Hn. unfold prefix, key_name. pose proof (Hn (q, e) Hq) as Eh. cbn [snd] in Eh. by rewrite Eh.
  - intros i Hne Hni. unfold pmdaInstance. rewrite check_cached, Hcached by done. cbn [mbind res_bind Z.b2z Z.eqb negb].
    rewrite (proj2 (Z.eqb_neq _ _)), lookup_cached by done. fold h. destruct (List.find (λ x, (e_inst x.2 =? i) && live x.2) (elist h)) as [[q e]|] eqn:Ef.
    + apply find_some in Ef as [Hq [Hi Hlive]%andb_true_iff]. apply Z.eqb_eq in Hi. cbn [snd] in Hi, Hlive. apply list_elem_of_In in Hq. subst i.
      rewrite (lookup_inst_some h q e) by done. cbn [mbind res_bind]. destruct (Z.eqb_spec (e_state e) PMDA_CACHE_ACTIVE) as [E|]; [| by eexists].
      destruct Hni. apply list_elem_of_fmap. exists (as_pair e). split; [done |]. apply (Hl' q); [done | by apply Z.eqb_eq].
    + rewrite lookup_inst_none; [by eexists | done |]. intros q e Hq Hlive Hi. apply list_elem_of_In in Hq.
      pose proof (find_none _ _ Ef _ Hq) as Hx. cbn [snd] in Hx. by rewrite Hi, Z.eqb_refl, Hlive in Hx.
Qed.
End agent.

(** ** Initialisation *)

Lemma serial_build d s : pmInDom_serial (pmInDom_build d s) = s mod 2^22.
Proof. unfold pmInDom_serial, pmInDom_build, bits, field. change (2^0) with 1. rewrite Z.div_1_r, Z.mul_1_r, Z.mod_add by done. by apply Z.mod_mod. Qed.
Lemma build_serial domain s t : pmInDom_serial (pmInDom_build domain s) = pmInDom_serial (pmInDom_build domain t) →
  pmInDom_build domain s = pmInDom_build domain t.
Proof. rewrite !serial_build. unfold pmInDom_build, field. by intros ->. Qed.
Lemma find_indom_is_Some d p : d ∈ e_indoms p → is_Some (find_indom (it_indom d) p).
Proof. intros Hd. unfold find_indom. apply fmap_is_Some. by apply (list_find_elem_of _ _ d). Qed.
(** What pmdaInit leaves: direct mapping is right, and a metric with an instance domain has
    one of the table, if there is a table. *)
Lemma init_ready domain indoms metrics p p' : pmdaInit domain indoms metrics p = (0, p') →
  direct_ok p' ∧ ∀ m, m ∈ e_metrics p' → dindom (m_desc m) ≠ PM_INDOM_NULL → indoms ≠ [] → is_Some (find_indom (dindom (m_desc m)) p').
Proof.
  unfold pmdaInit. set (ds := fix_indom domain <$> indoms). set (ms := fix_metric_indom domain <$> metrics).
  destruct (forallb (serial_known ds) ms) eqn:Ef; [| done]. intros [= <-]. split.
  - intros Hd i m Hi. cbn [set_tables e_direct e_metrics] in Hd, Hi. by rewrite (places _ 0 Hd i m Hi).
  - cbn [set_tables e_metrics]. intros m (m1 & -> & Hm1)%list_elem_of_fmap. change (dindom (m_desc (fix_metric_pmid domain m1))) with (dindom (m_desc m1)).
    intros Hn Hne. rewrite forallb_forall in Ef. pose proof (Ef m1 (proj1 (list_elem_of_In _ _) Hm1)) as Hk. unfold serial_known in Hk.
    rewrite (proj2 (Z.eqb_neq _ _)) in Hk by done. cbn [orb] in Hk. apply orb_true_iff in Hk as [->%bool_decide_eq_true_1%fmap_nil_inv | Hk]; [done |].
    apply existsb_exists in Hk as (d & Hd%list_elem_of_In & Hs%Z.eqb_eq).
    apply list_elem_of_fmap in Hd as (d0 & -> & Hd0). apply list_elem_of_fmap in Hm1 as (m0 & -> & Hm0).
    unfold fix_metric_indom in *. destruct (Z.eqb_spec (dindom (m_desc m0)) PM_INDOM_NULL) as [|_]; [done |].
    cbn [m_desc desc_indom dindom] in *. apply build_serial in Hs. cbn [fix_indom it_indom] in Hs. rewrite <- Hs.
    apply (find_indom_is_Some (fix_indom domain d0)). cbn [set_tables e_indoms]. by apply list_elem_of_fmap_2.
Qed.
(** The whole of a fetch. *)
Lemma pmdaFetch_ok w {A} (cb : Z → pmdaMetric → Z → A → Z * atom * A) ids p a :
  callback_typed cb → caches_ok (caches p) → direct_ok p → 0 < zlen ids →
  ∃ p', pmdaFetch w cb ids p a =
      (let '(l, a') := expected cb ids (enter_context p) a in Ok (mkResult 0 0 l, p', a')) ∧
    same_but_walk (set_max (Z.max (maxnpmids p) (zlen ids)) (enter_context p)) p'.
Proof.
  intros Ht Hc Hdir Hids. unfold pmdaFetch. set (p0 := enter_context p). assert (caches_ok (caches p0) ∧ direct_ok p0 ∧ maxnpmids p0 = maxnpmids p) as (Hc0 & Hd0 & Hm0)
    by (unfold p0, enter_context; by destruct (_ <=? _)).
  set (p1 := if maxnpmids p0 <? zlen ids then set_max (zlen ids) p0 else p0).
  assert (p1 = set_max (Z.max (maxnpmids p) (zlen ids)) p0) as E1.
  { unfold p1. rewrite <- Hm0. destruct (Z.ltb_spec (maxnpmids p0) (zlen ids)); [by rewrite Z.max_r by lia | rewrite Z.max_l by lia; by destruct p0]. }
  rewrite E1. assert (maxnpmids (set_max (Z.max (maxnpmids p) (zlen ids)) p0) = Z.max (maxnpmids p) (zlen ids)) as -> by done.
  rewrite (proj2 (Z.leb_gt _ _)) by lia. destruct (fetch_ids_ok w cb ids Ht (set_max (Z.max (maxnpmids p) (zlen ids)) p0) a Hc0 Hd0) as (p2 & -> & S2).
  exists p2. split; [| done]. rewrite expected_max. by destruct (expected cb ids p0 a).
Qed.
End Callback.
Import Callback.

(** C39. A fetch returns, for each metric that is asked for, exactly the values that the agent
    gives for the instances of its domain that the profile selects, each once and in the
    order of the domain, in the format of the type; without values there is the last error;
    a metric that is not in the table gives PM_ERR_PMID.  The state is as before but for
    the places of the walks over the caches. *)
Theorem fetch_values w {A} (cb : Z → pmdaMetric → Z → A → Z * atom * A) ids p a :
  callback_typed cb → caches_ok (caches p) → direct_ok p → 0 < zlen ids →
  ∃ p', pmdaFetch w cb ids p a =
      (let '(l, a') := expected cb ids (enter_context p) a in Ok (mkResult 0 0 l, p', a')) ∧
    same_but_walk (set_max (Z.max (maxnpmids p) (zlen ids)) (enter_context p)) p'.
Proof. apply pmdaFetch_ok. Qed.

(** C40. The answers to requests for instances agree, in tables and in caches: the whole
    domain is what a fetch is about, each of its instances has the name that is given for
    it, and each name leads back to its instance; any other identifier is refused, and so
    is a domain that is not known. *)
Theorem instances_agree w dom p :
  dom ≠ PM_INDOM_NULL → caches_ok (caches p) →
  (∀ d, d ∈ e_indoms p → NoDup (it_set d).*1 ∧ NoDup (key_name <$> (it_set d).*2)) →
  if cached dom p || bool_decide (is_Some (find_indom dom p)) then ∃ l, l.*1 = indom_insts dom p ∧ answers w dom p l
  else ∀ inst name, pmdaInstance w dom inst name p = Ok (inl PM_ERR_INDOM, p).
Proof.
  intros Hd Hc Ht. destruct (cached dom p) eqn:Ec; cbn [orb].
  - eexists. split; [| by apply cache_answers]. unfold indom_insts. rewrite Ec. by rewrite <- list_fmap_compose.
  - destruct (find_indom dom p) as [k|] eqn:Ek.
    + rewrite bool_decide_eq_true_2 by done. destruct (find_indom_Some dom p k Ek) as (d & Hi & _).
      destruct (Ht d) as [H1 H2]; [by apply list_elem_of_lookup_2 with k |]. exists (it_set d). split; [| by eapply table_answers].
      unfold indom_insts. rewrite Ec, Ek. cbn [mbind option_bind]. by rewrite Hi.
    + rewrite bool_decide_eq_false_2 by by intros [? ?]. intros inst name. unfold pmdaInstance. rewrite check_cached, Ec by done.
      cbn [mbind res_bind Z.b2z Z.eqb negb]. by rewrite Ek.
Qed.

(** ** Examples *)

(** An agent with a metric without instances, one over a table, and one over a cache. *)
Definition ex_units : pmUnits := mkUnits 0 0 0 0 0 0 0.
Definition ex_metrics : list pmdaMetric :=
  [mkMetric 0 (mkDesc (pmid_build 0 0 0) PM_TYPE_32 PM_INDOM_NULL 1 ex_units); mkMetric 0 (mkDesc (pmid_build 0 0 1) PM_TYPE_U64 8 1 ex_units);
   mkMetric 0 (mkDesc (pmid_build 0 0 2) PM_TYPE_32 7 1 ex_units)].
Definition ex_table : list pmdaIndom := [mkIndom 8 [(0, name_a); (1, name_bc)]; mkIndom 7 []].
(** Instance 1 of the table is excluded. *)
Definition ex_profile : __pmProfile := mkProfile 0 [mkInDomProfile (pmInDom_build 0 8) 0 [1]].
Definition ex_start : pmdaExt := mkExt 5 false 3 [] [] (Some ex_profile) 0 None 0 0 0 (-1) (after safe_calls).
Definition ex_ext : pmdaExt := snd (pmdaInit 0 ex_table ex_metrics ex_start).
(** The value is the number of calls; the state is this number. *)
Definition ex_callback (ctx : Z) (m : pmdaMetric) (i : Z) (n : Z) : Z * atom * Z :=
  if is_int (dtype (m_desc m)) then (1, int_atom (dtype (m_desc m)) n, n + 1) else (PM_ERR_PMID, Word32 0, n).
Lemma ex_typed : callback_typed ex_callback.
Proof.
  intros ctx m i n sts v n'. unfold ex_callback. destruct (is_int _) eqn:E; [| by intros [= <- <- <-]].
  intros [= <- <- <-] _. by destruct (int_cases _ E) as [-> | [-> | [-> | ->]]].
Qed.
Lemma ex_caches : caches_ok (caches ex_ext).
Proof.
  assert (rtc called [] (after safe_calls)) as H by (apply (run_all_called safe_calls); vm_compute; reflexivity).
  apply (called_ok _ _ H caches_ok_nil).
Qed.
Lemma ex_direct : direct_ok ex_ext.
Proof. apply (init_ready 0 ex_table ex_metrics ex_start). vm_compute. reflexivity. Qed.
Lemma fetch_values_witness :
  ∃ p', pmdaFetch no_world ex_callback [pmid_build 0 0 1; pmid_build 0 0 0; 77; pmid_build 0 0 2] ex_ext 100 =
      Ok (mkResult 0 0 [mkVset 1 1 PM_VAL_DPTR [mkValue 0 (Pval (mkVB PM_TYPE_U64 (put_word 8 100)))]; mkVset 0 1 PM_VAL_INSITU [mkValue (-1) (Lval 101)];
        mkVset 77 PM_ERR_PMID PM_VAL_INSITU []; mkVset 2 1 PM_VAL_INSITU [mkValue 0 (Lval 102)]], p', 103).
Proof.
  destruct (fetch_values no_world ex_callback [pmid_build 0 0 1; pmid_build 0 0 0; 77; pmid_build 0 0 2] ex_ext 100 ex_typed ex_caches ex_direct ltac:(reflexivity)) as (p' & E & _).
  exists p'. rewrite E. vm_compute. reflexivity.
Defined.
Lemma instances_agree_witness : ∃ l, l.*1 = indom_insts (pmInDom_build 0 8) ex_ext ∧ answers no_world (pmInDom_build 0 8) ex_ext l.
Proof.
  pose proof (instances_agree no_world (pmInDom_build 0 8) ex_ext) as H.
  assert (cached (pmInDom_build 0 8) ex_ext || bool_decide (is_Some (find_indom (pmInDom_build 0 8) ex_ext)) = true) as E by (vm_compute; reflexivity).
  rewrite E in H. apply H; [done | apply ex_caches |].
  assert (Forall (λ d, NoDup (it_set d).*1 ∧ NoDup (key_name <$> (it_set d).*2)) (e_indoms ex_ext)) as Hf by (apply (bool_decide_unpack _); vm_compute; exact I).
  intros d Hd. by apply (proj1 (Forall_forall _ _) Hf).
Defined.

(** ** What goes wrong *)

(** The null domain counts as one that is kept in a cache, since the error of the check is
    not 0, and to have one instance; the walk over it answers with an error that is not the
    end, so that a request for its instances never ends. *)
Lemma null_collect w fuel p : collect w fuel PM_INDOM_NULL 1 [] p = Fault.
Proof. revert p. induction fuel as [|fuel IH]; intros p; [done |]. cbn. apply IH. Qed.
Lemma null_indom_loops w p : pmdaInstance w PM_INDOM_NULL NO_INST None p = Fault.
Proof. unfold pmdaInstance, __pmdaCntInst. cbn -[collect]. by rewrite null_collect. Qed.
