(* ===== verification/MainLoop.v ===== *)
(** The main loop of an agent, libpcp_pmda/src/mainloop.c: PDUs are read off the connection
    to the collector, each request is decoded and handed to the function the agent has for
    it, and the answer is sent.  The pins of the buffers are left out: each PDU is unpinned
    once, when it has been dealt with.

    The functions of the agent are those of a [pmdaInterface]; [standard] is the one with
    the callbacks of [Callback]. *)
From S2P Require Import Prelude Memory Types PduIO PduSimple PduInstance PduPmns PduProfile ValueBlock PduResult Protocol Cache CacheOps CacheFile PmnsTree Derive DeriveBind DeriveEval Units Callback.
Import Callback.Callback.
Local Open Scope Z_scope.

Module MainLoop.

Definition PMDA_INTERFACE_4 : Z := 4.
Definition HAVE_V_TWO (i : Z) : bool := (i =? PMDA_INTERFACE_2) || (i =? PMDA_INTERFACE_3).
Definition HAVE_V_FOUR (i : Z) : bool := (i =? PMDA_INTERFACE_4) || (i =? PMDA_INTERFACE_5).
Definition HAVE_V_FIVE (i : Z) : bool := i =? PMDA_INTERFACE_5.
Definition ANY_SIZE : Z := 0.
Definition PM_ERR_EOF : Z := - PM_ERR_BASE - 23.
Definition PM_ERR_NOTCONN : Z := - PM_ERR_BASE - 46.

(** The functions of an agent over its state [S]: what they return, and what they leave in
    the place for a result. *)
Record pmdaInterface (S : Type) := mkInterface {
  pmda_interface : Z; status : Z;
  do_profile : __pmProfile → S → res (Z * S);
  do_fetch : list Z → S → res (Z * option pmResult * S);
  do_desc : Z → S → res (Z * option pmDesc * S);
  do_instance : Z → Z → option buf → S → res (Z * option Instance.__pmInResult * S);
  do_text : Z → Z → S → res (Z * option buf * S);
  do_store : pmResult → S → res (Z * S);
  do_pmid : buf → S → res (Z * option Z * S);
  do_name : Z → S → res (Z * option (list buf) * S);
  do_children : buf → Z → S → res (Z * option (list buf) * option (list Z) * S);
  set_context : Z → S → S;
  e_checkCallBack : option (S → Z * S);
  e_doneCallBack : option (S → S);
  e_endCallBack : option (Z → S → S);
  e_resultCallBack : pmResult → S → S }.
Arguments pmda_interface {_}. Arguments status {_}. Arguments do_profile {_}. Arguments do_fetch {_}. Arguments do_desc {_}.
Arguments do_instance {_}. Arguments do_text {_}. Arguments do_store {_}. Arguments do_pmid {_}. Arguments do_name {_}.
Arguments do_children {_}. Arguments set_context {_}. Arguments e_checkCallBack {_}. Arguments e_doneCallBack {_}.
Arguments e_endCallBack {_}. Arguments e_resultCallBack {_}.

(** What an agent sends. *)
Inductive answer :=
  | AError (code : Z) | AResult (r : pmResult) | AIds (ids : list Z) (sts : Z) | ANames (names : list buf) (sts : option (list Z))
  | ADesc (d : pmDesc) | AInstance (r : Instance.__pmInResult) | AText (ident : Z) (text : buf).
Definition send_answer `{PduAlloc} (fd : Xmit.wfd) (a : answer) : res (Z * buf) :=
  match a with
  | AError code => Error.__pmSendError fd FROM_ANON code
  | AResult r => Result.__pmSendResult fd FROM_ANON r
  | AIds ids sts => IDList.__pmSendIDList fd FROM_ANON ids sts
  | ANames names sts => NameList.__pmSendNameList names sts fd FROM_ANON
  | ADesc d => Desc.__pmSendDesc fd FROM_ANON d
  | AInstance r => Instance.__pmSendInstance r fd FROM_ANON
  | AText ident text => Text.__pmSendText fd FROM_ANON ident text
  end.

(** The agent's state, and the static variable [profile]: the profile that is kept, to be
    freed when the next one is taken. *)
Record state (S : Type) := mkState { kept : option __pmProfile; ext : S }.
Arguments mkState {_}. Arguments kept {_}. Arguments ext {_}.

(** The place for a result is read: it must have been set. *)
Definition given {X} (o : option X) : res X := match o with Some x => Ok x | None => Fault end.
(** The first [n] of a list of names. *)
Definition names_given (n : Z) (o : option (list buf)) : res (list buf) :=
  let l := default [] o in if zlen l <? n then Fault else Ok (take (Z.to_nat n) l).

Section agent.
Context {S : Type} (dispatch : pmdaInterface S).
Abbreviation st := (state S).
Definition have_four : bool := HAVE_V_FOUR (pmda_interface dispatch).
Definition have_five : bool := HAVE_V_FIVE (pmda_interface dispatch).
Definition with_ext (s : S) (x : st) : st := mkState (kept x) s.

(** ** Requests

    Each takes what the decoder of its PDU has returned. *)

Definition on_error (d : res (Z * Z)) (from : Z) (x : st) : res (option answer * st) :=
  '(sts, endsts) ← d;
  if 0 <=? sts then
    if (endsts =? PM_ERR_NOTCONN) && have_five then
      Ok (None, match e_endCallBack dispatch with Some f => with_ext (f from (ext x)) x | None => x end)
    else Ok (None, x)
  else Ok (None, x).
Definition on_profile (d : res (Z * __pmProfile)) (x : st) : res (option answer * st) :=
  match d with
  | Fault => Fault
  | Err _ => Ok (None, x)
  | Ok (_, new_profile) =>
      '(sts, s) ← do_profile dispatch new_profile (ext x);
      Ok (None, if sts <? 0 then with_ext s x else mkState (Some new_profile) s)
  end.
Definition on_fetch (d : res (Z * timeval32 * list Z)) (x : st) : res (option answer * st) :=
  match d with
  | Fault => Fault
  | Err e => Ok (Some (AError e), x)
  | Ok (_, _, pmidlist) =>
      '(sts, result, s) ← do_fetch dispatch pmidlist (ext x);
      if sts <? 0 then Ok (Some (AError sts), with_ext s x)
      else r ← given result;
        let r := mkResult 0 0 (vset r) in Ok (Some (AResult r), with_ext (e_resultCallBack dispatch r s) x)
  end.
Definition on_names (d : res (list buf * option (list Z))) (x : st) : res (option answer * st) :=
  match d with
  | Fault => Fault
  | Err e => Ok (Some (AError e), x)
  | Ok (namelist, _) =>
      if have_four then
        match namelist with
        | [name] =>
            '(sts, pmid, s) ← do_pmid dispatch name (ext x);
            if sts <? 0 then Ok (Some (AError sts), with_ext s x)
            else id ← given pmid; Ok (Some (AIds [id] sts), with_ext s x)
        | _ => Ok (Some (AError PM_ERR_IPC), x)
        end
      else Ok (Some (AError PM_ERR_NAME), x)
  end.
(** [traverse]: a request for all names below, otherwise for the children. *)
Definition on_children (traverse : bool) (d : res (buf * Z)) (x : st) : res (option answer * st) :=
  match d with
  | Fault => Fault
  | Err e => Ok (Some (AError e), x)
  | Ok (name, subtype) =>
      if have_four then
        '(sts, offspring, statuslist, s) ← do_children dispatch name (Z.b2z traverse) (ext x);
        if sts <? 0 then Ok (Some (AError sts), with_ext s x)
        else
          let statuslist := if traverse || (subtype =? 0) then None else statuslist in
          l ← names_given sts offspring; Ok (Some (ANames l statuslist), with_ext s x)
      else Ok (Some (AError PM_ERR_NAME), x)
  end.
Definition on_ids (d : res (Z * list Z)) (x : st) : res (option answer * st) :=
  match d with
  | Fault => Fault
  | Err e => Ok (Some (AError e), x)
  | Ok (op_sts, ids) =>
      if op_sts <? 0 then Ok (Some (AError op_sts), x)
      else if have_four then
        pmid ← given (head ids);
        '(sts, namelist, s) ← do_name dispatch pmid (ext x);
        if sts <? 0 then Ok (Some (AError sts), with_ext s x)
        else l ← names_given sts namelist; Ok (Some (ANames l None), with_ext s x)
      else Ok (Some (AError PM_ERR_PMID), x)
  end.
Definition on_desc (d : res Z) (x : st) : res (option answer * st) :=
  match d with
  | Fault => Fault
  | Err e => Ok (Some (AError e), x)
  | Ok pmid =>
      '(sts, desc, s) ← do_desc dispatch pmid (ext x);
      if sts <? 0 then Ok (Some (AError sts), with_ext s x)
      else desc ← given desc; Ok (Some (ADesc desc), with_ext s x)
  end.
(** [iname] is freed on every path, and no request that cannot be decoded sets it. *)
Definition on_instance (d : res (timeval32 * Z * Z * option buf)) (x : st) : res (option answer * st) :=
  match d with
  | Fault => Fault
  | Err e => Fault
  | Ok (_, indom, inst, iname) =>
      '(sts, inres, s) ← do_instance dispatch indom inst iname (ext x);
      if sts <? 0 then Ok (Some (AError sts), with_ext s x)
      else r ← given inres; Ok (Some (AInstance r), with_ext s x)
  end.
Definition on_text (d : res (Z * Z)) (x : st) : res (option answer * st) :=
  match d with
  | Fault => Fault
  | Err e => Ok (Some (AError e), x)
  | Ok (ident, type) =>
      '(sts, buffer, s) ← do_text dispatch ident type (ext x);
      if sts <? 0 then Ok (Some (AError sts), with_ext s x)
      else text ← given buffer; Ok (Some (AText ident text), with_ext s x)
  end.
(** [result] is freed on every path, and a result that cannot be decoded does not set it. *)
Definition on_store (d : res pmResult) (x : st) : res (option answer * st) :=
  match d with
  | Fault => Fault
  | Err _ => Fault
  | Ok result => '(sts, s) ← do_store dispatch result (ext x); Ok (Some (AError sts), with_ext s x)
  end.

(** The switch over the type of the PDU in [pb]. *)
Definition serve `{PduAlloc} (ty : Z) (pb : buf) (from : Z) (x : st) : res (option answer * st) :=
  if ty =? PDU_ERROR then on_error (fst <$> Error.__pmDecodeError pb) from x
  else if ty =? PDU_PROFILE then on_profile (fst <$> Prof.__pmDecodeProfile pb) x
  else if ty =? PDU_FETCH then on_fetch (fst <$> Fetch.__pmDecodeFetch pb) x
  else if ty =? PDU_PMNS_NAMES then on_names (fst <$> NameList.__pmDecodeNameList false pb) x
  else if ty =? PDU_PMNS_CHILD then on_children false (fst <$> NameReq.__pmDecodeChildReq pb) x
  else if ty =? PDU_PMNS_TRAVERSE then on_children true ((λ r, (r.1, 0)) <$> NameReq.__pmDecodeTraversePMNSReq pb) x
  else if ty =? PDU_PMNS_IDS then on_ids (fst <$> IDList.__pmDecodeIDList 1 pb) x
  else if ty =? PDU_DESC_REQ then on_desc (fst <$> Desc.__pmDecodeDescReq pb) x
  else if ty =? PDU_INSTANCE_REQ then on_instance (fst <$> Instance.__pmDecodeInstanceReq pb) x
  else if ty =? PDU_TEXT_REQ then on_text (fst <$> Text.__pmDecodeTextReq pb) x
  else if ty =? PDU_RESULT then on_store ((λ r, Result.view r.1) <$> Result.__pmDecodeResult pb) x
  else Ok (None, x).

(** What is done around the switch. *)
Definition enter_pdu (from : Z) (x : st) : st := if have_five then with_ext (set_context dispatch from (ext x)) x else x.
Definition leave_pdu (x : st) : st := match e_doneCallBack dispatch with Some f => with_ext (f (ext x)) x | None => x end.
Definition around (ty from : Z) (body : st → res (option answer * st)) (x : st) : res (option answer * st) :=
  let x := enter_pdu from x in
  let run := λ x, '(a, x) ← body x; Ok (a, leave_pdu x) in
  match e_checkCallBack dispatch with
  | None => run x
  | Some check =>
      let '(i, s) := check (ext x) in
      let x := with_ext s x in
      if i <? 0 then Ok (if negb (ty =? PDU_PROFILE) then Some (AError i) else None, x) else run x
  end.

(** The calls with which an agent sets its callbacks; an interface that is not supported is
    noted in the status. *)
Definition with_callbacks (sts : Z) (check : option (S → Z * S)) (done : option (S → S)) (end_ : option (Z → S → S)) (result : pmResult → S → S)
    : pmdaInterface S :=
  mkInterface _ (pmda_interface dispatch) sts (do_profile dispatch) (do_fetch dispatch) (do_desc dispatch) (do_instance dispatch) (do_text dispatch)
    (do_store dispatch) (do_pmid dispatch) (do_name dispatch) (do_children dispatch) (set_context dispatch) check done end_ result.
Definition supported : bool := HAVE_V_FOUR (pmda_interface dispatch) || HAVE_V_TWO (pmda_interface dispatch).
Definition not_set : pmdaInterface S :=
  with_callbacks PM_ERR_GENERIC (e_checkCallBack dispatch) (e_doneCallBack dispatch) (e_endCallBack dispatch) (e_resultCallBack dispatch).
Definition pmdaSetResultCallBack (callback : pmResult → S → S) : pmdaInterface S :=
  if supported then with_callbacks (status dispatch) (e_checkCallBack dispatch) (e_doneCallBack dispatch) (e_endCallBack dispatch) callback
  else not_set.
Definition pmdaSetEndContextCallBack (callback : option (Z → S → S)) : pmdaInterface S :=
  if have_five || (match callback with None => true | Some _ => false end) then
    with_callbacks (status dispatch) (e_checkCallBack dispatch) (e_doneCallBack dispatch) callback (e_resultCallBack dispatch)
  else not_set.
Definition pmdaSetCheckCallBack (callback : option (S → Z * S)) : pmdaInterface S :=
  if supported then with_callbacks (status dispatch) callback (e_doneCallBack dispatch) (e_endCallBack dispatch) (e_resultCallBack dispatch)
  else not_set.
Definition pmdaSetDoneCallBack (callback : option (S → S)) : pmdaInterface S :=
  if supported then with_callbacks (status dispatch) (e_checkCallBack dispatch) callback (e_endCallBack dispatch) (e_resultCallBack dispatch)
  else not_set.

(** ** The connection *)

Section connection.
Context `{PduAlloc} (ceiling : Z).

(** What the reads of the connection will see, the static variables of [__pmGetPDU] and of
    the main loop, and the agent. *)
Record conn := mkConn { events : list Recv.revent; maxsize : Z; first_time : bool; agent : st }.
(** The status of sending is not looked at; of a PDU that does not go out nothing is kept. *)
Definition put_answer (fd : Xmit.wfd) (a : option answer) : res buf :=
  match a with
  | None => Ok []
  | Some a => match send_answer fd a with Ok (_, bytes) => Ok bytes | Err _ => Ok [] | Fault => Fault end
  end.
(** The status, what is written, and the connection. [fd]: the descriptor for the answer. *)
Definition __pmdaMainPDU (fd : Xmit.wfd) (c : conn) : res (Z * buf * conn) :=
  if first_time c && (negb (status dispatch =? 0) || negb supported) then Ok (-1, [], c)
  else
    match Recv.__pmGetPDU ceiling (events c) ANY_SIZE Recv.TIMEOUT_NEVER (maxsize c) with
    | (Fault, _, _) => Fault
    | (Err e, evs, m) => Ok (e, [], mkConn evs m false (agent c))
    | (Ok Recv.GotEOF, evs, m) => Ok (PM_ERR_EOF, [], mkConn evs m false (agent c))
    | (Ok (Recv.GotPDU ty pb), evs, m) =>
        '(from, _) ← hdr_from pb;
        '(a, x) ← around ty from (serve ty pb from) (agent c);
        bytes ← put_answer fd a;
        Ok (0, bytes, mkConn evs m false x)
    end.
(** The loop until there is an error, with everything that is written.  [fds]: what the
    writes of the answers return, one descriptor for each PDU; the loop is followed for as
    many PDUs as there are, and [None] says that it goes on. *)
Fixpoint pmdaMain (fds : list Xmit.wfd) (c : conn) : option (res (buf * conn)) :=
  match fds with
  | [] => None
  | fd :: fds =>
      match __pmdaMainPDU fd c with
      | Fault => Some Fault
      | Err e => Some (Err e)
      | Ok (sts, bytes, c) =>
          if sts <? 0 then Some (Ok (bytes, c))
          else match pmdaMain fds c with
               | Some (Ok (more, c)) => Some (Ok (bytes ++ more, c))
               | r => r
               end
      end
  end.
End connection.
End agent.

(** ** The agent of the library *)

Section standard.
Context (w : world) {A : Type} (fetchCallBack : Z → pmdaMetric → Z → A → Z * DeriveEval.DeriveEval.atom * A)
  (help : option ((Z → Z → option buf) * (Z → Z → option buf))).
(** A status and a result as C returns them. *)
Definition returned {X} (r : Z + X) : Z * option X := match r with inl sts => (sts, None) | inr x => (0, Some x) end.
Definition standard (interface sts : Z) : pmdaInterface (pmdaExt * A) :=
  mkInterface _ interface sts
    (λ prof s, let '(sts, p) := pmdaProfile (Some prof) s.1 in Ok (sts, (p, s.2)))
    (λ ids s, '(r, p, a) ← pmdaFetch w fetchCallBack ids s.1 s.2; Ok (0, Some r, (p, a)))
    (λ id s, let '(r, p) := pmdaDesc id s.1 in Ok (returned r, (p, s.2)))
    (λ dom inst name s, '(r, p) ← pmdaInstance w dom inst name s.1; Ok (returned r, (p, s.2)))
    (λ ident type s, let '(r, p) := pmdaText help ident type s.1 in Ok (returned r, (p, s.2)))
    (λ r s, Ok (pmdaStore r s.1, s)) (λ name s, Ok (returned (pmdaPMID name s.1), s)) (λ id s, Ok (returned (pmdaName id s.1), s))
    (λ name traverse s, let '(sts, l) := returned (pmdaChildren name traverse s.1) in Ok (sts, fst <$> l, snd <$> l, s)) (λ ctx s, (set_e_context ctx s.1, s.2)) None None None (λ _ s, s).
End standard.

(** ** What the collector sends *)

Inductive request :=
  | QError (code : Z) | QProfile (ctxnum : Z) (prof : __pmProfile) | QFetch (ctxnum : Z) (when : option timeval32) (ids : list Z)
  | QNames (names : list buf) | QChildren (name : buf) (subtype : Z) | QTraverse (name : buf) | QId (id sts : Z) | QDesc (id : Z)
  | QInstance (when : timeval32) (indom inst : Z) (name : option buf) | QText (ident type : Z) | QStore (r : pmResult).
Definition request_type (q : request) : Z :=
  match q with
  | QError _ => PDU_ERROR | QProfile _ _ => PDU_PROFILE | QFetch _ _ _ => PDU_FETCH | QNames _ => PDU_PMNS_NAMES
  | QChildren _ _ => PDU_PMNS_CHILD | QTraverse _ => PDU_PMNS_TRAVERSE | QId _ _ => PDU_PMNS_IDS | QDesc _ => PDU_DESC_REQ
  | QInstance _ _ _ _ => PDU_INSTANCE_REQ | QText _ _ => PDU_TEXT_REQ | QStore _ => PDU_RESULT
  end.
Definition send_request `{PduAlloc} (fd : Xmit.wfd) (from : Z) (q : request) : res (Z * buf) :=
  match q with
  | QError code => Error.__pmSendError fd from code
  | QProfile ctxnum prof => Prof.__pmSendProfile fd from ctxnum prof
  | QFetch ctxnum when ids => Fetch.__pmSendFetch fd from ctxnum when ids
  | QNames names => NameList.__pmSendNameList names None fd from
  | QChildren name subtype => NameReq.__pmSendChildReq fd from name subtype
  | QTraverse name => NameReq.__pmSendTraversePMNSReq fd from name
  | QId id sts => IDList.__pmSendIDList fd from [id] sts
  | QDesc id => Desc.__pmSendDescReq fd from id
  | QInstance when indom inst name => Instance.__pmSendInstanceReq fd from when indom inst name
  | QText ident type => Text.__pmSendTextReq fd from ident type
  | QStore r => Result.__pmSendResult fd from r
  end.
(** What the agent has to do about a request: its function is asked, and what it says is
    answered, an error if the status is one. *)
Section meaning.
Context {S : Type} (dispatch : pmdaInterface S).
Definition reply {X} (op : res (Z * option X * S)) (f : Z → X → res answer) (x : state S) : res (option answer * state S) :=
  '(sts, r, s) ← op;
  a ← (if sts <? 0 then Ok (AError sts) else r ← given r; f sts r);
  Ok (Some a, with_ext s x).
Definition refuse (sts : Z) (x : state S) : res (option answer * state S) := Ok (Some (AError sts), x).
(** Names are for agents with a name space. *)
Definition if_four (sts : Z) (f : state S → res (option answer * state S)) : state S → res (option answer * state S) :=
  if have_four dispatch then f else refuse sts.
(** A result is sent without a time, and then released by the callback. *)
Definition untimed (r : pmResult) : pmResult := mkResult 0 0 (vset r).
Definition fetched (ids : list Z) (x : state S) : res (Z * option pmResult * S) :=
  '(sts, r, s) ← do_fetch dispatch ids (ext x);
  Ok (sts, r, if sts <? 0 then s else from_option (λ r, e_resultCallBack dispatch (untimed r) s) s r).
Definition children_of (name : buf) (traverse : Z) (want : bool) (x : state S) : res (option answer * state S) :=
  reply ('(sts, l, st, s) ← do_children dispatch name traverse (ext x); Ok (sts, Some (l, st), s))
    (λ n r, l ← names_given n r.1; Ok (ANames l (if want then r.2 else None))) x.
Definition handle (from : Z) (q : request) (x : state S) : res (option answer * state S) :=
  match q with
  | QError code =>
      Ok (None, if (code =? PM_ERR_NOTCONN) && have_five dispatch then with_ext (from_option (λ f, f from (ext x)) (ext x) (e_endCallBack dispatch)) x else x)
  | QProfile _ prof =>
      '(sts, s) ← do_profile dispatch prof (ext x);
      Ok (None, mkState (if sts <? 0 then kept x else Some prof) s)
  | QFetch _ _ ids => reply (fetched ids x) (λ _ r, Ok (AResult (untimed r))) x
  | QNames [name] => if_four PM_ERR_NAME (λ x, reply (do_pmid dispatch name (ext x)) (λ sts id, Ok (AIds [id] sts)) x) x
  | QNames _ => if_four PM_ERR_NAME (refuse PM_ERR_IPC) x
  | QChildren name subtype => if_four PM_ERR_NAME (children_of name 0 (negb (subtype =? 0))) x
  | QTraverse name => if_four PM_ERR_NAME (children_of name 1 false) x
  | QId id sts =>
      if sts <? 0 then refuse sts x
      else if_four PM_ERR_PMID (λ x, reply ('(sts, l, s) ← do_name dispatch id (ext x); Ok (sts, Some l, s)) (λ n l, l ← names_given n l; Ok (ANames l None)) x) x
  | QDesc id => reply (do_desc dispatch id (ext x)) (λ _ d, Ok (ADesc d)) x
  | QInstance _ indom inst name => reply (do_instance dispatch indom inst name (ext x)) (λ _ r, Ok (AInstance r)) x
  | QText ident type => reply (do_text dispatch ident type (ext x)) (λ _ text, Ok (AText ident text)) x
  | QStore r => '(sts, s) ← do_store dispatch r (ext x); Ok (Some (AError sts), with_ext s x)
  end.
End meaning.
Definition respond {S} (dispatch : pmdaInterface S) (from : Z) (q : request) : state S → res (option answer * state S) :=
  around dispatch (request_type q) from (handle dispatch from q).

(** A request that fits its PDU, over a descriptor that takes it. *)
Definition request_ok (fd : Xmit.wfd) (q : request) : Prop :=
  match q with
  | QError code => delivers fd 16 ∧ is_s32 code
  | QProfile ctxnum prof =>
      let need := 28 + 16 * zlen (profile prof) + 4 * zlen (all_instances (profile prof)) in
      delivers fd need ∧ need < 2^31 ∧ zlen (profile prof) < INT_MAX / 24 ∧ 0 <= ctxnum <= 2048 ∧ is_s32 (g_state prof)
      ∧ Forall indomprof_wf (profile prof)
  | QFetch ctxnum when ids => delivers fd (28 + 4 * zlen ids) ∧ fetch_wf (ctxnum, when, ids)
  | QNames names => delivers fd (24 + zlen (names_bytes false (with_status names None))) ∧ names_wf (names, None)
  | QChildren name subtype => delivers fd (20 + PM_PDU_SIZE_BYTES (zlen name)) ∧ is_s32 subtype ∧ zlen name < 2^31 - 24
  | QTraverse name => delivers fd (20 + PM_PDU_SIZE_BYTES (zlen name)) ∧ zlen name < 2^31 - 24
  | QId id sts => delivers fd 24 ∧ is_u32 id ∧ is_s32 sts
  | QDesc id => delivers fd 16 ∧ is_u32 id
  | QInstance when indom inst name =>
      delivers fd (32 + PM_PDU_SIZE_BYTES (zlen (default [] name))) ∧ ireq_wf (when, indom, inst, name)
  | QText ident type =>
      delivers fd 20 ∧ is_s32 ident ∧ is_s32 type ∧ Text.flag type Text.PM_TEXT_PMID || Text.flag type Text.PM_TEXT_INDOM = true
  | QStore r => delivers fd (result_size r) ∧ result_wf r ∧ result_size r mod PDU_CHUNK ≠ 0
  end.
(** The same for an answer, and what a client makes of it. *)
Definition answer_ok (fd : Xmit.wfd) (a : answer) : Prop :=
  match a with
  | AError code => delivers fd 16 ∧ is_s32 code
  | AResult r => delivers fd (result_size r) ∧ result_wf r ∧ result_size r mod PDU_CHUNK ≠ 0
  | AIds ids sts => delivers fd (20 + 4 * zlen ids) ∧ is_s32 sts ∧ Forall is_u32 ids ∧ ids ≠ [] ∧ 28 + 4 * zlen ids <= INT_MAX
  | ANames names sts => delivers fd (24 + zlen (names_bytes (has_status sts) (with_status names sts))) ∧ names_wf (names, sts)
  | ADesc d => delivers fd 32 ∧ desc_wf d
  | AInstance r => delivers fd (20 + zlen (insts_bytes (as_entries r))) ∧ inresult_wf r
  | AText ident text =>
      delivers fd (20 + PM_PDU_SIZE_BYTES (zlen text)) ∧ is_s32 ident ∧ Forall (λ c, c ≠ Byte.x00) text ∧ zlen text < 2^31 - 24
  end.
Definition answer_type (a : answer) : Z :=
  match a with
  | AError _ => PDU_ERROR | AResult _ => PDU_RESULT | AIds _ _ => PDU_PMNS_IDS | ANames _ _ => PDU_PMNS_NAMES | ADesc _ => PDU_DESC
  | AInstance _ => PDU_INSTANCE | AText _ _ => PDU_TEXT
  end.
Definition understood `{PduAlloc} (a : answer) (b : buf) : Prop :=
  match a with
  | AError code => fst <$> Error.__pmDecodeError b = Ok (0, code)
  | AResult r => (λ x, Result.view x.1) <$> Result.__pmDecodeResult b = Ok r
  | AIds ids sts => fst <$> IDList.__pmDecodeIDList (zlen ids) b = Ok (sts, ids)
  | ANames names sts => fst <$> NameList.__pmDecodeNameList true b = Ok (names, sts)
  | ADesc d => fst <$> Desc.__pmDecodeDesc b = Ok d
  | AInstance r => fst <$> Instance.__pmDecodeInstance b = Ok (as_received r)
  | AText ident text => fst <$> Text.__pmDecodeText b = Ok (ident, text)
  end.

(** ** Over the wire *)

Section wire.
Context `{PduAlloc} (ceiling : Z).
Hypothesis alloc_ok : ∀ n, is_Some (find_pdubuf n).

(** A PDU that does not fill its chunks leaves a word to spare in the buffer it is read
    into. *)
Definition spare (len : Z) (b : buf) : Prop := len mod PDU_CHUNK ≠ 0 → len mod 4 = 0 → len + 4 <= zlen b.
(** What is sent is a PDU of less than two gigabytes, and whoever receives it has [P]. *)
Definition carried (send : res (Z * buf)) (ty from : Z) (P : buf → Prop) : Prop :=
  ∃ body, send = Ok (sizeof_hdr + zlen body, wire ty from body)
    ∧ ((∀ n bytes, send = Ok (n, bytes) → n < 2^31 - PDU_CHUNK) → RecvFacts.pdu_fits body)
    ∧ ∀ b, is_pdu b ty from body → spare (sizeof_hdr + zlen body) b → P b.
Lemma roundtrips_carried {A} send ty from (dec : M A) x (P : buf → Prop) :
  roundtrips send ty from dec x → (∀ b, fst <$> dec b = Ok x → P b) → carried send ty from P.
Proof.
  intros (body & E & Hb) HP. exists body. split_and!; [done | |].
  - intros Hs. by apply (Hs _ _ E).
  - intros b Hp _. destruct (Hb b Hp) as [b' E']. apply HP. by rewrite E'.
Qed.
Lemma result_carried fd from r : delivers fd (result_size r) → result_wf r → result_size r mod PDU_CHUNK ≠ 0 →
  carried (Result.__pmSendResult fd from r) PDU_RESULT from (λ b, (λ x, Result.view x.1) <$> Result.__pmDecodeResult b = Ok r).
Proof.
  intros Hd Hwf Hm. destruct (nets_exist (all_blocks (vset r)) (blocks_wf _ (rw_sets _ Hwf))) as [ns Hns].
  destruct (result_size_eq r ns Hwf Hns) as [Hsz Hlt]. exists (result_body r ns). rewrite <- Hsz.
  assert (Result.__pmSendResult fd from r = Ok (result_size r, wire PDU_RESULT from (result_body r ns))) as E by by apply result_send.
  split_and!; [done | |].
  - intros Hs. unfold RecvFacts.pdu_fits. rewrite <- Hsz. by apply (Hs _ _ E).
  - intros b Hp Hsp. assert (result_size r + 4 <= zlen b) as Hslack; [| by destruct (wp_noerr_run _ _ _ (result_decode alloc_ok from r ns b Hwf Hns Hp Hslack)) as (? & ? & -> & <-)].
    apply Hsp; [done |]. pose proof (vsets_size_mod (vset r)) as M1. pose proof (hosts_mod (all_blocks (vset r))) as M2.
    unfold result_size. clear -M1 M2. Z.to_euclidean_division_equations. lia.
Qed.
(** The function for a kind of PDU, with the message that was decoded, does what the request
    means. *)
Definition on_request {S} (dispatch : pmdaInterface S) (from : Z) (q : request) : state S → res (option answer * state S) :=
  match q with
  | QError code => on_error dispatch (Ok (0, code)) from
  | QProfile ctxnum prof => on_profile dispatch (Ok (ctxnum, prof))
  | QFetch ctxnum when ids => on_fetch dispatch (Ok (ctxnum, default (mkTv32 0 0) when, ids))
  | QNames names => on_names dispatch (Ok (names, None))
  | QChildren name subtype => on_children dispatch false (Ok (name, subtype))
  | QTraverse name => on_children dispatch true (Ok (name, 0))
  | QId id sts => on_ids dispatch (Ok (sts, [id]))
  | QDesc id => on_desc dispatch (Ok id)
  | QInstance when indom inst name => on_instance dispatch (Ok (when, indom, inst, name))
  | QText ident type => on_text dispatch (Ok (ident, type))
  | QStore r => on_store dispatch (Ok r)
  end.
Ltac run_op := match goal with
  | |- context [do_profile ?d ?a ?b] => destruct (do_profile d a b) as [[? ?]| |]
  | |- context [do_store ?d ?a ?b] => destruct (do_store d a b) as [[? ?]| |]
  | |- context [do_fetch ?d ?a ?b] => destruct (do_fetch d a b) as [[[? []] ?]| |]
  | |- context [do_desc ?d ?a ?b] => destruct (do_desc d a b) as [[[? []] ?]| |]
  | |- context [do_instance ?d ?a ?b ?c ?e] => destruct (do_instance d a b c e) as [[[? []] ?]| |]
  | |- context [do_text ?d ?a ?b ?c] => destruct (do_text d a b c) as [[[? []] ?]| |]
  | |- context [do_pmid ?d ?a ?b] => destruct (do_pmid d a b) as [[[? []] ?]| |]
  | |- context [do_name ?d ?a ?b] => destruct (do_name d a b) as [[[? ?] ?]| |]
  | |- context [do_children ?d ?a ?b ?c] => destruct (do_children d a b c) as [[[[? ?] ?] ?]| |]
  | |- context [names_given ?a ?b] => destruct (names_given a b)
  end; cbn [mbind res_bind given from_option fst snd].
Lemma on_request_handle {S} (dispatch : pmdaInterface S) from q x : on_request dispatch from q x = handle dispatch from q x.
Proof.
  destruct x as [k s]. destruct q; cbn [on_request handle]; unfold on_error, on_profile, on_fetch, on_names, on_children, on_ids, on_desc, on_instance, on_text, on_store,
    if_four, children_of, fetched, refuse, reply, with_ext, untimed; destruct (have_four dispatch);
    cbn [mbind res_bind given head orb Z.b2z kept ext fst snd from_option];
    repeat first [ done | run_op | case_match; simplify_eq; cbn [mbind res_bind given head orb Z.b2z kept ext negb fst snd from_option] in * ].
Qed.
(** Every request reaches the function for it, with the message that was sent. *)
Lemma request_carried fd from q : request_ok fd q →
  carried (send_request fd from q) (request_type q) from
    (λ b, ∀ S (dispatch : pmdaInterface S) x, serve dispatch (request_type q) b from x = on_request dispatch from q x).
Proof.
  destruct q; cbn [request_ok send_request request_type on_request]; intros Hq.
  - destruct Hq. eapply roundtrips_carried; [by apply error_roundtrip |]. intros b E S dispatch x. unfold serve. cbn [Z.eqb Pos.eqb PDU_ERROR]. by rewrite E.
  - destruct Hq as (? & ? & ? & ? & ? & ?). eapply roundtrips_carried; [by apply profile_roundtrip |]. intros b E S dispatch x. unfold serve. cbn. by rewrite E.
  - destruct Hq as (? & ? & ? & ? & ? & ?). eapply roundtrips_carried; [by apply fetch_roundtrip |]. intros b E S dispatch x. unfold serve. cbn. by rewrite E.
  - destruct Hq as (? & ? & ? & ? & ? & ?). eapply roundtrips_carried; [by apply name_list_roundtrip_want |]. intros b E S dispatch x. unfold serve. cbn. by rewrite E.
  - destruct Hq as (? & ? & ?). eapply roundtrips_carried; [by apply name_req_roundtrip |]. intros b E S dispatch x. unfold serve. cbn.
    unfold NameReq.__pmDecodeChildReq. by rewrite E.
  - destruct Hq as (? & ?). eapply roundtrips_carried; [by apply name_req_roundtrip |]. intros b E S dispatch x. unfold serve. cbn.
    unfold NameReq.__pmDecodeTraversePMNSReq, mbind, M_bind. destruct (NameReq.DecodeNameReq b) as [[? ?]| |]; [| done | done]. by injection E as ->.
  - destruct Hq as (? & ? & ?). eapply roundtrips_carried; [apply idlist_roundtrip; [done | done | done | by constructor | done | by vm_compute] |].
    intros b E S dispatch x. change (zlen [id]) with 1 in E. unfold serve. cbn. by rewrite E.
  - destruct Hq as (? & ?). eapply roundtrips_carried; [by apply desc_req_roundtrip |]. intros b E S dispatch x. unfold serve. cbn. by rewrite E.
  - destruct Hq as (? & ? & ? & ? & ? & ? & ?). eapply roundtrips_carried; [by apply instance_req_roundtrip |]. intros b E S dispatch x. unfold serve. cbn. by rewrite E.
  - destruct Hq as (? & ? & ? & ?). eapply roundtrips_carried; [by apply text_req_roundtrip |]. intros b E S dispatch x. unfold serve. cbn. by rewrite E.
  - destruct Hq as (? & ? & ?). destruct (result_carried fd from r) as (body & E & Hs & Hb); [done .. |]. exists body. split_and!; [done | done |].
    intros b Hp Hsp S dispatch x. unfold serve. cbn. by rewrite Hb.
Qed.
Lemma answer_carried fd a : answer_ok fd a → carried (send_answer fd a) (answer_type a) FROM_ANON (understood a).
Proof.
  destruct a; cbn [answer_ok send_answer answer_type]; intros Ha.
  - destruct Ha. eapply roundtrips_carried; [by apply error_roundtrip | done].
  - destruct Ha as (? & ? & ?). by apply result_carried.
  - destruct Ha as (? & ? & ? & ? & ?). eapply roundtrips_carried; [by apply idlist_roundtrip | done].
  - destruct Ha as (? & ? & ? & ? & ? & ?). eapply roundtrips_carried; [by apply name_list_roundtrip | done].
  - destruct Ha. eapply roundtrips_carried; [by apply desc_roundtrip | done].
  - destruct Ha. eapply roundtrips_carried; [by apply instance_roundtrip | done].
  - destruct Ha as (? & ? & ? & ?). eapply roundtrips_carried; [by apply text_roundtrip | done].
Qed.
(** Taking a PDU off the stream. *)
Definition buffers (m : Z) : Prop := PDU_CHUNK <= m < 2^31 ∧ m mod PDU_CHUNK = 0.
Lemma grown_buffers m plen m' : buffers m → RecvFacts.grown m plen m' → buffers m'.
Proof.
  unfold buffers, RecvFacts.grown, PDU_CHUNK. intros [? ?] [? ->]. split; [lia |]. destruct (_ <? _); [| done].
  Z.to_euclidean_division_equations. lia.
Qed.
Lemma take_pdu ty from body more chunks m : RecvFacts.pdu_fits body → 0 <= ty < 2^31 → buffers m →
  Forall RecvFacts.nonempty chunks → concat chunks = wire ty from body ++ more →
  ∃ b rest m', Recv.__pmGetPDU ceiling (Recv.RData <$> chunks) ANY_SIZE Recv.TIMEOUT_NEVER m = (Ok (Recv.GotPDU ty b), Recv.RData <$> rest, m')
    ∧ is_pdu b ty from body ∧ spare (sizeof_hdr + zlen body) b ∧ Forall RecvFacts.nonempty rest ∧ concat rest = more ∧ buffers m'.
Proof.
  intros Hf Ht Hm Hne Hc. destruct (RecvFacts.getpdu_chunks ceiling alloc_ok chunks ANY_SIZE Recv.TIMEOUT_NEVER m ty from body more)
    as (b & rest & m' & E & Hp & Hr & Hcr & Hg & Hl); try done.
  { destruct Hm. unfold PDU_CHUNK, sizeof_hdr in *. lia. }
  exists b, rest, m'. split_and!; try done; [| by eapply grown_buffers].
  intros H1 H2. enough (sizeof_hdr + zlen body + 4 <= m') by lia. eapply grown_slack; [done | done | apply Hm | | unfold sizeof_hdr; lia].
  intros E'. rewrite E' in H1. by destruct Hm.
Qed.
Lemma hdr_from_pdu b ty from body : is_pdu b ty from body → is_s32 from → ∃ b', hdr_from b = Ok (from, b').
Proof.
  intros [Hh _] Hs. has_split. apply dec_run. unfold hdr_from. repeat wp1. by rewrite s32_u32_id.
Qed.

(** A request with its sender, over a descriptor; and what the agent does about all of
    them, in their order. *)
Record message := mkMessage { m_fd : Xmit.wfd; m_from : Z; m_request : request }.
Definition m_send (m : message) : res (Z * buf) := send_request (m_fd m) (m_from m) (m_request m).
Definition below_limit (send : res (Z * buf)) : Prop := ∀ n bytes, send = Ok (n, bytes) → n < 2^31 - PDU_CHUNK.
Definition message_ok (m : message) : Prop := request_ok (m_fd m) (m_request m) ∧ is_s32 (m_from m) ∧ below_limit (m_send m).
Definition reply_ok (fd : Xmit.wfd) (a : option answer) : Prop :=
  match a with Some a => answer_ok fd a ∧ below_limit (send_answer fd a) | None => True end.
Fixpoint responses {S} (dispatch : pmdaInterface S) (l : list message) (x : state S) : res (list (option answer) * state S) :=
  match l with
  | [] => Ok ([], x)
  | m :: l =>
      '(a, x) ← respond dispatch (m_from m) (m_request m) x;
      '(r, x) ← responses dispatch l x; Ok (a :: r, x)
  end.

Lemma request_type_range q : 0 <= request_type q < 2^31.
Proof. by destruct q. Qed.
Lemma answer_type_range a : 0 <= answer_type a < 2^31.
Proof. by destruct a. Qed.
Lemma around_ext {S} (dispatch : pmdaInterface S) ty from f g x : (∀ y, f y = g y) → around dispatch ty from f x = around dispatch ty from g x.
Proof. intros E. unfold around. destruct (e_checkCallBack dispatch) as [check|]; [destruct (check _) |]; by rewrite E. Qed.
Lemma main_pdu_step {S} (dispatch : pmdaInterface S) fd m bytes more chunks size first x :
  message_ok m → m_send m = Ok (zlen bytes, bytes) → buffers size → Forall RecvFacts.nonempty chunks → concat chunks = bytes ++ more →
  status dispatch = 0 → supported dispatch = true →
  ∃ rest size', Forall RecvFacts.nonempty rest ∧ concat rest = more ∧ buffers size' ∧
    __pmdaMainPDU dispatch ceiling fd (mkConn (Recv.RData <$> chunks) size first x)
    = '(a, x) ← respond dispatch (m_from m) (m_request m) x; out ← put_answer fd a; Ok (0, out, mkConn (Recv.RData <$> rest) size' false x).
Proof.
  intros (Hq & Hfrom & Hl) Hs Hb Hne Hc Hst Hv. destruct (request_carried (m_fd m) (m_from m) (m_request m) Hq) as (body & E & Hsmall & Hserve).
  unfold m_send in *. rewrite E in Hs. injection Hs as _ <-.
  destruct (take_pdu (request_type (m_request m)) (m_from m) body more chunks size) as (b & rest & size' & Eg & Hp & Hsp & Hr & Hcr & Hb'); try done.
  { by apply Hsmall. } { apply request_type_range. }
  exists rest, size'. split_and!; [done .. |]. unfold __pmdaMainPDU. cbn [first_time events maxsize agent]. rewrite Hst, Hv. cbn [Z.eqb negb orb].
  rewrite andb_false_r, Eg. destruct (hdr_from_pdu b _ _ _ Hp Hfrom) as [b' ->]. cbn [mbind res_bind].
  unfold respond. rewrite (around_ext dispatch _ _ _ (handle dispatch (m_from m) (m_request m))); [done |]. intros y. rewrite <- on_request_handle. by apply Hserve.
Qed.
(** The loop over a stream of requests writes the answers one after the other. *)
Lemma put_answer_pdu fd a : reply_ok fd a →
  ∃ ps, put_answer fd a = Ok (concat (RecvFacts.wire_pdu <$> ps))
    ∧ Forall2 (λ p a, RecvFacts.pdu_sendable p ∧ ∀ b, RecvFacts.holds_pdu b p → spare (zlen (RecvFacts.wire_pdu p)) b → understood a b) ps (option_list a).
Proof.
  destruct a as [a|]; [| by exists []]. intros [Ha Hl]. destruct (answer_carried fd a Ha) as (body & E & Hs & Hu).
  exists [(answer_type a, FROM_ANON, body)]. cbn [put_answer]. rewrite E. cbn [fmap list_fmap concat]. rewrite app_nil_r. split; [done |].
  constructor; [| constructor]. split; [split; [by apply Hs | apply answer_type_range] |]. intros b Hb Hsp. apply Hu; [done |].
  by rewrite <- (zlen_wire (answer_type a) FROM_ANON).
Qed.
Lemma loop_answers {S} (dispatch : pmdaInterface S) fd0 : ∀ l fds as_ x x' chunks size first wires,
  Forall message_ok l → Forall2 (λ m bytes, m_send m = Ok (zlen bytes, bytes)) l wires → buffers size →
  Forall RecvFacts.nonempty chunks → concat chunks = concat wires → status dispatch = 0 → supported dispatch = true →
  responses dispatch l x = Ok (as_, x') → Forall2 reply_ok fds as_ →
  ∃ ps c', pmdaMain dispatch ceiling (fds ++ [fd0]) (mkConn (Recv.RData <$> chunks) size first x) = Some (Ok (concat (RecvFacts.wire_pdu <$> ps), c'))
    ∧ agent c' = x' ∧ events c' = []
    ∧ Forall2 (λ p a, RecvFacts.pdu_sendable p ∧ ∀ b, RecvFacts.holds_pdu b p → spare (zlen (RecvFacts.wire_pdu p)) b → understood a b) ps (omap id as_).
Proof.
  induction l as [|m l IH]; intros fds as_ x x' chunks size first wires Hl Hw Hb Hne Hc Hst Hv Hr Hf.
  - cbn [responses] in Hr. injection Hr as <- <-. apply Forall2_nil_inv_r in Hf as ->. apply Forall2_nil_inv_l in Hw as ->.
    destruct chunks as [|c chunks]; [| apply Forall_cons in Hne as [Hne _]; cbn [concat] in Hc; by apply app_eq_nil in Hc as [-> _]].
    exists [], (mkConn [] size false x). split_and!; [| done | done | constructor]. cbn [app pmdaMain]. unfold __pmdaMainPDU.
    cbn [first_time events maxsize agent]. rewrite Hst, Hv. cbn [Z.eqb negb orb]. rewrite andb_false_r. unfold Recv.__pmGetPDU.
    destruct (alloc_ok size) as [b ->]. cbn. unfold storen. cbn [length]. by rewrite (proj2 (Z.leb_le (0 + Z.of_nat 0) (zlen b))) by lia.
  - apply Forall_cons in Hl as [Hm Hl]. apply Forall2_cons_inv_l in Hw as (bytes & wires' & Hs & Hw & ->). cbn [responses] in Hr.
    destruct (respond dispatch (m_from m) (m_request m) x) as [[a y]| |] eqn:Ea; cbn [mbind res_bind] in Hr; [| done | done].
    destruct (responses dispatch l y) as [[r z]| |] eqn:Er; cbn [mbind res_bind] in Hr; [| done | done]. injection Hr as <- <-.
    apply Forall2_cons_inv_r in Hf as (fd & fds' & Ha & Hf & ->).
    destruct (main_pdu_step dispatch fd m bytes (concat wires') chunks size first x) as (rest & size' & Hne' & Hc' & Hb' & E); try done.
    destruct (put_answer_pdu fd a Ha) as (p & Ep & Hp). rewrite Ea in E. cbn [mbind res_bind] in E. rewrite Ep in E. cbn [mbind res_bind] in E.
    destruct (IH fds' r y z rest size' false wires') as (ps & c' & E' & ? & ? & Hps); try done.
    exists (p ++ ps), c'. split_and!; [| done | done |].
    + cbn [app pmdaMain]. rewrite E. cbn [Z.ltb Z.compare]. rewrite E'. by rewrite fmap_app, concat_app.
    + destruct a; cbn [omap list_omap option_list] in *; [| apply Forall2_nil_inv_r in Hp as ->; done].
      by apply (Forall2_app (l1' := [a])).
Qed.
(** A client reads them in whatever pieces they come. *)
Lemma client_reads {A} (P : A → buf → Prop) (ps : list RecvFacts.pdu) l : ∀ chunks size,
  Forall2 (λ p a, RecvFacts.pdu_sendable p ∧ ∀ b, RecvFacts.holds_pdu b p → spare (zlen (RecvFacts.wire_pdu p)) b → P a b) ps l →
  buffers size → Forall RecvFacts.nonempty chunks → concat chunks = concat (RecvFacts.wire_pdu <$> ps) →
  ∃ bs, RecvFacts.getpdus ceiling (length l) (Recv.RData <$> chunks) ANY_SIZE Recv.TIMEOUT_NEVER size = Some bs ∧ Forall2 P l bs.
Proof.
  intros chunks size Hf. revert chunks size. induction Hf as [|[[ty from] body] a ps l [[Hfit Hty] Hp] Hf IH]; intros chunks size Hb Hne Hc.
  - exists []. split; [done | constructor].
  - destruct (take_pdu ty from body (concat (RecvFacts.wire_pdu <$> ps)) chunks size) as (b & rest & m' & E & Hpdu & Hsp & Hr & Hc' & Hb'); try done.
    destruct (IH rest m') as (bs & E' & Hbs); try done. exists (b :: bs). cbn [length RecvFacts.getpdus]. rewrite E, E'. split; [done |].
    constructor; [| done]. apply Hp; [done |]. cbn [RecvFacts.wire_pdu]. by rewrite zlen_wire.
Qed.
(** Which requests are answered. *)
Definition matched {S} (dispatch : pmdaInterface S) (q : request) (a : option answer) : Prop :=
  match q with
  | QProfile _ _ => a = None
  | QError _ => e_checkCallBack dispatch = None → a = None
  | _ => is_Some a
  end.
Lemma reply_answers {S X} (op : res (Z * option X * S)) f (x : state S) a x' : reply op f x = Ok (a, x') → is_Some a.
Proof.
  unfold reply. destruct op as [[[sts r] s]| |]; cbn [mbind res_bind]; [| done | done].
  destruct (if sts <? 0 then _ else _) as [b| |]; cbn [mbind res_bind]; [| done | done]. by intros [= <- <-].
Qed.
Lemma handle_matched {S} (dispatch : pmdaInterface S) from q x a x' : handle dispatch from q x = Ok (a, x') →
  match q with QProfile _ _ | QError _ => a = None | _ => is_Some a end.
Proof.
  destruct q; cbn [handle]; unfold if_four, children_of, refuse; intros E;
    repeat first [ done | by apply reply_answers in E | by injection E as <- <-
      | match type of E with context [match ?o with _ => _ end] => destruct o end ].
  - destruct (do_profile dispatch prof (ext x)) as [[sts s]| |]; [| done | done]. by injection E as <- <-.
  - destruct (do_store dispatch r (ext x)) as [[sts s]| |]; [| done | done]. by injection E as <- <-.
Qed.
Lemma respond_matched {S} (dispatch : pmdaInterface S) from q x a x' : respond dispatch from q x = Ok (a, x') → matched dispatch q a.
Proof.
  unfold respond, around. destruct (e_checkCallBack dispatch) as [check|] eqn:Ec; [destruct (check _) as [i s]; destruct (i <? 0) |].
  - intros [= <- <-]. destruct q; first [by eexists | reflexivity | cbn [matched]; by rewrite Ec].
  - destruct (handle _ _ _ _) as [[b y]| |] eqn:E; cbn [mbind res_bind]; [| done | done]. intros [= <- <-].
    apply handle_matched in E. by destruct q; cbn [matched].
  - destruct (handle _ _ _ _) as [[b y]| |] eqn:E; cbn [mbind res_bind]; [| done | done]. intros [= <- <-].
    apply handle_matched in E. by destruct q; cbn [matched].
Qed.
Lemma responses_matched {S} (dispatch : pmdaInterface S) l : ∀ x as_ x', responses dispatch l x = Ok (as_, x') →
  Forall2 (λ m a, matched dispatch (m_request m) a) l as_.
Proof.
  induction l as [|m l IH]; intros x as_ x' E; cbn [responses] in E; [injection E as <- <-; constructor |].
  destruct (respond _ _ _ x) as [[a y]| |] eqn:Ea; cbn [mbind res_bind] in E; [| done | done].
  destruct (responses dispatch l y) as [[r z]| |] eqn:Er; cbn [mbind res_bind] in E; [| done | done]. injection E as <- <-.
  constructor; [by eapply respond_matched | by eapply IH].
Qed.
Lemma wires_exist l : Forall message_ok l → ∃ wires, Forall2 (λ m bytes, m_send m = Ok (zlen bytes, bytes)) l wires.
Proof.
  induction 1 as [|m l (Hq & _) _ [ws IH]]; [exists []; constructor |].
  destruct (request_carried (m_fd m) (m_from m) (m_request m) Hq) as (body & E & _).
  eexists (_ :: ws). constructor; [| done]. unfold m_send. by rewrite E, zlen_wire.
Qed.
End wire.
End MainLoop.
Import MainLoop.
Import MainLoop.

(** C3. An agent answers its requests.  Whatever requests a collector sends, one after the
    other, and in whatever pieces they arrive: the main loop reads all of them and ends with
    the stream; each has been handed, with the message that was sent, to the function of
    the agent that is for it, in order, between the calls that are made for every PDU; each
    gets an answer if it is of a kind that is answered; and a client that reads what the
    loop has written, in whatever pieces that arrives, gets exactly the answers, each once,
    in order and with its content. *)
Theorem agent_serves `{PduAlloc} {S : Type} (dispatch : pmdaInterface S) ceiling l x answers x' fds fd0 :
  (∀ n, is_Some (find_pdubuf n)) → status dispatch = 0 → supported dispatch = true →
  Forall message_ok l → responses dispatch l x = Ok (answers, x') → Forall2 reply_ok fds answers →
  Forall2 (λ m a, matched dispatch (m_request m) a) l answers ∧
  ∃ wires, Forall2 (λ m bytes, m_send m = Ok (zlen bytes, bytes)) l wires ∧ ∀ chunks size first,
    buffers size → Forall RecvFacts.nonempty chunks → concat chunks = concat wires →
    ∃ out c', pmdaMain dispatch ceiling (fds ++ [fd0]) (mkConn (Recv.RData <$> chunks) size first x) = Some (Ok (out, c'))
      ∧ agent c' = x' ∧ events c' = []
      ∧ ∀ pieces size', buffers size' → Forall RecvFacts.nonempty pieces → concat pieces = out →
        ∃ bs, RecvFacts.getpdus ceiling (length (omap id answers)) (Recv.RData <$> pieces) ANY_SIZE Recv.TIMEOUT_NEVER size' = Some bs
          ∧ Forall2 understood (omap id answers) bs.
Proof.
  intros Ha Hst Hv Hl Hr Hf. split; [by eapply responses_matched |]. destruct (wires_exist Ha l Hl) as [wires Hw].
  exists wires. split; [done |]. intros chunks size first Hb Hne Hc.
  destruct (loop_answers ceiling Ha dispatch fd0 l fds answers x x' chunks size first wires) as (ps & c' & E & Hx & He & Hps); try done.
  eexists _, c'. split_and!; [done | done | done |]. intros pieces size' Hb' Hne' Hc'. by eapply client_reads.
Qed.

(** The tables of the agent when a fetch with a profile has reached it. *)
Definition asked (interface from : Z) (prof : __pmProfile) (p : pmdaExt) : pmdaExt :=
  enter_context (pmdaProfile (Some prof) (if HAVE_V_FIVE interface then set_e_context from p else p)).2.
Lemma fetch_responses w {A} (cb : Z → pmdaMetric → Z → A → Z * DeriveEval.DeriveEval.atom * A) help interface sts fd1 fd2 from ctx prof when ids k p a :
  callback_typed cb → caches_ok (caches p) → direct_ok p → ids ≠ [] →
  ∃ x', responses (standard w cb help interface sts) [mkMessage fd1 from (QProfile ctx prof); mkMessage fd2 from (QFetch ctx when ids)] (mkState k (p, a))
      = Ok ([None; Some (AResult (mkResult 0 0 (expected cb ids (asked interface from prof p) a).1))], x') ∧ kept x' = Some prof.
Proof.
  intros Ht Hc Hd Hne. assert (0 < zlen ids) as Hids by (destruct ids; [done | cbn [length]; lia]).
  set (p1 := (pmdaProfile (Some prof) (if HAVE_V_FIVE interface then set_e_context from p else p)).2).
  assert (caches_ok (caches p1) ∧ direct_ok p1) as [Hc1 Hd1] by (unfold p1; by destruct (HAVE_V_FIVE interface)).
  destruct (pmdaFetch_ok w cb ids p1 a Ht Hc1 Hd1 Hids) as (p2 & E & _). fold (asked interface from prof p) in E.
  change (enter_context p1) with (asked interface from prof p) in E. destruct (expected cb ids (asked interface from prof p) a) as [l a'].
  exists (mkState (Some prof) (p2, a')). split; [| done]. cbn [responses m_from m_request].
  assert (∀ ty (f : state (pmdaExt * A) → _) y, around (standard w cb help interface sts) ty from f y
    = '(b, y) ← f (mkState (kept y) (if HAVE_V_FIVE interface then set_e_context from (ext y).1 else (ext y).1, (ext y).2)); Ok (b, y)) as Har.
  { intros ty f [k' [q b]]. unfold around, enter_pdu, leave_pdu, have_five. cbn [standard e_checkCallBack e_doneCallBack pmda_interface set_context].
    by destruct (HAVE_V_FIVE interface). }
  assert (pmdaProfile (Some prof) (if HAVE_V_FIVE interface then set_e_context from p else p) = (0, p1)) as Hp by done.
  assert ((if HAVE_V_FIVE interface then set_e_context from p1 else p1) = p1) as Hp1 by (unfold p1; by destruct (HAVE_V_FIVE interface)).
  clearbody p1. unfold respond. rewrite Har. cbn [kept ext fst snd handle standard do_profile]. rewrite Hp. cbn [mbind res_bind Z.ltb Z.compare].
  rewrite Har. cbn [kept ext fst snd handle]. unfold reply, fetched.
  cbn [kept ext fst snd].
  rewrite Hp1. cbn [standard do_fetch fst snd]. rewrite E. by cbn [mbind res_bind].
Qed.

(** C4. What a client sees of a fetch.  A collector sends an agent that is made from the
    library the profile of a client and a request for metrics; however the two arrive, and
    however the answer is cut up on its way back, what is decoded are exactly the values that
    the agent gives for the instances the profile selects, for each metric in the order in
    which they were asked for. *)
Theorem remote_fetch `{PduAlloc} w {A} (cb : Z → pmdaMetric → Z → A → Z * DeriveEval.DeriveEval.atom * A) help ceiling interface from ctx prof when ids k p a fd1 fd2 fds fd0 :
  let l := [mkMessage fd1 from (QProfile ctx prof); mkMessage fd2 from (QFetch ctx when ids)] in
  let r := mkResult 0 0 (expected cb ids (asked interface from prof p) a).1 in
  (∀ n, is_Some (find_pdubuf n)) → HAVE_V_FOUR interface || HAVE_V_TWO interface = true → callback_typed cb → caches_ok (caches p) → direct_ok p → ids ≠ [] →
  Forall message_ok l → reply_ok fds (Some (AResult r)) →
  ∃ wires, Forall2 (λ m bytes, m_send m = Ok (zlen bytes, bytes)) l wires ∧ ∀ chunks size first,
    buffers size → Forall RecvFacts.nonempty chunks → concat chunks = concat wires →
    ∃ out c', pmdaMain (standard w cb help interface 0) ceiling [fd0; fds; fd0] (mkConn (Recv.RData <$> chunks) size first (mkState k (p, a))) = Some (Ok (out, c'))
      ∧ kept (agent c') = Some prof
      ∧ ∀ pieces size', buffers size' → Forall RecvFacts.nonempty pieces → concat pieces = out →
        ∃ b, RecvFacts.getpdus ceiling 1 (Recv.RData <$> pieces) ANY_SIZE Recv.TIMEOUT_NEVER size' = Some [b]
          ∧ (λ x, Result.view x.1) <$> Result.__pmDecodeResult b = Ok r.
Proof.
  intros l r Ha Hv Ht Hc Hd Hne Hl Hr. destruct (wires_exist Ha l Hl) as [wires Hw]. exists wires. split; [done |]. intros chunks size first Hb Hch Hcat.
  destruct (fetch_responses w cb help interface 0 fd1 fd2 from ctx prof when ids k p a Ht Hc Hd Hne) as (x' & E & Hk).
  destruct (loop_answers ceiling Ha (standard w cb help interface 0) fd0 l [fd0; fds] _ _ x' chunks size first wires Hl Hw Hb Hch Hcat eq_refl Hv E)
    as (ps & c' & Em & Hx & _ & Hps); [constructor; [done | constructor; [done | constructor]] |].
  eexists _, c'. split_and!; [done | by rewrite Hx |]. intros pieces size' Hb' Hne' Hc'.
  destruct (client_reads ceiling Ha understood ps _ pieces size' Hps Hb' Hne' Hc') as (bs & Eb & Hu).
  cbn [omap list_omap id] in Eb, Hu.
  apply Forall2_cons_inv_l in Hu as (b & bs' & Hu & ->%Forall2_nil_inv_l & ->). by exists b.
Qed.

(** ** Examples *)

Ltac takes := apply takes_delivers; by vm_compute.
Ltac below := intros ? ? E; vm_compute in E; injection E as <- _; reflexivity.
(** The agent of [Callback], asked for metrics of a table and of a cache without one of the
    instances of the table. *)
Definition ex_request : __pmProfile := mkProfile 0 [mkInDomProfile (pmInDom_build 0 8) 0 [0]].
Definition ex_ids : list Z := [pmid_build 0 0 1; pmid_build 0 0 0; 77; pmid_build 0 0 2].
Definition ex_result : pmResult :=
  mkResult 0 0 [mkVset 1 1 PM_VAL_DPTR [mkValue 1 (Pval (mkVB PM_TYPE_U64 (DeriveEval.DeriveEval.put_word 8 100)))]; mkVset 0 1 PM_VAL_INSITU [mkValue (-1) (Lval 101)];
    mkVset 77 PM_ERR_PMID PM_VAL_INSITU []; mkVset 2 1 PM_VAL_INSITU [mkValue 0 (Lval 102)]].
Lemma ex_result_wf : result_wf ex_result.
Proof.
  split; cbn [stamp_sec stamp_usec vset ex_result]; [lia | lia | | | ..].
  2: repeat constructor; vm_compute; reflexivity.
  2-5: vm_compute; split || reflexivity || intros [=].
  assert (∀ z, (- 2^31 <=? z) && (z <? 2^31) = true → is_s32 z) as H32 by (intros z [?%Z.leb_le ?%Z.ltb_lt]%andb_true_iff; done).
  repeat (apply Forall_cons; split); [.. | constructor]; unfold vset_wf; cbn [vpmid numval valfmt vlist];
    (split_and!; [done | by apply H32 | by apply H32 | done | | done]); [.. | constructor |]; rewrite Forall_singleton; (split; [by apply H32 |]);
    cbn [val]; (split; [done |]); [| by apply H32 ..].
  split_and!; [done | done | vm_compute; reflexivity | vm_compute; lia | done].
Qed.
Definition ex_message (n : Z) (q : request) : message := mkMessage (takes n) 3 q.
Definition ex_messages : list message :=
  [ex_message 48 (QProfile 1 ex_request); ex_message 44 (QFetch 1 None ex_ids); ex_message 40 (QNames [name_a]); ex_message 40 (QChildren name_a 0);
   ex_message 40 (QTraverse name_a); ex_message 24 (QId 5 0); ex_message 16 (QDesc (pmid_build 0 0 1));
   ex_message 32 (QInstance (mkTv32 0 0) (pmInDom_build 0 8) NO_INST None); ex_message 20 (QText 5 4); ex_message 200 (QStore demo_result);
   ex_message 16 (QError PM_ERR_NOTCONN)].
Definition ex_answers : list (option answer) :=
  [None; Some (AResult ex_result); Some (AError PM_ERR_NAME); Some (AError PM_ERR_NAME); Some (AError PM_ERR_NAME); Some (AError PM_ERR_PMID);
   Some (ADesc (mkDesc (pmid_build 0 0 1) PM_TYPE_U64 (pmInDom_build 0 8) 1 ex_units));
   Some (AInstance (Instance.mkInResult (pmInDom_build 0 8) 2 (Some [0; 1]) (Some [name_a; name_bc]))); Some (AError PM_ERR_TEXT);
   Some (AError PM_ERR_PERMISSION); None].
Lemma ex_messages_ok : Forall (@message_ok heap_alloc) ex_messages.
Proof.
  repeat (apply Forall_cons; split); [.. | constructor]; (split; [| split; [done | below]]); cbn [ex_message m_fd m_request request_ok].
  all: unfold fetch_wf, names_wf, ireq_wf, tv32_wf; cbn [fst snd].
  - split_and!; [takes | done | done | done | done | done |]. repeat constructor; done.
  - split_and!; [takes | done | by intros ? | repeat constructor; done | done | by vm_compute].
  - split_and!; [takes | by vm_compute | by vm_compute | done | by intros ? [= <-] | done].
  - split_and!; [takes | done | done].
  - split_and!; [takes | done].
  - split_and!; [takes | done | done].
  - split_and!; [takes | done].
  - split_and!; [takes | done | done | done | done | done | by constructor | done].
  - split_and!; [takes | done | done | done].
  - split_and!; [takes | apply demo_result_wf | done].
  - split_and!; [takes | done].
Qed.
Lemma ex_replies_ok : Forall2 (@reply_ok heap_alloc) (replicate 11 (takes 1000)) ex_answers.
Proof.
  repeat (constructor; [first [exact I | split; [| below]] |]); [.. | constructor]; cbn [answer_ok].
  - split_and!; [takes | apply ex_result_wf | done].
  - split_and!; [takes | done].
  - split_and!; [takes | done].
  - split_and!; [takes | done].
  - split_and!; [takes | done].
  - split_and!; [takes |]. split_and!; [done .. |]. by split_and!.
  - split_and!; [takes |]. split_and!; [done | done | | | done | done]; [intros ? [= <-]; by split; [| repeat constructor] | by intros ? [= <-]].
  - split_and!; [takes | done].
  - split_and!; [takes | done].
Qed.
Lemma ex_responses : ∃ x', responses (standard no_world ex_callback None 5 0) ex_messages (mkState None (ex_ext, 100)) = Ok (ex_answers, x').
Proof.
  assert (match responses (standard no_world ex_callback None 5 0) ex_messages (mkState None (ex_ext, 100)) with Ok (a, _) => a = ex_answers | _ => False end) as H
    by (vm_compute; reflexivity).
  destruct (responses _ _ _) as [[a x']| |]; [subst; by eexists | done | done].
Qed.
Lemma ex_buffers : buffers PDU_CHUNK.
Proof. split; [unfold PDU_CHUNK; lia | done]. Qed.
Lemma agent_serves_witness :
  Forall2 (λ m a, matched (standard no_world ex_callback None 5 0) (m_request m) a) ex_messages ex_answers ∧
  ∃ x' wires, Forall2 (λ m bytes, @m_send heap_alloc m = Ok (zlen bytes, bytes)) ex_messages wires ∧ ∀ chunks,
    Forall RecvFacts.nonempty chunks → concat chunks = concat wires →
    ∃ out c', @pmdaMain _ (standard no_world ex_callback None 5 0) heap_alloc 65536 (replicate 12 (takes 1000))
        (mkConn (Recv.RData <$> chunks) PDU_CHUNK true (mkState None (ex_ext, 100))) = Some (Ok (out, c'))
      ∧ agent c' = x'
      ∧ ∀ pieces, Forall RecvFacts.nonempty pieces → concat pieces = out →
        ∃ bs, @RecvFacts.getpdus heap_alloc 65536 9 (Recv.RData <$> pieces) ANY_SIZE Recv.TIMEOUT_NEVER PDU_CHUNK = Some bs
          ∧ Forall2 (@understood heap_alloc) (omap id ex_answers) bs.
Proof.
  destruct ex_responses as [x' E].
  destruct (@agent_serves heap_alloc _ (standard no_world ex_callback None 5 0) 65536 ex_messages (mkState None (ex_ext, 100)) ex_answers x'
    (replicate 11 (takes 1000)) (takes 1000) heap_alloc_ok eq_refl eq_refl ex_messages_ok E ex_replies_ok) as (Hm & wires & Hw & Hs).
  split; [exact Hm |]. exists x', wires. split; [exact Hw |]. intros chunks Hne Hc.
  destruct (Hs chunks PDU_CHUNK true ex_buffers Hne Hc) as (out & c' & Er & Hx & _ & Hp).
  exists out, c'. split; [exact Er |]. split; [exact Hx |]. intros pieces Hne' Hc'. exact (Hp pieces PDU_CHUNK ex_buffers Hne' Hc').
Defined.
Lemma remote_fetch_witness :
  ∃ wires, Forall2 (λ m bytes, @m_send heap_alloc m = Ok (zlen bytes, bytes)) (take 2 ex_messages) wires ∧ ∀ chunks,
    Forall RecvFacts.nonempty chunks → concat chunks = concat wires →
    ∃ out c', @pmdaMain _ (standard no_world ex_callback None 5 0) heap_alloc 65536 [takes 104; takes 104; takes 104]
        (mkConn (Recv.RData <$> chunks) PDU_CHUNK true (mkState None (ex_ext, 100))) = Some (Ok (out, c'))
      ∧ ∀ pieces, Forall RecvFacts.nonempty pieces → concat pieces = out →
        ∃ b, @RecvFacts.getpdus heap_alloc 65536 1 (Recv.RData <$> pieces) ANY_SIZE Recv.TIMEOUT_NEVER PDU_CHUNK = Some [b]
          ∧ (λ x, Result.view x.1) <$> @Result.__pmDecodeResult heap_alloc b = Ok ex_result.
Proof.
  assert (mkResult 0 0 (expected ex_callback ex_ids (asked 5 3 ex_request ex_ext) 100).1 = ex_result) as Er by (vm_compute; reflexivity).
  assert (Forall (@message_ok heap_alloc) (take 2 ex_messages)) as Hm by (apply Forall_take, ex_messages_ok).
  destruct (@remote_fetch heap_alloc no_world Z ex_callback None 65536 5 3 1 ex_request None ex_ids None ex_ext 100 (takes 48) (takes 44) (takes 104) (takes 104)
    heap_alloc_ok eq_refl ex_typed ex_caches ex_direct) as (wires & Hw & Hs).
  - done.
  - exact Hm.
  - rewrite Er. split; [| below]. split_and!; [takes | apply ex_result_wf | done].
  - exists wires. split; [exact Hw |]. intros chunks Hne Hc.
    destruct (Hs chunks PDU_CHUNK true ex_buffers Hne Hc) as (out & c' & E & _ & Hp).
    exists out, c'. split; [exact E |]. intros pieces Hne' Hc'. rewrite <- Er. exact (Hp pieces PDU_CHUNK ex_buffers Hne' Hc').
Defined.

(** ** What goes wrong *)

(** A request for instances that cannot be decoded: the name that is freed was never set. *)
Lemma bad_instance_request `{PduAlloc} {S} (dispatch : pmdaInterface S) b from x e :
  Instance.__pmDecodeInstanceReq b = Err e → serve dispatch PDU_INSTANCE_REQ b from x = Fault.
Proof. intros E. unfold serve. cbn. by rewrite E. Qed.
Lemma bad_instance_request_example : Instance.__pmDecodeInstanceReq (le32 12 ++ le32 PDU_INSTANCE_REQ ++ le32 0) = Err PM_ERR_IPC.
Proof. by vm_compute. Qed.
(** A result to be stored that cannot be decoded: the result that is freed was never set. *)
Lemma bad_store `{PduAlloc} {S} (dispatch : pmdaInterface S) b from x e :
  Result.__pmDecodeResult b = Err e → serve dispatch PDU_RESULT b from x = Fault.
Proof. intros E. unfold serve. cbn. by rewrite E. Qed.
(** While the check callback fails, a notice of the collector is answered, although no
    answer is expected. *)
Lemma notice_answered {S} (dispatch : pmdaInterface S) check from code x i s :
  e_checkCallBack dispatch = Some check → check (ext (enter_pdu dispatch from x)) = (i, s) → i < 0 →
  ∃ x', respond dispatch from (QError code) x = Ok (Some (AError i), x').
Proof. intros Ec Ei Hi. unfold respond, around. rewrite Ec, Ei, (proj2 (Z.ltb_lt _ _)) by done. by eexists. Qed.
